(* ===== verification/_CoqProject ===== *)
-Q . S2P
Prelude.v
Float64.v
GoLib.v
GoFlag.v
Types.v
Store.v
Service.v
Decimal.v
Http.v
Json.v
GoJson.v
Server.v
Calculator.v
Client.v
Gateway.v
Consumer.v
Pipeline.v
Broker.v
Restart.v
Obu.v
LoadMain.v
ObuConcurrency.v
ObuStop.v
ObuMetrics.v
Receiver.v
Forwarding.v
Benchmark.v
BenchTransport.v
BenchPipeline.v
BenchMeasure.v
Metrics.v
Startup.v
Lifecycle.v
Manual.v
EndToEnd.v
