(* ===== verification/Prelude.v ===== *)
(** * Tollify: verification library (root and prelude)

    Tollify bills road tolls.  On-board units (OBUs; the load generator simulates
    them) send positions over WebSockets to the data receiver, which puts them on
    a Kafka topic keyed by vehicle.  The distance calculator consumes the topic,
    turns each position into the distance from the vehicle's previous one, and
    sends it to the aggregator over gRPC (or HTTP), which adds it to the vehicle's
    total and prices invoices.  The gateway serves invoices to the public.
    Kafka delivers at least once and every call may fail, so the system's central
    promise is that each event is billed exactly once all the same.

    ** Method

    A Go method is a function of type [M W A] (state passing over a world [W]).
    A process [Proc S] is its own heap [S], the calls made on its Prometheus
    collectors, its clock (any function of the reading) and the number of
    readings.  Errors are values of [GoLib.error], floats are the binary64
    [spec_float] of the Standard Library, [int] and friends are [Z] with the
    wrapping written out where the code can wrap.  A method that holds a mutex
    from its first line to its last is one step; goroutines without one are an
    interleaving step relation.  What is not this program's code - sockets, Kafka,
    gRPC and HTTP transports, contexts, url.Parse - enters as a type class of
    operations, with laws only where a theorem needs them: [JsonLaws] (Http.v),
    [GrpcTransportSpec] (Client.v), [TopicLaws] (Pipeline.v), [BucketsLaws] (Metrics.v).  GoJson.v (a model
    of encoding/json down to the bytes) and Broker.v give instances, so that every
    law is satisfiable, and the witnesses evaluate the theorems on concrete inputs.

    ** Files, the code they model, and what they show

    - Prelude: this file: state passing, a Hoare logic, machine integers, tactics,
      totals over updated lists.
    - Float64: operators and the parts of math the services use; sign, NaN,
      symmetry and canonical-form lemmas.
    - GoLib: errors and errors.Is/As, strconv, strings, clocks, processes.
      GoFlag: environment variables, package flag, integers with base prefixes; a
      spelled command line is read back.
    - Types (types/types.go): the shared structs, the FNV-1a fingerprint of an
      event id and the digest (count, xor, sum) of a set of ids.  The fingerprint
      tells ids apart that differ in one byte, the digest is order independent
      and notices every lost event and every replaced one of another fingerprint.
    - Store (aggregator/store.go): MemoryStore refines the ledger of applied events
      ([StorerSpec], the interface the service is proved against): every call
      sequence answers as the ledger does, each id is applied once, reordering
      the callers changes neither ids nor digest, totals stay non-negative.
    - Service (aggregator/service.go, middleware.go): the aggregator's logic under
      its middlewares, on every branch; counters agree with the ledger; replays
      change nothing; invoices are the priced sums and never negative or NaN.
    - Http: requests, writers, query lookup, writeJson, the interface to
      encoding/json.  Decimal, Json, GoJson (the tags of types/types.go): numbers as
      text, JSON texts and their parser, encoding and decoding of the shared
      structs; what one service writes the next one reads back, and an event is
      decoded exactly or refused.
    - Server (aggregator/http.go, grpc.go, main.go): handlers, routing,
      instrumentation and gauges; both transports have the same effect.
    - Calculator (dist-calc/service.go, middleware.go): CalcService refines a
      history of calculated events; replays are answered from the cache; vehicles
      do not influence each other; distances are a symmetric non-negative function.
    - Client (aggregator/client): both clients, and that they agree end to end.
    - Gateway (gateway/main.go): an invoice request from the public endpoint to the
      store and back, on every branch.
    - Consumer (dist-calc/consumer.go): processEvent, processMessage, updateLag,
      the loop of Start.  Pipeline: its guarantees in any environment with the
      broker's laws, for a topic of any number of partitions read in any order:
      exactly-once billing of a prefix of each that covers every committed offset;
      the bills are the trajectory's segments; an event the aggregator can never
      accept blocks its partition.  Broker: an environment with a schedule of
      faults, in which the loop finishes every partition.  Restart: calculators
      that crash and start again, with their memory lost, bill every event exactly
      once between them, and lose at most the segments that span a crash; the last
      one finishes the topic.
    - Obu, ObuConcurrency (obu/main.go): configuration, ramp schedule, events, and
      the goroutines of both load modes; the generator's digest and counters are
      exact in every interleaving, ids are unique, vehicles keep their order.
      ObuStop: when its context is done every schedule of the goroutines ends.
      ObuMetrics: the goroutines with their Prometheus calls; the counters agree
      with the atomic ones in every interleaving, and at the end with the summary.
      LoadMain: dialling, closing, the printed summary, main: however it ends, the
      sockets it opened are closed.
    - Receiver, Forwarding (data_receiver): the connection handler, producer and
      origin check; what is accepted is forwarded once, in order, in messages
      that the consumer decodes to the same events.
    - Benchmark (benchmark/main.go): configuration, the pipeline load, percentiles
      and histograms.  BenchTransport: the transport benchmark, whose workers are a
      step relation that always ends, with every request sent once.  BenchPipeline:
      reading a metrics page, the waiting loops, the pipeline benchmark, the report,
      main.  BenchMeasure: the pipeline benchmark ends, it starts its loads after
      the warm-up events are sampled, and where the aggregator samples each applied
      event once every result is measured on the samples of its own load.
    - Metrics (the promauto blocks of all programs): which collectors a program
      registers; registering them does not panic, and every metric operation of
      the models, the goroutines of the load generator included, is on one of them,
      of its kind and with its number of labels.
    - Startup (the mains and [parseFlags]): defaults, environment and flags of each
      program.  Lifecycle (dist-calc/main.go and consumer.go, data_receiver,
      aggregator/main.go, gateway): constructors, main and Close; the calculator
      closes what it opened, once and in order, except that its gRPC client stays
      open when the consumer cannot be made.  Manual (aggregator/temp): the program that
      sends one event by hand.
    - EndToEnd: the components together, from the generator through the receiver,
      Kafka (partitions chosen by the key of the message) and the calculator to the
      aggregator: its digest is the one that the generator prints, and a vehicle
      pays for the path it drove.

    ** Bounds and fuel

    [Consumer.Start n] runs at most [n] rounds and [Receiver.handleWS] reads at most
    [n] messages: both are endless loops in the code, the safety theorems hold for
    every [n], and [consumer_completes] gives a number of rounds after which every
    partition is finished.  The square root, the power and the trimming loops are
    structural.  [Obu.assign_from] gets one unit of fuel per vehicle, which
    [elem_of_assign_from] shows to be enough.  The waiting loops of BenchPipeline
    end when the clock passes their deadline; [pipeline_benchmark_measures] gives
    fuel after which nothing changes any more.  [percentile_nearest_rank] is proved
    for at most 5000 samples, the default number of requests.

    ** What is not modelled

    Log lines; what the library calls of Lifecycle.v do (listening, dialling, the
    order in which goroutines of net/http run), timeouts as such; generated
    protobuf code (only its message and method name are used) and wire formats;
    the texts of the errors of encoding/json, strconv and time; parsing floats and
    durations outside JSON, and lower case outside ASCII ([TextLib], [CaseLib]);
    metrics pages whose bounds are NaN or negative zero; that label values must be
    UTF-8.  The partition of a message is any function of its key:
    that librdkafka's default partitioner is one is assumed. *)

From stdpp Require Export prelude gmap strings pretty.
From Stdlib Require Export ZArith Lia.

#[global] Set Default Proof Using "Type".

(** ** Notation scope, hint database *)

Declare Scope toll_scope.
Delimit Scope toll_scope with toll.
Create HintDb toll.

(** ** State passing

    Every Go method that reads or writes a process is a function of type
    [M W A]: it takes the world [W] (the heap of one process, a broker, ...)
    and returns the Go results together with the new world. *)

Definition M (W A : Type) : Type := W → A * W.

#[global] Instance M_ret {W} : MRet (M W) := λ A a w, (a, w).
#[global] Instance M_bind {W} : MBind (M W) :=
  λ A B f m w, let '(a, w') := m w in f a w'.

Definition gets {W A} (f : W → A) : M W A := λ w, (f w, w).
Definition modify {W} (f : W → W) : M W () := λ w, ((), f w).

(** [run m w] is the value, [exec m w] the final world of a run. *)
Definition run {W A} (m : M W A) (w : W) : A := (m w).1.
Definition exec {W A} (m : M W A) (w : W) : W := (m w).2.

Lemma M_bind_eq {W A B} (m : M W A) (f : A → M W B) (w : W) :
  (m ≫= f) w = f (m w).1 (m w).2.
Proof. unfold mbind, M_bind. by destruct (m w). Qed.

Lemma M_bind_assoc {W A B C} (m : M W A) (f : A → M W B) (g : B → M W C) w :
  ((m ≫= f) ≫= g) w = (m ≫= λ a, f a ≫= g) w.
Proof. by rewrite !M_bind_eq. Qed.

(** [Hoare P m Q]: started in a world satisfying [P], [m] ends with a value and
    a world related by [Q] (the runs are total, so this is total correctness). *)
Definition hoare {W A} (P : W → Prop) (m : M W A) (Q : A → W → Prop) : Prop :=
  ∀ w, P w → Q (m w).1 (m w).2.

Lemma hoare_ret {W A} (a : A) (Q : A → W → Prop) : hoare (Q a) (mret a) Q.
Proof. by intros w ?. Qed.

Lemma hoare_bind {W A B} P (m : M W A) R (f : A → M W B) Q :
  hoare P m R → (∀ a, hoare (R a) (f a) Q) → hoare P (m ≫= f) Q.
Proof. intros Hm Hf w Hw. rewrite M_bind_eq. by apply Hf, Hm. Qed.

Lemma hoare_conseq {W A} (P P' : W → Prop) (m : M W A) (Q Q' : A → W → Prop) :
  hoare P' m Q' → (∀ w, P w → P' w) → (∀ a w, Q' a w → Q a w) → hoare P m Q.
Proof. intros Hm HP HQ w Hw. by apply HQ, Hm, HP. Qed.

Lemma hoare_and {W A} (P P' : W → Prop) (m : M W A) (Q Q' : A → W → Prop) :
  hoare P m Q → hoare P' m Q' → hoare (λ w, P w ∧ P' w) m (λ a w, Q a w ∧ Q' a w).
Proof. intros Hm Hm' w [HP HP']. split; [by apply Hm|by apply Hm']. Qed.

Lemma hoare_pre_and {W A} (R : Prop) P (m : M W A) Q :
  (R → hoare P m Q) → hoare (λ w, R ∧ P w) m Q.
Proof. intros Hm w [HR HP]. by apply Hm. Qed.

Lemma hoare_pre_ex {W A X} (P : X → W → Prop) (m : M W A) Q :
  (∀ x, hoare (P x) m Q) → hoare (λ w, ∃ x, P x w) m Q.
Proof. intros Hm w [x HP]. by apply (Hm x). Qed.

(** ** Machine integers *)

Section Width.
Local Open Scope Z_scope.

(** Conversion to an unsigned [n]-bit integer. *)
Definition wrapU (n z : Z) : Z := z mod 2 ^ n.
(** Conversion to a signed (two's complement) [n]-bit integer. *)
Definition wrapS (n z : Z) : Z := (z + 2 ^ (n - 1)) mod 2 ^ n - 2 ^ (n - 1).

Definition in_u64 (z : Z) : Prop := 0 ≤ z < 2 ^ 64.
Definition in_i64 (z : Z) : Prop := - 2 ^ 63 ≤ z < 2 ^ 63.
Definition in_i32 (z : Z) : Prop := - 2 ^ 31 ≤ z < 2 ^ 31.

#[global] Instance in_u64_dec z : Decision (in_u64 z).
Proof. unfold in_u64. apply _. Defined.
#[global] Instance in_i64_dec z : Decision (in_i64 z).
Proof. unfold in_i64. apply _. Defined.
#[global] Instance in_i32_dec z : Decision (in_i32 z).
Proof. unfold in_i32. apply _. Defined.

Lemma wrapU_range n z : 0 ≤ n → 0 ≤ wrapU n z < 2 ^ n.
Proof. intros. apply Z.mod_pos_bound. lia. Qed.

Lemma wrapU_id n z : 0 ≤ z < 2 ^ n → wrapU n z = z.
Proof. apply Z.mod_small. Qed.

Lemma wrapS_range n z : 0 < n → - 2 ^ (n - 1) ≤ wrapS n z < 2 ^ (n - 1).
Proof.
  intros Hn. unfold wrapS.
  assert (2 ^ n = 2 * 2 ^ (n - 1)) as E.
  { rewrite <- Z.pow_succ_r by lia. f_equal. lia. }
  pose proof (Z.mod_pos_bound (z + 2 ^ (n - 1)) (2 ^ n)). lia.
Qed.

Lemma wrapS_id n z : 0 < n → - 2 ^ (n - 1) ≤ z < 2 ^ (n - 1) → wrapS n z = z.
Proof.
  intros Hn Hz. unfold wrapS. rewrite Z.mod_small; [lia|].
  assert (2 ^ n = 2 * 2 ^ (n - 1)); [|lia].
  rewrite <- Z.pow_succ_r by lia. f_equal. lia.
Qed.

Lemma wrapU_add_l n a b : wrapU n (wrapU n a + b) = wrapU n (a + b).
Proof. unfold wrapU. apply Zplus_mod_idemp_l. Qed.
Lemma wrapU_add_r n a b : wrapU n (a + wrapU n b) = wrapU n (a + b).
Proof. unfold wrapU. apply Zplus_mod_idemp_r. Qed.

(** [^] on unsigned words stays inside the word. *)
Lemma lxor_u64 a b : in_u64 a → in_u64 b → in_u64 (Z.lxor a b).
Proof.
  unfold in_u64. intros [Ha Ha'] [Hb Hb'].
  assert (0 ≤ Z.lxor a b) as H0 by (apply Z.lxor_nonneg; lia).
  split; [done|]. destruct (Z.eq_dec (Z.lxor a b) 0) as [->|Hne]; [lia|].
  apply Z.log2_lt_pow2; [lia|].
  assert (∀ z, 0 ≤ z < 2 ^ 64 → Z.log2 z < 64) as Hl.
  { intros z Hz. destruct (Z.eq_dec z 0) as [->|]; [done|].
    apply Z.log2_lt_pow2; lia. }
  pose proof (Z.log2_lxor a b Ha Hb). pose proof (Hl a). pose proof (Hl b). lia.
Qed.
End Width.

#[export] Hint Resolve lxor_u64 : toll.

(** ** Tactics *)

(** Unfolds the state-passing combinators and evaluates them. *)
Ltac simpl_M :=
  unfold run, exec, gets, modify in *;
  repeat (rewrite M_bind_eq in *; simpl);
  unfold mret, M_ret in *; simpl in *.

(** Case analysis on every [if]/[match] scrutinee of the goal, closing the
    branches that reduce to an equation. *)
Ltac cases := repeat (case_match || case_decide); simplify_eq/=; try done.

(** Turns the boolean comparisons in the context into propositions. *)
Ltac b2p :=
  repeat match goal with
  | H : _ || _ = true |- _ => apply orb_true_iff in H
  | H : _ || _ = false |- _ => apply orb_false_iff in H as [??]
  | H : _ && _ = true |- _ => apply andb_true_iff in H as [??]
  | H : _ && _ = false |- _ => apply andb_false_iff in H
  | H : negb _ = true |- _ => apply negb_true_iff in H
  | H : negb _ = false |- _ => apply negb_false_iff in H
  | H : bool_decide _ = true |- _ => apply bool_decide_eq_true in H
  | H : bool_decide _ = false |- _ => apply bool_decide_eq_false in H
  | H : Z.leb _ _ = true |- _ => apply Z.leb_le in H
  | H : Z.leb _ _ = false |- _ => apply Z.leb_gt in H
  | H : Z.ltb _ _ = true |- _ => apply Z.ltb_lt in H
  | H : Z.ltb _ _ = false |- _ => apply Z.ltb_ge in H
  | H : Z.eqb _ _ = true |- _ => apply Z.eqb_eq in H
  | H : Z.eqb _ _ = false |- _ => apply Z.eqb_neq in H
  end.

(** ** Lists *)

Section Lists.
Context {A B : Type}.

Lemma foldl_snoc (f : B → A → B) b l x : foldl f b (l ++ [x]) = f (foldl f b l) x.
Proof. by rewrite foldl_app. Qed.

(** An invariant kept by every step is kept by the fold. *)
Lemma foldl_inv (P : B → Prop) (f : B → A → B) b l :
  P b → (∀ b x, x ∈ l → P b → P (f b x)) → P (foldl f b l).
Proof.
  revert b. induction l as [|x l IH]; intros b Hb Hf; simpl; [done|].
  apply IH; [apply Hf; [left|done]|]. intros ? y ?. apply Hf. by right.
Qed.

Lemma NoDup_fmap_filter (f : A → B) (P : A → Prop) `{∀ x, Decision (P x)} l :
  NoDup (f <$> l) → NoDup (f <$> filter P l).
Proof.
  induction l as [|x l IH]; [done|]. rewrite fmap_cons, NoDup_cons, filter_cons.
  intros [Hx Hl]. case_decide; [|by apply IH]. rewrite fmap_cons. constructor; [|by apply IH].
  intros (y & E & [_ Hy]%list_elem_of_filter)%list_elem_of_fmap.
  apply Hx. rewrite E. by apply list_elem_of_fmap_2.
Qed.

Lemma NoDup_fmap_inj (f : A → B) l x y :
  NoDup (f <$> l) → x ∈ l → y ∈ l → f x = f y → x = y.
Proof.
  intros Hnd [i Hi]%list_elem_of_lookup [j Hj]%list_elem_of_lookup E.
  assert (i = j) as ->; [|congruence].
  apply (NoDup_lookup (f <$> l) i j (f x)); [done|..]; rewrite list_lookup_fmap; [by rewrite Hi|].
  by rewrite Hj, E.
Qed.

(** A filter inside another that implies it. *)
Lemma filter_implied (P Q : A → Prop) `{∀ x, Decision (P x)} `{∀ x, Decision (Q x)} (l : list A) :
  (∀ x, x ∈ l → P x → Q x) → filter P (filter Q l) = filter P l.
Proof.
  induction l as [|x l IH]; intros Hl; [done|]. rewrite !(filter_cons _ x l).
  assert (filter P (filter Q l) = filter P l) as IH' by (apply IH; intros y Hy; apply Hl; by right).
  destruct (decide (Q x)) as [|Hq].
  - rewrite filter_cons, IH'. done.
  - rewrite IH', decide_False; [done|]. intros Hp. apply Hq, Hl; [left|done].
Qed.

Lemma filter_none (P : A → Prop) `{∀ x, Decision (P x)} (l : list A) :
  Forall (λ x, ¬ P x) l → filter P l = [].
Proof. induction 1; [done|]. by rewrite filter_cons_False. Qed.

Lemma filter_concat (P : A → Prop) `{∀ x, Decision (P x)} (ls : list (list A)) :
  filter P (concat ls) = concat (filter P <$> ls).
Proof. induction ls as [|l ls IH]; simpl; [done|]. by rewrite filter_app, IH. Qed.

Lemma Forall_filter (P Q : A → Prop) `{∀ x, Decision (P x)} (l : list A) :
  Forall Q l → Forall Q (filter P l).
Proof. induction 1; rewrite ?filter_cons; repeat case_decide; by repeat constructor. Qed.

Lemma elem_of_concat (ls : list (list A)) x : x ∈ concat ls ↔ ∃ l, l ∈ ls ∧ x ∈ l.
Proof. induction ls as [|l ls IH]; simpl; set_solver. Qed.

Lemma Forall2_concat_all (R : A → B → Prop) ls ks :
  Forall2 (Forall2 R) ls ks → Forall2 R (concat ls) (concat ks).
Proof. induction 1; simpl; [constructor|]. by apply Forall2_app. Qed.

(** A step function whose order of application does not matter gives the same
    result on every permutation. *)
Lemma foldl_Permutation (f : B → A → B) b l l' :
  (∀ b x y, f (f b x) y = f (f b y) x) → l ≡ₚ l' → foldl f b l = foldl f b l'.
Proof.
  intros Hf Hl. revert b. induction Hl as [|x l l' _ IH|x y l|l1 l2 l3 _ IH1 _ IH2];
    intros b; simpl; [done|apply IH|by rewrite Hf|by rewrite IH1].
Qed.
End Lists.

(** ** Relations that use up a measure *)

Section Measure.
Context {A : Type} (R : relation A) (μ : A → nat) (Hμ : ∀ x y, R x y → (μ y < μ x)%nat).

Lemma nsteps_measure n x y : nsteps R n x y → (n + μ y ≤ μ x)%nat.
Proof using Hμ. induction 1 as [|n x y z Hs _ IH]; [done|]. pose proof (Hμ _ _ Hs). lia. Qed.

(** When the only states without a step are the final ones, one is reached. *)
Lemma measure_ends (I final : A → Prop) :
  (∀ x, I x → final x ∨ ∃ y, R x y) → (∀ x y, R x y → I x → I y) →
  ∀ x, I x → ∃ y, rtc R x y ∧ final y.
Proof using Hμ.
  intros Hstep Hinv x. induction x as [x IH] using (well_founded_ind (well_founded_ltof A μ)).
  intros Hx. destruct (Hstep x Hx) as [|[y Hy]]; [by exists x; split; [apply rtc_refl|]|].
  destruct (IH y) as (z & Hz & Hf); [by apply Hμ|by eapply Hinv|].
  exists z. split; [by eapply rtc_l|done].
Qed.
End Measure.

(** ** Totals over a list with updates *)

(** [total f l] adds up [f] over [l]; it is a homomorphism, so an update at one
    index is accounted for by the old and the new element. *)
Definition total {A} (f : A → Z) (l : list A) : Z := foldr (λ x z, (f x + z)%Z) 0%Z l.

Definition total_xor {A} (f : A → Z) (l : list A) : Z := foldr (λ x z, Z.lxor (f x) z) 0%Z l.

Lemma total_app {A} (f : A → Z) l l' : total f (l ++ l') = (total f l + total f l')%Z.
Proof. induction l as [|x l IH]; simpl; lia. Qed.

Lemma total_xor_app {A} (f : A → Z) l l' :
  total_xor f (l ++ l') = Z.lxor (total_xor f l) (total_xor f l').
Proof. induction l as [|x l IH]; simpl; [by rewrite Z.lxor_0_l|]. by rewrite IH, Z.lxor_assoc. Qed.

Lemma total_insert {A} (f : A → Z) l i x y :
  l !! i = Some x → total f (<[i:=y]> l) = (total f l - f x + f y)%Z.
Proof.
  revert i. induction l as [|a l IH]; intros [|i]; try done; simpl.
  - intros [= <-]. lia.
  - intros Hi. rewrite (IH i Hi). lia.
Qed.

Lemma total_xor_insert {A} (f : A → Z) l i x y :
  l !! i = Some x →
  total_xor f (<[i:=y]> l) = Z.lxor (total_xor f l) (Z.lxor (f x) (f y)).
Proof.
  revert i. induction l as [|a l IH]; intros [|i]; try done; simpl.
  - intros [= <-]. rewrite <- (Z.lxor_assoc (Z.lxor _ _) (f a)), (Z.lxor_comm (f a) (total_xor f l)).
    by rewrite (Z.lxor_assoc (total_xor f l)), Z.lxor_nilpotent, Z.lxor_0_r, Z.lxor_comm.
  - intros Hi. by rewrite (IH i Hi), Z.lxor_assoc.
Qed.

Lemma total_zero {A} (f : A → Z) l : Forall (λ x, f x = 0%Z) l → total f l = 0%Z.
Proof. induction 1 as [|x l Hx _ IH]; simpl; lia. Qed.

Lemma total_xor_zero {A} (f : A → Z) l : Forall (λ x, f x = 0%Z) l → total_xor f l = 0%Z.
Proof. induction 1 as [|x l Hx _ IH]; simpl; [done|]. by rewrite Hx, IH. Qed.

Lemma total_const {A} (l : list A) : total (λ _, 1%Z) l = Z.of_nat (length l).
Proof. induction l as [|x l IH]; simpl; lia. Qed.
