(* ===== verification/Float64.v ===== *)
(** * Float64: Go's [float64] and the parts of package [math] the services use

    A [float64] is IEEE-754 binary64.  The model is the executable
    specification [spec_float] of the Standard Library at precision 53 and
    maximal exponent 1024 (all NaNs are identified: Go programs here never look
    at a NaN payload).  The file defines the operators, the conversions, and
    [math.IsNaN], [math.IsInf], [math.Sqrt] and [math.Pow(x, 2)], and proves
    the sign, NaN and symmetry lemmas the services rely on, and that the results
    are in canonical form ([fvalid]) when the operands are. *)

From S2P Require Import Prelude.
From Stdlib Require Export SpecFloat.

#[global] Instance spec_float_eq_dec : EqDecision spec_float.
Proof. solve_decision. Defined.

(** ** Operators *)

Abbreviation float64 := spec_float (only parsing).

Definition fzero : float64 := S754_zero false.
Definition fadd (x y : float64) : float64 := SFadd 53 1024 x y.
Definition fsub (x y : float64) : float64 := SFsub 53 1024 x y.
Definition fmul (x y : float64) : float64 := SFmul 53 1024 x y.
Definition fdiv (x y : float64) : float64 := SFdiv 53 1024 x y.
Definition fltb (x y : float64) : bool := SFltb x y.
Definition fleb (x y : float64) : bool := SFleb x y.
Definition feqb (x y : float64) : bool := SFeqb x y.

(** [float64(i)] of an integer: round to nearest, ties to even. *)
Definition f_of_Z (z : Z) : float64 := binary_normalize 53 1024 z 0 false.

(** The float64 nearest to the decimal constant [n/d], for [n] and [d] that are
    themselves representable. *)
Definition f_of_ratio (n d : Z) : float64 := fdiv (f_of_Z n) (f_of_Z d).

(** ** Package math *)

Definition IsNaN (x : float64) : bool :=
  match x with S754_nan => true | _ => false end.
(** [math.IsInf(x, 0)] *)
Definition IsInf (x : float64) : bool :=
  match x with S754_infinity _ => true | _ => false end.
Definition is_finite (x : float64) : bool := negb (IsNaN x) && negb (IsInf x).

Definition math_Sqrt (x : float64) : float64 := SFsqrt 53 1024 x.

(** The value of a finite float rounded down, and its sign taken apart. *)
Definition float_floor_abs (m : positive) (e : Z) : Z :=
  if (0 <=? e)%Z then (Z.pos m * 2 ^ e)%Z else (Z.pos m / 2 ^ (- e))%Z.

(** The conversion [int64(x)] truncates; outside the [int64] range its result is
    left to the implementation ([cvt]). *)
Definition int64_of_float (cvt : float64 → Z) (x : float64) : Z :=
  match x with
  | S754_finite s m e =>
      let z := (if s then - float_floor_abs m e else float_floor_abs m e)%Z in
      if bool_decide (in_i64 z) then z else cvt x
  | S754_zero _ => 0%Z
  | _ => cvt x
  end.

(** An integral result keeps the sign of [x] when it is zero. *)
Definition integral (s : bool) (z : Z) : float64 :=
  if (z =? 0)%Z then S754_zero s else f_of_Z z.

Definition math_Ceil (x : float64) : float64 :=
  match x with
  | S754_finite s m e =>
      let up := if (0 <=? e)%Z then (Z.pos m * 2 ^ e)%Z
                else ((Z.pos m + 2 ^ (- e) - 1) / 2 ^ (- e))%Z in
      if s then integral true (- float_floor_abs m e) else integral false up
  | _ => x
  end.

(** Half-way cases are rounded away from zero. *)
Definition math_Round (x : float64) : float64 :=
  match x with
  | S754_finite s m e =>
      let near := if (0 <=? e)%Z then (Z.pos m * 2 ^ e)%Z
                  else ((2 * Z.pos m + 2 ^ (- e)) / (2 * 2 ^ (- e)))%Z in
      integral s (if s then - near else near)%Z
  | _ => x
  end.

(** [math.Pow(x, 2)] as the library computes it: the special cases, then the
    square-and-multiply loop on the fraction returned by [Frexp], whose two
    iterations for the exponent 2 leave the (renormalised) squared fraction,
    and [Ldexp] at the end. *)
Definition math_Pow2 (x : float64) : float64 :=
  match x with
  | S754_nan => S754_nan
  | S754_zero _ => fzero
  | S754_infinity _ => S754_infinity false
  | S754_finite _ _ _ =>
      let '(x1, xe) := SFfrexp 53 1024 x in
      let x1 := fmul x1 x1 in
      let xe := (2 * xe)%Z in
      let '(x1, xe) := if fltb x1 (f_of_ratio 1 2) then (fadd x1 x1, (xe - 1)%Z)
                       else (x1, xe) in
      SFldexp 53 1024 x1 xe
  end.

(** ** Signs *)

(** [x >= 0] in Go: true on both zeros, false on NaN. *)
Definition nneg (x : float64) : bool :=
  match x with
  | S754_nan => false
  | S754_zero _ => true
  | S754_infinity s | S754_finite s _ _ => negb s
  end.

Lemma nneg_fleb x : nneg x = fleb fzero x.
Proof. by destruct x as [| [] | | []]. Qed.

Lemma nneg_not_fltb x : IsNaN x = false → nneg x = negb (fltb x fzero).
Proof. by destruct x as [| [] | | []]. Qed.

Section Rounding.
Local Open Scope Z_scope.

Lemma shr_1_nonneg mrs : 0 ≤ shr_m mrs → 0 ≤ shr_m (shr_1 mrs).
Proof. by destruct mrs as [[|[]|[]] ? ?]; simpl. Qed.

Lemma iter_shr_1_nonneg p mrs : 0 ≤ shr_m mrs → 0 ≤ shr_m (iter_pos shr_1 p mrs).
Proof. revert mrs. induction p; simpl; intros; eauto using shr_1_nonneg. Qed.

Lemma shr_fexp_nonneg m e l : 0 ≤ m → 0 ≤ shr_m (shr_fexp 53 1024 m e l).1.
Proof.
  intros Hm. unfold shr_fexp, shr.
  assert (0 ≤ shr_m (shr_record_of_loc m l)) by (destruct l as [|[]]; done).
  case_match; simpl; auto using iter_shr_1_nonneg.
Qed.

Lemma round_nearest_even_nonneg m l : 0 ≤ m → 0 ≤ round_nearest_even m l.
Proof. destruct l as [|[]]; simpl; repeat case_match; lia. Qed.

(** A rounded magnitude keeps the sign it is rounded with and is never NaN. *)
Lemma binary_round_aux_sign s m e l :
  0 ≤ m →
  binary_round_aux 53 1024 s m e l = S754_zero s ∨
  binary_round_aux 53 1024 s m e l = S754_infinity s ∨
  ∃ m' e', binary_round_aux 53 1024 s m e l = S754_finite s m' e'.
Proof.
  intros Hm. unfold binary_round_aux.
  destruct (shr_fexp 53 1024 m e l) as [mrs' e'] eqn:E1.
  pose proof (shr_fexp_nonneg m e l Hm) as H1. rewrite E1 in H1. simpl in H1.
  destruct (shr_fexp _ _ (round_nearest_even _ _) e' loc_Exact) as [mrs'' e''] eqn:E2.
  pose proof (shr_fexp_nonneg (round_nearest_even (shr_m mrs') (loc_of_shr_record mrs'))
    e' loc_Exact (round_nearest_even_nonneg _ _ H1)) as H2.
  rewrite E2 in H2. simpl in H2.
  destruct (shr_m mrs''); [by left| |lia]. case_match; eauto.
Qed.

Lemma binary_round_sign s m e :
  binary_round 53 1024 s m e = S754_zero s ∨
  binary_round 53 1024 s m e = S754_infinity s ∨
  ∃ m' e', binary_round 53 1024 s m e = S754_finite s m' e'.
Proof.
  unfold binary_round. destruct (shl_align _ _ _). by apply binary_round_aux_sign.
Qed.

(** The same magnitude rounded with both signs. *)
Lemma binary_round_aux_opp s m e l :
  0 ≤ m →
  binary_round_aux 53 1024 (negb s) m e l = SFopp (binary_round_aux 53 1024 s m e l).
Proof.
  intros Hm. pose proof (binary_round_aux_sign s m e l Hm) as Hs. revert Hs.
  unfold binary_round_aux.
  destruct (shr_fexp 53 1024 m e l) as [mrs' e'].
  destruct (shr_fexp _ _ (round_nearest_even _ _) e' loc_Exact) as [mrs'' e''].
  destruct (shr_m mrs''); [done|by case_match|naive_solver].
Qed.

Lemma binary_round_opp s m e :
  binary_round 53 1024 (negb s) m e = SFopp (binary_round 53 1024 s m e).
Proof.
  unfold binary_round. destruct (shl_align _ _ _). by apply binary_round_aux_opp.
Qed.
End Rounding.

Lemma binary_normalize_not_NaN z e s : IsNaN (binary_normalize 53 1024 z e s) = false.
Proof.
  destruct z as [|p|p]; simpl; [done|..].
  - by destruct (binary_round_sign false p e) as [->|[->|(?&?&->)]].
  - by destruct (binary_round_sign true p e) as [->|[->|(?&?&->)]].
Qed.

Ltac round_sign :=
  match goal with
  | |- context [binary_round 53 1024 ?s ?m ?e] =>
      destruct (binary_round_sign s m e) as [->|[->|(?&?&->)]]
  | |- context [binary_round_aux 53 1024 ?s ?m ?e ?l] =>
      let H := fresh in
      destruct (binary_round_aux_sign s m e l) as [H|[H|(?&?&H)]]; [lia| | |];
      rewrite H; clear H
  end.

(** ** Sums, products and roots of non-negative numbers *)

Lemma fadd_nneg x y : nneg x → nneg y → nneg (fadd x y).
Proof.
  destruct x as [[]|[]| |[] mx ex], y as [[]|[]| |[] my ey]; simpl; try done.
  intros _ _. by round_sign.
Qed.

(** Multiplication by a positive finite number. *)
Lemma fmul_nneg x m e : nneg x → nneg (fmul x (S754_finite false m e)).
Proof.
  destruct x as [[]|[]| |[] mx ex]; simpl; try done. intros _. by round_sign.
Qed.

Lemma fadd_zero_l x : x ≠ S754_zero true → fadd fzero x = x.
Proof. by destruct x as [[]|[]| |[]]. Qed.

Lemma sqrtrem_nonneg m : (0 ≤ (Z.sqrtrem m).1)%Z.
Proof.
  destruct m as [|p|p]; simpl; [done| |done].
  destruct (Pos.sqrtrem p) as [s []]; simpl; lia.
Qed.

Lemma math_Sqrt_nneg x : nneg x → nneg (math_Sqrt x).
Proof.
  destruct x as [|[]| |[] m e]; simpl; try done. intros _.
  unfold SFsqrt_core_binary.
  match goal with |- context [Z.sqrtrem ?z] =>
    pose proof (sqrtrem_nonneg z); destruct (Z.sqrtrem z) as [q r] end.
  simpl in *. by round_sign.
Qed.

Lemma fsub_is_NaN x y : is_finite x → is_finite y → IsNaN (fsub x y) = false.
Proof.
  destruct x as [[]|[]| |sx mx ex], y as [[]|[]| |sy my ey]; simpl; try done; intros _ _.
  apply binary_normalize_not_NaN.
Qed.

Lemma SFldexp_nneg x e : nneg x → nneg (SFldexp 53 1024 x e).
Proof. destruct x as [|[]| |[]]; simpl; try done. intros _. by round_sign. Qed.

Lemma fmul_self_nneg s m e : nneg (fmul (S754_finite s m e) (S754_finite s m e)).
Proof. unfold fmul, SFmul. rewrite xorb_nilpotent. by round_sign. Qed.

(** [math.Pow(x, 2)] is non-negative whenever [x] is not NaN. *)
Lemma math_Pow2_nneg x : IsNaN x = false → nneg (math_Pow2 x).
Proof.
  destruct x as [|[]| |s m e]; simpl; try done. intros _.
  assert (∀ m' e', nneg (let '(x1, xe) := (S754_finite s m' (- 53), e' : Z) in
    let x1 := fmul x1 x1 in let xe := (2 * xe)%Z in
    let '(x1, xe) := if fltb x1 (f_of_ratio 1 2) then (fadd x1 x1, (xe - 1)%Z)
                     else (x1, xe) in SFldexp 53 1024 x1 xe)) as H.
  { intros m' e'. pose proof (fmul_self_nneg s m' (- 53)).
    cbv zeta. destruct (fltb _ _); apply SFldexp_nneg; auto using fadd_nneg. }
  destruct (Z.leb 53 _); apply H.
Qed.

(** ** Negation *)

Lemma SFopp_involutive x : SFopp (SFopp x) = x.
Proof. by destruct x as [[]|[]| |[]]. Qed.

(** Subtraction is antisymmetric, up to the sign of a zero result. *)
Lemma fsub_opp x y :
  is_finite x → is_finite y →
  fsub x y = SFopp (fsub y x) ∨ ∃ s s', fsub x y = S754_zero s ∧ fsub y x = S754_zero s'.
Proof.
  destruct x as [[]|[]| |sx mx ex], y as [[]|[]| |sy my ey]; simpl; try done; intros _ _;
    try by (right; eauto).
  1-4: left; by (destruct sy || destruct sx).
  unfold fsub, SFsub. rewrite (Z.min_comm ey ex).
  set (a := cond_Zopp sx _). set (b := cond_Zopp sy _).
  replace (b - a)%Z with (- (a - b))%Z by lia.
  destruct (a - b)%Z as [|p|p]; simpl; [right; eauto|left..].
  - by rewrite (binary_round_opp false), SFopp_involutive.
  - by rewrite (binary_round_opp false).
Qed.

Lemma math_Pow2_opp x : math_Pow2 (SFopp x) = math_Pow2 x.
Proof.
  destruct x as [[]|[]| |s m e]; try done.
  assert (∀ m' e', fmul (S754_finite (negb s) m' e') (S754_finite (negb s) m' e')
    = fmul (S754_finite s m' e') (S754_finite s m' e')) as H.
  { intros. unfold fmul, SFmul. by rewrite !xorb_nilpotent. }
  simpl. destruct (Z.leb 53 _); by rewrite H.
Qed.

#[export] Instance spec_float_countable : Countable float64.
Proof.
  refine (inj_countable'
    (λ x : float64, match x with
       | S754_nan => inl (inl true)
       | S754_zero s => inl (inr s)
       | S754_infinity s => inr (inl s)
       | S754_finite s m e => inr (inr (s, m, e))
       end : (bool + bool) + (bool + (bool * positive * Z)))
    (λ c, match c with
       | inl (inl _) => S754_nan
       | inl (inr s) => S754_zero s
       | inr (inl s) => S754_infinity s
       | inr (inr (s, m, e)) => S754_finite s m e
       end) _); by intros [].
Defined.

(** ** Canonical form *)

Abbreviation fvalid := (valid_binary 53 1024) (only parsing).

Section Validity.
Local Open Scope Z_scope.

Abbreviation fexp := (fexp 53 1024).

Lemma Zdigits2_log2 m : 0 < m → Zdigits2 m = Z.log2 m + 1.
Proof.
  destruct m as [|p|p]; try done. intros _. simpl. 
  assert (∀ p, Z.pos (digits2_pos p) = Z.log2 (Z.pos p) + 1) as H; [|apply H].
  clear p. induction p as [p IH|p IH|]; [..|done]; simpl digits2_pos;
    rewrite Pos2Z.inj_succ, IH.
  - rewrite (Pos2Z.inj_xI p), Z.log2_succ_double by done. lia.
  - rewrite (Pos2Z.inj_xO p), Z.log2_double by done. lia.
Qed.

Lemma Zdigits2_nonneg m : 0 ≤ m → 0 ≤ Zdigits2 m.
Proof. destruct m; simpl; lia. Qed.

Lemma Zdigits2_le m m' : 0 ≤ m ≤ m' → Zdigits2 m ≤ Zdigits2 m'.
Proof.
  intros Hm. destruct (Z.eq_dec m 0) as [->|]; [apply Zdigits2_nonneg; lia|].
  rewrite !Zdigits2_log2 by lia. pose proof (Z.log2_le_mono m m'). lia.
Qed.

Lemma Zdigits2_shiftr m n : 0 ≤ m → 0 ≤ n →
  Zdigits2 (Z.shiftr m n) = Z.max 0 (Zdigits2 m - n).
Proof.
  intros Hm Hn. destruct (Z.eq_dec m 0) as [->|Hm0].
  { rewrite Z.shiftr_0_l. simpl. lia. }
  rewrite (Zdigits2_log2 m) by lia.
  destruct (Z.le_gt_cases n (Z.log2 m)) as [Hle|Hgt].
  - assert (0 < Z.shiftr m n).
    { pose proof (Z.shiftr_nonneg m n). destruct (Z.eq_dec (Z.shiftr m n) 0) as [E|]; [|lia].
      apply Z.shiftr_eq_0_iff in E. lia. }
    rewrite Zdigits2_log2, Z.log2_shiftr by lia. lia.
  - rewrite Z.shiftr_eq_0 by lia. simpl. lia.
Qed.

Lemma Zdigits2_shiftl m n : 0 < m → 0 ≤ n → Zdigits2 (Z.shiftl m n) = Zdigits2 m + n.
Proof.
  intros Hm Hn. assert (0 < Z.shiftl m n) by (rewrite Z.shiftl_mul_pow2 by done; nia).
  rewrite !Zdigits2_log2, Z.log2_shiftl by lia. lia.
Qed.

Lemma shr_1_m mrs : 0 ≤ shr_m mrs → shr_m (shr_1 mrs) = Z.shiftr (shr_m mrs) 1.
Proof. by destruct mrs as [[|[]|[]] ? ?]. Qed.

Lemma iter_shr_1_m p mrs : 0 ≤ shr_m mrs →
  shr_m (iter_pos shr_1 p mrs) = Z.shiftr (shr_m mrs) (Z.pos p).
Proof.
  revert mrs. induction p as [p IH|p IH|]; intros mrs Hm; simpl iter_pos.
  - rewrite !IH, shr_1_m by eauto using iter_shr_1_nonneg, shr_1_nonneg.
    rewrite !Z.shiftr_shiftr by lia. f_equal. lia.
  - rewrite !IH by eauto using iter_shr_1_nonneg. rewrite Z.shiftr_shiftr by lia. f_equal. lia.
  - by apply shr_1_m.
Qed.

(** The mantissa and exponent after one rounding step. *)
Lemma shr_fexp_spec m e l :
  0 ≤ m → e ≤ fexp (Zdigits2 m + e) →
  shr_m (shr_fexp 53 1024 m e l).1 = Z.shiftr m (fexp (Zdigits2 m + e) - e) ∧
  (shr_fexp 53 1024 m e l).2 = fexp (Zdigits2 m + e).
Proof.
  intros Hm He. unfold shr_fexp, shr.
  assert (shr_m (shr_record_of_loc m l) = m) as E by by destruct l as [|[]].
  destruct (fexp (Zdigits2 m + e) - e) as [|p|p] eqn:En; simpl fst; simpl snd; [|split..|lia].
  - rewrite E, Z.shiftr_0_r. split; [done|lia].
  - by rewrite iter_shr_1_m, E by (by rewrite E).
  - lia.
Qed.

Lemma fexp_mono x y : x ≤ y → fexp x ≤ fexp y.
Proof. unfold SpecFloat.fexp. lia. Qed.

Lemma fexp_spec x : fexp x = Z.max (x - 53) (-1074).
Proof. done. Qed.

Lemma binary_round_aux_valid s m e l :
  0 ≤ m → e ≤ fexp (Zdigits2 m + e) → fvalid (binary_round_aux 53 1024 s m e l) = true.
Proof.
  intros Hm He. unfold binary_round_aux.
  destruct (shr_fexp_spec m e l Hm He) as [E1 E2].
  destruct (shr_fexp 53 1024 m e l) as [mrs1 e1]. simpl in E1, E2.
  set (m2 := round_nearest_even _ _).
  assert (0 ≤ shr_m mrs1) as Hm1 by (rewrite E1; by apply Z.shiftr_nonneg).
  assert (shr_m mrs1 ≤ m2) as Hm2.
  { unfold m2. destruct (loc_of_shr_record mrs1) as [|[]]; simpl; repeat case_match; lia. }
  assert (e1 ≤ fexp (Zdigits2 m2 + e1)) as He2.
  { pose proof (Zdigits2_le (shr_m mrs1) m2) as Hd.
    pose proof (Zdigits2_shiftr m (fexp (Zdigits2 m + e) - e)) as Hd'.
    rewrite <- E1 in Hd'. rewrite !fexp_spec in *. lia. }
  destruct (shr_fexp_spec m2 e1 loc_Exact) as [E3 E4]; [lia|done|].
  destruct (shr_fexp 53 1024 m2 e1 loc_Exact) as [mrs3 e3]. simpl in E3, E4.
  destruct (shr_m mrs3) as [|m3|m3] eqn:Em3; [done| |done].
  destruct (Z.leb e3 _) eqn:Hle; [|done]. simpl. unfold bounded, canonical_mantissa.
  apply andb_true_iff. split; [|done]. apply Z.eqb_eq.
  pose proof (Zdigits2_shiftr m2 (fexp (Zdigits2 m2 + e1) - e1)) as Hd.
  rewrite <- E3 in Hd. change (Zdigits2 (Z.pos m3)) with (Z.pos (digits2_pos m3)) in Hd.
  rewrite !fexp_spec in *. lia.
Qed.

Lemma digits2_iter_xO m d :
  Z.pos (digits2_pos (Pos.iter xO m d)) = Z.pos (digits2_pos m) + Z.pos d.
Proof.
  induction d as [|d IH] using Pos.peano_ind; [simpl; lia|].
  rewrite Pos.iter_succ. simpl digits2_pos. lia.
Qed.

Lemma binary_round_valid s m e : fvalid (binary_round 53 1024 s m e) = true.
Proof.
  unfold binary_round, shl_align.
  set (f := SpecFloat.fexp 53 1024 _). destruct (f - e) as [|d|d] eqn:Ed;
    apply binary_round_aux_valid; try done; simpl Zdigits2; [unfold f in *; lia..|].
  rewrite digits2_iter_xO. unfold f in *. rewrite !fexp_spec in *. lia.
Qed.

Lemma binary_normalize_valid z e s : fvalid (binary_normalize 53 1024 z e s) = true.
Proof. destruct z; simpl; [done|apply binary_round_valid..]. Qed.

Lemma f_of_Z_valid z : fvalid (f_of_Z z) = true.
Proof. apply binary_normalize_valid. Qed.

Lemma SFopp_valid x : fvalid x = true → fvalid (SFopp x) = true.
Proof. by destruct x. Qed.

Lemma fadd_valid x y : fvalid x = true → fvalid y = true → fvalid (fadd x y) = true.
Proof.
  destruct x as [[]|[]| |], y as [[]|[]| |]; simpl; try done; intros _ _;
    apply binary_normalize_valid.
Qed.

Lemma fsub_valid x y : fvalid x = true → fvalid y = true → fvalid (fsub x y) = true.
Proof.
  destruct x as [[]|[]| |], y as [[]|[]| |]; simpl; try done; intros _ _;
    apply binary_normalize_valid.
Qed.

(** A canonical mantissa is full, or its exponent is the least one. *)
Lemma bounded_cases m e : bounded 53 1024 m e = true →
  Zdigits2 (Z.pos m) = 53 ∨ e = -1074 ∧ Zdigits2 (Z.pos m) ≤ 53.
Proof.
  unfold bounded, canonical_mantissa. intros [E%Z.eqb_eq _]%andb_true_iff.
  rewrite fexp_spec in E. change (Zdigits2 (Z.pos m)) with (Z.pos (digits2_pos m)). lia.
Qed.

Lemma Zdigits2_mul a b : 0 < a → 0 < b →
  Zdigits2 a + Zdigits2 b - 1 ≤ Zdigits2 (a * b).
Proof.
  intros Ha Hb. rewrite !Zdigits2_log2 by lia. pose proof (Z.log2_mul_below a b). lia.
Qed.

Lemma fmul_valid x y : fvalid x = true → fvalid y = true → fvalid (fmul x y) = true.
Proof.
  destruct x as [|[]| |sx mx ex], y as [|[]| |sy my ey]; try done. intros Hx Hy.
  apply binary_round_aux_valid; [done|].
  pose proof (Zdigits2_mul (Z.pos mx) (Z.pos my)) as Hd.
  change (Z.pos mx * Z.pos my) with (Z.pos (mx * my)) in Hd.
  assert (∀ p, 1 ≤ Zdigits2 (Z.pos p)) by (intros; simpl; lia).
  pose proof (H mx). pose proof (H my).
  apply bounded_cases in Hx, Hy. rewrite !fexp_spec. lia.
Qed.

Lemma Zdigits2_bound m : 0 ≤ m → m < 2 ^ Zdigits2 m.
Proof.
  intros Hm. destruct (Z.eq_dec m 0) as [->|]; [done|].
  rewrite Zdigits2_log2 by lia. pose proof (Z.log2_spec m). lia.
Qed.

Lemma Zdigits2_div a b : 0 ≤ a → 0 < b → Zdigits2 a - Zdigits2 b ≤ Zdigits2 (a / b).
Proof.
  intros Ha Hb. pose proof (Z.div_pos a b Ha Hb) as Hq.
  pose proof (Zdigits2_bound (a / b) Hq) as H1. pose proof (Zdigits2_bound b) as H2.
  pose proof (Zdigits2_nonneg (a / b) Hq) as H3. pose proof (Zdigits2_nonneg b) as H4.
  destruct (Z.eq_dec a 0) as [->|Ha0]; [simpl; lia|].
  assert (a < 2 ^ (Zdigits2 (a / b) + Zdigits2 b)) as H.
  { rewrite Z.pow_add_r by lia. pose proof (Z.mod_pos_bound a b Hb).
    pose proof (Z.div_mod a b). nia. }
  apply Z.log2_lt_pow2 in H; [|lia]. rewrite (Zdigits2_log2 a) by lia. lia.
Qed.

(** The quotient keeps enough digits to be rounded. *)
Lemma SFdiv_core_spec m1 e1 m2 e2 :
  0 < m1 → 0 < m2 →
  let '(q, e', _) := SFdiv_core_binary 53 1024 m1 e1 m2 e2 in
  0 ≤ q ∧ e' ≤ fexp (Zdigits2 q + e').
Proof.
  intros H1 H2. unfold SFdiv_core_binary.
  set (d := Zdigits2 m1 + e1 - (Zdigits2 m2 + e2)). set (e' := Z.min _ _).
  set (a := match e1 - e2 - e' with Z0 => _ | _ => _ end).
  assert (a = Z.shiftl m1 (e1 - e2 - e') ∧ 0 ≤ e1 - e2 - e') as [Ea Hs].
  { assert (0 ≤ e1 - e2 - e') by (unfold e'; lia). split; [|done]. unfold a. by destruct (e1 - e2 - e'). }
  assert (0 ≤ a) as Ha by (rewrite Ea; apply Z.shiftl_nonneg; lia).
  pose proof (Zdigits2_div a m2 Ha H2) as Hq. rewrite Ea, Zdigits2_shiftl in Hq by lia.
  rewrite <- Ea in Hq. unfold Z.div in Hq.
  pose proof (Z.div_pos a m2 Ha H2) as Hq0. unfold Z.div in Hq0.
  destruct (Z.div_eucl a m2) as [q r]. split; [done|].
  transitivity (fexp d); [unfold e'; lia|]. apply fexp_mono. unfold d. lia.
Qed.

Lemma fdiv_valid x y : fvalid x = true → fvalid y = true → fvalid (fdiv x y) = true.
Proof.
  destruct x as [|[]| |sx mx ex], y as [|[]| |sy my ey]; try done. intros _ _.
  unfold fdiv, SFdiv. pose proof (SFdiv_core_spec (Z.pos mx) ex (Z.pos my) ey) as Hc.
  destruct (SFdiv_core_binary _ _ _ _ _ _) as [[q e] l].
  destruct Hc as [??]; [done..|]. by apply binary_round_aux_valid.
Qed.

Lemma Zdigits2_sqrt m : 0 < m → Z.div2 (Zdigits2 m + 1) ≤ Zdigits2 (Z.sqrt m).
Proof.
  intros Hm. pose proof (Z.log2_spec m Hm). pose proof (Z.log2_nonneg m).
  rewrite (Zdigits2_log2 m) by done. rewrite Z.div2_div.
  set (k := Z.log2 m) in *.
  assert (2 ^ (k / 2) ≤ Z.sqrt m) as Hs.
  { apply Z.sqrt_le_square; [lia| |].
    - apply Z.pow_nonneg. lia.
    - rewrite <- Z.pow_add_r by (apply Z.div_pos; lia). etrans; [|apply H].
      apply Z.pow_le_mono_r; [lia|]. pose proof (Z.mul_div_le k 2). lia. }
  pose proof (Z.pow_pos_nonneg 2 (k / 2)). pose proof (Z.div_pos k 2).
  rewrite Zdigits2_log2 by lia. apply Z.log2_le_mono in Hs. rewrite Z.log2_pow2 in Hs by lia.
  replace (k + 1 + 1) with (k + 1 * 2) by lia. rewrite Z.div_add by lia. lia.
Qed.

Lemma math_Sqrt_valid x : fvalid x = true → fvalid (math_Sqrt x) = true.
Proof.
  destruct x as [|[]| |[] m e]; try done. intros _. unfold math_Sqrt, SFsqrt.
  unfold SFsqrt_core_binary.
  set (d := Zdigits2 (Z.pos m)). set (e' := Z.min _ _).
  set (m' := match e - 2 * e' with Z.pos _ => _ | _ => _ end).
  pose proof (Z.sqrtrem_sqrt m') as Hs.
  destruct (Z.sqrtrem m') as [q r]. simpl in Hs. subst q.
  assert (m' = Z.shiftl (Z.pos m) (e - 2 * e') ∧ 0 ≤ e - 2 * e') as [Em Hk].
  { assert (0 ≤ e - 2 * e').
    { unfold e'. rewrite !Z.div2_div. pose proof (Z.mul_div_le e 2). lia. }
    split; [|done]. unfold m'. by destruct (e - 2 * e'). }
  apply binary_round_aux_valid; [apply Z.sqrt_nonneg|].
  assert (0 < m') by (rewrite Em, Z.shiftl_mul_pow2 by done; nia).
  pose proof (Zdigits2_sqrt m') as Hq. rewrite Em in Hq at 2.
  rewrite Zdigits2_shiftl in Hq by lia. fold d in Hq.
  assert (Z.div2 (d + (e - 2 * e') + 1) = Z.div2 (d + e + 1) - e') as E2.
  { rewrite !Z.div2_div. replace (d + (e - 2 * e') + 1) with (d + e + 1 + (- e') * 2) by lia.
    rewrite Z.div_add by lia. lia. }
  assert (e' ≤ SpecFloat.fexp 53 1024 (Z.div2 (d + e + 1))) as He' by (unfold e'; lia).
  etrans; [apply He'|]. apply fexp_mono. lia.
Qed.

Lemma SFldexp_valid x e : fvalid x = true → fvalid (SFldexp 53 1024 x e) = true.
Proof. destruct x as [|[]| |[] m e']; try done; intros _; apply binary_round_valid. Qed.

Lemma math_Pow2_valid x : fvalid x = true → fvalid (math_Pow2 x) = true.
Proof.
  destruct x as [|[]| |s m e]; try done. intros Hx.
  assert (fvalid (SFfrexp 53 1024 (S754_finite s m e)).1 = true) as Hf.
  { apply bounded_cases in Hx. simpl in Hx. unfold SFfrexp.
    destruct (Z.leb_spec 53 (Z.pos (digits2_pos m))); simpl; unfold bounded, canonical_mantissa;
      rewrite fexp_spec, ?digits2_iter_xO; (apply andb_true_iff; split; [|done]);
      apply Z.eqb_eq; lia. }
  unfold math_Pow2. destruct (SFfrexp 53 1024 _) as [x1 xe]. simpl in Hf.
  pose proof (fmul_valid x1 x1 Hf Hf). cbv zeta.
  destruct (fltb _ _); apply SFldexp_valid; auto using fadd_valid.
Qed.
End Validity.
