(* ===== verification/GoLib.v ===== *)
(** * GoLib: the language-level services every component uses

    - errors: [errors.New], [fmt.Errorf] with [%w], [errors.Is], gRPC status
      values and Kafka error codes as they travel through the program;
    - package strconv on base-10 integers ([Itoa], [Atoi]);
    - package strings: [Split] on one byte, [TrimSpace]; the text functions of
      strconv and time that are left abstract ([TextLib]);
    - clocks and durations ([time.Now], [time.Since], [Duration.Seconds]);
    - [Proc]: a process is its own heap, the list of calls it made on its
      Prometheus collectors (oldest first), and its readings of the clock. *)

From S2P Require Import Prelude Float64.
From Stdlib Require Import Ascii.

Local Open Scope Z_scope.

(** ** Errors *)

(** Package-level error values the code compares against with [errors.Is] or
    [==]; each is one pointer, so it is one constructor. *)
Inductive sentinel :=
| ErrInvalidDistance | DeadlineExceeded | Canceled | ErrServerClosed.

#[global] Instance sentinel_eq_dec : EqDecision sentinel.
Proof. solve_decision. Defined.

(** The gRPC status codes the code names. *)
Inductive Code := OK | InvalidArgument | Unimplemented | CodeDeadlineExceeded
  | Unknown | OtherCode (name : string).

#[global] Instance Code_eq_dec : EqDecision Code.
Proof. solve_decision. Defined.

(** The Kafka error codes the code names. *)
Inductive KafkaCode := ErrTimedOut | OtherKafka (n : Z).

#[global] Instance KafkaCode_eq_dec : EqDecision KafkaCode.
Proof. solve_decision. Defined.

Inductive error :=
| ESentinel (s : sentinel)                        (* the package-level values *)
| EText (msg : string)                            (* a fresh errors.New / fmt.Errorf *)
| EWrap (pre : string) (inner : error) (post : string)   (* fmt.Errorf("pre%wpost", inner) *)
| EStatus (c : Code) (msg : string)               (* grpc status.Error *)
| EKafka (c : KafkaCode) (msg : string).          (* kafka.Error *)

#[global] Instance error_eq_dec : EqDecision error.
Proof. solve_decision. Defined.

(** [errors.Is(err, target)]: the chain of wrapped errors is searched. *)
Fixpoint error_is (e : error) (t : sentinel) : bool :=
  match e with
  | ESentinel s => bool_decide (s = t)
  | EWrap _ e' _ => error_is e' t
  | _ => false
  end.

Definition errors_Is (err : option error) (t : sentinel) : bool :=
  match err with Some e => error_is e t | None => false end.

(** [errors.As(err, &kafkaErr)] *)
Fixpoint errors_As_kafka (e : error) : option KafkaCode :=
  match e with
  | EKafka c _ => Some c
  | EWrap _ e' _ => errors_As_kafka e'
  | _ => None
  end.

Definition is_nil {E} (err : option E) : bool :=
  match err with None => true | Some _ => false end.

(** [codes.Code.String]. *)
Definition Code_String (c : Code) : string :=
  match c with
  | OK => "OK"
  | InvalidArgument => "InvalidArgument"
  | Unimplemented => "Unimplemented"
  | CodeDeadlineExceeded => "DeadlineExceeded"
  | Unknown => "Unknown"
  | OtherCode name => name
  end.

(** [err.Error()]. *)
Fixpoint Error (e : error) : string :=
  match e with
  | ESentinel ErrInvalidDistance => "invalid distance event"
  | ESentinel DeadlineExceeded => "context deadline exceeded"
  | ESentinel Canceled => "context canceled"
  | ESentinel ErrServerClosed => "http: Server closed"
  | EText msg => msg
  | EWrap pre e post => pre +:+ Error e +:+ post
  | EStatus c msg => "rpc error: code = " +:+ Code_String c +:+ " desc = " +:+ msg
  | EKafka _ msg => msg
  end.

Lemma errors_Is_wrap pre e post t :
  errors_Is (Some (EWrap pre e post)) t = errors_Is (Some e) t.
Proof. done. Qed.

(** ** strconv, base 10 *)

Definition digit_val (c : ascii) : option N :=
  let n := N_of_ascii c in
  if bool_decide (48 ≤ n ≤ 57)%N then Some (n - 48)%N else None.

Fixpoint parse_digits (s : string) (acc : N) : option N :=
  match s with
  | EmptyString => Some acc
  | String c s => match digit_val c with
                  | Some d => parse_digits s (acc * 10 + d)%N
                  | None => None
                  end
  end.

Definition Itoa (z : Z) : string := pretty z.

(** The digits after an optional sign, as an [int64]. *)
Definition Atoi_body (neg : bool) (body : string) : option Z :=
  match body with
  | EmptyString => None
  | _ => n ← parse_digits body 0;
         let z := if neg then - Z.of_N n else Z.of_N n in
         if bool_decide (in_i64 z) then Some z else None
  end.

(** [strconv.Atoi] and [strconv.ParseInt(s, 10, 64)]: [None] stands for a
    non-nil error (bad syntax or out of range); the callers look at nothing
    else when the error is set. *)
Definition Atoi (s : string) : option Z :=
  match s with
  | String "-" s' => Atoi_body true s'
  | String "+" s' => Atoi_body false s'
  | _ => Atoi_body false s
  end.

(** [strconv.ParseUint(s, 10, 64)]; [None] is a non-nil error. *)
Definition ParseUint (s : string) : option Z :=
  match s with
  | EmptyString => None
  | _ => n ← parse_digits s 0;
         if bool_decide (in_u64 (Z.of_N n)) then Some (Z.of_N n) else None
  end.

Lemma digit_val_pretty x : (x < 10)%N → digit_val (pretty_N_char x) = Some x.
Proof.
  intros. assert (x = 0 ∨ x = 1 ∨ x = 2 ∨ x = 3 ∨ x = 4 ∨ x = 5 ∨ x = 6
    ∨ x = 7 ∨ x = 8 ∨ x = 9)%N by lia. by destruct_or?; subst.
Qed.

Lemma parse_digits_pretty x s :
  parse_digits (pretty_N_go x s) 0 = parse_digits s x.
Proof.
  revert s. induction (N.lt_wf_0 x) as [x _ IH]; intros s.
  destruct (decide (0 < x)%N) as [Hx|]; [|by replace x with 0%N by lia].
  rewrite pretty_N_go_step, IH by (done || by apply N.div_lt). simpl.
  rewrite digit_val_pretty by (by apply N.mod_lt). f_equal.
  rewrite (N.div_mod x 10) at 3 by done. lia.
Qed.

(** A positive number has no leading zero. *)
Lemma pretty_N_go_head x s :
  (0 < x)%N → ∃ c' s', pretty_N_go x s = String c' s' ∧ c' ≠ "0"%char.
Proof.
  revert s. induction (N.lt_wf_0 x) as [x _ IH]. intros s Hx.
  rewrite pretty_N_go_step by done. destruct (N.eq_dec (x / 10) 0) as [Hd|Hd].
  - rewrite Hd. apply N.div_small_iff in Hd; [|done]. rewrite N.mod_small by done.
    exists (pretty_N_char x), s. split; [done|].
    assert (x = 1 ∨ x = 2 ∨ x = 3 ∨ x = 4 ∨ x = 5 ∨ x = 6 ∨ x = 7 ∨ x = 8 ∨ x = 9)%N as Hc by lia.
    by destruct_or! Hc; subst x.
  - apply IH; [by apply N.div_lt|by apply N.neq_0_lt_0].
Qed.

(** The decimal text of a natural number: non-empty, and it starts with a digit. *)
Lemma pretty_N_head (n : N) : ∃ c s, pretty n = String c s ∧ c ≠ "-"%char ∧ c ≠ "+"%char.
Proof.
  assert (∀ x c s, c ≠ "-"%char → c ≠ "+"%char →
    ∃ c' s', pretty_N_go x (String c s) = String c' s' ∧ c' ≠ "-"%char ∧ c' ≠ "+"%char) as H.
  { intros x. induction (N.lt_wf_0 x) as [x _ IH]; intros c s ??.
    destruct (decide (0 < x)%N) as [Hx|]; [|replace x with 0%N by lia; eauto].
    rewrite pretty_N_go_step by done.
    apply IH; [by apply N.div_lt|unfold pretty_N_char; by repeat case_match..]. }
  unfold pretty, pretty_N. case_decide; [by eauto|].
  rewrite pretty_N_go_step by lia. apply H; unfold pretty_N_char; by repeat case_match.
Qed.

Lemma parse_digits_N (n : N) : parse_digits (pretty n) 0 = Some n.
Proof.
  unfold pretty, pretty_N. case_decide; [by subst|]. by rewrite parse_digits_pretty.
Qed.

Lemma Atoi_body_pretty (neg : bool) (n : N) :
  in_i64 (if neg then - Z.of_N n else Z.of_N n) →
  Atoi_body neg (pretty n) = Some (if neg then - Z.of_N n else Z.of_N n).
Proof.
  intros Hn. destruct (pretty_N_head n) as (c & s & E & _).
  pose proof (parse_digits_N n) as Hp. unfold Atoi_body. rewrite E in *.
  rewrite Hp. simpl. by rewrite bool_decide_eq_true_2.
Qed.

Lemma Atoi_pretty (n : N) : Atoi (pretty n) = Atoi_body false (pretty n).
Proof.
  destruct (pretty_N_head n) as (c & s & -> & ? & ?).
  by destruct c as [[] [] [] [] [] [] [] []].
Qed.

(** What [Atoi] accepts fits an [int]. *)
Lemma Atoi_range s z : Atoi s = Some z → in_i64 z.
Proof.
  assert (∀ b s, Atoi_body b s = Some z → in_i64 z) as H.
  { clear s. intros b s. unfold Atoi_body. destruct s; [done|].
    destruct (parse_digits _ 0); simpl; [|done]. case_bool_decide; [|done]. by intros [= <-]. }
  unfold Atoi. destruct s as [|[[] [] [] [] [] [] [] []] s]; apply H.
Qed.

(** Printing then parsing an [int] gives it back. *)
Lemma Atoi_Itoa z : in_i64 z → Atoi (Itoa z) = Some z.
Proof.
  intros Hz. destruct z as [|p|p].
  - done.
  - change (Itoa (Z.pos p)) with (pretty (Npos p)).
    rewrite Atoi_pretty. by apply (Atoi_body_pretty false).
  - change (Itoa (Z.neg p)) with ("-" +:+ pretty (Npos p)).
    by apply (Atoi_body_pretty true).
Qed.

Lemma Itoa_inj a b : Itoa a = Itoa b → a = b.
Proof. intros H. unfold Itoa in H. by apply (inj pretty) in H. Qed.

Lemma ParseUint_Itoa z : in_u64 z → ParseUint (Itoa z) = Some z.
Proof.
  intros Hz. assert (Itoa z = pretty (Z.to_N z)) as ->.
  { destruct z; [done..|]. unfold in_u64 in Hz. lia. }
  destruct (pretty_N_head (Z.to_N z)) as (c & s & E & _).
  unfold ParseUint. pose proof (parse_digits_N (Z.to_N z)) as Hp. rewrite E in *.
  rewrite Hp. simpl. rewrite Z2N.id by apply Hz. by rewrite bool_decide_eq_true_2.
Qed.

Lemma ParseUint_u64 s z : ParseUint s = Some z → in_u64 z.
Proof.
  unfold ParseUint. destruct s; [done|]. destruct (parse_digits _ 0); simpl; [|done].
  case_bool_decide; [|done]. by intros [= <-].
Qed.

(** ** strings *)

Lemma string_app_inj (p s s' : string) : p +:+ s = p +:+ s' → s = s'.
Proof. induction p as [|c p IH]; [done|]. intros [= H]. by apply IH. Qed.

Lemma string_app_nil_r (s : string) : s +:+ "" = s.
Proof. induction s as [|c s IH]; [done|]. change (String c (s +:+ "") = String c s). by f_equal. Qed.

(** [strings.Split(s, sep)] for a one-byte separator. *)
Fixpoint Split (sep : ascii) (s : string) : list string :=
  match s with
  | EmptyString => [""]
  | String c s =>
      if Ascii.eqb c sep then "" :: Split sep s
      else match Split sep s with
           | w :: ws => String c w :: ws
           | [] => [String c ""]
           end
  end.

Lemma Split_not_nil sep s : Split sep s ≠ [].
Proof. destruct s; simpl; [done|]. by repeat case_match. Qed.

(** White space: one byte, or the two- and three-byte UTF-8 encodings of the
    other white space of Unicode (U+0085 U+00A0 U+1680 U+2000..U+200A U+2028
    U+2029 U+202F U+205F U+3000). *)
Definition ascii_space (c : ascii) : bool :=
  let n := N_of_ascii c in bool_decide (9 ≤ n ≤ 13)%N || bool_decide (n = 32)%N.

Definition space2 (a b : ascii) : bool :=
  bool_decide (N_of_ascii a = 0xC2)%N &&
  (bool_decide (N_of_ascii b = 0x85)%N || bool_decide (N_of_ascii b = 0xA0)%N).
Definition space3 (a b c : ascii) : bool :=
  let '(x, y, z) := (N_of_ascii a, N_of_ascii b, N_of_ascii c) in
  bool_decide (x = 0xE1 ∧ y = 0x9A ∧ z = 0x80)%N ||
  bool_decide (x = 0xE2 ∧ y = 0x80 ∧ (0x80 ≤ z ≤ 0x8A))%N ||
  bool_decide (x = 0xE2 ∧ y = 0x80 ∧ (z = 0xA8 ∨ z = 0xA9 ∨ z = 0xAF))%N ||
  bool_decide (x = 0xE2 ∧ y = 0x81 ∧ z = 0x9F)%N ||
  bool_decide (x = 0xE3 ∧ y = 0x80 ∧ z = 0x80)%N.

Fixpoint trim_left (l : list ascii) : list ascii :=
  match l with
  | a :: l1 =>
      if ascii_space a then trim_left l1
      else match l1 with
           | b :: l2 =>
               if space2 a b then trim_left l2
               else match l2 with
                    | c :: l3 => if space3 a b c then trim_left l3 else l
                    | [] => l
                    end
           | [] => l
           end
  | [] => []
  end.

(** From the other end: the list is reversed. *)
Fixpoint trim_right (l : list ascii) : list ascii :=
  match l with
  | a :: l1 =>
      if ascii_space a then trim_right l1
      else match l1 with
           | b :: l2 =>
               if space2 b a then trim_right l2
               else match l2 with
                    | c :: l3 => if space3 c b a then trim_right l3 else l
                    | [] => l
                    end
           | [] => l
           end
  | [] => []
  end.

(** [strings.TrimSpace] *)
Definition TrimSpace (s : string) : string :=
  String.string_of_list_ascii
    (reverse (trim_right (reverse (trim_left (String.list_ascii_of_string s))))).

Example trim_1 : TrimSpace "  a b	 " = "a b".
Proof. by vm_compute. Qed.

(** [strings.Fields]: the words between white space; [cur] is the current word,
    reversed. *)
Fixpoint fields_from (l cur : list ascii) : list string :=
  let word := match cur with [] => [] | _ => [String.string_of_list_ascii (reverse cur)] end in
  match l with
  | [] => word
  | a :: l1 =>
      if ascii_space a then word ++ fields_from l1 []
      else match l1 with
           | b :: l2 =>
               if space2 a b then word ++ fields_from l2 []
               else match l2 with
                    | c :: l3 => if space3 a b c then word ++ fields_from l3 []
                                 else fields_from l1 (a :: cur)
                    | [] => fields_from l1 (a :: cur)
                    end
           | [] => fields_from l1 (a :: cur)
           end
  end.

Definition Fields (s : string) : list string := fields_from (String.list_ascii_of_string s) [].

Example fields_1 : Fields "  a  bc	d " = ["a"; "bc"; "d"].
Proof. by vm_compute. Qed.

(** [strings.HasPrefix(s, prefix)], and what comes after the prefix. *)
Fixpoint CutPrefix (prefix s : string) : option string :=
  match prefix, s with
  | EmptyString, _ => Some s
  | String a prefix, String b s => if Ascii.eqb a b then CutPrefix prefix s else None
  | _, EmptyString => None
  end.

Lemma CutPrefix_app prefix s : CutPrefix prefix (prefix +:+ s) = Some s.
Proof. induction prefix as [|a prefix IH]; [done|]. simpl. by rewrite Ascii.eqb_refl. Qed.

(** [strings.Index(s, string(c))] as the text before the first [c], and after it. *)
Fixpoint CutAt (c : ascii) (s : string) : option (string * string) :=
  match s with
  | EmptyString => None
  | String a s => if Ascii.eqb a c then Some ("", s)
                  else '(x, y) ← CutAt c s; Some (String a x, y)
  end.

Lemma CutAt_app c s s' : CutAt c s = None → CutAt c (s +:+ String c s') = Some (s, s').
Proof.
  induction s as [|a s IH]; simpl; [by rewrite Ascii.eqb_refl|].
  destruct (Ascii.eqb a c); [done|]. destruct (CutAt c s) as [[]|]; [done|]. intros _. by rewrite IH.
Qed.

(** The rest of strconv and package time on text, which the program only calls:
    [strconv.Quote], [strconv.ParseFloat(s, 64)] and [time.ParseDuration]; [None]
    is a non-nil error. *)
Class TextLib := {
  Quote : string → string;
  ParseFloat : string → option float64;
  ParseDuration : string → option Z
}.

(** ** Clocks and durations *)

Record Instant := mkInstant { wall : Z; mono : Z }.

Definition maxDuration : Z := 2 ^ 63 - 1.
Definition minDuration : Z := - 2 ^ 63.

(** [Time.Sub] saturates. *)
Definition Sub (d : Z) : Z := Z.max minDuration (Z.min maxDuration d).

(** [Time.Add] *)
Definition Add (t : Instant) (d : Z) : Instant := mkInstant (wall t + d) (mono t + d).

(** [Duration.Seconds]: whole seconds plus the fraction. *)
Definition Seconds (d : Z) : float64 :=
  fadd (f_of_Z (Z.quot d 1000000000))
       (fdiv (f_of_Z (Z.rem d 1000000000)) (f_of_Z 1000000000)).

Lemma Seconds_valid d : fvalid (Seconds d) = true.
Proof. apply fadd_valid; [apply f_of_Z_valid|]. apply fdiv_valid; apply f_of_Z_valid. Qed.

Definition Second : Z := 1000000000.
Definition Millisecond : Z := 1000000.

(** [Duration.Round(m)], halves away from zero, for a positive [m]. *)
Definition Round (d m : Z) : Z :=
  let r := Z.rem d m in
  if d <? 0 then
    if - r + - r <? m then d - r
    else if minDuration <=? d - (r + m) then d - (r + m) else minDuration
  else if r + r <? m then d - r
       else if d + (m - r) <=? maxDuration then d + (m - r) else maxDuration.

(** The fraction of [v] over ten to the [prec], without trailing zeros. *)
Fixpoint fmt_frac (prec : nat) (v : Z) (print : bool) (after : string) : string :=
  match prec with
  | O => if print then "." +:+ after else after
  | S prec =>
      let digit := v mod 10 in
      let print := print || negb (digit =? 0) in
      fmt_frac prec (v / 10) print (if print then Itoa digit +:+ after else after)
  end.

(** [Duration.String] *)
Definition Duration_String (d : Z) : string :=
  let u := Z.abs d in
  let sign := if d <? 0 then "-" else "" in
  if d =? 0 then "0s"
  else if u <? Second then
    sign +:+ (if u <? 1000 then Itoa u +:+ "ns"
              else if u <? Millisecond then Itoa (u / 1000) +:+ fmt_frac 3 u false "" +:+ "µs"
              else Itoa (u / Millisecond) +:+ fmt_frac 6 u false "" +:+ "ms")
  else
    let secs := u / Second in
    let s := Itoa (secs mod 60) +:+ fmt_frac 9 u false "" +:+ "s" in
    let mins := secs / 60 in
    sign +:+ (if mins =? 0 then s
              else let m := Itoa (mins mod 60) +:+ "m" +:+ s in
                   if mins / 60 =? 0 then m else Itoa (mins / 60) +:+ "h" +:+ m).

Example duration_1 : Duration_String (90 * Second + 50 * Millisecond) = "1m30.05s".
Proof. by vm_compute. Qed.
Example duration_2 : Duration_String (- (3600 * Second)) = "-1h0m0s".
Proof. by vm_compute. Qed.
Example duration_3 : Duration_String (1500 * 1000) = "1.5ms".
Proof. by vm_compute. Qed.

(** ** Processes *)

(** The calls on the Prometheus collectors; a vector's label values follow its name. *)
Inductive MetricOp :=
| Inc (name : string) (labels : list string)
| Dec (name : string) (labels : list string)
| SetGauge (name : string) (labels : list string) (v : float64)
| Observe (name : string) (labels : list string) (v : float64).

#[global] Instance MetricOp_eq_dec : EqDecision MetricOp.
Proof. solve_decision. Defined.

Record Proc (S : Type) := mkProc {
  heap : S;
  metrics : list MetricOp;
  clock : nat → Instant;
  tick : nat
}.
Arguments mkProc {S}.
Arguments heap {S}. Arguments metrics {S}. Arguments clock {S}. Arguments tick {S}.

Section Proc.
Context {S : Type}.

Definition set_heap (h : S) (p : Proc S) : Proc S :=
  mkProc h (metrics p) (clock p) (tick p).

(** An operation on the heap of the process. *)
Definition lift {A} (f : S → A * S) : M (Proc S) A := λ p,
  let '(a, h) := f (heap p) in (a, set_heap h p).

Definition emit (op : MetricOp) : M (Proc S) () := λ p,
  ((), mkProc (heap p) (metrics p ++ [op]) (clock p) (tick p)).

(** [time.Now()] reads the next instant of the clock. *)
Definition Now : M (Proc S) Instant := λ p,
  (clock p (tick p), mkProc (heap p) (metrics p) (clock p) (tick p + 1)%nat).

(** [time.Since(start)] for a [start] obtained from [time.Now]. *)
Definition Since (start : Instant) : M (Proc S) Z :=
  t ← Now; mret (Sub (mono t - mono start)).

(** [time.Since(time.Unix(0, ns))]: no monotonic reading, wall clocks are used. *)
Definition SinceUnixNano (ns : Z) : M (Proc S) Z :=
  t ← Now; mret (Sub (wall t - ns)).

(** How often a counter was incremented. *)
Definition is_inc (name : string) (labels : list string) (op : MetricOp) : bool :=
  bool_decide (op = Inc name labels).
Definition counter (name : string) (labels : list string) (p : Proc S) : nat :=
  length (filter (λ op, is_inc name labels op = true) (metrics p)).

Lemma counter_emit name labels op p :
  counter name labels (emit op p).2 =
    (counter name labels p + if is_inc name labels op then 1 else 0)%nat.
Proof.
  unfold counter. simpl. rewrite filter_app, length_app. f_equal.
  rewrite filter_cons. by destruct (is_inc name labels op).
Qed.

(** [m] increments the counter [name]/[labels] exactly [n] times. *)
Definition bumps {A} (name : string) (labels : list string) (m : M (Proc S) A) (n : nat)
    : Prop :=
  ∀ p, counter name labels (m p).2 = (counter name labels p + n)%nat.

Lemma bumps_emit name labels op :
  bumps name labels (emit op) (if is_inc name labels op then 1 else 0).
Proof. intros p. apply counter_emit. Qed.
Lemma bumps_ret {A} name labels (a : A) : bumps name labels (mret a) 0.
Proof. intros p. simpl. lia. Qed.
Lemma bumps_Now name labels : bumps name labels Now 0.
Proof. intros p. simpl. unfold counter. simpl. lia. Qed.
Lemma bumps_lift {A} name labels (f : S → A * S) : bumps name labels (lift f) 0.
Proof. intros p. unfold lift. destruct (f (heap p)). unfold counter. simpl. lia. Qed.
Lemma bumps_bind {A B} name labels (m : M (Proc S) A) (f : A → M (Proc S) B) n n' k :
  bumps name labels m n → (∀ a, bumps name labels (f a) n') → k = (n + n')%nat →
  bumps name labels (m ≫= f) k.
Proof. intros Hm Hf -> p. rewrite M_bind_eq, Hf, Hm. lia. Qed.
Lemma bumps_Since name labels i : bumps name labels (Since i) 0.
Proof. by eapply bumps_bind; [apply bumps_Now|intros; apply bumps_ret|]. Qed.
Lemma bumps_SinceUnixNano name labels i : bumps name labels (SinceUnixNano i) 0.
Proof. by eapply bumps_bind; [apply bumps_Now|intros; apply bumps_ret|]. Qed.

(** Operations that leave the heap alone: metrics and clock readings. *)
Definition heap_pure {A} (m : M (Proc S) A) : Prop := ∀ p, heap (m p).2 = heap p.

Lemma heap_pure_emit op : heap_pure (emit op).
Proof. done. Qed.
Lemma heap_pure_Now : heap_pure Now.
Proof. done. Qed.
Lemma heap_pure_ret {A} (a : A) : heap_pure (mret a).
Proof. done. Qed.
Lemma heap_pure_bind {A B} (m : M (Proc S) A) (f : A → M (Proc S) B) :
  heap_pure m → (∀ a, heap_pure (f a)) → heap_pure (m ≫= f).
Proof. intros Hm Hf p. by rewrite M_bind_eq, Hf, Hm. Qed.
Lemma heap_pure_Since i : heap_pure (Since i).
Proof. by apply heap_pure_bind. Qed.
Lemma heap_pure_SinceUnixNano i : heap_pure (SinceUnixNano i).
Proof. by apply heap_pure_bind. Qed.
Lemma heap_pure_if {A} (b : bool) (m m' : M (Proc S) A) :
  heap_pure m → heap_pure m' → heap_pure (if b then m else m').
Proof. by destruct b. Qed.
End Proc.

#[export] Hint Resolve bumps_ret bumps_Now bumps_lift bumps_Since bumps_SinceUnixNano : toll.
#[export] Hint Resolve heap_pure_emit heap_pure_Now heap_pure_ret heap_pure_bind
  heap_pure_Since heap_pure_SinceUnixNano heap_pure_if : toll.

(** ** Gauges and sockets *)

(** How often the calls [ops] increment a counter. *)
Definition incs (name : string) (ops : list MetricOp) : nat :=
  length (filter (λ op, is_inc name [] op = true) ops).

Lemma counter_incs {S} name (p p' : Proc S) ops :
  metrics p' = metrics p ++ ops → counter name [] p' = (counter name [] p + incs name ops)%nat.
Proof. intros Hp. unfold counter, incs. by rewrite Hp, filter_app, length_app. Qed.

(** The value of a gauge. *)
Definition gauge (name : string) (labels : list string) {S} (p : Proc S) : Z :=
  foldl (λ z op, if bool_decide (op = Inc name labels) then z + 1
                 else if bool_decide (op = Dec name labels) then z - 1 else z) 0 (metrics p).

Lemma gauge_emit {S} name labels op (p : Proc S) :
  gauge name labels (emit op p).2 =
    gauge name labels p +
    (if bool_decide (op = Inc name labels) then 1
     else if bool_decide (op = Dec name labels) then -1 else 0).
Proof. unfold gauge. simpl. rewrite foldl_snoc. repeat case_bool_decide; lia. Qed.

(** A pointer to a connection. *)
Abbreviation Conn := nat (only parsing).

(** ** Parts of a heap *)

(** A process whose heap has several parts runs an operation on one of them. *)
Section Zoom.
Context {S T : Type} (get : S → T) (set : T → S → S).

Definition part (p : Proc S) : Proc T := mkProc (get (heap p)) (metrics p) (clock p) (tick p).

Definition zoom {A} (m : M (Proc T) A) : M (Proc S) A := λ p,
  let '(a, q) := m (part p) in
  (a, mkProc (set (heap q) (heap p)) (metrics q) (clock q) (tick q)).

Lemma zoom_run {A} (m : M (Proc T) A) p : (zoom m p).1 = (m (part p)).1.
Proof. unfold zoom. by destruct (m (part p)). Qed.
Lemma zoom_heap {A} (m : M (Proc T) A) p :
  heap (zoom m p).2 = set (heap (m (part p)).2) (heap p).
Proof. unfold zoom. by destruct (m (part p)). Qed.
End Zoom.
