(* ===== verification/GoFlag.v ===== *)
(** * GoFlag: package flag and environment variables

    How a program's configuration comes about: [os.Getenv] with a fallback, the
    integers of package flag ([ParseInt] with base 0: prefixes and underscores),
    and [flag.Parse] on a set of flags that all take a value.  [parse_args_reads]
    is the law the configuration theorems use: a command line spelled as
    [-name=value] or [-name value] sets the flags from left to right. *)

From S2P Require Import Prelude Float64 GoLib.
From Stdlib Require Import Ascii.

Local Open Scope Z_scope.

(** ** The environment *)

(** [os.Getenv]: the empty string when the variable is not set. *)
Abbreviation Environ := (string → string) (only parsing).

Definition envOr (getenv : Environ) (key fallback : string) : string :=
  let value := getenv key in
  if bool_decide (value ≠ "") then value else fallback.

(** A variable that does not parse counts as one that is not set. *)
Definition envInt (getenv : Environ) (key : string) (fallback : Z) : Z :=
  match Atoi (getenv key) with Some value => value | None => fallback end.

Definition envInt64 (getenv : Environ) (key : string) (fallback : Z) : Z :=
  match Atoi (getenv key) with Some value => value | None => fallback end.

Definition envFloat `{TextLib} (getenv : Environ) (key : string) (fallback : float64) : float64 :=
  match ParseFloat (getenv key) with Some value => value | None => fallback end.

Definition envDuration `{TextLib} (getenv : Environ) (key : string) (fallback : Z) : Z :=
  match ParseDuration (getenv key) with Some value => value | None => fallback end.

(** ** strconv.ParseInt with base 0 *)

Definition lower (c : ascii) : ascii :=
  let n := N_of_ascii c in
  if bool_decide (65 ≤ n ≤ 90)%N then ascii_of_N (n + 32) else c.

(** The value of a digit or letter. *)
Definition digit_of (c : ascii) : option N :=
  match digit_val c with
  | Some d => Some d
  | None => let n := N_of_ascii (lower c) in
            if bool_decide (97 ≤ n ≤ 122)%N then Some (n - 97 + 10)%N else None
  end.

(** Underscores are skipped. *)
Fixpoint digits_in (base : N) (s : string) (acc : N) : option N :=
  match s with
  | EmptyString => Some acc
  | String "_" s => digits_in base s acc
  | String c s =>
      d ← digit_of c;
      if bool_decide (d < base)%N then digits_in base s (acc * base + d)%N else None
  end.

Fixpoint has_underscore (s : string) : bool :=
  match s with
  | EmptyString => false
  | String c s => Ascii.eqb c "_" || has_underscore s
  end.

(** The kind of the previous character: none or a base prefix, ['_'], or other. *)
Inductive before := BStart | BDigit | BUnderscore | BOther.

Fixpoint underscores_between (hex : bool) (prev : before) (s : string) : bool :=
  match s with
  | EmptyString => match prev with BUnderscore => false | _ => true end
  | String c s =>
      let n := N_of_ascii (lower c) in
      if bool_decide (48 ≤ n ≤ 57)%N || (hex && bool_decide (97 ≤ n ≤ 102)%N)
      then underscores_between hex BDigit s
      else if Ascii.eqb c "_" then
        match prev with BDigit => underscores_between hex BUnderscore s | _ => false end
      else match prev with BUnderscore => false | _ => underscores_between hex BOther s end
  end.

Definition underscoreOK (s : string) : bool :=
  match s with
  | String "0" (String c rest) =>
      let l := lower c in
      if Ascii.eqb l "b" || Ascii.eqb l "o" || Ascii.eqb l "x"
      then underscores_between (Ascii.eqb l "x") BDigit rest
      else underscores_between false BStart s
  | _ => underscores_between false BStart s
  end.

(** The base, and the digits after its prefix. *)
Definition base_prefix (s : string) : N * string :=
  match s with
  | String "0" (String c (String _ _ as rest)) =>
      let l := lower c in
      if Ascii.eqb l "b" then (2%N, rest)
      else if Ascii.eqb l "o" then (8%N, rest)
      else if Ascii.eqb l "x" then (16%N, rest)
      else (8%N, String c rest)
  | String "0" rest => (8%N, rest)
  | _ => (10%N, s)
  end.

Definition ParseUint0 (s : string) : option N :=
  match s with
  | EmptyString => None
  | _ => let '(base, digits) := base_prefix s in
         n ← digits_in base digits 0;
         if has_underscore s && negb (underscoreOK s) then None else Some n
  end.

(** [strconv.ParseInt(s, 0, 64)], which reads the values of integer flags. *)
Definition ParseInt0 (s : string) : option Z :=
  let '(neg, body) := match s with
                      | String "-" s => (true, s)
                      | String "+" s => (false, s)
                      | _ => (false, s)
                      end in
  n ← ParseUint0 body;
  let z := if neg : bool then - Z.of_N n else Z.of_N n in
  if bool_decide (in_i64 z) then Some z else None.

Example int_text_1 : ParseInt0 "-0x1F" = Some (-31).
Proof. by vm_compute. Qed.
Example int_text_2 : ParseInt0 "1_000" = Some 1000.
Proof. by vm_compute. Qed.
Example int_text_3 : ParseInt0 "1__0" = None.
Proof. by vm_compute. Qed.
Example int_text_4 : ParseInt0 "017" = Some 15.
Proof. by vm_compute. Qed.
Example int_text_5 : ParseInt0 "9223372036854775808" = None.
Proof. by vm_compute. Qed.

(** *** Decimal integers are read back *)

Lemma digits_in_10 s acc r :
  parse_digits s acc = Some r → digits_in 10 s acc = Some r ∧ has_underscore s = false.
Proof.
  revert acc. induction s as [|c s IH]; intros acc; [done|]. cbn [parse_digits].
  destruct (digit_val c) as [d|] eqn:Hd; [|done]. intros Hs.
  assert (Ascii.eqb c "_" = false) as Hu.
  { apply Ascii.eqb_neq. intros ->. by vm_compute in Hd. }
  assert (d < 10)%N as Hlt.
  { unfold digit_val in Hd. cbv zeta in Hd. case_bool_decide; simplify_eq. lia. }
  destruct (IH _ Hs) as [H1 H2]. split; [|simpl; by rewrite Hu].
  assert (digits_in 10 (String c s) acc = d ← digit_of c;
    if bool_decide (d < 10)%N then digits_in 10 s (acc * 10 + d)%N else None) as ->.
  { clear -Hu. by destruct c as [[] [] [] [] [] [] [] []]. }
  unfold digit_of. rewrite Hd. simpl. by rewrite bool_decide_eq_true_2.
Qed.

Lemma ParseUint0_pretty n : ParseUint0 (pretty n) = Some n.
Proof.
  destruct (decide (n = 0)%N) as [->|Hn]; [done|].
  destruct (digits_in_10 _ _ _ (parse_digits_N n)) as [H1 H2].
  assert (∃ c s, pretty n = String c s ∧ c ≠ "0"%char) as (c & s & E & Hc).
  { unfold pretty, pretty_N. rewrite decide_False by done. apply pretty_N_go_head. lia. }
  rewrite E in *. unfold ParseUint0.
  assert (base_prefix (String c s) = (10%N, String c s)) as ->.
  { clear -Hc. by destruct c as [[] [] [] [] [] [] [] []]. }
  by rewrite H1, H2.
Qed.

Lemma ParseInt0_Itoa z : in_i64 z → ParseInt0 (Itoa z) = Some z.
Proof.
  intros Hz. assert (∀ n : N, ParseInt0 (pretty n) =
    if bool_decide (in_i64 (Z.of_N n)) then Some (Z.of_N n) else None) as Hp.
  { intros n. pose proof (ParseUint0_pretty n) as Hn.
    destruct (pretty_N_head n) as (c & s & E & H1 & H2). rewrite E in *.
    unfold ParseInt0. destruct c as [[] [] [] [] [] [] [] []]; try done; by rewrite Hn. }
  destruct z as [|p|p].
  - done.
  - change (Itoa (Z.pos p)) with (pretty (Npos p)). rewrite Hp. by rewrite bool_decide_eq_true_2.
  - change (Itoa (Z.neg p)) with (String "-" (pretty (Npos p))). unfold ParseInt0.
    rewrite ParseUint0_pretty. simpl. by rewrite bool_decide_eq_true_2.
Qed.

(** ** flag.Parse *)

(** The program ends: on [-h] or [-help] with status 0, on an error with status 2
    after a message. *)
Inductive flag_exit := Help | BadFlag (msg : string).

(** A flag with a value: how the value is stored, or the error of [Value.Set]. *)
Record flag (C : Type) := mkFlag { flag_name : string; flag_set : string → C → option C }.
Arguments mkFlag {C}. Arguments flag_name {C}. Arguments flag_set {C}.

Section Flags.
Context `{TextLib} {C : Type}.

Definition StringVar (name : string) (set : string → C → C) : flag C :=
  mkFlag name (λ s c, Some (set s c)).
Definition IntVar (name : string) (set : Z → C → C) : flag C :=
  mkFlag name (λ s c, (λ z, set z c) <$> ParseInt0 s).
Definition Float64Var (name : string) (set : float64 → C → C) : flag C :=
  mkFlag name (λ s c, (λ x, set x c) <$> ParseFloat s).
Definition DurationVar (name : string) (set : Z → C → C) : flag C :=
  mkFlag name (λ s c, (λ d, set d c) <$> ParseDuration s).

Definition lookup_flag (flags : list (flag C)) (name : string) : option (flag C) :=
  head (filter (λ f, flag_name f = name) flags).

(** The name, and the value when the argument has one: the text before and after
    an equals sign that is not the first character. *)
Definition name_and_value (name : string) : string * option string :=
  match name with
  | EmptyString => ("", None)
  | String c rest => match CutAt "=" rest with
                     | Some (n, value) => (String c n, Some value)
                     | None => (name, None)
                     end
  end.

(** What the first argument is: [None] when it is not a flag, so that parsing ends. *)
Inductive arg := Positional | Terminator | BadSyntax | FlagArg (name : string) (value : option string).

Definition flag_name_ok (name : string) : bool :=
  match name with
  | EmptyString => false
  | String c _ => negb (Ascii.eqb c "-") && negb (Ascii.eqb c "=")
  end.

Definition read_arg (s : string) : arg :=
  match s with
  | String "-" (String c rest as name) =>
      let name := if Ascii.eqb c "-" then rest else name in
      if Ascii.eqb c "-" && bool_decide (rest = "") then Terminator
      else if flag_name_ok name then let '(n, v) := name_and_value name in FlagArg n v
      else BadSyntax
  | _ => Positional
  end.

(** The message leaves out the error of [Value.Set]. *)
Definition set_flag (f : flag C) (value : string) (c : C) : C + flag_exit :=
  match flag_set f value c with
  | Some c => inl c
  | None => inr (BadFlag ("invalid value " +:+ Quote value +:+ " for flag -" +:+ flag_name f))
  end.

(** [flag.Parse]: the remaining arguments are not used by the programs. *)
Fixpoint parse_args (flags : list (flag C)) (args : list string) (c : C) : C + flag_exit :=
  match args with
  | [] => inl c
  | s :: args =>
      match read_arg s with
      | Positional | Terminator => inl c
      | BadSyntax => inr (BadFlag ("bad flag syntax: " +:+ s))
      | FlagArg name value =>
          match lookup_flag flags name with
          | None => inr (if bool_decide (name = "help" ∨ name = "h") then Help
                         else BadFlag ("flag provided but not defined: -" +:+ name))
          | Some f =>
              match value, args with
              | Some value, _ =>
                  match set_flag f value c with
                  | inl c => parse_args flags args c
                  | inr e => inr e
                  end
              | None, value :: args =>
                  match set_flag f value c with
                  | inl c => parse_args flags args c
                  | inr e => inr e
                  end
              | None, [] => inr (BadFlag ("flag needs an argument: -" +:+ name))
              end
          end
      end
  end.

(** ** Spelling a command line *)

(** One assignment, as [-name=value] or as two arguments. *)
Definition spelled (a : bool * flag C * string) : list string :=
  let '(inline, f, value) := a in
  if inline then ["-" +:+ flag_name f +:+ "=" +:+ value] else ["-" +:+ flag_name f; value].

Definition assignment_ok (flags : list (flag C)) (a : bool * flag C * string) : Prop :=
  let f := a.1.2 in
  flag_name_ok (flag_name f) = true ∧ CutAt "=" (flag_name f) = None ∧
  lookup_flag flags (flag_name f) = Some f.

Fixpoint set_all (l : list (bool * flag C * string)) (c : C) : C + flag_exit :=
  match l with
  | [] => inl c
  | (_, f, value) :: l => match set_flag f value c with inl c => set_all l c | inr e => inr e end
  end.

Lemma read_arg_name name :
  flag_name_ok name = true → CutAt "=" name = None →
  read_arg ("-" +:+ name) = FlagArg name None ∧
  ∀ v, read_arg ("-" +:+ name +:+ "=" +:+ v) = FlagArg name (Some v).
Proof.
  destruct name as [|c name]; [done|]. intros Hok Hc.
  assert (Ascii.eqb c "-" = false) as Hd.
  { simpl in Hok. by apply andb_true_iff in Hok as [?%negb_true_iff _]. }
  assert (CutAt "=" name = None) as Hn.
  { simpl in Hc. destruct (Ascii.eqb c "="); [done|]. by destruct (CutAt "=" name) as [[]|]. }
  assert (∀ rest, read_arg (String "-" (String c rest)) =
    let '(n, v) := name_and_value (String c rest) in FlagArg n v) as Hr.
  { intros rest. unfold read_arg. rewrite Hd. cbn [andb].
    change (flag_name_ok (String c rest)) with (flag_name_ok (String c name)). by rewrite Hok. }
  split; [|intros v].
  - change (read_arg (String "-" (String c name)) = FlagArg (String c name) None).
    rewrite Hr. cbn [name_and_value]. by rewrite Hn.
  - change (read_arg (String "-" (String c (name +:+ String "=" v))) = FlagArg (String c name) (Some v)).
    rewrite Hr. cbn [name_and_value]. by rewrite (CutAt_app _ _ _ Hn).
Qed.

Lemma parse_args_reads flags l rest c :
  Forall (assignment_ok flags) l →
  parse_args flags (concat (spelled <$> l) ++ rest) c =
    match set_all l c with inl c => parse_args flags rest c | inr e => inr e end.
Proof.
  intros Hl. revert c. induction Hl as [|[[inline f] value] l (Hok & Heq & Hf) _ IH]; intros c; [done|].
  destruct (read_arg_name (flag_name f) Hok Heq) as [Hr1 Hr2].
  cbn [fmap list_fmap concat set_all]. cbn [fst snd] in *.
  destruct inline; cbn [spelled app parse_args]; rewrite ?Hr1, ?Hr2, Hf; destruct (set_flag f value c); auto.
Qed.
End Flags.
