(* ===== verification/Types.v ===== *)
(** * Types: the data shared by the services (src/types)

    The structs of types/types.go and the message of types/ptypes.proto, the
    64-bit FNV-1a fingerprint of an event id, and the order-independent digest
    (count, xor, sum) of the event ids that the load generator and the
    aggregator both maintain so that they can be compared after a run. *)

From S2P Require Import Prelude Float64 GoLib.
From Stdlib Require Import Ascii.

Local Open Scope Z_scope.

(** ** Structs *)

Record OBUData := mkOBUData {
  od_EventID : string;
  od_ProducedAtUnixNano : Z;
  od_OBUID : Z;
  od_Lat : float64;
  od_Lon : float64;
  od_Payload : string
}.

Record Distance := mkDistance {
  d_EventID : string;
  d_ProducedAtUnixNano : Z;
  d_Value : float64;
  d_OBUID : Z
}.

Record Invoice := mkInvoice {
  inv_OBUID : Z;
  inv_TotalDist : float64;
  inv_Amount : float64
}.

Record EventReconciliation := mkRecon { Count : Z; XOR : Z; Sum : Z }.

(** The gRPC message; [req_ObuID] is an [int32]. *)
Record AggregateRequest := mkReq {
  req_ObuID : Z;
  req_Value : float64;
  req_ProducedAtUnixNano : Z;
  req_EventID : string
}.

#[global] Instance OBUData_eq_dec : EqDecision OBUData.
Proof. solve_decision. Defined.
#[global] Instance Distance_eq_dec : EqDecision Distance.
Proof. solve_decision. Defined.
#[global] Instance Invoice_eq_dec : EqDecision Invoice.
Proof. solve_decision. Defined.
#[global] Instance EventReconciliation_eq_dec : EqDecision EventReconciliation.
Proof. solve_decision. Defined.
#[global] Instance AggregateRequest_eq_dec : EqDecision AggregateRequest.
Proof. solve_decision. Defined.

(** ** FNV-1a, 64 bits *)

Definition fnv_offset64 : Z := 14695981039346656037.
Definition fnv_prime64 : Z := 1099511628211.

(** One byte: xor, then multiply, on a [uint64]. *)
Definition fnv_step (h : Z) (c : ascii) : Z :=
  wrapU 64 (Z.lxor h (Z.of_N (N_of_ascii c)) * fnv_prime64).

Fixpoint fnv_write (h : Z) (s : string) : Z :=
  match s with
  | EmptyString => h
  | String c s => fnv_write (fnv_step h c) s
  end.

Definition EventIDFingerprint (eventID : string) : Z := fnv_write fnv_offset64 eventID.

Lemma fnv_step_u64 h c : in_u64 (fnv_step h c).
Proof. by apply wrapU_range. Qed.

Lemma fnv_write_u64 h s : in_u64 h → in_u64 (fnv_write h s).
Proof. revert h. induction s; simpl; auto using fnv_step_u64. Qed.

Lemma EventIDFingerprint_u64 s : in_u64 (EventIDFingerprint s).
Proof. by apply fnv_write_u64. Qed.

#[export] Hint Resolve fnv_step_u64 fnv_write_u64 EventIDFingerprint_u64 : toll.

Lemma lxor_cancel_l a b c : Z.lxor a b = Z.lxor a c → b = c.
Proof.
  intros H. apply (f_equal (Z.lxor a)) in H.
  by rewrite <- !Z.lxor_assoc, !Z.lxor_nilpotent, !Z.lxor_0_l in H.
Qed.

Lemma lxor_cancel_r a b c : Z.lxor b a = Z.lxor c a → b = c.
Proof. rewrite (Z.lxor_comm b), (Z.lxor_comm c). apply lxor_cancel_l. Qed.

(** The prime is odd, so multiplying by it is injective on [uint64]. *)
Lemma mul_prime_inj x y :
  in_u64 x → in_u64 y → wrapU 64 (x * fnv_prime64) = wrapU 64 (y * fnv_prime64) → x = y.
Proof.
  intros Hx Hy H.
  assert (∀ z, in_u64 z → wrapU 64 (wrapU 64 (z * fnv_prime64) * 14886173955864302971) = z)
    as Hinv.
  { intros z Hz. unfold wrapU in *. rewrite Zmult_mod_idemp_l.
    unfold fnv_prime64.
    replace (z * 1099511628211 * 14886173955864302971)
      with (z + (z * 887285111055) * 2 ^ 64) by lia.
    rewrite Z_mod_plus_full. by apply Z.mod_small. }
  rewrite <- (Hinv x Hx), <- (Hinv y Hy). by rewrite H.
Qed.

Lemma byte_u64 c : in_u64 (Z.of_N (N_of_ascii c)).
Proof. pose proof (N_ascii_bounded c). unfold in_u64. lia. Qed.

#[export] Hint Resolve byte_u64 : toll.

Lemma fnv_step_inj_byte h c c' :
  in_u64 h → fnv_step h c = fnv_step h c' → c = c'.
Proof.
  intros Hh H. apply mul_prime_inj in H; auto with toll.
  apply lxor_cancel_l, N2Z.inj in H.
  rewrite <- (ascii_N_embedding c), <- (ascii_N_embedding c'). by rewrite H.
Qed.

Lemma fnv_step_inj_state h h' c :
  in_u64 h → in_u64 h' → fnv_step h c = fnv_step h' c → h = h'.
Proof.
  intros Hh Hh' H. apply mul_prime_inj in H; auto with toll. by apply lxor_cancel_r in H.
Qed.

Lemma fnv_write_inj_state h h' s :
  in_u64 h → in_u64 h' → fnv_write h s = fnv_write h' s → h = h'.
Proof.
  revert h h'. induction s as [|c s IH]; simpl; intros h h' ?? H; [done|].
  apply (fnv_step_inj_state _ _ c); auto with toll.
Qed.

Lemma fnv_write_app h s s' : fnv_write h (s +:+ s') = fnv_write (fnv_write h s) s'.
Proof. revert h. induction s; simpl; auto. Qed.

(** ** The digest of a collection of event ids *)

Definition recon_zero : EventReconciliation := mkRecon 0 0 0.

(** Count, xor and sum after one more event: [uint64] arithmetic. *)
Definition recon_add (r : EventReconciliation) (id : string) : EventReconciliation :=
  let fingerprint := EventIDFingerprint id in
  mkRecon (wrapU 64 (Count r + 1)) (Z.lxor (XOR r) fingerprint)
          (wrapU 64 (Sum r + fingerprint)).

Definition recon_of (ids : list string) : EventReconciliation :=
  foldl recon_add recon_zero ids.

Definition recon_wf (r : EventReconciliation) : Prop :=
  in_u64 (Count r) ∧ in_u64 (XOR r) ∧ in_u64 (Sum r).

Lemma recon_add_wf r id : recon_wf r → recon_wf (recon_add r id).
Proof.
  intros (?&?&?). split_and!; simpl; auto with toll; by apply wrapU_range.
Qed.

Lemma recon_add_comm r a b : recon_add (recon_add r a) b = recon_add (recon_add r b) a.
Proof.
  unfold recon_add. simpl. f_equal.
  - by rewrite !Z.lxor_assoc, (Z.lxor_comm (EventIDFingerprint a)).
  - rewrite !wrapU_add_l. f_equal. lia.
Qed.

Lemma recon_of_Permutation l l' : l ≡ₚ l' → recon_of l = recon_of l'.
Proof. apply foldl_Permutation, recon_add_comm. Qed.

Lemma recon_of_wf l : recon_wf (recon_of l).
Proof. apply (foldl_inv recon_wf recon_add); [done|]. intros. by apply recon_add_wf. Qed.

Lemma recon_of_snoc l a : recon_of (l ++ [a]) = recon_add (recon_of l) a.
Proof. apply (foldl_snoc recon_add). Qed.

Lemma recon_of_cons a l : recon_of (a :: l) = recon_add (recon_of l) a.
Proof. rewrite <- recon_of_snoc. apply recon_of_Permutation, Permutation_cons_append. Qed.

Lemma recon_of_Count l : Count (recon_of l) = wrapU 64 (Z.of_nat (length l)).
Proof.
  induction l as [|a l IH] using rev_ind; [done|].
  rewrite recon_of_snoc, length_app. simpl. rewrite IH, wrapU_add_l. f_equal. lia.
Qed.

(** ** Properties *)

(** Two event ids that differ in exactly one byte never have the same
    fingerprint, wherever the byte is and whatever surrounds it: the ids of one
    load run that differ in one digit of the sequence number are told apart. *)
Theorem fingerprint_one_byte (p s : string) (a b : ascii) :
  a ≠ b →
  EventIDFingerprint (p +:+ String a s) ≠ EventIDFingerprint (p +:+ String b s).
Proof.
  intros Hab H. unfold EventIDFingerprint in H. rewrite !fnv_write_app in H. simpl in H.
  assert (in_u64 (fnv_write fnv_offset64 p)) by (by apply fnv_write_u64).
  apply fnv_write_inj_state, fnv_step_inj_byte in H; auto with toll.
Qed.

Lemma fingerprint_one_byte_witness :
  "3"%char ≠ "4"%char ∧
  EventIDFingerprint ("1-99-" +:+ String "3" "7") ≠ EventIDFingerprint ("1-99-" +:+ String "4" "7").
Proof.
  split; [by vm_compute|]. apply (fingerprint_one_byte "1-99-" "7" "3" "4"). by vm_compute.
Defined.

(** The digest sees every single fault.  Dropping one event changes it, and
    replacing one event by another changes it exactly when the two fingerprints
    differ; permuting the events does not change it. *)
Theorem recon_single_fault (a b : string) (l l' : list string) :
  Z.of_nat (length l) < 2 ^ 64 - 1 → l ≡ₚ l' →
  recon_of l = recon_of l' ∧
  recon_of (a :: l) ≠ recon_of l' ∧
  (recon_of (a :: l) = recon_of (b :: l') ↔ EventIDFingerprint a = EventIDFingerprint b).
Proof.
  intros Hlen Hp. rewrite <- (recon_of_Permutation _ _ Hp).
  rewrite (recon_of_cons b l'), <- (recon_of_Permutation _ _ Hp), recon_of_cons.
  split_and!; [done| |].
  - intros H%(f_equal Count). simpl in H. rewrite recon_of_Count, wrapU_add_l in H.
    rewrite !wrapU_id in H; lia.
  - split; [|intros H; unfold recon_add; by rewrite H].
    intros H%(f_equal XOR). simpl in H. by apply lxor_cancel_l in H.
Qed.

Lemma recon_single_fault_witness :
  Z.of_nat (length ["e1"; "e2"]) < 2 ^ 64 - 1 ∧ ["e1"; "e2"] ≡ₚ ["e2"; "e1"] ∧
  recon_of ["e0"; "e1"; "e2"] ≠ recon_of ["e2"; "e1"].
Proof.
  assert (["e1"; "e2"] ≡ₚ ["e2"; "e1"]) as Hp by constructor.
  split_and!; [by vm_compute|done|].
  by apply (recon_single_fault "e0" "e3" ["e1"; "e2"] ["e2"; "e1"]).
Defined.

(** Published FNV-1a test vectors. *)
Example fnv_empty : EventIDFingerprint "" = 0xcbf29ce484222325.
Proof. reflexivity. Qed.
Example fnv_a : EventIDFingerprint "a" = 0xaf63dc4c8601ec8c.
Proof. reflexivity. Qed.
Example fnv_foobar : EventIDFingerprint "foobar" = 0x85944171f73967e8.
Proof. reflexivity. Qed.
