(* ===== verification/Store.v ===== *)
(** * Store: the aggregator's in-memory store (src/aggregator/store.go)

    [MemoryStore] and its methods, the [Storer] interface of service.go, and
    what the interface promises: [StorerSpec] relates a store to a ledger, the
    list of the distance events applied so far, oldest first.  Every method of
    [MemoryStore] holds [mu] from its first to its last line, so concurrent
    callers execute whole methods one after the other: an execution is a list of
    calls, and the theorems quantify over every such list. *)

From S2P Require Import Prelude Float64 GoLib Types.

Local Open Scope Z_scope.

(** ** The interface *)

Class Storer (S : Type) := {
  Insert : Distance → S → (bool * option error) * S;
  Get : Z → S → (float64 * option error) * S;
  Reconciliation : S → EventReconciliation * S
}.

(** ** The abstract ledger *)

Abbreviation Ledger := (list Distance) (only parsing).

(** The non-empty event ids of a ledger, oldest first. *)
Definition l_ids (L : Ledger) : list string :=
  filter (λ id, id ≠ "") (d_EventID <$> L).

Definition l_values (L : Ledger) (obu : Z) : list float64 :=
  d_Value <$> filter (λ d, d_OBUID d = obu) L.

Definition l_total (L : Ledger) (obu : Z) : option float64 :=
  match l_values L obu with
  | [] => None
  | vs => Some (foldl fadd fzero vs)
  end.

Definition l_digest (L : Ledger) : EventReconciliation := recon_of (l_ids L).

(** An event is a duplicate when its (non-empty) id was applied before. *)
Definition l_dup (d : Distance) (L : Ledger) : bool := bool_decide (d_EventID d ∈ l_ids L).

Definition l_insert (d : Distance) (L : Ledger) : Ledger :=
  if l_dup d L then L else L ++ [d].

Definition not_found (id : Z) : error := EText ("Data not found for " +:+ Itoa id).

Class StorerSpec (S : Type) `{Storer S} := {
  refines : S → Ledger → Prop;
  Insert_refines d s L : refines s L →
    (Insert d s).1 = (negb (l_dup d L), None) ∧ refines (Insert d s).2 (l_insert d L);
  Get_refines id s L : refines s L →
    (Get id s).1 = match l_total L id with
                   | Some t => (t, None)
                   | None => (fzero, Some (not_found id))
                   end ∧ refines (Get id s).2 L;
  Reconciliation_refines s L : refines s L →
    (Reconciliation s).1 = l_digest L ∧ refines (Reconciliation s).2 L
}.

(** ** MemoryStore *)

Module MemoryStore.

Record MemoryStore := mkMemoryStore {
  data : gmap Z float64;
  processed : gset string;
  reconcile : EventReconciliation
}.

Definition Insert (d : Distance) (m : MemoryStore) : (bool * option error) * MemoryStore :=
  let add (m : MemoryStore) :=
    ((true, None),
     mkMemoryStore
       (<[d_OBUID d := fadd (default fzero (data m !! d_OBUID d)) (d_Value d)]> (data m))
       (processed m) (reconcile m)) in
  if bool_decide (d_EventID d ≠ "") then
    if bool_decide (d_EventID d ∈ processed m) then ((false, None), m)
    else add (mkMemoryStore (data m) ({[d_EventID d]} ∪ processed m)
                            (recon_add (reconcile m) (d_EventID d)))
  else add m.

Definition Get (id : Z) (m : MemoryStore) : (float64 * option error) * MemoryStore :=
  match data m !! id with
  | None => ((fzero, Some (not_found id)), m)
  | Some dist => ((dist, None), m)
  end.

Definition Reconciliation (m : MemoryStore) : EventReconciliation * MemoryStore :=
  (reconcile m, m).

Definition NewMemoryStore : MemoryStore := mkMemoryStore ∅ ∅ recon_zero.

End MemoryStore.

Abbreviation MemoryStore := MemoryStore.MemoryStore (only parsing).
Abbreviation NewMemoryStore := MemoryStore.NewMemoryStore (only parsing).

#[export] Instance MemoryStore_Storer : Storer MemoryStore := {|
  Insert := MemoryStore.Insert;
  Get := MemoryStore.Get;
  Reconciliation := MemoryStore.Reconciliation
|}.

(** ** Ledger lemmas *)

Lemma l_ids_app L L' : l_ids (L ++ L') = l_ids L ++ l_ids L'.
Proof. unfold l_ids. by rewrite fmap_app, filter_app. Qed.

Lemma l_ids_snoc L d : d_EventID d ≠ "" → l_ids (L ++ [d]) = l_ids L ++ [d_EventID d].
Proof. intros. rewrite l_ids_app. f_equal. unfold l_ids. simpl. by rewrite filter_cons_True. Qed.

Lemma l_ids_snoc_anon L d : d_EventID d = "" → l_ids (L ++ [d]) = l_ids L.
Proof.
  intros He. rewrite l_ids_app. unfold l_ids at 2. simpl.
  rewrite filter_cons_False by auto. apply app_nil_r.
Qed.

Lemma not_in_l_ids_empty L : "" ∉ l_ids L.
Proof. unfold l_ids. by intros [? _]%list_elem_of_filter. Qed.

Lemma l_values_snoc L d obu :
  l_values (L ++ [d]) obu =
    l_values L obu ++ (if bool_decide (d_OBUID d = obu) then [d_Value d] else []).
Proof.
  unfold l_values. rewrite filter_app, fmap_app. f_equal.
  rewrite filter_cons. by repeat case_match; case_bool_decide.
Qed.

Lemma l_total_snoc L d obu :
  l_total (L ++ [d]) obu =
    if bool_decide (d_OBUID d = obu)
    then Some (fadd (default fzero (l_total L obu)) (d_Value d))
    else l_total L obu.
Proof.
  unfold l_total. rewrite l_values_snoc. case_bool_decide; [|by rewrite app_nil_r].
  destruct (l_values L obu) as [|v vs]; [done|]. simpl. by rewrite foldl_app.
Qed.

Lemma l_total_is_Some L obu :
  bool_decide (obu ∈ d_OBUID <$> L) = if l_total L obu is Some _ then true else false.
Proof.
  unfold l_total, l_values. induction L as [|d L IH]; [done|].
  rewrite filter_cons, fmap_cons. destruct (decide (d_OBUID d = obu)) as [<-|Hne].
  - rewrite bool_decide_eq_true_2 by set_solver. done.
  - rewrite <- IH. apply bool_decide_ext. set_solver.
Qed.

(** ** The store implements the interface *)

Definition store_refines (m : MemoryStore) (L : Ledger) : Prop :=
  (∀ obu, MemoryStore.data m !! obu = l_total L obu) ∧
  MemoryStore.processed m = list_to_set (l_ids L) ∧
  MemoryStore.reconcile m = l_digest L.

Lemma store_refines_new : store_refines NewMemoryStore [].
Proof. split_and!; [|done|done]. intros obu. apply lookup_empty. Qed.

Lemma store_refines_dup d m L :
  store_refines m L →
  (bool_decide (d_EventID d ≠ "") && bool_decide (d_EventID d ∈ MemoryStore.processed m))
  = l_dup d L.
Proof.
  intros (_ & Hp & _). unfold l_dup. rewrite Hp.
  rewrite <- bool_decide_and. apply bool_decide_ext. rewrite elem_of_list_to_set.
  split; [by intros []|]. intros Hin. split; [|done]. intros He. rewrite He in Hin.
  by apply not_in_l_ids_empty in Hin.
Qed.

Lemma store_Insert_refines d m L :
  store_refines m L →
  (MemoryStore.Insert d m).1 = (negb (l_dup d L), None) ∧
  store_refines (MemoryStore.Insert d m).2 (l_insert d L).
Proof.
  intros Hm. pose proof (store_refines_dup d m L Hm) as Hdup. destruct Hm as (Hd & Hp & Hr).
  assert (∀ m', MemoryStore.data m' = MemoryStore.data m → ∀ obu,
    <[d_OBUID d:=fadd (default fzero (MemoryStore.data m' !! d_OBUID d)) (d_Value d)]>
      (MemoryStore.data m') !! obu = l_total (L ++ [d]) obu) as Hdata.
  { clear Hdup. intros m' -> obu. rewrite l_total_snoc, lookup_insert, !Hd.
    case_decide; case_bool_decide; by subst. }
  unfold MemoryStore.Insert, l_insert. rewrite <- Hdup.
  case_bool_decide as He; simpl; [case_bool_decide as Hin; simpl|];
    split; try done; split_and!; simpl; try apply Hdata; try done.
  - rewrite l_ids_snoc, list_to_set_app_L, <- Hp by done. simpl.
    by rewrite (right_id_L ∅ (∪)), (comm_L (∪)).
  - unfold l_digest. by rewrite l_ids_snoc, recon_of_snoc, Hr by done.
  - by rewrite l_ids_snoc_anon.
  - unfold l_digest. by rewrite l_ids_snoc_anon.
Qed.

Lemma store_Get_refines id m L :
  store_refines m L →
  (MemoryStore.Get id m).1 = match l_total L id with
                             | Some t => (t, None)
                             | None => (fzero, Some (not_found id))
                             end ∧ store_refines (MemoryStore.Get id m).2 L.
Proof.
  intros Hm. destruct (Hm) as [Hd _]. unfold MemoryStore.Get. rewrite Hd.
  by destruct (l_total L id).
Qed.

Lemma store_Reconciliation_refines m L :
  store_refines m L →
  (MemoryStore.Reconciliation m).1 = l_digest L ∧
  store_refines (MemoryStore.Reconciliation m).2 L.
Proof. intros Hm. by destruct (Hm) as (? & ? & ?). Qed.

#[export] Instance MemoryStore_spec : StorerSpec MemoryStore := {|
  refines := store_refines;
  Insert_refines := store_Insert_refines;
  Get_refines := store_Get_refines;
  Reconciliation_refines := store_Reconciliation_refines
|}.

Lemma refines_new : refines (S:=MemoryStore) NewMemoryStore [].
Proof. apply store_refines_new. Qed.

(** ** Executions: sequences of method calls *)

Inductive Call := CallInsert (d : Distance) | CallGet (id : Z) | CallRecon.

Inductive Reply :=
| ReplyInsert (r : bool * option error)
| ReplyGet (r : float64 * option error)
| ReplyRecon (r : EventReconciliation).

(** One method call on an implementation of [Storer], and on the ledger. *)
Definition call_step {S} `{Storer S} (c : Call) (s : S) : Reply * S :=
  match c with
  | CallInsert d => let '(r, s') := Insert d s in (ReplyInsert r, s')
  | CallGet id => let '(r, s') := Get id s in (ReplyGet r, s')
  | CallRecon => let '(r, s') := Reconciliation s in (ReplyRecon r, s')
  end.

Definition ledger_step (c : Call) (L : Ledger) : Reply * Ledger :=
  match c with
  | CallInsert d => (ReplyInsert (negb (l_dup d L), None), l_insert d L)
  | CallGet id =>
      (ReplyGet match l_total L id with
                | Some t => (t, None)
                | None => (fzero, Some (not_found id))
                end, L)
  | CallRecon => (ReplyRecon (l_digest L), L)
  end.

Fixpoint run_calls {St} (step : Call → St → Reply * St) (cs : list Call) (s : St)
    : list Reply * St :=
  match cs with
  | [] => ([], s)
  | c :: cs => let '(r, s) := step c s in
               let '(rs, s) := run_calls step cs s in (r :: rs, s)
  end.

Section Simulation.
Context {S : Type} `{StorerSpec S}.

Lemma call_step_refines c s L :
  refines s L →
  (call_step c s).1 = (ledger_step c L).1 ∧ refines (call_step c s).2 (ledger_step c L).2.
Proof.
  intros Hs. destruct c as [d|id|]; simpl.
  - destruct (Insert_refines d s L Hs) as [E ?].
    destruct (Insert d s) as [r s']. simpl in *. by subst.
  - destruct (Get_refines id s L Hs) as [E ?].
    destruct (Get id s) as [r s']. simpl in *. by subst.
  - destruct (Reconciliation_refines s L Hs) as [E ?].
    destruct (Reconciliation s) as [r s']. simpl in *. by subst.
Qed.

Lemma run_calls_refines cs s L :
  refines s L →
  (run_calls call_step cs s).1 = (run_calls ledger_step cs L).1 ∧
  refines (run_calls call_step cs s).2 (run_calls ledger_step cs L).2.
Proof.
  revert s L. induction cs as [|c cs IH]; intros s L Hs; [done|].
  destruct (call_step_refines c s L Hs) as [E Hs']. simpl.
  destruct (call_step c s) as [r s'], (ledger_step c L) as [r' L']. simpl in *. subst.
  destruct (IH _ _ Hs') as [E' Hs''].
  destruct (run_calls call_step cs s'), (run_calls ledger_step cs L'). simpl in *. by subst.
Qed.
End Simulation.

(** The events a list of calls inserts, in order; the final ledger depends on
    nothing else. *)
Definition inserts (cs : list Call) : list Distance :=
  omap (λ c, match c with CallInsert d => Some d | _ => None end) cs.

Definition ledger_of (ds : list Distance) : Ledger := foldl (λ L d, l_insert d L) [] ds.

Lemma run_calls_ledger cs L :
  (run_calls ledger_step cs L).2 = foldl (λ L d, l_insert d L) L (inserts cs).
Proof.
  revert L. induction cs as [|c cs IH]; intros L; [done|]. simpl.
  destruct c; simpl; rewrite <- IH; by destruct (run_calls _ _ _).
Qed.

Lemma ledger_of_snoc ds d : ledger_of (ds ++ [d]) = l_insert d (ledger_of ds).
Proof. apply (foldl_snoc (λ L d, l_insert d L)). Qed.

Lemma ledger_of_subset ds d : d ∈ ledger_of ds → d ∈ ds.
Proof.
  induction ds as [|d' ds IH] using rev_ind; [done|].
  rewrite ledger_of_snoc. unfold l_insert. case_match; set_solver.
Qed.

Lemma l_ids_insert d L :
  d_EventID d ≠ "" →
  l_ids (l_insert d L) = if l_dup d L then l_ids L else l_ids L ++ [d_EventID d].
Proof. intros. unfold l_insert. case_match; [done|]. by apply l_ids_snoc. Qed.

Lemma l_ids_insert_anon d L : d_EventID d = "" → l_ids (l_insert d L) = l_ids L.
Proof. intros. unfold l_insert. case_match; [done|]. by apply l_ids_snoc_anon. Qed.

(** Every id is applied at most once, and exactly the offered ids are applied. *)
Lemma ledger_of_ids_NoDup ds : NoDup (l_ids (ledger_of ds)).
Proof.
  induction ds as [|d ds IH] using rev_ind; [constructor|]. rewrite ledger_of_snoc.
  destruct (decide (d_EventID d = "")); [by rewrite l_ids_insert_anon|].
  rewrite l_ids_insert by done. unfold l_dup. case_bool_decide; [done|].
  apply NoDup_app. split_and!; [done|set_solver|apply NoDup_singleton].
Qed.

Lemma elem_of_ledger_of_ids ds id :
  id ∈ l_ids (ledger_of ds) ↔ id ≠ "" ∧ id ∈ d_EventID <$> ds.
Proof.
  induction ds as [|d ds IH] using rev_ind; [set_solver|].
  rewrite ledger_of_snoc, fmap_app.
  destruct (decide (d_EventID d = "")) as [He|];
    [rewrite l_ids_insert_anon by done|rewrite l_ids_insert by done].
  - rewrite IH. set_solver.
  - unfold l_dup. case_bool_decide; set_solver.
Qed.

Lemma ledger_of_ids_Permutation ds ds' :
  ds ≡ₚ ds' → l_ids (ledger_of ds) ≡ₚ l_ids (ledger_of ds').
Proof.
  intros Hp. apply NoDup_Permutation; [apply ledger_of_ids_NoDup..|].
  intros id. by rewrite !elem_of_ledger_of_ids, Hp.
Qed.

(** How many insertions of the id [id] were answered [true, nil]. *)
Fixpoint applied_of (id : string) (cs : list Call) (rs : list Reply) : nat :=
  match cs, rs with
  | CallInsert d :: cs, ReplyInsert (true, None) :: rs =>
      (if bool_decide (d_EventID d = id) then 1 else 0) + applied_of id cs rs
  | _ :: cs, _ :: rs => applied_of id cs rs
  | _, _ => 0
  end%nat.

Lemma applied_of_ledger id cs L :
  id ≠ "" →
  applied_of id cs (run_calls ledger_step cs L).1 =
    (if bool_decide (id ∈ l_ids L) then 0
     else if bool_decide (id ∈ d_EventID <$> inserts cs) then 1 else 0)%nat.
Proof.
  intros Hid. revert L. induction cs as [|c cs IH]; intros L; [by case_bool_decide|].
  simpl. destruct c as [d|o|]; simpl.
  2-3: specialize (IH L); by destruct (run_calls _ _ _).
  specialize (IH (l_insert d L)). destruct (run_calls _ _ _) as [rs L']. simpl in *.
  destruct (decide (d_EventID d = "")) as [He|He].
  { rewrite (l_ids_insert_anon d L He) in IH.
    assert (l_dup d L = false) as ->
      by (apply bool_decide_eq_false_2; rewrite He; apply not_in_l_ids_empty).
    simpl. rewrite IH, (bool_decide_eq_false_2 (d_EventID d = id)) by congruence. simpl.
    repeat case_bool_decide; set_solver. }
  rewrite (l_ids_insert d L He) in IH. unfold l_dup in *.
  case_bool_decide; simpl; rewrite IH; repeat case_bool_decide; set_solver.
Qed.

(** Values that are neither negative nor NaN stay so when they are added up. *)
Lemma sum_nneg vs acc : nneg acc → Forall (λ v, nneg v) vs → nneg (foldl fadd acc vs).
Proof.
  intros Hacc Hvs. revert acc Hacc. induction Hvs as [|v vs Hv _ IH]; intros; simpl; [done|].
  apply IH. by apply fadd_nneg.
Qed.

Lemma l_total_nneg L obu t :
  Forall (λ d, nneg (d_Value d)) L → l_total L obu = Some t → nneg t.
Proof.
  intros HL. unfold l_total. intros Ht.
  assert (t = foldl fadd fzero (l_values L obu)) as ->.
  { destruct (l_values L obu); [done|congruence]. }
  apply sum_nneg; [done|].
  apply Forall_fmap, Forall_forall. intros d [_ Hd]%list_elem_of_filter.
  rewrite Forall_forall in HL. by apply HL.
Qed.

Lemma l_total_valid L obu t :
  Forall (λ d, fvalid (d_Value d) = true) L → l_total L obu = Some t → fvalid t = true.
Proof.
  intros HL Ht.
  assert (t = foldl fadd fzero (l_values L obu)) as ->.
  { unfold l_total in Ht. destruct (l_values L obu); [done|congruence]. }
  apply (foldl_inv (λ v, fvalid v = true)); [done|]. intros v x Hx Hv.
  apply fadd_valid; [done|]. rewrite Forall_forall in HL.
  apply list_elem_of_fmap in Hx as (d & -> & [_ Hd]%list_elem_of_filter). by apply HL.
Qed.

Lemma store_run_ledger cs :
  (run_calls call_step cs NewMemoryStore).1 = (run_calls ledger_step cs []).1 ∧
  store_refines (run_calls call_step cs NewMemoryStore).2 (ledger_of (inserts cs)).
Proof.
  destruct (run_calls_refines cs _ _ refines_new) as [E Hr].
  by rewrite run_calls_ledger in Hr.
Qed.

(** ** Properties *)

(** C8. The store implements its interface: whatever sequence of method calls
    concurrent clients make the mutex execute, every reply of [MemoryStore]
    (applied flag, total, not-found error, digest) is the reply of the ledger of
    applied events, and the final maps are the ones of that ledger. *)
Theorem memory_store_refines_ledger (cs : list Call) :
  let '(replies, m) := run_calls call_step cs NewMemoryStore in
  let '(replies', L) := run_calls ledger_step cs [] in
  replies = replies' ∧
  (∀ obu, MemoryStore.data m !! obu = l_total L obu) ∧
  MemoryStore.processed m = list_to_set (l_ids L) ∧
  MemoryStore.reconcile m = recon_of (l_ids L).
Proof.
  destruct (run_calls_refines cs _ _ refines_new) as [E Hr].
  destruct (run_calls call_step cs _), (run_calls ledger_step cs _). by simpl in *.
Qed.

(** C13. Duplicate suppression is exact: among all insertions of one non-empty
    event id, in any interleaving with any other calls, exactly one is answered
    [true] when the id is offered at all, and none otherwise. *)
Theorem insert_exactly_once (id : string) (cs : list Call) :
  id ≠ "" →
  applied_of id cs (run_calls call_step cs NewMemoryStore).1 =
    (if bool_decide (id ∈ d_EventID <$> inserts cs) then 1 else 0)%nat.
Proof.
  intros Hid. destruct (store_run_ledger cs) as [-> _].
  rewrite applied_of_ledger by done. by rewrite bool_decide_eq_false_2 by set_solver.
Qed.

Definition test_event (id : string) (obu : Z) (v : Z) : Distance :=
  mkDistance id 1 (f_of_Z v) obu.

Lemma insert_exactly_once_witness :
  "same-event" ≠ "" ∧
  applied_of "same-event"
    (replicate 5 (CallInsert (test_event "same-event" 9 5)) ++ [CallGet 9])
    (run_calls call_step (replicate 5 (CallInsert (test_event "same-event" 9 5)) ++ [CallGet 9])
       NewMemoryStore).1 = 1%nat.
Proof. split; [done|]. by rewrite (insert_exactly_once "same-event"). Defined.

(** Reordering the calls of concurrent clients in any way leaves the same
    set of processed ids and the same reconciliation digest, and it leaves the
    same set of vehicles with a total. *)
Theorem store_order_independent (cs cs' : list Call) :
  cs ≡ₚ cs' →
  let m := (run_calls call_step cs NewMemoryStore).2 in
  let m' := (run_calls call_step cs' NewMemoryStore).2 in
  MemoryStore.processed m = MemoryStore.processed m' ∧
  MemoryStore.reconcile m = MemoryStore.reconcile m'.
Proof.
  intros Hp. simpl.
  destruct (store_run_ledger cs) as (_ & _ & -> & ->).
  destruct (store_run_ledger cs') as (_ & _ & -> & ->).
  assert (l_ids (ledger_of (inserts cs)) ≡ₚ l_ids (ledger_of (inserts cs'))) as Hids.
  { apply ledger_of_ids_Permutation. unfold inserts. by rewrite Hp. }
  split; [by rewrite Hids|]. by apply recon_of_Permutation.
Qed.

Lemma store_order_independent_witness :
  let a := CallInsert (test_event "a" 1 3) in
  let b := CallInsert (test_event "b" 1 4) in
  [a; b] ≡ₚ [b; a] ∧
  MemoryStore.reconcile (run_calls call_step [a; b] NewMemoryStore).2 =
  MemoryStore.reconcile (run_calls call_step [b; a] NewMemoryStore).2.
Proof.
  intros a b. assert ([a; b] ≡ₚ [b; a]) as Hp by constructor. split; [done|].
  apply (store_order_independent [a; b] [b; a] Hp).
Defined.

(** Totals are always numbers: if no inserted value is negative or NaN then
    no stored total is negative or NaN, after any sequence of calls. *)
Theorem store_totals_nneg (cs : list Call) (obu : Z) (t : float64) :
  Forall (λ d, nneg (d_Value d)) (inserts cs) →
  MemoryStore.data (run_calls call_step cs NewMemoryStore).2 !! obu = Some t →
  nneg t.
Proof.
  intros Hn. destruct (store_run_ledger cs) as (_ & -> & _).
  apply l_total_nneg, Forall_forall. intros d Hd%ledger_of_subset.
  rewrite Forall_forall in Hn. by apply Hn.
Qed.

Lemma store_totals_nneg_witness :
  let cs := [CallInsert (test_event "a" 7 3); CallInsert (test_event "b" 7 4)] in
  Forall (λ d, nneg (d_Value d)) (inserts cs) ∧
  MemoryStore.data (run_calls call_step cs NewMemoryStore).2 !! 7 = Some (f_of_Z 7) ∧
  nneg (f_of_Z 7).
Proof.
  intros cs. assert (Forall (λ d, nneg (d_Value d)) (inserts cs)) by by repeat constructor.
  assert (MemoryStore.data (run_calls call_step cs NewMemoryStore).2 !! 7 = Some (f_of_Z 7))
    as E by by vm_compute.
  split_and!; [done|done|]. by apply (store_totals_nneg cs 7).
Defined.
