(* ===== verification/Service.v ===== *)
(** * Service: the aggregator's business logic and middleware
      (src/aggregator/service.go, src/aggregator/middleware.go)

    The [Aggregator] interface is a record of operations on a process;
    [InvoiceAggregator] implements it over any [Storer], and the metrics and log
    middlewares wrap any [Aggregator].  [service] is the stack [main] builds.
    The correctness of the stack is proved against [StorerSpec] only. *)

From S2P Require Import Prelude Float64 GoLib Types Store.

Local Open Scope Z_scope.

(** ** The interface *)

Record Aggregator (W : Type) := mkAggregator {
  AggregateDistance : Distance → M W (bool * option error);
  CalculateInvoice : Z → M W (option Invoice * option error);
  AggReconciliation : M W EventReconciliation
}.
Arguments mkAggregator {W}.
Arguments AggregateDistance {W}. Arguments CalculateInvoice {W}.
Arguments AggReconciliation {W}.

(** ** InvoiceAggregator *)

(** [const basePrice = 3.15], converted to float64 where it is used. *)
Definition basePrice : float64 := f_of_ratio 315 100.

Definition invalid_distance (dist : Distance) : bool :=
  bool_decide (d_EventID dist = "") || (d_ProducedAtUnixNano dist <=? 0)
  || (d_OBUID dist <=? 0) || fltb (d_Value dist) fzero
  || IsNaN (d_Value dist) || IsInf (d_Value dist).

Definition err_invalid : error :=
  EWrap "" (ESentinel ErrInvalidDistance)
    ": event_id, source timestamp, OBU ID, and non-negative finite distance are required".

Definition NewInvoiceAggregator {S : Type} `{Storer S} : Aggregator (Proc S) := {|
  AggregateDistance dist :=
    if invalid_distance dist then mret (false, Some err_invalid)
    else lift (Insert dist);
  CalculateInvoice id :=
    '(dist, err) ← lift (Get id);
    match err with
    | Some e => mret (None, Some e)
    | None => mret (Some {| inv_OBUID := id; inv_TotalDist := dist;
                            inv_Amount := fmul dist basePrice |}, None)
    end;
  AggReconciliation := lift Reconciliation
|}.

(** ** Middleware *)

Definition m_operationDuration : string := "tollify_aggregation_operation_duration_seconds".
Definition m_pipelineDuration : string := "tollify_pipeline_event_duration_seconds".
Definition m_eventsApplied : string := "tollify_aggregator_events_applied_total".
Definition m_duplicateEvents : string := "tollify_aggregator_duplicate_events_total".
Definition m_storeErrors : string := "tollify_aggregator_store_errors_total".

Section Middleware.
Context {S : Type}.

(** The end-to-end sample of an applied event: only for a positive source
    time that is not in the future. *)
Definition observe_pipeline (produced : Z) : M (Proc S) () :=
  if 0 <? produced then
    ns ← SinceUnixNano produced;
    let elapsed := Seconds ns in
    if fleb fzero elapsed then emit (Observe m_pipelineDuration [] elapsed) else mret ()
  else mret ().

(** The deferred function of [MetricsMiddleWare.AggregateDistance]. *)
Definition metrics_deferred (start : Instant) (d : Distance) (applied : bool)
    (err : option error) : M (Proc S) () :=
  took ← Since start;
  _ ← emit (Observe m_operationDuration [] (Seconds took));
  match err with
  | Some _ => if negb (errors_Is err ErrInvalidDistance)
              then emit (Inc m_storeErrors []) else mret ()
  | None => if applied
            then _ ← emit (Inc m_eventsApplied []); observe_pipeline (d_ProducedAtUnixNano d)
            else emit (Inc m_duplicateEvents [])
  end.

Definition NewMetricMiddleware (next : Aggregator (Proc S)) : Aggregator (Proc S) := {|
  AggregateDistance d :=
    start ← Now;
    r ← AggregateDistance next d;
    _ ← metrics_deferred start d r.1 r.2;
    mret r;
  CalculateInvoice id := CalculateInvoice next id;
  AggReconciliation := AggReconciliation next
|}.

(** The log lines are not modelled; the clock is read as the code reads it. *)
Definition NewLogMiddleware (next : Aggregator (Proc S)) : Aggregator (Proc S) := {|
  AggregateDistance d :=
    start ← Now; r ← AggregateDistance next d; _ ← Since start; mret r;
  CalculateInvoice id :=
    start ← Now; r ← CalculateInvoice next id; _ ← Since start; mret r;
  AggReconciliation := AggReconciliation next
|}.
End Middleware.

(** The service stack of the aggregator's [main]. *)
Definition service {S : Type} `{Storer S} : Aggregator (Proc S) :=
  NewLogMiddleware (NewMetricMiddleware NewInvoiceAggregator).

(** ** What one call does *)

Lemma invalid_distance_spec d :
  invalid_distance d = false ↔
  d_EventID d ≠ "" ∧ 0 < d_ProducedAtUnixNano d ∧ 0 < d_OBUID d ∧
  nneg (d_Value d) ∧ is_finite (d_Value d).
Proof.
  unfold invalid_distance, is_finite. split.
  - intros Hi; b2p. split_and!; try done.
    all: by destruct (d_Value d) as [|[]| |[]].
  - intros (He & Hp & Ho & Hv & Hf). rewrite bool_decide_eq_false_2 by done.
    rewrite (proj2 (Z.leb_gt _ _) Hp), (proj2 (Z.leb_gt _ _) Ho). simpl.
    by destruct (d_Value d) as [|[]| |[]].
Qed.

Section Stack.
Context {S : Type}.

Lemma metrics_deferred_heap start d a e :
  heap_pure (metrics_deferred (S:=S) start d a e).
Proof.
  unfold metrics_deferred, observe_pipeline.
  repeat (apply heap_pure_bind; [auto with toll|intros]).
  destruct e; [auto with toll|]. apply heap_pure_if; [|auto with toll].
  apply heap_pure_bind; [auto with toll|intros]. apply heap_pure_if; auto with toll.
Qed.

(** The middlewares return what they wrap and leave the heap to it. *)
Lemma metrics_mw_transparent (next : Aggregator (Proc S)) d p :
  let p1 := exec Now p in
  run (AggregateDistance (NewMetricMiddleware next) d) p = run (AggregateDistance next d) p1 ∧
  heap (exec (AggregateDistance (NewMetricMiddleware next) d) p) =
    heap (exec (AggregateDistance next d) p1).
Proof.
  simpl. simpl_M. destruct (AggregateDistance next d _) as [[a e] p2]. simpl.
  by rewrite metrics_deferred_heap.
Qed.

Lemma log_mw_transparent (next : Aggregator (Proc S)) d p :
  let p1 := exec Now p in
  run (AggregateDistance (NewLogMiddleware next) d) p = run (AggregateDistance next d) p1 ∧
  heap (exec (AggregateDistance (NewLogMiddleware next) d) p) =
    heap (exec (AggregateDistance next d) p1).
Proof. simpl. by simpl_M. Qed.
End Stack.

(** The counter a call of the metrics middleware increments, if any. *)
Definition outcome_counter (r : bool * option error) : option string :=
  match r.2 with
  | Some e => if errors_Is (Some e) ErrInvalidDistance then None else Some m_storeErrors
  | None => Some (if r.1 then m_eventsApplied else m_duplicateEvents)
  end.

Section Counters.
Context {S : Type}.

Lemma observe_pipeline_bumps name ns : bumps (S:=S) name [] (observe_pipeline ns) 0.
Proof.
  unfold observe_pipeline. case_match; [|auto with toll].
  eapply bumps_bind; [apply bumps_SinceUnixNano|intros t|done].
  case_match; [|auto with toll]. apply (bumps_emit name [] (Observe _ _ _)).
Qed.

Lemma metrics_deferred_bumps name start d a e :
  bumps (S:=S) name [] (metrics_deferred start d a e)
    (if bool_decide (outcome_counter (a, e) = Some name) then 1 else 0).
Proof.
  unfold metrics_deferred. eapply bumps_bind; [apply bumps_Since|intros t|done].
  eapply bumps_bind; [apply (bumps_emit name [] (Observe _ _ _))|intros _|done].
  assert (∀ n, is_inc name [] (Inc n []) = bool_decide (Some n = Some name)) as Hinc.
  { intros n. unfold is_inc. apply bool_decide_ext. naive_solver. }
  unfold outcome_counter. destruct e as [e|]; simpl.
  - destruct (error_is e _); simpl.
    { apply bumps_ret. }
    rewrite <- Hinc. apply bumps_emit.
  - destruct a; rewrite <- Hinc; [|apply bumps_emit].
    eapply bumps_bind; [apply bumps_emit|intros; apply observe_pipeline_bumps|lia].
Qed.

Lemma log_mw_counter (next : Aggregator (Proc S)) name d p :
  counter name [] (exec (AggregateDistance (NewLogMiddleware next) d) p) =
  counter name [] (exec (AggregateDistance next d) (exec Now p)).
Proof.
  unfold exec. cbn [AggregateDistance NewLogMiddleware]. rewrite !M_bind_eq.
  unfold mret, M_ret. cbn [fst snd]. rewrite (bumps_Since name [] _ _). lia.
Qed.

Lemma metrics_mw_counter (next : Aggregator (Proc S)) name d p :
  counter name [] (exec (AggregateDistance (NewMetricMiddleware next) d) p) =
  (counter name [] (exec (AggregateDistance next d) (exec Now p)) +
   if bool_decide (outcome_counter (run (AggregateDistance next d) (exec Now p)) = Some name)
   then 1 else 0)%nat.
Proof.
  unfold exec, run. cbn [AggregateDistance NewMetricMiddleware]. rewrite !M_bind_eq.
  unfold mret, M_ret. cbn [fst snd]. rewrite (metrics_deferred_bumps name _ _ _ _ _).
  by rewrite <- surjective_pairing.
Qed.
End Counters.

Section Service.
Context {S : Type} `{StorerSpec S}.

(** The reply to an event when the ledger is [L], and the next ledger. *)
Definition agg_reply (d : Distance) (L : Ledger) : bool * option error :=
  if invalid_distance d then (false, Some err_invalid) else (negb (l_dup d L), None).
Definition agg_ledger (d : Distance) (L : Ledger) : Ledger :=
  if invalid_distance d then L else l_insert d L.

Lemma invoice_aggregator_step d p L :
  refines (heap p) L →
  run (AggregateDistance NewInvoiceAggregator d) p = agg_reply d L ∧
  refines (heap (exec (AggregateDistance NewInvoiceAggregator d) p)) (agg_ledger d L).
Proof.
  intros Hp. unfold agg_reply, agg_ledger, run, exec. simpl.
  destruct (invalid_distance d); [done|]. unfold lift.
  destruct (Insert_refines d _ L Hp) as [E Hr].
  destruct (Insert d (heap p)). by simpl in *.
Qed.

(** One call on the whole stack. *)
Lemma service_step d p L :
  refines (heap p) L →
  run (AggregateDistance service d) p = agg_reply d L ∧
  refines (heap (exec (AggregateDistance service d) p)) (agg_ledger d L).
Proof.
  intros Hp. unfold service.
  destruct (log_mw_transparent (NewMetricMiddleware NewInvoiceAggregator) d p) as [-> ->].
  destruct (metrics_mw_transparent NewInvoiceAggregator d (exec Now p)) as [-> ->].
  by apply invoice_aggregator_step.
Qed.

Lemma invoice_aggregator_bumps name d :
  bumps (S:=S) name [] (AggregateDistance NewInvoiceAggregator d) 0.
Proof. simpl. case_match; auto with toll. Qed.

Lemma service_counter name d p :
  counter name [] (exec (AggregateDistance service d) p) =
    (counter name [] p +
     if bool_decide (outcome_counter (run (AggregateDistance service d) p) = Some name)
     then 1 else 0)%nat.
Proof.
  unfold service.
  rewrite (proj1 (log_mw_transparent (NewMetricMiddleware NewInvoiceAggregator) d p)).
  rewrite log_mw_counter, metrics_mw_counter.
  rewrite (proj1 (metrics_mw_transparent NewInvoiceAggregator d (exec Now p))).
  unfold exec at 1. rewrite (invoice_aggregator_bumps name d).
  unfold exec, counter. simpl. lia.
Qed.

(** A sequence of aggregation calls. *)
Fixpoint serve (ds : list Distance) : M (Proc S) (list (bool * option error)) :=
  match ds with
  | [] => mret []
  | d :: ds => r ← AggregateDistance service d; rs ← serve ds; mret (r :: rs)
  end.

Fixpoint agg_replies (ds : list Distance) (L : Ledger) : list (bool * option error) :=
  match ds with
  | [] => []
  | d :: ds => agg_reply d L :: agg_replies ds (agg_ledger d L)
  end.

Definition agg_ledgers (ds : list Distance) (L : Ledger) : Ledger :=
  foldl (λ L d, agg_ledger d L) L ds.

Definition count_outcomes (name : string) (rs : list (bool * option error)) : nat :=
  length (filter (λ r, outcome_counter r = Some name) rs).

Lemma serve_spec ds p L :
  refines (heap p) L →
  run (serve ds) p = agg_replies ds L ∧
  refines (heap (exec (serve ds) p)) (agg_ledgers ds L) ∧
  ∀ name, counter name [] (exec (serve ds) p) =
    (counter name [] p + count_outcomes name (agg_replies ds L))%nat.
Proof.
  revert p L. induction ds as [|d ds IH]; intros p L Hp.
  { split_and!; [done|done|]. intros name. unfold exec, count_outcomes. simpl. lia. }
  destruct (service_step d p L Hp) as [E Hp'].
  pose proof (service_counter) as Hc.
  destruct (IH _ _ Hp') as (E1 & Hp'' & Hc').
  cbn [serve]. unfold run, exec in *. rewrite !M_bind_eq.
  unfold mret, M_ret. cbn [fst snd agg_replies]. rewrite E, E1.
  split_and!; [done|done|]. intros name. rewrite Hc', Hc. unfold run. rewrite E.
  unfold count_outcomes. rewrite filter_cons.
  destruct (decide (outcome_counter (agg_reply d L) = Some name));
    [rewrite bool_decide_eq_true_2 by done|rewrite bool_decide_eq_false_2 by done];
    simpl; lia.
Qed.

Lemma agg_ledgers_app ds ds' L : agg_ledgers (ds ++ ds') L = agg_ledgers ds' (agg_ledgers ds L).
Proof. apply foldl_app. Qed.

Lemma agg_ledgers_valid ds L :
  Forall (λ d, invalid_distance d = false) L →
  Forall (λ d, invalid_distance d = false) (agg_ledgers ds L).
Proof.
  intros HL. apply (foldl_inv (Forall (λ d, invalid_distance d = false))); [done|].
  intros L' d _ HL'. unfold agg_ledger, l_insert. destruct (invalid_distance d) eqn:E; [done|].
  case_match; [done|]. apply Forall_app. by repeat constructor.
Qed.

(** Every valid event is in the ledger after it was offered. *)
Lemma agg_ledger_ids d L :
  l_ids (agg_ledger d L) =
    if invalid_distance d || l_dup d L then l_ids L else l_ids L ++ [d_EventID d].
Proof.
  unfold agg_ledger. destruct (invalid_distance d) eqn:E; [done|].
  apply invalid_distance_spec in E as [E _]. by rewrite l_ids_insert.
Qed.

(** Events whose ids are all known change nothing. *)
Lemma agg_known ds L :
  Forall (λ d, invalid_distance d = true ∨ d_EventID d ∈ l_ids L) ds →
  agg_ledgers ds L = L ∧
  agg_replies ds L =
    (λ d, (false, if invalid_distance d then Some err_invalid else None)) <$> ds.
Proof.
  induction 1 as [|d ds Hd _ IH]; [done|]. unfold agg_ledgers in *. simpl.
  assert (agg_ledger d L = L ∧ agg_reply d L =
    (false, if invalid_distance d then Some err_invalid else None)) as [E ->].
  { unfold agg_ledger, agg_reply, l_insert, l_dup.
    destruct (invalid_distance d); [done|]. destruct Hd as [|Hd]; [done|].
    by rewrite bool_decide_eq_true_2. }
  rewrite E. by destruct IH as [-> ->].
Qed.

Lemma agg_ledgers_incl ds L : l_ids L ⊆ l_ids (agg_ledgers ds L).
Proof.
  revert L. induction ds as [|d ds IH]; intros L; [done|].
  change (agg_ledgers (d :: ds) L) with (agg_ledgers ds (agg_ledger d L)).
  rewrite <- IH, agg_ledger_ids. case_match; set_solver.
Qed.

Lemma agg_ledgers_offered ds L :
  Forall (λ d, invalid_distance d = true ∨ d_EventID d ∈ l_ids (agg_ledgers ds L)) ds.
Proof.
  revert L. induction ds as [|d ds IH]; intros L; [done|].
  change (agg_ledgers (d :: ds) L) with (agg_ledgers ds (agg_ledger d L)).
  constructor; [|apply IH]. destruct (invalid_distance d) eqn:E; [by left|right].
  apply agg_ledgers_incl. rewrite agg_ledger_ids, E. simpl.
  unfold l_dup. case_bool_decide; set_solver.
Qed.

(** ** Invoices *)

Definition invoice_of (id : Z) (t : float64) : Invoice :=
  {| inv_OBUID := id; inv_TotalDist := t; inv_Amount := fmul t basePrice |}.

Lemma invoice_of_valid L id t :
  Forall (λ d, fvalid (d_Value d) = true) L → l_total L id = Some t →
  fvalid t = true ∧ fvalid (fmul t basePrice) = true.
Proof.
  intros HL Ht. assert (fvalid t = true) by (by apply (l_total_valid L id)).
  split; [done|]. apply fmul_valid; [done|by vm_compute].
Qed.

Lemma service_invoice id p L :
  refines (heap p) L →
  run (CalculateInvoice service id) p =
    match l_total L id with
    | Some t => (Some (invoice_of id t), None)
    | None => (None, Some (not_found id))
    end ∧
  refines (heap (exec (CalculateInvoice service id) p)) L ∧
  metrics (exec (CalculateInvoice service id) p) = metrics p.
Proof.
  intros Hp. unfold service, run, exec. simpl. unfold lift. rewrite !M_bind_eq. simpl.
  destruct (Get_refines id _ L Hp) as [E Hr].
  destruct (Get id (heap p)) as [[dist err] h]. simpl in *.
  destruct (l_total L id); by simplify_eq/=.
Qed.

Lemma service_reconciliation p L :
  refines (heap p) L →
  run (AggReconciliation service) p = l_digest L ∧
  refines (heap (exec (AggReconciliation service) p)) L.
Proof.
  intros Hp. unfold service, run, exec. simpl. unfold lift.
  destruct (Reconciliation_refines _ L Hp) as [E Hr].
  by destruct (Reconciliation (heap p)).
Qed.
End Service.

(** A fresh aggregator process, at any clock. *)
Definition new_process (clk : nat → Instant) : Proc MemoryStore :=
  mkProc NewMemoryStore [] clk 0.

Definition test_clock (n : nat) : Instant := mkInstant (1000 + Z.of_nat n) (Z.of_nat n).

Definition test_distance (id : string) (obu : Z) (v : Z) : Distance :=
  mkDistance id 7 (f_of_Z v) obu.

(** ** Properties *)

(** C7. One aggregation call on the service stack of [main], on every branch:
    an invalid event is refused with an error that is [ErrInvalidDistance] and
    changes nothing in the store; a duplicate is answered [false] and changes
    nothing; a new valid event is answered [true] and is appended to the ledger
    of applied events.  In each case exactly the counter of that outcome grows. *)
Theorem aggregate_distance_correct {S : Type} `{StorerSpec S}
    (d : Distance) (p : Proc S) (L : Ledger) :
  refines (heap p) L →
  let r := run (AggregateDistance service d) p in
  let p' := exec (AggregateDistance service d) p in
  (invalid_distance d = true →
     r.1 = false ∧ errors_Is r.2 ErrInvalidDistance = true ∧ refines (heap p') L ∧
     ∀ name, counter name [] p' = counter name [] p) ∧
  (invalid_distance d = false → d_EventID d ∈ l_ids L →
     r = (false, None) ∧ refines (heap p') L ∧
     ∀ name, counter name [] p' =
       (counter name [] p + if bool_decide (m_duplicateEvents = name) then 1 else 0)%nat) ∧
  (invalid_distance d = false → d_EventID d ∉ l_ids L →
     r = (true, None) ∧ refines (heap p') (L ++ [d]) ∧
     ∀ name, counter name [] p' =
       (counter name [] p + if bool_decide (m_eventsApplied = name) then 1 else 0)%nat).
Proof.
  intros Hp r p'. destruct (service_step d p L Hp) as [E Hr]. fold r in E. fold p' in Hr.
  assert (∀ name, counter name [] p' = (counter name [] p +
    if bool_decide (outcome_counter r = Some name) then 1 else 0)%nat) as Hc
    by (intros; apply service_counter).
  assert (∀ a b : string, bool_decide (Some a = Some b) = bool_decide (a = b)) as Hs
    by (intros; apply bool_decide_ext; naive_solver).
  rewrite E in Hc. rewrite E. unfold agg_reply, agg_ledger, l_insert, l_dup in *.
  split_and!; intros Hv; rewrite Hv in *.
  - split_and!; [done|done|done|]. intros name. rewrite Hc. simpl. lia.
  - intros Hin. rewrite bool_decide_eq_true_2 in * by done.
    split_and!; [done|done|]. intros name. rewrite Hc, <- Hs. done.
  - intros Hin. rewrite bool_decide_eq_false_2 in * by done.
    split_and!; [done|done|]. intros name. rewrite Hc, <- Hs. done.
Qed.

Lemma aggregate_distance_correct_witness :
  refines (S:=MemoryStore) (heap (new_process test_clock)) [] ∧
  run (AggregateDistance service (test_distance "e" 3 5)) (new_process test_clock) = (true, None).
Proof.
  split; [apply refines_new|].
  destruct (aggregate_distance_correct (test_distance "e" 3 5) (new_process test_clock) []
    refines_new) as (_ & _ & H). apply H; [by vm_compute|set_solver].
Defined.

(** C12. An invoice is computed from the ledger alone: the total is the sum of
    the applied distances of that vehicle in the order they were applied, the
    amount is the total times the base price, an unknown vehicle is an error,
    and reading an invoice changes neither the store nor any metric. *)
Theorem calculate_invoice_correct {S : Type} `{StorerSpec S}
    (id : Z) (p : Proc S) (L : Ledger) :
  refines (heap p) L →
  run (CalculateInvoice service id) p =
    (if bool_decide (l_values L id = []) then (None, Some (not_found id))
     else let t := foldl fadd fzero (l_values L id) in
          (Some {| inv_OBUID := id; inv_TotalDist := t; inv_Amount := fmul t basePrice |}, None)) ∧
  refines (heap (exec (CalculateInvoice service id) p)) L ∧
  metrics (exec (CalculateInvoice service id) p) = metrics p.
Proof.
  intros Hp. destruct (service_invoice id p L Hp) as (-> & ? & ?). split_and!; [|done|done].
  unfold l_total. by destruct (l_values L id).
Qed.

Lemma calculate_invoice_correct_witness :
  let p := exec (serve [test_distance "e1" 1 0; test_distance "e2" 1 5]) (new_process test_clock) in
  refines (heap p) [test_distance "e1" 1 0; test_distance "e2" 1 5] ∧
  run (CalculateInvoice service 1) p =
    (Some (mkInvoice 1 (f_of_Z 5) (f_of_ratio 1575 100)), None).
Proof.
  intros p.
  assert (refines (heap p) [test_distance "e1" 1 0; test_distance "e2" 1 5]) as Hp.
  { destruct (serve_spec [test_distance "e1" 1 0; test_distance "e2" 1 5]
      (new_process test_clock) [] refines_new) as (_ & Hp & _).
    assert (agg_ledgers [test_distance "e1" 1 0; test_distance "e2" 1 5] []
      = [test_distance "e1" 1 0; test_distance "e2" 1 5]) as E by by vm_compute.
    by rewrite E in Hp. }
  split; [done|]. rewrite (proj1 (calculate_invoice_correct 1 p _ Hp)). by vm_compute.
Defined.

(** C20. Replaying is harmless: once any events have been served, serving any of
    them again, in any order and any number of times (a restarted or rewound
    consumer), applies nothing, and afterwards every invoice and the
    reconciliation digest are what they were. *)
Theorem replay_harmless {S : Type} `{StorerSpec S}
    (ds ds' : list Distance) (p : Proc S) (L : Ledger) :
  refines (heap p) L → ds' ⊆ ds →
  let p1 := exec (serve ds) p in
  let p2 := exec (serve ds') p1 in
  Forall (λ r, r.1 = false) (run (serve ds') p1) ∧
  (∀ id, run (CalculateInvoice service id) p2 = run (CalculateInvoice service id) p1) ∧
  run (AggReconciliation service) p2 = run (AggReconciliation service) p1 ∧
  counter m_eventsApplied [] p2 = counter m_eventsApplied [] p1.
Proof.
  intros Hp Hsub p1 p2.
  destruct (serve_spec ds p L Hp) as (_ & Hp1 & _).
  destruct (serve_spec ds' p1 _ Hp1) as (-> & Hp2 & Hc).
  destruct (agg_known ds' (agg_ledgers ds L)) as [HL Hr].
  { pose proof (agg_ledgers_offered ds L) as Ho. rewrite Forall_forall in Ho.
    apply Forall_forall. intros d Hd. by apply Ho, Hsub. }
  rewrite HL in Hp2. fold p1 in Hp1. fold p2 in Hp2, Hc. rewrite Hr in *. split_and!.
  - apply Forall_fmap, Forall_true. done.
  - intros id. by rewrite (proj1 (service_invoice id _ _ Hp2)), (proj1 (service_invoice id _ _ Hp1)).
  - by rewrite (proj1 (service_reconciliation _ _ Hp2)), (proj1 (service_reconciliation _ _ Hp1)).
  - rewrite Hc. assert (∀ ds, count_outcomes m_eventsApplied ((λ d : Distance,
      (false, if invalid_distance d then Some err_invalid else None)) <$> ds) = 0%nat) as ->; [|lia].
    clear. induction ds as [|d ds IH]; [done|]. simpl. unfold count_outcomes in *.
    rewrite filter_cons. by destruct (invalid_distance d).
Qed.

Lemma replay_harmless_witness :
  let e := test_distance "replayed-after-restart" 11 8 in
  let p1 := exec (serve [e]) (new_process test_clock) in
  refines (S:=MemoryStore) (heap (new_process test_clock)) [] ∧ [e; e] ⊆ [e] ∧
  Forall (λ r, r.1 = false) (run (serve [e; e]) p1).
Proof.
  intros e p1. assert ([e; e] ⊆ [e]) by set_solver.
  split_and!; [apply refines_new|done|].
  apply (replay_harmless [e] [e; e] (new_process test_clock) [] refines_new). done.
Defined.

Lemma count_outcomes_app name rs rs' :
  count_outcomes name (rs ++ rs') = (count_outcomes name rs + count_outcomes name rs')%nat.
Proof. unfold count_outcomes. by rewrite filter_app, length_app. Qed.

(** The applied replies are the growth of the ledger, and every reply is of one kind. *)
Lemma agg_replies_counts ds L :
  length (agg_ledgers ds L) = (length L + count_outcomes m_eventsApplied (agg_replies ds L))%nat ∧
  (count_outcomes m_eventsApplied (agg_replies ds L) +
   count_outcomes m_duplicateEvents (agg_replies ds L))%nat =
    length (filter (λ d, invalid_distance d = false) ds) ∧
  count_outcomes m_storeErrors (agg_replies ds L) = 0%nat.
Proof.
  revert L. induction ds as [|d ds IH]; intros L.
  { unfold count_outcomes. simpl. lia. }
  change (agg_ledgers (d :: ds) L) with (agg_ledgers ds (agg_ledger d L)).
  destruct (IH (agg_ledger d L)) as (H1 & H2 & H3). cbn [agg_replies].
  rewrite (filter_cons _ d ds).
  change (agg_reply d L :: agg_replies ds (agg_ledger d L))
    with ([agg_reply d L] ++ agg_replies ds (agg_ledger d L)).
  rewrite !count_outcomes_app, H1, H3.
  unfold agg_ledger, agg_reply, l_insert in *. destruct (invalid_distance d); simpl; [done|].
  assert (∀ (b : bool) name, count_outcomes name [(b, None)] =
    if decide (Some (if b then m_eventsApplied else m_duplicateEvents) = Some name)
    then 1%nat else 0%nat) as Hone.
  { intros b name. unfold count_outcomes. rewrite filter_cons.
    unfold outcome_counter. cbn [fst snd]. by destruct (decide _). }
  rewrite <- H2, !Hone. destruct (l_dup d L); simpl; [lia|]. rewrite length_app. simpl. lia.
Qed.

(** The metrics are consistent with the store: after any sequence of
    aggregation calls on a fresh process, the applied counter is the length of
    the ledger, applied plus duplicate events are the valid calls, the store
    error counter is zero, and the reconciliation count is the applied counter. *)
Theorem service_accounting (clk : nat → Instant) (ds : list Distance) :
  let p := exec (serve ds) (new_process clk) in
  let applied := counter m_eventsApplied [] p in
  let duplicates := counter m_duplicateEvents [] p in
  refines (heap p) (agg_ledgers ds []) ∧
  applied = length (agg_ledgers ds []) ∧
  (applied + duplicates)%nat = length (filter (λ d, invalid_distance d = false) ds) ∧
  counter m_storeErrors [] p = 0%nat ∧
  Count (run (AggReconciliation service) p) = wrapU 64 (Z.of_nat applied).
Proof.
  intros p applied duplicates.
  destruct (serve_spec ds (new_process clk) [] refines_new) as (_ & Hp & Hc). fold p in Hp.
  destruct (agg_replies_counts ds []) as (H1 & H2 & H3). simpl in H1.
  assert (∀ name, counter name [] p = count_outcomes name (agg_replies ds [])) as Hn
    by (intros; apply Hc).
  subst applied duplicates. rewrite !Hn.
  split_and!; [done|done|done|done|].
  rewrite (proj1 (service_reconciliation _ _ Hp)). unfold l_digest.
  rewrite recon_of_Count, <- H1. do 2 f_equal.
  assert (∀ L, Forall (λ d, invalid_distance d = false) L → length (l_ids L) = length L) as Hl.
  { induction 1 as [|d L Hd _ IH]; [done|]. apply invalid_distance_spec in Hd as [Hd _].
    unfold l_ids in *. rewrite fmap_cons, filter_cons_True by done. simpl. by f_equal. }
  apply Hl, agg_ledgers_valid. constructor.
Qed.

(** C30. Every invoice the service ever returns is for the requested vehicle and
    has a total and an amount that are neither negative nor NaN. *)
Theorem invoice_nneg (clk : nat → Instant) (ds : list Distance) (id : Z) (inv : Invoice) :
  (run (CalculateInvoice service id) (exec (serve ds) (new_process clk))).1 = Some inv →
  inv_OBUID inv = id ∧ nneg (inv_TotalDist inv) ∧ nneg (inv_Amount inv).
Proof.
  destruct (serve_spec ds (new_process clk) [] refines_new) as (_ & Hp & _).
  rewrite (proj1 (service_invoice id _ _ Hp)).
  destruct (l_total (agg_ledgers ds []) id) as [t|] eqn:Et; [|done].
  intros [= <-]. simpl.
  assert (nneg t) as Ht.
  { apply (l_total_nneg (agg_ledgers ds []) id); [|done].
    eapply Forall_impl; [by apply agg_ledgers_valid|].
    intros d Hd. by apply invalid_distance_spec in Hd as (?&?&?&?&?). }
  split_and!; [done|done|]. by apply fmul_nneg.
Qed.

Lemma invoice_nneg_witness :
  let p := exec (serve [test_distance "e" 4 10]) (new_process test_clock) in
  (run (CalculateInvoice service 4) p).1 = Some (mkInvoice 4 (f_of_Z 10) (f_of_ratio 315 10)) ∧
  nneg (f_of_ratio 315 10).
Proof.
  intros p. assert ((run (CalculateInvoice service 4) p).1
    = Some (mkInvoice 4 (f_of_Z 10) (f_of_ratio 315 10))) as E by by vm_compute.
  split; [done|]. apply (invoice_nneg _ _ _ _ E).
Defined.
