(* ===== verification/Decimal.v ===== *)
(** * Decimal: numbers as text (the parts of strconv that encoding/json uses)

    A JSON number literal ([literal]), its scanner and its text; its value as an
    [int64] ([lit_int64]) and, correctly rounded, as a [float64] ([lit_float]);
    the literals encoding/json writes: integers, and floats by their shortest
    decimal that reads back ([float_lit]).  Scanning undoes printing
    ([scan_number_text]) and reading a printed number gives the number back
    ([lit_int64_int_lit], [lit_float_float_lit]). *)

From S2P Require Import Prelude Float64 GoLib.
From Stdlib Require Import Ascii.

Local Open Scope Z_scope.

Abbreviation bytes := (list ascii) (only parsing).

(** ** Literals *)

(** [-] int [. frac] [e exp]; the exponent is its sign and its digits. *)
Record literal := mkLit {
  lit_neg : bool;
  lit_int : bytes;
  lit_frac : option bytes;
  lit_exp : option (bool * bytes)
}.

Definition is_digit (c : ascii) : bool :=
  match digit_val c with Some _ => true | None => false end.

Fixpoint span (p : ascii → bool) (l : bytes) : bytes * bytes :=
  match l with
  | [] => ([], [])
  | c :: l' => if p c then let '(a, b) := span p l' in (c :: a, b) else ([], l)
  end.

(** The longest run of digits, which must not be empty. *)
Definition scan_digits (l : bytes) : option (bytes * bytes) :=
  match span is_digit l with
  | ([], _) => None
  | r => Some r
  end.

Definition scan_int (l : bytes) : option (bytes * bytes) :=
  match l with
  | c :: l' => if Ascii.eqb c "0" then Some ([c], l') else scan_digits l
  | [] => None
  end.

Definition scan_frac (l : bytes) : option (option bytes * bytes) :=
  match l with
  | c :: l' => if Ascii.eqb c "." then '(d, r) ← scan_digits l'; Some (Some d, r)
               else Some (None, l)
  | [] => Some (None, [])
  end.

Definition scan_exp_sign (l : bytes) : bool * bytes :=
  match l with
  | c :: l' => if Ascii.eqb c "-" then (true, l')
               else if Ascii.eqb c "+" then (false, l') else (false, l)
  | [] => (false, [])
  end.

Definition scan_exp (l : bytes) : option (option (bool * bytes) * bytes) :=
  match l with
  | c :: l' =>
      if Ascii.eqb c "e" || Ascii.eqb c "E" then
        let '(neg, l2) := scan_exp_sign l' in
        '(d, r) ← scan_digits l2; Some (Some (neg, d), r)
      else Some (None, l)
  | [] => Some (None, [])
  end.

Definition scan_sign (l : bytes) : bool * bytes :=
  match l with
  | c :: l' => if Ascii.eqb c "-" then (true, l') else (false, l)
  | [] => (false, [])
  end.

(** The scanner's number states: the longest number at the front of [l]. *)
Definition scan_number (l : bytes) : option (literal * bytes) :=
  let '(neg, l) := scan_sign l in
  '(int, l) ← scan_int l;
  '(frac, l) ← scan_frac l;
  '(exp, l) ← scan_exp l;
  Some (mkLit neg int frac exp, l).

Definition literal_text (t : literal) : bytes :=
  (if lit_neg t then ["-"%char] else []) ++ lit_int t
  ++ match lit_frac t with Some d => "."%char :: d | None => [] end
  ++ match lit_exp t with
     | Some (neg, d) => "e"%char :: (if neg : bool then "-"%char else "+"%char) :: d
     | None => []
     end.

(** ** Values *)

Definition digits_value (l : bytes) : N :=
  foldl (λ acc c, (acc * 10 + default 0 (digit_val c))%N) 0%N l.

(** The exponent stops growing once it is beyond every float. *)
Definition exp_value (l : bytes) : Z :=
  foldl (λ acc c, if acc <? 10000 then acc * 10 + Z.of_N (default 0%N (digit_val c)) else acc) 0 l.

(** [strconv.ParseInt(text, 10, 64)]: a fraction or an exponent is a syntax error. *)
Definition lit_int64 (t : literal) : option Z :=
  match lit_frac t, lit_exp t with
  | None, None =>
      let n := Z.of_N (digits_value (lit_int t)) in
      let z := if lit_neg t then - n else n in
      if bool_decide (in_i64 z) then Some z else None
  | _, _ => None
  end.

(** The float nearest to [n * 10 ^ e], ties to even; infinite beyond the range. *)
Definition dec_float (neg : bool) (n : N) (e : Z) : float64 :=
  match n with
  | N0 => S754_zero neg
  | Npos p =>
      if 0 <=? e then binary_round 53 1024 neg (Z.to_pos (Z.pos p * 10 ^ e)) 0
      else let '(q, e', l) := SFdiv_core_binary 53 1024 (Z.pos p) 0 (10 ^ (- e)) 0 in
           binary_round_aux 53 1024 neg q e' l
  end.

Definition lit_value (t : literal) : float64 :=
  let frac := default [] (lit_frac t) in
  let e := match lit_exp t with
           | Some (neg, d) => if neg : bool then - exp_value d else exp_value d
           | None => 0
           end in
  dec_float (lit_neg t) (digits_value (lit_int t ++ frac)) (e - Z.of_nat (length frac)).

(** [strconv.ParseFloat(text, 64)]: an infinite value is a range error. *)
Definition lit_float (t : literal) : option float64 :=
  let x := lit_value t in if is_finite x then Some x else None.

(** ** Printing *)

Definition dec (n : N) : bytes := String.list_ascii_of_string (pretty n).

Definition int_lit (z : Z) : literal :=
  mkLit (z <? 0) (dec (Z.to_N (Z.abs z))) None None.

(** [k] digits of [n], with leading zeros. *)
Fixpoint pad (k : nat) (n : N) : bytes :=
  match k with
  | O => []
  | S k => pad k (n / 10) ++ [pretty_N_char (n mod 10)]
  end.

(** The finite decimal expansion of [m * 2 ^ e]. *)
Definition exact_lit (s : bool) (m : positive) (e : Z) : literal :=
  if 0 <=? e then mkLit s (dec (Z.to_N (Z.pos m * 2 ^ e))) None None
  else let n := Z.to_N (Z.pos m * 5 ^ (- e)) in
       let b := (10 ^ Z.to_N (- e))%N in
       mkLit s (dec (n / b)) (Some (pad (Z.to_nat (- e)) (n mod b))) None.

Definition strip_zeros (l : bytes) : bytes :=
  reverse (span (λ c, bool_decide (c = "0"%char)) (reverse l)).2.

(** The digits [d] with the decimal point [point] places to the right of their
    start: formats [%f] and [%e] of package strconv, and the clean-up of a
    two-digit negative exponent by encoding/json, which [dec] does by itself. *)
Definition fixed_lit (s : bool) (d : bytes) (point : Z) : literal :=
  if point <=? 0 then mkLit s ["0"%char] (Some (replicate (Z.to_nat (- point)) "0"%char ++ d)) None
  else if Z.of_nat (length d) <=? point
  then mkLit s (d ++ replicate (Z.to_nat point - length d) "0"%char) None None
  else mkLit s (take (Z.to_nat point) d) (Some (drop (Z.to_nat point) d)) None.

Definition exp_lit (s : bool) (d : bytes) (point : Z) : literal :=
  mkLit s (take 1 d) (match drop 1 d with [] => None | f => Some f end)
    (Some (point - 1 <? 0, dec (Z.to_N (Z.abs (point - 1))))).

(** The number of places before the decimal point of [num / den]; not positive
    when there are zeros behind the point. *)
Fixpoint leading_zeros (fuel : nat) (num den : Z) : Z :=
  match fuel with
  | O => 0
  | S fuel => if den <=? num * 10 then 0 else 1 + leading_zeros fuel (num * 10) den
  end.
Definition point_of (num den : Z) : Z :=
  if den <=? num then Z.of_nat (length (dec (Z.to_N (num / den))))
  else - leading_zeros 400 num den.

(** The decimals of [n] digits next to [num / den], the nearer one first. *)
Definition candidates (num den : Z) (n : nat) : list (bytes * Z) :=
  let point := point_of num den in
  let k := Z.of_nat n - point in
  let num := if 0 <=? k then num * 10 ^ k else num in
  let den := if 0 <=? k then den else den * 10 ^ (- k) in
  let low := num / den in
  let rest := num mod den in
  let mk z := let d := dec (Z.to_N z) in (strip_zeros d, Z.of_nat (length d) - k) in
  if (2 * rest <? den) || ((2 * rest =? den) && Z.even low)
  then [mk low; mk (low + 1)] else [mk (low + 1); mk low].

Definition digits (l : bytes) : bool := bool_decide (l ≠ []) && forallb is_digit l.

Definition lit_wf (t : literal) : bool :=
  digits (lit_int t)
  && (bool_decide (lit_int t = ["0"%char]) || negb (bool_decide (head (lit_int t) = Some "0"%char)))
  && match lit_frac t with Some d => digits d | None => true end
  && match lit_exp t with Some (_, d) => digits d | None => true end.

(** The shortest decimal that reads back as [x]; seventeen digits are always
    enough, and the exact expansion is only there to make the search total. *)
Definition float_lit (x : float64) : literal :=
  match x with
  | S754_finite s m e =>
      let num := Z.pos m * 2 ^ Z.max e 0 in
      let den := 2 ^ Z.max (- e) 0 in
      let use_exp := fltb (SFabs x) (dec_float false 1 (- 6)) || fleb (dec_float false 1 21) (SFabs x) in
      let lits := '(d, point) ← flat_map (candidates num den) (seq 1 17);
                  [(if use_exp then exp_lit else fixed_lit) s d point] in
      match find (λ t, lit_wf t && bool_decide (lit_float t = Some x)) lits with
      | Some t => t
      | None => exact_lit s m e
      end
  | S754_zero s => mkLit s ["0"%char] None None
  | _ => mkLit false ["0"%char] None None
  end.

Definition float_text (x : float64) : string :=
  String.string_of_list_ascii (literal_text (float_lit x)).

Example float_text_1 : map float_text [f_of_Z 100; f_of_ratio 1 10; f_of_ratio (-25) 2; S754_zero true]
  = ["100"; "0.1"; "-12.5"; "-0"].
Proof. by vm_compute. Qed.
Example float_text_2 :
  map float_text [fadd (f_of_ratio 1 10) (f_of_ratio 2 10); f_of_ratio 1 3; dec_float false 1 21;
                  dec_float false 15 (-8); dec_float false 123456789 12; S754_finite false 1 (-1074);
                  S754_finite false (2 ^ 53 - 1) 971]
  = ["0.30000000000000004"; "0.3333333333333333"; "1e+21"; "1.5e-7"; "123456789000000000000";
     "5e-324"; "1.7976931348623157e+308"].
Proof. by vm_compute. Qed.

(** ** Scanning undoes printing *)

(** A number ends before anything that cannot go on with it. *)
Definition stops (l : bytes) : bool :=
  match l with
  | [] => true
  | c :: _ => negb (is_digit c) && negb (Ascii.eqb c ".")
              && negb (Ascii.eqb c "e") && negb (Ascii.eqb c "E")
  end.

Lemma span_app p d l :
  forallb p d = true → match l with [] => true | c :: _ => negb (p c) end = true →
  span p (d ++ l) = (d, l).
Proof.
  intros Hd Hl. induction d as [|c d IH]; simpl in *.
  - destruct l as [|c l]; [done|]. simpl. apply negb_true_iff in Hl. by rewrite Hl.
  - apply andb_true_iff in Hd as [Hc Hd]. by rewrite Hc, IH.
Qed.

Lemma stops_spec c l :
  stops (c :: l) = true → is_digit c = false ∧ Ascii.eqb c "." = false ∧
    Ascii.eqb c "e" = false ∧ Ascii.eqb c "E" = false.
Proof. simpl. rewrite !andb_true_iff, !negb_true_iff. tauto. Qed.

Lemma scan_digits_app d l :
  digits d = true → match l with [] => true | c :: _ => negb (is_digit c) end = true →
  scan_digits (d ++ l) = Some (d, l).
Proof.
  unfold digits, scan_digits. intros [Hne%bool_decide_eq_true Hd]%andb_true_iff Hl.
  rewrite span_app by done. by destruct d.
Qed.

(** Digits are none of the characters the scanner looks for. *)
Lemma digit_not c c' : is_digit c = true → is_digit c' = false → Ascii.eqb c c' = false.
Proof. intros Hc Hc'. apply Ascii.eqb_neq. by intros ->; rewrite Hc in Hc'. Qed.

Lemma digits_head d : digits d = true → ∃ c d', d = c :: d' ∧ is_digit c = true.
Proof.
  unfold digits. destruct d as [|c d]; [done|]. simpl. intros [Hc _]%andb_true_iff. eauto.
Qed.

Lemma stops_no_digit l : stops l = true → match l with [] => true | c :: _ => negb (is_digit c) end = true.
Proof. destruct l; [done|]. by intros [-> _]%stops_spec. Qed.

Lemma scan_exp_text e l :
  match e with Some (_, d) => digits d | None => true end = true → stops l = true →
  scan_exp (match e with
            | Some (neg, d) => "e"%char :: (if neg : bool then "-"%char else "+"%char) :: d
            | None => [] end ++ l) = Some (e, l).
Proof.
  intros He Hl. destruct e as [[neg d]|].
  - destruct neg; simpl; by rewrite scan_digits_app by auto using stops_no_digit.
  - destruct l as [|c l]; [done|]. apply stops_spec in Hl as (_ & _ & He1 & He2). simpl. by rewrite He1, He2.
Qed.

Lemma scan_frac_text f l :
  match f with Some d => digits d | None => true end = true →
  match l with [] => true | c :: _ => negb (is_digit c) && negb (Ascii.eqb c ".") end = true →
  scan_frac (match f with Some d => "."%char :: d | None => [] end ++ l) = Some (f, l).
Proof.
  intros Hf Hl. destruct f as [d|].
  - simpl. rewrite scan_digits_app; [done|done|]. destruct l; [done|]. by apply andb_true_iff in Hl as [-> _].
  - destruct l as [|c l]; [done|]. apply andb_true_iff in Hl as [_ Hd%negb_true_iff]. simpl. by rewrite Hd.
Qed.

(** Whatever comes after the integer part does not go on with digits. *)
Lemma tail_no_digit t l :
  lit_wf t = true → stops l = true →
  match match lit_frac t with Some d => "."%char :: d | None => [] end
        ++ match lit_exp t with
           | Some (neg, d) => "e"%char :: (if neg : bool then "-"%char else "+"%char) :: d
           | None => [] end ++ l
  with [] => true | c :: _ => negb (is_digit c) end = true.
Proof.
  intros _ Hl. destruct (lit_frac t), (lit_exp t) as [[]|]; try done. by apply stops_no_digit.
Qed.

Lemma exp_no_digit_dot (e : option (bool * bytes)) l :
  stops l = true →
  match match e with
        | Some (neg, d) => "e"%char :: (if neg : bool then "-"%char else "+"%char) :: d
        | None => [] end ++ l
  with [] => true | c :: _ => negb (is_digit c) && negb (Ascii.eqb c ".") end = true.
Proof.
  intros Hl. destruct e as [[]|]; [done|]. destruct l as [|c l]; [done|].
  apply stops_spec in Hl as (Hd & Hp & _). simpl. by rewrite Hd, Hp.
Qed.

Lemma scan_int_text d l :
  digits d = true → d = ["0"%char] ∨ head d ≠ Some "0"%char →
  match l with [] => true | c :: _ => negb (is_digit c) end = true →
  scan_int (d ++ l) = Some (d, l).
Proof.
  intros Hd [-> | Hh] Hl; [done|]. destruct (digits_head d Hd) as (c & d' & -> & Hc).
  simpl. destruct (Ascii.eqb_spec c "0") as [->|_]; [done|].
  by rewrite <- (scan_digits_app (c :: d') l).
Qed.

Lemma scan_number_text t l :
  lit_wf t = true → stops l = true → scan_number (literal_text t ++ l) = Some (t, l).
Proof.
  intros Hwf Hl. pose proof (tail_no_digit t l Hwf Hl) as Htail.
  pose proof (exp_no_digit_dot (lit_exp t) l Hl) as Hexp.
  unfold lit_wf in Hwf. rewrite !andb_true_iff in Hwf. destruct Hwf as [[[Hi Hz] Hf] He].
  unfold scan_number, literal_text. rewrite <- !app_assoc.
  assert (∀ r, scan_sign ((if lit_neg t then ["-"%char] else []) ++ lit_int t ++ r)
    = (lit_neg t, lit_int t ++ r)) as ->.
  { intros r. destruct (lit_neg t); [done|]. destruct (digits_head _ Hi) as (c & d & -> & Hc).
    simpl. by rewrite (digit_not c "-") by done. }
  rewrite scan_int_text; [|done| |done].
  2:{ apply orb_true_iff in Hz as [Hz%bool_decide_eq_true|Hz%negb_true_iff%bool_decide_eq_false]; auto. }
  simpl. rewrite scan_frac_text by done. simpl. rewrite scan_exp_text by done. by destruct t.
Qed.

(** ** Decimal digits *)

Lemma parse_digits_list s acc n :
  parse_digits s acc = Some n →
  forallb is_digit (String.list_ascii_of_string s) = true ∧
  foldl (λ acc c, (acc * 10 + default 0 (digit_val c))%N) acc (String.list_ascii_of_string s) = n.
Proof.
  revert acc. induction s as [|c s IH]; intros acc; simpl; [by intros [= ->]|].
  unfold is_digit at 1. destruct (digit_val c) as [d|]; [|done]. apply IH.
Qed.

Lemma dec_spec n :
  digits (dec n) = true ∧ digits_value (dec n) = n ∧
  (dec n = ["0"%char] ∨ head (dec n) ≠ Some "0"%char).
Proof.
  unfold dec. pose proof (parse_digits_N n) as Hp. apply parse_digits_list in Hp as [Hd Hv].
  split_and!.
  - unfold digits. rewrite Hd. destruct (pretty_N_head n) as (c & s & -> & _). done.
  - exact Hv.
  - destruct (decide (n = 0%N)) as [->|Hn]; [by left|right].
    unfold pretty, pretty_N. rewrite decide_False by done.
    destruct (pretty_N_go_head n "") as (c & s & -> & Hc); [lia|]. simpl. congruence.
Qed.

Lemma lit_wf_dec s n f e :
  match f with Some d => digits d | None => true end = true →
  match e with Some (_, d) => digits d | None => true end = true →
  lit_wf (mkLit s (dec n) f e) = true.
Proof.
  intros Hf He. unfold lit_wf. simpl. destruct (dec_spec n) as (-> & _ & Hz). rewrite Hf, He.
  rewrite !andb_true_r. simpl. apply orb_true_iff.
  destruct Hz as [Hz|Hz]; [left; by apply bool_decide_eq_true|right].
  by apply negb_true_iff, bool_decide_eq_false.
Qed.

(** ** Integers *)

Lemma int_lit_wf z : lit_wf (int_lit z) = true.
Proof. by apply lit_wf_dec. Qed.

Lemma lit_int64_int_lit z : in_i64 z → lit_int64 (int_lit z) = Some z.
Proof.
  intros Hz. unfold lit_int64, int_lit. simpl.
  destruct (dec_spec (Z.to_N (Z.abs z))) as (_ & -> & _).
  assert ((if z <? 0 then - Z.of_N (Z.to_N (Z.abs z)) else Z.of_N (Z.to_N (Z.abs z))) = z) as ->.
  { destruct (Z.ltb_spec z 0); lia. }
  by rewrite bool_decide_eq_true_2.
Qed.

(** ** Exact decimals *)

Lemma digits_value_app l l' :
  digits_value (l ++ l') = foldl (λ acc c, (acc * 10 + default 0 (digit_val c))%N) (digits_value l) l'.
Proof. apply foldl_app. Qed.

Lemma pad_spec k n :
  forallb is_digit (pad k n) = true ∧ length (pad k n) = k ∧
  ((n < 10 ^ N.of_nat k)%N → ∀ acc,
     foldl (λ acc c, (acc * 10 + default 0 (digit_val c))%N) acc (pad k n)
     = (acc * 10 ^ N.of_nat k + n)%N).
Proof.
  revert n. induction k as [|k IH]; intros n; simpl pad.
  { split_and!; [done|done|]. simpl. intros. lia. }
  destruct (IH (n / 10)%N) as (Hd & Hl & Hv).
  assert (n mod 10 < 10)%N as Hm by by apply N.mod_lt.
  split_and!.
  - rewrite forallb_app, Hd. simpl. unfold is_digit. by rewrite digit_val_pretty.
  - rewrite length_app, Hl. simpl. lia.
  - intros Hn acc. rewrite foldl_app. simpl. rewrite digit_val_pretty by done. simpl.
    rewrite Nat2N.inj_succ, N.pow_succ_r' in *.
    rewrite Hv by (apply N.Div0.div_lt_upper_bound; lia).
    pose proof (N.div_mod' n 10) as E. rewrite E at 3. ring_simplify. lia.
Qed.

(** ** Exact values round to themselves *)

Section Exact.
Abbreviation fexp := (SpecFloat.fexp 53 1024).

Lemma iter_shr_1_exact p m :
  0 ≤ m → iter_pos shr_1 p (Build_shr_record (m * 2 ^ Z.pos p) false false)
          = Build_shr_record m false false.
Proof.
  assert (∀ z, 0 ≤ z → shr_1 (Build_shr_record (2 * z) false false) = Build_shr_record z false false)
    as H1 by (by intros [|z|z]).
  revert m. induction p as [p IH|p IH|]; intros m Hm; cbn [iter_pos].
  - replace (m * 2 ^ Z.pos p~1) with (2 * (m * 2 ^ Z.pos p * 2 ^ Z.pos p)).
    2:{ replace (Z.pos p~1) with (Z.succ (Z.pos p + Z.pos p)) by lia.
        rewrite Z.pow_succ_r, Z.pow_add_r by lia. ring. }
    rewrite H1, IH, IH by (try apply Z.mul_nonneg_nonneg; lia). done.
  - replace (m * 2 ^ Z.pos p~0) with (m * 2 ^ Z.pos p * 2 ^ Z.pos p).
    2:{ replace (Z.pos p~0) with (Z.pos p + Z.pos p) by lia. rewrite Z.pow_add_r by lia. ring. }
    rewrite IH, IH by (try apply Z.mul_nonneg_nonneg; lia). done.
  - rewrite Z.mul_comm. by apply H1.
Qed.

(** The exponent of a canonical float. *)
Lemma bounded_fexp m e : bounded 53 1024 m e = true → fexp (Zdigits2 (Z.pos m) + e) = e ∧ e ≤ 971.
Proof.
  unfold bounded, canonical_mantissa. intros [E%Z.eqb_eq H%Z.leb_le]%andb_true_iff. done.
Qed.

Lemma Zdigits2_mul_pow2 m j : 0 < m → 0 ≤ j → Zdigits2 (m * 2 ^ j) = Zdigits2 m + j.
Proof. intros. rewrite <- Z.shiftl_mul_pow2 by done. by apply Zdigits2_shiftl. Qed.

Lemma shr_fexp_exact m e j :
  bounded 53 1024 m e = true → 0 ≤ j →
  shr_fexp 53 1024 (Z.pos m * 2 ^ j) (e - j) loc_Exact = (Build_shr_record (Z.pos m) false false, e).
Proof.
  intros Hb Hj. destruct (bounded_fexp m e Hb) as [Hf _]. unfold shr_fexp.
  rewrite Zdigits2_mul_pow2 by lia. replace (Zdigits2 (Z.pos m) + j + (e - j)) with
    (Zdigits2 (Z.pos m) + e) by lia. rewrite Hf. replace (e - (e - j)) with j by lia.
  unfold shr. destruct j as [|p|p]; [|by rewrite <- (iter_shr_1_exact p (Z.pos m)); [f_equal; lia|]|lia].
  simpl. by rewrite Z.mul_1_r, Z.sub_0_r.
Qed.

Lemma binary_round_aux_exact s m e j :
  bounded 53 1024 m e = true → 0 ≤ j →
  binary_round_aux 53 1024 s (Z.pos m * 2 ^ j) (e - j) loc_Exact = S754_finite s m e.
Proof.
  intros Hb Hj. destruct (bounded_fexp m e Hb) as [_ He]. unfold binary_round_aux.
  rewrite shr_fexp_exact by done. simpl.
  pose proof (shr_fexp_exact m e 0 Hb ltac:(lia)) as H0.
  rewrite Z.mul_1_r, Z.sub_0_r in H0. rewrite H0. cbn [shr_m].
  by rewrite (proj2 (Z.leb_le e (1024 - 53))).
Qed.

Lemma dec_float_exact_int s m e :
  bounded 53 1024 m e = true → 0 ≤ e → dec_float s (Z.to_N (Z.pos m * 2 ^ e)) 0 = S754_finite s m e.
Proof.
  intros Hb He. destruct (bounded_fexp m e Hb) as [Hf _].
  assert (0 < Z.pos m * 2 ^ e) as Hpos by (apply Z.mul_pos_pos; lia).
  destruct (Z.pos m * 2 ^ e) as [|p|p] eqn:Ep; try lia. simpl Z.to_N. unfold dec_float.
  change (0 <=? 0) with true. cbv iota. rewrite Z.pow_0_r, Z.mul_1_r, Pos2Z.id. unfold binary_round.
  change (Z.pos (digits2_pos p)) with (Zdigits2 (Z.pos p)). rewrite <- Ep.
  rewrite Zdigits2_mul_pow2, Z.add_0_r, Hf by lia. unfold shl_align.
  assert (match e - 0 with Z.neg d => (Pos.iter xO p d, e) | _ => (p, 0) end = (p, 0)) as ->
    by (destruct (e - 0) eqn:E0; done || lia).
  rewrite <- Ep. pose proof (binary_round_aux_exact s m e e Hb He) as H.
  by rewrite Z.sub_diag in H.
Qed.

(** A quotient that is a canonical float: the division keeps at least its digits. *)
Lemma dec_float_exact_frac s m e :
  bounded 53 1024 m e = true → e < 0 → dec_float s (Z.to_N (Z.pos m * 5 ^ (- e))) e = S754_finite s m e.
Proof.
  intros Hb He. destruct (bounded_fexp m e Hb) as [Hf _].
  set (k := - e). assert (0 < k) as Hk by (unfold k; lia).
  assert (0 < 5 ^ k) as H5 by (apply Z.pow_pos_nonneg; lia).
  assert (0 < 2 ^ k) as H2 by (apply Z.pow_pos_nonneg; lia).
  assert (10 ^ k = 5 ^ k * 2 ^ k) as E10 by by rewrite <- Z.pow_mul_l.
  destruct (Z.pos m * 5 ^ k) as [|p|p] eqn:Ep; try nia. simpl Z.to_N. unfold dec_float.
  rewrite (proj2 (Z.leb_gt 0 e)) by lia. fold k.
  unfold SFdiv_core_binary. rewrite !Z.add_0_r, Z.sub_0_r.
  set (d := Zdigits2 (Z.pos p) - Zdigits2 (10 ^ k)).
  assert (fexp d ≤ e) as Hd.
  { rewrite <- Hf. apply fexp_mono. unfold d. rewrite <- Ep, E10.
    assert (Zdigits2 (Z.pos m * 5 ^ k) ≤ Zdigits2 (Z.pos m) + Zdigits2 (5 ^ k)) as Hm.
    { rewrite !Zdigits2_log2 by nia. pose proof (Z.log2_mul_above (Z.pos m) (5 ^ k)). lia. }
    rewrite Zdigits2_mul_pow2 by lia. unfold k in *. lia. }
  rewrite Z.min_l by lia. set (e' := fexp d) in *.
  destruct (0 - e') as [|q|q] eqn:Eq; [lia| |lia].
  rewrite Z.shiftl_mul_pow2 by lia. rewrite <- Ep, <- Eq, E10.
  assert (Z.pos m * 5 ^ k * 2 ^ (0 - e') = (Z.pos m * 2 ^ (e - e')) * (5 ^ k * 2 ^ k)) as ->.
  { replace (0 - e') with (e - e' + k) by (unfold k; lia). rewrite Z.pow_add_r by lia. ring. }
  pose proof (Z.div_mul (Z.pos m * 2 ^ (e - e')) (5 ^ k * 2 ^ k) ltac:(nia)) as Hq.
  pose proof (Z.mod_mul (Z.pos m * 2 ^ (e - e')) (5 ^ k * 2 ^ k) ltac:(nia)) as Hr.
  unfold Z.div, Z.modulo in Hq, Hr.
  destruct (Z.div_eucl _ _) as [q' r']. subst q' r'.
  assert (new_location (5 ^ k * 2 ^ k) 0 = loc_Exact) as ->
    by (unfold new_location; by destruct (Z.even _)).
  replace e' with (e - (e - e')) at 2 by lia. apply binary_round_aux_exact; [done|lia].
Qed.
End Exact.

(** ** Floats *)

Lemma exact_lit_wf s m e : lit_wf (exact_lit s m e) = true.
Proof.
  unfold exact_lit. destruct (Z.leb_spec 0 e); cbv zeta; apply lit_wf_dec; try done.
  destruct (pad_spec (Z.to_nat (- e)) (Z.to_N (Z.pos m * 5 ^ (- e)) mod 10 ^ Z.to_N (- e)))
    as (Hd & Hl & _).
  unfold digits. rewrite Hd, andb_true_r. apply bool_decide_eq_true. intros E. rewrite E in Hl.
  simpl in Hl. lia.
Qed.

Lemma exact_lit_value s m e :
  bounded 53 1024 m e = true → lit_value (exact_lit s m e) = S754_finite s m e.
Proof.
  intros Hb. unfold exact_lit, lit_value. destruct (Z.leb_spec 0 e) as [He|He]; cbv zeta;
    cbn [lit_neg lit_int lit_frac lit_exp default from_option id length]; rewrite ?app_nil_r.
  - destruct (dec_spec (Z.to_N (Z.pos m * 2 ^ e))) as (_ & -> & _).
    by apply dec_float_exact_int.
  - set (n := Z.to_N (Z.pos m * 5 ^ (- e))). set (b := (10 ^ Z.to_N (- e))%N).
    destruct (pad_spec (Z.to_nat (- e)) (n mod b)) as (_ & -> & Hv).
    rewrite digits_value_app. destruct (dec_spec (n / b)) as (_ & -> & _).
    assert (N.of_nat (Z.to_nat (- e)) = Z.to_N (- e)) as En by lia. rewrite En in Hv. fold b in Hv.
    assert (b ≠ 0%N) as Hb0 by (apply N.pow_nonzero; done).
    rewrite Hv by by apply N.mod_lt.
    replace (n / b * b + n mod b)%N with n by (rewrite (N.div_mod' n b) at 1; lia).
    replace (0 - Z.of_nat (Z.to_nat (- e))) with e by lia. by apply dec_float_exact_frac.
Qed.

Lemma exact_lit_float s m e :
  bounded 53 1024 m e = true → lit_float (exact_lit s m e) = Some (S754_finite s m e).
Proof. intros Hb. unfold lit_float. by rewrite exact_lit_value. Qed.

(** The number written for a finite float is a number of the grammar, and reads
    back as that float. *)
Lemma float_lit_spec x :
  is_finite x = true → fvalid x = true →
  lit_wf (float_lit x) = true ∧ lit_float (float_lit x) = Some x.
Proof.
  destruct x as [s|s| |s m e]; intros Hf Hv; try done. unfold float_lit. cbv zeta.
  destruct (find _ _) as [t|] eqn:Ht.
  - apply find_some in Ht as [_ Ht]. by apply andb_true_iff in Ht as [-> Ht%bool_decide_eq_true].
  - split; [apply exact_lit_wf|by apply exact_lit_float].
Qed.

(** ** Canonical form *)

Lemma dec_float_valid s n e : fvalid (dec_float s n e) = true.
Proof.
  destruct n as [|p]; [done|]. unfold dec_float.
  destruct (Z.leb_spec 0 e) as [He|He]; [apply binary_round_valid|].
  assert (0 < 10 ^ (- e)) as Hb by (apply Z.pow_pos_nonneg; lia).
  pose proof (SFdiv_core_spec (Z.pos p) 0 (10 ^ (- e)) 0 ltac:(done) Hb) as Hc.
  destruct (SFdiv_core_binary _ _ _ _ _ _) as [[q e'] l]. destruct Hc. by apply binary_round_aux_valid.
Qed.

(** Reading a number gives a finite float in canonical form. *)
Lemma lit_float_valid t x : lit_float t = Some x → is_finite x = true ∧ fvalid x = true.
Proof.
  unfold lit_float. destruct (is_finite (lit_value t)) eqn:E; [|done]. intros [= <-].
  split; [done|]. apply dec_float_valid.
Qed.
