(* ===== verification/Http.v ===== *)
(** * Http: the part of net/http, net/url and encoding/json the services use

    Requests, response writers, the query parameter lookup of net/url, the
    [writeJson] helper that the aggregator and the gateway share, and the
    interface [JsonCodec] to encoding/json: the four decoders and the encoder
    the program calls.  [JsonLaws] states the documented behaviour the
    end-to-end results rely on (a finite value is encoded, and decoding its
    encoding gives it back; a NaN or infinite number is refused; an empty body
    is an error). *)

From S2P Require Import Prelude Float64 GoLib Types.
From Stdlib Require Import Ascii.

Local Open Scope Z_scope.

(** ** Requests and responses *)

Record Request := mkRequest {
  Method : string;
  Path : string;
  RawQuery : string;
  Body : string
}.

(** [rw_codes] lists the [WriteHeader] calls in order: only the first one is
    sent, a second is superfluous. *)
Record ResponseWriter := mkRW {
  rw_header : gmap string string;
  rw_codes : list Z;
  rw_body : string
}.

Definition new_rw : ResponseWriter := mkRW ∅ [] "".

Definition Header_Set (k v : string) (w : ResponseWriter) : ResponseWriter :=
  mkRW (<[k:=v]> (rw_header w)) (rw_codes w) (rw_body w).
Definition WriteHeader (status : Z) (w : ResponseWriter) : ResponseWriter :=
  mkRW (rw_header w) (rw_codes w ++ [status]) (rw_body w).
Definition Write (s : string) (w : ResponseWriter) : ResponseWriter :=
  mkRW (rw_header w) (rw_codes w) (rw_body w +:+ s).

(** The status the client receives; a handler that never calls [WriteHeader] sends 200. *)
Definition sent_status (w : ResponseWriter) : Z := default 200 (head (rw_codes w)).

Definition MethodGet : string := "GET".
Definition MethodPost : string := "POST".

Definition StatusOK : Z := 200.
Definition StatusAccepted : Z := 202.
Definition StatusBadRequest : Z := 400.
Definition StatusMethodNotAllowed : Z := 405.
Definition StatusInternalServerError : Z := 500.

(** ** Query parameters *)

Definition unhex (c : ascii) : option N :=
  let n := N_of_ascii c in
  if bool_decide (48 ≤ n ≤ 57)%N then Some (n - 48)%N
  else if bool_decide (97 ≤ n ≤ 102)%N then Some (n - 87)%N
  else if bool_decide (65 ≤ n ≤ 70)%N then Some (n - 55)%N
  else None.

(** [url.QueryUnescape] *)
Fixpoint QueryUnescape (s : string) : option string :=
  match s with
  | EmptyString => Some ""
  | String "%" (String a (String b s)) =>
      x ← unhex a; y ← unhex b; r ← QueryUnescape s;
      Some (String (ascii_of_N (16 * x + y)) r)
  | String "%" _ => None
  | String "+" s => r ← QueryUnescape s; Some (String " " r)
  | String c s => r ← QueryUnescape s; Some (String c r)
  end.

(** [strings.Cut] at the first occurrence of a byte. *)
Fixpoint Cut (sep : ascii) (s : string) : string * string :=
  match s with
  | EmptyString => ("", "")
  | String c s => if Ascii.eqb c sep then ("", s)
                  else let '(a, b) := Cut sep s in (String c a, b)
  end.

Fixpoint has_char (c : ascii) (s : string) : bool :=
  match s with
  | EmptyString => false
  | String c' s => Ascii.eqb c c' || has_char c s
  end.

(** One [key=value] setting; malformed settings are dropped by [URL.Query]. *)
Definition query_setting (kv : string) : option (string * string) :=
  if has_char ";" kv || bool_decide (kv = "") then None
  else let '(k, v) := Cut "=" kv in
       k ← QueryUnescape k; v ← QueryUnescape v; Some (k, v).

(** [r.URL.Query().Get(key)]: the first value, or the empty string. *)
Definition Query_Get (raw key : string) : string :=
  default "" (snd <$> head (filter (λ kv, kv.1 = key) (omap query_setting (Split "&" raw)))).

(** ** encoding/json *)

(** The Go values the program encodes. *)
Inductive JsonValue :=
| JMessage (key value : string)              (* map[string]string{key: value} *)
| JInvoice (inv : Invoice)
| JReconciliation (r : EventReconciliation)
| JDistance (d : Distance)
| JOBUData (o : OBUData)
| JNull.                                     (* a nil pointer *)

(** A reader yields its bytes and then an error ([None] is io.EOF). *)
Record Reader := mkReader { rd_bytes : string; rd_end : option error }.

(** [http.MaxBytesReader(w, r.Body, n)] *)
Definition MaxBytesReader (n : Z) (body : string) : Reader :=
  if bool_decide (Z.of_nat (String.length body) ≤ n) then mkReader body None
  else mkReader (String.substring 0 (Z.to_nat n) body) (Some (EText "http: request body too large")).

Class JsonCodec := {
  json_Marshal : JsonValue → string + error;
  json_Unmarshal_OBUData : string → OBUData + error;
  json_Decode_Distance : Reader → Distance + error;
  json_Decode_Invoice : Reader → Invoice + error
}.

(** The floating-point fields of a value. *)
Definition json_floats (v : JsonValue) : list float64 :=
  match v with
  | JMessage _ _ | JReconciliation _ | JNull => []
  | JInvoice inv => [inv_TotalDist inv; inv_Amount inv]
  | JDistance d => [d_Value d]
  | JOBUData o => [od_Lat o; od_Lon o]
  end.

(** Floats in canonical form, as every float64 in memory is. *)
Definition json_valid (v : JsonValue) : bool :=
  forallb (valid_binary 53 1024) (json_floats v).

Definition json_finite (v : JsonValue) : bool := forallb is_finite (json_floats v).

Section Json.
Context `{JsonCodec}.

(** [json.NewEncoder(w).Encode(v)]: a value that cannot be encoded writes nothing. *)
Definition json_Encode (v : JsonValue) (w : ResponseWriter)
    : ResponseWriter * option error :=
  match json_Marshal v with
  | inl s => (Write (s +:+ String "010" "") w, None)
  | inr e => (w, Some e)
  end.

(** The [writeJson] of aggregator/http.go and gateway/main.go. *)
Definition writeJson (w : ResponseWriter) (status : Z) (v : JsonValue)
    : ResponseWriter * option error :=
  let w := Header_Set "Content-Type" "application/json" w in
  let w := WriteHeader status w in
  json_Encode v w.

Lemma writeJson_codes w status v :
  rw_codes (writeJson w status v).1 = rw_codes w ++ [status].
Proof. unfold writeJson, json_Encode. by destruct (json_Marshal v). Qed.

Lemma writeJson_header w status v :
  rw_header (writeJson w status v).1 =
    <["Content-Type" := "application/json"]> (rw_header w).
Proof. unfold writeJson, json_Encode. by destruct (json_Marshal v). Qed.

Lemma writeJson_fresh_status h status v b :
  sent_status (writeJson (mkRW h [] b) status v).1 = status.
Proof. unfold sent_status. by rewrite writeJson_codes. Qed.

Lemma writeJson_first_status w status v :
  rw_codes w = [] → sent_status (writeJson w status v).1 = status.
Proof. intros Hw. unfold sent_status. by rewrite writeJson_codes, Hw. Qed.

Lemma writeJson_new_status status v : sent_status (writeJson new_rw status v).1 = status.
Proof. apply writeJson_fresh_status. Qed.
End Json.

#[global] Arguments writeJson : simpl never.

(** [utf8.ValidString], on the bytes of a string. *)
Section Utf8.
Definition byte_in (lo hi : N) (c : ascii) : bool := bool_decide (lo ≤ N_of_ascii c ≤ hi)%N.

Definition rune2 (a b : ascii) : bool := byte_in 0xC2 0xDF a && byte_in 0x80 0xBF b.
Definition rune3 (a b c : ascii) : bool :=
  (byte_in 0xE0 0xE0 a && byte_in 0xA0 0xBF b || byte_in 0xE1 0xEC a && byte_in 0x80 0xBF b
   || byte_in 0xED 0xED a && byte_in 0x80 0x9F b || byte_in 0xEE 0xEF a && byte_in 0x80 0xBF b)
  && byte_in 0x80 0xBF c.
Definition rune4 (a b c d : ascii) : bool :=
  (byte_in 0xF0 0xF0 a && byte_in 0x90 0xBF b || byte_in 0xF1 0xF3 a && byte_in 0x80 0xBF b
   || byte_in 0xF4 0xF4 a && byte_in 0x80 0x8F b)
  && byte_in 0x80 0xBF c && byte_in 0x80 0xBF d.

Fixpoint utf8_bytes (l : list ascii) : bool :=
  match l with
  | [] => true
  | a :: l1 =>
      if byte_in 0 0x7F a then utf8_bytes l1 else
      match l1 with
      | [] => false
      | b :: l2 =>
          if rune2 a b then utf8_bytes l2 else
          match l2 with
          | [] => false
          | c :: l3 =>
              if rune3 a b c then utf8_bytes l3 else
              match l3 with
              | [] => false
              | d :: l4 => rune4 a b c d && utf8_bytes l4
              end
          end
      end
  end.
End Utf8.

Definition utf8_valid (s : string) : bool := utf8_bytes (String.list_ascii_of_string s).

(** What decoding an event can give: Go's [int] is 64 bits wide, a decoded string
    is valid UTF-8 and a decoded number is finite. *)
Definition decodable (o : OBUData) : bool :=
  utf8_valid (od_EventID o) && utf8_valid (od_Payload o)
  && bool_decide (in_i64 (od_ProducedAtUnixNano o)) && bool_decide (in_i64 (od_OBUID o))
  && json_valid (JOBUData o) && json_finite (JOBUData o).

Class JsonLaws `{JsonCodec} := {
  json_Marshal_finite v : json_finite v = true → ∃ s, json_Marshal v = inl s;
  json_Marshal_not_finite v : json_finite v = false → ∃ e, json_Marshal v = inr e;
  json_Unmarshal_decodable s o : json_Unmarshal_OBUData s = inl o → decodable o = true;
  json_OBUData_roundtrip o s :
    decodable o = true →
    json_Marshal (JOBUData o) = inl s → json_Unmarshal_OBUData s = inl o;
  json_OBUData_newline o s :
    decodable o = true →
    json_Marshal (JOBUData o) = inl s → json_Unmarshal_OBUData (s +:+ String "010" "") = inl o;
  json_Distance_roundtrip d s :
    utf8_valid (d_EventID d) = true →
    in_i64 (d_ProducedAtUnixNano d) → in_i64 (d_OBUID d) →
    json_valid (JDistance d) = true →
    json_Marshal (JDistance d) = inl s → json_Decode_Distance (mkReader s None) = inl d;
  json_Invoice_roundtrip inv s post :
    in_i64 (inv_OBUID inv) → json_valid (JInvoice inv) = true →
    json_Marshal (JInvoice inv) = inl s →
    json_Decode_Invoice (mkReader (s +:+ post) None) = inl inv;
  json_Decode_Invoice_empty : ∃ e, json_Decode_Invoice (mkReader "" None) = inr e
}.

(** Examples of query lookups. *)
Example query_1 : Query_Get "obu=12" "obu" = "12".
Proof. reflexivity. Qed.
Example query_2 : Query_Get "x=1&obu=%317&obu=3" "obu" = "17".
Proof. reflexivity. Qed.
Example query_3 : Query_Get "obu=%zz&y" "obu" = "".
Proof. reflexivity. Qed.
