(* ===== verification/Json.v ===== *)
(** * Json: the text format of encoding/json

    Values as a tree ([json]), the parser ([parse_value]: the scanner and the
    string decoding of the package), the printer of the flat objects the program
    writes, and the two facts the struct codec of GoJson.v rests on: parsing
    undoes printing ([parse_print_obj]) and decoded strings are valid UTF-8. *)

From S2P Require Import Prelude Float64 GoLib Types Decimal Http.
From Stdlib Require Import Ascii.

Local Open Scope Z_scope.

#[warnings="-register-all"]
Inductive json :=
| JsNull
| JsBool (b : bool)
| JsNum (t : literal)
| JsStr (s : bytes)
| JsArr (l : list json)
| JsObj (l : list (bytes * json)).

(** ** Strings *)

Definition quote_char : ascii := "034"%char.
Definition backslash : ascii := "\"%char.

(** [utf8.AppendRune] for a Unicode scalar value. *)
Definition utf8_encode (n : N) : bytes :=
  (if n <? 0x80 then [ascii_of_N n]
   else if n <? 0x800 then [ascii_of_N (0xC0 + n / 64); ascii_of_N (0x80 + n mod 64)]
   else if n <? 0x10000
   then [ascii_of_N (0xE0 + n / 4096); ascii_of_N (0x80 + n / 64 mod 64); ascii_of_N (0x80 + n mod 64)]
   else [ascii_of_N (0xF0 + n / 262144); ascii_of_N (0x80 + n / 4096 mod 64);
         ascii_of_N (0x80 + n / 64 mod 64); ascii_of_N (0x80 + n mod 64)])%N.

(** U+FFFD *)
Definition replacement : bytes := utf8_encode 0xFFFD.

Definition hex4 (a b c d : ascii) : option N :=
  a ← unhex a; b ← unhex b; c ← unhex c; d ← unhex d;
  Some (((a * 16 + b) * 16 + c) * 16 + d)%N.

Definition is_surrogate (n : N) : bool := bool_decide (0xD800 ≤ n < 0xE000)%N.

(** [utf16.DecodeRune] *)
Definition surrogate_pair (a b : N) : option N :=
  if bool_decide (0xD800 ≤ a < 0xDC00)%N && bool_decide (0xDC00 ≤ b < 0xE000)%N
  then Some ((a - 0xD800) * 1024 + (b - 0xDC00) + 0x10000)%N else None.

(** The character of a one-letter escape. *)
Definition escaped (c : ascii) : option ascii :=
  if Ascii.eqb c quote_char then Some quote_char
  else if Ascii.eqb c backslash then Some backslash
  else if Ascii.eqb c "/" then Some "/"%char
  else if Ascii.eqb c "b" then Some "008"%char
  else if Ascii.eqb c "f" then Some "012"%char
  else if Ascii.eqb c "n" then Some "010"%char
  else if Ascii.eqb c "r" then Some "013"%char
  else if Ascii.eqb c "t" then Some "009"%char
  else None.

(** The UTF-8 sequence at the front of [l], and what follows it. *)
Definition rune_at (l : bytes) : option (bytes * bytes) :=
  match l with
  | [] => None
  | c :: l1 =>
      if byte_in 0 0x7F c then Some ([c], l1) else
      match l1 with
      | [] => None
      | b :: l2 =>
          if rune2 c b then Some ([c; b], l2) else
          match l2 with
          | [] => None
          | d :: l3 =>
              if rune3 c b d then Some ([c; b; d], l3) else
              match l3 with
              | [] => None
              | f :: l4 => if rune4 c b d f then Some ([c; b; d; f], l4) else None
              end
          end
      end
  end.

(** [\u] and four hexadecimal digits. *)
Definition unicode_escape (l : bytes) : option (N * bytes) :=
  match l with
  | b :: u :: l =>
      if Ascii.eqb b backslash && Ascii.eqb u "u" then
        match l with
        | h1 :: h2 :: h3 :: h4 :: r => n ← hex4 h1 h2 h3 h4; Some (n, r)
        | _ => None
        end
      else None
  | _ => None
  end.

(** An escape at the front of [l]; a lone surrogate becomes U+FFFD. *)
Definition escape_at (l : bytes) : option (bytes * bytes) :=
  match unicode_escape l with
  | Some (n, r) =>
      if is_surrogate n then
        match ('(n', r') ← unicode_escape r; x ← surrogate_pair n n'; Some (x, r')) with
        | Some (x, r') => Some (utf8_encode x, r')
        | None => Some (replacement, r)
        end
      else Some (utf8_encode n, r)
  | None => match l with
            | _ :: e :: r => x ← escaped e; Some ([x], r)
            | _ => None
            end
  end.

(** The next piece of a string literal; [None] at its closing quote.  A byte that
    is not UTF-8 becomes U+FFFD. *)
Definition chunk_at (l : bytes) : option (option bytes * bytes) :=
  match l with
  | [] => None
  | c :: l1 =>
      if Ascii.eqb c quote_char then Some (None, l1)
      else if Ascii.eqb c backslash then '(x, r) ← escape_at l; Some (Some x, r)
      else if byte_in 0 0x1F c then None
      else match rune_at l with
           | Some (x, r) => Some (Some x, r)
           | None => Some (Some replacement, l1)
           end
  end.

(** The rest of a string literal, after its opening quote: what it stands for, and
    what follows it.  Every piece is at least one byte long. *)
Fixpoint unquote_fuel (n : nat) (l : bytes) : option (bytes * bytes) :=
  match n with
  | O => None
  | S n =>
      match chunk_at l with
      | None => None
      | Some (None, r) => Some ([], r)
      | Some (Some x, r) => '(s, rest) ← unquote_fuel n r; Some (x ++ s, rest)
      end
  end.
Definition unquote (l : bytes) : option (bytes * bytes) := unquote_fuel (length l) l.

(** ** Values *)

Definition json_space (c : ascii) : bool :=
  Ascii.eqb c " " || Ascii.eqb c "009" || Ascii.eqb c "010" || Ascii.eqb c "013".

Fixpoint skip (l : bytes) : bytes :=
  match l with
  | c :: l' => if json_space c then skip l' else l
  | [] => []
  end.

(** The literal names. *)
Fixpoint expect (w l : bytes) : option bytes :=
  match w, l with
  | [], _ => Some l
  | c :: w, c' :: l => if Ascii.eqb c c' then expect w l else None
  | _, [] => None
  end.

Definition word (s : string) : bytes := String.list_ascii_of_string s.

(** [n] is fuel, [d] how deep arrays and objects may still nest. *)
Fixpoint parse_value (n d : nat) (l : bytes) {struct n} : option (json * bytes) :=
  match n with
  | O => None
  | S n =>
      match skip l with
      | [] => None
      | c :: r =>
          if Ascii.eqb c "{" then
            match d with
            | O => None
            | S d =>
                match skip r with
                | [] => None
                | c' :: r' =>
                    if Ascii.eqb c' "}" then Some (JsObj [], r')
                    else '(ms, r) ← parse_members n d (c' :: r'); Some (JsObj ms, r)
                end
            end
          else if Ascii.eqb c "[" then
            match d with
            | O => None
            | S d =>
                match skip r with
                | [] => None
                | c' :: r' =>
                    if Ascii.eqb c' "]" then Some (JsArr [], r')
                    else '(vs, r) ← parse_elements n d (c' :: r'); Some (JsArr vs, r)
                end
            end
          else if Ascii.eqb c quote_char then '(s, r) ← unquote r; Some (JsStr s, r)
          else if Ascii.eqb c "t" then r ← expect (word "rue") r; Some (JsBool true, r)
          else if Ascii.eqb c "f" then r ← expect (word "alse") r; Some (JsBool false, r)
          else if Ascii.eqb c "n" then r ← expect (word "ull") r; Some (JsNull, r)
          else '(t, r) ← scan_number (c :: r); Some (JsNum t, r)
      end
  end
with parse_members (n d : nat) (l : bytes) {struct n} : option (list (bytes * json) * bytes) :=
  match n with
  | O => None
  | S n =>
      match skip l with
      | [] => None
      | c :: r =>
          if Ascii.eqb c quote_char then
            '(k, r) ← unquote r;
            match skip r with
            | [] => None
            | c :: r =>
                if Ascii.eqb c ":" then
                  '(v, r) ← parse_value n d r;
                  match skip r with
                  | [] => None
                  | c :: r =>
                      if Ascii.eqb c "}" then Some ([(k, v)], r)
                      else if Ascii.eqb c "," then
                        '(ms, r) ← parse_members n d r; Some ((k, v) :: ms, r)
                      else None
                  end
                else None
            end
          else None
      end
  end
with parse_elements (n d : nat) (l : bytes) {struct n} : option (list json * bytes) :=
  match n with
  | O => None
  | S n =>
      '(v, r) ← parse_value n d l;
      match skip r with
      | [] => None
      | c :: r =>
          if Ascii.eqb c "]" then Some ([v], r)
          else if Ascii.eqb c "," then '(vs, r) ← parse_elements n d r; Some (v :: vs, r)
          else None
      end
  end.

(** The deepest nesting the scanner allows. *)
Definition maxNestingDepth : nat := Z.to_nat 10000.

(** The value at the front of [l], and what follows it. *)
Definition read_value (l : bytes) : option (json * bytes) :=
  parse_value (2 * length l + 1) maxNestingDepth l.

(** A document is one value between white space. *)
Definition parse_document (l : bytes) : option json :=
  '(v, r) ← read_value l; match skip r with [] => Some v | _ => None end.

(** ** Printing *)

Definition hex_digit (n : N) : ascii := ascii_of_N (if (n <? 10)%N then 48 + n else 87 + n)%N.

(** The escape of an ASCII character, HTML-safe as [json.Marshal] writes it. *)
Definition escape (c : ascii) : bytes :=
  let n := N_of_ascii c in
  if Ascii.eqb c quote_char || Ascii.eqb c backslash then [backslash; c]
  else if Ascii.eqb c "008" then [backslash; "b"%char]
  else if Ascii.eqb c "012" then [backslash; "f"%char]
  else if Ascii.eqb c "010" then [backslash; "n"%char]
  else if Ascii.eqb c "013" then [backslash; "r"%char]
  else if Ascii.eqb c "009" then [backslash; "t"%char]
  else if (n <? 32)%N || Ascii.eqb c "<" || Ascii.eqb c ">" || Ascii.eqb c "&"
  then [backslash; "u"%char; "0"%char; "0"%char; hex_digit (n / 16); hex_digit (n mod 16)]
  else [c].

(** U+2028 and U+2029 are escaped too. *)
Definition line_separator (a b c : ascii) : bool :=
  byte_in 0xE2 0xE2 a && byte_in 0x80 0x80 b && byte_in 0xA8 0xA9 c.

Definition print_rune (x : bytes) : bytes :=
  match x with
  | [c] => escape c
  | [a; b; c] =>
      if line_separator a b c
      then word "\u202" ++ [if byte_in 0xA8 0xA8 c then "8"%char else "9"%char]
      else x
  | _ => x
  end.

Fixpoint quote_fuel (n : nat) (l : bytes) : bytes :=
  match n, l with
  | S n, _ :: l1 =>
      match rune_at l with
      | Some (x, r) => print_rune x ++ quote_fuel n r
      | None => word "\ufffd" ++ quote_fuel n l1
      end
  | _, _ => []
  end.
Definition quote_body (l : bytes) : bytes := quote_fuel (length l) l.

Definition quote (l : bytes) : bytes := quote_char :: quote_body l ++ [quote_char].

(** The scalars the program writes. *)
Definition print_scalar (v : json) : bytes :=
  match v with
  | JsNum t => literal_text t
  | JsStr s => quote s
  | JsBool b => word (if b then "true" else "false")
  | _ => word "null"
  end.

(** The members, with white space [pre] before a key and [gap] after a colon. *)
Fixpoint print_members (pre gap : bytes) (ms : list (bytes * json)) : bytes :=
  match ms with
  | [] => []
  | [(k, v)] => pre ++ quote k ++ ":"%char :: gap ++ print_scalar v
  | (k, v) :: ms =>
      pre ++ quote k ++ ":"%char :: gap ++ print_scalar v ++ ","%char :: print_members pre gap ms
  end.

Definition print_object (pre gap post : bytes) (ms : list (bytes * json)) : bytes :=
  "{"%char :: print_members pre gap ms ++ post ++ ["}"%char].

(** [json.Marshal], and [json.MarshalIndent(_, "", "  ")] of an object that is not empty. *)
Definition print_obj : list (bytes * json) → bytes := print_object [] [] [].
Definition print_indented : list (bytes * json) → bytes :=
  print_object ["010"; " "; " "]%char [" "%char] ["010"%char].

Example parse_1 :
  parse_document (word "  {  }  ") = Some (JsObj []) ∧ parse_document (word "{},") = None ∧
  parse_document (word "[1, -2.50e3 ,null,true,[]]") =
    Some (JsArr [JsNum (mkLit false (word "1") None None);
                 JsNum (mkLit true (word "2") (Some (word "50")) (Some (false, word "3")));
                 JsNull; JsBool true; JsArr []]) ∧
  parse_document (word "01") = None ∧ parse_document (word "") = None.
Proof. by vm_compute. Qed.

(** ** Lengths *)

Lemma skip_length l : (length (skip l) ≤ length l)%nat.
Proof. induction l as [|c l IH]; simpl; [done|]. case_match; simpl; lia. Qed.

Lemma skip_cons l c r : skip l = c :: r → (length r < length l)%nat.
Proof. intros E. pose proof (skip_length l) as H. rewrite E in H. simpl in H. lia. Qed.

(** Induction on the suffixes of a list. *)
Lemma bytes_ind (P : bytes → Prop) :
  (∀ l, (∀ l', (length l' < length l)%nat → P l') → P l) → ∀ l, P l.
Proof.
  intros H l. remember (length l) as n eqn:E. revert l E.
  induction (lt_wf n) as [n _ IH]. intros l ->. apply H. eauto.
Qed.

(** A sequence is split off the front. *)
Lemma rune_at_split l x r : rune_at l = Some (x, r) → l = x ++ r ∧ x ≠ [].
Proof.
  unfold rune_at. destruct l as [|c l1]; [done|].
  destruct (byte_in 0 0x7F c); [by intros [= <- <-]|]. destruct l1 as [|b l2]; [done|].
  destruct (rune2 c b); [by intros [= <- <-]|]. destruct l2 as [|d l3]; [done|].
  destruct (rune3 c b d); [by intros [= <- <-]|]. destruct l3 as [|f l4]; [done|].
  destruct (rune4 c b d f); [by intros [= <- <-]|done].
Qed.

Lemma rune_at_length l x r : rune_at l = Some (x, r) → (length r < length l)%nat.
Proof.
  intros (-> & Hx)%rune_at_split. rewrite length_app. destruct x; [done|]. simpl. lia.
Qed.

Lemma unicode_escape_length l n r : unicode_escape l = Some (n, r) → (length r < length l)%nat.
Proof.
  unfold unicode_escape. destruct l as [|b [|u l]]; try done. destruct (_ && _); [|done].
  destruct l as [|h1 [|h2 [|h3 [|h4 l]]]]; try done. destruct (hex4 _ _ _ _); [|done]. intros [= _ <-]. simpl. lia.
Qed.

Lemma escape_at_length l x r : escape_at l = Some (x, r) → (length r < length l)%nat.
Proof.
  unfold escape_at. destruct (unicode_escape l) as [[n r1]|] eqn:E1.
  - apply unicode_escape_length in E1. destruct (is_surrogate n); [|by intros [= _ <-]].
    destruct (unicode_escape r1) as [[n' r2]|] eqn:E2; simpl; [|by intros [= _ <-]].
    apply unicode_escape_length in E2. destruct (surrogate_pair n n'); simpl; intros [= _ <-]; lia.
  - destruct l as [|c [|e l]]; try done. destruct (escaped e); simpl; [|done].
    intros [= _ <-]. lia.
Qed.

Lemma chunk_at_length l o r : chunk_at l = Some (o, r) → (length r < length l)%nat.
Proof.
  unfold chunk_at. destruct l as [|c l1]; [done|].
  destruct (Ascii.eqb c quote_char); [intros [= _ <-]; simpl; lia|].
  destruct (Ascii.eqb c backslash).
  { destruct (escape_at (c :: l1)) as [[x r']|] eqn:E; [|done]. simpl. intros [= _ <-].
    by apply escape_at_length in E. }
  destruct (byte_in 0 0x1F c); [done|].
  destruct (rune_at (c :: l1)) as [[x r']|] eqn:E; intros [= _ <-]; [|simpl; lia].
  by apply rune_at_length in E.
Qed.

Lemma unquote_fuel_enough n l :
  (length l ≤ n)%nat → unquote_fuel n l = unquote l.
Proof.
  unfold unquote. revert n. induction l as [l IH] using bytes_ind. intros n Hn.
  destruct l as [|c l]; [by destruct n|]. destruct n as [|n]; [simpl in Hn; lia|].
  cbn [length unquote_fuel]. destruct (chunk_at (c :: l)) as [[[x|] r]|] eqn:E; [|done..].
  apply chunk_at_length in E. simpl in *.
  rewrite (IH r) by lia. by rewrite <- (IH r ltac:(lia) (length l)) by lia.
Qed.

Lemma unquote_eq l :
  unquote l = match chunk_at l with
              | None => None
              | Some (None, r) => Some ([], r)
              | Some (Some x, r) => '(s, rest) ← unquote r; Some (x ++ s, rest)
              end.
Proof.
  unfold unquote at 1. destruct l as [|c l]; [done|]. cbn [length unquote_fuel].
  destruct (chunk_at (c :: l)) as [[[x|] r]|] eqn:E; [|done..].
  apply chunk_at_length in E. simpl in E. by rewrite unquote_fuel_enough by lia.
Qed.

Lemma unquote_length l s r : unquote l = Some (s, r) → (length r < length l)%nat.
Proof.
  revert s r. induction l as [l IH] using bytes_ind; intros s r. rewrite unquote_eq.
  destruct (chunk_at l) as [[[x|] r1]|] eqn:E; [| |done]; apply chunk_at_length in E.
  - destruct (unquote r1) as [[s' r']|] eqn:E1; [|done]. simpl. intros [= _ <-].
    apply IH in E1; lia.
  - by intros [= _ <-].
Qed.

Lemma quote_fuel_enough n l : (length l ≤ n)%nat → quote_fuel n l = quote_body l.
Proof.
  unfold quote_body. revert n. induction l as [l IH] using bytes_ind. intros n Hn.
  destruct l as [|c l]; [by destruct n|]. destruct n as [|n]; [simpl in Hn; lia|].
  cbn [length quote_fuel]. destruct (rune_at (c :: l)) as [[x r]|] eqn:E; f_equal.
  - apply rune_at_length in E. simpl in *.
    rewrite (IH r) by lia. by rewrite <- (IH r ltac:(lia) (length l)) by lia.
  - apply IH; simpl in *; lia.
Qed.

Lemma quote_body_eq l :
  quote_body l = match l with
                 | [] => []
                 | _ :: l1 => match rune_at l with
                              | Some (x, r) => print_rune x ++ quote_body r
                              | None => word "\ufffd" ++ quote_body l1
                              end
                 end.
Proof.
  unfold quote_body at 1. destruct l as [|c l]; [done|]. cbn [length quote_fuel].
  destruct (rune_at (c :: l)) as [[x r]|] eqn:E; f_equal.
  - apply rune_at_length in E. simpl in E. by rewrite quote_fuel_enough by lia.
Qed.

(** ** Parsing undoes printing *)

Lemma rune_at_app l x r l' : rune_at l = Some (x, r) → rune_at (x ++ l') = Some (x, l').
Proof.
  unfold rune_at. destruct l as [|c l1]; [done|].
  destruct (byte_in 0 0x7F c) eqn:E1; [intros [= <- _]; simpl; by rewrite E1|].
  destruct l1 as [|b l2]; [done|].
  destruct (rune2 c b) eqn:E2; [intros [= <- _]; simpl; by rewrite E1, E2|].
  destruct l2 as [|d l3]; [done|].
  destruct (rune3 c b d) eqn:E3; [intros [= <- _]; simpl; by rewrite E1, E2, E3|].
  destruct l3 as [|f l4]; [done|].
  destruct (rune4 c b d f) eqn:E4; [intros [= <- _]; simpl; by rewrite E1, E2, E3, E4|done].
Qed.

Lemma utf8_bytes_eq l :
  utf8_bytes l = match l with
                 | [] => true
                 | _ => match rune_at l with Some (_, r) => utf8_bytes r | None => false end
                 end.
Proof.
  destruct l as [|c l1]; [done|]. cbn [utf8_bytes rune_at].
  destruct (byte_in 0 0x7F c); [done|]. destruct l1 as [|b l2]; [done|].
  destruct (rune2 c b); [done|]. destruct l2 as [|d l3]; [done|].
  destruct (rune3 c b d); [done|]. destruct l3 as [|f l4]; [done|].
  by destruct (rune4 c b d f).
Qed.

(** A byte that starts no ASCII character is none of the special characters. *)
Lemma high_byte c :
  byte_in 0 0x7F c = false →
  Ascii.eqb c quote_char = false ∧ Ascii.eqb c backslash = false ∧ byte_in 0 0x1F c = false.
Proof. by destruct c as [[] [] [] [] [] [] [] []]. Qed.

Lemma byte_eq n c : (n < 256)%N → byte_in n n c = true → c = ascii_of_N n.
Proof.
  intros Hn Hc%bool_decide_eq_true. rewrite <- (ascii_N_embedding c). f_equal. lia.
Qed.

Lemma byte_in_cases c : byte_in 0xA8 0xA9 c = true → c = ascii_of_N 0xA8 ∨ c = ascii_of_N 0xA9.
Proof.
  intros Hc%bool_decide_eq_true. rewrite <- (ascii_N_embedding c).
  assert (N_of_ascii c = 0xA8 ∨ N_of_ascii c = 0xA9)%N as [-> | ->] by lia; auto.
Qed.

Lemma chunk_at_high c l1 :
  byte_in 0 0x7F c = false →
  chunk_at (c :: l1) = match rune_at (c :: l1) with
                       | Some (x, r) => Some (Some x, r)
                       | None => Some (Some replacement, l1)
                       end.
Proof. intros (Hq & Hb & Hc)%high_byte. unfold chunk_at. by rewrite Hq, Hb, Hc. Qed.

Lemma rune_at_ascii l c x r :
  rune_at l = Some (c :: x, r) → byte_in 0 0x7F c = true ↔ x = [].
Proof.
  unfold rune_at. destruct l as [|c' l1]; [done|].
  destruct (byte_in 0 0x7F c') eqn:E1; [by intros [= <- <- _]|]. destruct l1 as [|b l2]; [done|].
  destruct (rune2 c' b); [intros [= <- <- _]; by rewrite E1|]. destruct l2 as [|d l3]; [done|].
  destruct (rune3 c' b d); [intros [= <- <- _]; by rewrite E1|]. destruct l3 as [|f l4]; [done|].
  destruct (rune4 c' b d f); [intros [= <- <- _]; by rewrite E1|done].
Qed.

(** One rune, printed, is read back. *)
Lemma chunk_at_print l x r l' :
  rune_at l = Some (x, r) → chunk_at (print_rune x ++ l') = Some (Some x, l').
Proof.
  intros Hx. pose proof (rune_at_app l x r l' Hx) as Hl'.
  destruct (rune_at_split l x r Hx) as [-> Hne]. destruct x as [|c x]; [done|].
  destruct (byte_in 0 0x7F c) eqn:Hc.
  - apply (rune_at_ascii _ _ _ _ Hx) in Hc as Hn. subst x. simpl. clear Hx Hl' Hne. revert Hc. by destruct c as [[] [] [] [] [] [] [] []].
  - assert (print_rune (c :: x) = c :: x ∨ ∃ b d, x = [b; d] ∧ line_separator c b d = true) as [->|H].
    { destruct x as [|b [|d [|f x]]]; simpl; auto.
      - pose proof (proj2 (rune_at_ascii _ _ _ _ Hx) eq_refl). congruence.
      - destruct (line_separator c b d) eqn:E; eauto 6. }
    + change ((c :: x) ++ l') with (c :: (x ++ l')) in *. rewrite chunk_at_high by done.
      by rewrite Hl'.
    + destruct H as (b & d & -> & Hs). cbn [print_rune]. rewrite Hs. unfold line_separator in Hs.
      rewrite !andb_true_iff in Hs. destruct Hs as [[Ha%byte_eq Hb%byte_eq] Hd%byte_in_cases]; [|done..].
      subst c b. by destruct Hd as [-> | ->].
Qed.

Lemma unquote_quote l rest :
  utf8_bytes l = true → unquote (quote_body l ++ quote_char :: rest) = Some (l, rest).
Proof.
  induction l as [l IH] using bytes_ind. intros Hl. rewrite utf8_bytes_eq in Hl.
  rewrite quote_body_eq. destruct l as [|c l]; [by rewrite unquote_eq|].
  destruct (rune_at (c :: l)) as [[x r]|] eqn:E; [|done].
  rewrite unquote_eq, <- app_assoc, (chunk_at_print _ _ _ _ E).
  rewrite (IH r (rune_at_length _ _ _ E) Hl). simpl.
  by destruct (rune_at_split _ _ _ E) as [-> _].
Qed.

(** ** Decoded strings are valid UTF-8 *)

Lemma byte_in_of lo hi k : (k < 256)%N → byte_in lo hi (ascii_of_N k) = bool_decide (lo ≤ k ≤ hi)%N.
Proof. intros Hk. unfold byte_in. by rewrite N_ascii_embedding. Qed.

(** Decides the comparisons of a goal whose values are bounded in the context. *)
Ltac decide_bytes :=
  rewrite ?byte_in_of by lia;
  repeat match goal with |- context [bool_decide ?P] =>
    first [rewrite (bool_decide_eq_true_2 P) by lia | rewrite (bool_decide_eq_false_2 P) by lia]
  end; simpl; rewrite ?andb_false_r; simpl.

Lemma utf8_encode_valid n s :
  (n < 0x110000)%N → is_surrogate n = false → utf8_bytes (utf8_encode n ++ s) = utf8_bytes s.
Proof.
  intros Hn Hs%bool_decide_eq_false. unfold utf8_encode.
  pose proof (N.div_mod' n 64) as E1. pose proof (N.mod_lt n 64 ltac:(done)) as L1.
  pose proof (N.div_mod' (n / 64) 64) as E2. pose proof (N.mod_lt (n / 64) 64 ltac:(done)) as L2.
  pose proof (N.div_mod' (n / 64 / 64) 64) as E3.
  pose proof (N.mod_lt (n / 64 / 64) 64 ltac:(done)) as L3.
  replace (n / 4096)%N with (n / 64 / 64)%N by by rewrite N.Div0.div_div.
  replace (n / 262144)%N with (n / 64 / 64 / 64)%N by by rewrite !N.Div0.div_div.
  set (r := (n mod 64)%N) in *. set (q := (n / 64)%N) in *.
  set (r2 := (q mod 64)%N) in *. set (q2 := (q / 64)%N) in *.
  set (r3 := (q2 mod 64)%N) in *. set (q3 := (q2 / 64)%N) in *.
  clearbody r q r2 q2 r3 q3.
  destruct (N.ltb_spec n 0x80); [simpl; by decide_bytes|].
  destruct (N.ltb_spec n 0x800); [simpl; unfold rune2; by decide_bytes|].
  destruct (N.ltb_spec n 0x10000).
  - assert (q2 = 0 ∧ 32 ≤ r2 ∨ 1 ≤ q2 ≤ 12 ∨ q2 = 13 ∧ r2 < 32 ∨ 14 ≤ q2 ≤ 15)%N as Hq by lia.
    simpl. unfold rune2, rune3. destruct_or! Hq; by decide_bytes.
  - assert (q3 = 0 ∧ 16 ≤ r3 ∨ 1 ≤ q3 ≤ 3 ∨ q3 = 4 ∧ r3 < 16)%N as Hq by lia.
    simpl. unfold rune2, rune3, rune4. destruct_or! Hq; by decide_bytes.
Qed.

Lemma hex_bound c n : unhex c = Some n → (n < 16)%N.
Proof.
  unfold unhex. cbv zeta. repeat (case_bool_decide; [intros [= <-]; lia|]). done.
Qed.

Lemma hex4_bound a b c d n : hex4 a b c d = Some n → (n < 0x10000)%N.
Proof.
  unfold hex4. destruct (unhex a) as [na|] eqn:Ha; [|done]. destruct (unhex b) as [nb|] eqn:Hb; [|done].
  destruct (unhex c) as [nc|] eqn:Hc; [|done]. destruct (unhex d) as [nd|] eqn:Hd; [|done].
  apply hex_bound in Ha, Hb, Hc, Hd. simpl. intros [= <-]. lia.
Qed.

Lemma unicode_escape_bound l n r : unicode_escape l = Some (n, r) → (n < 0x10000)%N.
Proof.
  unfold unicode_escape. destruct l as [|b [|u l]]; try done. destruct (_ && _); [|done].
  destruct l as [|h1 [|h2 [|h3 [|h4 l]]]]; try done.
  destruct (hex4 _ _ _ _) eqn:E; [|done]. intros [= <- _]. by eapply hex4_bound.
Qed.

Lemma surrogate_pair_bound a b n :
  surrogate_pair a b = Some n → (n < 0x110000)%N ∧ is_surrogate n = false.
Proof.
  unfold surrogate_pair, is_surrogate. destruct (_ && _) eqn:E; [|done].
  apply andb_true_iff in E as [Ha%bool_decide_eq_true Hb%bool_decide_eq_true]. intros [= <-].
  split; [lia|]. apply bool_decide_eq_false. lia.
Qed.

Lemma replacement_valid s : utf8_bytes (replacement ++ s) = utf8_bytes s.
Proof. by apply utf8_encode_valid. Qed.

Lemma ascii_valid c s : byte_in 0 0x7F c = true → utf8_bytes (c :: s) = utf8_bytes s.
Proof. intros Hc. simpl. by rewrite Hc. Qed.

Lemma escaped_valid e x s : escaped e = Some x → utf8_bytes (x :: s) = utf8_bytes s.
Proof.
  unfold escaped. repeat (case_match; [intros [= <-]; by apply ascii_valid|]). done.
Qed.

Lemma escape_at_valid l x r s : escape_at l = Some (x, r) → utf8_bytes (x ++ s) = utf8_bytes s.
Proof.
  unfold escape_at. destruct (unicode_escape l) as [[n r1]|] eqn:E1.
  - apply unicode_escape_bound in E1. destruct (is_surrogate n) eqn:Es.
    + destruct (unicode_escape r1) as [[n' r2]|]; simpl; [|intros [= <- _]; apply replacement_valid].
      destruct (surrogate_pair n n') as [m|] eqn:E; simpl; intros [= <- _]; [|apply replacement_valid].
      apply surrogate_pair_bound in E as [? ?]. by apply utf8_encode_valid.
    + intros [= <- _]. apply utf8_encode_valid; [lia|done].
  - destruct l as [|c [|e l]]; try done. destruct (escaped e) eqn:E; [|done]. simpl.
    intros [= <- _]. by apply (escaped_valid e).
Qed.

Lemma rune_at_valid l x r s : rune_at l = Some (x, r) → utf8_bytes (x ++ s) = utf8_bytes s.
Proof.
  intros Hx. pose proof (rune_at_app l x r s Hx) as E. destruct (rune_at_split _ _ _ Hx) as [_ Hne].
  rewrite utf8_bytes_eq, E. by destruct x.
Qed.

Lemma chunk_at_valid l x r s : chunk_at l = Some (Some x, r) → utf8_bytes (x ++ s) = utf8_bytes s.
Proof.
  unfold chunk_at. destruct l as [|c l]; [done|]. destruct (Ascii.eqb c quote_char); [done|].
  destruct (Ascii.eqb c backslash).
  { destruct (escape_at (c :: l)) as [[x' r']|] eqn:E; [|done]. simpl. intros [= <- _].
    by eapply escape_at_valid. }
  destruct (byte_in 0 0x1F c); [done|].
  destruct (rune_at (c :: l)) as [[x' r']|] eqn:E; intros [= <- _].
  - by eapply rune_at_valid.
  - apply replacement_valid.
Qed.

Lemma unquote_valid l s r : unquote l = Some (s, r) → utf8_bytes s = true.
Proof.
  revert s r. induction l as [l IH] using bytes_ind. intros s r. rewrite unquote_eq.
  destruct (chunk_at l) as [[[x|] r1]|] eqn:E; [|by intros [= <- _]|done].
  destruct (unquote r1) as [[s' r']|] eqn:E1; [|done]. simpl. intros [= <- _].
  rewrite (chunk_at_valid _ _ _ _ E). apply chunk_at_length in E. by apply (IH r1 E s' r').
Qed.

(** ** Objects *)

Definition scalar_wf (v : json) : bool :=
  match v with
  | JsNum t => lit_wf t
  | JsStr s => utf8_bytes s
  | JsNull | JsBool _ => true
  | _ => false
  end.

Lemma skip_non_space c l : json_space c = false → skip (c :: l) = c :: l.
Proof. intros Hc. simpl. by rewrite Hc. Qed.

Lemma digit_no_space c : is_digit c = true → json_space c = false.
Proof. by destruct c as [[] [] [] [] [] [] [] []]. Qed.

(** The head of a printed number. *)
Lemma literal_text_head t l :
  lit_wf t = true → ∃ c r, literal_text t ++ l = c :: r ∧ (c = "-"%char ∨ is_digit c = true).
Proof.
  intros Hwf. unfold lit_wf in Hwf. rewrite !andb_true_iff in Hwf. destruct Hwf as [[[Hi _] _] _].
  destruct (digits_head _ Hi) as (c & d & E & Hc). unfold literal_text. rewrite E.
  destruct (lit_neg t); simpl; eauto 6.
Qed.

Lemma parse_scalar n d v l :
  scalar_wf v = true → stops l = true →
  parse_value (S n) d (print_scalar v ++ l) = Some (v, l).
Proof.
  intros Hv Hl. destruct v as [|b|t|s| |]; try done.
  - by destruct b.
  - destruct (literal_text_head t l Hv) as (c & r & E & Hc). simpl print_scalar.
    pose proof (scan_number_text t l Hv Hl) as Hs. rewrite E in *.
    cbn [parse_value]. rewrite skip_non_space.
    2:{ destruct Hc as [-> | Hc]; [done|by apply digit_no_space]. }
    assert (∀ x, is_digit x = false → x ≠ "-"%char → Ascii.eqb c x = false) as Hne.
    { intros x Hx Hm. destruct Hc as [-> | Hc]; [by apply Ascii.eqb_neq|by apply digit_not]. }
    rewrite !Hne by done. by rewrite Hs.
  - simpl print_scalar. unfold quote. rewrite <- app_comm_cons, <- app_assoc.
    change (parse_value (S n) d (quote_char :: quote_body s ++ [quote_char] ++ l))
      with ('(s, r) ← unquote (quote_body s ++ quote_char :: l); Some (JsStr s, r)).
    by rewrite unquote_quote.
Qed.

Definition spaces (l : bytes) : bool := forallb json_space l.

Lemma skip_app l l' : spaces l = true → skip (l ++ l') = skip l'.
Proof.
  induction l as [|c l IH]; [done|]. simpl. intros [Hc Hl]%andb_true_iff. by rewrite Hc, IH.
Qed.

Lemma parse_value_skip n d pre l :
  spaces pre = true → parse_value (S n) d (pre ++ l) = parse_value (S n) d l.
Proof. intros Hp. cbn [parse_value]. by rewrite skip_app. Qed.

Lemma parse_members_skip n d pre l :
  spaces pre = true → parse_members (S n) d (pre ++ l) = parse_members (S n) d l.
Proof. intros Hp. cbn [parse_members]. by rewrite skip_app. Qed.

(** White space before a punctuation mark. *)
Lemma skip_to pre c l : spaces pre = true → json_space c = false → skip (pre ++ c :: l) = c :: l.
Proof. intros Hp Hc. rewrite skip_app by done. by apply skip_non_space. Qed.

Lemma stops_spaces pre c l :
  spaces pre = true → stops (c :: l) = true → stops (pre ++ c :: l) = true.
Proof.
  destruct pre as [|b pre]; [done|]. simpl. intros [Hb _]%andb_true_iff _.
  by destruct b as [[] [] [] [] [] [] [] []].
Qed.

Section Printed.
Context (pre gap post : bytes).
Context (Hpre : spaces pre = true) (Hgap : spaces gap = true) (Hpost : spaces post = true).
#[local] Set Default Proof Using "Type*".

Lemma parse_member n d k v r :
  utf8_bytes k = true →
  parse_members (S (S n)) d (pre ++ quote k ++ ":"%char :: gap ++ print_scalar v ++ r) =
    '(v, r) ← parse_value (S n) d (print_scalar v ++ r);
    match skip r with
    | [] => None
    | c :: r => if Ascii.eqb c "}" then Some ([(k, v)], r)
                else if Ascii.eqb c ","
                then '(ms, r) ← parse_members (S n) d r; Some ((k, v) :: ms, r)
                else None
    end.
Proof using Hpre Hgap.
  intros Hk. rewrite parse_members_skip by done.
  rewrite <- (parse_value_skip n d gap) by done.
  unfold quote. rewrite <- app_comm_cons, <- app_assoc.
  cbn [parse_members]. rewrite skip_non_space by done.
  change (Ascii.eqb quote_char quote_char) with true. cbv iota.
  change ([quote_char] ++ ":"%char :: gap ++ print_scalar v ++ r)
    with (quote_char :: ":"%char :: gap ++ print_scalar v ++ r).
  rewrite unquote_quote by done. reflexivity.
Qed.

Lemma parse_print_members n d ms l :
  ms ≠ [] → Forall (λ m, utf8_bytes m.1 = true ∧ scalar_wf m.2 = true) ms →
  (length ms < n)%nat →
  parse_members n d (print_members pre gap ms ++ post ++ "}"%char :: l) = Some (ms, l).
Proof.
  intros Hne Hms. revert n. induction Hms as [|[k v] ms [Hk Hv] Hms IH]; intros n Hn; [done|].
  destruct n as [|[|n]]; [simpl in Hn; lia|destruct ms; simpl in Hn; lia|].
  destruct ms as [|m ms]; cbn [print_members];
    repeat (rewrite <- ?app_assoc, <- ?app_comm_cons); rewrite parse_member by done.
  - rewrite parse_scalar by (done || by apply stops_spaces). cbn [mbind option_bind].
    by rewrite skip_to.
  - rewrite parse_scalar by done. cbn [mbind option_bind]. rewrite skip_non_space by done.
    change (Ascii.eqb "," "}") with false. change (Ascii.eqb "," ",") with true. cbv iota.
    rewrite IH by (done || simpl in *; lia). done.
Qed.

Lemma print_members_length ms : (length ms ≤ length (print_members pre gap ms))%nat.
Proof using Type.
  induction ms as [|[k v] ms IH]; [done|]. destruct ms as [|m ms].
  - cbn [print_members]. rewrite !length_app. simpl. lia.
  - change (print_members pre gap ((k, v) :: m :: ms))
      with (pre ++ quote k ++ ":"%char :: gap ++ print_scalar v ++ ","%char :: print_members pre gap (m :: ms)).
    rewrite !length_app. cbn [length] in *. rewrite !length_app. cbn [length] in *. lia.
Qed.

(** Parsing undoes printing, whatever follows the object. *)
Lemma parse_print_object ms l :
  ms ≠ [] → Forall (λ m, utf8_bytes m.1 = true ∧ scalar_wf m.2 = true) ms →
  read_value (print_object pre gap post ms ++ l) = Some (JsObj ms, l).
Proof.
  intros Hne Hms. unfold read_value. pose proof (print_members_length ms) as Hlen.
  assert (∃ n, 2 * length (print_object pre gap post ms ++ l) + 1 = S (S n) ∧ length ms < S n)%nat as (n & -> & Hn).
  { exists (2 * length (print_object pre gap post ms ++ l) - 1)%nat.
    unfold print_object. rewrite <- app_comm_cons. cbn [length]. rewrite !length_app. simpl. lia. }
  unfold print_object. rewrite <- app_comm_cons, <- !app_assoc.
  cbn [parse_value]. rewrite skip_non_space by done.
  change (Ascii.eqb "{" "{") with true. cbv iota.
  destruct maxNestingDepth as [|d] eqn:Ed; [by vm_compute in Ed|].
  change (["}"%char] ++ l) with ("}"%char :: l).
  destruct ms as [|[k v] ms]; [done|].
  assert (∃ r, print_members pre gap ((k, v) :: ms) ++ post ++ "}"%char :: l = pre ++ quote_char :: r) as [r Hr].
  { destruct ms; cbn [print_members]; unfold quote;
      repeat (rewrite <- ?app_assoc, <- ?app_comm_cons); eauto. }
  pose proof (parse_print_members (S n) d ((k, v) :: ms) l ltac:(done) Hms Hn) as Hp.
  rewrite Hr in *. rewrite skip_to by done.
  change (Ascii.eqb quote_char "}") with false. cbv iota.
  rewrite parse_members_skip in Hp by done. by rewrite Hp.
Qed.
End Printed.

Lemma parse_print_obj ms l :
  Forall (λ m, utf8_bytes m.1 = true ∧ scalar_wf m.2 = true) ms →
  read_value (print_obj ms ++ l) = Some (JsObj ms, l).
Proof.
  intros Hms. destruct ms as [|m ms]; [|by apply parse_print_object].
  unfold read_value. rewrite Nat.add_1_r.
  destruct maxNestingDepth as [|d] eqn:Ed; [by vm_compute in Ed|]. done.
Qed.

(** ** The fuel is enough *)

Lemma span_length p l : (length (span p l).2 ≤ length l)%nat.
Proof.
  induction l as [|c l IH]; simpl; [done|]. destruct (p c); [|done].
  destruct (span p l). simpl in *. lia.
Qed.

Lemma scan_digits_length l d r : scan_digits l = Some (d, r) → (length r < length l)%nat.
Proof.
  unfold scan_digits. destruct l as [|c l]; [done|]. simpl. destruct (is_digit c); [|done].
  pose proof (span_length is_digit l). destruct (span is_digit l). intros [= _ <-]. simpl in *. lia.
Qed.

Lemma scan_number_length l t r : scan_number l = Some (t, r) → (length r < length l)%nat.
Proof.
  unfold scan_number. intros H.
  assert (length (scan_sign l).2 ≤ length l)%nat as H1.
  { destruct l as [|c l]; simpl; [done|]. destruct (Ascii.eqb c "-"); simpl; lia. }
  destruct (scan_sign l) as [neg l1]. simpl in H1.
  destruct (scan_int l1) as [[int l2]|] eqn:E2; [|done]. simpl in H.
  assert (length l2 < length l1)%nat as H2.
  { destruct l1 as [|c l1]; [done|]. simpl in E2. destruct (Ascii.eqb c "0").
    - injection E2 as _ ->. simpl. lia.
    - by apply scan_digits_length in E2. }
  destruct (scan_frac l2) as [[f l3]|] eqn:E3; [|done]. simpl in H.
  assert (length l3 ≤ length l2)%nat as H3.
  { destruct l2 as [|c l2]; simpl in E3; [by injection E3 as _ <-|].
    destruct (Ascii.eqb c "."); [|by injection E3 as _ <-].
    destruct (scan_digits l2) as [[d r']|] eqn:Ed; [|done]. injection E3 as _ <-.
    apply scan_digits_length in Ed. simpl. lia. }
  destruct (scan_exp l3) as [[x l4]|] eqn:E4; [|done]. injection H as _ <-.
  assert (length l4 ≤ length l3)%nat as H4; [|lia].
  destruct l3 as [|c l3]; simpl in E4; [by injection E4 as _ <-|].
  destruct (_ || _); [|by injection E4 as _ <-].
  assert (length (scan_exp_sign l3).2 ≤ length l3)%nat as H5.
  { destruct l3 as [|c' l3]; simpl; [done|]. repeat case_match; simpl; lia. }
  destruct (scan_exp_sign l3) as [neg' l5].
  destruct (scan_digits l5) as [[d r']|] eqn:Ed; [|done]. injection E4 as _ <-.
  apply scan_digits_length in Ed. simpl in *. lia.
Qed.

Lemma expect_length w l r : expect w l = Some r → (length r ≤ length l)%nat.
Proof.
  revert l. induction w as [|c w IH]; intros [|c' l]; simpl; try done; try by intros [= <-].
  destruct (Ascii.eqb c c'); [|done]. intros H%IH. lia.
Qed.

(** What a parser leaves is shorter than what it was given. *)
Definition shrinks {A} (p : bytes → option (A * bytes)) : Prop :=
  ∀ l a r, p l = Some (a, r) → (length r < length l)%nat.

Lemma parse_shrinks n :
  (∀ d, shrinks (parse_value n d)) ∧ (∀ d, shrinks (parse_members n d)) ∧
  (∀ d, shrinks (parse_elements n d)).
Proof.
  induction n as [|n (IHv & IHm & IHe)]; [done|]. split_and!; intros d l a r0 H.
  - cbn [parse_value] in H. destruct (skip l) as [|c r] eqn:Es; [done|]. apply skip_cons in Es.
    destruct (Ascii.eqb c "{"); [|destruct (Ascii.eqb c "[")].
    1-2: destruct d as [|d]; [done|]; destruct (skip r) as [|c' r'] eqn:Es'; [done|];
      assert (length (c' :: r') ≤ length r)%nat by (rewrite <- Es'; apply skip_length);
      (destruct (Ascii.eqb c' _); [injection H as _ <-; simpl in *; lia|]).
    + destruct (parse_members n d (c' :: r')) as [[ms r2]|] eqn:E; [|done].
      injection H as _ <-. apply IHm in E. lia.
    + destruct (parse_elements n d (c' :: r')) as [[ms r2]|] eqn:E; [|done].
      injection H as _ <-. apply IHe in E. lia.
    + destruct (Ascii.eqb c quote_char).
      { destruct (unquote r) as [[s r2]|] eqn:E; [|done]. injection H as _ <-.
        apply unquote_length in E. lia. }
      do 3 (destruct (Ascii.eqb c _); [destruct (expect _ r) as [r2|] eqn:E; [|done];
        injection H as _ <-; apply expect_length in E; lia|]).
      destruct (scan_number (c :: r)) as [[t r2]|] eqn:E; [|done]. injection H as _ <-.
      apply scan_number_length in E. simpl in *. lia.
  - cbn [parse_members] in H. destruct (skip l) as [|c r] eqn:Es; [done|]. apply skip_cons in Es.
    destruct (Ascii.eqb c quote_char); [|done].
    destruct (unquote r) as [[k r1]|] eqn:Eu; [|done]. apply unquote_length in Eu. cbn in H.
    destruct (skip r1) as [|c1 r2] eqn:Es1; [done|]. apply skip_cons in Es1.
    destruct (Ascii.eqb c1 ":"); [|done].
    destruct (parse_value n d r2) as [[v r3]|] eqn:Ev; [|done]. apply IHv in Ev. cbn in H.
    destruct (skip r3) as [|c3 r4] eqn:Es3; [done|]. apply skip_cons in Es3.
    destruct (Ascii.eqb c3 "}"); [injection H as _ <-; lia|].
    destruct (Ascii.eqb c3 ","); [|done].
    destruct (parse_members n d r4) as [[ms r5]|] eqn:Em; [|done]. injection H as _ <-.
    apply IHm in Em. lia.
  - cbn [parse_elements] in H.
    destruct (parse_value n d l) as [[v r3]|] eqn:Ev; [|done]. apply IHv in Ev. cbn in H.
    destruct (skip r3) as [|c3 r4] eqn:Es3; [done|]. apply skip_cons in Es3.
    destruct (Ascii.eqb c3 "]"); [injection H as _ <-; lia|].
    destruct (Ascii.eqb c3 ","); [|done].
    destruct (parse_elements n d r4) as [[vs r5]|] eqn:Em; [|done]. injection H as _ <-.
    apply IHe in Em. lia.
Qed.

(** Two calls per byte are enough: more fuel never changes the result. *)
Lemma parse_fuel l :
  (∀ n n' d, 2 * length l + 1 ≤ n → 2 * length l + 1 ≤ n' → parse_value n d l = parse_value n' d l)%nat ∧
  (∀ n n' d, 2 * length l + 1 ≤ n → 2 * length l + 1 ≤ n' → parse_members n d l = parse_members n' d l)%nat ∧
  (∀ n n' d, 2 * length l + 2 ≤ n → 2 * length l + 2 ≤ n' → parse_elements n d l = parse_elements n' d l)%nat.
Proof.
  induction l as [l IH] using bytes_ind.
  assert (∀ n n' d, 2 * length l + 1 ≤ n → 2 * length l + 1 ≤ n' →
    parse_value n d l = parse_value n' d l)%nat as Hv.
  { intros [|n] [|n'] d Hn Hn'; try lia. cbn [parse_value].
    destruct (skip l) as [|c r] eqn:Es; [done|]. apply skip_cons in Es.
    destruct (Ascii.eqb c "{"); [|destruct (Ascii.eqb c "["); [|done]];
      (destruct d as [|d]; [done|]; destruct (skip r) as [|c' r'] eqn:Es'; [done|];
       assert (length (c' :: r') ≤ length r)%nat by (rewrite <- Es'; apply skip_length);
       destruct (Ascii.eqb c' _); [done|]).
    - destruct (IH (c' :: r')) as (_ & Hm & _); [lia|]. by rewrite (Hm n n') by lia.
    - destruct (IH (c' :: r')) as (_ & _ & He); [lia|]. by rewrite (He n n') by lia. }
  split_and!; [exact Hv|..]; intros [|n] [|n'] d Hn Hn'; try lia.
  - cbn [parse_members]. destruct (skip l) as [|c r] eqn:Es; [done|]. apply skip_cons in Es.
    destruct (Ascii.eqb c quote_char); [|done].
    destruct (unquote r) as [[k r1]|] eqn:Eu; [|done]. apply unquote_length in Eu.
    cbn [mbind option_bind].
    destruct (skip r1) as [|c1 r2] eqn:Es1; [done|]. apply skip_cons in Es1.
    destruct (Ascii.eqb c1 ":"); [|done].
    destruct (IH r2) as (Hv2 & _); [lia|]. rewrite (Hv2 n n') by lia.
    destruct (parse_value n' d r2) as [[v r3]|] eqn:Ev; [|done].
    apply (proj1 (parse_shrinks n')) in Ev. cbn [mbind option_bind].
    destruct (skip r3) as [|c3 r4] eqn:Es3; [done|]. apply skip_cons in Es3.
    destruct (Ascii.eqb c3 "}"); [done|]. destruct (Ascii.eqb c3 ","); [|done].
    destruct (IH r4) as (_ & Hm & _); [lia|]. by rewrite (Hm n n') by lia.
  - cbn [parse_elements]. rewrite (Hv n n') by lia.
    destruct (parse_value n' d l) as [[v r3]|] eqn:Ev; [|done].
    apply (proj1 (parse_shrinks n')) in Ev. cbn [mbind option_bind].
    destruct (skip r3) as [|c3 r4] eqn:Es3; [done|]. apply skip_cons in Es3.
    destruct (Ascii.eqb c3 "]"); [done|]. destruct (Ascii.eqb c3 ","); [|done].
    destruct (IH r4) as (_ & _ & He); [lia|]. by rewrite (He n n') by lia.
Qed.

Lemma read_value_fuel n l :
  (2 * length l + 1 ≤ n)%nat → parse_value n maxNestingDepth l = read_value l.
Proof. intros Hn. by apply (proj1 (parse_fuel l)). Qed.
