(* ===== verification/GoJson.v ===== *)
(** * GoJson: encoding/json on the structs of the program

    The struct tags of types/types.go as [JsonStruct] instances, decoding and
    encoding of the structs over the text format of Json.v, and the proof that
    this codec satisfies [JsonLaws].  Whether decoding fails is modelled; the
    message of the error is left to the package ([JsonMessages]). *)

From S2P Require Import Prelude Float64 GoLib Types Decimal Http Json.
From Stdlib Require Import Ascii.

Local Open Scope Z_scope.

(** ** Field names *)

(** The case folding of a key: ASCII letters, and the two other characters that
    fold to ASCII letters (U+017F to S, U+212A to K).  A key with any other
    character outside ASCII matches no field. *)
Fixpoint fold_name (l : bytes) : bytes :=
  match l with
  | [] => []
  | c :: l1 =>
      if byte_in 97 122 c then ascii_of_N (N_of_ascii c - 32) :: fold_name l1 else
      match l1 with
      | [] => [c]
      | b :: l2 =>
          if byte_in 0xC5 0xC5 c && byte_in 0xBF 0xBF b then "S"%char :: fold_name l2 else
          match l2 with
          | [] => c :: fold_name l1
          | d :: l3 =>
              if byte_in 0xE2 0xE2 c && byte_in 0x84 0x84 b && byte_in 0xAA 0xAA d
              then "K"%char :: fold_name l3 else c :: fold_name l1
          end
      end
  end.

(** The field of a key: an exact match, or else a match up to case. *)
Definition field_of (names : list string) (key : bytes) : option string :=
  match find (λ n, bool_decide (word n = key)) names with
  | Some n => Some n
  | None => find (λ n, bool_decide (fold_name (word n) = fold_name key)) names
  end.

(** ** Structs *)

(** What the reflection of the package sees of a struct type; [set_field] stores a
    value in a field and is [None] when the types do not fit. *)
Class JsonStruct (T : Type) := {
  zero_struct : T;
  field_names : list string;
  set_field : string → json → T → option T
}.

Definition of_bytes (l : bytes) : string := String.string_of_list_ascii l.

(** Storing in a field of type [string], [int64] (or [int]) and [float64]; a
    [null] is ignored. *)
Definition set_string {T} (v : json) (f : string → T) (old : T) : option T :=
  match v with JsStr s => Some (f (of_bytes s)) | JsNull => Some old | _ => None end.
Definition set_int {T} (v : json) (f : Z → T) (old : T) : option T :=
  match v with JsNum t => f <$> lit_int64 t | JsNull => Some old | _ => None end.
Definition set_float {T} (v : json) (f : float64 → T) (old : T) : option T :=
  match v with JsNum t => f <$> lit_float t | JsNull => Some old | _ => None end.

Section Decode.
Context {T : Type} `{JsonStruct T}.

(** Members in order: a later one wins, unknown keys are skipped; one that does
    not fit makes the whole decoding fail. *)
Fixpoint decode_from (o : T) (ms : list (bytes * json)) : option T :=
  match ms with
  | [] => Some o
  | (k, v) :: ms =>
      match field_of field_names k with
      | None => decode_from o ms
      | Some name => match set_field name v o with
                     | Some o => decode_from o ms
                     | None => None
                     end
      end
  end.

Definition decode_struct (v : json) : option T :=
  match v with
  | JsObj ms => decode_from zero_struct ms
  | JsNull => Some zero_struct
  | _ => None
  end.

(** The errors of the package. *)
Class JsonMessages := decode_error : string → error.
Context `{JsonMessages}.

(** [json.Unmarshal] *)
Definition Unmarshal (s : string) : T + error :=
  match parse_document (word s) ≫= decode_struct with
  | Some o => inl o
  | None => inr (decode_error s)
  end.

(** [json.NewDecoder(r).Decode]: one value, whatever follows it; a [null] is only
    known to be complete at the next byte or at the end of the input. *)
Definition Decode (rd : Reader) : T + error :=
  match read_value (word (rd_bytes rd)) with
  | Some (v, rest) =>
      match v, rest, rd_end rd with
      | JsNull, [], Some e => inr e
      | _, _, _ => match decode_struct v with
                   | Some o => inl o
                   | None => inr (decode_error (rd_bytes rd))
                   end
      end
  | None => inr (default (decode_error (rd_bytes rd)) (rd_end rd))
  end.
End Decode.

Arguments JsonMessages : clear implicits.

#[export] Instance OBUData_json : JsonStruct OBUData := {|
  zero_struct := mkOBUData "" 0 0 fzero fzero "";
  field_names := ["event_id"; "produced_at_unix_nano"; "obu_id"; "lat"; "lon"; "payload"];
  set_field name v o :=
    let '(mkOBUData id prod obu lat lon pay) := o in
    if bool_decide (name = "event_id") then set_string v (λ x, mkOBUData x prod obu lat lon pay) o
    else if bool_decide (name = "produced_at_unix_nano")
    then set_int v (λ x, mkOBUData id x obu lat lon pay) o
    else if bool_decide (name = "obu_id") then set_int v (λ x, mkOBUData id prod x lat lon pay) o
    else if bool_decide (name = "lat") then set_float v (λ x, mkOBUData id prod obu x lon pay) o
    else if bool_decide (name = "lon") then set_float v (λ x, mkOBUData id prod obu lat x pay) o
    else set_string v (λ x, mkOBUData id prod obu lat lon x) o
|}.

#[export] Instance Distance_json : JsonStruct Distance := {|
  zero_struct := mkDistance "" 0 fzero 0;
  field_names := ["event_id"; "produced_at_unix_nano"; "value"; "obu_id"];
  set_field name v d :=
    let '(mkDistance id prod val obu) := d in
    if bool_decide (name = "event_id") then set_string v (λ x, mkDistance x prod val obu) d
    else if bool_decide (name = "produced_at_unix_nano")
    then set_int v (λ x, mkDistance id x val obu) d
    else if bool_decide (name = "value") then set_float v (λ x, mkDistance id prod x obu) d
    else set_int v (λ x, mkDistance id prod val x) d
|}.

#[export] Instance Invoice_json : JsonStruct Invoice := {|
  zero_struct := mkInvoice 0 fzero fzero;
  field_names := ["obu_id"; "total_distance"; "amount"];
  set_field name v i :=
    let '(mkInvoice obu total amount) := i in
    if bool_decide (name = "obu_id") then set_int v (λ x, mkInvoice x total amount) i
    else if bool_decide (name = "total_distance")
    then set_float v (λ x, mkInvoice obu x amount) i
    else set_float v (λ x, mkInvoice obu total x) i
|}.

(** ** Encoding *)

Definition js_string (s : string) : json := JsStr (word s).
Definition js_int (z : Z) : json := JsNum (int_lit z).
Definition js_float (x : float64) : json := JsNum (float_lit x).

(** The members in the order of the struct; an empty payload is omitted. *)
Definition members (v : JsonValue) : list (bytes * json) :=
  match v with
  | JMessage k s => [(word k, js_string s)]
  | JInvoice i =>
      [(word "obu_id", js_int (inv_OBUID i)); (word "total_distance", js_float (inv_TotalDist i));
       (word "amount", js_float (inv_Amount i))]
  | JReconciliation r =>
      [(word "event_count", js_int (Count r)); (word "event_id_hash_xor", js_int (XOR r));
       (word "event_id_hash_sum", js_int (Sum r))]
  | JDistance d =>
      [(word "event_id", js_string (d_EventID d));
       (word "produced_at_unix_nano", js_int (d_ProducedAtUnixNano d));
       (word "value", js_float (d_Value d)); (word "obu_id", js_int (d_OBUID d))]
  | JOBUData o =>
      [(word "event_id", js_string (od_EventID o));
       (word "produced_at_unix_nano", js_int (od_ProducedAtUnixNano o));
       (word "obu_id", js_int (od_OBUID o)); (word "lat", js_float (od_Lat o));
       (word "lon", js_float (od_Lon o))]
      ++ (if bool_decide (od_Payload o = "") then [] else [(word "payload", js_string (od_Payload o))])
  | JNull => []
  end.

(** [strconv.FormatFloat(f, 'g', -1, 64)] of the values that cannot be encoded. *)
Definition unsupported (x : float64) : string :=
  match x with
  | S754_infinity true => "-Inf"
  | S754_infinity false => "+Inf"
  | _ => "NaN"
  end.

Definition Marshal (v : JsonValue) : string + error :=
  match find (λ x, negb (is_finite x)) (json_floats v) with
  | Some x => inr (EText ("json: unsupported value: " +:+ unsupported x))
  | None => inl (of_bytes match v with JNull => word "null" | _ => print_obj (members v) end)
  end.

#[export] Instance go_json `{JsonMessages} : JsonCodec := {|
  json_Marshal := Marshal;
  json_Unmarshal_OBUData := Unmarshal;
  json_Decode_Distance := Decode;
  json_Decode_Invoice := Decode
|}.

(** ** Laws *)

Lemma word_of_bytes l : word (of_bytes l) = l.
Proof. apply String.list_ascii_of_string_of_list_ascii. Qed.
Lemma of_bytes_word s : of_bytes (word s) = s.
Proof. apply String.string_of_list_ascii_of_string. Qed.
Lemma word_app s s' : word (s +:+ s') = word s ++ word s'.
Proof. induction s as [|c s IH]; [done|]. simpl. unfold word in *. simpl. by rewrite IH. Qed.

Lemma Marshal_finite v :
  json_finite v = true →
  Marshal v = inl (of_bytes match v with JNull => word "null" | _ => print_obj (members v) end).
Proof.
  intros Hf. unfold Marshal. destruct (find _ _) as [x|] eqn:E; [|done].
  apply find_some in E as [Hin Hx]. unfold json_finite in Hf.
  rewrite forallb_forall in Hf. rewrite (Hf x Hin) in Hx. done.
Qed.

Lemma Marshal_not_finite v : json_finite v = false → ∃ e, Marshal v = inr e.
Proof.
  intros Hf. unfold Marshal. destruct (find _ _) as [x|] eqn:E; [by eauto|].
  assert (json_finite v = true) as Ht; [|congruence].
  apply forallb_forall. intros x Hx. apply (find_none _ _ E) in Hx. by apply negb_false_iff in Hx.
Qed.

Section Step.
Context {T : Type} `{JsonStruct T}.

Lemma decode_step k name v ms o o' :
  field_of field_names k = Some name → set_field name v o = Some o' →
  decode_from o ((k, v) :: ms) = decode_from o' ms.
Proof. intros Hk Hv. simpl. by rewrite Hk, Hv. Qed.
End Step.

Lemma set_string_js {T} s (f : string → T) old : set_string (js_string s) f old = Some (f s).
Proof. simpl. by rewrite of_bytes_word. Qed.
Lemma set_int_js {T} z (f : Z → T) old : in_i64 z → set_int (js_int z) f old = Some (f z).
Proof. intros Hz. simpl. by rewrite lit_int64_int_lit. Qed.
Lemma set_float_js {T} x (f : float64 → T) old :
  is_finite x = true → fvalid x = true → set_float (js_float x) f old = Some (f x).
Proof. intros Hf Hv. simpl. by destruct (float_lit_spec x Hf Hv) as [_ ->]. Qed.

Lemma member_string k s :
  utf8_bytes (word k) = true → utf8_valid s = true →
  utf8_bytes (word k, js_string s).1 = true ∧ scalar_wf (word k, js_string s).2 = true.
Proof. done. Qed.
Lemma member_int k z :
  utf8_bytes (word k) = true → utf8_bytes (word k, js_int z).1 = true ∧ scalar_wf (word k, js_int z).2 = true.
Proof. intros Hk. split; [done|]. apply int_lit_wf. Qed.
Lemma member_float k x :
  utf8_bytes (word k) = true → is_finite x = true → fvalid x = true →
  utf8_bytes (word k, js_float x).1 = true ∧ scalar_wf (word k, js_float x).2 = true.
Proof. intros Hk Hf Hv. split; [done|]. by apply float_lit_spec. Qed.

(** *** Decoding what was encoded *)

Definition wf_members (ms : list (bytes * json)) : Prop :=
  Forall (λ m, utf8_bytes m.1 = true ∧ scalar_wf m.2 = true) ms.

Lemma members_wf_OBUData o :
  utf8_valid (od_EventID o) = true → utf8_valid (od_Payload o) = true →
  json_valid (JOBUData o) = true → json_finite (JOBUData o) = true →
  wf_members (members (JOBUData o)).
Proof.
  intros Hid Hpay Hv Hf. unfold json_valid, json_finite in *. simpl in Hv, Hf.
  rewrite !andb_true_r in *. apply andb_true_iff in Hv as [??], Hf as [??].
  unfold members. apply Forall_app. split.
  - repeat first [apply Forall_cons; split | apply Forall_nil];
      auto using member_string, member_int, member_float.
  - case_bool_decide; repeat first [apply Forall_cons; split | apply Forall_nil];
      auto using member_string, member_int, member_float.
Qed.

Lemma members_wf_Distance d :
  utf8_valid (d_EventID d) = true →
  json_valid (JDistance d) = true → json_finite (JDistance d) = true →
  wf_members (members (JDistance d)).
Proof.
  intros Hid Hv Hf. unfold json_valid, json_finite in *. simpl in Hv, Hf.
  rewrite !andb_true_r in *. unfold members.
  repeat first [apply Forall_cons; split | apply Forall_nil];
      auto using member_string, member_int, member_float.
Qed.

Lemma members_wf_Invoice i :
  json_valid (JInvoice i) = true → json_finite (JInvoice i) = true →
  wf_members (members (JInvoice i)).
Proof.
  intros Hv Hf. unfold json_valid, json_finite in *. simpl in Hv, Hf.
  rewrite !andb_true_r in *. apply andb_true_iff in Hv as [??], Hf as [??]. unfold members.
  repeat first [apply Forall_cons; split | apply Forall_nil];
      auto using member_string, member_int, member_float.
Qed.

(** One member after the other: each sets its field. *)
Ltac decode_member :=
  erewrite decode_step;
  [|vm_compute; reflexivity
   |cbn [set_field OBUData_json Distance_json Invoice_json zero_struct];
    repeat first [rewrite bool_decide_eq_true_2 by done | rewrite bool_decide_eq_false_2 by done];
    first [apply set_string_js | by apply set_int_js | by apply set_float_js]].

Lemma decode_Distance d :
  in_i64 (d_ProducedAtUnixNano d) → in_i64 (d_OBUID d) →
  json_valid (JDistance d) = true → json_finite (JDistance d) = true →
  decode_from zero_struct (members (JDistance d)) = Some d.
Proof.
  intros Hp Ho Hv Hf. unfold json_valid, json_finite in *. simpl in Hv, Hf.
  rewrite !andb_true_r in *. destruct d as [id prod val obu]. simpl in * |-.
  cbn [members app d_EventID d_ProducedAtUnixNano d_Value d_OBUID]. do 4 decode_member. done.
Qed.

Lemma decode_Invoice i :
  in_i64 (inv_OBUID i) → json_valid (JInvoice i) = true → json_finite (JInvoice i) = true →
  decode_from zero_struct (members (JInvoice i)) = Some i.
Proof.
  intros Ho Hv Hf. unfold json_valid, json_finite in *. simpl in Hv, Hf.
  rewrite !andb_true_r in *. apply andb_true_iff in Hv as [??], Hf as [??].
  destruct i as [obu total amount]. simpl in * |-.
  cbn [members inv_OBUID inv_TotalDist inv_Amount]. do 3 decode_member. done.
Qed.

Lemma decode_OBUData o :
  in_i64 (od_ProducedAtUnixNano o) → in_i64 (od_OBUID o) →
  json_valid (JOBUData o) = true → json_finite (JOBUData o) = true →
  decode_from zero_struct (members (JOBUData o)) = Some o.
Proof.
  intros Hp Ho Hv Hf. unfold json_valid, json_finite in *. simpl in Hv, Hf.
  rewrite !andb_true_r in *. apply andb_true_iff in Hv as [??], Hf as [??].
  destruct o as [id prod obu lat lon pay]. simpl in * |-.
  cbn [members app od_EventID od_ProducedAtUnixNano od_OBUID od_Lat od_Lon od_Payload].
  do 5 decode_member. case_bool_decide as E; [by subst|]. by decode_member.
Qed.

(** *** The laws *)

(** The strings of a parsed value are valid UTF-8. *)
Definition str_ok (v : json) : Prop :=
  match v with
  | JsStr s => utf8_bytes s = true
  | JsObj ms => Forall (λ m, match m.2 with JsStr s => utf8_bytes s = true | _ => True end) ms
  | _ => True
  end.

Lemma parse_str_ok n :
  (∀ d l v r, parse_value n d l = Some (v, r) → str_ok v) ∧
  (∀ d l ms r, parse_members n d l = Some (ms, r) → str_ok (JsObj ms)).
Proof.
  induction n as [|n [IHv IHm]]; [done|]. split; intros d l a r0 H; cbn [parse_value parse_members] in H;
    destruct (skip l) as [|c r]; try done.
  - destruct (Ascii.eqb c "{").
    { destruct d as [|d]; [done|]. destruct (skip r) as [|c' r']; [done|].
      destruct (Ascii.eqb c' "}"); [by injection H as <- _; constructor|].
      apply bind_Some in H as ([ms r1] & H & [= <- _]). by eapply IHm. }
    destruct (Ascii.eqb c "[").
    { destruct d as [|d]; [done|]. destruct (skip r) as [|c' r']; [done|].
      destruct (Ascii.eqb c' "]"); [by injection H as <- _|].
      by apply bind_Some in H as ([ms r1] & H & [= <- _]). }
    destruct (Ascii.eqb c quote_char).
    { apply bind_Some in H as ([s r1] & H & [= <- _]). by eapply unquote_valid. }
    destruct (Ascii.eqb c "t"); [by apply bind_Some in H as (r1 & _ & [= <- _])|].
    destruct (Ascii.eqb c "f"); [by apply bind_Some in H as (r1 & _ & [= <- _])|].
    destruct (Ascii.eqb c "n"); [by apply bind_Some in H as (r1 & _ & [= <- _])|].
    by apply bind_Some in H as ([t r1] & _ & [= <- _]).
  - destruct (Ascii.eqb c quote_char); [|done].
    apply bind_Some in H as ([k r1] & _ & H). destruct (skip r1) as [|c2 r2]; [done|].
    destruct (Ascii.eqb c2 ":"); [|done].
    apply bind_Some in H as ([v r3] & Hv%IHv & H).
    assert (match v with JsStr s => utf8_bytes s = true | _ => True end) as Hv' by by destruct v.
    destruct (skip r3) as [|c4 r4]; [done|].
    destruct (Ascii.eqb c4 "}"); [injection H as <- _; by repeat constructor|].
    destruct (Ascii.eqb c4 ","); [|done].
    apply bind_Some in H as ([ms r5] & H%IHm & [= <- _]). by constructor.
Qed.

Definition scalar_ok (v : json) : Prop :=
  match v with JsStr s => utf8_bytes s = true | _ => True end.

Section Setters.
Context {T : Type} (P : T → Prop) (v : json) (old new : T).

Lemma set_string_inv (f : string → T) :
  scalar_ok v → P old → (∀ s, utf8_valid s = true → P (f s)) →
  set_string v f old = Some new → P new.
Proof.
  intros Hv Ho Hf. destruct v; simpl; try done; intros [= <-]; [done|].
  apply Hf. unfold utf8_valid. change (utf8_bytes (word (of_bytes s)) = true).
  by rewrite word_of_bytes.
Qed.

Lemma set_int_inv (f : Z → T) :
  P old → (∀ z, in_i64 z → P (f z)) → set_int v f old = Some new → P new.
Proof.
  intros Ho Hf. destruct v; simpl; try done; [by intros [= <-]|].
  intros (z & H & ->)%fmap_Some. apply Hf. revert H. unfold lit_int64. cbv zeta.
  destruct (lit_frac t), (lit_exp t); try done. case_bool_decide; [|done]. by intros [= <-].
Qed.

Lemma set_float_inv (f : float64 → T) :
  P old → (∀ x, is_finite x = true → fvalid x = true → P (f x)) →
  set_float v f old = Some new → P new.
Proof.
  intros Ho Hf. destruct v; simpl; try done; [by intros [= <-]|].
  intros (x & [??]%lit_float_valid & ->)%fmap_Some. by apply Hf.
Qed.
End Setters.

Lemma decodable_spec o :
  decodable o = true ↔
  utf8_valid (od_EventID o) = true ∧ utf8_valid (od_Payload o) = true ∧
  in_i64 (od_ProducedAtUnixNano o) ∧ in_i64 (od_OBUID o) ∧
  (fvalid (od_Lat o) = true ∧ fvalid (od_Lon o) = true) ∧
  is_finite (od_Lat o) = true ∧ is_finite (od_Lon o) = true.
Proof.
  unfold decodable, json_valid, json_finite. simpl.
  rewrite !andb_true_r, !andb_true_iff, !bool_decide_eq_true. tauto.
Qed.

Lemma set_OBUData_ok name v o o' :
  scalar_ok v → decodable o = true → set_field name v o = Some o' → decodable o' = true.
Proof.
  intros Hv Ho. pose proof Ho as Hp. rewrite decodable_spec in Hp.
  destruct o as [id prod obu lat lon pay]. simpl in Hp. destruct Hp as (?&?&?&?&[??]&?&?).
  cbn [set_field OBUData_json]. repeat case_bool_decide; intros Hset; pattern o'.
  all: first [ eapply set_string_inv, Hset; [done..|]
          | eapply set_int_inv, Hset; [done|]
          | eapply set_float_inv, Hset; [done|] ].
  all: intros; rewrite decodable_spec; split_and!; done.
Qed.

Lemma decode_OBUData_ok ms o o' :
  Forall (λ m, scalar_ok m.2) ms → decodable o = true → decode_from o ms = Some o' →
  decodable o' = true.
Proof.
  intros Hms. revert o. induction Hms as [|[k v] ms Hv Hms IH]; intros o Ho; simpl;
    [by intros [= <-]|].
  destruct (field_of _ k) as [name|]; [|by apply IH].
  pose proof (set_OBUData_ok name v o) as Hset. cbn [set_field OBUData_json] in Hset.
  destruct (let '(mkOBUData _ _ _ _ _ _) := o in _) as [o1|]; [|done].
  apply IH. by eapply Hset.
Qed.

Lemma Unmarshal_decodable `{JsonMessages} s o :
  Unmarshal (T:=OBUData) s = inl o → decodable o = true.
Proof.
  unfold Unmarshal. destruct (parse_document (word s)) as [v|] eqn:E; [|done]. simpl.
  destruct (decode_struct v) as [o'|] eqn:Ed; [|done]. intros [= <-].
  unfold parse_document, read_value in E. apply bind_Some in E as ([v' r] & E & Ev).
  apply parse_str_ok in E. destruct (skip r); [|done]. injection Ev as <-.
  destruct v' as [|b|t|s'|l|ms]; try done; [by injection Ed as <-|].
  by apply (decode_OBUData_ok ms zero_struct).
Qed.

Lemma read_print_obj ms post :
  wf_members ms → read_value (word (of_bytes (print_obj ms) +:+ post)) = Some (JsObj ms, word post).
Proof. intros Hms. rewrite word_app, word_of_bytes. by apply parse_print_obj. Qed.

Section Laws.
Context `{JsonMessages}.

Lemma OBUData_roundtrip_space o s post :
  spaces (word post) = true → decodable o = true → Marshal (JOBUData o) = inl s →
  Unmarshal (s +:+ post) = inl o.
Proof.
  intros Hpost Hd. pose proof Hd as Hp. rewrite decodable_spec in Hp.
  destruct Hp as (?&?&?&?&[??]&?&?).
  assert (json_valid (JOBUData o) = true ∧ json_finite (JOBUData o) = true) as [Hv Hf].
  { unfold json_valid, json_finite. simpl. rewrite !andb_true_r, !andb_true_iff. tauto. }
  rewrite Marshal_finite by done. cbv beta iota. intros <-%(inj inl). unfold Unmarshal, parse_document.
  rewrite read_print_obj by by apply members_wf_OBUData.
  cbn [mbind option_bind]. rewrite <- (app_nil_r (word post)), skip_app by done.
  cbn [skip mbind option_bind decode_struct]. by rewrite decode_OBUData.
Qed.

Lemma OBUData_roundtrip o s :
  decodable o = true → Marshal (JOBUData o) = inl s → Unmarshal s = inl o.
Proof. intros. rewrite <- (string_app_nil_r s). by apply OBUData_roundtrip_space. Qed.

Lemma Distance_roundtrip d s :
  utf8_valid (d_EventID d) = true → in_i64 (d_ProducedAtUnixNano d) → in_i64 (d_OBUID d) →
  json_valid (JDistance d) = true → Marshal (JDistance d) = inl s →
  Decode (mkReader s None) = inl d.
Proof.
  intros Hid Hp Ho Hv Hm. destruct (json_finite (JDistance d)) eqn:Hf;
    [|apply Marshal_not_finite in Hf as [e He]; by rewrite He in Hm].
  rewrite Marshal_finite in Hm by done. cbv beta iota in Hm. apply (inj inl) in Hm as <-. unfold Decode. cbn [rd_bytes].
  rewrite <- (string_app_nil_r (of_bytes _)), read_print_obj by by apply members_wf_Distance.
  cbn [decode_struct]. by rewrite decode_Distance.
Qed.

Lemma Invoice_roundtrip inv s post :
  in_i64 (inv_OBUID inv) → json_valid (JInvoice inv) = true → Marshal (JInvoice inv) = inl s →
  Decode (mkReader (s +:+ post) None) = inl inv.
Proof.
  intros Ho Hv Hm. destruct (json_finite (JInvoice inv)) eqn:Hf;
    [|apply Marshal_not_finite in Hf as [e He]; by rewrite He in Hm].
  rewrite Marshal_finite in Hm by done. cbv beta iota in Hm. apply (inj inl) in Hm as <-. unfold Decode. cbn [rd_bytes].
  rewrite read_print_obj by by apply members_wf_Invoice.
  cbn [decode_struct]. by rewrite decode_Invoice.
Qed.

#[export] Instance go_json_laws : JsonLaws (H:=go_json).
Proof.
  constructor; cbn [json_Marshal json_Unmarshal_OBUData json_Decode_Distance json_Decode_Invoice go_json].
  - intros v Hv. rewrite Marshal_finite by done. eauto.
  - apply Marshal_not_finite.
  - apply Unmarshal_decodable.
  - apply OBUData_roundtrip.
  - intros o s. by apply OBUData_roundtrip_space.
  - apply Distance_roundtrip.
  - apply Invoice_roundtrip.
  - eexists. reflexivity.
Qed.
End Laws.

(** ** What decoding an event does *)

Definition event_fields : list string := field_names (T:=OBUData).

(** The member has a value of the type of its field; members of other names and
    [null] always fit. *)
Definition fits (m : bytes * json) : bool :=
  match field_of event_fields m.1 with
  | None => true
  | Some name =>
      match m.2 with
      | JsNull => true
      | JsStr _ => bool_decide (name ∈ ["event_id"; "payload"])
      | JsNum t =>
          if bool_decide (name ∈ ["produced_at_unix_nano"; "obu_id"])
          then bool_decide (is_Some (lit_int64 t))
          else if bool_decide (name ∈ ["lat"; "lon"]) then bool_decide (is_Some (lit_float t))
          else false
      | _ => false
      end
  end.

(** The value the members leave in a field: that of the last one that is not
    [null], or the old one. *)
Definition field_value {A} (read : json → option A) (name : string) (old : A)
    (ms : list (bytes * json)) : A :=
  foldl (λ a m, if bool_decide (field_of event_fields m.1 = Some name)
                then default a (read m.2) else a) old ms.

Definition read_string (v : json) : option string :=
  match v with JsStr s => Some (of_bytes s) | _ => None end.
Definition read_int (v : json) : option Z := match v with JsNum t => lit_int64 t | _ => None end.
Definition read_float (v : json) : option float64 :=
  match v with JsNum t => lit_float t | _ => None end.

Definition event_of (o : OBUData) (ms : list (bytes * json)) : OBUData := {|
  od_EventID := field_value read_string "event_id" (od_EventID o) ms;
  od_ProducedAtUnixNano := field_value read_int "produced_at_unix_nano" (od_ProducedAtUnixNano o) ms;
  od_OBUID := field_value read_int "obu_id" (od_OBUID o) ms;
  od_Lat := field_value read_float "lat" (od_Lat o) ms;
  od_Lon := field_value read_float "lon" (od_Lon o) ms;
  od_Payload := field_value read_string "payload" (od_Payload o) ms
|}.

Lemma field_of_in names k n : field_of names k = Some n → n ∈ names.
Proof.
  unfold field_of. destruct (find _ names) as [n'|] eqn:E.
  - intros [= <-]. apply find_some in E as [E _]. by apply list_elem_of_In.
  - intros E'. apply find_some in E' as [E' _]. by apply list_elem_of_In.
Qed.

(** One member: the step of [event_of]. *)
Lemma event_step o m name :
  field_of event_fields m.1 = Some name →
  set_field name m.2 o = if fits m then Some (event_of o [m]) else None.
Proof.
  intros E. pose proof (field_of_in _ _ _ E) as Hin. unfold fits. rewrite E.
  destruct m as [k v], o as [id prod obu lat lon pay]. cbn [fst snd] in *. unfold event_of, field_value.
  cbn [foldl fst snd]. rewrite E. cbn [set_field OBUData_json].
  unfold event_fields in Hin. cbn [field_names OBUData_json] in Hin.
  set_unfold in Hin. destruct_or! Hin; subst name;
    destruct v as [| |t|s| |]; try done; simpl;
    try (by destruct (lit_int64 t)); try (by destruct (lit_float t)).
Qed.

Lemma event_of_cons o m ms : event_of o (m :: ms) = event_of (event_of o [m]) ms.
Proof. done. Qed.

Lemma event_of_other o m : field_of event_fields m.1 = None → event_of o [m] = o.
Proof.
  intros E. destruct o. unfold event_of, field_value. cbn [foldl]. rewrite E. done.
Qed.

Lemma decode_event o ms :
  decode_from o ms = if forallb fits ms then Some (event_of o ms) else None.
Proof.
  revert o. induction ms as [|[k v] ms IH]; intros o; [by destruct o|].
  cbn [decode_from forallb]. change (field_names (T:=OBUData)) with event_fields.
  destruct (field_of event_fields k) as [name|] eqn:E.
  - pose proof (event_step o (k, v) name E) as Hs. cbn [snd] in Hs. rewrite Hs.
    destruct (fits (k, v)); [|done]. rewrite IH, event_of_cons. done.
  - assert (fits (k, v) = true) as -> by (unfold fits; cbn [fst]; by rewrite E).
    by rewrite IH, event_of_cons, event_of_other.
Qed.

(** ** Properties *)

(** Some error message, and the codec with it. *)
Definition plain_messages : JsonMessages := λ _, EText "json: cannot decode".
#[local] Existing Instance plain_messages.
Definition test_codec : JsonCodec := go_json.
Definition encoded (v : JsonValue) : string :=
  match Marshal v with inl s => s | inr _ => "" end.
Definition test_laws : JsonLaws (H:=test_codec) := go_json_laws.

(** C21. What one service writes the next one reads back unchanged: every event,
    distance and invoice with valid strings, 64-bit numbers and finite floats is
    encoded, and decoding the text gives the same value (an invoice also when the
    encoder's newline or anything else follows it). *)
Theorem json_wire_roundtrip `{JsonMessages} :
  (∀ o, decodable o = true →
     ∃ s, Marshal (JOBUData o) = inl s ∧ Unmarshal s = inl o) ∧
  (∀ d, utf8_valid (d_EventID d) = true → in_i64 (d_ProducedAtUnixNano d) → in_i64 (d_OBUID d) →
     json_valid (JDistance d) = true → json_finite (JDistance d) = true →
     ∃ s, Marshal (JDistance d) = inl s ∧ Decode (mkReader s None) = inl d) ∧
  (∀ i post, in_i64 (inv_OBUID i) → json_valid (JInvoice i) = true →
     json_finite (JInvoice i) = true →
     ∃ s, Marshal (JInvoice i) = inl s ∧ Decode (mkReader (s +:+ post) None) = inl i).
Proof.
  split_and!.
  - intros o Ho. assert (json_finite (JOBUData o) = true) as Hf.
    { unfold decodable in Ho. by apply andb_true_iff in Ho as [_ ?]. }
    eexists. split; [by apply Marshal_finite|]. apply OBUData_roundtrip; [done|by apply Marshal_finite].
  - intros d ? ? ? ? Hf. eexists. split; [by apply Marshal_finite|].
    apply Distance_roundtrip; [done..|by apply Marshal_finite].
  - intros i post ? ? Hf. eexists. split; [by apply Marshal_finite|].
    apply Invoice_roundtrip; [done..|by apply Marshal_finite].
Qed.

(** C22. Decoding an event is all or nothing.  An object is refused exactly when
    one of its members has a field's name and a value that is not of the field's
    type, a number that does not fit 64 bits included; nothing is truncated or
    rounded to fit.  Otherwise each field is the value of the last member with
    its name, or the zero value, and the event is well typed. *)
Theorem event_decode_exact `{JsonMessages} (s : string) (ms : list (bytes * json)) :
  parse_document (word s) = Some (JsObj ms) →
  match Unmarshal s with
  | inl o => forallb fits ms = true ∧ o = event_of zero_struct ms ∧ decodable o = true
  | inr _ => forallb fits ms = false
  end.
Proof.
  intros Hs. destruct (Unmarshal s) as [o|e] eqn:E.
  - pose proof (Unmarshal_decodable _ _ E) as Hd. unfold Unmarshal in E. rewrite Hs in E.
    cbn [mbind option_bind decode_struct] in E. rewrite decode_event in E.
    destruct (forallb fits ms); [|done]. by injection E as <-.
  - unfold Unmarshal in E. rewrite Hs in E. cbn [mbind option_bind decode_struct] in E.
    rewrite decode_event in E. by destruct (forallb fits ms).
Qed.

(** Some events. *)
Definition sample_event : OBUData :=
  mkOBUData "1-99-7" 1700000000000000000 20 (f_of_ratio 25 2) (f_of_ratio 1 10) "".

Definition sample_text : string := of_bytes (print_obj (members (JOBUData sample_event))).

Lemma json_wire_roundtrip_witness :
  decodable sample_event = true ∧ Marshal (JOBUData sample_event) = inl sample_text ∧
  Unmarshal sample_text = inl sample_event.
Proof.
  assert (decodable sample_event = true) as Hd by by vm_compute.
  destruct (proj1 json_wire_roundtrip sample_event Hd) as (s & Hs & Hu).
  assert (inl (B:=error) s = inl sample_text) as [= ->] by (rewrite <- Hs; by apply Marshal_finite).
  by split_and!.
Defined.

(** The JSON text of an object with one member. *)
Definition one_member (k v : string) : string :=
  of_bytes (word "{" ++ quote (word k) ++ word (":" +:+ v) ++ word "}").

Lemma event_decode_exact_witness :
  parse_document (word (one_member "obu_id" "9223372036854775808")) =
    Some (JsObj [(word "obu_id", JsNum (mkLit false (word "9223372036854775808") None None))]) ∧
  (∃ e, Unmarshal (T:=OBUData) (one_member "obu_id" "9223372036854775808") = inr e) ∧
  od_OBUID <$> match Unmarshal (T:=OBUData) (one_member "OBU_ID" "4294967297") with
               | inl o => Some o | inr _ => None end = Some 4294967297.
Proof.
  assert (parse_document (word (one_member "obu_id" "9223372036854775808")) =
    Some (JsObj [(word "obu_id", JsNum (mkLit false (word "9223372036854775808") None None))])) as Hp
    by by vm_compute.
  pose proof (event_decode_exact _ _ Hp) as H.
  split_and!; [done| |by vm_compute].
  destruct (Unmarshal _) as [o|e]; [|by exists e]. destruct H as [H _]. exfalso. revert H.
  by vm_compute.
Defined.

(** The text of a distance. *)
Example distance_text :
  Marshal (JDistance (mkDistance "1-99-7" 17 (f_of_ratio 1 10) (-3))) =
  inl (of_bytes (print_obj [(word "event_id", JsStr (word "1-99-7"));
    (word "produced_at_unix_nano", JsNum (mkLit false (word "17") None None));
    (word "value", JsNum (mkLit false (word "0") (Some (word "1")) None));
    (word "obu_id", JsNum (mkLit true (word "3") None None))])).
Proof. by vm_compute. Qed.
