(* ===== verification/Server.v ===== *)
(** * Server: the aggregator's two transports
      (src/aggregator/http.go, src/aggregator/grpc.go, src/aggregator/main.go)

    The HTTP handlers with their instrumentation and routing, the gRPC method
    with its interceptor, the connection gauges, and the proof that both
    transports apply one event with the same effect on the same store.  The
    handlers take any [Aggregator]; [main] passes [Service.service]. *)

From S2P Require Import Prelude Float64 GoLib Types Store Service Http Decimal Json GoJson.

Local Open Scope Z_scope.

Definition m_httpServerDuration : string := "tollify_http_server_request_duration_seconds".
Definition m_httpServerRequests : string := "tollify_http_requests_total".
Definition m_protocolEvents : string := "tollify_aggregator_events_received_total".
Definition m_openConnections : string := "tollify_aggregator_open_connections".
Definition m_grpcServerDuration : string := "tollify_grpc_server_request_duration_seconds".
Definition m_grpcServerRequests : string := "tollify_grpc_requests_total".

(** The RPC library: the code carried by an error, as [status.Code] reads it. *)
Class GrpcStatus := {
  status_Code : option error → Code;
  status_Code_nil : status_Code None = OK;
  status_Code_status c msg : status_Code (Some (EStatus c msg)) = c;
  status_Code_text msg : status_Code (Some (EText msg)) = Unknown
}.

(** ** HTTP *)

Section Http.
Context {S : Type} `{JsonCodec}.

Definition Handler : Type := Request → ResponseWriter → M (Proc S) ResponseWriter.

Implicit Types svc : Aggregator (Proc S).

Definition respond (w : ResponseWriter) (status : Z) (v : JsonValue)
    : M (Proc S) ResponseWriter := mret (writeJson w status v).1.

Definition method_not_allowed (allow : string) (w : ResponseWriter)
    : M (Proc S) ResponseWriter :=
  respond (Header_Set "Allow" allow w) StatusMethodNotAllowed
    (JMessage "Error" "method not allowed").

Definition handleReconciliation svc : Handler := λ r w,
  if bool_decide (Method r ≠ MethodGet) then method_not_allowed MethodGet w
  else rec ← AggReconciliation svc; respond w StatusOK (JReconciliation rec).

Definition handleGetInvoice svc : Handler := λ r w,
  if bool_decide (Method r ≠ MethodGet) then method_not_allowed MethodGet w
  else
    let value := Query_Get (RawQuery r) "obu" in
    if bool_decide (value = "") then
      respond w StatusBadRequest (JMessage "Error" "Missing OBUID")
    else
      match Atoi value with
      | None => respond w StatusBadRequest (JMessage "Error" "Invalid OBU Id")
      | Some obuID =>
          '(invoice, err) ← CalculateInvoice svc obuID;
          match err, invoice with
          | Some e, _ => respond w StatusInternalServerError (JMessage "Error" (Error e))
          | None, Some inv => respond w StatusOK (JInvoice inv)
          | None, None => respond w StatusOK JNull
          end
      end.

Definition handleAggregate svc : Handler := λ r w,
  if bool_decide (Method r ≠ MethodPost) then method_not_allowed MethodPost w
  else
    _ ← emit (Inc m_protocolEvents ["http"]);
    match json_Decode_Distance (MaxBytesReader (Z.shiftl 1 20) (Body r)) with
    | inr e => respond w StatusBadRequest (JMessage "Error" (Error e))
    | inl dist =>
        '(_, err) ← AggregateDistance svc dist;
        match err with
        | Some e =>
            if errors_Is err ErrInvalidDistance
            then respond w StatusBadRequest (JMessage "Error" (Error e))
            else respond w StatusInternalServerError (JMessage "Error" (Error e))
        | None => respond w StatusAccepted (JMessage "Message" "Success")
        end
    end.

(** [statusWriter] remembers the last [WriteHeader]; it starts at 200. *)
Definition sw_status (w : ResponseWriter) : Z := default StatusOK (last (rw_codes w)).

Definition instrumentHTTP (route : string) (next : Handler) : Handler := λ r w,
  start ← Now;
  sw ← next r w;
  took ← Since start;
  _ ← emit (Observe m_httpServerDuration [Method r; route] (Seconds took));
  _ ← emit (Inc m_httpServerRequests ["server"; Method r; route; Itoa (sw_status sw)]);
  mret sw.

(** The routes of the mux; [/metrics] is the Prometheus handler and every
    other path the mux's own not-found handler. *)
Definition newHTTPHandler svc (metrics_handler not_found_handler : Handler) : Handler :=
  λ r w,
  if bool_decide (Path r = "/agg") then instrumentHTTP "aggregate" (handleAggregate svc) r w
  else if bool_decide (Path r = "/invoice") then
    instrumentHTTP "invoice" (handleGetInvoice svc) r w
  else if bool_decide (Path r = "/benchmark/reconciliation") then
    instrumentHTTP "reconciliation" (handleReconciliation svc) r w
  else if bool_decide (Path r = "/metrics") then metrics_handler r w
  else not_found_handler r w.
End Http.

Arguments Handler : clear implicits.

(** ** gRPC *)

Section Grpc.
Context {S : Type}.
Implicit Types svc : Aggregator (Proc S).

(** [GRPCAggregatorServer.Aggregate]; the request's [ObuID] is an [int32],
    which [int(...)] widens. The reply message [None] carries nothing. *)
Definition grpc_distance (req : AggregateRequest) : Distance := {|
  d_OBUID := req_ObuID req;
  d_Value := req_Value req;
  d_EventID := req_EventID req;
  d_ProducedAtUnixNano := req_ProducedAtUnixNano req
|}.

Definition grpc_Aggregate svc (req : AggregateRequest)
    : M (Proc S) (option () * option error) :=
  _ ← emit (Inc m_protocolEvents ["grpc"]);
  '(_, err) ← AggregateDistance svc (grpc_distance req);
  match err with
  | Some e => if errors_Is err ErrInvalidDistance
              then mret (None, Some (EStatus InvalidArgument (Error e)))
              else mret (Some (), err)
  | None => mret (Some (), err)
  end.

Definition grpcMetricsInterceptor `{GrpcStatus} {A} (FullMethod : string)
    (handler : M (Proc S) (A * option error)) : M (Proc S) (A * option error) :=
  start ← Now;
  r ← handler;
  let code := Code_String (status_Code r.2) in
  took ← Since start;
  _ ← emit (Observe m_grpcServerDuration [FullMethod] (Seconds took));
  _ ← emit (Inc m_grpcServerRequests ["server"; FullMethod; code]);
  mret r.

Definition Aggregate_FullMethodName : string := "/Aggregator/Aggregate".

(** The server: the interceptor around the registered method. *)
Definition newGRPCServer `{GrpcStatus} svc (req : AggregateRequest)
    : M (Proc S) (option () * option error) :=
  grpcMetricsInterceptor Aggregate_FullMethodName (grpc_Aggregate svc req).
End Grpc.

(** ** Open connections *)

Inductive ConnState := StateNew | StateActive | StateIdle | StateHijacked | StateClosed.
Inductive ConnStats := ConnBegin | ConnEnd.

(** The [ConnState] hook of [main] and [grpcConnectionStats.HandleConn]. *)
Definition http_ConnState {S} (state : ConnState) : M (Proc S) () :=
  match state with
  | StateNew => emit (Inc m_openConnections ["http"])
  | StateClosed | StateHijacked => emit (Dec m_openConnections ["http"])
  | _ => mret ()
  end.

Definition HandleConn {S} (stat : ConnStats) : M (Proc S) () :=
  match stat with
  | ConnBegin => emit (Inc m_openConnections ["grpc"])
  | ConnEnd => emit (Dec m_openConnections ["grpc"])
  end.

(** ** What the handlers do *)

(** Evaluates a response: the codes and headers it sends. *)
Ltac resp :=
  unfold run, exec, method_not_allowed, respond, mret, M_ret in *; simpl;
  rewrite ?writeJson_codes, ?writeJson_header; simpl.

Section HttpEffects.
Context {S : Type} `{StorerSpec S} `{JsonCodec}.

Lemma respond_status h b status v (p : Proc S) :
  sent_status (run (respond (mkRW h [] b) status v) p) = status.
Proof. unfold run, respond. apply writeJson_fresh_status. Qed.

(** The handler behind [/agg] on a store that holds the ledger [L]. *)
Lemma handleAggregate_step r (p : Proc S) L :
  refines (heap p) L →
  let w := run (handleAggregate service r new_rw) p in
  let p' := exec (handleAggregate service r new_rw) p in
  if bool_decide (Method r ≠ MethodPost) then
    rw_codes w = [StatusMethodNotAllowed] ∧ rw_header w !! "Allow" = Some MethodPost ∧ p' = p
  else match json_Decode_Distance (MaxBytesReader (Z.shiftl 1 20) (Body r)) with
       | inr _ => rw_codes w = [StatusBadRequest] ∧ heap p' = heap p
       | inl d => rw_codes w =
                    [if invalid_distance d then StatusBadRequest else StatusAccepted] ∧
                  refines (heap p') (agg_ledger d L)
       end.
Proof.
  intros Hp. simpl. unfold handleAggregate.
  destruct (bool_decide (Method r ≠ MethodPost)).
  { resp. by simplify_map_eq. }
  unfold run, exec. rewrite !M_bind_eq.
  set (p1 := (emit _ p).2). assert (refines (heap p1) L) as Hp1 by done.
  destruct (json_Decode_Distance _) as [d|e]; [|by resp].
  rewrite !M_bind_eq. destruct (service_step d p1 L Hp1) as [E Hr].
  unfold run, exec in E, Hr.
  destruct (AggregateDistance service d p1) as [[a err] p2]. simpl in *.
  unfold agg_reply in E. destruct (invalid_distance d); simplify_eq/=; by resp.
Qed.

Lemma handleGetInvoice_step r (p : Proc S) L :
  refines (heap p) L →
  let w := run (handleGetInvoice service r new_rw) p in
  let p' := exec (handleGetInvoice service r new_rw) p in
  rw_codes w =
    [if bool_decide (Method r ≠ MethodGet) then StatusMethodNotAllowed
     else match Atoi (Query_Get (RawQuery r) "obu") with
          | None => StatusBadRequest
          | Some id => if l_total L id is Some _ then StatusOK else StatusInternalServerError
          end] ∧
  refines (heap p') L.
Proof.
  intros Hp. simpl. unfold handleGetInvoice.
  destruct (bool_decide (Method r ≠ MethodGet)).
  { by resp. }
  case_bool_decide as Hv.
  { rewrite Hv. by resp. }
  destruct (Atoi _) as [id|]; [|by resp].
  destruct (service_invoice id p L Hp) as (E & Hr & _). unfold run, exec in *.
  rewrite !M_bind_eq. destruct (CalculateInvoice service id p) as [[inv err] p2].
  simpl in *. destruct (l_total L id); simplify_eq/=; by resp.
Qed.

(** The whole reply to a well-formed invoice request. *)
Lemma handleGetInvoice_reply r (p : Proc S) L id :
  refines (heap p) L → Method r = MethodGet →
  Atoi (Query_Get (RawQuery r) "obu") = Some id →
  run (handleGetInvoice service r new_rw) p =
    match l_total L id with
    | Some t => (writeJson new_rw StatusOK (JInvoice (invoice_of id t))).1
    | None => (writeJson new_rw StatusInternalServerError
                 (JMessage "Error" (Error (not_found id)))).1
    end.
Proof.
  intros Hp HM Hid. unfold handleGetInvoice. rewrite HM.
  rewrite bool_decide_eq_false_2 by (by intros []).
  cbv zeta. case_bool_decide as Hv; [by rewrite Hv in Hid|]. rewrite Hid.
  destruct (service_invoice id p L Hp) as (E & _). unfold run in *.
  rewrite (M_bind_eq (CalculateInvoice service id)), E. by destruct (l_total L id).
Qed.

Lemma instrumentHTTP_transparent route (next : Handler S) r w (p : Proc S) :
  let p1 := exec Now p in
  run (instrumentHTTP route next r w) p = run (next r w) p1 ∧
  heap (exec (instrumentHTTP route next r w) p) = heap (exec (next r w) p1).
Proof.
  simpl. unfold run, exec, instrumentHTTP. rewrite !M_bind_eq.
  unfold mret, M_ret. cbn [fst snd]. split; [done|].
  by rewrite !(heap_pure_emit _ _), (heap_pure_Since _ _).
Qed.
End HttpEffects.

Section GrpcEffects.
Context {S : Type} `{StorerSpec S} `{GrpcStatus}.

Lemma grpc_Aggregate_step req (p : Proc S) L :
  refines (heap p) L →
  let d := grpc_distance req in
  run (grpc_Aggregate service req) p =
    (if invalid_distance d then (None, Some (EStatus InvalidArgument (Error err_invalid)))
     else (Some (), None)) ∧
  refines (heap (exec (grpc_Aggregate service req) p)) (agg_ledger d L).
Proof.
  intros Hp d. unfold grpc_Aggregate, run, exec. rewrite !M_bind_eq. fold d.
  set (p1 := (emit _ p).2). assert (refines (heap p1) L) as Hp1 by done.
  destruct (service_step d p1 L Hp1) as [E Hr]. unfold run, exec in E, Hr.
  destruct (AggregateDistance service d p1) as [[a err] p2]. simpl in *.
  unfold agg_reply in E. by destruct (invalid_distance d); simplify_eq/=.
Qed.

Lemma interceptor_transparent {A} name (h : M (Proc S) (A * option error)) p :
  let p1 := exec Now p in
  run (grpcMetricsInterceptor name h) p = run h p1 ∧
  heap (exec (grpcMetricsInterceptor name h) p) = heap (exec h p1).
Proof.
  simpl. unfold run, exec, grpcMetricsInterceptor. rewrite !M_bind_eq.
  unfold mret, M_ret. cbn [fst snd]. split; [done|].
  by rewrite !(heap_pure_emit _ _), (heap_pure_Since _ _).
Qed.
End GrpcEffects.

(** ** The connection gauges *)

(** How net/http calls the hook: a connection is new once, then active or idle
    any number of times, then closed or hijacked once; [conns] holds the
    connections between their first and their last call. *)
Inductive conn_step {S} : gset nat * Proc S → gset nat * Proc S → Prop :=
| conn_new c conns p :
    c ∉ conns →
    conn_step (conns, p) ({[c]} ∪ conns, exec (http_ConnState StateNew) p)
| conn_use c st conns p :
    c ∈ conns → st = StateActive ∨ st = StateIdle →
    conn_step (conns, p) (conns, exec (http_ConnState st) p)
| conn_end c st conns p :
    c ∈ conns → st = StateClosed ∨ st = StateHijacked →
    conn_step (conns, p) (conns ∖ {[c]}, exec (http_ConnState st) p)
| conn_other op conns p :                       (* everything else the process does *)
    op ≠ Inc m_openConnections ["http"] → op ≠ Dec m_openConnections ["http"] →
    conn_step (conns, p) (conns, (emit op p).2).

Lemma size_remove (c : nat) (X : gset nat) : c ∈ X → size X = S (size (X ∖ {[c]})).
Proof.
  intros Hc. assert ({[c]} ⊆ X) as Hs by set_solver.
  pose proof (subseteq_size _ _ Hs) as Hle. rewrite size_singleton in Hle.
  rewrite size_difference, size_singleton by done. lia.
Qed.

Lemma conn_step_gauge {S} (x y : gset nat * Proc S) :
  conn_step x y → gauge m_openConnections ["http"] x.2 = Z.of_nat (size x.1) →
  gauge m_openConnections ["http"] y.2 = Z.of_nat (size y.1).
Proof.
  intros Hs. destruct Hs as [c conns p Hc|c st conns p Hc [-> | ->]
    |c st conns p Hc [-> | ->]|op conns p H1 H2]; cbn [fst snd]; intros Hg;
    unfold exec, http_ConnState; rewrite ?gauge_emit.
  - rewrite Hg, size_union, size_singleton by set_solver. simpl. lia.
  - done.
  - done.
  - rewrite Hg, (size_remove c conns Hc). simpl. lia.
  - rewrite Hg, (size_remove c conns Hc). simpl. lia.
  - rewrite Hg, !bool_decide_eq_false_2 by done. lia.
Qed.

Lemma conn_steps_gauge {S} (x y : gset nat * Proc S) :
  rtc conn_step x y → gauge m_openConnections ["http"] x.2 = Z.of_nat (size x.1) →
  gauge m_openConnections ["http"] y.2 = Z.of_nat (size y.1).
Proof. induction 1; eauto using conn_step_gauge. Qed.

(** ** Properties *)

Section Properties.
Context `{JsonCodec}.

(** The response and the next process for a request to the aggregator. *)
Definition serve_http {S} `{Storer S} (mh nf : Handler S) (r : Request) (p : Proc S)
    : ResponseWriter * Proc S :=
  newHTTPHandler service mh nf r new_rw p.

(** C14. [POST /agg] on every branch: another method gets 405 with the [Allow]
    header, an undecodable body and an invalid event get 400, and these leave
    the ledger alone; a valid event gets 202 and is in the ledger, once, when
    the reply is sent.  The reply is never a 5xx, and the last metric recorded
    is the request counter with the status that was sent. *)
Theorem http_aggregate_correct {S} `{StorerSpec S} (mh nf : Handler S)
    (r : Request) (p : Proc S) (L : Ledger) :
  Path r = "/agg" → refines (heap p) L →
  let '(w, p') := serve_http mh nf r p in
  (Method r ≠ MethodPost →
     sent_status w = 405 ∧ rw_header w !! "Allow" = Some MethodPost ∧
     refines (heap p') L) ∧
  (Method r = MethodPost →
     match json_Decode_Distance (MaxBytesReader (Z.shiftl 1 20) (Body r)) with
     | inr _ => sent_status w = 400 ∧ refines (heap p') L
     | inl d => sent_status w = (if invalid_distance d then 400 else 202) ∧
                refines (heap p') (agg_ledger d L)
     end) ∧
  sent_status w < 500 ∧
  last (metrics p') = Some (Inc m_httpServerRequests
    ["server"; Method r; "aggregate"; Itoa (sent_status w)]).
Proof.
  intros HP Hp. unfold serve_http, newHTTPHandler. rewrite HP. simpl.
  pose proof (instrumentHTTP_transparent "aggregate" (handleAggregate service) r new_rw p)
    as [Hw Hh].
  pose proof (handleAggregate_step r (exec Now p) L Hp) as Hs. simpl in Hs, Hw, Hh.
  rewrite <- Hw, <- Hh in Hs.
  assert (last (metrics (exec (instrumentHTTP "aggregate" (handleAggregate service) r new_rw) p))
    = Some (Inc m_httpServerRequests ["server"; Method r; "aggregate";
        Itoa (sw_status (run (instrumentHTTP "aggregate" (handleAggregate service) r new_rw) p))]))
    as Hl.
  { unfold exec, run, instrumentHTTP. rewrite !M_bind_eq. unfold mret, M_ret.
    cbn [fst snd emit metrics]. by rewrite last_snoc. }
  unfold run, exec in *. destruct (instrumentHTTP _ _ r new_rw p) as [w p']. cbn [fst snd] in *.
  rewrite Hl. unfold sent_status, sw_status.
  case_bool_decide as HM.
  - destruct Hs as (-> & ? & Hpp). split_and!; try done. intros _.
    split_and!; [done|done|]. rewrite Hh, Hpp. done.
  - destruct (json_Decode_Distance _) as [d|e].
    + destruct Hs as [-> ?]. split_and!; try done; by destruct (invalid_distance d).
    + destruct Hs as [-> Hpp]. split_and!; try done. intros _. split; [done|]. by rewrite Hpp.
Qed.

(** C15. The transports are interchangeable: the same event sent by [POST /agg]
    to one aggregator and by gRPC to another that holds the same ledger leaves
    both with the same ledger; HTTP answers 202 exactly when gRPC answers
    without an error, and 400 exactly when gRPC answers [InvalidArgument]. *)
Theorem http_grpc_same_semantics `{GrpcStatus} {S} `{StorerSpec S} (mh nf : Handler S)
    (r : Request) (req : AggregateRequest) (p q : Proc S) (L : Ledger) :
  Path r = "/agg" → Method r = MethodPost →
  json_Decode_Distance (MaxBytesReader (Z.shiftl 1 20) (Body r))
    = inl (grpc_distance req) →
  refines (heap p) L → refines (heap q) L →
  let '(w, p') := serve_http mh nf r p in
  let '((reply, err), q') := newGRPCServer service req q in
  refines (heap p') (agg_ledger (grpc_distance req) L) ∧
  refines (heap q') (agg_ledger (grpc_distance req) L) ∧
  (sent_status w = 202 ↔ err = None) ∧
  (sent_status w = 400 ↔ status_Code err = InvalidArgument).
Proof.
  intros HP HM Hd Hp Hq. unfold serve_http, newHTTPHandler. rewrite HP. simpl.
  pose proof (instrumentHTTP_transparent "aggregate" (handleAggregate service) r new_rw p)
    as [Hw Hh].
  pose proof (handleAggregate_step r (exec Now p) L Hp) as Hs. simpl in Hs, Hw, Hh.
  rewrite <- Hw, <- Hh, HM, Hd in Hs. simpl in Hs.
  pose proof (interceptor_transparent Aggregate_FullMethodName (grpc_Aggregate service req) q)
    as [Gw Gh].
  pose proof (grpc_Aggregate_step req (exec Now q) L Hq) as Gs. simpl in Gs, Gw, Gh.
  rewrite <- Gw, <- Gh in Gs. unfold newGRPCServer, run, exec in *.
  destruct (instrumentHTTP _ _ r new_rw p) as [w p'].
  destruct (grpcMetricsInterceptor _ _ q) as [[reply err] q']. cbn [fst snd] in *.
  destruct Hs as [Hs ?], Gs as [Gs ?]. split_and!; [done|done|..];
    unfold sent_status; rewrite Hs; simpl;
    destruct (invalid_distance _); simplify_eq/=;
    rewrite ?status_Code_status, ?status_Code_nil; naive_solver.
Qed.

(** [GET /invoice] on every branch: 405 for another method, 400 for a
    missing or non-numeric [obu], 500 for a vehicle without events, 200
    otherwise; none of them changes the ledger. *)
Theorem http_invoice_correct {S} `{StorerSpec S} (mh nf : Handler S)
    (r : Request) (p : Proc S) (L : Ledger) :
  Path r = "/invoice" → refines (heap p) L →
  let '(w, p') := serve_http mh nf r p in
  sent_status w =
    (if bool_decide (Method r ≠ MethodGet) then 405
     else match Atoi (Query_Get (RawQuery r) "obu") with
          | None => 400
          | Some id => if bool_decide (id ∈ d_OBUID <$> L) then 200 else 500
          end) ∧
  refines (heap p') L.
Proof.
  intros HP Hp. unfold serve_http, newHTTPHandler. rewrite HP. simpl.
  pose proof (instrumentHTTP_transparent "invoice" (handleGetInvoice service) r new_rw p)
    as [Hw Hh].
  pose proof (handleGetInvoice_step r (exec Now p) L Hp) as [Hc Hr]. simpl in Hw, Hh.
  rewrite <- Hw in Hc. rewrite <- Hh in Hr. unfold run, exec in *.
  destruct (instrumentHTTP _ _ r new_rw p) as [w p']. cbn [fst snd] in *.
  split; [|done]. unfold sent_status. rewrite Hc. simpl.
  case_match; [done|]. destruct (Atoi _) as [id|]; [|done].
  by rewrite (l_total_is_Some L id); destruct (l_total L id).
Qed.

(** C31. The gauge of open HTTP connections is the number of open connections:
    whatever the connections and the rest of the process do, it is never
    negative and it returns to zero when the last connection ends. *)
Theorem open_connections_gauge {S} (h : S) (clk : nat → Instant)
    (conns : gset nat) (p : Proc S) :
  rtc conn_step (∅, mkProc h [] clk 0) (conns, p) →
  gauge m_openConnections ["http"] p = Z.of_nat (size conns).
Proof.
  intros Hrtc. apply (conn_steps_gauge _ _ Hrtc). by vm_compute.
Qed.
End Properties.

(** ** Instances used by the witnesses *)

Definition toy_status : GrpcStatus := {|
  status_Code err := match err with
                     | None => OK | Some (EStatus c _) => c | Some _ => Unknown
                     end;
  status_Code_nil := eq_refl;
  status_Code_status c msg := eq_refl;
  status_Code_text msg := eq_refl
|}.

Definition toy_handler {S} : Handler S := λ r w, mret w.

Lemma http_aggregate_correct_witness :
  let r := mkRequest "POST" "/agg" "" (encoded (JDistance (test_distance "e" 3 5))) in
  let '(w, p') := serve_http (H:=test_codec) toy_handler toy_handler r (new_process test_clock) in
  Path r = "/agg" ∧ refines (S:=MemoryStore) (heap (new_process test_clock)) [] ∧
  sent_status w = 202 ∧ refines (heap p') [test_distance "e" 3 5].
Proof.
  intros r.
  pose proof (http_aggregate_correct (H:=test_codec) toy_handler toy_handler r
    (new_process test_clock) [] eq_refl refines_new) as Hw.
  destruct (serve_http _ _ r _) as [w p']. destruct Hw as (_ & Hw & _).
  specialize (Hw eq_refl).
  assert (json_Decode_Distance (JsonCodec:=test_codec)
    (MaxBytesReader (Z.shiftl 1 20) (Body r)) = inl (test_distance "e" 3 5)) as Hd
    by by vm_compute.
  rewrite Hd in Hw. destruct Hw as [Hw Hl].
  split_and!; [done|apply refines_new|exact Hw|exact Hl].
Defined.

Lemma http_grpc_same_semantics_witness :
  let r := mkRequest "POST" "/agg" "" (encoded (JDistance (test_distance "e" 3 5))) in
  let req := mkReq 3 (f_of_Z 5) 7 "e" in
  let p := new_process test_clock in
  let '((reply, err), q') := newGRPCServer (H:=toy_status) service req p in
  json_Decode_Distance (JsonCodec:=test_codec)
    (MaxBytesReader (Z.shiftl 1 20) (Body r)) = inl (grpc_distance req) ∧
  refines (S:=MemoryStore) (heap p) [] ∧
  refines (heap q') [test_distance "e" 3 5].
Proof.
  intros r req p.
  assert (json_Decode_Distance (JsonCodec:=test_codec)
    (MaxBytesReader (Z.shiftl 1 20) (Body r)) = inl (grpc_distance req)) as Hd
    by by vm_compute.
  pose proof (http_grpc_same_semantics (H:=test_codec) (H0:=toy_status) toy_handler toy_handler
    r req p p [] eq_refl eq_refl Hd refines_new refines_new) as Hw.
  destruct (serve_http _ _ r p) as [w p']. destruct (newGRPCServer _ req p) as [[reply err] q'].
  destruct Hw as (_ & Hw & _). split_and!; [done|apply refines_new|apply Hw].
Defined.

Lemma http_invoice_correct_witness :
  let r := mkRequest "GET" "/invoice" "obu=9" "" in
  let '(w, p') := serve_http (H:=test_codec) toy_handler toy_handler r (new_process test_clock) in
  Path r = "/invoice" ∧ refines (S:=MemoryStore) (heap (new_process test_clock)) [] ∧
  sent_status w = 500.
Proof.
  intros r.
  pose proof (http_invoice_correct (H:=test_codec) toy_handler toy_handler r
    (new_process test_clock) [] eq_refl refines_new) as Hw.
  destruct (serve_http _ _ r _) as [w p']. destruct Hw as [Hw _].
  split_and!; [done|apply refines_new|]. rewrite Hw. by vm_compute.
Defined.

Lemma open_connections_gauge_witness :
  let p0 := mkProc () [] test_clock 0 in
  let p1 := exec (http_ConnState StateNew) p0 in
  rtc conn_step (∅, p0) ({[1%nat]} ∪ ∅, p1) ∧
  gauge m_openConnections ["http"] p1 = Z.of_nat (size ({[1%nat]} ∪ ∅ : gset nat)).
Proof.
  intros p0 p1.
  assert (rtc conn_step (∅, p0) ({[1%nat]} ∪ ∅, p1)) as Hr.
  { apply rtc_once, conn_new. set_solver. }
  split; [done|]. apply (open_connections_gauge () test_clock _ _ Hr).
Defined.
