(* ===== verification/Calculator.v ===== *)
(** * Calculator: the distance service of the calculator
      (src/dist-calc/service.go, src/dist-calc/middleware.go)

    [CalcService] keeps the last point of every vehicle and the distance of
    every event id it has seen.  Its specification is a history: the list of the
    events that were calculated (not answered from the cache), oldest first.
    [CalculateDist] holds the mutex throughout, so concurrent callers execute
    whole calls one after the other. *)

From S2P Require Import Prelude Float64 GoLib Types.

Local Open Scope Z_scope.

(** ** The service *)

Record CalculatorServicer (W : Type) := mkCalculator {
  CalculateDist : OBUData → M W (float64 * option error)
}.
Arguments mkCalculator {W}. Arguments CalculateDist {W}.

Record Point := mkPoint { Lat : float64; Lon : float64 }.

Definition calcDist (x1 y1 x2 y2 : float64) : float64 :=
  math_Sqrt (fadd (math_Pow2 (fsub x2 x1)) (math_Pow2 (fsub y2 y1))).

Module CalcService.

Record CalcService := mkCalcService {
  prevPoints : gmap Z Point;
  results : gmap string float64
}.

Definition NewCalcService : CalcService := mkCalcService ∅ ∅.

(** The part of [CalculateDist] after the cache lookup. *)
Definition calculate (data : OBUData) (s : CalcService)
    : (float64 * option error) * CalcService :=
  let dist := match prevPoints s !! od_OBUID data with
              | Some previous => calcDist (Lat previous) (Lon previous) (od_Lat data) (od_Lon data)
              | None => fzero
              end in
  let prevPoints' := <[od_OBUID data := mkPoint (od_Lat data) (od_Lon data)]> (prevPoints s) in
  let results' := if bool_decide (od_EventID data ≠ "")
                  then <[od_EventID data := dist]> (results s) else results s in
  ((dist, None), mkCalcService prevPoints' results').

Definition CalculateDist (data : OBUData) (s : CalcService)
    : (float64 * option error) * CalcService :=
  if bool_decide (od_EventID data ≠ "") then
    match results s !! od_EventID data with
    | Some dist => ((dist, None), s)
    | None => calculate data s
    end
  else calculate data s.

End CalcService.

Abbreviation CalcService := CalcService.CalcService (only parsing).
Abbreviation NewCalcService := CalcService.NewCalcService (only parsing).

Definition CalcServicer : CalculatorServicer (Proc CalcService) :=
  {| CalculateDist data := lift (CalcService.CalculateDist data) |}.

(** The log lines are not modelled; the clock is read as the code reads it. *)
Definition NewLogMiddleware {S} (next : CalculatorServicer (Proc S)) : CalculatorServicer (Proc S) :=
  {| CalculateDist data :=
       start ← Now; r ← CalculateDist next data; _ ← Since start; mret r |}.

(** ** The specification *)

Abbreviation History := (list OBUData) (only parsing).

(** The latest event of a vehicle. *)
Definition h_last (H : History) (obu : Z) : option OBUData :=
  last (filter (λ e, od_OBUID e = obu) H).

(** The distance of a new event after the history [H]: from the previous point
    of the same vehicle, zero for its first point. *)
Definition h_dist (H : History) (e : OBUData) : float64 :=
  match h_last H (od_OBUID e) with
  | Some p => calcDist (od_Lat p) (od_Lon p) (od_Lat e) (od_Lon e)
  | None => fzero
  end.

(** An event of the history with this (non-empty) id, and its distance. *)
Definition h_result (H : History) (id : string) (v : float64) : Prop :=
  ∃ H1 e H2, H = H1 ++ e :: H2 ∧ od_EventID e = id ∧ v = h_dist H1 e.

Definition h_known (e : OBUData) (H : History) : bool :=
  bool_decide (od_EventID e ≠ "" ∧ od_EventID e ∈ od_EventID <$> H).

Definition h_step (H : History) (e : OBUData) : History :=
  if h_known e H then H else H ++ [e].

Definition calc_refines (s : CalcService) (H : History) : Prop :=
  (∀ obu, CalcService.prevPoints s !! obu =
     (λ e, mkPoint (od_Lat e) (od_Lon e)) <$> h_last H obu) ∧
  (∀ id, is_Some (CalcService.results s !! id) ↔ id ≠ "" ∧ id ∈ od_EventID <$> H) ∧
  (∀ id v, CalcService.results s !! id = Some v → h_result H id v).

(** ** Distances *)

(** Finite coordinates give a distance that is not NaN and not negative
    (it can overflow to +Inf). *)
Lemma calcDist_nneg x1 y1 x2 y2 :
  is_finite x1 → is_finite y1 → is_finite x2 → is_finite y2 → nneg (calcDist x1 y1 x2 y2).
Proof.
  intros. unfold calcDist.
  apply math_Sqrt_nneg, fadd_nneg; apply math_Pow2_nneg; by apply fsub_is_NaN.
Qed.

Lemma Pow2_fsub_sym x y : is_finite x → is_finite y → math_Pow2 (fsub x y) = math_Pow2 (fsub y x).
Proof.
  intros Hx Hy. destruct (fsub_opp x y Hx Hy) as [->|(s & s' & -> & ->)]; [|done].
  apply math_Pow2_opp.
Qed.

Lemma fsub_diag x : is_finite x → fsub x x = fzero.
Proof.
  destruct x as [[]|[]| |s m e]; try done. intros _. unfold fsub, SFsub.
  by rewrite Z.sub_diag.
Qed.

(** ** Refinement *)

Lemma h_last_snoc H e obu :
  h_last (H ++ [e]) obu = if bool_decide (od_OBUID e = obu) then Some e else h_last H obu.
Proof.
  unfold h_last. rewrite filter_app, filter_cons. destruct (decide (od_OBUID e = obu)).
  - rewrite bool_decide_eq_true_2 by done. apply last_snoc.
  - rewrite bool_decide_eq_false_2 by done. by rewrite app_nil_r.
Qed.

Lemma h_result_snoc H e id v : h_result H id v → h_result (H ++ [e]) id v.
Proof.
  intros (H1 & e' & H2 & -> & ? & ?). exists H1, e', (H2 ++ [e]). by rewrite <- app_assoc.
Qed.

Lemma h_result_last H e : h_result (H ++ [e]) (od_EventID e) (h_dist H e).
Proof. by exists H, e, []. Qed.

Lemma calc_refines_new : calc_refines NewCalcService [].
Proof.
  split_and!; simpl.
  - intros obu. apply lookup_empty.
  - intros id. rewrite lookup_empty. split; [by intros []|set_solver].
  - intros id v. by rewrite lookup_empty.
Qed.

Lemma calculate_refines e s H :
  calc_refines s H → h_known e H = false →
  (CalcService.calculate e s).1 = (h_dist H e, None) ∧
  calc_refines (CalcService.calculate e s).2 (H ++ [e]).
Proof.
  intros (Hp & Hr & Hv) Hk. unfold CalcService.calculate. rewrite Hp. simpl.
  assert (match (λ e0, mkPoint (od_Lat e0) (od_Lon e0)) <$> h_last H (od_OBUID e) with
    | Some previous => calcDist (Lat previous) (Lon previous) (od_Lat e) (od_Lon e)
    | None => fzero end = h_dist H e) as -> by (unfold h_dist; by destruct (h_last H _)).
  split; [done|]. apply bool_decide_eq_false in Hk. split_and!; simpl.
  - intros obu. rewrite h_last_snoc, lookup_insert.
    destruct (decide (od_OBUID e = obu)); [by rewrite bool_decide_eq_true_2|].
    by rewrite bool_decide_eq_false_2, Hp.
  - intros id. rewrite fmap_app. simpl. case_bool_decide as He.
    + rewrite lookup_insert_is_Some. rewrite Hr. set_solver.
    + rewrite Hr. set_solver.
  - intros id v. case_bool_decide as He.
    + rewrite lookup_insert. destruct (decide (od_EventID e = id)) as [<-|].
      * intros [= <-]. apply h_result_last.
      * intros Hid. by apply h_result_snoc, Hv.
    + intros Hid. by apply h_result_snoc, Hv.
Qed.

Lemma CalculateDist_refines e s H :
  calc_refines s H →
  calc_refines (CalcService.CalculateDist e s).2 (h_step H e) ∧
  (h_known e H = false → (CalcService.CalculateDist e s).1 = (h_dist H e, None)) ∧
  (h_known e H = true → ∃ v, (CalcService.CalculateDist e s) = ((v, None), s) ∧
     h_result H (od_EventID e) v).
Proof.
  intros Hs. pose proof (calculate_refines e s H Hs) as Hc. destruct (Hs) as (Hp & Hr & Hv).
  unfold CalcService.CalculateDist, h_step.
  destruct (h_known e H) eqn:Hk.
  - apply bool_decide_eq_true in Hk as [He Hin]. rewrite bool_decide_eq_true_2 by done.
    destruct (proj2 (Hr (od_EventID e))) as [v E]; [done|]. rewrite E.
    split_and!; [done|done|]. intros _. exists v. split; [done|]. by apply Hv.
  - apply bool_decide_eq_false in Hk as Hk'. destruct (Hc eq_refl) as [Hc1 Hc2].
    case_bool_decide as He; [|done].
    destruct (CalcService.results s !! od_EventID e) eqn:E; [|done].
    exfalso. apply Hk'. apply Hr. by rewrite E.
Qed.

(** ** Sequences of calls *)

Fixpoint calc_run (es : list OBUData) (s : CalcService) : list (float64 * option error) * CalcService :=
  match es with
  | [] => ([], s)
  | e :: es => let '(r, s) := CalcService.CalculateDist e s in
               let '(rs, s) := calc_run es s in (r :: rs, s)
  end.

Lemma calc_run_app es es' s :
  calc_run (es ++ es') s =
    ((calc_run es s).1 ++ (calc_run es' (calc_run es s).2).1, (calc_run es' (calc_run es s).2).2).
Proof.
  revert s. induction es as [|e es IH]; intros s; simpl.
  - by destruct (calc_run es' s).
  - destruct (CalcService.CalculateDist e s) as [r s']. rewrite IH.
    by destruct (calc_run es s').
Qed.

Lemma calc_run_refines es s H :
  calc_refines s H → calc_refines (calc_run es s).2 (foldl h_step H es).
Proof.
  revert s H. induction es as [|e es IH]; intros s H Hs; [done|]. simpl.
  destruct (CalculateDist_refines e s H Hs) as [Hs' _].
  destruct (CalcService.CalculateDist e s) as [r s']. simpl in *.
  specialize (IH s' _ Hs'). by destruct (calc_run es s').
Qed.

(** A cached distance is never changed. *)
Lemma CalculateDist_cached e s id v :
  CalcService.results s !! id = Some v →
  CalcService.results (CalcService.CalculateDist e s).2 !! id = Some v.
Proof.
  intros Hid. unfold CalcService.CalculateDist, CalcService.calculate.
  case_bool_decide as He; simpl; [|done].
  destruct (CalcService.results s !! od_EventID e) eqn:E; simpl; [done|].
  rewrite lookup_insert_ne; [done|]. intros <-. congruence.
Qed.

Lemma calc_run_cached es s id v :
  CalcService.results s !! id = Some v → CalcService.results (calc_run es s).2 !! id = Some v.
Proof.
  revert s. induction es as [|e es IH]; intros s Hid; [done|]. simpl.
  pose proof (CalculateDist_cached e s id v Hid).
  destruct (CalcService.CalculateDist e s) as [r s']. simpl in *.
  specialize (IH s'). destruct (calc_run es s'). by apply IH.
Qed.

(** The call that answers an id leaves its answer in the cache. *)
Lemma CalculateDist_caches e s :
  od_EventID e ≠ "" →
  CalcService.results (CalcService.CalculateDist e s).2 !! od_EventID e =
    Some (CalcService.CalculateDist e s).1.1 ∧ (CalcService.CalculateDist e s).1.2 = None.
Proof.
  intros He. unfold CalcService.CalculateDist, CalcService.calculate.
  rewrite bool_decide_eq_true_2 by done.
  destruct (CalcService.results s !! od_EventID e) eqn:E; simpl; [done|].
  by rewrite lookup_insert_eq.
Qed.

Lemma CalculateDist_hit e s v :
  od_EventID e ≠ "" → CalcService.results s !! od_EventID e = Some v →
  CalcService.CalculateDist e s = ((v, None), s).
Proof.
  intros He E. unfold CalcService.CalculateDist. by rewrite bool_decide_eq_true_2, E.
Qed.

(** Events that are all new are answered with their distances in the history. *)
Fixpoint h_dists (H : History) (es : list OBUData) : list float64 :=
  match es with
  | [] => []
  | e :: es => h_dist H e :: h_dists (H ++ [e]) es
  end.

Lemma calc_run_fresh es s H :
  calc_refines s H → NoDup (od_EventID <$> H ++ es) →
  (calc_run es s).1 = (λ v, (v, None)) <$> h_dists H es.
Proof.
  revert s H. induction es as [|e es IH]; intros s H Hs Hnd; [done|]. simpl.
  assert (h_known e H = false) as Hk.
  { apply bool_decide_eq_false. intros [_ Hin]. rewrite fmap_app, fmap_cons in Hnd.
    apply NoDup_app in Hnd as (_ & Hd & _). specialize (Hd _ Hin). set_solver. }
  destruct (CalculateDist_refines e s H Hs) as (Hs' & Hfresh & _). specialize (Hfresh Hk).
  unfold h_step in Hs'. rewrite Hk in Hs'.
  destruct (CalcService.CalculateDist e s) as [r s']. simpl in *.
  specialize (IH s' (H ++ [e]) Hs'). rewrite <- app_assoc in IH. specialize (IH Hnd).
  destruct (calc_run es s'). simpl in *. by rewrite IH, Hfresh.
Qed.

(** The distance of an event depends on the history of its vehicle alone. *)
Lemma h_dist_own H e :
  h_dist H e = h_dist (filter (λ x, od_OBUID x = od_OBUID e) H) e.
Proof. unfold h_dist, h_last. by rewrite list_filter_filter_l by done. Qed.

Lemma h_dists_own H es obu :
  omap (λ '(e, v), if bool_decide (od_OBUID e = obu) then Some v else None)
    (zip es (h_dists H es)) =
  h_dists (filter (λ x, od_OBUID x = obu) H) (filter (λ x, od_OBUID x = obu) es).
Proof.
  revert H. induction es as [|e es IH]; intros H; [done|]. simpl.
  rewrite filter_cons, IH, filter_app, filter_cons.
  destruct (decide (od_OBUID e = obu)) as [<-|Hne].
  - rewrite bool_decide_eq_true_2 by done. simpl. by rewrite <- h_dist_own.
  - rewrite bool_decide_eq_false_2 by done. simpl. by rewrite app_nil_r.
Qed.

Lemma length_h_dists H es : length (h_dists H es) = length es.
Proof. revert H. induction es; intros; simpl; auto. Qed.

(** The distances answered for one vehicle. *)
Definition answers_for (obu : Z) (es : list OBUData) (rs : list (float64 * option error))
    : list (float64 * option error) :=
  omap (λ '(e, r), if bool_decide (od_OBUID e = obu) then Some r else None) (zip es rs).

Lemma answers_for_fmap obu es vs :
  answers_for obu es ((λ v, (v, None)) <$> vs) =
    (λ v, (v, None)) <$> omap (λ '(e, v), if bool_decide (od_OBUID e = obu) then Some v else None)
                           (zip es vs).
Proof.
  revert vs. induction es as [|e es IH]; intros [|v vs]; [done..|]. simpl.
  specialize (IH vs). unfold answers_for in *. cbn.
  case_bool_decide; [cbn; f_equal|]; apply IH.
Qed.

Definition test_obu (id : string) (obu lat lon : Z) : OBUData :=
  mkOBUData id 1 obu (f_of_Z lat) (f_of_Z lon) "".

(** ** Properties *)

(** C18. One call of the distance service on every branch: it never fails; an
    event whose id is known is answered with the distance recorded when the id
    was first calculated and changes nothing; any other event is answered with
    the distance from the previous point of its vehicle (zero for its first
    point) and becomes the latest event of the history. *)
Theorem calculate_dist_correct (e : OBUData) (s : CalcService) (H : History) :
  calc_refines s H →
  let '((v, err), s') := CalcService.CalculateDist e s in
  err = None ∧
  (h_known e H = true → h_result H (od_EventID e) v ∧ s' = s) ∧
  (h_known e H = false → v = h_dist H e ∧ calc_refines s' (H ++ [e])).
Proof.
  intros Hs. destruct (CalculateDist_refines e s H Hs) as (Hs' & Hfresh & Hknown).
  unfold h_step in Hs'. destruct (h_known e H).
  - destruct (Hknown eq_refl) as (v & -> & Hv). done.
  - specialize (Hfresh eq_refl). destruct (CalcService.CalculateDist e s) as [[v err] s'].
    by simplify_eq/=.
Qed.

Lemma calculate_dist_correct_witness :
  let '((v, err), s') := CalcService.CalculateDist (test_obu "a1" 1 0 0) NewCalcService in
  calc_refines NewCalcService [] ∧ v = fzero ∧ calc_refines s' [test_obu "a1" 1 0 0].
Proof.
  pose proof (calculate_dist_correct (test_obu "a1" 1 0 0) NewCalcService [] calc_refines_new) as Hw.
  destruct (CalcService.CalculateDist _ _) as [[v err] s'].
  destruct Hw as (_ & _ & Hw). split; [apply calc_refines_new|]. by apply Hw.
Defined.

(** A replayed event is answered with its original distance: whatever
    happened before the event and between the event and its replay, the replay
    gets the answer of the first call and leaves the state unchanged, even if it
    carries other coordinates. *)
Theorem calculate_dist_replay (before between : list OBUData) (e e' : OBUData) :
  od_EventID e ≠ "" → od_EventID e' = od_EventID e →
  let '(r, s) := CalcService.CalculateDist e (calc_run before NewCalcService).2 in
  let s' := (calc_run between s).2 in
  CalcService.CalculateDist e' s' = (r, s').
Proof.
  intros He Hid. pose proof (CalculateDist_caches e (calc_run before NewCalcService).2 He) as Hc.
  destruct (CalcService.CalculateDist e _) as [[v err] s]. destruct Hc as [Hc Herr].
  simpl in *. subst err. apply CalculateDist_hit; [by rewrite Hid|].
  rewrite Hid. by apply calc_run_cached.
Qed.

Lemma calculate_dist_replay_witness :
  let first := test_obu "first" 1 0 0 in
  let second := test_obu "second" 1 3 4 in
  let third := test_obu "third" 1 9 9 in
  od_EventID second ≠ "" ∧
  let s' := (calc_run [first; second; third] NewCalcService).2 in
  CalcService.CalculateDist second s' = ((f_of_Z 5, None), s').
Proof.
  intros first second third. split; [done|].
  pose proof (calculate_dist_replay [first] [third] second second ltac:(done) eq_refl) as Hw.
  vm_compute in Hw. vm_compute. exact Hw.
Defined.

(** C19. Vehicles are independent: when the event ids are distinct, the answers
    for one vehicle in any interleaving with other vehicles are the answers the
    service gives to that vehicle's events alone. *)
Theorem vehicles_independent (es : list OBUData) (obu : Z) :
  NoDup (od_EventID <$> es) →
  answers_for obu es (calc_run es NewCalcService).1 =
    (calc_run (filter (λ e, od_OBUID e = obu) es) NewCalcService).1.
Proof.
  intros Hnd. rewrite (calc_run_fresh es _ [] calc_refines_new Hnd).
  rewrite (calc_run_fresh _ _ [] calc_refines_new).
  - by rewrite answers_for_fmap, h_dists_own.
  - by apply NoDup_fmap_filter.
Qed.

Lemma vehicles_independent_witness :
  let es := [test_obu "a1" 1 0 0; test_obu "b1" 2 100 100; test_obu "a2" 1 3 4;
             test_obu "b2" 2 100 105] in
  NoDup (od_EventID <$> es) ∧
  answers_for 1 es (calc_run es NewCalcService).1 = [(fzero, None); (f_of_Z 5, None)].
Proof.
  intros es. assert (NoDup (od_EventID <$> es)) as Hnd
    by (apply (bool_decide_unpack _); by vm_compute).
  split; [done|]. rewrite (vehicles_independent es 1 Hnd). by vm_compute.
Defined.

(** On finite coordinates [calcDist] behaves like a distance: it is never
    NaN nor negative, it does not depend on the direction, and it is zero
    between equal points. *)
Theorem calcDist_metric (x1 y1 x2 y2 : float64) :
  is_finite x1 → is_finite y1 → is_finite x2 → is_finite y2 →
  nneg (calcDist x1 y1 x2 y2) ∧
  calcDist x1 y1 x2 y2 = calcDist x2 y2 x1 y1 ∧
  calcDist x1 y1 x1 y1 = fzero.
Proof.
  intros. split_and!; [by apply calcDist_nneg| |].
  - unfold calcDist. by rewrite (Pow2_fsub_sym x2 x1), (Pow2_fsub_sym y2 y1).
  - unfold calcDist. by rewrite !fsub_diag.
Qed.

Lemma calcDist_metric_witness :
  is_finite (f_of_Z 3) ∧ is_finite (f_of_ratio 1 10) ∧
  calcDist (f_of_Z 3) (f_of_ratio 1 10) fzero (f_of_Z 7) =
  calcDist fzero (f_of_Z 7) (f_of_Z 3) (f_of_ratio 1 10).
Proof.
  split_and!; [done|done|].
  by apply (calcDist_metric (f_of_Z 3) (f_of_ratio 1 10) fzero (f_of_Z 7)).
Defined.

(** The example of the event lifecycle document: (0,0) to (3,4) is 5. *)
Example calcDist_345 : calcDist fzero fzero (f_of_Z 3) (f_of_Z 4) = f_of_Z 5.
Proof. vm_compute. reflexivity. Qed.
