(* ===== verification/Client.v ===== *)
(** * Client: the aggregator's HTTP and gRPC clients (src/aggregator/client)

    [HttpClient] and [GrpcClient] over an abstract transport: what the network
    and the process on the other side do with a request is a parameter
    ([HttpTransport], [GrpcTransport]) acting on a state [X] of its own.  The
    contract the consumer relies on is [AggregateClient]: a call reaches the
    aggregator's service at most in the ways listed there, and it reports success
    only when the service accepted the event. *)

From S2P Require Import Prelude Float64 GoLib Types Store Service Http Decimal Json GoJson Server.
From Stdlib Require Import Ascii.

Local Open Scope Z_scope.

(** ** The interface *)

Record Client (W : Type) := mkClient {
  Client_Aggregate : AggregateRequest → M W (option error);
  Client_GetInvoice : Z → M W (option Invoice * option error)
}.
Arguments mkClient {W}. Arguments Client_Aggregate {W}. Arguments Client_GetInvoice {W}.

(** ** HTTP *)

Record ClientRequest := mkClientRequest {
  cr_Method : string;
  cr_URL : string;
  cr_Header : gmap string string;
  cr_Body : string
}.

Record ClientResponse := mkClientResponse { StatusCode : Z; resp_Body : string }.

(** [http.Client.Do] under the context and the client's timeout, and whether
    [http.NewRequestWithContext] accepts a URL. *)
Class HttpTransport (X : Type) := {
  Do : ClientRequest → X → (ClientResponse + error) * X;
  url_ok : string → option error
}.

Definition m_httpClientDuration : string := "tollify_http_client_request_duration_seconds".
Definition m_httpClientRequests : string := "tollify_http_requests_total".

(** [strings.TrimRight(s, "/")] *)
Fixpoint TrimRight_slash (s : string) : string :=
  match s with
  | EmptyString => ""
  | String c s => let t := TrimRight_slash s in
                  if Ascii.eqb c "/" && bool_decide (t = "") then "" else String c t
  end.

Section HttpClient.
Context {X : Type} `{HttpTransport X} `{JsonCodec}.

(** [NewHttpClientWithTimeout]: only the endpoint is state of the client. *)
Definition NewHttpClient_Endpoint (endpoint : string) : string := TrimRight_slash endpoint.

(** The deferred metrics of both methods. *)
Definition http_client_metrics (method operation code : string) (start : Instant)
    : M (Proc X) () :=
  took ← Since start;
  _ ← emit (Observe m_httpClientDuration [method; operation] (Seconds took));
  emit (Inc m_httpClientRequests ["client"; method; operation; code]).

Definition req_distance (req : AggregateRequest) : Distance := {|
  d_EventID := req_EventID req;
  d_ProducedAtUnixNano := req_ProducedAtUnixNano req;
  d_OBUID := req_ObuID req;
  d_Value := req_Value req
|}.

Definition returned_http (code : Z) : error := EText ("aggregator returned HTTP " +:+ Itoa code).

(** The exchange of [Aggregate]: the metric code and the error. *)
Definition http_Aggregate_call (Endpoint : string) (req : AggregateRequest)
    : M (Proc X) (string * option error) :=
  match json_Marshal (JDistance (req_distance req)) with
  | inr e => mret ("client_error", Some e)
  | inl b =>
      match url_ok (Endpoint +:+ "/agg") with
      | Some e => mret ("client_error", Some e)
      | None =>
          let r := mkClientRequest MethodPost (Endpoint +:+ "/agg")
            (<["Content-Type" := "application/json"]> {["Accept" := "application/json"]}) b in
          resp ← lift (Do r);
          match resp with
          | inr e => mret ("client_error", Some e)
          | inl resp =>
              mret (Itoa (StatusCode resp),
                    if bool_decide (StatusCode resp ≠ StatusAccepted)
                    then Some (returned_http (StatusCode resp)) else None)
          end
      end
  end.

Definition http_Aggregate (Endpoint : string) (req : AggregateRequest)
    : M (Proc X) (option error) :=
  start ← Now;
  r ← http_Aggregate_call Endpoint req;
  _ ← http_client_metrics MethodPost "aggregate" r.1 start;
  mret r.2.

Definition http_GetInvoice_call (Endpoint : string) (id : Z)
    : M (Proc X) (string * (option Invoice * option error)) :=
  let endpoint := Endpoint +:+ "/" +:+ "invoice" +:+ "?obu=" +:+ Itoa id in
  match url_ok endpoint with
  | Some e => mret ("client_error", (None, Some e))
  | None =>
      let r := mkClientRequest MethodGet endpoint {["Accept" := "application/json"]} "" in
      resp ← lift (Do r);
      match resp with
      | inr e => mret ("client_error", (None, Some e))
      | inl resp =>
          let code := Itoa (StatusCode resp) in
          if bool_decide (StatusCode resp ≠ StatusOK)
          then mret (code, (None, Some (returned_http (StatusCode resp))))
          else match json_Decode_Invoice (mkReader (resp_Body resp) None) with
               | inr e => mret (code, (None, Some e))
               | inl inv => mret (code, (Some inv, None))
               end
      end
  end.

Definition http_GetInvoice (Endpoint : string) (id : Z)
    : M (Proc X) (option Invoice * option error) :=
  start ← Now;
  r ← http_GetInvoice_call Endpoint id;
  _ ← http_client_metrics MethodGet "invoice" r.1 start;
  mret r.2.

Definition HttpClient (Endpoint : string) : Client (Proc X) := {|
  Client_Aggregate := http_Aggregate Endpoint;
  Client_GetInvoice := http_GetInvoice Endpoint
|}.
End HttpClient.

(** ** gRPC *)

(** [AggregatorClient.Aggregate] of the generated stub, under the call's deadline. *)
Class GrpcTransport (X : Type) := {
  Invoke : AggregateRequest → X → option error * X
}.

Definition m_grpcClientDuration : string := "tollify_grpc_client_request_duration_seconds".
Definition m_grpcClientRequests : string := "tollify_grpc_requests_total".

Section GrpcClient.
Context {X : Type} `{GrpcTransport X} `{GrpcStatus}.

Definition grpc_client_Aggregate (req : AggregateRequest) : M (Proc X) (option error) :=
  start ← Now;
  err ← lift (Invoke req);
  let code := status_Code err in
  took ← Since start;
  _ ← emit (Observe m_grpcClientDuration ["Aggregate"] (Seconds took));
  _ ← emit (Inc m_grpcClientRequests ["client"; "Aggregate"; Code_String code]);
  mret match err with
       | Some e => Some (EWrap ("gRPC aggregate (" +:+ Code_String code +:+ "): ") e "")
       | None => None
       end.

Definition grpc_client_GetInvoice (id : Z) : M (Proc X) (option Invoice * option error) :=
  mret (None, Some (EStatus Unimplemented "invoice lookup is only exposed over HTTP")).

Definition GrpcClient : Client (Proc X) := {|
  Client_Aggregate := grpc_client_Aggregate;
  Client_GetInvoice := grpc_client_GetInvoice
|}.
End GrpcClient.

(** ** What the clients promise *)

(** [remote x L]: the aggregator reached through the transport state [x] holds
    the ledger [L].  [kept]: what the calls leave alone.  [ok]: the events that
    survive the encoding of the transport (valid text, canonical floats, size). *)
Class AggregateClient (X : Type) (client : Client (Proc X)) (ok : Distance → Prop)
    (remote : X → Ledger → Prop) (kept : X → X → Prop) := {
  client_Aggregate_spec req (p : Proc X) L :
    ok (grpc_distance req) → remote (heap p) L →
    let err := run (Client_Aggregate client req) p in
    let p' := exec (Client_Aggregate client req) p in
    let d := grpc_distance req in
    kept (heap p) (heap p') ∧
    (err = None → invalid_distance d = false ∧ remote (heap p') (agg_ledger d L)) ∧
    (err ≠ None → remote (heap p') L ∨ remote (heap p') (agg_ledger d L))
}.

(** What each transport is assumed to do: hand the request to the server zero or
    more times (retries are allowed), and report success only if the server
    answered so.  [agg_ledger] is idempotent, so "one or more" is one state. *)
Class GrpcTransportSpec (X : Type) `{GrpcTransport X} (ok : Distance → Prop)
    (remote : X → Ledger → Prop) (kept : X → X → Prop) := {
  Invoke_spec req x L :
    ok (grpc_distance req) → remote x L →
    let '(err, x') := Invoke req x in
    let d := grpc_distance req in
    kept x x' ∧
    (err = None → invalid_distance d = false ∧ remote x' (agg_ledger d L)) ∧
    (err ≠ None → remote x' L ∨ remote x' (agg_ledger d L))
}.

Class HttpTransportSpec (X : Type) `{HttpTransport X} `{JsonCodec} (Endpoint : string)
    (ok : Distance → Prop) (remote : X → Ledger → Prop) (kept : X → X → Prop) := {
  kept_refl x : kept x x;
  Do_agg_spec d b h x L :
    ok d → json_Marshal (JDistance d) = inl b → remote x L →
    let '(r, x') := Do (mkClientRequest MethodPost (Endpoint +:+ "/agg") h b) x in
    kept x x' ∧
    match r with
    | inl resp =>
        (StatusCode resp = StatusAccepted →
           invalid_distance d = false ∧ remote x' (agg_ledger d L)) ∧
        (StatusCode resp ≠ StatusAccepted → remote x' L ∨ remote x' (agg_ledger d L))
    | inr _ => remote x' L ∨ remote x' (agg_ledger d L)
    end
}.

Lemma lift_heap {X A} (f : X → A * X) (p : Proc X) :
  (lift f p).1 = (f (heap p)).1 ∧ heap (lift f p).2 = (f (heap p)).2.
Proof. unfold lift. by destruct (f (heap p)). Qed.

Lemma http_client_metrics_pure {X} m o c i : heap_pure (S:=X) (http_client_metrics m o c i).
Proof. unfold http_client_metrics. repeat (apply heap_pure_bind; [auto with toll|intros]).
  auto with toll. Qed.

#[export] Hint Resolve http_client_metrics_pure : toll.

(** The gRPC client implements the contract. *)
#[export] Instance GrpcClient_spec {X} `{GrpcTransportSpec X ok remote kept} `{GrpcStatus} :
  AggregateClient X GrpcClient ok remote kept.
Proof.
  constructor. intros req p L Hok Hp. simpl. unfold run, exec, grpc_client_Aggregate.
  rewrite !M_bind_eq. unfold mret, M_ret. cbn [fst snd].
  rewrite !(heap_pure_emit _ _), (heap_pure_Since _ _).
  destruct (lift_heap (Invoke req) (Now p).2) as [E1 E2]. rewrite E1, E2.
  pose proof (Invoke_spec req (heap p) L Hok Hp) as Hi. change (heap (Now p).2) with (heap p).
  destruct (Invoke req (heap p)) as [err x']. simpl.
  destruct Hi as (Hk & Hs & Hf). split_and!; [done|..]; intros He;
    destruct err; try done; [by apply Hs|by apply Hf].
Qed.

(** The HTTP client implements the contract. *)
Lemma HttpClient_spec {X} `{HttpTransportSpec X Endpoint ok remote kept} :
  AggregateClient X (HttpClient Endpoint) ok remote kept.
Proof.
  constructor. intros req p L Hok Hp. simpl. unfold run, exec, http_Aggregate.
  rewrite !M_bind_eq. unfold mret, M_ret. cbn [fst snd].
  rewrite (http_client_metrics_pure _ _ _ _ _). set (p1 := (Now p).2).
  assert (heap p1 = heap p) as Hh by done. assert (remote (heap p1) L) as Hp1 by done.
  rewrite <- Hh. clear Hh. clearbody p1. unfold http_Aggregate_call.
  assert (req_distance req = grpc_distance req) as Hd by by destruct req.
  rewrite <- Hd in Hok. destruct (json_Marshal _) as [b|e] eqn:Em; [|simpl; split_and!; [apply kept_refl|done|by left]].
  destruct (url_ok _); [simpl; split_and!; [apply kept_refl|done|by left]|].
  set (h := <[_:=_]> _). pose proof (Do_agg_spec _ b h (heap p1) L Hok Em Hp1) as Hs.
  rewrite !M_bind_eq.
  destruct (lift_heap (Do (mkClientRequest MethodPost (Endpoint +:+ "/agg") h b)) p1) as [E1 E2].
  rewrite E1. destruct (Do _ (heap p1)) as [[resp|e] x']; simpl in *; rewrite E2, Hd in *.
  - destruct Hs as (Hk & Ha & Hn). split; [done|].
    case_bool_decide; split; try done; intros _; [by apply Hn|by apply Ha].
  - destruct Hs as (Hk & Hn). split_and!; [done|done|by intros _].
Qed.

(** ** A network without faults *)

Fixpoint strip_prefix (pre s : string) : option string :=
  match pre, s with
  | EmptyString, _ => Some s
  | String c pre, String c' s => if Ascii.eqb c c' then strip_prefix pre s else None
  | _, _ => None
  end.

Lemma strip_prefix_app pre s : strip_prefix pre (pre +:+ s) = Some s.
Proof. induction pre as [|c pre IH]; simpl; [done|]. by rewrite Ascii.eqb_refl. Qed.

(** The transport that hands every request for [Endpoint] to the aggregator's
    handler and its response back. *)
Definition loopback {S} `{Storer S} `{JsonCodec} (Endpoint : string) (mh nf : Handler S)
    : HttpTransport (Proc S) := {|
  Do cr x :=
    match strip_prefix Endpoint (cr_URL cr) with
    | None => (inr (EText "no such host"), x)
    | Some rest =>
        let '(path, query) := Cut "?" rest in
        let '(w, x') := serve_http mh nf (mkRequest (cr_Method cr) path query (cr_Body cr)) x in
        (inl (mkClientResponse (sent_status w) (rw_body w)), x')
    end;
  url_ok _ := None
|}.

(** The direct call of the gRPC server. *)
Definition direct_grpc {S} `{Storer S} `{GrpcStatus} : GrpcTransport (Proc S) := {|
  Invoke req x := let '((_, err), x') := newGRPCServer service req x in (err, x')
|}.

(** The events that the HTTP encoding carries unchanged. *)
Definition http_ok `{JsonCodec} (d : Distance) : Prop :=
  utf8_valid (d_EventID d) = true ∧ in_i64 (d_ProducedAtUnixNano d) ∧ in_i64 (d_OBUID d) ∧
  json_valid (JDistance d) = true ∧
  ∀ b, json_Marshal (JDistance d) = inl b → Z.of_nat (String.length b) ≤ 2 ^ 20.

Lemma loopback_Do_agg {S} `{StorerSpec S} `{JsonLaws} Endpoint (mh nf : Handler S) d b h x L :
  http_ok d → json_Marshal (JDistance d) = inl b → refines (heap x) L →
  let '(r, x') := Do (HttpTransport:=loopback Endpoint mh nf)
    (mkClientRequest MethodPost (Endpoint +:+ "/agg") h b) x in
  (∃ body, r = inl (mkClientResponse (if invalid_distance d then 400 else 202) body)) ∧
  refines (heap x') (agg_ledger d L).
Proof.
  intros (Ha & Hp & Ho & Hv & Hlen) Em HL. simpl.
  rewrite strip_prefix_app. simpl.
  assert (json_Decode_Distance (MaxBytesReader (Z.shiftl 1 20) b) = inl d) as Hd.
  { unfold MaxBytesReader. rewrite bool_decide_eq_true_2 by (by apply Hlen).
    by apply json_Distance_roundtrip. }
  unfold serve_http, newHTTPHandler. simpl.
  match goal with |- context [instrumentHTTP ?a ?b ?r new_rw x] =>
    pose proof (instrumentHTTP_transparent a b r new_rw x) as [Hw Hh];
    pose proof (handleAggregate_step r (exec Now x) L HL) as Hs;
    simpl in Hw, Hh, Hs; rewrite <- Hw, <- Hh, Hd in Hs; unfold run, exec in *;
    destruct (instrumentHTTP a b r new_rw x) as [w x'] end.
  simpl in Hs. destruct Hs as [Hc Hr]. unfold sent_status. rewrite Hc. simpl. eauto.
Qed.

Lemma loopback_spec {S} `{StorerSpec S} `{JsonLaws} Endpoint (mh nf : Handler S) :
  HttpTransportSpec (H:=loopback Endpoint mh nf) (Proc S) Endpoint http_ok
    (λ x L, refines (heap x) L) (λ _ _, True).
Proof.
  constructor; [done|]. intros d b h x L Hok Em HL.
  pose proof (loopback_Do_agg Endpoint mh nf d b h x L Hok Em HL) as Hd.
  destruct (Do _ x) as [r x']. destruct Hd as [[body ->] Hr]. simpl.
  split; [done|]. destruct (invalid_distance d); split; try done; by right.
Qed.

Lemma invalid_not_finite d : json_finite (JDistance d) = false → invalid_distance d = true.
Proof.
  intros Hf. destruct (invalid_distance d) eqn:E; [done|].
  apply invalid_distance_spec in E as (_ & _ & _ & _ & E).
  unfold json_finite in Hf. simpl in Hf. by destruct (is_finite (d_Value d)).
Qed.

(** What [Aggregate] of the HTTP client does over the fault-free network. *)
Lemma loopback_http_Aggregate {S} `{StorerSpec S} `{JsonLaws} Endpoint (mh nf : Handler S)
    req (p : Proc (Proc S)) L :
  let d := grpc_distance req in
  http_ok d → refines (heap (heap p)) L →
  let client := HttpClient (H:=loopback Endpoint mh nf) Endpoint in
  (run (Client_Aggregate client req) p = None ↔ invalid_distance d = false) ∧
  refines (heap (heap (exec (Client_Aggregate client req) p))) (agg_ledger d L).
Proof.
  intros d Hok HL. simpl. unfold run, exec, http_Aggregate. rewrite !M_bind_eq.
  unfold mret, M_ret. cbn [fst snd]. rewrite (http_client_metrics_pure _ _ _ _ _).
  set (p1 := (Now p).2). assert (refines (heap (heap p1)) L) as HL1 by done. clearbody p1.
  assert (req_distance req = d) as Hd by by destruct req.
  unfold http_Aggregate_call. rewrite Hd.
  destruct (json_Marshal (JDistance d)) as [b|e] eqn:Em.
  - cbn [url_ok loopback].
    match goal with |- context [mkClientRequest _ _ ?hh _] => set (h := hh) end.
    rewrite !M_bind_eq.
    pose proof (loopback_Do_agg Endpoint mh nf d b h (heap p1) L Hok Em HL1) as Hs.
    destruct (lift_heap (Do (HttpTransport:=loopback Endpoint mh nf)
      (mkClientRequest MethodPost (Endpoint +:+ "/agg") h b)) p1) as [E1 E2].
    rewrite E1. destruct (Do _ (heap p1)) as [r x']. destruct Hs as [[body ->] Hr].
    simpl in *. rewrite E2. split; [|done]. by destruct (invalid_distance d).
  - simpl. assert (invalid_distance d = true) as Hi.
    { apply invalid_not_finite. destruct (json_finite (JDistance d)) eqn:Ef; [|done].
      destruct (json_Marshal_finite _ Ef). congruence. }
    unfold agg_ledger. by rewrite Hi.
Qed.

Lemma direct_grpc_spec {S} `{StorerSpec S} `{GrpcStatus} :
  GrpcTransportSpec (H:=direct_grpc) (Proc S) (λ _, True)
    (λ x L, refines (heap x) L) (λ _ _, True).
Proof.
  constructor. intros req x L _ HL. simpl.
  pose proof (interceptor_transparent Aggregate_FullMethodName (grpc_Aggregate service req) x)
    as [Gw Gh].
  pose proof (grpc_Aggregate_step req (exec Now x) L HL) as [Gs Gr]. simpl in *.
  rewrite <- Gw in Gs. rewrite <- Gh in Gr. unfold newGRPCServer, run, exec in *.
  destruct (grpcMetricsInterceptor _ _ x) as [[reply err] x']. cbn [fst snd] in *.
  split; [done|]. destruct (invalid_distance _); simplify_eq/=; split; try done; by right.
Qed.

Lemma direct_grpc_Aggregate {S} `{StorerSpec S} `{GrpcStatus} req (p : Proc (Proc S)) L :
  let d := grpc_distance req in
  refines (heap (heap p)) L →
  let client := GrpcClient (H:=direct_grpc) in
  (run (Client_Aggregate client req) p = None ↔ invalid_distance d = false) ∧
  refines (heap (heap (exec (Client_Aggregate client req) p))) (agg_ledger d L).
Proof.
  intros d HL. simpl. unfold run, exec, grpc_client_Aggregate. rewrite !M_bind_eq.
  unfold mret, M_ret. cbn [fst snd]. rewrite !(heap_pure_emit _ _), (heap_pure_Since _ _).
  set (p1 := (Now p).2). assert (refines (heap (heap p1)) L) as HL1 by done. clearbody p1.
  destruct (lift_heap (Invoke (GrpcTransport:=direct_grpc) req) p1) as [E1 E2].
  rewrite E1, E2. clear E1 E2. simpl.
  pose proof (interceptor_transparent Aggregate_FullMethodName (grpc_Aggregate service req)
    (heap p1)) as [Gw Gh].
  pose proof (grpc_Aggregate_step req (exec Now (heap p1)) L HL1) as [Gs Gr]. simpl in *.
  rewrite <- Gw in Gs. rewrite <- Gh in Gr. unfold newGRPCServer, run, exec in *.
  destruct (grpcMetricsInterceptor _ _ (heap p1)) as [[reply err] x']. cbn [fst snd] in *.
  subst d. by destruct (invalid_distance _); simplify_eq/=.
Qed.

(** ** Properties *)

(** C16. The protocol switch of the calculator does not change what is billed:
    over a network without faults the HTTP client and the gRPC client, each in
    front of an aggregator with the ledger [L], both succeed exactly on a valid
    event and both leave the ledger with that event applied once. *)
Theorem protocols_equivalent {S} `{StorerSpec S} `{JsonLaws} `{GrpcStatus}
    (Endpoint : string) (mh nf : Handler S) (req : AggregateRequest)
    (p q : Proc (Proc S)) (L : Ledger) :
  http_ok (grpc_distance req) →
  refines (heap (heap p)) L → refines (heap (heap q)) L →
  let http := HttpClient (H:=loopback Endpoint mh nf) Endpoint in
  let grpc := GrpcClient (H:=direct_grpc) in
  (run (Client_Aggregate http req) p = None ↔ run (Client_Aggregate grpc req) q = None) ∧
  (run (Client_Aggregate http req) p = None ↔ invalid_distance (grpc_distance req) = false) ∧
  refines (heap (heap (exec (Client_Aggregate http req) p))) (agg_ledger (grpc_distance req) L) ∧
  refines (heap (heap (exec (Client_Aggregate grpc req) q))) (agg_ledger (grpc_distance req) L).
Proof.
  intros Hok Hp Hq.
  destruct (loopback_http_Aggregate Endpoint mh nf req p L Hok Hp) as [Ha Hb].
  destruct (direct_grpc_Aggregate req q L Hq) as [Hc Hd].
  split_and!; [by rewrite Ha, Hc|done|done|done].
Qed.

(** A small event that every transport carries. *)
Definition test_request (id : string) (obu v : Z) : AggregateRequest :=
  mkReq obu (f_of_Z v) 7 id.

Lemma test_http_ok (req : AggregateRequest) :
  utf8_valid (req_EventID req) = true →
  bool_decide (in_i64 (req_ProducedAtUnixNano req)) = true →
  bool_decide (in_i64 (req_ObuID req)) = true →
  valid_binary 53 1024 (req_Value req) = true →
  (Z.of_nat (String.length (encoded (JDistance (grpc_distance req)))) <=? 2 ^ 20) = true →
  http_ok (H:=test_codec) (grpc_distance req).
Proof.
  intros Ha Hp Ho Hv Hl. b2p. split_and!; try done.
  - unfold json_valid. simpl. by rewrite Hv.
  - intros b Hb. unfold encoded in Hl. change (Marshal (JDistance (grpc_distance req)) = inl b) in Hb.
    by rewrite Hb in Hl.
Qed.

Lemma protocols_equivalent_witness :
  let req := test_request "e1" 3 5 in
  let p := mkProc (new_process test_clock) [] test_clock 0 in
  http_ok (H:=test_codec) (grpc_distance req) ∧
  refines (S:=MemoryStore) (heap (heap p)) [] ∧
  refines (heap (heap (exec (Client_Aggregate
    (HttpClient (H:=loopback (H0:=test_codec) "http://localhost:4000" toy_handler toy_handler)
       (H0:=test_codec) "http://localhost:4000") req) p)))
    [test_distance "e1" 3 5].
Proof.
  intros req p.
  assert (http_ok (H:=test_codec) (grpc_distance req)) as Hok
    by (apply test_http_ok; by vm_compute).
  split_and!; [done|apply refines_new|].
  apply (protocols_equivalent (H1:=test_codec) (H2:=test_laws) (H3:=toy_status)
    "http://localhost:4000" toy_handler toy_handler req p p [] Hok refines_new refines_new).
Defined.
