(* ===== verification/Gateway.v ===== *)
(** * Gateway: the public invoice endpoint (src/gateway/main.go)

    The gateway's handler over any aggregator client, its error wrapper
    [makeApiFunc], its route, and the end-to-end behaviour of an invoice request
    that travels gateway - HTTP client - aggregator - store and back. *)

From S2P Require Import Prelude Float64 GoLib Types Store Service Http Decimal Json GoJson Server Client.
From Stdlib Require Import Ascii.

Local Open Scope Z_scope.

Section Gateway.
Context {X : Type} `{JsonCodec}.

(** [type apiFunc func(w, r) error] *)
Definition apiFunc : Type := ResponseWriter → Request → M (Proc X) (ResponseWriter * option error).

Definition handleGetInvoice (i : Client (Proc X)) : apiFunc := λ w r,
  if bool_decide (Method r ≠ MethodGet)
  then mret (Header_Set "Allow" MethodGet w, Some (EText "method not allowed"))
  else
    match Atoi (Query_Get (RawQuery r) "obu") with
    | None => mret (w, Some (EText "invalid obu query parameter"))
    | Some id =>
        if id <=? 0 then mret (w, Some (EText "invalid obu query parameter"))
        else
          '(inv, err) ← Client_GetInvoice i id;
          match err with
          | Some e => mret (w, Some e)
          | None => mret (writeJson w StatusOK
                            match inv with Some inv => JInvoice inv | None => JNull end)
          end
    end.

(** An error of the handler becomes a 500; the clock is read for the log line. *)
Definition makeApiFunc (fn : apiFunc) : Handler X := λ r w,
  start ← Now;
  '(w, err) ← fn w r;
  let w := match err with
           | Some e => (writeJson w StatusInternalServerError (JMessage "Error" (Error e))).1
           | None => w
           end in
  _ ← Since start;
  mret w.

(** The default mux with its one route. *)
Definition gateway (i : Client (Proc X)) (not_found_handler : Handler X) : Handler X := λ r w,
  if bool_decide (Path r = "/invoice") then makeApiFunc (handleGetInvoice i) r w
  else not_found_handler r w.
End Gateway.

Arguments apiFunc : clear implicits.

Lemma makeApiFunc_step {X} `{JsonCodec} (fn : apiFunc X) r w (p : Proc X) :
  let p1 := exec Now p in
  run (makeApiFunc fn r w) p =
    match (run (fn w r) p1).2 with
    | Some e => (writeJson (run (fn w r) p1).1 StatusInternalServerError
                   (JMessage "Error" (Error e))).1
    | None => (run (fn w r) p1).1
    end ∧
  heap (exec (makeApiFunc fn r w) p) = heap (exec (fn w r) p1).
Proof.
  unfold run, exec, makeApiFunc. rewrite !M_bind_eq.
  destruct (fn w r (Now p).2) as [[w' err] p2]. cbn [fst snd].
  rewrite !M_bind_eq. unfold mret, M_ret. cbn [fst snd].
  by rewrite (heap_pure_Since _ _).
Qed.

(** ** Decimal texts in a URL *)

Definition is_digit (c : ascii) : bool := bool_decide (48 ≤ N_of_ascii c ≤ 57)%N.
Definition digits (s : string) : bool := forallb is_digit (String.list_ascii_of_string s).

Lemma digits_cons c s : digits (String c s) = is_digit c && digits s.
Proof. done. Qed.

Lemma digits_pretty_N_go x s : digits s = true → digits (pretty_N_go x s) = true.
Proof.
  revert s. induction (N.lt_wf_0 x) as [x _ IH]; intros s Hs.
  destruct (decide (0 < x)%N) as [Hx|]; [|by replace x with 0%N by lia].
  rewrite pretty_N_go_step by done. apply IH; [by apply N.div_lt|].
  rewrite digits_cons, Hs. unfold pretty_N_char. by repeat case_match.
Qed.

Lemma digits_Itoa z : 0 < z → digits (Itoa z) = true.
Proof.
  destruct z as [|p|p]; try done. intros _. change (Itoa (Z.pos p)) with (pretty (Npos p)).
  unfold pretty, pretty_N. by apply digits_pretty_N_go.
Qed.

Lemma Itoa_not_empty z : 0 < z → Itoa z ≠ "".
Proof.
  destruct z as [|p|p]; try done. intros _. change (Itoa (Z.pos p)) with (pretty (Npos p)).
  by destruct (pretty_N_head (Npos p)) as (c & s & -> & _).
Qed.

(** A digit is none of the characters a query treats specially. *)
Lemma digit_plain c : is_digit c = true →
  Ascii.eqb c "&" = false ∧ Ascii.eqb ";" c = false ∧ Ascii.eqb c "=" = false ∧
  ∀ s, QueryUnescape (String c s) = r ← QueryUnescape s; Some (String c r).
Proof.
  destruct c as [[] [] [] [] [] [] [] []]; intros Hd; try (by vm_compute in Hd); done.
Qed.

Lemma digits_query s : digits s = true →
  Split "&" s = [s] ∧ has_char ";" s = false ∧ QueryUnescape s = Some s.
Proof.
  induction s as [|c s IH]; [done|]. rewrite digits_cons. intros [Hc Hs]%andb_true_iff.
  destruct (digit_plain c Hc) as (H1 & H2 & H3 & H4), (IH Hs) as (E1 & E2 & E3).
  rewrite H4, E3. cbn [has_char Split]. by rewrite H1, H2, E1, E2.
Qed.

(** The query that the client builds is the one the aggregator reads. *)
Lemma Query_Get_obu z : 0 < z → Query_Get ("obu=" +:+ Itoa z) "obu" = Itoa z.
Proof.
  intros Hz. destruct (digits_query _ (digits_Itoa z Hz)) as (E1 & E2 & E3).
  revert E1 E2 E3. generalize (Itoa z). intros t E1 E2 E3.
  change ("obu=" +:+ t) with (String "o" (String "b" (String "u" (String "=" t)))).
  set (q := String "o" _).
  assert (Split "&" q = [q]) as E by (unfold q; simpl; by rewrite E1).
  assert (has_char ";" q = false) as Eh by done.
  assert (query_setting q = Some ("obu", t)) as Eq
    by (unfold query_setting; rewrite Eh; simpl; by rewrite E3).
  unfold Query_Get. rewrite E. simpl omap. rewrite Eq. done.
Qed.

(** ** One request through the whole read path *)

Section EndToEnd.
Context {S : Type} `{StorerSpec S} `{JsonLaws}.

(** The body of a 200 reply with an invoice: complete, or empty when the
    invoice cannot be encoded. *)
Lemma decode_invoice_body inv :
  in_i64 (inv_OBUID inv) → json_valid (JInvoice inv) = true →
  let body := rw_body (writeJson new_rw StatusOK (JInvoice inv)).1 in
  if json_finite (JInvoice inv)
  then json_Decode_Invoice (mkReader body None) = inl inv
  else ∃ e, json_Decode_Invoice (mkReader body None) = inr e.
Proof using Type*.
  intros Hi Hv. unfold writeJson, json_Encode.
  destruct (json_finite (JInvoice inv)) eqn:Hf.
  - destruct (json_Marshal_finite _ Hf) as [s E]. rewrite E.
    by apply (json_Invoice_roundtrip _ _ (String "010" "")).
  - destruct (json_Marshal_not_finite _ Hf) as [e E]. rewrite E.
    exact json_Decode_Invoice_empty.
Qed.

Lemma loopback_Do_invoice Endpoint (mh nf : Handler S) id h (x : Proc S) L :
  0 < id → in_i64 id → refines (heap x) L →
  let url := Endpoint +:+ "/" +:+ "invoice" +:+ "?obu=" +:+ Itoa id in
  let '(r, x') := Do (HttpTransport:=loopback Endpoint mh nf)
                    (mkClientRequest MethodGet url h "") x in
  let w := match l_total L id with
           | Some t => (writeJson new_rw StatusOK (JInvoice (invoice_of id t))).1
           | None => (writeJson new_rw StatusInternalServerError
                        (JMessage "Error" (Error (not_found id)))).1
           end in
  r = inl (mkClientResponse (sent_status w) (rw_body w)) ∧ refines (heap x') L.
Proof using Type*.
  intros Hz Hi HL url. cbn [Do loopback cr_URL]. unfold url. rewrite strip_prefix_app.
  assert (Cut "?" ("/" +:+ "invoice" +:+ "?obu=" +:+ Itoa id) = ("/invoice", "obu=" +:+ Itoa id))
    as -> by done.
  set (r := mkRequest _ _ _ _). cbn [cr_Method cr_Body] in r.
  assert (Atoi (Query_Get (RawQuery r) "obu") = Some id) as Hid
    by (cbn [RawQuery r]; rewrite Query_Get_obu by done; by apply Atoi_Itoa).
  unfold serve_http, newHTTPHandler.
  rewrite bool_decide_eq_false_2 by done. rewrite bool_decide_eq_true_2 by done.
  pose proof (instrumentHTTP_transparent "invoice" (Server.handleGetInvoice service) r new_rw x)
    as [Hw Hh].
  pose proof (handleGetInvoice_reply r (exec Now x) L id HL eq_refl Hid) as Hr.
  pose proof (handleGetInvoice_step r (exec Now x) L HL) as [_ Hs].
  rewrite <- Hw in Hr. rewrite <- Hh in Hs. unfold run, exec in *.
  destruct (instrumentHTTP _ _ r new_rw x) as [w x']. cbn [fst snd] in *.
  rewrite Hr. done.
Qed.

(** [GetInvoice] of the HTTP client in front of an aggregator with ledger [L]. *)
Lemma loopback_GetInvoice Endpoint (mh nf : Handler S) id (p : Proc (Proc S)) L :
  0 < id → in_i64 id → refines (heap (heap p)) L →
  (∀ t, l_total L id = Some t → json_valid (JInvoice (invoice_of id t)) = true) →
  let call := http_GetInvoice (H:=loopback Endpoint mh nf) Endpoint id in
  match l_total L id with
  | Some t => let inv := invoice_of id t in
              if json_finite (JInvoice inv) then run call p = (Some inv, None)
              else ∃ e, run call p = (None, Some e)
  | None => run call p = (None, Some (returned_http 500))
  end ∧ refines (heap (heap (exec call p))) L.
Proof using Type*.
  intros Hz Hi HL Hv call. unfold call, run, exec, http_GetInvoice. rewrite !M_bind_eq.
  unfold mret, M_ret. cbn [fst snd]. rewrite (http_client_metrics_pure _ _ _ _ _).
  set (p1 := (Now p).2). assert (refines (heap (heap p1)) L) as HL1 by done. clearbody p1.
  unfold http_GetInvoice_call. cbn [url_ok loopback].
  match goal with |- context [mkClientRequest _ _ ?hh _] => set (h := hh) end.
  rewrite !M_bind_eq.
  pose proof (loopback_Do_invoice Endpoint mh nf id h (heap p1) L Hz Hi HL1) as Hs.
  cbv zeta in Hs. match goal with |- context [lift (Do ?r)] => set (req := r) in * end.
  destruct (lift_heap (Do (HttpTransport:=loopback Endpoint mh nf) req) p1) as [E1 E2].
  rewrite E1. set (p2 := (lift (Do req) p1).2) in *. clearbody p2.
  destruct (Do req (heap p1)) as [resp x']. destruct Hs as [-> Hr].
  cbn [fst snd] in *.
  destruct (l_total L id) as [t|]; cbn [StatusCode resp_Body].
  - rewrite writeJson_new_status. simpl.
    pose proof (decode_invoice_body (invoice_of id t) Hi (Hv t eq_refl)) as Hd.
    cbv zeta in Hd. destruct (json_finite _).
    + rewrite Hd. simpl. by rewrite E2.
    + destruct Hd as [e Hd]. rewrite Hd. simpl. rewrite E2. eauto.
  - rewrite writeJson_new_status. simpl. by rewrite E2.
Qed.
End EndToEnd.

(** ** Properties *)

(** C11. An invoice request through the whole read path (gateway, HTTP client,
    aggregator, store): the ledger is untouched; a request that is not a GET, has
    no positive [obu] or names a vehicle without events is answered 500; any
    other is answered 200 with exactly the invoice of the ledger, except that an
    invoice that has overflowed to infinity is answered 500. *)
Theorem gateway_invoice_correct {S : Type} `{StorerSpec S} `{JsonLaws}
    (Endpoint : string) (mh nf : Handler S) (gnf : Handler (Proc S))
    (r : Request) (p : Proc (Proc S)) (L : Ledger) :
  Path r = "/invoice" → refines (heap (heap p)) L →
  Forall (λ d, fvalid (d_Value d) = true) L →
  let client := HttpClient (H:=loopback Endpoint mh nf) Endpoint in
  let '(w, p') := gateway client gnf r new_rw p in
  refines (heap (heap p')) L ∧
  (Method r ≠ MethodGet → sent_status w = 500 ∧ rw_header w !! "Allow" = Some MethodGet) ∧
  (Method r = MethodGet →
     match Atoi (Query_Get (RawQuery r) "obu") with
     | None => sent_status w = 500
     | Some id =>
         match (if id <=? 0 then None else l_total L id) with
         | None => sent_status w = 500
         | Some t =>
             if json_finite (JInvoice (invoice_of id t))
             then sent_status w = 200 ∧
                  json_Decode_Invoice (mkReader (rw_body w) None) = inl (invoice_of id t)
             else sent_status w = 500
         end
     end).
Proof.
  intros HP HL Hval client. unfold gateway. rewrite HP, bool_decide_eq_true_2 by done.
  destruct (makeApiFunc_step (handleGetInvoice client) r new_rw p) as [Ew Eh].
  unfold run, exec in Ew, Eh.
  destruct (makeApiFunc _ r new_rw p) as [w p']. cbn [fst snd] in Ew, Eh.
  set (p1 := (Now p).2) in *. assert (refines (heap (heap p1)) L) as HL1 by done. clearbody p1.
  assert (∀ e, sent_status (writeJson new_rw StatusInternalServerError e).1 = 500) as H500
    by (intros; apply writeJson_new_status).
  unfold handleGetInvoice, mret, M_ret in Ew, Eh. case_bool_decide as HM.
  { cbn [fst snd] in *. rewrite Eh, Ew, writeJson_header, writeJson_first_status by done.
    split_and!; [done| |done]. intros _. split; [done|].
    simpl. by rewrite lookup_insert_ne, lookup_insert_eq. }
  destruct (Atoi _) as [id|] eqn:Hid; [|cbn [fst snd] in *; by rewrite Eh, Ew, H500].
  destruct (Z.leb_spec id 0); [cbn [fst snd] in *; by rewrite Eh, Ew, H500|].
  assert (in_i64 id) as Hi by (by apply Atoi_range in Hid).
  destruct (loopback_GetInvoice Endpoint mh nf id p1 L) as [Hr Hh]; try done.
  { intros t Ht. unfold json_valid. simpl.
    by destruct (invoice_of_valid L id t Hval Ht) as [-> ->]. }
  rewrite !M_bind_eq in Ew, Eh. cbn [Client_GetInvoice client HttpClient] in Ew, Eh.
  unfold run, exec in *.
  destruct (http_GetInvoice _ id p1) as [[inv err] p2]. cbn [fst snd] in *.
  assert (heap p' = heap p2) as E2 by (rewrite Eh; by destruct err). rewrite E2.
  split_and!; [done|done|intros _]. clear Eh E2.
  destruct (l_total L id) as [t|] eqn:Ht; [destruct (json_finite _) eqn:Hf; [|destruct Hr as [e Hr]]|];
    simplify_eq; cbn [fst snd] in *; rewrite ?Ew, ?H500; try done.
  assert ((writeJson new_rw StatusOK (JInvoice (invoice_of id t))).2 = None) as ->.
  { unfold writeJson, json_Encode. destruct (json_Marshal_finite _ Hf) as [b Eb]. by rewrite Eb. }
  rewrite writeJson_new_status. split; [done|].
  pose proof (decode_invoice_body (invoice_of id t) Hi) as Hd. cbv zeta in Hd. rewrite Hf in Hd.
  apply Hd. unfold json_valid. simpl. by destruct (invoice_of_valid L id t Hval Ht) as [-> ->].
Qed.

Lemma gateway_invoice_correct_witness :
  let d := test_distance "e1" 3 10 in
  let p := mkProc (exec (serve [d]) (new_process test_clock)) [] test_clock 0 in
  let r := mkRequest "GET" "/invoice" "obu=3" "" in
  let client := HttpClient (H:=loopback (H0:=test_codec) "http://localhost:4000"
                  toy_handler toy_handler) (H0:=test_codec) "http://localhost:4000" in
  let '(w, p') := gateway (H:=test_codec) client toy_handler r new_rw p in
  refines (S:=MemoryStore) (heap (heap p)) [d] ∧
  sent_status w = 200 ∧
  json_Decode_Invoice (JsonCodec:=test_codec) (mkReader (rw_body w) None)
    = inl (mkInvoice 3 (f_of_Z 10) (f_of_ratio 315 10)).
Proof.
  intros d p r client.
  assert (refines (S:=MemoryStore) (heap (heap p)) [d]) as Hp.
  { destruct (serve_spec [d] (new_process test_clock) [] refines_new) as (_ & Hp & _). done. }
  assert (Forall (λ d, fvalid (d_Value d) = true) [d]) as Hv by by repeat constructor.
  pose proof (gateway_invoice_correct (H1:=test_codec) (H2:=test_laws)
    "http://localhost:4000" toy_handler toy_handler toy_handler r p [d] eq_refl Hp Hv) as Hw.
  cbv zeta in Hw. fold client in Hw. destruct (gateway _ _ r new_rw p) as [w p'].
  split; [done|]. destruct Hw as (_ & _ & Hw). specialize (Hw eq_refl).
  assert (Atoi (Query_Get (RawQuery r) "obu") = Some 3) as E1 by by vm_compute. rewrite E1 in Hw.
  assert (l_total [d] 3 = Some (f_of_Z 10)) as E2 by by vm_compute.
  change (3 <=? 0) with false in Hw. cbv iota in Hw. rewrite E2 in Hw.
  assert (invoice_of 3 (f_of_Z 10) = mkInvoice 3 (f_of_Z 10) (f_of_ratio 315 10)) as E3
    by by vm_compute. rewrite E3 in Hw. apply Hw.
Defined.
