(* ===== verification/Consumer.v ===== *)
(** * Consumer: the calculator's Kafka loop (src/dist-calc/consumer.go)

    [processEvent], [processMessage], [updateLag] and the loop of [Start] over
    any calculator service and any aggregator client.  Kafka, the contexts and
    the network are the environment [E] of [ConsumerEnv]: their operations may
    do anything to [E]; what they are assumed to do is stated where it is used,
    in Pipeline.v.  The process's heap is the calculator's own state [C] and the
    environment. *)

From S2P Require Import Prelude Float64 GoLib Types Http Client Calculator.

Local Open Scope Z_scope.

(** [kafka.Message]: the fields the consumer reads. *)
Record Message := mkMessage {
  Topic : option string;
  Partition : Z;
  Offset : Z;
  Value : string
}.

Class ConsumerEnv (E : Type) := {
  ReadMessage : E → (Message + error) * E;          (* one poll *)
  CommitMessage : Message → E → option error * E;
  Seek : Message → E → option error * E;            (* to msg.TopicPartition *)
  GetWatermarkOffsets : string → Z → E → ((Z * Z) + error) * E;
  ctx_Err : E → option error * E;                   (* the loop's context *)
  call_Err : E → option error * E                   (* the per-call timeout context *)
}.

Definition m_consumerEvents : string := "tollify_calculator_events_consumed_total".
Definition m_consumerErrors : string := "tollify_calculator_consumer_errors_total".
Definition m_deserializationErrors : string := "tollify_calculator_deserialization_errors_total".
Definition m_distanceDuration : string := "tollify_distance_calculation_duration_seconds".
Definition m_downstreamDuration : string := "tollify_downstream_aggregation_duration_seconds".
Definition m_downstreamTimeouts : string := "tollify_downstream_timeouts_total".
Definition m_consumerLag : string := "tollify_kafka_consumer_lag".

Section Consumer.
Context {C E : Type} `{ConsumerEnv E} `{JsonCodec}.
Context (calcService : CalculatorServicer (Proc C)) (aggClient : Client (Proc E)).

Abbreviation KafkaConsumer := (Proc (C * E)).

Definition on_calc {A} : M (Proc C) A → M KafkaConsumer A := zoom fst (λ c s, (c, s.2)).
Definition on_env {A} : M (Proc E) A → M KafkaConsumer A := zoom snd (λ e s, (s.1, e)).
Definition env {A} (f : E → A * E) : M KafkaConsumer A := on_env (lift f).

(** [int32(data.OBUID)] keeps the low 32 bits. *)
Definition aggregate_request (data : OBUData) (dist : float64) : AggregateRequest := {|
  req_Value := dist;
  req_ObuID := wrapS 32 (od_OBUID data);
  req_EventID := od_EventID data;
  req_ProducedAtUnixNano := od_ProducedAtUnixNano data
|}.

Definition processEvent (data : OBUData) : M KafkaConsumer (option error) :=
  start ← Now;
  '(dist, err) ← on_calc (CalculateDist calcService data);
  took ← Since start;
  _ ← emit (Observe m_distanceDuration [] (Seconds took));
  match err with
  | Some e => mret (Some (EWrap "calculate distance: " e ""))
  | None =>
      let req := aggregate_request data dist in
      start ← Now;
      err ← on_env (Client_Aggregate aggClient req);
      took ← Since start;
      _ ← emit (Observe m_downstreamDuration [] (Seconds took));
      cerr ← env call_Err;
      _ ← (if errors_Is cerr DeadlineExceeded
           then emit (Inc m_downstreamTimeouts []) else mret ());
      mret match err with
           | Some e => Some (EWrap ("aggregate event " +:+ od_EventID data +:+ ": ") e "")
           | None => None
           end
  end.

Definition invalid_event (data : OBUData) : bool :=
  bool_decide (od_EventID data = "") || (od_ProducedAtUnixNano data <=? 0)
  || (od_OBUID data <=? 0).

Definition processMessage (msg : Message) : M KafkaConsumer (option error) :=
  match json_Unmarshal_OBUData (Value msg) with
  | inr _ => _ ← emit (Inc m_deserializationErrors []); env (CommitMessage msg)
  | inl data =>
      if invalid_event data
      then _ ← emit (Inc m_deserializationErrors []); env (CommitMessage msg)
      else
        err ← processEvent data;
        match err with
        | Some e => mret (Some e)
        | None =>
            cerr ← env (CommitMessage msg);
            mret match cerr with
                 | Some e => Some (EWrap ("commit event " +:+ od_EventID data +:+ ": ") e "")
                 | None => None
                 end
        end
  end.

Definition updateLag (msg : Message) : M KafkaConsumer () :=
  match Topic msg with
  | None => mret ()
  | Some topic =>
      r ← env (GetWatermarkOffsets topic (Partition msg));
      match r with
      | inr _ => mret ()
      | inl (_, high) =>
          let lag := wrapS 64 (high - Offset msg - 1) in
          let lag := if lag <? 0 then 0 else lag in
          emit (SetGauge m_consumerLag [topic; Itoa (Partition msg)] (f_of_Z lag))
      end
  end.

(** One round of the loop of [Start]: [None] goes on, [Some r] returns [r]. *)
Definition Start_round : M KafkaConsumer (option (option error)) :=
  done ← env ctx_Err;
  match done with
  | Some _ => mret (Some None)
  | None =>
      r ← env ReadMessage;
      match r with
      | inr e =>
          if bool_decide (errors_As_kafka e = Some ErrTimedOut) then mret None
          else _ ← emit (Inc m_consumerErrors ["read"]); mret None
      | inl msg =>
          _ ← emit (Inc m_consumerEvents []);
          _ ← updateLag msg;
          err ← processMessage msg;
          match err with
          | None => mret None
          | Some _ =>
              _ ← emit (Inc m_consumerErrors ["process"]);
              seekErr ← env (Seek msg);
              match seekErr with
              | None => mret None
              | Some e =>
                  _ ← emit (Inc m_consumerErrors ["seek"]);
                  mret (Some (Some (EWrap "rewind failed after processing error: " e "")))
              end
          end
      end
  end.

(** [n] rounds of [Start]; [None]: still running. *)
Fixpoint Start (n : nat) : M KafkaConsumer (option (option error)) :=
  match n with
  | O => mret None
  | S n => r ← Start_round; match r with Some res => mret (Some res) | None => Start n end
  end.
End Consumer.
