(* ===== verification/Pipeline.v ===== *)
(** * Pipeline: the calculator between Kafka and the aggregator

    What the loop of Consumer.v guarantees when it runs with the distance service
    of Calculator.v, against any broker with the laws of [TopicLaws] and any
    aggregator client with the contract [AggregateClient].  The reference is the
    ideal pass: every event of the partition calculated once and billed once, in
    order, without faults. *)

From stdpp Require Import functions.
From S2P Require Import Prelude Float64 GoLib Types Store Service Http Server Calculator Client Consumer.

Local Open Scope Z_scope.

(** ** Proof rules for the consumer's process *)

Section Rules.
Context {C E : Type}.
Implicit Types (P : C * E → Prop).

Lemma hoare_pure {S A} (P : S → Prop) (m : M (Proc S) A) :
  heap_pure m → hoare (λ p, P (heap p)) m (λ _ p, P (heap p)).
Proof. intros Hm p Hp. by rewrite Hm. Qed.

Lemma hoare_env {A} P (f : E → A * E) (Q : A → C * E → Prop) :
  (∀ c e, P (c, e) → Q (f e).1 (c, (f e).2)) →
  hoare (λ p, P (heap p)) (env f) (λ a p, Q a (heap p)).
Proof.
  intros Hf p Hp. unfold env, on_env. rewrite zoom_run, zoom_heap.
  destruct (lift_heap f (part snd p)) as [-> ->]. simpl.
  apply Hf. by destruct (heap p).
Qed.

Lemma hoare_client {A} P (m : M (Proc E) A) (Q : A → C * E → Prop) :
  (∀ c (q : Proc E), P (c, heap q) → Q (run m q) (c, heap (exec m q))) →
  hoare (λ p, P (heap p)) (on_env m) (λ a p, Q a (heap p)).
Proof.
  intros Hm p Hp. unfold on_env. rewrite zoom_run, zoom_heap.
  apply Hm. simpl. by destruct (heap p).
Qed.

Lemma hoare_calc {A} P (m : M (Proc C) A) (Q : A → C * E → Prop) :
  (∀ (q : Proc C) e, P (heap q, e) → Q (run m q) (heap (exec m q), e)) →
  hoare (λ p, P (heap p)) (on_calc m) (λ a p, Q a (heap p)).
Proof.
  intros Hm p Hp. unfold on_calc. rewrite zoom_run, zoom_heap.
  apply Hm. simpl. by destruct (heap p).
Qed.
End Rules.

(** Metrics and clock readings leave what is known of the heap. *)
Ltac hpure :=
  eapply hoare_bind; [eapply hoare_pure; repeat apply heap_pure_if; auto with toll|intros ?].

(** The service the calculator's [main] builds. *)
Definition calc_service : CalculatorServicer (Proc CalcService) := NewLogMiddleware CalcServicer.

Lemma calc_service_step data (p : Proc CalcService) :
  run (CalculateDist calc_service data) p = (CalcService.CalculateDist data (heap p)).1 ∧
  heap (exec (CalculateDist calc_service data) p) = (CalcService.CalculateDist data (heap p)).2.
Proof.
  unfold run, exec. simpl. rewrite !M_bind_eq. unfold mret, M_ret. cbn [fst snd].
  rewrite (heap_pure_Since _ _).
  by destruct (lift_heap (CalcService.CalculateDist data) (Now p).2) as [-> ->].
Qed.

(** ** What the broker promises for a topic *)

Definition keeps {E} (pos committed : E → nat → nat) (remote : E → Ledger → Prop) (e e' : E) : Prop :=
  pos e' = pos e ∧ committed e' = committed e ∧ ∀ L, remote e L → remote e' L.

(** Partition [k] of the topic holds the messages [topic k]; [pos e k] is the next
    offset to read there and [committed e k] the group's committed offset.  A poll
    may rewind any partitions to their committed offsets (a rebalance), then it
    fails or returns the next message of some partition; a failed commit may or
    may not have reached the broker. *)
Class TopicLaws (E : Type) `{ConsumerEnv E} (topic : nat → list Message)
    (pos committed : E → nat → nat) (remote : E → Ledger → Prop) := {
  ctx_Err_law e : keeps pos committed remote e (ctx_Err e).2;
  call_Err_law e : keeps pos committed remote e (call_Err e).2;
  GetWatermarkOffsets_law t k e :
    keeps pos committed remote e (GetWatermarkOffsets t k e).2;
  ReadMessage_law e :
    let '(r, e') := ReadMessage e in
    committed e' = committed e ∧ (∀ L, remote e L → remote e' L) ∧
    ∃ q, (∀ k, q k = pos e k ∨ q k = committed e k) ∧
    match r with
    | inl m => ∃ k, topic k !! q k = Some m ∧ pos e' = <[k := S (q k)]> q
    | inr _ => pos e' = q
    end;
  CommitMessage_law k n m e :
    topic k !! n = Some m →
    let '(err, e') := CommitMessage m e in
    pos e' = pos e ∧ (∀ L, remote e L → remote e' L) ∧
    (committed e' = <[k := S n]> (committed e) ∨ err ≠ None ∧ committed e' = committed e);
  Seek_law k n m e :
    topic k !! n = Some m →
    let '(err, e') := Seek m e in
    committed e' = committed e ∧ (∀ L, remote e L → remote e' L) ∧
    (err = None → pos e' = <[k := n]> (pos e))
}.

(** ** The ideal pass *)

Section Ideal.
Context `{JsonCodec}.

(** The event of a message, unless the consumer discards it. *)
Definition usable (m : Message) : option OBUData :=
  match json_Unmarshal_OBUData (Value m) with
  | inr _ => None
  | inl data => if invalid_event data then None else Some data
  end.

Definition bill (e : OBUData) (v : float64) : Distance := grpc_distance (aggregate_request e v).

(** The events billed by a calculator in state [s], with their distances. *)
Fixpoint bills (es : list OBUData) (s : CalcService) : list Distance :=
  match es with
  | [] => []
  | e :: es => let '((v, _), s) := CalcService.CalculateDist e s in bill e v :: bills es s
  end.

Definition ideal_calc (ms : list Message) : CalcService :=
  (calc_run (omap usable ms) NewCalcService).2.
Definition ideal_bills (ms : list Message) : list Distance :=
  bills (omap usable ms) NewCalcService.
Definition ideal_ledger (ms : list Message) : Ledger := agg_ledgers (ideal_bills ms) [].

(** The distance event of [e] when it is calculated right after [ms]. *)
Definition ideal_bill (ms : list Message) (e : OBUData) : Distance :=
  bill e (CalcService.CalculateDist e (ideal_calc ms)).1.1.

Definition all_valid (ms : list Message) : Prop :=
  Forall (λ d, invalid_distance d = false) (ideal_bills ms).

Lemma bills_app es es' s :
  bills (es ++ es') s = bills es s ++ bills es' (calc_run es s).2.
Proof.
  revert s. induction es as [|e es IH]; intros s; [done|]. simpl.
  destruct (CalcService.CalculateDist e s) as [[v err] s']. rewrite IH.
  by destruct (calc_run es s').
Qed.

Lemma ideal_calc_snoc ms m :
  ideal_calc (ms ++ [m]) =
    match usable m with
    | Some e => (CalcService.CalculateDist e (ideal_calc ms)).2
    | None => ideal_calc ms
    end.
Proof.
  unfold ideal_calc. rewrite omap_app, calc_run_app. simpl.
  destruct (usable m) as [e|]; simpl; [|done].
  by destruct (CalcService.CalculateDist e _).
Qed.

Lemma ideal_bills_snoc ms m :
  ideal_bills (ms ++ [m]) =
    match usable m with
    | Some e => ideal_bills ms ++ [ideal_bill ms e]
    | None => ideal_bills ms
    end.
Proof.
  unfold ideal_bills, ideal_bill. rewrite omap_app, bills_app. simpl.
  destruct (usable m) as [e|]; simpl; [|by rewrite app_nil_r].
  fold (ideal_calc ms). by destruct (CalcService.CalculateDist e _) as [[v err] s].
Qed.

(** The ledger of a pass that starts with [L]. *)
Lemma pass_ledger_snoc ms m L :
  agg_ledgers (ideal_bills (ms ++ [m])) L =
    match usable m with
    | Some e => agg_ledger (ideal_bill ms e) (agg_ledgers (ideal_bills ms) L)
    | None => agg_ledgers (ideal_bills ms) L
    end.
Proof.
  rewrite ideal_bills_snoc. destruct (usable m); [|done]. by rewrite agg_ledgers_app.
Qed.

Lemma usable_valid m e : usable m = Some e → od_EventID e ≠ "".
Proof.
  unfold usable. destruct (json_Unmarshal_OBUData _) as [d|]; [|done].
  destruct (invalid_event d) eqn:Hi; [done|]. intros [= <-].
  unfold invalid_event in Hi. by b2p.
Qed.

(** A message that was passed before is answered as it was then. *)
Lemma ideal_replay ms m ms' e :
  usable m = Some e →
  CalcService.CalculateDist e (ideal_calc (ms ++ m :: ms')) =
    (((CalcService.CalculateDist e (ideal_calc ms)).1.1, None), ideal_calc (ms ++ m :: ms')).
Proof.
  intros Hm. apply usable_valid in Hm as He.
  apply CalculateDist_hit; [done|].
  rewrite (cons_middle m ms ms'), (app_assoc ms). unfold ideal_calc at 1.
  rewrite omap_app, calc_run_app. cbn [snd]. apply calc_run_cached.
  change (CalcService.results (ideal_calc (ms ++ [m])) !! od_EventID e =
    Some (CalcService.CalculateDist e (ideal_calc ms)).1.1).
  rewrite ideal_calc_snoc, Hm. by apply CalculateDist_caches.
Qed.

Lemma ideal_offered ms m ms' e L :
  usable m = Some e → all_valid (ms ++ m :: ms') →
  invalid_distance (ideal_bill ms e) = false ∧
  agg_ledger (ideal_bill ms e) (agg_ledgers (ideal_bills (ms ++ m :: ms')) L) =
    agg_ledgers (ideal_bills (ms ++ m :: ms')) L.
Proof.
  intros Hm Hv.
  assert (ideal_bill ms e ∈ ideal_bills (ms ++ m :: ms')) as Hin.
  { rewrite (cons_middle m ms ms'), (app_assoc ms). unfold ideal_bills at 1.
    rewrite omap_app, bills_app. fold (ideal_bills (ms ++ [m])).
    rewrite ideal_bills_snoc, Hm. set_solver. }
  unfold all_valid in Hv. rewrite Forall_forall in Hv. specialize (Hv _ Hin).
  split; [done|].
  destruct (agg_known [ideal_bill ms e] (agg_ledgers (ideal_bills (ms ++ m :: ms')) L)) as [E _]; [|done].
  constructor; [|done]. right.
  pose proof (agg_ledgers_offered (ideal_bills (ms ++ m :: ms')) L) as Ho.
  rewrite Forall_forall in Ho. destruct (Ho _ Hin); [congruence|done].
Qed.
End Ideal.

(** ** Prefixes of a partition *)

Lemma take_middle {A} (l : list A) i n x :
  l !! i = Some x → (i < n)%nat → ∃ l', take n l = take i l ++ x :: l'.
Proof.
  intros Hx Hi. exists (drop (S i) (take n l)).
  rewrite <- (take_drop_middle (take n l) i x) at 1 by (by rewrite lookup_take_lt).
  by rewrite take_take, Nat.min_l by lia.
Qed.

(** What a calculator that started at offset [base] has seen after [n] messages. *)
Definition seen (log : list Message) (base n : nat) : list Message := drop base (take n log).

Lemma seen_S log base n m :
  log !! n = Some m → (base ≤ n)%nat → seen log base (S n) = seen log base n ++ [m].
Proof.
  intros Hm Hn. pose proof (lookup_lt_Some _ _ _ Hm). unfold seen.
  by rewrite (take_S_r _ _ _ Hm), drop_app_le by (rewrite length_take; lia).
Qed.

Lemma seen_middle log base i n m :
  log !! i = Some m → (base ≤ i < n)%nat → ∃ l', seen log base n = seen log base i ++ m :: l'.
Proof.
  intros Hm Hi. pose proof (lookup_lt_Some _ _ _ Hm). unfold seen.
  destruct (take_middle log i n m Hm) as [l' ->]; [lia|]. exists l'.
  by rewrite drop_app_le by (rewrite length_take; lia).
Qed.

Lemma seen_base log base : seen log base base = [].
Proof. unfold seen. apply drop_ge. rewrite length_take. lia. Qed.

Lemma seen_0 log n : seen log 0 n = take n log.
Proof. done. Qed.

(** ** Several partitions *)

(** The positions after message [q k] of partition [k] was read. *)
Definition past (k : nat) (q : nat → nat) : nat → nat := <[k := S (q k)]> q.

(** Case analysis on the partition at which a function was updated. *)
Ltac at_partition k j :=
  unfold past; destruct (decide (k = j)) as [<-|];
  [rewrite ?fn_lookup_insert|rewrite ?fn_lookup_insert_ne by done].

Section Keys.
Context `{JsonCodec} (topic : nat → list Message).

(** The events of a partition, their ids and their vehicles. *)
Definition events (k : nat) : list OBUData := omap usable (topic k).
Definition ids (k : nat) : list string := od_EventID <$> events k.
Definition obus (k : nat) : list Z := od_OBUID <$> events k.

(** No event and no vehicle is in two partitions. *)
Definition keyed : Prop := ∀ k j, k ≠ j → ids k ## ids j ∧ obus k ## obus j.

Lemma usable_event k i m e :
  topic k !! i = Some m → usable m = Some e → e ∈ events k.
Proof.
  intros Hm He. apply list_elem_of_omap. exists m. split; [|done].
  by eapply list_elem_of_lookup_2.
Qed.

Lemma event_id k e : e ∈ events k → od_EventID e ∈ ids k.
Proof. apply list_elem_of_fmap_2. Qed.

Lemma event_obu k e : e ∈ events k → od_OBUID e ∈ obus k.
Proof. apply list_elem_of_fmap_2. Qed.

(** Two calculators have the same points and distances for a partition. *)
Definition agrees (k : nat) (s s' : CalcService) : Prop :=
  (∀ obu, obu ∈ obus k → CalcService.prevPoints s !! obu = CalcService.prevPoints s' !! obu) ∧
  (∀ id, id ∈ ids k → CalcService.results s !! id = CalcService.results s' !! id).

Lemma agrees_refl k s : agrees k s s.
Proof. done. Qed.

Lemma CalculateDist_agrees k e s s' :
  e ∈ events k → agrees k s s' →
  (CalcService.CalculateDist e s).1 = (CalcService.CalculateDist e s').1 ∧
  agrees k (CalcService.CalculateDist e s).2 (CalcService.CalculateDist e s').2.
Proof.
  intros He [Hp Hr]. unfold CalcService.CalculateDist.
  pose proof (Hr _ (event_id _ _ He)) as Er. pose proof (Hp _ (event_obu _ _ He)) as Ep.
  assert ((CalcService.calculate e s).1 = (CalcService.calculate e s').1 ∧
    agrees k (CalcService.calculate e s).2 (CalcService.calculate e s').2) as Hcalc.
  { unfold CalcService.calculate. simpl. rewrite Ep. split; [done|]. split; simpl.
    - intros obu Ho. destruct (decide (obu = od_OBUID e)) as [->|];
        [by rewrite !lookup_insert_eq|by rewrite !lookup_insert_ne, Hp].
    - intros id Hid. case_bool_decide; [|by apply Hr]. destruct (decide (id = od_EventID e)) as [->|];
        [by rewrite !lookup_insert_eq|by rewrite !lookup_insert_ne, Hr]. }
  case_bool_decide; [|done]. rewrite Er. by destruct (CalcService.results s' !! od_EventID e).
Qed.

Lemma CalculateDist_frame k j e s s' :
  keyed → k ≠ j → e ∈ events j → agrees k s s' → agrees k (CalcService.CalculateDist e s).2 s'.
Proof.
  intros Hk Hne He [Hp Hr]. destruct (Hk k j Hne) as [Hi Ho].
  assert (agrees k (CalcService.calculate e s).2 s') as Hcalc.
  { unfold CalcService.calculate. split; simpl.
    - intros obu Hin. rewrite lookup_insert_ne; [by apply Hp|]. intros <-.
      by apply (Ho _ Hin), event_obu.
    - intros id Hin. case_bool_decide; [|by apply Hr]. rewrite lookup_insert_ne; [by apply Hr|].
      intros <-. by apply (Hi _ Hin), event_id. }
  unfold CalcService.CalculateDist. case_bool_decide; [|done].
  by destruct (CalcService.results s !! od_EventID e).
Qed.

(** The events of a ledger that belong to a partition. *)
Definition own (k : nat) (L : Ledger) : Ledger := filter (λ d, d_EventID d ∈ ids k) L.

Lemma own_ids k L id : id ∈ ids k → id ∈ l_ids (own k L) ↔ id ∈ l_ids L.
Proof.
  intros Hid. unfold l_ids, own. rewrite !list_elem_of_filter, !list_elem_of_fmap.
  split; intros [Hne (d & -> & Hd)]; (split; [done|]); exists d.
  - by apply list_elem_of_filter in Hd as [_ ?].
  - split; [done|]. by apply list_elem_of_filter.
Qed.

Lemma own_agg_ledger k d L :
  own k (agg_ledger d L) =
    if decide (d_EventID d ∈ ids k) then agg_ledger d (own k L) else own k L.
Proof.
  unfold agg_ledger, l_insert, l_dup. destruct (invalid_distance d); [by case_decide|].
  destruct (decide (d_EventID d ∈ ids k)) as [Hin|Hout].
  - rewrite (bool_decide_ext _ _ (own_ids k L _ Hin)). case_bool_decide; [done|].
    unfold own. rewrite filter_app. f_equal. by rewrite filter_cons_True.
  - case_bool_decide; [done|]. unfold own. rewrite filter_app, filter_cons_False by done.
    by rewrite app_nil_r.
Qed.

Lemma agg_ledger_elem d d' L : d ∈ agg_ledger d' L → d ∈ L ∨ d = d'.
Proof.
  unfold agg_ledger, l_insert. destruct (invalid_distance d'); [by left|].
  destruct (l_dup d' L); [by left|]. rewrite elem_of_app, list_elem_of_singleton. tauto.
Qed.
End Keys.

Definition unmoved {E} (pos committed : E → nat → nat) (e e' : E) : Prop :=
  pos e' = pos e ∧ committed e' = committed e.

(** ** The loop *)

Section Loop.
#[local] Set Default Proof Using "Type*".
Context {E : Type} {topic : nat → list Message} {pos committed : E → nat → nat}.
Context {remote : E → Ledger → Prop}.
Context `{TopicLaws E topic pos committed remote} `{JsonCodec}.
Context {client : Client (Proc E)} {ok : Distance → Prop}.
(** The offsets at which this calculator has started, with nothing calculated yet,
    and the ledger of the aggregator at that moment. *)
Context {base : nat → nat} {L0 : Ledger}.
Context `{!AggregateClient E client ok remote (unmoved pos committed)}.
Context (apart : keyed topic).
Context (log_ok : ∀ k i m e, topic k !! i = Some m → usable m = Some e →
                    ok (ideal_bill (seen (topic k) (base k) i) e)).

(** The ledger's part for partition [k] when [n] of its messages have been passed. *)
Definition ledger_at (k n : nat) : Ledger :=
  agg_ledgers (ideal_bills (seen (topic k) (base k) n)) (own topic k L0).

(** [L] is an interleaving of the partitions' parts. *)
Record Parts (na : nat → nat) (L : Ledger) : Prop := {
  Parts_own k : own topic k L = ledger_at k (na k);
  Parts_all d : d ∈ L → d ∈ L0 ∨ ∃ k, d_EventID d ∈ ids topic k
}.

(** Of partition [k] the calculator has passed [nc k] messages, the aggregator
    [na k]; the next one to read is [q k]. *)
Record At (nc na q : nat → nat) (s : CalcService * E) : Prop := {
  At_bounds k : (base k ≤ committed s.2 k)%nat ∧ (committed s.2 k ≤ na k)%nat ∧
    (na k ≤ nc k)%nat ∧ (nc k ≤ S (na k))%nat ∧ (nc k ≤ length (topic k))%nat;
  At_calc k : agrees topic k s.1 (ideal_calc (seen (topic k) (base k) (nc k)));
  At_remote : ∃ L, remote s.2 L ∧ Parts na L;
  At_valid k : all_valid (seen (topic k) (base k) (na k));
  At_pos : pos s.2 = q
}.

Lemma At_keeps nc na q s x x' :
  keeps pos committed remote x x' → At nc na q (s, x) → At nc na q (s, x').
Proof using Type.
  intros (Hp & Hc & Hr) [? ? (L & ? & ?) ? ?].
  constructor; simpl in *; rewrite ?Hp, ?Hc; by eauto.
Qed.

(** The calculation of message [i] of partition [k], new or replayed. *)
Lemma calc_at k i m e nc na q s x :
  topic k !! i = Some m → usable m = Some e → (base k ≤ i ≤ na k)%nat → At nc na q (s, x) →
  (CalcService.CalculateDist e s).1 =
    ((CalcService.CalculateDist e (ideal_calc (seen (topic k) (base k) i))).1.1, None) ∧
  ∃ nc', (i < nc' k)%nat ∧ At nc' na q ((CalcService.CalculateDist e s).2, x).
Proof using apart.
  intros Hm He Hi [Hb Hs ? ? ?]. simpl in *. pose proof (lookup_lt_Some _ _ _ Hm).
  pose proof (usable_event topic k i m e Hm He) as Hin.
  destruct (CalculateDist_agrees topic k e s _ Hin (Hs k)) as [-> Hk]. pose proof (Hb k).
  assert (∀ n, (na k ≤ n ≤ S (na k))%nat → (n ≤ length (topic k))%nat →
    agrees topic k (CalcService.CalculateDist e s).2 (ideal_calc (seen (topic k) (base k) n)) →
    At (<[k := n]> nc) na q ((CalcService.CalculateDist e s).2, x)) as Hat.
  { intros n Hn Hl Hag. constructor; simpl; try done; intros j; at_partition k j; try done;
      [split_and!; (lia || apply Hb)|]. by apply (CalculateDist_frame topic j k). }
  destruct (decide (i < nc k)%nat) as [Hlt|Hge].
  - destruct (seen_middle (topic k) (base k) i (nc k) m Hm) as [ms' E1]; [lia|].
    pose proof (ideal_replay (seen (topic k) (base k) i) m ms' e He) as Hr.
    rewrite <- E1 in Hr. rewrite Hr in *. split; [done|]. exists (<[k := nc k]> nc).
    rewrite fn_lookup_insert. split; [done|]. apply Hat; [lia|lia|done].
  - assert (nc k = i ∧ na k = i) as [En Ea] by lia. rewrite En in *. split.
    + destruct (CalculateDist_caches e (ideal_calc (seen (topic k) (base k) i))) as [_ Herr].
      { by eapply usable_valid. }
      by rewrite (surjective_pairing (CalcService.CalculateDist _ _).1), Herr.
    + exists (<[k := S i]> nc). rewrite fn_lookup_insert. split; [lia|]. apply Hat; [lia|lia|].
      by rewrite (seen_S _ _ _ _ Hm), ideal_calc_snoc, He by lia.
Qed.

(** Applying a bill of partition [k], once more or for the first time. *)
Lemma Parts_agg k na n d L :
  d_EventID d ∈ ids topic k → agg_ledger d (ledger_at k (na k)) = ledger_at k n →
  Parts na L → Parts (<[k := n]> na) (agg_ledger d L).
Proof using apart.
  intros Hd En [Ho Ha]. constructor.
  - intros j. rewrite own_agg_ledger. at_partition k j.
    + by rewrite decide_True, Ho.
    + rewrite decide_False; [done|]. intros Hj. by destruct (apart k j) as [Hi _]; [|apply (Hi _ Hd)].
  - intros d' [Hin| ->]%agg_ledger_elem; [by apply Ha|right; by exists k].
Qed.

(** The billing of message [i]. *)
Lemma bill_at k i m e nc na q s (x : Proc E) :
  topic k !! i = Some m → usable m = Some e → (base k ≤ i ≤ na k)%nat → (i < nc k)%nat →
  At nc na q (s, heap x) →
  let req := aggregate_request e
    (CalcService.CalculateDist e (ideal_calc (seen (topic k) (base k) i))).1.1 in
  let err := run (Client_Aggregate client req) x in
  ∃ na', (∀ j, na j ≤ na' j)%nat ∧ At nc na' q (s, heap (exec (Client_Aggregate client req) x)) ∧
         (err = None → (i < na' k)%nat).
Proof.
  intros Hm He Hi Hnc [Hb Hs (L & Hr & HL) Hv Hp] req err. simpl in *.
  destruct (client_Aggregate_spec req x _ (log_ok k i m e Hm He) Hr) as ([Kp Kc] & Hsucc & Hfail).
  fold err in Hsucc, Hfail.
  change (grpc_distance req) with (ideal_bill (seen (topic k) (base k) i) e) in *.
  set (d := ideal_bill _ e) in *. set (x' := heap (exec _ x)) in *.
  assert (d_EventID d ∈ ids topic k) as Hid by (by apply event_id, (usable_event _ _ i m)).
  assert (∀ n L', (na k ≤ n ≤ nc k)%nat → all_valid (seen (topic k) (base k) n) →
    remote x' L' → Parts (<[k := n]> na) L' → ((na k = i → n = i → err ≠ None)) →
    ∃ na', (∀ j, na j ≤ na' j)%nat ∧ At nc na' q (s, x') ∧ (err = None → (i < na' k)%nat)) as Hat.
  { intros n L' Hn Hvn Hr' HL' Herr. exists (<[k := n]> na). split_and!.
    - intros j. at_partition k j; lia.
    - constructor; simpl; rewrite ?Kp, ?Kc; try done; [|by exists L'|];
        intros j; pose proof (Hb j); at_partition k j; try done; split_and!; lia.
    - rewrite fn_lookup_insert. intros E0. destruct (decide (na k = i)); [|lia].
      destruct (decide (n = i)); [|lia]. by destruct Herr. }
  assert (Parts (<[k := na k]> na) L) as HL1.
  { destruct HL as [Ho Ha]. constructor; [|done]. intros j. by at_partition k j. }
  pose proof (Hb k). destruct (decide (i < na k)%nat) as [Hlt|Hge].
  - destruct (seen_middle (topic k) (base k) i (na k) m Hm) as [ms' E1]; [lia|].
    destruct (ideal_offered (seen (topic k) (base k) i) m ms' e (own topic k L0) He) as [_ EL];
      [by rewrite <- E1|]. rewrite <- E1 in EL.
    assert (Parts (<[k := na k]> na) (agg_ledger d L)) as HL2 by (by apply Parts_agg).
    destruct err as [er|].
    + destruct Hfail as [Hf|Hf]; [done|apply (Hat (na k) L)|apply (Hat (na k) (agg_ledger d L))];
        by (done || lia).
    + apply (Hat (na k) (agg_ledger d L)); [lia|done|by apply Hsucc|done|lia].
  - assert (na k = i) as Ei by lia. pose proof (Hv k) as Hvi. rewrite Ei in *.
    assert (invalid_distance d = false →
      all_valid (seen (topic k) (base k) (S i)) ∧ Parts (<[k := S i]> na) (agg_ledger d L)) as Hnew.
    { intros Hd. split.
      - unfold all_valid. rewrite (seen_S _ _ _ _ Hm), ideal_bills_snoc, He by lia.
        apply Forall_app. by repeat constructor.
      - apply Parts_agg; [done| |done]. unfold ledger_at. rewrite Ei.
        by rewrite (seen_S _ _ _ _ Hm), pass_ledger_snoc, He by lia. }
    destruct err as [er|].
    + destruct (Hfail) as [Hf|Hf]; [done|by apply (Hat i L); (done || lia)|].
      destruct (invalid_distance d) eqn:Hinv.
      * apply (Hat i L); try done; [lia|]. unfold agg_ledger in Hf. by rewrite Hinv in Hf.
      * destruct Hnew; [done|]. by apply (Hat (S i) (agg_ledger d L)); (done || lia).
    + destruct Hsucc as [Hinv Hs']; [done|]. destruct Hnew; [done|].
      apply (Hat (S i) (agg_ledger d L)); (done || lia).
Qed.

Abbreviation svc := calc_service.

(** The aggregator has passed [na'] messages; message [i] of partition [k] too, if
    [err] is nil. *)
Definition Passed (k i : nat) (na nc q : nat → nat) (err : option error) (s : CalcService * E) : Prop :=
  ∃ na', (∀ j, na j ≤ na' j)%nat ∧ At nc na' q s ∧ (err = None → (i < na' k)%nat).

Lemma Passed_keeps k i na nc q err s x x' :
  keeps pos committed remote x x' → Passed k i na nc q err (s, x) →
  Passed k i na nc q err (s, x').
Proof. intros Hk (na' & ? & ? & ?). exists na'. split_and!; eauto using At_keeps. Qed.

Lemma processEvent_at k i m e nc na q :
  topic k !! i = Some m → usable m = Some e → (base k ≤ i ≤ na k)%nat →
  hoare (λ p, At nc na q (heap p)) (processEvent svc client e)
    (λ err p, ∃ nc', Passed k i na nc' q err (heap p)).
Proof.
  intros Hm He Hi. unfold processEvent. hpure.
  eapply hoare_bind.
  { apply (hoare_calc _ _ (λ r s, r =
      ((CalcService.CalculateDist e (ideal_calc (seen (topic k) (base k) i))).1.1, None) ∧
      ∃ nc', (i < nc' k)%nat ∧ At nc' na q s)).
    intros x y Hat. destruct (calc_service_step e x) as [-> ->]. by eapply calc_at. }
  intros [dist err]. apply hoare_pre_and. intros [= -> ->].
  apply hoare_pre_ex. intros nc'. apply hoare_pre_and. intros Hlt.
  do 3 hpure.
  eapply hoare_bind.
  { apply (hoare_client _ _ (λ err s, Passed k i na nc' q err s)).
    intros s x Hat'. by eapply bill_at. }
  intros err. do 2 hpure.
  eapply hoare_bind.
  { apply (hoare_env _ _ (λ _ s, Passed k i na nc' q err s)).
    intros s x. apply Passed_keeps, call_Err_law. }
  intros cerr. hpure.
  intros p (na' & ? & ? & ?). exists nc', na'. split_and!; [done|done|].
  simpl. destruct err; [done|by auto].
Qed.

(** After a message was handled. *)
Definition Settled (k i : nat) (na q : nat → nat) (err : option error) (s : CalcService * E) : Prop :=
  ∃ nc, Passed k i na nc q err s.

Lemma commit_at k i m nc na q :
  topic k !! i = Some m → (base k ≤ i < na k)%nat →
  hoare (λ p, At nc na q (heap p)) (env (CommitMessage m))
    (λ err p, Settled k i na q err (heap p)).
Proof.
  intros Hm Hi. apply (hoare_env _ _ (Settled k i na q)). intros s x [Hb ? (L & Hr & HL) ? ?].
  pose proof (CommitMessage_law k i m x Hm) as Hl. destruct (CommitMessage m x) as [err x'].
  destruct Hl as (Hp & Hk & Hcom). simpl in *.
  exists nc, na. split_and!; [done| |lia]. constructor; simpl; try done; [| |congruence].
  - intros j. pose proof (Hb j). destruct Hcom as [->|[_ ->]]; [|done].
    at_partition k j; [|done]. split_and!; lia.
  - exists L. split; [by apply Hk|done].
Qed.

(** A discarded message costs nothing. *)
Lemma discard_at k i m nc na q s :
  topic k !! i = Some m → usable m = None → (base k ≤ i ≤ na k)%nat → At nc na q s →
  ∃ nc', Passed k i na nc' q None s.
Proof.
  intros Hm Hu Hi Hat. pose proof (lookup_lt_Some _ _ _ Hm).
  destruct (decide (i < na k)%nat) as [|Hge]; [by exists nc, na|].
  destruct Hat as [Hb Hs (L & Hr & [Ho Ha]) Hv Hp]. pose proof (Hb k).
  assert (na k = i) as Ei by lia.
  exists (<[k := S i]> nc), (<[k := S i]> na). rewrite fn_lookup_insert. split_and!; [|constructor|lia].
  - intros j. at_partition k j; lia.
  - intros j. at_partition k j; [split_and!; lia|apply Hb].
  - intros j. at_partition k j; [|apply Hs]. pose proof (Hs k) as Hk.
    rewrite (seen_S _ _ _ _ Hm), ideal_calc_snoc, Hu by lia.
    destruct (decide (nc k = i)) as [<-|]; [done|]. assert (nc k = S i) as En by lia.
    by rewrite En, (seen_S _ _ _ _ Hm), ideal_calc_snoc, Hu in Hk by lia.
  - exists L. split; [done|]. constructor; [|done]. intros j. rewrite Ho. at_partition k j; [|done].
    unfold ledger_at. by rewrite (seen_S _ _ _ _ Hm), pass_ledger_snoc, Hu, Ei by lia.
  - intros j. at_partition k j; [|done]. unfold all_valid.
    rewrite (seen_S _ _ _ _ Hm), ideal_bills_snoc, Hu, <- Ei by lia. apply Hv.
  - done.
Qed.

(** A commit after the message was passed. *)
Lemma settle_at k i m na nc q :
  topic k !! i = Some m → (base k ≤ i)%nat →
  hoare (λ p, Passed k i na nc q None (heap p)) (env (CommitMessage m))
    (λ err p, Settled k i na q err (heap p)).
Proof.
  intros Hm Hi. apply hoare_pre_ex. intros na'. apply hoare_pre_and. intros Hle.
  intros p [Hat Hlt]. specialize (Hlt eq_refl).
  destruct (commit_at k i m nc na' q Hm (conj Hi Hlt) p Hat) as (nc2 & na2 & Hle2 & ? & ?).
  exists nc2, na2. split_and!; [|done|done]. intros j. specialize (Hle j). specialize (Hle2 j). lia.
Qed.

Lemma discard_commit_at k i m nc na q :
  topic k !! i = Some m → usable m = None → (base k ≤ i ≤ na k)%nat →
  hoare (λ p, At nc na q (heap p)) (env (CommitMessage m))
    (λ err p, Settled k i na q err (heap p)).
Proof.
  intros Hm Hu Hi p Hat. destruct (discard_at k i m nc na q (heap p) Hm Hu Hi Hat) as (nc' & Hat').
  eapply settle_at; [done|lia|done].
Qed.

Lemma processMessage_at k i m nc na q :
  topic k !! i = Some m → (base k ≤ i ≤ na k)%nat →
  hoare (λ p, At nc na q (heap p)) (processMessage svc client m)
    (λ err p, Settled k i na q err (heap p)).
Proof.
  intros Hm Hi. unfold processMessage.
  destruct (usable m) as [e|] eqn:Hu; unfold usable in Hu;
    destruct (json_Unmarshal_OBUData (Value m)) as [d|er] eqn:Ej; simplify_eq;
    [destruct (invalid_event d) eqn:Ei; simplify_eq..|].
  - assert (usable m = Some e) as He by (unfold usable; by rewrite Ej, Ei).
    eapply hoare_bind; [by eapply processEvent_at|].
    intros [err|]; apply hoare_pre_ex; intros nc'.
    + intros p (na' & ? & ? & _). by exists nc', na'.
    + eapply hoare_bind; [apply (settle_at k i m na nc' q Hm); lia|]. intros cerr p (nc2 & na2 & ? & ? & Hn).
      exists nc2, na2. split_and!; [done|done|]. intros Hret. apply Hn. by destruct cerr.
  - hpure. apply discard_commit_at; try done. unfold usable. by rewrite Ej, Ei.
  - hpure. apply discard_commit_at; try done. unfold usable. by rewrite Ej.
Qed.

(** What holds at every point of a run: each partition's part of the aggregator's
    ledger is the ideal pass over a prefix that covers everything committed. *)
Definition Consistent (s : CalcService * E) : Prop := ∃ nc na q, At nc na q s.
(** ... and at the head of the loop nothing unbilled has been read past. *)
Definition Inv (s : CalcService * E) : Prop :=
  ∃ nc na q, At nc na q s ∧ ∀ k, (base k ≤ q k ≤ na k)%nat.

Lemma Inv_Consistent s : Inv s → Consistent s.
Proof. intros (nc & na & q & ? & ?). by exists nc, na, q. Qed.

Lemma updateLag_at nc na q m :
  hoare (λ p, At nc na q (heap p)) (updateLag m : M (Proc (CalcService * E)) _)
    (λ _ p, At nc na q (heap p)).
Proof using H0.
  unfold updateLag. destruct (Topic m) as [t|]; [|by intros p].
  eapply hoare_bind.
  { apply (hoare_env _ _ (λ _ s, At nc na q s)). intros s x.
    apply At_keeps, GetWatermarkOffsets_law. }
  intros [[lo hi]|]; [|by intros p]. apply (hoare_pure (At nc na q)). auto with toll.
Qed.

Lemma Seek_at k m nc na q :
  topic k !! q k = Some m → (∀ j, base j ≤ q j ≤ na j)%nat →
  hoare (λ p, At nc na (past k q) (heap p)) (env (Seek m))
    (λ err p, Consistent (heap p) ∧ (err = None → Inv (heap p))).
Proof.
  intros Hm Hq. apply (hoare_env _ _ (λ err s, Consistent s ∧ (err = None → Inv s))).
  intros s x [Hb ? (L & ? & ?) ? Hpos].
  pose proof (Seek_law k (q k) m x Hm) as Hl. destruct (Seek m x) as [err x'].
  destruct Hl as (Hk & Hr & Hp). simpl in *.
  assert (At nc na (pos x') (s, x')) as Hat.
  { constructor; simpl; rewrite ?Hk; try done. exists L. by auto. }
  split; [by exists nc, na, (pos x')|].
  intros He. exists nc, na, (pos x'). split; [done|]. rewrite (Hp He), Hpos.
  intros j. at_partition k j; apply Hq.
Qed.

Lemma ReadMessage_at s x :
  Inv (s, x) →
  match (ReadMessage x).1 with
  | inr _ => Inv (s, (ReadMessage x).2)
  | inl m => ∃ k nc na q, topic k !! q k = Some m ∧ (∀ j, base j ≤ q j ≤ na j)%nat ∧
               At nc na (past k q) (s, (ReadMessage x).2)
  end.
Proof.
  intros (nc & na & q & [Hb ? (L & ? & ?) ? Hq] & Hle). simpl in *.
  pose proof (ReadMessage_law x) as Hl. destruct (ReadMessage x) as [r x'].
  destruct Hl as (Hk & Hr & q' & Hq' & Hl).
  assert (∀ j, base j ≤ q' j ≤ na j)%nat as Hle'.
  { intros j. specialize (Hle j). destruct (Hq' j) as [->| ->]; [by rewrite Hq|].
    pose proof (Hb j). lia. }
  assert (At nc na (pos x') (s, x')) as Hat.
  { constructor; simpl; rewrite ?Hk; try done. exists L. by auto. }
  destruct r as [m|e]; simpl.
  - destruct Hl as (k & Hm & Hp). rewrite Hp in Hat. by exists k, nc, na, q'.
  - rewrite Hl in Hat. by exists nc, na, q'.
Qed.

Definition Round_post (r : option (option error)) (p : Proc (CalcService * E)) : Prop :=
  Consistent (heap p) ∧ (r = None → Inv (heap p)).

Lemma handled_at k m nc na q :
  topic k !! q k = Some m → (∀ j, base j ≤ q j ≤ na j)%nat →
  hoare (λ p, At nc na (past k q) (heap p))
    (err ← processMessage svc client m;
     match err with
     | None => mret None
     | Some _ =>
         _ ← emit (Inc m_consumerErrors ["process"]);
         seekErr ← env (Seek m);
         match seekErr with
         | None => mret None
         | Some e =>
             _ ← emit (Inc m_consumerErrors ["seek"]);
             mret (Some (Some (EWrap "rewind failed after processing error: " e "")))
         end
     end) Round_post.
Proof.
  intros Hm Hq. eapply hoare_bind; [by apply (processMessage_at k (q k))|].
  intros err. apply hoare_pre_ex. intros nc'. apply hoare_pre_ex. intros na'.
  apply hoare_pre_and. intros Hle. assert (∀ j, base j ≤ q j ≤ na' j)%nat as Hq'.
  { intros j. specialize (Hq j). specialize (Hle j). lia. }
  destruct err as [e|].
  - eapply hoare_bind.
    { apply (hoare_pure (λ s, At nc' na' (past k q) s ∧ _)). auto with toll. }
    intros ?. eapply hoare_bind; [|intros [e'|]].
    + intros p [Hat _]. exact (Seek_at k m nc' na' q Hm Hq' p Hat).
    + intros p [? _]. split; [done|]. done.
    + intros p [? Hinv]. split; [done|]. intros _. by apply Hinv.
  - intros p [Hat Hlt]. specialize (Hlt eq_refl).
    assert (Inv (heap p)) as Hinv.
    { exists nc', na', (past k q). split; [done|]. intros j. pose proof (Hq' k).
      at_partition k j; [lia|apply Hq']. }
    split; [by apply Inv_Consistent|done].
Qed.

Lemma Start_round_inv :
  hoare (λ p, Inv (heap p)) (Start_round svc client) Round_post.
Proof.
  assert (∀ r p, Inv (heap p) → Round_post r p) as Hdone
    by (intros; split; [by apply Inv_Consistent|done]).
  unfold Start_round. eapply hoare_bind.
  { apply (hoare_env _ _ (λ _ s, Inv s)). intros s x (nc & na & q & Hat & ?).
    exists nc, na, q. split; [|done]. by eapply At_keeps; [apply ctx_Err_law|]. }
  intros [e|]; [intros p; apply Hdone|]. eapply hoare_bind.
  { apply (hoare_env _ _ (λ r s, match r with
      | inr _ => Inv s
      | inl m => ∃ k nc na q, topic k !! q k = Some m ∧ (∀ j, base j ≤ q j ≤ na j)%nat ∧
                   At nc na (past k q) s end)). intros s x. apply ReadMessage_at. }
  intros [m|e].
  - do 4 (apply hoare_pre_ex; intros ?). do 2 (apply hoare_pre_and; intros ?).
    hpure. eapply hoare_bind; [apply updateLag_at|intros ?]. by apply handled_at.
  - case_bool_decide; [intros p; apply Hdone|]. hpure. intros p. apply Hdone.
Qed.

(** Any number of rounds. *)
Lemma Start_consistent n : hoare (λ p, Inv (heap p)) (Start svc client n) Round_post.
Proof.
  induction n as [|n IH]; simpl.
  { intros p Hp. split; [by apply Inv_Consistent|done]. }
  eapply hoare_bind; [apply Start_round_inv|]. intros [r|].
  - intros p [? ?]. by split.
  - intros p [_ Hinv]. by apply IH, Hinv.
Qed.

(** A calculator that starts where the group has committed. *)
Lemma Inv_start s :
  s.1 = NewCalcService → (∀ k, pos s.2 k = base k) → (∀ k, committed s.2 k = base k) →
  (∀ k, base k ≤ length (topic k))%nat → remote s.2 L0 → Inv s.
Proof using Type.
  intros Hs Hp Hc Hl Hr. exists base, base, (pos s.2). split; [|intros k; rewrite Hp; lia].
  constructor; try done.
  - intros k. rewrite Hc. split_and!; (done || lia).
  - intros k. by rewrite seen_base, Hs.
  - exists L0. split; [done|]. constructor; [|by left]. intros k. unfold ledger_at.
    by rewrite seen_base.
  - intros k. rewrite seen_base. constructor.
Qed.

Lemma Start_prefix n (p : Proc (CalcService * E)) :
  Inv (heap p) →
  let x := (heap (exec (Start svc client n) p)).2 in
  ∃ na L, remote x L ∧ Parts na L ∧
    ∀ k, (base k ≤ committed x k ≤ na k)%nat ∧ (na k ≤ length (topic k))%nat ∧
      all_valid (seen (topic k) (base k) (na k)).
Proof.
  intros Hinv x. destruct (Start_consistent n p Hinv) as [(nc & na & q & [Hb _ (L & Hr & HL) Hv _]) _].
  exists na, L. split_and!; [done|done|]. intros k.
  destruct (Hb k) as (? & ? & ? & ? & ?). unfold x. split_and!; [done|done|lia|apply Hv].
Qed.
End Loop.

(** ** The ideal ledger *)

Lemma agg_ledgers_NoDup ds L : NoDup (l_ids L) → NoDup (l_ids (agg_ledgers ds L)).
Proof.
  intros HL. induction ds as [|d ds IH] using rev_ind; [done|].
  rewrite agg_ledgers_app. simpl. rewrite agg_ledger_ids. unfold l_dup.
  destruct (invalid_distance d); simpl; [done|]. case_bool_decide; [done|].
  apply NoDup_app. split_and!; [done|set_solver|apply NoDup_singleton].
Qed.

(** Valid events with distinct ids are all applied, in order. *)
Lemma agg_ledgers_fresh ds L :
  Forall (λ d, invalid_distance d = false) ds → NoDup (l_ids L ++ (d_EventID <$> ds)) →
  agg_ledgers ds L = L ++ ds.
Proof.
  intros Hv. revert L. induction Hv as [|d ds Hd _ IH]; intros L Hnd; [by rewrite app_nil_r|].
  change (agg_ledgers (d :: ds) L) with (agg_ledgers ds (agg_ledger d L)).
  rewrite fmap_cons in Hnd. pose proof Hnd as (_ & Hdis & _)%NoDup_app.
  assert (d_EventID d ∉ l_ids L) as Hn by (intros Hin; apply (Hdis _ Hin); left).
  assert (agg_ledger d L = L ++ [d]) as ->.
  { unfold agg_ledger, l_insert, l_dup. by rewrite Hd, bool_decide_eq_false_2. }
  rewrite IH; [by rewrite <- app_assoc|].
  rewrite l_ids_snoc by (by apply invalid_distance_spec in Hd as [? _]).
  by rewrite <- app_assoc.
Qed.

Lemma bills_zip es s : bills es s = zip_with (λ e r, bill e r.1) es (calc_run es s).1.
Proof.
  revert s. induction es as [|e es IH]; intros s; [done|]. simpl.
  destruct (CalcService.CalculateDist e s) as [[v err] s']. rewrite IH.
  by destruct (calc_run es s').
Qed.

Lemma bills_fresh es :
  NoDup (od_EventID <$> es) → bills es NewCalcService = zip_with bill es (h_dists [] es).
Proof.
  intros Hnd. rewrite bills_zip, (calc_run_fresh es _ []) by (done || apply calc_refines_new).
  by rewrite zip_with_fmap_r.
Qed.

Lemma zip_bill_ids es vs :
  length vs = length es → d_EventID <$> zip_with bill es vs = od_EventID <$> es.
Proof.
  revert vs. induction es as [|e es IH]; intros [|v vs] Hl; try done.
  simpl. f_equal. apply IH. by injection Hl.
Qed.

Lemma zip_bill_values es vs obu :
  Forall (λ e, in_i32 (od_OBUID e)) es →
  l_values (zip_with bill es vs) obu =
    omap (λ '(e, v), if bool_decide (od_OBUID e = obu) then Some v else None) (zip es vs).
Proof.
  intros Hes. revert vs. unfold l_values.
  induction Hes as [|e es He _ IH]; intros [|v vs]; [done..|]. simpl.
  rewrite filter_cons. simpl. rewrite (wrapS_id 32) by (lia || apply He).
  destruct (decide (od_OBUID e = obu)).
  - rewrite bool_decide_eq_true_2 by done. simpl. by rewrite IH.
  - by rewrite bool_decide_eq_false_2 by done.
Qed.

Lemma ideal_trajectory `{JsonCodec} (ms : list Message) (obu : Z) :
  let es := omap usable ms in
  NoDup (od_EventID <$> es) → Forall (λ e, in_i32 (od_OBUID e)) es → all_valid ms →
  let own := filter (λ e, od_OBUID e = obu) es in
  l_values (ideal_ledger ms) obu = h_dists [] own ∧
  (own ≠ [] → l_total (ideal_ledger ms) obu = Some (foldl fadd fzero (h_dists [] own))).
Proof.
  intros es Hnd Hi Hv own.
  assert (l_values (ideal_ledger ms) obu = h_dists [] own) as Hl.
  { unfold ideal_ledger, all_valid, ideal_bills in *. fold es in Hv |- *.
    rewrite bills_fresh in * by done.
    rewrite agg_ledgers_fresh; [|done|].
    2:{ simpl. rewrite zip_bill_ids; [done|apply length_h_dists]. }
    simpl. rewrite zip_bill_values by done. apply h_dists_own. }
  split; [done|]. intros Hown. unfold l_total. rewrite Hl.
  pose proof (length_h_dists [] own). destruct own; [done|]. by destruct (h_dists [] _).
Qed.

(** ** What a run from the beginning of the topic leaves *)

Lemma NoDup_filters {A B} (P : B → A → Prop) (dec : ∀ b x, Decision (P b x)) (l : list A) :
  (∀ x, x ∈ l → ∃ b, P b x) → (∀ b, NoDup (filter (P b) l)) → NoDup l.
Proof.
  induction l as [|x l IH]; intros Hall Hnd; [constructor|]. constructor.
  - intros Hx. destruct (Hall x) as [b Hb]; [left|]. specialize (Hnd b).
    rewrite filter_cons_True in Hnd by done. apply NoDup_cons in Hnd as [Hn _].
    apply Hn. by apply list_elem_of_filter.
  - apply IH; [intros y Hy; apply Hall; by right|]. intros b. specialize (Hnd b).
    rewrite filter_cons in Hnd. case_decide; [by apply NoDup_cons in Hnd as [_ ?]|done].
Qed.

Section Passes.
Context `{JsonCodec} (topic : nat → list Message).

(** [L] interleaves the fault-free passes over the first [na k] messages of every
    partition [k]. *)
Record passes (na : nat → nat) (L : Ledger) : Prop := {
  passes_own k : own topic k L = ideal_ledger (take (na k) (topic k));
  passes_all d : d ∈ L → ∃ k, d_EventID d ∈ ids topic k
}.

Lemma l_ids_own k L : l_ids (own topic k L) = filter (λ id, id ∈ ids topic k) (l_ids L).
Proof.
  unfold l_ids, own. induction L as [|d L IH]; [done|]. rewrite fmap_cons, !filter_cons.
  destruct (decide (d_EventID d ∈ ids topic k)); rewrite ?fmap_cons, ?filter_cons;
    (destruct (decide (d_EventID d ≠ "")); rewrite ?filter_cons; repeat case_decide; try done; by f_equal).
Qed.

Lemma ledger_NoDup L :
  (∀ d, d ∈ L → ∃ k, d_EventID d ∈ ids topic k) → (∀ k, NoDup (l_ids (own topic k L))) →
  NoDup (l_ids L).
Proof.
  intros Ha Ho. apply (NoDup_filters (λ k id, id ∈ ids topic k) (λ k id, decide_rel (∈) id (ids topic k))).
  - intros id [_ Hin]%list_elem_of_filter. apply list_elem_of_fmap in Hin as (d & -> & Hd). by apply Ha.
  - intros k. rewrite <- l_ids_own. apply Ho.
Qed.

Lemma passes_NoDup na L : passes na L → NoDup (l_ids L).
Proof.
  intros [Ho Ha]. apply ledger_NoDup; [done|]. intros k. rewrite Ho.
  apply agg_ledgers_NoDup. constructor.
Qed.
End Passes.

(** ** Properties *)

Section Guarantees.
#[local] Set Default Proof Using "Type*".
Context {E : Type} {topic : nat → list Message} {pos committed : E → nat → nat}.
Context {remote : E → Ledger → Prop}.
Context `{TopicLaws E topic pos committed remote} `{JsonCodec}.
Context (client : Client (Proc E)) (ok : Distance → Prop).
Context `{!AggregateClient E client ok remote (unmoved pos committed)}.

(** A calculator and an aggregator that have not seen any message. *)
Definition at_beginning (s : CalcService * E) : Prop :=
  s.1 = NewCalcService ∧ (∀ k, pos s.2 k = 0%nat) ∧ (∀ k, committed s.2 k = 0%nat) ∧ remote s.2 [].

(** The transport carries every bill of the fault-free passes. *)
Definition carried : Prop :=
  ∀ k i m e, topic k !! i = Some m → usable m = Some e → ok (ideal_bill (take i (topic k)) e).

Lemma Start_passes n (p : Proc (CalcService * E)) :
  keyed topic → carried → at_beginning (heap p) →
  let x := (heap (exec (Start calc_service client n) p)).2 in
  ∃ na L, remote x L ∧ passes topic na L ∧
    ∀ k, (committed x k ≤ na k ≤ length (topic k))%nat ∧ all_valid (take (na k) (topic k)).
Proof.
  intros Hk Hok (Hs & Hq & Hc & Hr) x.
  destruct (Start_prefix (base:=λ _, 0%nat) (L0:=[]) Hk Hok n p) as (na & L & HL & [Ho Ha] & Hb).
  { apply Inv_start; (done || intros; lia). }
  exists na, L. split_and!; [done|constructor|].
  - intros k. rewrite Ho. done.
  - intros d [Hin|?]%Ha; [by apply not_elem_of_nil in Hin|done].
  - intros k. destruct (Hb k) as ([_ ?] & ? & ?). by split_and!.
Qed.

(** C3. Exactly-once billing: whatever polls, rebalances, commits, rewinds and
    calls fail, and in whatever order the partitions are read, after any number of
    rounds of the consumer's loop the aggregator's ledger interleaves the
    fault-free passes over a prefix of every partition - every event of the prefix
    billed once, with the distance from the previous point of its vehicle - and
    the prefix covers every offset committed there; when a whole partition is
    committed it is the whole partition. *)
Theorem consumer_exactly_once (n : nat) (p : Proc (CalcService * E)) :
  keyed topic → carried → at_beginning (heap p) →
  let x := (heap (exec (Start calc_service client n) p)).2 in
  ∃ na L, remote x L ∧ passes topic na L ∧ NoDup (l_ids L) ∧
    (∀ k, committed x k ≤ na k ≤ length (topic k))%nat ∧
    (∀ k, committed x k = length (topic k) → own topic k L = ideal_ledger (topic k)).
Proof.
  intros Hk Hok Hstart x.
  destruct (Start_passes n p Hk Hok Hstart) as (na & L & Hr & HL & Hb). fold x in Hr, Hb.
  exists na, L. split_and!; [done|done|by eapply passes_NoDup|apply Hb|].
  intros k Hlen. destruct (Hb k) as [? _]. rewrite (passes_own _ _ _ HL).
  by rewrite take_ge by lia.
Qed.

(** C17. A poison pill blocks its partition: an event that the consumer accepts
    and the aggregator never will (its vehicle number, cut to 32 bits, is not
    positive, or its distance is not finite) is retried for ever, in every
    environment; nothing behind it in its partition is committed or billed. *)
Theorem poison_pill_blocks (n : nat) (p : Proc (CalcService * E)) (k i : nat) (m : Message)
    (e : OBUData) :
  keyed topic → carried → at_beginning (heap p) →
  topic k !! i = Some m → usable m = Some e →
  wrapS 32 (od_OBUID e) ≤ 0 ∨ is_finite (d_Value (ideal_bill (take i (topic k)) e)) = false →
  let x := (heap (exec (Start calc_service client n) p)).2 in
  (committed x k ≤ i)%nat ∧ ∃ na L, remote x L ∧ passes topic na L ∧ (na k ≤ i)%nat.
Proof.
  intros Hk Hok Hstart Hm He Hbad x.
  destruct (Start_passes n p Hk Hok Hstart) as (na & L & Hr & HL & Hb). fold x in Hr, Hb.
  destruct (Hb k) as [Hle Hval].
  assert (na k ≤ i)%nat as Hi; [|split; [lia|by exists na, L]].
  apply Nat.nlt_ge. intros Hlt.
  destruct (take_middle (topic k) i (na k) m Hm Hlt) as [ms' E1]. rewrite E1 in Hval.
  destruct (ideal_offered _ m ms' e [] He Hval) as [Hinv _].
  apply invalid_distance_spec in Hinv as (_ & _ & Hobu & _ & Hfin). simpl in Hobu.
  destruct Hbad as [Hbad|Hbad]; [lia|]. by rewrite Hbad in Hfin.
Qed.
End Guarantees.

(** C9. The bill of a vehicle is its trajectory: in the ideal pass over events
    with distinct ids and vehicle numbers below 2^31, the distances charged to a
    vehicle are the distances between its own consecutive points (zero for the
    first), however the vehicles interleave, and its total is their sum. *)
Theorem bill_is_trajectory `{JsonCodec} (ms : list Message) (obu : Z) :
  let es := omap usable ms in
  NoDup (od_EventID <$> es) → Forall (λ e, in_i32 (od_OBUID e)) es → all_valid ms →
  let own := filter (λ e, od_OBUID e = obu) es in
  l_values (ideal_ledger ms) obu = h_dists [] own ∧
  (own ≠ [] → l_total (ideal_ledger ms) obu = Some (foldl fadd fzero (h_dists [] own))).
Proof. apply ideal_trajectory. Qed.
