(* ===== verification/Broker.v ===== *)
(** * Broker: an executable environment for the calculator

    A broker with a topic of any number of partitions, an aggregator process
    reached over gRPC, and a schedule of faults: every operation of the
    environment consumes the next entry of the schedule and misbehaves
    accordingly.  Polls go round the partitions that have unread messages.  It
    satisfies the laws of Pipeline.v, so the guarantees proved there apply to
    concrete runs; and when the schedule runs out the loop finishes the topic
    (liveness). *)

From stdpp Require Import functions.
From S2P Require Import Prelude Float64 GoLib Types Store Service Http Decimal Json GoJson Server Calculator Client Consumer Pipeline.

Local Open Scope Z_scope.

Inductive Fault :=
| Fine
| ReadFails           (* the poll returns an error *)
| Rebalances          (* the poll times out; the positions become the committed offsets *)
| CommitFails | CommitLosesAck
| CallDropped         (* the request does not reach the aggregator *)
| CallLosesReply      (* it does, and the reply is lost *)
| SeekFails
| Cancelled.          (* the loop's context is done *)

#[global] Instance Fault_eq_dec : EqDecision Fault.
Proof. solve_decision. Defined.

Record Sim (S : Type) := mkSim {
  sim_pos : nat → nat;
  sim_committed : nat → nat;
  sim_turn : nat;                (* the partition that the next poll looks at first *)
  sim_faults : list Fault;
  sim_agg : Proc S
}.
Arguments mkSim {S}. Arguments sim_pos {S}. Arguments sim_committed {S}.
Arguments sim_turn {S}. Arguments sim_faults {S}. Arguments sim_agg {S}.

(** The partition [k] of a topic. *)
Definition partition (logs : list (list Message)) (k : nat) : list Message :=
  default [] (logs !! k).

Section Sim.
Context {S : Type}.

(** The next entry of the schedule. *)
Definition pop (s : Sim S) : Fault * Sim S :=
  match sim_faults s with
  | [] => (Fine, s)
  | f :: fs => (f, mkSim (sim_pos s) (sim_committed s) (sim_turn s) fs (sim_agg s))
  end.

Definition set_pos (q : nat → nat) (s : Sim S) : Sim S :=
  mkSim q (sim_committed s) (sim_turn s) (sim_faults s) (sim_agg s).
Definition set_turn (k : nat) (s : Sim S) : Sim S :=
  mkSim (sim_pos s) (sim_committed s) k (sim_faults s) (sim_agg s).
Definition set_committed (c : nat → nat) (s : Sim S) : Sim S :=
  mkSim (sim_pos s) c (sim_turn s) (sim_faults s) (sim_agg s).
Definition set_agg (a : Proc S) (s : Sim S) : Sim S :=
  mkSim (sim_pos s) (sim_committed s) (sim_turn s) (sim_faults s) a.

Definition timed_out : error := EKafka ErrTimedOut "Local: Timed out".

(** The unread messages that a poll can return, the one it returns first. *)
Definition available (logs : list (list Message)) (s : Sim S) : list (nat * Message) :=
  omap (λ k, pair k <$> partition logs k !! sim_pos s k) (rotate (sim_turn s) (seq 0 (length logs))).

Definition sim_env (logs : list (list Message)) : ConsumerEnv (Sim S) := {|
  ctx_Err s := let '(f, s) := pop s in
    (if bool_decide (f = Cancelled) then Some (ESentinel Canceled) else None, s);
  call_Err s := (None, s);
  GetWatermarkOffsets _ k s := (inl (0, Z.of_nat (length (partition logs (Z.to_nat k)))), s);
  ReadMessage s := let '(f, s) := pop s in
    if bool_decide (f = ReadFails) then (inr (EKafka (OtherKafka (-195)) "Local: Broker transport failure"), s)
    else if bool_decide (f = Rebalances) then (inr timed_out, set_pos (sim_committed s) s)
    else match available logs s with
         | (k, m) :: _ => (inl m, set_turn (Datatypes.S k) (set_pos (past k (sim_pos s)) s))
         | [] => (inr timed_out, s)
         end;
  CommitMessage m s := let '(f, s) := pop s in
    let s' := set_committed (<[Z.to_nat (Partition m) := Datatypes.S (Z.to_nat (Offset m))]>
                               (sim_committed s)) s in
    if bool_decide (f = CommitFails) then (Some (EText "commit failed"), s)
    else if bool_decide (f = CommitLosesAck) then (Some (EText "request timed out"), s')
    else (None, s');
  Seek m s := let '(f, s) := pop s in
    if bool_decide (f = SeekFails) then (Some (EText "seek failed"), s)
    else (None, set_pos (<[Z.to_nat (Partition m) := Z.to_nat (Offset m)]> (sim_pos s)) s)
|}.

Definition sim_grpc `{Storer S} `{GrpcStatus} : GrpcTransport (Sim S) := {|
  Invoke req s := let '(f, s) := pop s in
    let unavailable := EStatus (OtherCode "Unavailable") "connection refused" in
    if bool_decide (f = CallDropped) then (Some unavailable, s)
    else let '((_, err), a) := newGRPCServer service req (sim_agg s) in
         (if bool_decide (f = CallLosesReply) then Some unavailable else err, set_agg a s)
|}.

Definition sim_remote `{StorerSpec S} (s : Sim S) (L : Ledger) : Prop :=
  refines (heap (sim_agg s)) L.

Lemma pop_fields s :
  sim_pos (pop s).2 = sim_pos s ∧ sim_committed (pop s).2 = sim_committed s ∧
  sim_agg (pop s).2 = sim_agg s ∧
  (sim_faults s = [] ∧ pop s = (Fine, s) ∨ sim_faults s = (pop s).1 :: sim_faults (pop s).2).
Proof. unfold pop. destruct (sim_faults s); simpl; split_and!; by auto. Qed.

Lemma partition_lt logs k n m : partition logs k !! n = Some m → (k < length logs)%nat.
Proof.
  unfold partition. destruct (logs !! k) eqn:E; [|done]. intros _. by eapply lookup_lt_Some.
Qed.

Lemma available_elem logs s k m :
  (k, m) ∈ available logs s ↔ partition logs k !! sim_pos s k = Some m.
Proof.
  unfold available. rewrite list_elem_of_omap. split.
  - intros (j & _ & Hj). apply fmap_Some in Hj as (m' & Hm & [= -> ->]). done.
  - intros Hm. exists k. rewrite Hm. split; [|done]. unfold rotate.
    apply partition_lt in Hm. rewrite Permutation_app_comm, take_drop. apply elem_of_seq. lia.
Qed.
End Sim.

(** A topic whose partitions have the given values. *)
Definition mk_topic (values : list (list string)) : list (list Message) :=
  imap (λ k vs, imap (λ i v, mkMessage (Some "obudata") (Z.of_nat k) (Z.of_nat i) v) vs) values.

(** Messages carry their partition and offset. *)
Definition topic_ok (logs : list (list Message)) : Prop :=
  ∀ k n m, partition logs k !! n = Some m → Partition m = Z.of_nat k ∧ Offset m = Z.of_nat n.

Lemma mk_topic_ok values : topic_ok (mk_topic values).
Proof.
  intros k n m. unfold mk_topic, partition. rewrite list_lookup_imap.
  destruct (values !! k) as [vs|]; [|done]. simpl. rewrite list_lookup_imap.
  destruct (vs !! n); [|done]. by intros [= <-].
Qed.

Section Laws.
Context {S : Type} `{StorerSpec S} (logs : list (list Message)) (Hlogs : topic_ok logs).
#[local] Existing Instance sim_env.

#[local] Set Default Proof Using "Type*".

Lemma sim_laws :
  TopicLaws (H:=sim_env logs) (Sim S) (partition logs) sim_pos sim_committed sim_remote.
Proof.
  constructor; simpl; try (intros; split_and!; by auto).
  - intros s. destruct (pop_fields s) as (Hp & Hc & Ha & _).
    destruct (pop s) as [f s']. simpl in *. unfold keeps, sim_remote. by rewrite Hp, Hc, Ha.
  - intros s. destruct (pop_fields s) as (Hp & Hc & Ha & _).
    destruct (pop s) as [f s']. simpl in *. unfold sim_remote.
    case_bool_decide; simpl; [rewrite Hp, Hc, Ha; by eauto 10|].
    case_bool_decide; simpl; [rewrite Hc, Ha; by eauto 10|].
    destruct (available logs s') as [|[k m] av] eqn:E; simpl; rewrite ?Hp, Hc, Ha; [by eauto 10|].
    assert ((k, m) ∈ available logs s') as Hm%available_elem by (rewrite E; left).
    rewrite Hp in Hm. eauto 10.
  - intros k n m s Hm. destruct (Hlogs k n m Hm) as [-> ->]. rewrite !Nat2Z.id.
    destruct (pop_fields s) as (Hp & Hc & Ha & _).
    destruct (pop s) as [f s']. simpl in *. unfold sim_remote.
    case_bool_decide; [|case_bool_decide]; simpl; rewrite Hp, ?Hc, Ha; naive_solver.
  - intros k n m s Hm. destruct (Hlogs k n m Hm) as [-> ->]. rewrite !Nat2Z.id.
    destruct (pop_fields s) as (Hp & Hc & Ha & _).
    destruct (pop s) as [f s']. simpl in *. unfold sim_remote.
    case_bool_decide; simpl; rewrite ?Hp, Hc, Ha; naive_solver.
Qed.
End Laws.

Section Transport.
Context {S : Type} `{StorerSpec S} `{GrpcStatus}.

(** What one call does to the simulated network, fault by fault. *)
Lemma sim_Invoke req (s : Sim S) L :
  sim_remote s L →
  let d := grpc_distance req in
  let '(err, s') := Invoke (GrpcTransport:=sim_grpc) req s in
  sim_pos s' = sim_pos s ∧ sim_committed s' = sim_committed s ∧
  sim_faults s' = sim_faults (pop s).2 ∧
  (if bool_decide ((pop s).1 = CallDropped) then is_Some err ∧ sim_remote s' L
   else sim_remote s' (agg_ledger d L) ∧
        if bool_decide ((pop s).1 = CallLosesReply) then is_Some err
        else err = None ↔ invalid_distance d = false).
Proof.
  intros HL d. simpl. destruct (pop_fields s) as (Hp & Hc & Ha & _).
  destruct (pop s) as [f s']. simpl in *. unfold sim_remote in *.
  case_bool_decide; [rewrite Hp, Hc, Ha; by eauto|].
  rewrite <- Ha in HL. destruct (interceptor_transparent Aggregate_FullMethodName
    (grpc_Aggregate service req) (sim_agg s')) as [Gw Gh].
  destruct (grpc_Aggregate_step req (exec Now (sim_agg s')) L HL) as [Gs Gr].
  rewrite <- Gw in Gs. rewrite <- Gh in Gr. unfold newGRPCServer, run, exec in *.
  destruct (grpcMetricsInterceptor _ _ (sim_agg s')) as [[reply err] a]. cbn [fst snd] in *.
  simpl. split_and!; [done..|].
  case_bool_decide; [by eauto|]. fold d in Gs. by destruct (invalid_distance d); simplify_eq.
Qed.

Lemma sim_grpc_spec :
  GrpcTransportSpec (H:=sim_grpc) (Sim S) (λ _, True) sim_remote
    (unmoved sim_pos sim_committed).
Proof.
  constructor. intros req s L _ HL. pose proof (sim_Invoke req s L HL) as Hs.
  destruct (Invoke req s) as [err s']. destruct Hs as (Hp & Hc & _ & Hs).
  split; [done|]. case_bool_decide.
  - destruct Hs as [[e ->] ?]. split; [done|]. by left.
  - destruct Hs as [? Hs]. case_bool_decide.
    + destruct Hs as [e ->]. split; [done|]. by right.
    + split; [|by right]. intros He. split; [by apply Hs|done].
Qed.
End Transport.

(** ** What is left to do *)

(** The number of messages at or after the positions [q]. *)
Fixpoint unread (logs : list (list Message)) (q : nat → nat) : nat :=
  match logs with
  | [] => 0
  | log :: logs => length log - q 0 + unread logs (λ k, q (S k))
  end%nat.

Lemma unread_le logs q : (unread logs q ≤ length (concat logs))%nat.
Proof.
  revert q. induction logs as [|log logs IH]; intros q; simpl; [lia|].
  rewrite length_app. specialize (IH (λ k, q (S k))). lia.
Qed.

Lemma unread_same logs q q' : (∀ k, q k = q' k) → unread logs q = unread logs q'.
Proof.
  revert q q'. induction logs as [|log logs IH]; intros q q' Hq; simpl; [done|].
  rewrite Hq. f_equal. by apply IH.
Qed.

Lemma unread_past logs q k m :
  partition logs k !! q k = Some m → unread logs q = S (unread logs (past k q)).
Proof.
  assert (∀ q', q' k = S (q k) → (∀ j, k ≠ j → q' j = q j) →
    partition logs k !! q k = Some m → unread logs q = S (unread logs q')) as H.
  { revert k q. induction logs as [|log logs IH]; intros k q q' Hk Hj Hm; [done|]. simpl.
    destruct k as [|k].
    - rewrite Hk, (unread_same logs (λ j, q' (S j)) (λ j, q (S j))) by (intros j; by apply Hj).
      apply lookup_lt_Some in Hm. unfold partition in Hm. simpl in Hm. lia.
    - rewrite Hj by done. rewrite (IH k (λ j, q (S j)) (λ j, q' (S j))); [lia|done| |done].
      intros j Hne. apply Hj. congruence. }
  apply H.
  - unfold past. by rewrite fn_lookup_insert.
  - intros j Hne. unfold past. by rewrite fn_lookup_insert_ne.
Qed.

Lemma unread_none logs q : unread logs q = 0%nat → ∀ k, (length (partition logs k) ≤ q k)%nat.
Proof.
  revert q. induction logs as [|log logs IH]; intros q Hq k; [unfold partition; simpl; lia|].
  simpl in Hq. destruct k as [|k]; [unfold partition; simpl; lia|].
  apply (IH (λ j, q (S j))). lia.
Qed.

Lemma unread_read logs q : (∀ k, partition logs k !! q k = None) → unread logs q = 0%nat.
Proof.
  revert q. induction logs as [|log logs IH]; intros q Hq; [done|]. simpl.
  pose proof (Hq 0%nat) as H0. apply lookup_ge_None in H0. unfold partition in H0. simpl in H0.
  rewrite IH; [lia|]. intros k. apply (Hq (S k)).
Qed.

(** ** Liveness *)

Section Liveness.
Context {S : Type} `{StorerSpec S} `{GrpcStatus} `{JsonCodec}.
Context (logs : list (list Message)) (Hlogs : topic_ok logs).
(** Where the process has started, and the aggregator's ledger at that moment. *)
Context (base : nat → nat) (L0 : Ledger).
#[local] Set Default Proof Using "Type*".

#[local] Instance env_inst : ConsumerEnv (Sim S) := sim_env logs.
#[local] Instance laws_inst :
  TopicLaws (Sim S) (partition logs) sim_pos sim_committed sim_remote := sim_laws logs Hlogs.
#[local] Instance grpc_inst : GrpcTransport (Sim S) := sim_grpc.
#[local] Instance grpc_spec_inst :
  GrpcTransportSpec (Sim S) (λ _, True) sim_remote (unmoved sim_pos sim_committed) := sim_grpc_spec.

Abbreviation client := (GrpcClient (X:=Sim S)).
Abbreviation Run := (Proc (CalcService * Sim S)).
Abbreviation topic := (partition logs).

(** What is left of the schedule, and the two offsets of every partition. *)
Definition Track (fs : list Fault) (q c : nat → nat) (s : CalcService * Sim S) : Prop :=
  sim_faults s.2 `suffix_of` fs ∧ sim_pos s.2 = q ∧ sim_committed s.2 = c.

Lemma pop_suffix (s : Sim S) : sim_faults (pop s).2 `suffix_of` sim_faults s.
Proof.
  unfold pop. destruct (sim_faults s) as [|f fs] eqn:E; simpl; [by rewrite E|]. by exists [f].
Qed.

Lemma Track_pop fs q c x (s : Sim S) : Track fs q c (x, s) → Track fs q c (x, (pop s).2).
Proof.
  intros (Hf & Hp & Hc). destruct (pop_fields s) as (Ep & Ec & _).
  split_and!; simpl in *; [|congruence..]. etrans; [apply pop_suffix|done].
Qed.

Lemma client_Track req fs q c x (p : Proc (Sim S)) :
  Track fs q c (x, heap p) → Track fs q c (x, heap (exec (Client_Aggregate client req) p)).
Proof.
  intros Ht. simpl. unfold exec, grpc_client_Aggregate. rewrite !M_bind_eq.
  unfold mret, M_ret. cbn [fst snd]. rewrite !(heap_pure_emit _ _), (heap_pure_Since _ _).
  destruct (lift_heap (Invoke req) (Now p).2) as [_ ->]. change (heap (Now p).2) with (heap p).
  apply (Track_pop fs q c x) in Ht. simpl. revert Ht. destruct (pop (heap p)) as [f s]. simpl.
  case_bool_decide; [done|]. by destruct (newGRPCServer _ _ _) as [[reply err] a].
Qed.

Lemma processEvent_track e fs q c :
  hoare (λ p : Run, Track fs q c (heap p)) (processEvent calc_service client e)
    (λ _ p, Track fs q c (heap p)).
Proof.
  unfold processEvent. hpure.
  eapply hoare_bind; [apply (hoare_calc _ _ (λ _, Track fs q c)); intros x y Ht; exact Ht|].
  intros [dist [err|]]; [hpure; by intros p|]. do 3 hpure.
  eapply hoare_bind.
  { apply (hoare_client _ _ (λ _, Track fs q c)). intros x p. apply client_Track. }
  intros err. do 2 hpure.
  eapply hoare_bind; [apply (hoare_env _ _ (λ _, Track fs q c)); intros x y Ht; exact Ht|].
  intros cerr. hpure. by intros p.
Qed.

(** A commit either reports success or an error, after which the offset may have moved. *)
Definition Committed (k i : nat) (fs : list Fault) (q c : nat → nat) (err : option error)
    (s : CalcService * Sim S) : Prop :=
  ∃ c', Track fs q c' s ∧ (c' = c ∨ c' = <[k := Datatypes.S i]> c) ∧
        (err = None → c' = <[k := Datatypes.S i]> c).

Lemma commit_track k i m fs q c :
  topic k !! i = Some m →
  hoare (λ p : Run, Track fs q c (heap p)) (env (CommitMessage m))
    (λ err p, Committed k i fs q c err (heap p)).
Proof.
  intros Hm. apply (hoare_env _ _ (Committed k i fs q c)). intros x s Ht%Track_pop.
  simpl. destruct (Hlogs k i m Hm) as [-> ->]. rewrite !Nat2Z.id. destruct (pop s) as [f s']. simpl in *.
  destruct Ht as (Hf & Hp & <-). unfold Committed.
  case_bool_decide; [|case_bool_decide].
  - eexists. split_and!; [by split_and!|by left|done].
  - eexists. split_and!; [by split_and!|by right|done].
  - eexists. split_and!; [by split_and!|by right|done].
Qed.

Lemma processMessage_track k i m fs q c :
  topic k !! i = Some m →
  hoare (λ p : Run, Track fs q c (heap p)) (processMessage calc_service client m)
    (λ err p, Committed k i fs q c err (heap p)).
Proof.
  intros Hm. unfold processMessage. destruct (json_Unmarshal_OBUData _) as [d|].
  2:{ hpure. by apply commit_track. }
  destruct (invalid_event d); [hpure; by apply commit_track|].
  eapply hoare_bind; [apply processEvent_track|]. intros [err|].
  - intros p Ht. exists c. split_and!; [done|by left|done].
  - eapply hoare_bind; [by apply commit_track|]. intros cerr p (c' & ? & ? & Hn).
    exists c'. split_and!; [done|done|]. simpl. intros He. apply Hn. by destruct cerr.
Qed.

Definition safe (f : Fault) : Prop := f ≠ SeekFails ∧ f ≠ Cancelled.

Lemma pop_safe fs (s : Sim S) : Forall safe fs → sim_faults s `suffix_of` fs → safe (pop s).1.
Proof.
  intros Hs [pre ->]. apply Forall_app in Hs as [_ Hs].
  unfold pop. destruct (sim_faults s); simpl; [done|]. by inversion Hs.
Qed.

Definition Round_track (fs : list Fault) (r : option (option error))
    (s : CalcService * Sim S) : Prop :=
  r = None ∧ ∃ q c, Track fs q c s ∧ ∀ k, (q k ≤ c k)%nat.

Lemma seek_track k m fs q c :
  Forall safe fs → topic k !! q k = Some m →
  hoare (λ p : Run, Track fs (past k q) c (heap p)) (env (Seek m))
    (λ err p, err = None ∧ Track fs (<[k := q k]> (past k q)) c (heap p)).
Proof.
  intros Hs Hm.
  apply (hoare_env _ _ (λ err s, err = None ∧ Track fs (<[k := q k]> (past k q)) c s)).
  intros x s Ht. destruct (pop_safe fs s Hs) as [Hf _]; [apply Ht|]. apply Track_pop in Ht.
  simpl. destruct (Hlogs k _ m Hm) as [-> ->]. rewrite !Nat2Z.id.
  destruct (pop s) as [f s']. simpl in *.
  rewrite bool_decide_eq_false_2 by done. simpl. split; [done|].
  destruct Ht as (? & <- & ?). by split_and!.
Qed.

Lemma suffix_tail {A} (l k : list A) : l `suffix_of` k → tail l `suffix_of` tail k.
Proof.
  intros [[|x pre] ->]; [done|]. simpl. apply suffix_app_r. destruct l as [|y l]; [done|].
  by exists [y].
Qed.

Lemma Forall_tail {A} (P : A → Prop) l : Forall P l → Forall P (tail l).
Proof. by destruct 1. Qed.

Lemma ctx_Err_track fs q c :
  Forall safe fs →
  hoare (λ p : Run, Track fs q c (heap p)) (env ctx_Err)
    (λ r p, r = None ∧ Track (tail fs) q c (heap p)).
Proof.
  intros Hs. apply (hoare_env _ _ (λ r s, r = None ∧ Track (tail fs) q c s)).
  intros x s (Hf & Hp & Hc). destruct (pop_safe fs s Hs Hf) as [_ Hne].
  destruct (pop_fields s) as (Ep & Ec & _).
  assert (sim_faults (pop s).2 = tail (sim_faults s)) as Et
    by (unfold pop; by destruct (sim_faults s) eqn:E).
  simpl. destruct (pop s) as [f s']. simpl in *. rewrite bool_decide_eq_false_2 by done.
  split; [done|]. split; [|split; simpl; congruence]. simpl. rewrite Et.
  by apply suffix_tail.
Qed.

Lemma ReadMessage_track fs q c x (s : Sim S) :
  Track fs q c (x, s) → (∀ j, q j ≤ c j)%nat →
  match (ReadMessage s).1 with
  | inl m => ∃ k, topic k !! q k = Some m ∧ Track fs (past k q) c (x, (ReadMessage s).2)
  | inr _ => ∃ q', Track fs q' c (x, (ReadMessage s).2) ∧ (∀ j, q' j ≤ c j)%nat
  end.
Proof.
  intros Ht%Track_pop Hle. simpl. destruct (pop s) as [f s']. simpl in *.
  destruct Ht as (Hf & Hp & Hc). simpl in *.
  case_bool_decide; [by exists q|]. case_bool_decide; [by exists c|].
  destruct (available logs s') as [|[k m] av] eqn:E; simpl; [by exists q|].
  assert ((k, m) ∈ available logs s') as Hm%available_elem by (rewrite E; left).
  exists k. rewrite Hp in *. by split_and!.
Qed.

Lemma updateLag_track m fs q c :
  hoare (λ p : Run, Track fs q c (heap p)) (updateLag m) (λ _ p, Track fs q c (heap p)).
Proof.
  unfold updateLag. destruct (Topic m) as [t|]; [|by intros p].
  eapply hoare_bind; [apply (hoare_env _ _ (λ _, Track fs q c)); intros x s Ht; exact Ht|].
  intros [[]|]; [|by intros p]. apply (hoare_pure (Track fs q c)). auto with toll.
Qed.

(** A round without seek failures or cancellation goes on, uses up at least one
    entry of the schedule, and does not leave a position past the commit. *)
Lemma Start_round_track fs q c :
  Forall safe fs → (∀ j, q j ≤ c j)%nat →
  hoare (λ p : Run, Track fs q c (heap p)) (Start_round calc_service client)
    (λ r p, Round_track (tail fs) r (heap p)).
Proof.
  intros Hs Hle. unfold Start_round.
  eapply hoare_bind; [by apply ctx_Err_track|]. intros r. apply hoare_pre_and. intros ->.
  apply Forall_tail in Hs. revert Hs. generalize (tail fs). clear fs. intros fs Hs.
  eapply hoare_bind.
  { apply (hoare_env _ _ (λ r s, match r with
      | inl m => ∃ k, topic k !! q k = Some m ∧ Track fs (past k q) c s
      | inr _ => ∃ q', Track fs q' c s ∧ (∀ j, q' j ≤ c j)%nat end)).
    intros x s Ht. by apply ReadMessage_track. }
  intros [m|e].
  2:{ assert (∀ p, (∃ q', Track fs q' c (heap p) ∧ (∀ j, q' j ≤ c j)%nat) → Round_track fs None (heap p))
        as Hdone by (intros p (q' & ? & ?); split; [done|]; by exists q', c).
      case_bool_decide; [intros p; apply Hdone|]. eapply hoare_bind; [|intros ? p; apply Hdone].
      apply (hoare_pure (λ s, ∃ q', Track fs q' c s ∧ (∀ j, q' j ≤ c j)%nat)). auto with toll. }
  apply hoare_pre_ex. intros k. apply hoare_pre_and. intros Hm. hpure.
  eapply hoare_bind; [apply updateLag_track|intros ?].
  eapply hoare_bind; [by apply (processMessage_track k (q k))|].
  intros err. apply hoare_pre_ex. intros c'. destruct err as [e|].
  - eapply hoare_bind.
    { apply (hoare_pure (λ s, Track fs (past k q) c' s ∧
        (c' = c ∨ c' = <[k := Datatypes.S (q k)]> c) ∧ _)). auto with toll. }
    intros ? p (Ht & Hc & _). rewrite M_bind_eq.
    destruct (seek_track k m fs q c' Hs Hm p Ht) as [-> Ht'].
    split; [done|]. eexists _, c'. split; [exact Ht'|]. intros j. specialize (Hle j).
    destruct Hc as [->| ->]; at_partition k j; lia.
  - intros p (Ht & _ & Hn). specialize (Hn eq_refl). subst c'.
    split; [done|]. eexists _, _. split; [exact Ht|]. intros j. specialize (Hle j).
    at_partition k j; lia.
Qed.

(** ** Without faults *)

Context (apart : keyed topic).

Definition SimAt : (nat → nat) → (nat → nat) → (nat → nat) → CalcService * Sim S → Prop :=
  At (E:=Sim S) (topic:=topic) (base:=base) (L0:=L0) (pos:=sim_pos) (committed:=sim_committed)
     (remote:=sim_remote).

(** The process meets no poison pill. *)
Definition no_pill : Prop := ∀ k, all_valid (seen (topic k) (base k) (length (topic k))).

Lemma Track_nil q c x (s : Sim S) : Track [] q c (x, s) → pop s = (Fine, s).
Proof. intros (Hf & _). apply suffix_nil_inv in Hf. unfold pop. simpl in Hf. by rewrite Hf. Qed.

Lemma sim_ok k i m e :
  topic k !! i = Some m → usable m = Some e →
  (λ _ : Distance, True) (ideal_bill (seen (topic k) (base k) i) e).
Proof. done. Qed.

Definition Calm (nc na q c : nat → nat) (s : CalcService * Sim S) : Prop :=
  SimAt nc na q s ∧ Track [] q c s.

Lemma bill_valid k i m e :
  no_pill → topic k !! i = Some m → usable m = Some e → (base k ≤ i)%nat →
  invalid_distance (ideal_bill (seen (topic k) (base k) i) e) = false.
Proof.
  intros Hv Hm He Hi. specialize (Hv k). pose proof (lookup_lt_Some _ _ _ Hm).
  destruct (seen_middle (topic k) (base k) i (length (topic k)) m Hm) as [ms' E]; [lia|].
  rewrite E in Hv. by destruct (ideal_offered _ m ms' e [] He Hv).
Qed.

Lemma client_calm k i m e nc na q c x (p : Proc (Sim S)) :
  no_pill → topic k !! i = Some m → usable m = Some e → (base k ≤ i)%nat →
  Calm nc na q c (x, heap p) →
  run (Client_Aggregate client (aggregate_request e
    (CalcService.CalculateDist e (ideal_calc (seen (topic k) (base k) i))).1.1)) p = None.
Proof.
  intros Hv Hm He Hi [[_ _ (L & HL & _) _ _] Ht%Track_nil].
  pose proof (bill_valid k i m e Hv Hm He Hi) as Hd. unfold ideal_bill, bill in Hd.
  set (req := aggregate_request e _) in *. simpl. unfold run, grpc_client_Aggregate.
  rewrite !M_bind_eq. unfold mret, M_ret. cbn [fst snd].
  destruct (lift_heap (Invoke req) (Now p).2) as [-> _]. change (heap (Now p).2) with (heap p).
  pose proof (sim_Invoke req (heap p) _ HL) as Hs. cbv zeta in Hs.
  change (@Invoke _ sim_grpc) with (@Invoke _ grpc_inst) in Hs.
  destruct (Invoke req (heap p)) as [err s']. destruct Hs as (_ & _ & _ & Hs).
  rewrite Ht in Hs. simpl in Hs. destruct Hs as [_ Hs].
  simpl. by rewrite (proj2 Hs Hd).
Qed.

Lemma processEvent_calm k i m e nc na q c :
  no_pill → topic k !! i = Some m → usable m = Some e → (base k ≤ i ≤ na k)%nat →
  hoare (λ p : Run, Calm nc na q c (heap p)) (processEvent calc_service client e)
    (λ err p, err = None).
Proof.
  intros Hv Hm He Hi. unfold processEvent. hpure.
  eapply hoare_bind.
  { apply (hoare_calc _ _ (λ r s, r =
      ((CalcService.CalculateDist e (ideal_calc (seen (topic k) (base k) i))).1.1, None) ∧
      ∃ nc', Calm nc' na q c s)).
    intros x y [Hat Ht]. destruct (calc_service_step e x) as [-> ->].
    destruct (calc_at apart k i m e nc na q _ _ Hm He Hi Hat) as [-> (nc' & _ & ?)].
    split; [done|]. by exists nc'. }
  intros [dist err]. apply hoare_pre_and. intros [= -> ->]. apply hoare_pre_ex. intros nc'.
  do 3 hpure.
  eapply hoare_bind.
  { apply (hoare_client _ _ (λ err s, err = None)).
    intros x p Hcalm. eapply client_calm; [done..|lia|done]. }
  intros err p ->. rewrite !M_bind_eq. done.
Qed.

Lemma commit_calm k i m q c :
  topic k !! i = Some m →
  hoare (λ p : Run, Track [] q c (heap p)) (env (CommitMessage m)) (λ err p, err = None).
Proof.
  intros Hm. apply (hoare_env _ _ (λ err _, err = None)). intros x s Ht%Track_nil.
  simpl. by rewrite Ht.
Qed.

Lemma processMessage_calm k i m nc na q c :
  no_pill → topic k !! i = Some m → (base k ≤ i ≤ na k)%nat →
  hoare (λ p : Run, Calm nc na q c (heap p)) (processMessage calc_service client m)
    (λ err p, err = None).
Proof.
  intros Hv Hm Hi. unfold processMessage.
  assert (∀ p : Run, Calm nc na q c (heap p) → (env (CommitMessage m) p).1 = None) as Hcommit
    by (intros p [_ Ht]; by apply (commit_calm k i m q c)).
  destruct (json_Unmarshal_OBUData (Value m)) as [d|er] eqn:Ej; [destruct (invalid_event d) eqn:Ei|].
  - hpure. intros p. apply Hcommit.
  - assert (usable m = Some d) as He by (unfold usable; by rewrite Ej, Ei).
    intros p Hcalm. rewrite M_bind_eq.
    rewrite (processEvent_calm k i m d nc na q c Hv Hm He Hi p Hcalm). rewrite M_bind_eq.
    pose proof (processEvent_track d [] q c p (proj2 Hcalm)) as Ht.
    by rewrite (commit_calm k i m q c Hm _ Ht).
  - hpure. intros p. apply Hcommit.
Qed.

(** A fault-free round passes an unread message, if there is one. *)
Lemma Start_round_calm nc na q c :
  no_pill → (∀ j, base j ≤ q j ≤ na j)%nat → unread logs q ≠ 0%nat →
  hoare (λ p : Run, Calm nc na q c (heap p)) (Start_round calc_service client)
    (λ r p, ∃ k m, topic k !! q k = Some m ∧
       Track [] (past k q) (<[k := Datatypes.S (q k)]> c) (heap p)).
Proof.
  intros Hv Hle Hun. unfold Start_round.
  assert (∀ x s, Calm nc na q c (x, s) → pop s = (Fine, s)) as Hpop
    by (intros x s [_ Ht]; by eapply Track_nil).
  eapply hoare_bind.
  { apply (hoare_env _ _ (λ r s, r = None ∧ Calm nc na q c s)). intros x s Hcalm. simpl.
    by rewrite (Hpop x s Hcalm). }
  intros r. apply hoare_pre_and. intros ->. eapply hoare_bind.
  { apply (hoare_env _ _ (λ r s, ∃ k m, (r = inl m ∧ topic k !! q k = Some m) ∧
      Calm nc na (past k q) c s)).
    intros x s Hcalm. simpl. rewrite (Hpop x s Hcalm). simpl.
    destruct Hcalm as [[? ? ? ? Hp] (? & ? & ?)]. simpl in *.
    destruct (available logs s) as [|[k m] av] eqn:E.
    - exfalso. apply Hun. apply unread_read. intros k. rewrite <- Hp.
      apply eq_None_not_Some. intros [m Hm]. apply available_elem in Hm. rewrite E in Hm.
      by apply not_elem_of_nil in Hm.
    - assert ((k, m) ∈ available logs s) as Hm%available_elem by (rewrite E; left).
      exists k, m. simpl. rewrite Hp in *. split; [done|]. split; [by constructor|by split_and!]. }
  intros r. apply hoare_pre_ex. intros k. apply hoare_pre_ex. intros m.
  apply hoare_pre_and. intros [-> Hm]. hpure.
  intros p Hcalm. rewrite M_bind_eq.
  pose proof (updateLag_at nc na (past k q) m p (proj1 Hcalm)) as Ha.
  pose proof (updateLag_track m [] (past k q) c p (proj2 Hcalm)) as Ht.
  rewrite M_bind_eq. set (p1 := (updateLag m p).2) in *.
  rewrite (processMessage_calm k (q k) m nc na (past k q) c Hv Hm (Hle k) p1 (conj Ha Ht)).
  destruct (processMessage_track k (q k) m [] (past k q) c Hm p1 Ht) as (c' & Ht' & _ & Hc).
  rewrite (processMessage_calm k (q k) m nc na (past k q) c Hv Hm (Hle k) p1 (conj Ha Ht)) in Hc.
  rewrite (Hc eq_refl) in Ht'. by exists k, m.
Qed.

(** At the end of the topic a fault-free round only polls. *)
Lemma Start_round_idle q c :
  unread logs q = 0%nat →
  hoare (λ p : Run, Track [] q c (heap p)) (Start_round calc_service client)
    (λ _ p, Track [] q c (heap p)).
Proof.
  intros Hm. unfold Start_round. eapply hoare_bind.
  { apply (hoare_env _ _ (λ r s, r = None ∧ Track [] q c s)). intros x s Ht. simpl.
    by rewrite (Track_nil _ _ _ _ Ht). }
  intros r. apply hoare_pre_and. intros ->. eapply hoare_bind.
  { apply (hoare_env _ _ (λ r s, r = inr timed_out ∧ Track [] q c s)).
    intros x s Ht. simpl. rewrite (Track_nil _ _ _ _ Ht). simpl.
    pose proof Ht as (_ & Hp & _). simpl in Hp.
    destruct (available logs s) as [|[k m] av] eqn:E; [done|exfalso].
    assert ((k, m) ∈ available logs s) as Hk%available_elem by (rewrite E; left).
    rewrite Hp in Hk. apply lookup_lt_Some in Hk. pose proof (unread_none logs q Hm k). lia. }
  intros r. apply hoare_pre_and. intros ->. by intros p.
Qed.

(** The invariant of Pipeline.v together with what is left of the schedule and of
    the topic. *)
Definition Going (fs : list Fault) (n : nat) (s : CalcService * Sim S) : Prop :=
  Inv (topic:=topic) (base:=base) (L0:=L0) (pos:=sim_pos) (committed:=sim_committed)
      (remote:=sim_remote) s ∧
  ∃ q c, Track fs q c s ∧ (∀ k, q k ≤ c k)%nat ∧ (unread logs q ≤ n)%nat.

Lemma Start_round_going fs n (p : Run) :
  Forall safe fs → Going fs n (heap p) →
  run (Start_round calc_service client) p = None ∧
  Going (tail fs) (length (concat logs)) (heap (exec (Start_round calc_service client) p)) ∧
  (fs = [] → no_pill →
     Going [] (pred n) (heap (exec (Start_round calc_service client) p))).
Proof.
  intros Hs (Hinv & q & c & Ht & Hle & Hn).
  destruct (Start_round_track fs q c Hs Hle p Ht) as (Hr & q' & c' & Ht' & Hle').
  destruct (Start_round_inv (ok:=λ _, True) apart sim_ok p Hinv) as [_ Hinv'].
  specialize (Hinv' Hr). split; [done|]. split.
  { split; [done|]. exists q', c'. split_and!; [done|done|apply unread_le]. }
  intros -> Hv. split; [done|]. destruct (decide (unread logs q = 0%nat)) as [E|E].
  - exists q, c. pose proof (Start_round_idle q c E p Ht). split_and!; [done|done|lia].
  - destruct Hinv as (nc & na & q2 & Hat & Hb).
    assert (q2 = q) as -> by (destruct Ht as (_ & <- & _), Hat; done).
    destruct (Start_round_calm nc na q c Hv Hb E p (conj Hat Ht)) as (k & m & Hm & Ht2).
    exists (past k q), (<[k := Datatypes.S (q k)]> c). pose proof (unread_past logs q k m Hm).
    split_and!; [done| |lia]. intros j. specialize (Hle j). at_partition k j; lia.
Qed.

(** Rounds until the schedule is used up, then one per message. *)
Lemma Start_drain fs (p : Run) :
  Forall safe fs → Going fs (length (concat logs)) (heap p) →
  run (Start calc_service client (length fs)) p = None ∧
  Going [] (length (concat logs)) (heap (exec (Start calc_service client (length fs)) p)).
Proof.
  revert p. induction fs as [|f fs IH]; intros p Hs Hg; [done|]. cbn [length Start].
  destruct (Start_round_going _ _ p Hs Hg) as (Hr & Hg' & _).
  unfold run, exec in *. rewrite !M_bind_eq, Hr. apply IH; [by inversion Hs|done].
Qed.

Lemma Start_finish n (p : Run) :
  no_pill → Going [] n (heap p) →
  run (Start calc_service client n) p = None ∧
  Going [] 0 (heap (exec (Start calc_service client n) p)).
Proof.
  intros Hv. revert p. induction n as [|n IH]; intros p Hg; [done|].
  cbn [Start]. destruct (Start_round_going [] _ p ltac:(constructor) Hg) as (Hr & _ & Hg').
  unfold run, exec in *. rewrite !M_bind_eq, Hr. by apply IH, Hg'.
Qed.

Lemma Start_add a b (p : Run) :
  run (Start calc_service client a) p = None →
  Start calc_service client (a + b) p =
    Start calc_service client b (exec (Start calc_service client a) p).
Proof.
  unfold run, exec. revert p. induction a as [|a IH]; intros p; [done|]. cbn [Start Nat.add].
  rewrite !M_bind_eq. destruct (Start_round calc_service client p) as [[r|] p']; [done|].
  apply IH.
Qed.

(** A process that started at [base] finishes the topic. *)
Lemma process_drains faults (p : Run) :
  no_pill → Forall safe faults → (∀ k, base k ≤ length (topic k))%nat →
  (heap p).1 = NewCalcService → (∀ k, sim_pos (heap p).2 k = base k) →
  (∀ k, sim_committed (heap p).2 k = base k) → sim_faults (heap p).2 = faults →
  sim_remote (heap p).2 L0 →
  let n := (length faults + length (concat logs))%nat in
  run (Start calc_service client n) p = None ∧
  let s := (heap (exec (Start calc_service client n) p)).2 in
  (∀ k, (length (topic k) ≤ sim_committed s k)%nat) ∧
  ∃ L, sim_remote s L ∧
    Parts (topic:=topic) (base:=base) (L0:=L0) (λ k, length (topic k)) L.
Proof.
  intros Hv Hs Hb Hc0 Hp Hc Hf HL n.
  assert (Going faults (length (concat logs)) (heap p)) as Hg.
  { split; [by apply Inv_start|]. exists (sim_pos (heap p).2), (sim_committed (heap p).2).
    split; [by split_and!; [rewrite Hf|..]|]. split; [|apply unread_le]. intros k. by rewrite Hp, Hc. }
  destruct (Start_drain faults p Hs Hg) as [E1 Hg1].
  unfold n, run, exec. rewrite Start_add by done.
  destruct (Start_finish _ _ Hv Hg1) as [E2 Hg2]. split; [done|].
  destruct Hg2 as [(nc & na & q & [Hbd _ (L & HL' & [Ho Ha]) _ _] & ?) (q' & c & (_ & _ & Ht) & Hle & Hun)].
  assert (∀ k, length (topic k) ≤ c k)%nat as Hlen.
  { intros k. pose proof (unread_none logs q' ltac:(lia) k). specialize (Hle k). lia. }
  unfold exec in *. split; [intros k; by rewrite Ht|]. exists L. split; [done|]. constructor; [|done].
  intros k. rewrite Ho. f_equal. destruct (Hbd k) as (_ & Hcn & ? & _ & ?). rewrite Ht in Hcn.
  specialize (Hlen k). lia.
Qed.
End Liveness.

Lemma consumer_drains {S : Type} `{StorerSpec S} `{GrpcStatus} `{JsonCodec}
    (logs : list (list Message)) (faults : list Fault) (agg : Proc S) (turn : nat)
    (calc_metrics : list MetricOp) (clk : nat → Instant) (t : nat) :
  topic_ok logs → keyed (partition logs) → (∀ k, all_valid (partition logs k)) →
  Forall safe faults → refines (heap agg) [] →
  let env := sim_env (S:=S) logs in
  let p := mkProc (NewCalcService, mkSim (λ _, 0%nat) (λ _, 0%nat) turn faults agg)
             calc_metrics clk t in
  let '(r, p') := Start (H:=env) calc_service (GrpcClient (H:=sim_grpc))
                    (length faults + length (concat logs)) p in
  let s := (heap p').2 in
  r = None ∧ (∀ k, (length (partition logs k) ≤ sim_committed s k)%nat) ∧
  ∃ L, refines (heap (sim_agg s)) L ∧
    passes (partition logs) (λ k, length (partition logs k)) L.
Proof.
  intros Hlogs Hk Hv Hs Hr env p.
  destruct (process_drains logs Hlogs (λ _, 0%nat) [] Hk faults p) as (E & Hc & L & HL & [Ho Ha]);
    try done.
  { intros k. unfold seen. rewrite firstn_all. apply Hv. }
  { intros k. simpl. lia. }
  unfold run, exec in *. fold env. destruct (Start _ _ _ p) as [r p'].
  cbn [fst snd] in *. split_and!; [done|done|]. exists L. split; [done|]. constructor.
  - intros k. by rewrite Ho.
  - intros d [Hin|?]%Ha; [by apply not_elem_of_nil in Hin|done].
Qed.

(** ** Properties *)

(** C4. The topic is finished: against a broker and a network that fail in
    any way for any finite time (failed or timed-out polls, rebalances, failed or
    unacknowledged commits, lost requests, lost replies), when no event of the
    topic is a poison pill, the loop is still running after as many rounds as
    there are faults and messages, every partition is committed to its end, and
    the aggregator holds an interleaving of the fault-free passes over the
    partitions. *)
Theorem consumer_completes {S : Type} `{StorerSpec S} `{GrpcStatus} `{JsonCodec}
    (logs : list (list Message)) (faults : list Fault) (agg : Proc S) (turn : nat)
    (calc_metrics : list MetricOp) (clk : nat → Instant) (t : nat) :
  topic_ok logs → keyed (partition logs) → (∀ k, all_valid (partition logs k)) →
  Forall safe faults → refines (heap agg) [] →
  let env := sim_env (S:=S) logs in
  let p := mkProc (NewCalcService, mkSim (λ _, 0%nat) (λ _, 0%nat) turn faults agg)
             calc_metrics clk t in
  let '(r, p') := Start (H:=env) calc_service (GrpcClient (H:=sim_grpc))
                    (length faults + length (concat logs)) p in
  let s := (heap p').2 in
  r = None ∧ (∀ k, (length (partition logs k) ≤ sim_committed s k)%nat) ∧
  ∃ L, refines (heap (sim_agg s)) L ∧
    passes (partition logs) (λ k, length (partition logs k)) L.
Proof. apply consumer_drains. Qed.

(** ** Concrete runs *)

(** A check for [keyed]. *)
Lemma keyed_check `{JsonCodec} (logs : list (list Message)) :
  Forall (λ k, Forall (λ j, k = j ∨
    Forall (λ id, id ∉ ids (partition logs) j) (ids (partition logs) k) ∧
    Forall (λ obu, obu ∉ obus (partition logs) j) (obus (partition logs) k))
    (seq 0 (length logs))) (seq 0 (length logs)) →
  keyed (partition logs).
Proof.
  intros Hall k j Hne.
  assert (∀ k, (length logs ≤ k)%nat → events (partition logs) k = []) as Hout.
  { intros i Hi. unfold events, partition. by rewrite lookup_ge_None_2. }
  unfold ids, obus in *.
  destruct (decide (k < length logs)%nat) as [Hk|]; [|rewrite (Hout k) by lia; set_solver].
  destruct (decide (j < length logs)%nat) as [Hj|]; [|rewrite (Hout j) by lia; set_solver].
  rewrite Forall_forall in Hall. specialize (Hall k ltac:(apply elem_of_seq; lia)).
  rewrite Forall_forall in Hall.
  destruct (Hall j ltac:(apply elem_of_seq; lia)) as [?|[Hi Ho]]; [done|].
  rewrite !Forall_forall in *. split; intros x Hx; [by apply Hi|by apply Ho].
Qed.

Definition test_message (e : OBUData) : string := encoded (JOBUData e).

(** Two partitions: in one, a message that is not an event and a repeated event. *)
Definition test_logs : list (list Message) :=
  mk_topic [[test_message (test_obu "a1" 1 0 0); "not json";
             test_message (test_obu "a2" 1 3 4); test_message (test_obu "a2" 1 3 4)];
            [test_message (test_obu "b1" 2 5 5); test_message (test_obu "b2" 2 5 9)]].

Definition test_faults : list Fault :=
  [Fine; Fine; CallDropped; Fine; ReadFails; Fine; Fine; CallLosesReply; Fine; Fine; Fine;
   Fine; CommitLosesAck; Fine; Fine; Rebalances].

Definition start_sim (faults : list Fault) : Sim MemoryStore :=
  mkSim (λ _, 0%nat) (λ _, 0%nat) 0 faults (new_process test_clock).

Definition test_run : Proc (CalcService * Sim MemoryStore) :=
  mkProc (NewCalcService, start_sim test_faults) [] test_clock 0.

Lemma partition_all (P : list Message → Prop) logs :
  P [] → Forall P logs → ∀ k, P (partition logs k).
Proof.
  intros HP Hall k. unfold partition. destruct (logs !! k) as [log|] eqn:E; [|done].
  rewrite Forall_forall in Hall. apply Hall. by eapply list_elem_of_lookup_2.
Qed.

Section Witnesses.
#[local] Instance w_codec : JsonCodec := test_codec.
#[local] Instance w_status : GrpcStatus := toy_status.
#[local] Instance w_grpc : GrpcTransport (Sim MemoryStore) := sim_grpc.
#[local] Instance w_spec :
  GrpcTransportSpec (Sim MemoryStore) (λ _, True) sim_remote (unmoved sim_pos sim_committed) :=
  sim_grpc_spec.

Lemma test_logs_valid : ∀ k, all_valid (partition test_logs k).
Proof.
  apply (partition_all all_valid); [constructor|].
  unfold all_valid. apply (bool_decide_eq_true_1 _). by vm_compute.
Qed.

Lemma test_logs_keyed : keyed (partition test_logs).
Proof. apply keyed_check, (bool_decide_eq_true_1 _). by vm_compute. Qed.

Lemma consumer_completes_witness :
  topic_ok test_logs ∧ Forall safe test_faults ∧
  let '(r, p') := Start (H:=sim_env test_logs) calc_service GrpcClient
                    (length test_faults + length (concat test_logs)) test_run in
  r = None ∧
  (∃ L, refines (heap (sim_agg (heap p').2)) L ∧
     passes (partition test_logs) (λ k, length (partition test_logs k)) L) ∧
  ideal_ledger (partition test_logs 0) =
    [mkDistance "a1" 1 fzero 1; mkDistance "a2" 1 (f_of_Z 5) 1] ∧
  ideal_ledger (partition test_logs 1) =
    [mkDistance "b1" 1 fzero 2; mkDistance "b2" 1 (f_of_Z 4) 2].
Proof.
  assert (topic_ok test_logs) as Hlogs by apply mk_topic_ok.
  assert (Forall safe test_faults) as Hs by by repeat constructor.
  pose proof (consumer_completes test_logs test_faults
    (new_process test_clock) 0 [] test_clock 0 Hlogs test_logs_keyed test_logs_valid Hs refines_new) as Hw.
  cbv zeta in Hw. fold (start_sim test_faults) in Hw. fold test_run in Hw.
  split; [done|]. split; [done|]. destruct (Start _ _ _ test_run) as [r p'].
  destruct Hw as (? & _ & ?). split; [done|]. split; [done|]. split; by vm_compute.
Defined.

Lemma at_beginning_sim faults :
  at_beginning (pos:=sim_pos) (committed:=sim_committed) (remote:=sim_remote)
    (NewCalcService, start_sim faults).
Proof. split_and!; (done || apply refines_new). Qed.

Lemma consumer_exactly_once_witness :
  let x := (heap (exec (Start (H:=sim_env test_logs) calc_service GrpcClient 9) test_run)).2 in
  at_beginning (pos:=sim_pos) (committed:=sim_committed) (remote:=sim_remote) (heap test_run) ∧
  ∃ na L, sim_remote x L ∧ passes (partition test_logs) na L ∧
    (∀ k, sim_committed x k ≤ na k ≤ length (partition test_logs k))%nat.
Proof.
  intros x. split; [apply at_beginning_sim|].
  destruct (consumer_exactly_once (H:=sim_env test_logs) (H0:=sim_laws test_logs (mk_topic_ok _))
    GrpcClient (λ _, True) 9 test_run test_logs_keyed (λ _ _ _ _ _ _, I) (at_beginning_sim _))
    as (na & L & ? & ? & _ & ? & _).
  by exists na, L.
Defined.

(** The accepted event whose vehicle number is 2^32. *)
Definition pill : OBUData := test_obu "p" (2 ^ 32) 0 0.
Definition pill_logs : list (list Message) :=
  mk_topic [[test_message (test_obu "a1" 1 0 0)];
            [test_message pill; test_message (test_obu "b1" 2 0 0)]].
Definition pill_run : Proc (CalcService * Sim MemoryStore) :=
  mkProc (NewCalcService, start_sim []) [] test_clock 0.

Lemma poison_pill_blocks_witness :
  let x := (heap (exec (Start (H:=sim_env pill_logs) calc_service GrpcClient 100) pill_run)).2 in
  usable (mkMessage (Some "obudata") 1 0 (test_message pill)) = Some pill ∧
  wrapS 32 (od_OBUID pill) ≤ 0 ∧ sim_committed x 1%nat = 0%nat.
Proof.
  intros x.
  assert (usable (mkMessage (Some "obudata") 1 0 (test_message pill)) = Some pill) as Hu
    by by vm_compute.
  assert (wrapS 32 (od_OBUID pill) ≤ 0) as Hw by by vm_compute.
  assert (keyed (partition pill_logs)) as Hk
    by (apply keyed_check, (bool_decide_eq_true_1 _); by vm_compute).
  destruct (poison_pill_blocks (H:=sim_env pill_logs) (H0:=sim_laws pill_logs (mk_topic_ok _))
    GrpcClient (λ _, True) 100 pill_run 1 0
    (mkMessage (Some "obudata") 1 0 (test_message pill)) pill Hk (λ _ _ _ _ _ _, I)
    (at_beginning_sim _)) as [Hc _];
    [reflexivity|exact Hu|by left|].
  split; [done|]. split; [done|]. change (sim_committed x 1 ≤ 0)%nat in Hc. lia.
Defined.

(** The other partition goes on. *)
Example pill_neighbour :
  let x := (heap (exec (Start (H:=sim_env pill_logs) calc_service GrpcClient 9) pill_run)).2 in
  sim_committed x 0%nat = 1%nat.
Proof. by vm_compute. Qed.

Lemma bill_is_trajectory_witness :
  let ms := partition test_logs 0 ++ partition test_logs 1 in
  let once := take 3 ms ++ drop 4 ms in
  NoDup (od_EventID <$> omap usable once) ∧
  l_total (ideal_ledger once) 1 = Some (f_of_Z 5).
Proof.
  intros ms once.
  assert (NoDup (od_EventID <$> omap usable once)) as Hnd
    by (apply (bool_decide_eq_true_1 _); by vm_compute).
  assert (Forall (λ e, in_i32 (od_OBUID e)) (omap usable once)) as Hi
    by (apply (bool_decide_eq_true_1 _); by vm_compute).
  assert (all_valid once) as Hv
    by (unfold all_valid; apply (bool_decide_eq_true_1 _); by vm_compute).
  split; [done|]. destruct (bill_is_trajectory once 1 Hnd Hi Hv) as [_ Ht].
  rewrite Ht; [by vm_compute|]. by vm_compute.
Defined.
End Witnesses.
