(* ===== verification/Restart.v ===== *)
(** * Restart: the calculator crashes and starts again (src/dist-calc)

    The points and cached distances of the calculator are in its memory: a new
    process starts with none of them, at the offset its consumer group has
    committed.  What Pipeline.v shows of one process is put together here for any
    number of processes one after the other.  Events are still billed exactly
    once, and never for more than in the fault-free pass: an event is billed
    either its distance there or, when its vehicle has no earlier event since the
    offset of the restart, zero. *)

From stdpp Require Import functions.
From S2P Require Import Prelude Float64 GoLib Types Store Service Http Decimal Json GoJson Server Calculator Client Consumer Pipeline Broker.

Local Open Scope Z_scope.

(** ** Passes over a part of the partition *)

Section Passes.
Context `{JsonCodec}.

(** A bill of a pass is the bill of one of its messages. *)
Lemma ideal_bills_elem log base k d :
  (base + k ≤ length log)%nat → d ∈ ideal_bills (seen log base (base + k)) →
  ∃ i m e, (base ≤ i < base + k)%nat ∧ log !! i = Some m ∧ usable m = Some e ∧
    d = ideal_bill (seen log base i) e.
Proof.
  induction k as [|k IH]; intros Hk Hd.
  { rewrite Nat.add_0_r, seen_base in Hd. by apply not_elem_of_nil in Hd. }
  destruct (lookup_lt_is_Some_2 log (base + k)) as [m Hm]; [lia|].
  replace (base + S k)%nat with (S (base + k)) in Hd by lia.
  rewrite (seen_S _ _ _ _ Hm), ideal_bills_snoc in Hd by lia.
  assert (d ∈ ideal_bills (seen log base (base + k)) → ∃ i m e,
    (base ≤ i < base + S k)%nat ∧ log !! i = Some m ∧ usable m = Some e ∧
    d = ideal_bill (seen log base i) e) as Hold.
  { intros Hin. destruct IH as (i & m' & e & ? & ? & ? & ?); [lia|done|].
    exists i, m', e. split_and!; [lia|lia|done..]. }
  destruct (usable m) as [e|] eqn:He; [|by apply Hold].
  apply elem_of_app in Hd as [Hd|Hd%list_elem_of_singleton]; [by apply Hold|].
  exists (base + k)%nat, m, e. split_and!; [lia|lia|done..].
Qed.

(** A message of a pass has its bill in it. *)
Lemma ideal_bill_in log base i n m e :
  (base ≤ i < n)%nat → log !! i = Some m → usable m = Some e →
  ideal_bill (seen log base i) e ∈ ideal_bills (seen log base n).
Proof.
  intros Hi Hm He. destruct (seen_middle log base i n m Hm Hi) as [ms' ->].
  rewrite (cons_middle m _ ms'), (app_assoc (seen log base i)). unfold ideal_bills at 1.
  rewrite omap_app, bills_app. fold (ideal_bills (seen log base i ++ [m])).
  rewrite ideal_bills_snoc, He. set_solver.
Qed.

(** New events are all remembered. *)
Lemma h_steps_fresh H0 es :
  NoDup (od_EventID <$> H0 ++ es) → foldl h_step H0 es = H0 ++ es.
Proof.
  revert H0. induction es as [|e es IH]; intros H0 Hnd; [by rewrite app_nil_r|].
  cbn [foldl]. rewrite (cons_middle e H0 es), app_assoc in Hnd |- *.
  assert (h_step H0 e = H0 ++ [e]) as ->; [|by apply IH].
  unfold h_step, h_known. rewrite bool_decide_eq_false_2; [done|]. intros [_ Hin].
  rewrite !fmap_app in Hnd. apply NoDup_app in Hnd as [Hnd _].
  apply NoDup_app in Hnd as (_ & Hd & _). apply (Hd _ Hin). set_solver.
Qed.

Lemma fresh_distance ms e :
  NoDup (od_EventID <$> omap usable ms ++ [e]) →
  (CalcService.CalculateDist e (ideal_calc ms)).1.1 = h_dist (omap usable ms) e.
Proof.
  intros Hnd. pose proof (calc_run_refines (omap usable ms) _ [] calc_refines_new) as Hr.
  rewrite fmap_app in Hnd. pose proof Hnd as (Hnd1 & Hd & _)%NoDup_app.
  rewrite (h_steps_fresh [] (omap usable ms)) in Hr by done.
  fold (ideal_calc ms) in Hr. destruct (CalculateDist_refines e _ _ Hr) as (_ & Hf & _).
  change ([] ++ omap usable ms) with (omap usable ms) in Hf. rewrite Hf; [done|].
  unfold h_known. apply bool_decide_eq_false. intros [_ Hin]. apply (Hd _ Hin). set_solver.
Qed.

(** Forgetting the oldest events changes a distance to zero or not at all. *)
Lemma h_dist_suffix H1 H2 e : h_dist H2 e = h_dist (H1 ++ H2) e ∨ h_dist H2 e = fzero.
Proof.
  unfold h_dist, h_last. rewrite filter_app, last_app.
  destruct (last (filter _ H2)); [by left|by right].
Qed.

(** The bill of an event by a calculator that started at [base]. *)
Lemma restart_bill log base i m e :
  NoDup (od_EventID <$> omap usable log) → (base ≤ i)%nat → log !! i = Some m → usable m = Some e →
  ideal_bill (seen log base i) e = ideal_bill (take i log) e ∨
  ideal_bill (seen log base i) e = bill e fzero.
Proof.
  intros Hnd Hb Hm He. unfold ideal_bill.
  assert (NoDup (od_EventID <$> omap usable (take i log) ++ [e])) as Hi.
  { rewrite <- (take_drop_middle log i m Hm), omap_app in Hnd.
    change (omap usable (m :: drop (S i) log)) with
      (match usable m with Some e => e :: omap usable (drop (S i) log)
                         | None => omap usable (drop (S i) log) end) in Hnd.
    rewrite He, (cons_middle e), app_assoc, fmap_app in Hnd.
    by apply NoDup_app in Hnd as [Hnd _]. }
  assert (take i log = take base (take i log) ++ seen log base i) as E
    by (unfold seen; by rewrite take_drop).
  rewrite (fresh_distance (take i log)) by done.
  rewrite fresh_distance.
  - rewrite E at 1. rewrite omap_app.
    destruct (h_dist_suffix (omap usable (take base (take i log))) (omap usable (seen log base i)) e)
      as [->| ->]; [by left|by right].
  - rewrite E, omap_app, <- app_assoc, fmap_app in Hi. by apply NoDup_app in Hi as (_ & _ & Hi).
Qed.
End Passes.

(** Without poison pills in the fault-free pass there are none after a restart. *)
Lemma seen_valid `{JsonCodec} log base :
  NoDup (od_EventID <$> omap usable log) → all_valid log → (base ≤ length log)%nat →
  all_valid (seen log base (length log)).
Proof.
  intros Hnd Hv Hb. unfold all_valid in *. rewrite Forall_forall in *. intros d Hd.
  assert (length log = base + (length log - base))%nat as El by lia. rewrite El in Hd.
  destruct (ideal_bills_elem log base (length log - base) d ltac:(lia) Hd) as (i & m & e & Hi & Hm & He & ->).
  assert (invalid_distance (ideal_bill (take i log) e) = false) as Hok.
  { apply Hv. pose proof (ideal_bill_in log 0 i (length log) m e) as Hin.
    rewrite !seen_0, firstn_all in Hin. apply Hin; [lia|done..]. }
  destruct (restart_bill log base i m e) as [->| ->]; [done|lia|done|done|done|].
  apply invalid_distance_spec in Hok as (? & ? & ? & ? & ?). by apply invalid_distance_spec.
Qed.

(** ** Ledgers *)

Lemma agg_ledgers_mono ds L id : id ∈ l_ids L → id ∈ l_ids (agg_ledgers ds L).
Proof.
  revert L. induction ds as [|d ds IH]; intros L Hid; [done|].
  change (agg_ledgers (d :: ds) L) with (agg_ledgers ds (agg_ledger d L)). apply IH.
  rewrite agg_ledger_ids. destruct (_ || _); [done|]. apply elem_of_app. by left.
Qed.

Lemma agg_ledgers_elem ds L d : d ∈ agg_ledgers ds L → d ∈ L ∨ d ∈ ds.
Proof.
  revert L. induction ds as [|d' ds IH]; intros L Hd; [by left|].
  change (agg_ledgers (d' :: ds) L) with (agg_ledgers ds (agg_ledger d' L)) in Hd.
  destruct (IH _ Hd) as [[Hin| ->]%agg_ledger_elem|Hin]; [by left|right; left|right; by right].
Qed.

(** ** Processes one after the other *)

Section Lives.
#[local] Set Default Proof Using "Type*".
Context {E : Type} {topic : nat → list Message} {pos committed : E → nat → nat}.
Context {remote : E → Ledger → Prop}.
Context `{TopicLaws E topic pos committed remote} `{JsonCodec}.
Context (client : Client (Proc E)) (ok : Distance → Prop).
Context `{!AggregateClient E client ok remote (unmoved pos committed)}.

(** A new member of the group reads on from the committed offsets. *)
Definition restarted (e e' : E) : Prop :=
  (∀ k, pos e' k = committed e k) ∧ (∀ k, committed e' k = committed e k) ∧
  ∀ L, remote e L → remote e' L.

(** Processes that make [ns] rounds, one after the other, each starting with an
    empty memory.  (One that is killed inside a round, after the aggregator's
    reply, is one whose last commit failed.) *)
Inductive lives : list nat → E → E → Prop :=
| no_life e : lives [] e e
| one_life n ns (p : Proc (CalcService * E)) e1 e2 :
    (heap p).1 = NewCalcService →
    restarted (heap (exec (Start calc_service client n) p)).2 e1 → lives ns e1 e2 →
    lives (n :: ns) (heap p).2 e2.

Context (apart : keyed topic).
Context (all_ok : ∀ k base i m e, topic k !! i = Some m → usable m = Some e →
                    ok (ideal_bill (seen (topic k) base i) e)).

(** The first [hi k] messages of every partition [k] have been billed to [L], by
    whichever process. *)
Record Covered (hi : nat → nat) (L : Ledger) : Prop := {
  C_length k : (hi k ≤ length (topic k))%nat;
  C_ids k i m e : (i < hi k)%nat → topic k !! i = Some m → usable m = Some e → od_EventID e ∈ l_ids L;
  C_once : NoDup (l_ids L);
  C_bills d : d ∈ L → ∃ k base i m e, (base ≤ i < hi k)%nat ∧ topic k !! i = Some m ∧
                usable m = Some e ∧ d = ideal_bill (seen (topic k) base i) e
}.

Lemma Covered_known hi L d : Covered hi L → d ∈ L → ∃ k, d_EventID d ∈ ids topic k.
Proof using Type.
  intros HC Hd. destruct (C_bills _ _ HC d Hd) as (k & b & i & m & e & _ & Hm & He & ->).
  exists k. by apply event_id, (usable_event topic k i m).
Qed.

Abbreviation Parts_from base L := (Parts (topic:=topic) (base:=base) (L0:=L)).

Lemma Covered_life base hi na L L' :
  (∀ k, base k ≤ hi k)%nat →
  (∀ k, (base k ≤ na k ≤ length (topic k))%nat ∧ all_valid (seen (topic k) (base k) (na k))) →
  Covered hi L → Parts_from base L na L' → Covered (λ k, Nat.max (hi k) (na k)) L'.
Proof using Type.
  intros Hb Hn HC [Hown Hall]. pose proof HC as [Hl Hi Ho Hd]. unfold ledger_at in Hown.
  assert (∀ d, d ∈ L' → ∃ k, d_EventID d ∈ ids topic k) as Hknown.
  { intros d [Hin|?]%Hall; [by eapply Covered_known|done]. }
  constructor.
  - intros k. destruct (Hn k). specialize (Hl k). lia.
  - intros k i m e Hlt Hm He. destruct (Hn k) as [? Hv]. specialize (Hb k).
    assert (od_EventID e ∈ ids topic k) as Hid by (by apply event_id, (usable_event topic k i m)).
    rewrite <- (own_ids topic k), Hown by done. destruct (decide (i < hi k)%nat) as [|Hge].
    { apply agg_ledgers_mono, own_ids; [done|]. by eapply Hi. }
    assert (ideal_bill (seen (topic k) (base k) i) e ∈
      ideal_bills (seen (topic k) (base k) (na k))) as Hin
      by (apply (ideal_bill_in _ _ _ _ m); [lia|done..]).
    unfold all_valid in Hv. rewrite Forall_forall in Hv. specialize (Hv _ Hin).
    pose proof (agg_ledgers_offered (ideal_bills (seen (topic k) (base k) (na k))) (own topic k L)) as Hof.
    rewrite Forall_forall in Hof. destruct (Hof _ Hin) as [?|?]; [congruence|done].
  - apply (ledger_NoDup topic); [done|]. intros k. rewrite Hown. apply agg_ledgers_NoDup.
    rewrite l_ids_own. by apply NoDup_filter.
  - intros d Hin. destruct (Hknown d Hin) as [k Hid].
    assert (d ∈ own topic k L') as Hk by by apply list_elem_of_filter.
    rewrite Hown in Hk. apply agg_ledgers_elem in Hk as [Hk|Hk].
    + apply list_elem_of_filter in Hk as [_ Hk].
      destruct (Hd d Hk) as (k' & b & i & m & e & ? & ? & ? & ?). exists k', b, i, m, e.
      split; [lia|]. by split_and!.
    + destruct (Hn k) as [? _]. specialize (Hb k).
      assert (na k = base k + (na k - base k))%nat as Ena by lia. rewrite Ena in Hk.
      destruct (ideal_bills_elem (topic k) (base k) (na k - base k) d ltac:(lia) Hk)
        as (i & m & e & Hbi & ? & ? & ?).
      exists k, (base k), i, m, e. split; [lia|]. by split_and!.
Qed.

Lemma Covered_nothing : Covered (λ _, 0%nat) [].
Proof using Type.
  constructor; [lia|lia|constructor|]. intros d Hd. by apply not_elem_of_nil in Hd.
Qed.

(** Between two processes. *)
Definition Between (e : E) : Prop :=
  ∃ hi L, remote e L ∧ (∀ k, pos e k = committed e k) ∧ (∀ k, committed e k ≤ hi k)%nat ∧ Covered hi L.

Lemma lives_between ns e e' : lives ns e e' → Between e → Between e'.
Proof.
  induction 1 as [e|n ns p e1 e2 Hnew (Hp & Hc & Hr) _ IH]; [done|].
  intros (hi & L & Hrem & Hpos & Hle & HC). apply IH.
  destruct (Start_prefix (base:=committed (heap p).2) (L0:=L) apart
    (λ k, all_ok k (committed (heap p).2 k)) n p) as (na & L' & HL' & Hsp & Hb).
  { apply Inv_start; [done..| |done]. intros k. pose proof (C_length _ _ HC k). specialize (Hle k). lia. }
  exists (λ k, Nat.max (hi k) (na k)), L'. split_and!.
  - by apply Hr.
  - intros k. by rewrite Hp, Hc.
  - intros k. rewrite Hc. destruct (Hb k). lia.
  - apply (Covered_life (committed (heap p).2) hi na L); [done| |done|done].
    intros k. destruct (Hb k) as (? & ? & ?). split; [lia|done].
Qed.

Lemma Between_start e :
  (∀ k, pos e k = 0%nat) → (∀ k, committed e k = 0%nat) → remote e [] → Between e.
Proof using Type.
  intros Hp Hc Hr. exists (λ _, 0%nat), [].
  split_and!; [done|by intros k; rewrite Hp|by intros k; rewrite Hc|apply Covered_nothing].
Qed.

(** Every event of the first [hi k] messages of the partitions is charged once, and
    an event is charged its distance in the fault-free pass or zero. *)
Definition charged_once (hi : nat → nat) (L : Ledger) : Prop :=
  NoDup (l_ids L) ∧
  (∀ k x, x ∈ omap usable (take (hi k) (topic k)) → od_EventID x ∈ l_ids L) ∧
  (∀ d, d ∈ L → ∃ k i m x, (i < hi k)%nat ∧ topic k !! i = Some m ∧ usable m = Some x ∧
     (d = ideal_bill (take i (topic k)) x ∨ d = bill x fzero)).

Lemma Covered_charged hi L : (∀ k, NoDup (ids topic k)) → Covered hi L → charged_once hi L.
Proof using Type.
  intros Hnd [Hl Hi Ho Hd]. split; [done|]. split.
  - intros k x (m & Hm & Hx)%list_elem_of_omap. apply list_elem_of_lookup_1 in Hm as [i Hm].
    pose proof (lookup_lt_Some _ _ _ Hm) as Hlt. rewrite length_take in Hlt.
    rewrite lookup_take_lt in Hm by lia. apply (Hi k i m x); [lia|done..].
  - intros d Hin. destruct (Hd d Hin) as (k & b & i & m & x & Hb & Hm & Hx & ->).
    exists k, i, m, x. split; [lia|]. split; [done|]. split; [done|].
    apply (restart_bill _ _ _ m); [apply Hnd|lia|done..].
Qed.

(** C5. Restarts of the calculator: processes that each start with an empty
    memory at the committed offsets bill every event exactly once between them.
    After any number of lives and rounds, with any faults, the ledger of the
    aggregator has no repeated event, has all the events of a prefix of every
    partition that covers every committed offset, and nothing else; and what an
    event is charged is its distance in the fault-free pass or, after a restart
    has lost the last point of its vehicle, zero. *)
Theorem calculator_restarts ns e0 e :
  lives ns e0 e → (∀ k, NoDup (ids topic k)) →
  (∀ k, pos e0 k = 0%nat) → (∀ k, committed e0 k = 0%nat) → remote e0 [] →
  ∃ hi L, remote e L ∧ (∀ k, committed e k ≤ hi k ≤ length (topic k))%nat ∧ charged_once hi L.
Proof.
  intros Hlives Hnd Hp Hc Hr.
  destruct (lives_between ns e0 e Hlives) as (hi & L & HL & _ & Hle & HC); [by apply Between_start|].
  exists hi, L. split; [done|]. split; [|by apply Covered_charged].
  intros k. split; [done|apply (C_length _ _ HC)].
Qed.
End Lives.

(** ** The last process finishes *)

Section Finish.
Context {S : Type} `{StorerSpec S} `{GrpcStatus} `{JsonCodec}.
#[local] Instance f_grpc : GrpcTransport (Sim S) := sim_grpc.
#[local] Instance f_spec :
  GrpcTransportSpec (Sim S) (λ _, True) sim_remote (unmoved sim_pos sim_committed) := sim_grpc_spec.

Abbreviation sim_lives logs :=
  (lives (H:=sim_env logs) (pos:=sim_pos) (committed:=sim_committed) (remote:=sim_remote) GrpcClient).

(** C6. A crashed calculator's work is finished by the next one: after any number of
    processes, with any faults, one more process that meets only finitely many
    faults commits every partition to its end, and then every event of the topic
    is charged exactly once, for its distance in the fault-free pass or, when a
    crash has lost the last point of its vehicle, nothing. *)
Theorem restart_completes (logs : list (list Message)) ns (s0 s : Sim S) ms clk t :
  topic_ok logs → keyed (partition logs) → (∀ k, NoDup (ids (partition logs) k)) →
  (∀ k, all_valid (partition logs k)) →
  (∀ k, sim_pos s0 k = 0%nat) → (∀ k, sim_committed s0 k = 0%nat) → sim_remote s0 [] →
  sim_lives logs ns s0 s → Forall safe (sim_faults s) →
  let n := (length (sim_faults s) + length (concat logs))%nat in
  let '(r, p') := Start (H:=sim_env logs) calc_service GrpcClient n
                    (mkProc (NewCalcService, s) ms clk t) in
  let s' := (heap p').2 in
  r = None ∧ (∀ k, (length (partition logs k) ≤ sim_committed s' k)%nat) ∧
  ∃ L, refines (heap (sim_agg s')) L ∧
    charged_once (topic:=partition logs) (λ k, length (partition logs k)) L.
Proof.
  intros Hlogs Hk Hnd Hv Hp0 Hc0 Hr0 Hlives Hs n.
  destruct (lives_between (H0:=sim_laws logs Hlogs) GrpcClient (λ _, True) Hk (λ _ _ _ _ _ _ _, I)
    ns s0 s Hlives) as (hi & L & HL & Hpos & Hle & HC); [by apply Between_start|].
  assert (∀ k, sim_committed s k ≤ length (partition logs k))%nat as Hb.
  { intros k. pose proof (C_length _ _ HC k). specialize (Hle k). lia. }
  assert (∀ k, all_valid (seen (partition logs k) (sim_committed s k) (length (partition logs k))))
    as Hv' by (intros k; by apply seen_valid; [apply Hnd|..]).
  destruct (process_drains logs Hlogs (sim_committed s) L Hk (sim_faults s)
    (mkProc (NewCalcService, s) ms clk t)) as (E & Hc & L' & HL' & Hsp); try done.
  fold n in E, Hc, HL'. unfold run, exec in *. destruct (Start _ _ n _) as [r p'].
  cbn [fst snd] in *. split_and!; [done|done|]. exists L'. split; [done|].
  assert (Covered (topic:=partition logs) (λ k, length (partition logs k)) L') as HC'.
  { pose proof (Covered_life (sim_committed s) hi _ L L' Hle (λ k, conj (conj (Hb k) (Nat.le_refl _)) (Hv' k)) HC Hsp)
      as [Hl1 Hi1 Ho1 Hd1].
    assert (∀ k, Nat.max (hi k) (length (partition logs k)) = length (partition logs k)) as Hm.
    { intros k. pose proof (C_length _ _ HC k). lia. }
    constructor; [lia| |done|].
    - intros k i. rewrite <- Hm. apply Hi1.
    - intros d Hin. destruct (Hd1 d Hin) as (k & b & i & m & e & Hbi & Hx). rewrite Hm in Hbi.
      by exists k, b, i, m, e. }
  by apply Covered_charged.
Qed.
End Finish.

(** ** A concrete crash *)

Section Witness.
#[local] Instance w_codec : JsonCodec := test_codec.
#[local] Instance w_status : GrpcStatus := toy_status.

(** Two vehicles, one in each partition; the process dies with its third event
    billed and not committed. *)
Definition crash_logs : list (list Message) :=
  mk_topic [[test_message (test_obu "a1" 1 0 0); test_message (test_obu "a2" 1 3 4)];
            [test_message (test_obu "b1" 2 5 5); test_message (test_obu "b2" 2 5 9)]].
Definition crash_faults : list Fault := replicate 11 Fine ++ [CommitFails].

Definition first_life : Proc (CalcService * Sim MemoryStore) :=
  mkProc (NewCalcService, start_sim crash_faults) [] test_clock 0.

(** The environment after [n] rounds. *)
Definition life (logs : list (list Message)) (n : nat) (p : Proc (CalcService * Sim MemoryStore)) :
    Sim MemoryStore :=
  (heap (exec (Start (H:=sim_env logs) calc_service (GrpcClient (H:=sim_grpc)) n) p)).2.

(** What the next process finds. *)
Definition restart (s : Sim MemoryStore) : Sim MemoryStore :=
  mkSim (sim_committed s) (sim_committed s) (sim_turn s) (sim_faults s) (sim_agg s).

Lemma restarted_restart s :
  restarted (pos:=sim_pos) (committed:=sim_committed) (remote:=sim_remote) s (restart s).
Proof. by split_and!. Qed.

Lemma one_crash logs n p :
  (heap p).1 = NewCalcService →
  lives (H:=sim_env logs) (pos:=sim_pos) (committed:=sim_committed) (remote:=sim_remote)
    (GrpcClient (H:=sim_grpc)) [n] (heap p).2 (restart (life logs n p)).
Proof. intros Hp. econstructor; [done|apply restarted_restart|constructor]. Qed.

Definition crashed : Sim MemoryStore := restart (life crash_logs 3 first_life).

Lemma crash_lives :
  lives (H:=sim_env crash_logs) (pos:=sim_pos) (committed:=sim_committed) (remote:=sim_remote)
    (GrpcClient (H:=sim_grpc)) [3%nat] (start_sim crash_faults) crashed.
Proof. exact (one_crash crash_logs 3 first_life eq_refl). Qed.

Lemma crash_keyed : keyed (partition crash_logs).
Proof. apply keyed_check, (bool_decide_eq_true_1 _). by vm_compute. Qed.

Lemma crash_valid : ∀ k, all_valid (partition crash_logs k).
Proof.
  apply (partition_all all_valid); [constructor|].
  unfold all_valid. apply (bool_decide_eq_true_1 _). by vm_compute.
Qed.

Lemma crash_distinct : ∀ k, NoDup (ids (partition crash_logs) k).
Proof.
  apply (partition_all (λ log, NoDup (od_EventID <$> omap usable log))); [constructor|].
  apply (bool_decide_eq_true_1 _). by vm_compute.
Qed.

Lemma calculator_restarts_witness :
  map (sim_committed crashed) [0; 1]%nat = [1; 1]%nat ∧
  ∃ hi L, sim_remote crashed L ∧ (∀ k, sim_committed crashed k ≤ hi k)%nat ∧
    charged_once (topic:=partition crash_logs) hi L.
Proof.
  split; [by vm_compute|].
  destruct (calculator_restarts (H:=sim_env crash_logs)
    (H0:=sim_laws crash_logs (mk_topic_ok _)) (GrpcClient (H:=sim_grpc)) (λ _, True)
    (AggregateClient0:=GrpcClient_spec (H0:=sim_grpc_spec))
    crash_keyed (λ _ _ _ _ _ _ _, I)
    [3%nat] (start_sim crash_faults) crashed crash_lives crash_distinct
    (λ _, eq_refl) (λ _, eq_refl) refines_new) as (hi & L & HL & Hhi & Hd).
  exists hi, L. split; [done|]. split; [intros k; by destruct (Hhi k)|done].
Defined.

(** The next process finishes the topic. *)
Definition finished : Sim MemoryStore :=
  life crash_logs 4 (mkProc (NewCalcService, crashed) [] test_clock 0).

Lemma restart_completes_witness :
  sim_faults crashed = [] ∧
  (∀ k, (length (partition crash_logs k) ≤ sim_committed finished k)%nat) ∧
  ∃ L, sim_remote finished L ∧
    charged_once (topic:=partition crash_logs) (λ k, length (partition crash_logs k)) L.
Proof.
  assert (sim_faults crashed = []) as Hf by by vm_compute.
  assert (Forall safe (sim_faults crashed)) as Hs by (rewrite Hf; constructor).
  pose proof (restart_completes crash_logs [3%nat] (start_sim crash_faults) crashed [] test_clock 0
    (mk_topic_ok _) crash_keyed crash_distinct crash_valid (λ _, eq_refl) (λ _, eq_refl) refines_new
    crash_lives Hs) as Hw.
  rewrite Hf in Hw. change (length (concat crash_logs)) with 4%nat in Hw.
  split; [exact Hf|]. unfold finished, life, exec. cbv zeta in Hw. cbn [length Nat.add] in Hw.
  destruct (Start _ _ _ _) as [r p']. destruct Hw as (_ & ? & ?). by split.
Defined.

(** The event billed twice, by both processes, is charged once, as in the
    fault-free pass; the other vehicle's segment of length 4 is charged zero,
    because the crash has lost the point it starts from. *)
Example crash_charges :
  let totals := MemoryStore.data (heap (sim_agg finished)) in
  totals !! 1 = Some (f_of_Z 5) ∧ l_total (ideal_ledger (partition crash_logs 0)) 1 = Some (f_of_Z 5) ∧
  totals !! 2 = Some fzero ∧ l_total (ideal_ledger (partition crash_logs 1)) 2 = Some (f_of_Z 4).
Proof. split_and!; by vm_compute. Qed.
End Witness.
