(* ===== verification/Obu.v ===== *)
(** * Obu: the load generator's configuration and events (src/obu/main.go)

    [validateConfig], the ramp schedule and the interval of the ticker, the
    round-robin choice of vehicles and event ids, and the assignment of vehicles
    to connections in both load modes.  The goroutines that send the events are in ObuConcurrency.v. *)

From S2P Require Import Prelude Float64 GoLib Types.
From Stdlib Require Import Ascii.

Local Open Scope Z_scope.

(** ** Configuration *)

Record loadConfig := mkLoadConfig {
  Endpoint : string;
  OBUs : Z;
  Rate : float64;
  Connections : Z;
  Duration : Z;
  PayloadBytes : Z;
  Mode : string;
  Seed : Z;
  Ramp : string;
  MetricsAddr : string
}.

Record loadPhase := mkPhase { ph_duration : Z; ph_rate : float64 }.

Section Config.
Context `{TextLib}.

Definition validateConfig (cfg : loadConfig) : option error :=
  if (OBUs cfg <=? 0) || (Connections cfg <=? 0)
  then Some (EText "obus and connections must be positive")
  else if PayloadBytes cfg <? 0
  then Some (EText "payload-bytes cannot be negative")
  else if bool_decide (Mode cfg ≠ "fixed") && bool_decide (Mode cfg ≠ "max")
  then Some (EText ("mode must be fixed or max, got " +:+ Quote (Mode cfg)))
  else if bool_decide (Mode cfg = "max") && bool_decide (Ramp cfg ≠ "")
  then Some (EText "ramp schedule is only supported in fixed mode")
  else if bool_decide (Mode cfg = "fixed") && fleb (Rate cfg) fzero && bool_decide (Ramp cfg = "")
  then Some (EText "rate must be positive in fixed mode")
  else None.

Lemma validateConfig_spec (cfg : loadConfig) :
  validateConfig cfg = None ↔
  0 < OBUs cfg ∧ 0 < Connections cfg ∧ 0 ≤ PayloadBytes cfg ∧
  (Mode cfg = "fixed" ∧ (fleb (Rate cfg) fzero = false ∨ Ramp cfg ≠ "") ∨
   Mode cfg = "max" ∧ Ramp cfg = "").
Proof.
  unfold validateConfig. destruct (Z.leb_spec (OBUs cfg) 0); [simpl; split; [done|lia]|].
  destruct (Z.leb_spec (Connections cfg) 0); [simpl; split; [done|lia]|]. simpl.
  destruct (Z.ltb_spec (PayloadBytes cfg) 0); [split; [done|lia]|].
  destruct (decide (Mode cfg = "fixed")) as [E|Hf].
  - rewrite E. simpl. destruct (fleb _ _) eqn:El; simpl; [|naive_solver].
    case_bool_decide; naive_solver.
  - rewrite (bool_decide_eq_true_2 (Mode cfg ≠ "fixed")), (bool_decide_eq_false_2 (Mode cfg = "fixed"))
      by done. simpl.
    destruct (decide (Mode cfg = "max")) as [E|Hm]; [rewrite E; simpl|].
    + case_bool_decide; naive_solver.
    + rewrite bool_decide_eq_true_2 by done. naive_solver.
Qed.


(** One phase of [parseRamp]: a positive duration and a rate that is not [<= 0]. *)
Definition parse_phase (raw : string) : loadPhase + error :=
  match Split ":" (TrimSpace raw) with
  | [d; r] =>
      match ParseDuration d with
      | Some duration =>
          if duration <=? 0 then inr (EText ("invalid ramp duration " +:+ Quote d))
          else match ParseFloat r with
               | Some rate =>
                   if fleb rate fzero then inr (EText ("invalid ramp rate " +:+ Quote r))
                   else inl (mkPhase duration rate)
               | None => inr (EText ("invalid ramp rate " +:+ Quote r))
               end
      | None => inr (EText ("invalid ramp duration " +:+ Quote d))
      end
  | _ => inr (EText ("invalid ramp phase " +:+ Quote raw +:+ "; expected duration:rate"))
  end.

Fixpoint parse_phases (raws : list string) : list loadPhase + error :=
  match raws with
  | [] => inl []
  | raw :: raws =>
      match parse_phase raw with
      | inr e => inr e
      | inl ph => match parse_phases raws with
                  | inr e => inr e
                  | inl phs => inl (ph :: phs)
                  end
      end
  end.

Definition parseRamp (value : string) : list loadPhase + error :=
  if bool_decide (TrimSpace value = "") then inl []
  else parse_phases (Split "," value).

(** The phases of [runFixedRate]. *)
Definition run_phases (cfg : loadConfig) (phases : list loadPhase) : list loadPhase :=
  match phases with [] => [mkPhase (Duration cfg) (Rate cfg)] | _ => phases end.
End Config.

(** [time.Duration(float64(time.Second) / phase.rate)], at least a nanosecond. *)
Definition ticker_interval (cvt : float64 → Z) (rate : float64) : Z :=
  let interval := int64_of_float cvt (fdiv (f_of_Z Second) rate) in
  if interval <? 1 then 1 else interval.

(** ** Events *)

(** The counters shared by the goroutines; each is an atomic [uint64]. *)
Record loadStats := mkStats {
  attempted : Z;
  written : Z;
  failed : Z;
  sequence : Z;
  hashXOR : Z;
  hashSum : Z;
  runID : Z
}.

Definition new_stats (run : Z) : loadStats := mkStats 0 0 0 0 0 0 run.

(** [x.Add(1)] and [x.Add(delta)] on an atomic counter wrap around. *)
Definition add_attempted (s : loadStats) : loadStats :=
  mkStats (wrapU 64 (attempted s + 1)) (written s) (failed s) (sequence s) (hashXOR s) (hashSum s) (runID s).
Definition add_written (s : loadStats) : loadStats :=
  mkStats (attempted s) (wrapU 64 (written s + 1)) (failed s) (sequence s) (hashXOR s) (hashSum s) (runID s).
Definition recordFailure (s : loadStats) : loadStats :=
  mkStats (attempted s) (written s) (wrapU 64 (failed s + 1)) (sequence s) (hashXOR s) (hashSum s) (runID s).
Definition add_sequence (s : loadStats) : loadStats :=
  mkStats (attempted s) (written s) (failed s) (wrapU 64 (sequence s + 1)) (hashXOR s) (hashSum s) (runID s).
Definition add_hashSum (f : Z) (s : loadStats) : loadStats :=
  mkStats (attempted s) (written s) (failed s) (sequence s) (hashXOR s) (wrapU 64 (hashSum s + f)) (runID s).
Definition set_hashXOR (x : Z) (s : loadStats) : loadStats :=
  mkStats (attempted s) (written s) (failed s) (sequence s) x (hashSum s) (runID s).

Definition event_id (seed run seq : Z) : string :=
  Itoa seed +:+ "-" +:+ Itoa run +:+ "-" +:+ Itoa seq.

(** [now] is the clock and [r1], [r2] the two draws of the random generator. *)
Definition eventForOBU (cfg : loadConfig) (payload : string) (now : Z) (r1 r2 : float64)
    (obuID : Z) (s : loadStats) : OBUData * loadStats :=
  let s := add_sequence s in
  ({| od_EventID := event_id (Seed cfg) (runID s) (sequence s);
      od_ProducedAtUnixNano := now;
      od_OBUID := obuID;
      od_Lat := fmul r1 (f_of_Z 100);
      od_Lon := fmul r2 (f_of_Z 100);
      od_Payload := payload |}, s).

Definition next_obu (cfg : loadConfig) (s : loadStats) : Z :=
  let sequence := wrapU 64 (sequence s + 1) in
  wrapU 64 (sequence - 1) mod OBUs cfg + 1.

Definition nextEvent (cfg : loadConfig) (payload : string) (now : Z) (r1 r2 : float64)
    (s : loadStats) : OBUData * loadStats :=
  eventForOBU cfg payload now r1 r2 (next_obu cfg s) s.

(** The queue an event goes to in fixed mode: Go's [%] on non-negative numbers. *)
Definition connectionIndex (data : OBUData) (njobs : nat) : nat :=
  Z.to_nat (Z.rem (od_OBUID data - 1) (Z.of_nat njobs)).

(** The vehicles of worker [i] in maximum-throughput mode. *)
Fixpoint assign_from (fuel : nat) (obuID step obus : Z) : list Z :=
  match fuel with
  | O => []
  | S fuel => if obuID <=? obus then obuID :: assign_from fuel (obuID + step) step obus else []
  end.

Definition assignedOBUs (i nconns : nat) (obus : Z) : list Z :=
  assign_from (Z.to_nat obus) (Z.of_nat i + 1) (Z.of_nat nconns) obus.

(** ** Facts *)

Lemma next_obu_range cfg s : 0 < OBUs cfg → 1 ≤ next_obu cfg s ≤ OBUs cfg.
Proof.
  intros Ho. unfold next_obu. cbv zeta.
  pose proof (Z.mod_pos_bound (wrapU 64 (wrapU 64 (sequence s + 1) - 1)) (OBUs cfg) Ho). lia.
Qed.

Lemma next_obu_eq cfg s :
  0 ≤ sequence s < 2 ^ 64 - 1 → next_obu cfg s = sequence s mod OBUs cfg + 1.
Proof.
  intros Hs. unfold next_obu. rewrite (wrapU_id 64 (sequence s + 1)) by lia.
  rewrite wrapU_id by lia. do 2 f_equal. lia.
Qed.

Lemma connectionIndex_lt data n :
  (0 < n)%nat → 1 ≤ od_OBUID data → (connectionIndex data n < n)%nat.
Proof.
  intros Hn Ho. unfold connectionIndex.
  pose proof (Z.rem_bound_pos (od_OBUID data - 1) (Z.of_nat n)). lia.
Qed.

Lemma elem_of_assign_from fuel a step obus x :
  0 < step → 1 ≤ a → (obus - a < Z.of_nat fuel) →
  x ∈ assign_from fuel a step obus ↔ a ≤ x ≤ obus ∧ (x - a) mod step = 0.
Proof.
  intros Hs. revert a. induction fuel as [|fuel IH]; intros a Ha Hf; simpl.
  { split; [set_solver|]. lia. }
  destruct (Z.leb_spec a obus).
  - rewrite elem_of_cons, IH by lia. split.
    + intros [->|[Hb Hm]]; [by rewrite Z.sub_diag|]. split; [lia|].
      replace (x - a) with (x - (a + step) + 1 * step) by lia. by rewrite Z.mod_add by lia.
    + intros [Hb Hm]. destruct (Z.eq_dec x a) as [->|Hne]; [by left|right].
      replace (x - a) with (x - (a + step) + 1 * step) in Hm by lia.
      rewrite Z.mod_add in Hm by lia. split; [|done]. split; [|lia].
      destruct (Z.le_gt_cases (a + step) x) as [|Hlt]; [done|]. exfalso.
      assert ((x - (a + step)) mod step = x - (a + step) + step) as E.
      { symmetry. apply (Z.mod_unique_pos _ _ (-1)); lia. }
      lia.
  - split; [set_solver|]. lia.
Qed.

Lemma elem_of_assignedOBUs i n obus x :
  (0 < n)%nat →
  x ∈ assignedOBUs i n obus ↔ Z.of_nat i + 1 ≤ x ≤ obus ∧ (x - 1 - Z.of_nat i) mod Z.of_nat n = 0.
Proof.
  intros Hn. unfold assignedOBUs.
  destruct (Z.le_gt_cases obus 0) as [Hle|Hgt].
  { replace (Z.to_nat obus) with 0%nat by lia. simpl. split; [set_solver|lia]. }
  rewrite elem_of_assign_from by lia. by replace (x - (Z.of_nat i + 1)) with (x - 1 - Z.of_nat i) by lia.
Qed.

(** Ids of one run are told apart by their sequence number. *)
Lemma event_id_inj seed run a b :
  event_id seed run a = event_id seed run b → a = b.
Proof.
  intros H. unfold event_id in H.
  repeat apply string_app_inj in H. by apply Itoa_inj.
Qed.

Lemma NoDup_assign_from fuel a step obus : 0 < step → NoDup (assign_from fuel a step obus).
Proof.
  intros Hs. revert a. induction fuel as [|fuel IH]; intros a; simpl; [constructor|].
  destruct (a <=? obus); constructor; [|apply IH].
  assert (∀ b, a < b → a ∉ assign_from fuel b step obus) as H; [|apply H; lia].
  clear IH. induction fuel as [|fuel IH]; intros b Hb; simpl; [set_solver|].
  destruct (b <=? obus); [|set_solver]. rewrite not_elem_of_cons. split; [lia|]. apply IH. lia.
Qed.

(** ** A sequence of events of fixed mode *)

(** The events of successive ticks; each tick has its clock and random draws. *)
Fixpoint nextEvents (cfg : loadConfig) (payload : string) (ticks : list (Z * float64 * float64))
    (s : loadStats) : list OBUData * loadStats :=
  match ticks with
  | [] => ([], s)
  | (now, r1, r2) :: ticks =>
      let '(d, s) := nextEvent cfg payload now r1 r2 s in
      let '(ds, s) := nextEvents cfg payload ticks s in (d :: ds, s)
  end.

Lemma nextEvents_spec cfg payload ticks s :
  0 ≤ sequence s → sequence s + Z.of_nat (length ticks) < 2 ^ 64 →
  let ds := (nextEvents cfg payload ticks s).1 in
  length ds = length ticks ∧
  (∀ j d, ds !! j = Some d →
     od_OBUID d = (sequence s + Z.of_nat j) mod OBUs cfg + 1 ∧
     od_EventID d = event_id (Seed cfg) (runID s) (sequence s + Z.of_nat j + 1)).
Proof.
  revert s. induction ticks as [|[[now r1] r2] ticks IH]; intros s Hs Hlt; [done|].
  cbn [length nextEvents] in *. unfold nextEvent, eventForOBU.
  assert (sequence (add_sequence s) = sequence s + 1) as E by (simpl; apply wrapU_id; lia).
  specialize (IH (add_sequence s)). rewrite E in IH. specialize (IH ltac:(lia) ltac:(lia)).
  destruct (nextEvents cfg payload ticks (add_sequence s)) as [ds s']. cbn [fst] in *.
  destruct IH as [Hl Hd]. split; [simpl; lia|].
  intros [|j] d; simpl.
  - intros [= <-]. simpl. rewrite next_obu_eq, wrapU_id by lia. by rewrite Z.add_0_r.
  - intros Hj. destruct (Hd j d Hj) as [E1 E2]. rewrite E1, E2. simpl.
    split; [do 2 f_equal; lia|f_equal; lia].
Qed.

(** ** Properties *)

(** Maximum mode partitions the vehicles: with a valid configuration and any
    positive number of connections, every vehicle of the configuration is driven
    by exactly one worker, once per cycle, and no worker drives another one. *)
Theorem max_mode_partition `{TextLib} (cfg : loadConfig) (n : nat) :
  validateConfig cfg = None → (0 < n)%nat →
  (∀ obu, 1 ≤ obu ≤ OBUs cfg →
     ∃ i, (i < n)%nat ∧ ∀ j, (j < n)%nat → (obu ∈ assignedOBUs j n (OBUs cfg) ↔ j = i)) ∧
  (∀ i obu, obu ∈ assignedOBUs i n (OBUs cfg) → 1 ≤ obu ≤ OBUs cfg) ∧
  (∀ i, NoDup (assignedOBUs i n (OBUs cfg))).
Proof.
  intros Hcfg Hn. apply validateConfig_spec in Hcfg as (Ho & _ & _).
  split_and!.
  - intros obu Hobu. exists (Z.to_nat ((obu - 1) mod Z.of_nat n)).
    pose proof (Z.mod_pos_bound (obu - 1) (Z.of_nat n)).
    split; [lia|]. intros j Hj. rewrite elem_of_assignedOBUs by done. split.
    + intros [Hb Hm].
      assert ((obu - 1) mod Z.of_nat n = Z.of_nat j) as ->; [|lia].
      symmetry. apply (Z.mod_unique_pos _ _ ((obu - 1 - Z.of_nat j) / Z.of_nat n)); [lia|].
      pose proof (Z.div_mod (obu - 1 - Z.of_nat j) (Z.of_nat n) ltac:(lia)) as E.
      rewrite Hm in E. lia.
    + intros ->. rewrite Z2Nat.id by lia.
      pose proof (Z.div_mod (obu - 1) (Z.of_nat n) ltac:(lia)).
      assert (0 ≤ (obu - 1) / Z.of_nat n) by (apply Z.div_pos; lia).
      split; [nia|]. replace (obu - 1 - (obu - 1) mod Z.of_nat n)
        with ((obu - 1) / Z.of_nat n * Z.of_nat n) by lia. apply Z.mod_mul. lia.
  - intros i obu. rewrite elem_of_assignedOBUs by done. lia.
  - intros i. apply NoDup_assign_from. lia.
Qed.

(** Fixed mode takes the vehicles in turn: from a fresh run the [j]-th event
    is of vehicle [j mod OBUs + 1], its queue index is a valid one, its id carries
    the sequence number [j + 1], and the ids are all different. *)
Theorem fixed_mode_round_robin `{TextLib} (cfg : loadConfig) (payload : string) (run : Z) (n : nat)
    (ticks : list (Z * float64 * float64)) :
  validateConfig cfg = None → (0 < n)%nat → Z.of_nat (length ticks) < 2 ^ 64 →
  let ds := (nextEvents cfg payload ticks (new_stats run)).1 in
  length ds = length ticks ∧
  (∀ j d, ds !! j = Some d →
     od_OBUID d = Z.of_nat j mod OBUs cfg + 1 ∧ (connectionIndex d n < n)%nat ∧
     od_EventID d = event_id (Seed cfg) run (Z.of_nat j + 1)) ∧
  NoDup (od_EventID <$> ds).
Proof.
  intros Hcfg Hn Hlen ds. apply validateConfig_spec in Hcfg as (Ho & _ & _).
  destruct (nextEvents_spec cfg payload ticks (new_stats run)) as [Hl Hd]; [done|simpl; lia|].
  fold ds in Hl, Hd. simpl in Hd. split_and!; [done|..].
  - intros j d Hj. destruct (Hd j d Hj) as [E1 E2]. rewrite Z.add_0_l in E1, E2.
    split_and!; [done| |done].
    apply connectionIndex_lt; [done|]. rewrite E1.
    pose proof (Z.mod_pos_bound (Z.of_nat j) (OBUs cfg) Ho). lia.
  - apply NoDup_alt. intros j j' x. rewrite !list_lookup_fmap.
    intros (d & Hj & ->)%fmap_Some (d' & Hj' & E)%fmap_Some.
    destruct (Hd j d Hj) as [_ E1], (Hd j' d' Hj') as [_ E2]. rewrite E1, E2 in E.
    apply lookup_lt_Some in Hj, Hj'. rewrite Hl in Hj, Hj'.
    apply event_id_inj in E. lia.
Qed.

(** Some text functions. *)
#[local] Instance small_text : TextLib := {|
  Quote s := s;
  ParseFloat s := f_of_Z <$> Atoi s;
  ParseDuration s := Z.mul Second <$> Atoi s
|}.

(** What a piece of the schedule has to be. *)
Definition phase_of `{TextLib} (raw : string) (ph : loadPhase) : Prop :=
  ∃ d r, Split ":" (TrimSpace raw) = [d; r] ∧
    ParseDuration d = Some (ph_duration ph) ∧ ParseFloat r = Some (ph_rate ph) ∧
    0 < ph_duration ph ∧ (fltb fzero (ph_rate ph) = true ∨ ph_rate ph = S754_nan).

Lemma not_fleb_zero x : fleb x fzero = false ↔ fltb fzero x = true ∨ x = S754_nan.
Proof.
  destruct x as [s|s| |s m e]; try destruct s; vm_compute; naive_solver.
Qed.

Lemma parse_phase_spec `{TextLib} raw ph : parse_phase raw = inl ph ↔ phase_of raw ph.
Proof.
  unfold parse_phase, phase_of. destruct (Split ":" (TrimSpace raw)) as [|d [|r [|]]];
    [naive_solver..| |naive_solver].
  split.
  - destruct (ParseDuration d) as [du|] eqn:Hd; [|done].
    destruct (Z.leb_spec du 0); [done|]. destruct (ParseFloat r) as [ra|] eqn:Hr; [|done].
    destruct (fleb ra fzero) eqn:Hf; [done|]. intros [= <-]. apply not_fleb_zero in Hf. eauto 8.
  - intros (d' & r' & [= <- <-] & -> & -> & Hp & Hf%not_fleb_zero).
    destruct (Z.leb_spec (ph_duration ph) 0); [lia|]. rewrite Hf. by destruct ph.
Qed.

Lemma parse_phases_spec `{TextLib} raws :
  match parse_phases raws with
  | inl phs => Forall2 phase_of raws phs
  | inr e => ∃ good bad rest phs, raws = good ++ bad :: rest ∧ Forall2 phase_of good phs ∧
               parse_phase bad = inr e ∧ ∀ ph, ¬ phase_of bad ph
  end.
Proof.
  induction raws as [|raw raws IH]; simpl; [constructor|].
  destruct (parse_phase raw) as [ph|e] eqn:Hp.
  - apply parse_phase_spec in Hp. destruct (parse_phases raws) as [phs|e]; [by constructor|].
    destruct IH as (good & bad & rest & phs & -> & Hg & Hb & Hn).
    exists (raw :: good), bad, rest, (ph :: phs). split_and!; [done|by constructor|done..].
  - exists [], raw, raws, []. split_and!; [done|constructor|done|].
    intros ph. rewrite <- parse_phase_spec. congruence.
Qed.

(** C38. The ramp schedule: a blank one means the single configured phase; an
    accepted one has a phase for every piece, in order, with the duration and
    rate the piece spells, the duration positive and the rate positive - or NaN,
    which the check lets through; a refused one fails at the first bad piece.  In
    every phase the ticker gets a positive interval, whatever the conversion of
    an out-of-range quotient gives, so that it does not panic. *)
Theorem ramp_schedule_correct `{TextLib} (cfg : loadConfig) (value : string) :
  match parseRamp value with
  | inl phs =>
      (if bool_decide (TrimSpace value = "")
       then run_phases cfg phs = [mkPhase (Duration cfg) (Rate cfg)]
       else Forall2 phase_of (Split "," value) phs ∧ run_phases cfg phs = phs) ∧
      ∀ cvt ph, ph ∈ run_phases cfg phs → 1 ≤ ticker_interval cvt (ph_rate ph)
  | inr e => ∃ good bad rest phs, Split "," value = good ++ bad :: rest ∧
      Forall2 phase_of good phs ∧ parse_phase bad = inr e ∧ ∀ ph, ¬ phase_of bad ph
  end.
Proof.
  assert (∀ cvt rate, 1 ≤ ticker_interval cvt rate) as Ht.
  { intros cvt rate. unfold ticker_interval. cbv zeta. destruct (Z.ltb_spec (int64_of_float cvt (fdiv (f_of_Z Second) rate)) 1); lia. }
  unfold parseRamp. case_bool_decide as Hb; [by auto|].
  pose proof (parse_phases_spec (Split "," value)) as Hs.
  destruct (parse_phases _) as [phs|e]; [|done]. split; [|by auto]. split; [done|].
  destruct phs; [|done]. apply Forall2_nil_inv_r in Hs. by apply Split_not_nil in Hs.
Qed.

Definition small_config (mode : string) : loadConfig :=
  mkLoadConfig "ws://127.0.0.1:30000/ws" 3 (f_of_Z 4) 2 0 0 mode 1 "" "".

Lemma max_mode_partition_witness :
  validateConfig (small_config "max") = None ∧
  assignedOBUs 0 2 3 = [1; 3] ∧ assignedOBUs 1 2 3 = [2] ∧
  ∃ i, (i < 2)%nat ∧ ∀ j, (j < 2)%nat → (3 ∈ assignedOBUs j 2 3 ↔ j = i).
Proof.
  assert (validateConfig (small_config "max") = None) as Hc by by vm_compute.
  split_and!; [done|by vm_compute|by vm_compute|].
  apply (max_mode_partition (small_config "max") 2 Hc); simpl; lia.
Defined.

Lemma fixed_mode_round_robin_witness :
  let ds := (nextEvents (small_config "fixed") "" (replicate 4 (5, fzero, fzero)) (new_stats 9)).1 in
  validateConfig (small_config "fixed") = None ∧
  (od_OBUID <$> ds) = [1; 2; 3; 1] ∧ NoDup (od_EventID <$> ds).
Proof.
  intros ds. assert (validateConfig (small_config "fixed") = None) as Hc by by vm_compute.
  split_and!; [done|by vm_compute|].
  apply (fixed_mode_round_robin (small_config "fixed") "" 9 2 (replicate 4 (5, fzero, fzero)) Hc);
    simpl; lia.
Defined.
