(* ===== verification/LoadMain.v ===== *)
(** * LoadMain: the process of the load generator (src/obu/main.go)

    [main] after the flags are parsed: dialling the receiver, the run (its
    goroutines are in ObuConcurrency.v, here a parameter), closing the sockets,
    and the summary with its JSON text.  Sockets and the metrics server are the
    environment [LoadEnv].  Whatever happens, every socket that was opened is
    closed and the gauge of active connections comes back. *)

From S2P Require Import Prelude Float64 GoLib Types Decimal Http Json GoJson Obu.
From Stdlib Require Import Ascii.

Local Open Scope Z_scope.

(** ** Sockets *)

Class LoadEnv (E : Type) := {
  DialContext : string → E → (Conn + error) * E;
  WriteNormalClosure : Conn → string → Instant → E → option error * E;
  Socket_Close : Conn → E → option error * E;
  SetWriteDeadline : Conn → Instant → E → option error * E;
  WriteJSON : Conn → OBUData → E → option error * E;
  ListenAndServe : string → E → () * E;           (* in a goroutine of its own *)
  Shutdown : E → option error * E
}.

Definition m_obuActiveConnections : string := "tollify_obu_active_connections".

Section Load.
Context {E : Type} `{LoadEnv E}.

(** A nil connection is skipped. *)
Definition closeConnection (conn : option Conn) : M (Proc E) () :=
  match conn with
  | None => mret ()
  | Some conn =>
      t ← Now;
      _ ← lift (WriteNormalClosure conn "test complete" (Add t Second));
      _ ← lift (Socket_Close conn);
      emit (Dec m_obuActiveConnections [])
  end.

Fixpoint closeConnections (connections : list (option Conn)) : M (Proc E) () :=
  match connections with
  | [] => mret ()
  | conn :: connections => _ ← closeConnection conn; closeConnections connections
  end.

(** The loop of [dialConnections] from [i] on, [n] connections left. *)
Fixpoint dial_from (Endpoint : string) (n : nat) (i : Z) (connections : list (option Conn))
    : M (Proc E) (list (option Conn) + error) :=
  match n with
  | O => mret (inl connections)
  | S n =>
      r ← lift (DialContext Endpoint);
      match r with
      | inr e =>
          _ ← closeConnections connections;
          mret (inr (EWrap ("connect WebSocket " +:+ Itoa i +:+ ": ") e ""))
      | inl conn =>
          _ ← emit (Inc m_obuActiveConnections []);
          dial_from Endpoint n (i + 1) (connections ++ [Some conn])
      end
  end.

Definition dialConnections (cfg : loadConfig) : M (Proc E) (list (option Conn) + error) :=
  dial_from (Endpoint cfg) (Z.to_nat (Connections cfg)) 0 [].

Definition writeEvent (conn : Conn) (data : OBUData) : M (Proc E) (option error) :=
  t ← Now;
  _ ← lift (SetWriteDeadline conn (Add t (5 * Second)));
  lift (WriteJSON conn data).

(** [true] when there is a server to shut down. *)
Definition startMetricsServer (addr : string) : M (Proc E) bool :=
  if bool_decide (addr = "") then mret false
  else _ ← lift (ListenAndServe addr); mret true.
End Load.

(** ** The summary *)

Record summary := mkSummary {
  s_Mode : string;
  s_OBUs : Z;
  s_Connections : Z;
  s_ConfiguredRate : float64;
  s_ElapsedSeconds : float64;
  s_EventsAttempted : Z;
  s_EventsWritten : Z;
  s_WriteFailures : Z;
  s_AchievedWriteRate : float64;
  s_EventIDHashXOR : Z;
  s_EventIDHashSum : Z
}.

Definition summary_of (cfg : loadConfig) (stats : loadStats) (elapsed : Z) : summary := {|
  s_Mode := Mode cfg;
  s_OBUs := OBUs cfg;
  s_Connections := Connections cfg;
  s_ConfiguredRate := Rate cfg;
  s_ElapsedSeconds := Seconds elapsed;
  s_EventsAttempted := attempted stats;
  s_EventsWritten := written stats;
  s_WriteFailures := failed stats;
  s_AchievedWriteRate := fdiv (f_of_Z (written stats)) (Seconds elapsed);
  s_EventIDHashXOR := hashXOR stats;
  s_EventIDHashSum := hashSum stats
|}.

(** A rate of zero is omitted. *)
Definition summary_members (s : summary) : list (bytes * json) :=
  [(word "mode", js_string (s_Mode s)); (word "obus", js_int (s_OBUs s));
   (word "connections", js_int (s_Connections s))]
  ++ (if feqb (s_ConfiguredRate s) fzero then []
      else [(word "configured_rate_events_per_second", js_float (s_ConfiguredRate s))])
  ++ [(word "elapsed_seconds", js_float (s_ElapsedSeconds s));
      (word "events_attempted", js_int (s_EventsAttempted s));
      (word "events_written", js_int (s_EventsWritten s));
      (word "write_failures", js_int (s_WriteFailures s));
      (word "achieved_write_rate_events_per_second", js_float (s_AchievedWriteRate s));
      (word "event_id_hash_xor", js_int (s_EventIDHashXOR s));
      (word "event_id_hash_sum", js_int (s_EventIDHashSum s))].

Definition summary_finite (s : summary) : bool :=
  (feqb (s_ConfiguredRate s) fzero || is_finite (s_ConfiguredRate s))
  && is_finite (s_ElapsedSeconds s) && is_finite (s_AchievedWriteRate s).

(** What is printed: the error of [json.MarshalIndent] is ignored, so that a rate
    that is not finite leaves an empty line. *)
Definition printSummary (cfg : loadConfig) (stats : loadStats) (elapsed : Z) : string :=
  let result := summary_of cfg stats elapsed in
  (if summary_finite result then of_bytes (print_indented (summary_members result)) else "")
  +:+ String "010" "".

(** ** The printed summary *)

Definition summary_valid (s : summary) : bool :=
  utf8_valid (s_Mode s) && valid_binary 53 1024 (s_ConfiguredRate s)
  && valid_binary 53 1024 (s_ElapsedSeconds s) && valid_binary 53 1024 (s_AchievedWriteRate s).

Lemma summary_of_valid cfg stats elapsed :
  utf8_valid (Mode cfg) = true → valid_binary 53 1024 (Rate cfg) = true →
  summary_valid (summary_of cfg stats elapsed) = true.
Proof.
  intros Hm Hr. unfold summary_valid. simpl. rewrite Hm, Hr, Seconds_valid. simpl.
  apply fdiv_valid; [apply f_of_Z_valid|apply Seconds_valid].
Qed.

Lemma summary_members_wf s :
  summary_valid s = true → summary_finite s = true → wf_members (summary_members s).
Proof.
  intros Hv Hf. unfold summary_valid in Hv. unfold summary_finite in Hf. b2p.
  unfold summary_members. repeat (apply Forall_app; split).
  2: destruct (feqb (s_ConfiguredRate s) fzero) eqn:Er.
  all: repeat first [apply Forall_cons; split | apply Forall_nil];
    auto using member_string, member_int, member_float.
  apply member_float; [done| |done]. naive_solver.
Qed.

(** The printed text is JSON with the members of the summary. *)
Lemma printSummary_parses cfg stats elapsed :
  utf8_valid (Mode cfg) = true → valid_binary 53 1024 (Rate cfg) = true →
  summary_finite (summary_of cfg stats elapsed) = true →
  parse_document (word (printSummary cfg stats elapsed)) =
    Some (JsObj (summary_members (summary_of cfg stats elapsed))).
Proof.
  intros Hm Hr Hf. unfold printSummary. cbv zeta. rewrite Hf, word_app, word_of_bytes.
  unfold parse_document, print_indented.
  rewrite parse_print_object; [done..| |by apply summary_members_wf; [apply summary_of_valid|]].
  unfold summary_members. by destruct (feqb _ _).
Qed.

(** ** main *)

Inductive outcome :=
| Fatal (e : error)          (* log.Fatal: deferred calls do not run *)
| Printed (out : string).

Section Main.
Context `{TextLib} {E : Type} `{LoadEnv E}.
(** [runFixedRate] or [runMaximumThroughput]: the duration of the context, when it
    has one, the phases and the connections give the final counters. *)
Context (load : option Z → list loadPhase → list (option Conn) → loadStats → M (Proc E) loadStats).

(** From the counters on. *)
Definition run_load (cfg : loadConfig) (phases : list loadPhase) (metricsServer : bool)
    (connections : list (option Conn)) : M (Proc E) outcome :=
  let timeout := if (0 <? Duration cfg) && bool_decide (Mode cfg = "max")
                 then Some (Duration cfg) else None in
  now ← Now;
  start ← Now;
  stats ← load timeout phases connections (new_stats (wall now));
  elapsed ← Since start;
  _ ← closeConnections connections;
  _ ← (if metricsServer then _ ← lift Shutdown; mret () else mret ());
  mret (Printed (printSummary cfg stats elapsed)).

Definition main (cfg : loadConfig) : M (Proc E) outcome :=
  match validateConfig cfg with
  | Some e => mret (Fatal e)
  | None =>
      match parseRamp (Ramp cfg) with
      | inr e => mret (Fatal e)
      | inl phases =>
          metricsServer ← startMetricsServer (MetricsAddr cfg);
          r ← dialConnections cfg;
          match r with
          | inr e => mret (Fatal e)
          | inl connections => run_load cfg phases metricsServer connections
          end
      end
  end.
End Main.

(** ** What is opened and closed *)

Inductive LoadEvent :=
| Dialled (Endpoint : string) (r : Conn + error)
| CloseFrame (c : Conn) (text : string)
| SocketClosed (c : Conn)
| Wrote (c : Conn) (data : OBUData) (ok : bool).

Definition opened_by (ev : LoadEvent) : option Conn :=
  match ev with Dialled _ (inl c) => Some c | _ => None end.
Definition closed_by (ev : LoadEvent) : option Conn :=
  match ev with SocketClosed c => Some c | _ => None end.

Abbreviation opened := (omap opened_by).
Abbreviation closed := (omap closed_by).

Section Traced.
Context {E : Type} `{!LoadEnv E}.
Abbreviation W := (Proc (E * list LoadEvent)).

Definition record_event {A} (ev : A → list LoadEvent) (f : E → A * E) (w : E * list LoadEvent)
    : A * (E * list LoadEvent) :=
  ((f w.1).1, ((f w.1).2, w.2 ++ ev (f w.1).1)).

#[export] Instance traced_load : LoadEnv (E * list LoadEvent) := {|
  DialContext a := record_event (λ r, [Dialled a r]) (DialContext a);
  WriteNormalClosure c s t := record_event (λ _, [CloseFrame c s]) (WriteNormalClosure c s t);
  Socket_Close c := record_event (λ _, [SocketClosed c]) (Socket_Close c);
  SetWriteDeadline c t := record_event (λ _, []) (SetWriteDeadline c t);
  WriteJSON c d := record_event (λ r, [Wrote c d (is_nil r)]) (WriteJSON c d);
  ListenAndServe a := record_event (λ _, []) (ListenAndServe a);
  Shutdown := record_event (λ _, []) Shutdown
|}.

Abbreviation active := (gauge m_obuActiveConnections []).

(** The calls from [p] to [p'] are [tr], and the gauge moved by [z]. *)
Definition did (tr : list LoadEvent) (z : Z) (p p' : W) : Prop :=
  (heap p').2 = (heap p).2 ++ tr ∧ active p' = active p + z.

Lemma did_nil p p' : (heap p').2 = (heap p).2 → metrics p' = metrics p → did [] 0 p p'.
Proof. intros H1 H2. split; [by rewrite app_nil_r|]. unfold gauge. rewrite H2. lia. Qed.

Lemma did_trans tr tr' z z' p p' p'' :
  did tr z p p' → did tr' z' p' p'' → did (tr ++ tr') (z + z') p p''.
Proof. intros [H1 H2] [H3 H4]. split; [by rewrite H3, H1, app_assoc|lia]. Qed.

Lemma did_lift {A} (ev : A → list LoadEvent) (f : E → A * E) (p : W) :
  did (ev (f (heap p).1).1) 0 p (lift (record_event ev f) p).2.
Proof. split; [done|]. unfold gauge. simpl. lia. Qed.

Lemma did_close_frame c s t (p : W) :
  did [CloseFrame c s] 0 p (lift (WriteNormalClosure c s t) p).2.
Proof. apply (did_lift (λ _, [CloseFrame c s]) (WriteNormalClosure c s t)). Qed.

Lemma did_close c (p : W) : did [SocketClosed c] 0 p (lift (Socket_Close c) p).2.
Proof. apply (did_lift (λ _, [SocketClosed c]) (Socket_Close c)). Qed.

Lemma lift_value {A} (ev : A → list LoadEvent) (f : E → A * E) (p : W) :
  (lift (record_event ev f) p).1 = (f (heap p).1).1.
Proof. done. Qed.

Lemma did_emit op (p : W) :
  did [] (if bool_decide (op = Inc m_obuActiveConnections []) then 1
          else if bool_decide (op = Dec m_obuActiveConnections []) then -1 else 0)
      p (emit op p).2.
Proof. split; [by rewrite app_nil_r|apply gauge_emit]. Qed.

Lemma did_Now (p : W) : did [] 0 p (Now p).2.
Proof. by apply did_nil. Qed.

(** Sending the close frame and closing. *)
Definition close_events (conns : list Conn) : list LoadEvent :=
  conns ≫= λ c, [CloseFrame c "test complete"; SocketClosed c].

Lemma closeConnection_did conn (p : W) :
  did (close_events (option_list conn)) (- Z.of_nat (length (option_list conn))) p
      (closeConnection conn p).2.
Proof.
  destruct conn as [c|]; [|by apply did_nil]. unfold closeConnection.
  rewrite !M_bind_eq.
  pose proof (did_Now p) as H1. set (p1 := (Now p).2) in *.
  pose proof (did_close_frame c "test complete" (Add (Now p).1 Second) p1) as H2.
  set (p2 := (lift _ p1).2) in *. pose proof (did_close c p2) as H3.
  set (p3 := (lift _ p2).2) in *. pose proof (did_emit (Dec m_obuActiveConnections []) p3) as H4.
  exact (did_trans _ _ _ _ _ _ _ (did_trans _ _ _ _ _ _ _ (did_trans _ _ _ _ _ _ _ H1 H2) H3) H4).
Qed.

Lemma close_events_app l l' : close_events (l ++ l') = close_events l ++ close_events l'.
Proof. apply bind_app. Qed.

Lemma closeConnections_did (conns : list (option Conn)) (p : W) :
  did (close_events (omap id conns)) (- Z.of_nat (length (omap id conns))) p
      (closeConnections conns p).2.
Proof.
  revert p. induction conns as [|conn conns IH]; intros p; [by apply did_nil|].
  cbn [closeConnections]. rewrite M_bind_eq.
  pose proof (did_trans _ _ _ _ _ _ _ (closeConnection_did conn p) (IH _)) as Hd.
  rewrite <- close_events_app in Hd. destruct conn as [c|]; [|exact Hd].
  change (omap id (Some c :: conns)) with (c :: omap id conns).
  destruct Hd as [H1 H2]. split; [exact H1|]. rewrite H2.
  change (length (option_list (Some c))) with 1%nat. cbn [length]. lia.
Qed.

Lemma opened_dials a conns :
  opened ((λ c, Dialled a (inl c)) <$> conns) = conns ∧ closed ((λ c, Dialled a (inl c)) <$> conns) = [].
Proof.
  induction conns as [|c conns [IH1 IH2]]; [done|]. split; [exact (f_equal (cons c) IH1)|exact IH2].
Qed.

Lemma opened_closes conns :
  opened (close_events conns) = [] ∧ closed (close_events conns) = conns.
Proof.
  induction conns as [|c conns [IH1 IH2]]; [done|]. split; [exact IH1|exact (f_equal (cons c) IH2)].
Qed.

Lemma omap_id_Some (l : list (option Conn)) (conns : list Conn) :
  omap id (l ++ (Some <$> conns)) = omap id l ++ conns.
Proof. rewrite omap_app. f_equal.
  induction conns as [|c conns IH]; [done|]. exact (f_equal (cons c) IH). Qed.

(** Dialling [n] more connections, from number [i] on. *)
Lemma dial_from_did a n i conns (p : W) :
  let '(r, p') := dial_from a n i conns p in
  match r with
  | inl conns' => ∃ more, conns' = conns ++ (Some <$> more) ∧ length more = n ∧
                    did ((λ c, Dialled a (inl c)) <$> more) (Z.of_nat n) p p'
  | inr e => ∃ more err, (length more < n)%nat ∧
               e = EWrap ("connect WebSocket " +:+ Itoa (i + Z.of_nat (length more)) +:+ ": ") err "" ∧
               did (((λ c, Dialled a (inl c)) <$> more) ++ [Dialled a (inr err)]
                    ++ close_events (omap id conns ++ more)) (- Z.of_nat (length (omap id conns))) p p'
  end.
Proof.
  revert i conns p. induction n as [|n IH]; intros i conns p; cbn [dial_from].
  { exists []. simpl. rewrite app_nil_r. split_and!; [done|done|by apply did_nil]. }
  rewrite M_bind_eq.
  pose proof (did_lift (λ r, [Dialled a r]) (DialContext a) p) as Hd.
  change (lift (DialContext a) p) with (lift (record_event (λ r, [Dialled a r]) (DialContext a)) p).
  set (q := (lift _ p).2) in *. rewrite lift_value.
  destruct (DialContext a (heap p).1).1 as [c|err]; rewrite M_bind_eq.
  - pose proof (did_trans _ _ _ _ _ _ _ Hd (did_emit (Inc m_obuActiveConnections []) q)) as Hd1.
    set (q1 := (emit _ q).2) in *. specialize (IH (i + 1) (conns ++ [Some c]) q1).
    destruct (dial_from a n (i + 1) (conns ++ [Some c]) q1) as [[conns'|e] p'].
    + destruct IH as (more & -> & Hl & Hm). exists (c :: more).
      split_and!; [by rewrite <- app_assoc|by simpl; f_equal|].
      pose proof (did_trans _ _ _ _ _ _ _ Hd1 Hm) as [H1 H2]. split; [done|]. rewrite H2. simpl. lia.
    + destruct IH as (more & err & Hl & -> & Hm). exists (c :: more), err.
      split_and!; [simpl; lia|do 4 f_equal; simpl; lia|].
      pose proof (did_trans _ _ _ _ _ _ _ Hd1 Hm) as [H1 H2].
      rewrite omap_app in H1, H2. change (omap id [Some c]) with [c] in H1, H2.
      rewrite <- (app_assoc (omap id conns)) in H1. split; [by rewrite H1|]. rewrite H2, length_app. cbn [length]. lia.
  - exists [], err. cbn [fst snd mret M_ret].
    pose proof (did_trans _ _ _ _ _ _ _ Hd (closeConnections_did conns q)) as [H1 H2].
    split_and!; [simpl; lia|do 4 f_equal; simpl; lia|]. rewrite app_nil_r.
    split; [exact H1|]. rewrite H2. lia.
Qed.

Lemma startMetricsServer_did addr (p : W) : did [] 0 p (startMetricsServer addr p).2.
Proof.
  unfold startMetricsServer. case_bool_decide; [by apply did_nil|].
  rewrite M_bind_eq. apply did_nil; [apply app_nil_r|done].
Qed.

(** The goroutines of a run neither open nor close sockets. *)
Definition load_keeps
    (load : option Z → list loadPhase → list (option Conn) → loadStats → M W loadStats) : Prop :=
  ∀ timeout phases conns stats p, ∃ tr,
    did tr 0 p (load timeout phases conns stats p).2 ∧ opened tr = [] ∧ closed tr = [].

Lemma run_load_did load cfg phases ms (conns : list Conn) (p : W) :
  load_keeps load →
  let '(out, p') := run_load load cfg phases ms (Some <$> conns) p in
  (∃ timeout run q elapsed, out = Printed (printSummary cfg
     (load timeout phases (Some <$> conns) (new_stats run) q).1 elapsed)) ∧
  ∃ tr, did tr (- Z.of_nat (length conns)) p p' ∧ opened tr = [] ∧ closed tr = conns.
Proof.
  intros Hload. unfold run_load.
  set (timeout := if (0 <? Duration cfg) && bool_decide (Mode cfg = "max") then _ else _).
  do 3 rewrite M_bind_eq.
  set (p2 := (Now (Now p).2).2) in *. assert (did [] 0 p p2) as D2 by by apply did_nil.
  destruct (Hload timeout phases (Some <$> conns) (new_stats (wall (Now p).1)) p2)
    as (trl & D3 & Ho & Hc).
  set (r := load _ _ _ _ p2) in *. rewrite M_bind_eq.
  assert (did [] 0 r.2 (Since (Now (Now p).2).1 r.2).2) as D4 by by apply did_nil.
  set (p4 := (Since _ r.2).2) in *. rewrite !M_bind_eq.
  pose proof (closeConnections_did (Some <$> conns) p4) as D5.
  assert (omap id (Some <$> conns) = conns) as Eid by exact (omap_id_Some [] conns).
  rewrite Eid in D5. set (p5 := (closeConnections _ p4).2) in *.
  set (fin := if _ : bool then _ else _).
  assert (did [] 0 p5 (fin p5).2) as D6.
  { unfold fin. case_match; [rewrite M_bind_eq|]; apply did_nil; [apply app_nil_r|done..]. }
  split; [by eexists _, _, _, _|]. exists (trl ++ close_events conns).
  destruct (opened_closes conns) as [Ec Ed]. rewrite !omap_app, Ec, Ed, Ho, Hc.
  split_and!; [|done..].
  pose proof (did_trans _ _ _ _ _ _ _ D2 (did_trans _ _ _ _ _ _ _ D3 (did_trans _ _ _ _ _ _ _ D4
    (did_trans _ _ _ _ _ _ _ D5 D6)))) as [Ha Hb].
  cbn [app] in Ha. rewrite app_nil_r in Ha. split; [exact Ha|]. cbn [snd mret M_ret]. lia.
Qed.
End Traced.

(** ** Properties *)

(** C24. The load generator leaves nothing open.  However [main] ends, the sockets
    it closed are the ones it opened, each once and in order, and the gauge of
    active connections is back.  A bad configuration ends it before any dialling;
    a failed dial ends it with the number of the connection, and then the sockets
    opened so far are closed; otherwise it has opened as many connections as
    configured, run the load on them, and printed the summary of the load's
    counters. *)
Theorem main_releases_sockets `{TextLib} {E} `{LoadEnv E}
    (load : option Z → list loadPhase → list (option Conn) → loadStats →
            M (Proc (E * list LoadEvent)) loadStats)
    (cfg : loadConfig) (p : Proc (E * list LoadEvent)) :
  load_keeps load →
  let '(out, p') := main load cfg p in
  ∃ tr, did tr 0 p p' ∧ closed tr = opened tr ∧
    match validateConfig cfg, parseRamp (Ramp cfg) with
    | Some e, _ | None, inr e => out = Fatal e ∧ tr = []
    | None, inl phases =>
        let n := length (opened tr) in
        ((n < Z.to_nat (Connections cfg))%nat ∧ ∃ err,
           out = Fatal (EWrap ("connect WebSocket " +:+ Itoa (Z.of_nat n) +:+ ": ") err "")) ∨
        (n = Z.to_nat (Connections cfg) ∧ ∃ timeout run q elapsed,
           out = Printed (printSummary cfg
             (load timeout phases (Some <$> opened tr) (new_stats run) q).1 elapsed))
    end.
Proof.
  intros Hload. unfold main.
  destruct (validateConfig cfg) as [e|]; [exists []; by split_and!; [apply did_nil|..]|].
  destruct (parseRamp (Ramp cfg)) as [phases|e]; [|exists []; by split_and!; [apply did_nil|..]].
  rewrite M_bind_eq. pose proof (startMetricsServer_did (MetricsAddr cfg) p) as D0.
  set (p0 := (startMetricsServer _ p).2) in *. rewrite M_bind_eq.
  pose proof (dial_from_did (Endpoint cfg) (Z.to_nat (Connections cfg)) 0 [] p0) as D1.
  unfold dialConnections. destruct (dial_from _ _ 0 [] p0) as [[conns|e] p1]; cbn [fst snd].
  - destruct D1 as (more & -> & Hn & D1). cbn [app].
    pose proof (run_load_did load cfg phases (startMetricsServer (MetricsAddr cfg) p).1 more p1 Hload) as D2.
    destruct (run_load _ _ _ _ _ p1) as [out p']. destruct D2 as [Hout (tr & D2 & Ho & Hc)].
    exists (((λ c, Dialled (Endpoint cfg) (inl c)) <$> more) ++ tr).
    destruct (opened_dials (Endpoint cfg) more) as [Ea Eb].
    rewrite !omap_app, Ea, Eb, Ho, Hc, app_nil_r. split_and!; [|done|by right].
    destruct (did_trans _ _ _ _ _ _ _ D0 (did_trans _ _ _ _ _ _ _ D1 D2)) as [Ha Hb].
    split; [exact Ha|lia].
  - destruct D1 as (more & err & Hn & -> & D1).
    exists (((λ c, Dialled (Endpoint cfg) (inl c)) <$> more) ++ [Dialled (Endpoint cfg) (inr err)]
            ++ close_events more).
    destruct (opened_dials (Endpoint cfg) more) as [Ea Eb], (opened_closes more) as [Ec Ed].
    rewrite !omap_app, Ea, Eb, Ec, Ed. simpl opened. simpl closed. rewrite !app_nil_r.
    split_and!; [exact (did_trans _ _ _ _ _ _ _ D0 D1)|done|]. left. split; [done|]. by exists err.
Qed.

(** ** A concrete run *)

(** The third dial fails. *)
#[local] Instance flaky_env : LoadEnv nat := {|
  DialContext _ n := (if bool_decide (n = 2%nat) then inr (EText "connection refused") else inl n, S n);
  WriteNormalClosure _ _ _ n := (None, n);
  Socket_Close _ n := (None, n);
  SetWriteDeadline _ _ n := (None, n);
  WriteJSON _ _ n := (None, n);
  ListenAndServe _ n := ((), n);
  Shutdown n := (None, n)
|}.

#[local] Instance no_text : TextLib := {|
  Quote s := s; ParseFloat _ := None; ParseDuration _ := None
|}.

Definition idle_load : option Z → list loadPhase → list (option Conn) → loadStats →
    M (Proc (nat * list LoadEvent)) loadStats := λ _ _ _ stats, mret stats.

Definition start_clock (n : nat) : Instant := mkInstant (1000 + Z.of_nat n) (Z.of_nat n).

Definition main_config (n : Z) : loadConfig :=
  mkLoadConfig "ws://r/ws" 3 (f_of_Z 4) n 0 0 "fixed" 1 "" "".

Lemma main_releases_sockets_witness :
  load_keeps idle_load ∧
  (let '(out, p') := main idle_load (main_config 3) (mkProc (0%nat, []) [] start_clock 0) in
   out = Fatal (EWrap "connect WebSocket 2: " (EText "connection refused") "") ∧
   closed (heap p').2 = [0%nat; 1%nat] ∧ gauge m_obuActiveConnections [] p' = 0).
Proof.
  assert (load_keeps idle_load) as Hl by (intros ? ? ? ? ?; exists []; by split; [apply did_nil|]).
  split; [done|].
  assert ((main idle_load (main_config 3) (mkProc (0%nat, []) [] start_clock 0)).1 =
    Fatal (EWrap "connect WebSocket 2: " (EText "connection refused") "") ∧
    opened (heap (main idle_load (main_config 3) (mkProc (0%nat, []) [] start_clock 0)).2).2 = [0%nat; 1%nat])
    as [E1 E2] by by vm_compute.
  pose proof (main_releases_sockets idle_load (main_config 3) (mkProc (0%nat, []) [] start_clock 0) Hl) as H.
  destruct (main _ _ _) as [out p']. cbn [fst snd] in *.
  destruct H as (tr & [Ht Hg] & Hc & _). cbn [heap snd app] in Ht.
  rewrite <- Ht, E2 in Hc. split_and!; [done|done|]. rewrite Hg. by vm_compute.
Defined.

(** What an operator sees, without the indentation. *)
Example summary_text :
  parse_document (word (printSummary (main_config 1) (mkStats 3 2 1 3 7 8 99) (2 * Second))) =
  parse_document (word (of_bytes (print_obj [
    (word "mode", js_string "fixed"); (word "obus", js_int 3); (word "connections", js_int 1);
    (word "configured_rate_events_per_second", js_int 4); (word "elapsed_seconds", js_int 2);
    (word "events_attempted", js_int 3); (word "events_written", js_int 2);
    (word "write_failures", js_int 1); (word "achieved_write_rate_events_per_second", js_int 1);
    (word "event_id_hash_xor", js_int 7); (word "event_id_hash_sum", js_int 8)]))).
Proof. by vm_compute. Qed.
