(* ===== verification/ObuConcurrency.v ===== *)
(** * ObuConcurrency: the goroutines of the load generator (src/obu/main.go)

    [load_step] is the interleaving of the ticker loop of [runFixedRate], its
    [writer] goroutines, and the workers of [runMaximumThroughput], at the grain
    of the atomic operations on the shared counters: the compare-and-swap loop of
    [recordSuccess] is one step per load and per swap.  A connection is the list
    of events written on it; a write may fail at any time, the context may end at
    any time, and the ticker may fire or stop at any time. *)

From stdpp Require Import sorting.
From S2P Require Import Prelude Float64 GoLib Types Obu.

Local Open Scope Z_scope.

(** ** State *)

(** Where a sending goroutine is. *)
Inductive pc :=
| Ready                          (* at its select, or at the head of its loop *)
| Attempt (d : OBUData)          (* maximum mode: before attempted.Add *)
| Writing (d : OBUData)          (* in writeEvent *)
| AddWritten (d : OBUData)       (* recordSuccess: before written.Add *)
| AddSum (d : OBUData)           (* before hashSum.Add *)
| LoadXOR (d : OBUData)          (* before hashXOR.Load *)
| Cas (d : OBUData) (old : Z)    (* before hashXOR.CompareAndSwap *)
| Fail                           (* in recordFailure, then return *)
| Exit.

(** Where the loop of [runFixedRate] is. *)
Inductive gpc :=
| GTick | GAttempt (d : OBUData) | GEnqueue (d : OBUData) | GClosed.

Record Sys := mkSys {
  st : loadStats;
  wires : list (list OBUData);     (* what was written on each connection *)
  queues : list (list OBUData);    (* the jobs channels *)
  workers : list pc;
  indices : list nat;              (* obuIndex of each worker, maximum mode *)
  gen : gpc
}.

Definition queue_capacity : nat := 1024.

(** [(obuIndex + 1) % len(obuIDs)] *)
Definition next_index (k n : nat) : nat := ((k + 1) mod n)%nat.

(** [recordSuccess] and [recordFailure], one atomic operation at a time. *)
Definition record_next (s : loadStats) (c : pc) : option (loadStats * pc) :=
  match c with
  | AddWritten d => Some (add_written s, AddSum d)
  | AddSum d => Some (add_hashSum (EventIDFingerprint (od_EventID d)) s, LoadXOR d)
  | LoadXOR d => Some (s, Cas d (hashXOR s))
  | Cas d old =>
      if hashXOR s =? old
      then Some (set_hashXOR (Z.lxor old (EventIDFingerprint (od_EventID d))) s, Ready)
      else Some (s, LoadXOR d)
  | Fail => Some (recordFailure s, Exit)
  | _ => None
  end.

Section Steps.
Context (cfg : loadConfig) (payload : string).

Inductive load_step : Sys → Sys → Prop :=
(* both modes: writeEvent and what follows it *)
| write_ok i d w s ws qs ks ix g :
    ks !! i = Some (Writing d) → ws !! i = Some w →
    load_step (mkSys s ws qs ks ix g)
              (mkSys s (<[i := w ++ [d]]> ws) qs (<[i := AddWritten d]> ks) ix g)
| write_error i d s ws qs ks ix g :
    ks !! i = Some (Writing d) →
    load_step (mkSys s ws qs ks ix g) (mkSys s ws qs (<[i := Fail]> ks) ix g)
| record i c s s' c' ws qs ks ix g :
    ks !! i = Some c → record_next s c = Some (s', c') →
    load_step (mkSys s ws qs ks ix g) (mkSys s' ws qs (<[i := c']> ks) ix g)
| context_done i s ws qs ks ix g :
    ks !! i = Some Ready →
    load_step (mkSys s ws qs ks ix g) (mkSys s ws qs (<[i := Exit]> ks) ix g)
(* fixed mode: the writers *)
| receive i d q s ws qs ks ix g :
    Mode cfg = "fixed" → ks !! i = Some Ready → qs !! i = Some (d :: q) →
    load_step (mkSys s ws qs ks ix g) (mkSys s ws (<[i := q]> qs) (<[i := Writing d]> ks) ix g)
| drained i s ws qs ks ix :
    Mode cfg = "fixed" → ks !! i = Some Ready → qs !! i = Some [] →
    load_step (mkSys s ws qs ks ix GClosed) (mkSys s ws qs (<[i := Exit]> ks) ix GClosed)
(* fixed mode: the ticker loop; only it touches the sequence number *)
| tick now r1 r2 d s' s ws qs ks ix :
    Mode cfg = "fixed" → nextEvent cfg payload now r1 r2 s = (d, s') →
    load_step (mkSys s ws qs ks ix GTick) (mkSys s' ws qs ks ix (GAttempt d))
| attempt d s ws qs ks ix :
    load_step (mkSys s ws qs ks ix (GAttempt d)) (mkSys (add_attempted s) ws qs ks ix (GEnqueue d))
| enqueue d i q s ws qs ks ix :
    i = connectionIndex d (length qs) → qs !! i = Some q → (length q < queue_capacity)%nat →
    load_step (mkSys s ws qs ks ix (GEnqueue d)) (mkSys s ws (<[i := q ++ [d]]> qs) ks ix GTick)
| queue_full d i q s ws qs ks ix :
    i = connectionIndex d (length qs) → qs !! i = Some q → (queue_capacity ≤ length q)%nat →
    load_step (mkSys s ws qs ks ix (GEnqueue d)) (mkSys (recordFailure s) ws qs ks ix GTick)
| close_jobs s ws qs ks ix :
    load_step (mkSys s ws qs ks ix GTick) (mkSys s ws qs ks ix GClosed)
(* maximum mode *)
| produce i k obuID now r1 r2 d s' s ws qs ks ix g :
    Mode cfg = "max" → ks !! i = Some Ready → ix !! i = Some k →
    assignedOBUs i (length ks) (OBUs cfg) !! k = Some obuID →
    eventForOBU cfg payload now r1 r2 obuID s = (d, s') →
    load_step (mkSys s ws qs ks ix g)
      (mkSys s' ws qs (<[i := Attempt d]> ks)
         (<[i := next_index k (length (assignedOBUs i (length ks) (OBUs cfg)))]> ix) g)
| attempt_max i d s ws qs ks ix g :
    ks !! i = Some (Attempt d) →
    load_step (mkSys s ws qs ks ix g)
      (mkSys (add_attempted s) ws qs (<[i := Writing d]> ks) ix g).

(** [n] connections, dialled; a worker of maximum mode without vehicles is not started. *)
Definition initial (n : nat) (run : Z) : Sys :=
  mkSys (new_stats run) (replicate n []) (replicate n [])
    (imap (λ i _, if bool_decide (Mode cfg = "max" ∧ assignedOBUs i n (OBUs cfg) = [])
                  then Exit else Ready) (replicate n ()))
    (replicate n 0%nat)
    (if bool_decide (Mode cfg = "fixed") then GTick else GClosed).

End Steps.

(** ** What is under way *)

Definition fp (d : OBUData) : Z := EventIDFingerprint (od_EventID d).

(** Updates that a goroutine still has to make for an event it has written. *)
Definition due_written (c : pc) : Z := match c with AddWritten _ => 1 | _ => 0 end.
Definition due_sum (c : pc) : Z := match c with AddWritten d | AddSum d => fp d | _ => 0 end.
Definition due_xor (c : pc) : Z :=
  match c with AddWritten d | AddSum d | LoadXOR d | Cas d _ => fp d | _ => 0 end.

(** Attempted events that are counted neither as written nor as failed yet. *)
Definition held (c : pc) : Z := match c with Writing _ | AddWritten _ | Fail => 1 | _ => 0 end.
Definition gen_held (g : gpc) : Z := match g with GEnqueue _ => 1 | _ => 0 end.

Definition sent (s : Sys) : list OBUData := concat (wires s).
Definition queued (s : Sys) : Z := total (λ q, Z.of_nat (length q)) (queues s).

Record Digest (s : Sys) : Prop := {
  D_written : wrapU 64 (written (st s) + total due_written (workers s))
                = wrapU 64 (total (λ _, 1) (sent s));
  D_xor : Z.lxor (hashXOR (st s)) (total_xor due_xor (workers s)) = total_xor fp (sent s);
  D_sum : wrapU 64 (hashSum (st s) + total due_sum (workers s)) = wrapU 64 (total fp (sent s));
  D_range : in_u64 (written (st s)) ∧ in_u64 (hashSum (st s))
}.

(** Every attempted event is in exactly one place. *)
Record Accounted (s : Sys) : Prop := {
  A_attempted : wrapU 64 (attempted (st s)) =
    wrapU 64 (written (st s) + failed (st s) + queued s + total held (workers s) + gen_held (gen s));
  A_range : in_u64 (attempted (st s))
}.

(** ** Lemmas *)

Lemma total_concat {A} (f : A → Z) ll : total f (concat ll) = total (total f) ll.
Proof. induction ll as [|l ll IH]; simpl; [done|]. by rewrite total_app, IH. Qed.

Lemma total_xor_concat {A} (f : A → Z) ll : total_xor f (concat ll) = total_xor (total_xor f) ll.
Proof. induction ll as [|l ll IH]; simpl; [done|]. by rewrite total_xor_app, IH. Qed.

Lemma total_snoc_at {A} (f : A → Z) ll i l x :
  ll !! i = Some l → total f (concat (<[i := l ++ [x]]> ll)) = total f (concat ll) + f x.
Proof.
  intros Hi. rewrite !total_concat, (total_insert _ _ _ _ _ Hi), total_app. simpl. lia.
Qed.

Lemma total_xor_snoc_at {A} (f : A → Z) ll i l x :
  ll !! i = Some l → total_xor f (concat (<[i := l ++ [x]]> ll)) = Z.lxor (total_xor f (concat ll)) (f x).
Proof.
  intros Hi. rewrite !total_xor_concat, (total_xor_insert _ _ _ _ _ Hi), total_xor_app. simpl.
  by rewrite Z.lxor_0_r, <- (Z.lxor_assoc (total_xor f l)), Z.lxor_nilpotent, Z.lxor_0_l.
Qed.

Lemma total_concat_insert {A} (f : A → Z) ll i l l' :
  ll !! i = Some l → total f (concat (<[i := l']> ll)) = total f (concat ll) - total f l + total f l'.
Proof. intros Hi. by rewrite !total_concat, (total_insert _ _ _ _ _ Hi). Qed.

(** Rewrites the totals of an updated list. *)
Ltac totals :=
  repeat match goal with
  | H : ?ks !! ?i = Some ?c |- context [total ?f (<[?i := ?c']> ?ks)] =>
      rewrite (total_insert f ks i c c' H)
  | H : ?ks !! ?i = Some ?c |- context [total_xor ?f (<[?i := ?c']> ?ks)] =>
      rewrite (total_xor_insert f ks i c c' H)
  | H : ?ws !! ?i = Some ?w |- context [total ?f (concat (<[?i := ?w ++ [?d]]> ?ws))] =>
      rewrite (total_snoc_at f ws i w d H)
  | H : ?ws !! ?i = Some ?w |- context [total_xor ?f (concat (<[?i := ?w ++ [?d]]> ?ws))] =>
      rewrite (total_xor_snoc_at f ws i w d H)
  | H : ?ws !! ?i = Some ?w |- context [total ?f (concat (<[?i := ?w']> ?ws))] =>
      rewrite (total_concat_insert f ws i w w' H)
  end.


Lemma wrapU_eq_shift a b c : wrapU 64 a = wrapU 64 b → wrapU 64 (a + c) = wrapU 64 (b + c).
Proof. intros H. by rewrite <- (wrapU_add_l 64 a), H, wrapU_add_l. Qed.

Lemma wrapU_u64 z : in_u64 (wrapU 64 z).
Proof. by apply wrapU_range. Qed.

#[export] Hint Resolve wrapU_u64 : toll.

Lemma wrapU_wrapU z : wrapU 64 (wrapU 64 z) = wrapU 64 z.
Proof. apply wrapU_id, wrapU_range. lia. Qed.

(** A wrapped counter inside the sum of [Accounted]. *)
Lemma wrapU_sum_1 a b c d e : wrapU 64 (wrapU 64 a + b + c + d + e) = wrapU 64 (a + b + c + d + e).
Proof. by rewrite <- !(Z.add_assoc _ _ e), <- !(Z.add_assoc _ _ (d + e)), <- !(Z.add_assoc (wrapU 64 a)), <- (Z.add_assoc a), wrapU_add_l. Qed.

Lemma wrapU_sum_2 a b c d e : wrapU 64 (a + wrapU 64 b + c + d + e) = wrapU 64 (a + b + c + d + e).
Proof. rewrite (Z.add_comm a (wrapU 64 b)), wrapU_sum_1. f_equal. lia. Qed.

(** The digest of a list of ids, as three totals. *)
Lemma recon_of_totals (l : list OBUData) :
  recon_of (od_EventID <$> l) =
    mkRecon (wrapU 64 (total (λ _, 1) l)) (total_xor fp l) (wrapU 64 (total fp l)).
Proof.
  induction l as [|d l IH]; [done|]. rewrite fmap_cons, recon_of_cons, IH.
  unfold recon_add. cbn [Count XOR Sum]. rewrite !wrapU_add_l.
  change (EventIDFingerprint (od_EventID d)) with (fp d).
  change (total (λ _, 1) (d :: l)) with (1 + total (λ _, 1) l).
  change (total fp (d :: l)) with (fp d + total fp l).
  change (total_xor fp (d :: l)) with (Z.lxor (fp d) (total_xor fp l)).
  f_equal; [f_equal; lia|apply Z.lxor_comm|f_equal; lia].
Qed.

(** ** The invariants *)

Section Invariants.
Context (cfg : loadConfig) (payload : string).

(** Pulls a wrapped counter out of a sum. *)
Ltac wrap_eq H :=
  rewrite ?wrapU_add_l;
  match type of H with
  | wrapU 64 ?a = wrapU 64 ?b =>
      match goal with |- wrapU 64 ?c = wrapU 64 ?d =>
        replace c with (a + (c - a)) by lia; replace d with (b + (c - a)) by lia;
        by apply wrapU_eq_shift end
  end.

Lemma event_stats now r1 r2 obu s d s' :
  eventForOBU cfg payload now r1 r2 obu s = (d, s') → s' = add_sequence s.
Proof. by intros [= _ <-]. Qed.

Ltac fold_fp :=
  repeat match goal with |- context [EventIDFingerprint (od_EventID ?d)] =>
    change (EventIDFingerprint (od_EventID d)) with (fp d) end.

(** Closes the cases in which every written event stays accounted for. *)
Ltac digest_same Hw Hx Hsum :=
  constructor; unfold sent in *; simpl in *; totals; simpl; fold_fp;
  [wrap_eq Hw|rewrite ?Z.lxor_nilpotent, ?Z.lxor_0_r; exact Hx|wrap_eq Hsum|by auto with toll].

Lemma record_digest i c s s' c' ws qs ks ix g :
  ks !! i = Some c → record_next s c = Some (s', c') →
  Digest (mkSys s ws qs ks ix g) → Digest (mkSys s' ws qs (<[i := c']> ks) ix g).
Proof.
  intros Hi Hn [Hw Hx Hsum [Hr1 Hr2]].
  destruct c as [|d|d|d|d|d|d old| |]; simpl in Hn; simplify_eq/=.
  - digest_same Hw Hx Hsum.
  - digest_same Hw Hx Hsum.
  - digest_same Hw Hx Hsum.
  - destruct (Z.eqb_spec (hashXOR s) old) as [<-|]; simplify_eq/=; [|digest_same Hw Hx Hsum].
    constructor; unfold sent in *; simpl in *; totals; simpl; fold_fp; [wrap_eq Hw| |wrap_eq Hsum|done].
    rewrite <- Hx. rewrite Z.lxor_0_r, (Z.lxor_comm (total_xor due_xor ks)).
    by rewrite Z.lxor_assoc, <- (Z.lxor_assoc (fp d)), Z.lxor_nilpotent, Z.lxor_0_l.
  - digest_same Hw Hx Hsum.
Qed.

Lemma Digest_step s s' : load_step cfg payload s s' → Digest s → Digest s'.
Proof.
  intros Hs HD. destruct Hs; try (by eapply record_digest);
    destruct HD as [Hw Hx Hsum [Hr1 Hr2]].
  1:{ constructor; unfold sent in *; simpl in *; totals; simpl; [wrap_eq Hw| |wrap_eq Hsum|done].
      rewrite Z.lxor_0_l, <- Z.lxor_assoc. by rewrite Hx. }
  all: try match goal with
    | H : nextEvent _ _ _ _ _ _ = _ |- _ => apply event_stats in H as ->
    | H : eventForOBU _ _ _ _ _ _ _ = _ |- _ => apply event_stats in H as ->
    end.
  all: digest_same Hw Hx Hsum.
Qed.

(** Every element is made of zeros. *)
Lemma Digest_initial n run : Digest (initial cfg n run).
Proof.
  assert (∀ f : pc → Z, f Ready = 0 → f Exit = 0 → ∀ ks : list pc,
    Forall (λ c, c = Ready ∨ c = Exit) ks → Forall (λ c, f c = 0) ks) as Hz.
  { intros f ? ? ks Hk. eapply Forall_impl; [exact Hk|]. by intros c [-> | ->]. }
  assert (Forall (λ c, c = Ready ∨ c = Exit) (workers (initial cfg n run))) as Hk.
  { apply Forall_lookup. intros i c. simpl. rewrite list_lookup_imap.
    intros (u & _ & ->)%fmap_Some. case_bool_decide; auto. }
  assert (concat (replicate n ([] : list OBUData)) = []) as Hc by (clear; by induction n).
  constructor; unfold sent; simpl in *.
  - rewrite Hc, total_zero; [done|]. by apply Hz.
  - rewrite Hc, total_xor_zero; [done|]. by apply Hz.
  - rewrite Hc, total_zero; [done|]. by apply Hz.
  - done.
Qed.

Lemma Digest_reachable n run s :
  rtc (load_step cfg payload) (initial cfg n run) s → Digest s.
Proof.
  intros Hs. assert (∀ x y, rtc (load_step cfg payload) x y → Digest x → Digest y) as H
    by (induction 1; eauto using Digest_step).
  eauto using Digest_initial.
Qed.
(** ** Where the attempted events are *)

Ltac accounted Ha :=
  constructor; unfold queued in *; simpl in *; totals; simpl; rewrite ?length_app; simpl;
  [|by auto with toll];
  rewrite ?wrapU_wrapU, ?wrapU_sum_1, ?wrapU_sum_2;
  match type of Ha with
  | wrapU 64 ?a = wrapU 64 ?b =>
      match goal with |- wrapU 64 ?c = wrapU 64 ?d =>
        replace c with (a + (c - a)) by lia; replace d with (b + (c - a)) by lia;
        by apply wrapU_eq_shift end
  end.

Lemma Accounted_step s s' : load_step cfg payload s s' → Accounted s → Accounted s'.
Proof.
  intros Hs [Ha Hr]. destruct Hs.
  all: try match goal with
    | H : nextEvent _ _ _ _ _ _ = _ |- _ => apply event_stats in H as ->
    | H : eventForOBU _ _ _ _ _ _ _ = _ |- _ => apply event_stats in H as ->
    end.
  all: try by accounted Ha.
  destruct c as [|d|d|d|d|d|d old| |]; simplify_eq/=; [by accounted Ha..| |by accounted Ha].
  destruct (Z.eqb_spec (hashXOR s) old); simplify_eq/=; by accounted Ha.
Qed.

Lemma Accounted_initial n run : Accounted (initial cfg n run).
Proof.
  constructor; [|done]. unfold queued, initial. simpl.
  rewrite !total_zero; [by case_bool_decide| |].
  - apply Forall_lookup. intros i c. rewrite list_lookup_imap.
    intros (u & _ & ->)%fmap_Some. by case_bool_decide.
  - apply Forall_replicate. done.
Qed.

Lemma Accounted_reachable n run s :
  rtc (load_step cfg payload) (initial cfg n run) s → Accounted s.
Proof.
  intros Hs. assert (∀ x y, rtc (load_step cfg payload) x y → Accounted x → Accounted y) as H
    by (induction 1; eauto using Accounted_step).
  eauto using Accounted_initial.
Qed.
End Invariants.

(** ** Every event id is used once *)

Section Unique.
Context (cfg : loadConfig) (payload : string) (run : Z).

Definition has_id (x : string) (d : OBUData) : Z := if bool_decide (od_EventID d = x) then 1 else 0.
Definition pc_id (x : string) (c : pc) : Z :=
  match c with Attempt d | Writing d => has_id x d | _ => 0 end.
Definition gen_id (x : string) (g : gpc) : Z :=
  match g with GAttempt d | GEnqueue d => has_id x d | _ => 0 end.

(** How many events with the id [x] are anywhere. *)
Definition uses (x : string) (s : Sys) : Z :=
  total (has_id x) (sent s) + total (has_id x) (concat (queues s)) +
  total (pc_id x) (workers s) + gen_id x (gen s).

Record Unique (s : Sys) : Prop := {
  U_run : runID (st s) = run;
  U_seq : 0 ≤ sequence (st s) < 2 ^ 64;
  U_uses x : uses x s ≤ 1;
  U_known x : 0 < uses x s → ∃ k, 1 ≤ k ≤ sequence (st s) ∧ x = event_id (Seed cfg) run k
}.

Lemma total_nonneg {A} (f : A → Z) l : (∀ x, 0 ≤ f x) → 0 ≤ total f l.
Proof. intros Hf. induction l as [|x l IH]; simpl; [lia|]. specialize (Hf x). lia. Qed.

Lemma has_id_nonneg x d : 0 ≤ has_id x d.
Proof. unfold has_id. by case_bool_decide. Qed.

(** The new event's id was not used before. *)
Lemma fresh_id now r1 r2 obu s d s' u (v : string → Z) :
  Unique u → st u = s → sequence s + 1 < 2 ^ 64 →
  eventForOBU cfg payload now r1 r2 obu s = (d, s') →
  (∀ x, v x = uses x u + has_id x d) →
  runID s' = run ∧ 0 ≤ sequence s' < 2 ^ 64 ∧ (∀ x, v x ≤ 1) ∧
  (∀ x, 0 < v x → ∃ k, 1 ≤ k ≤ sequence s' ∧ x = event_id (Seed cfg) run k).
Proof.
  intros [Hr Hs Hu Hk] Est Hlt [= Ed <-] Hv. subst s. simpl in *.
  rewrite (wrapU_id 64 (sequence (st u) + 1)) in * by lia.
  assert (od_EventID d = event_id (Seed cfg) run (sequence (st u) + 1)) as Hid
    by (rewrite <- Ed; simpl; by rewrite Hr).
  split_and!; [done|lia|lia|..]; intros x; rewrite Hv; unfold has_id; case_bool_decide as Hx.
  - destruct (Z.lt_ge_cases 0 (uses x u)) as [Hpos|]; [|lia].
    destruct (Hk x Hpos) as (k & Hb & E). rewrite <- Hx, Hid in E.
    apply event_id_inj in E; unfold in_u64; lia.
  - specialize (Hu x). lia.
  - intros _. exists (sequence (st u) + 1). split; [lia|]. by rewrite <- Hx, Hid.
  - rewrite Z.add_0_r. intros Hpos. destruct (Hk x Hpos) as (k & ? & ?).
    exists k. split; [lia|done].
Qed.

Lemma Unique_le s s' :
  runID (st s') = runID (st s) → sequence (st s') = sequence (st s) →
  (∀ x, uses x s' ≤ uses x s) → Unique s → Unique s'.
Proof.
  intros Hr Hs Hle [? ? Hu Hk]. constructor; rewrite ?Hr, ?Hs; try done.
  - intros x. specialize (Hle x). specialize (Hu x). lia.
  - intros x Hx. apply Hk. specialize (Hle x). lia.
Qed.

Lemma record_next_seq s c s' c' :
  record_next s c = Some (s', c') →
  runID s' = runID s ∧ sequence s' = sequence s ∧ ∀ x, pc_id x c' = 0 ∧ pc_id x c = 0.
Proof.
  destruct c; simpl; intros ?; simplify_eq/=; try done.
  by destruct (hashXOR s =? old); simplify_eq/=.
Qed.

Lemma Unique_step s s' :
  load_step cfg payload s s' → sequence (st s) + 1 < 2 ^ 64 → Unique s → Unique s'.
Proof.
  intros Hs Hlt HU. destruct Hs.
  all: try match goal with
    | H : record_next _ _ = _ |- _ => apply record_next_seq in H as (Hr1 & Hr2 & Hr3)
    end.
  all: try (apply (Unique_le _ _) with (4 := HU); simpl; [done|done|];
    intros x; unfold uses, sent; simpl; totals; simpl; rewrite ?total_app; simpl; lia).
  - apply (Unique_le _ _) with (4 := HU); [done|done|]. intros x. unfold uses, sent. simpl. totals.
    simpl. pose proof (has_id_nonneg x d). lia.
  - apply (Unique_le _ _) with (4 := HU); [done|done|]. intros x. unfold uses, sent. simpl. totals.
    destruct (Hr3 x) as [-> ->]. lia.
  - match goal with E : nextEvent _ _ _ _ _ _ = _ |- _ =>
      destruct (fresh_id _ _ _ _ _ _ _ _ (λ x, uses x (mkSys s' ws qs ks ix (GAttempt d))) HU
        eq_refl Hlt E) as (?&?&?&?) end; [|by constructor].
    intros x. unfold uses, sent. simpl. lia.
  - apply (Unique_le _ _) with (4 := HU); [done|done|]. intros x. unfold uses, sent. simpl.
    pose proof (has_id_nonneg x d). lia.
  - match goal with E : eventForOBU _ _ _ _ _ _ _ = _ |- Unique ?u =>
      destruct (fresh_id _ _ _ _ _ _ _ _ (λ x, uses x u) HU eq_refl Hlt E) as (?&?&?&?) end;
      [|by constructor].
    intros x. unfold uses, sent. simpl. totals. simpl. lia.
Qed.

Lemma Unique_initial n : Unique (initial cfg n run).
Proof.
  assert (∀ x, uses x (initial cfg n run) = 0) as H0.
  { intros x. unfold uses, sent, initial. simpl.
    assert (concat (replicate n ([] : list OBUData)) = []) as -> by (clear; by induction n).
    rewrite (total_zero (pc_id x)).
    { by destruct (bool_decide (Mode cfg = "fixed")). }
    apply Forall_lookup. intros i c. rewrite list_lookup_imap.
    intros (u & _ & ->)%fmap_Some. by case_bool_decide. }
  constructor; simpl; [done|lia|..]; intros x; rewrite H0; lia.
Qed.

(** A run in which the 64-bit sequence number does not wrap around. *)
Definition unwrapped_step (s s' : Sys) : Prop :=
  load_step cfg payload s s' ∧ sequence (st s) + 1 < 2 ^ 64.

Lemma Unique_reachable n s :
  rtc unwrapped_step (initial cfg n run) s → Unique s.
Proof.
  intros Hs. assert (∀ x y, rtc unwrapped_step x y → Unique x → Unique y) as H.
  { induction 1 as [|x y z [??] _ IH]; [done|]. intros. by apply IH, (Unique_step x). }
  eauto using Unique_initial.
Qed.

Lemma NoDup_uses l : (∀ x, total (has_id x) l ≤ 1) → NoDup (od_EventID <$> l).
Proof.
  induction l as [|d l IH]; intros Hl; [constructor|]. rewrite fmap_cons. constructor.
  - intros (d' & E & Hd')%list_elem_of_fmap. specialize (Hl (od_EventID d)). simpl in Hl.
    apply list_elem_of_split in Hd' as (l1 & l2 & ->).
    rewrite total_app in Hl. simpl in Hl.
    pose proof (total_nonneg _ l1 (has_id_nonneg (od_EventID d))).
    pose proof (total_nonneg _ l2 (has_id_nonneg (od_EventID d))).
    unfold has_id in Hl at 1 3. rewrite !bool_decide_eq_true_2 in Hl by done. lia.
  - apply IH. intros x. specialize (Hl x). simpl in Hl. pose proof (has_id_nonneg x d). lia.
Qed.

Lemma Unique_sent s : Unique s → NoDup (od_EventID <$> sent s).
Proof.
  intros [_ _ Hu _]. apply NoDup_uses. intros x. specialize (Hu x). unfold uses in Hu.
  pose proof (total_nonneg _ (concat (queues s)) (has_id_nonneg x)).
  assert (0 ≤ total (pc_id x) (workers s)).
  { apply total_nonneg. intros []; simpl; try lia; apply has_id_nonneg. }
  assert (0 ≤ gen_id x (gen s)).
  { destruct (gen s); simpl; try lia; apply has_id_nonneg. }
  lia.
Qed.
End Unique.

(** ** Order on each connection *)

Section Order.
Context (cfg : loadConfig) (payload : string) (run : Z) (n : nat).
Context (fixed : Mode cfg = "fixed").

Definition seq_of (d : OBUData) (k : Z) : Prop :=
  od_EventID d = event_id (Seed cfg) run k ∧ 1 ≤ k < 2 ^ 64.

(** [d] was generated before [d']. *)
Definition before (d d' : OBUData) : Prop := ∃ k k', seq_of d k ∧ seq_of d' k' ∧ k < k'.

Definition carried (c : pc) : list OBUData :=
  match c with Attempt d | Writing d => [d] | _ => [] end.

(** What went, goes and will go over connection [i]. *)
Record Line (limit : Z) (i : nat) (l : list OBUData) : Prop := {
  L_sorted : StronglySorted before l;
  L_own : Forall (λ d, connectionIndex d n = i ∧ ∃ k, seq_of d k ∧ k < limit) l
}.

Definition limit (s : Sys) : Z :=
  match gen s with GAttempt _ | GEnqueue _ => sequence (st s) | _ => sequence (st s) + 1 end.

Definition gen_carried (g : gpc) : option OBUData :=
  match g with GAttempt d | GEnqueue d => Some d | _ => None end.

Record Ordered (s : Sys) : Prop := {
  O_run : runID (st s) = run;
  O_seq : 0 ≤ sequence (st s) < 2 ^ 64;
  O_lengths : length (wires s) = n ∧ length (queues s) = n ∧ length (workers s) = n;
  O_gen d : gen_carried (gen s) = Some d → seq_of d (sequence (st s));
  O_line i w q c : wires s !! i = Some w → queues s !! i = Some q → workers s !! i = Some c →
    Line (limit s) i (w ++ carried c ++ q)
}.

Lemma Line_limit a b i l : a ≤ b → Line a i l → Line b i l.
Proof.
  intros Hab [Hs Ho]. constructor; [done|]. eapply Forall_impl; [exact Ho|].
  intros d (Hc & k & Hk & Hlt). split; [done|]. exists k. split; [done|lia].
Qed.

Lemma Line_drop a i l d l' : Line a i (l ++ d :: l') → Line a i (l ++ l').
Proof.
  intros [Hs Ho]. apply StronglySorted_app in Hs as (H1 & H2 & H3).
  apply StronglySorted_cons in H3 as [H3 H4]. rewrite Forall_app, Forall_cons in Ho.
  constructor; [|apply Forall_app; tauto]. apply StronglySorted_app.
  split_and!; [|done|done]. intros x y Hx Hy. apply H1; [done|by right].
Qed.

Lemma Line_snoc a i l d :
  connectionIndex d n = i → seq_of d a → Line a i l → Line (a + 1) i (l ++ [d]).
Proof.
  intros Hc Ha [Hs Ho]. pose proof (Line_limit a (a + 1) i l ltac:(lia) (Build_Line _ _ _ Hs Ho)) as [_ Ho'].
  constructor.
  - apply StronglySorted_app. split_and!; [|done|repeat constructor].
    intros x y Hx ->%list_elem_of_singleton. rewrite Forall_forall in Ho.
    destruct (Ho x Hx) as (_ & k & Hk & Hlt). by exists k, a.
  - apply Forall_app. split; [done|]. constructor; [|done]. split; [done|].
    exists a. split; [done|lia].
Qed.
Lemma record_next_carried s c s' c' :
  record_next s c = Some (s', c') →
  runID s' = runID s ∧ sequence s' = sequence s ∧ carried c = [] ∧ carried c' = [].
Proof.
  destruct c; simpl; intros ?; simplify_eq/=; try done.
  by destruct (hashXOR s =? old); simplify_eq/=.
Qed.

(** A step of one sender that only moves events along its own line. *)
Lemma Ordered_line i w q c w' q' c' s s' ws qs ks ix ix' g :
  Ordered (mkSys s ws qs ks ix g) →
  ws !! i = Some w → qs !! i = Some q → ks !! i = Some c →
  runID s' = runID s → sequence s' = sequence s →
  (∀ a, Line a i (w ++ carried c ++ q) → Line a i (w' ++ carried c' ++ q')) →
  Ordered (mkSys s' (<[i := w']> ws) (<[i := q']> qs) (<[i := c']> ks) ix' g).
Proof.
  intros [Hr Hs Hq Hg Hl] Hw Hqi Hc Er Es Hline. simpl in *.
  constructor; simpl; rewrite ?Er, ?Es, ?length_insert; try done.
  intros j w2 q2 c2. unfold limit in *. simpl in *. rewrite Es.
  destruct (decide (i = j)) as [<-|Hne].
  - rewrite !list_lookup_insert_eq by (by eapply lookup_lt_Some). intros ???; simplify_eq.
    apply Hline. by apply Hl.
  - rewrite !list_lookup_insert_ne by done. apply Hl.
Qed.

(** Worker [i], its connection and its queue. *)
Lemma Ordered_lookup i c s : Ordered s → workers s !! i = Some c →
  ∃ w q, wires s !! i = Some w ∧ queues s !! i = Some q.
Proof.
  intros HO Hc. destruct (O_lengths s HO) as (H1 & H2 & H3).
  apply lookup_lt_Some in Hc. rewrite H3 in Hc.
  destruct (lookup_lt_is_Some_2 (wires s) i) as [w ?]; [lia|].
  destruct (lookup_lt_is_Some_2 (queues s) i) as [q ?]; [lia|]. eauto.
Qed.

Lemma Ordered_worker i w q c c' s s' ws qs ks ix ix' g :
  Ordered (mkSys s ws qs ks ix g) →
  ws !! i = Some w → qs !! i = Some q → ks !! i = Some c →
  runID s' = runID s → sequence s' = sequence s →
  (∀ a, Line a i (w ++ carried c ++ q) → Line a i (w ++ carried c' ++ q)) →
  Ordered (mkSys s' ws qs (<[i := c']> ks) ix' g).
Proof.
  intros HO Hw Hq Hc Er Es Hl.
  pose proof (Ordered_line i w q c w q c' s s' ws qs ks ix ix' g HO Hw Hq Hc Er Es Hl) as H.
  by rewrite (list_insert_id ws), (list_insert_id qs) in H.
Qed.

Lemma Ordered_gen s s' ws qs ks ix g g' :
  Ordered (mkSys s ws qs ks ix g) →
  runID s' = run → 0 ≤ sequence s' < 2 ^ 64 →
  (∀ d, gen_carried g' = Some d → seq_of d (sequence s')) →
  limit (mkSys s ws qs ks ix g) ≤ limit (mkSys s' ws qs ks ix g') →
  Ordered (mkSys s' ws qs ks ix g').
Proof.
  intros [Hr Hs Hq Hg Hl] Er Es Hg' Hlim. constructor; simpl; try done.
  intros i w q c ???. eapply Line_limit; [exact Hlim|]. by apply Hl.
Qed.

Lemma Ordered_enqueue d q i s ws qs ks ix :
  i = connectionIndex d (length qs) → qs !! i = Some q →
  Ordered (mkSys s ws qs ks ix (GEnqueue d)) →
  Ordered (mkSys s ws (<[i := q ++ [d]]> qs) ks ix GTick).
Proof.
  intros Hi Hq HO. pose proof HO as [Hr Hs (Hl1 & Hl2 & Hl3) Hg Hl]. simpl in *.
  constructor; simpl; try done.
  { by rewrite length_insert. }
  intros j w q' c Hw Hq' Hc. unfold limit. simpl.
  destruct (decide (i = j)) as [<-|Hne].
  - rewrite list_lookup_insert_eq in Hq' by (by eapply lookup_lt_Some). injection Hq' as <-.
    rewrite !app_assoc. apply Line_snoc; [by rewrite Hl2 in Hi|by apply Hg|].
    rewrite <- app_assoc. by apply (Hl i w q c).
  - rewrite list_lookup_insert_ne in Hq' by done. eapply Line_limit; [|by apply (Hl j w q' c)].
    unfold limit. simpl. lia.
Qed.

Lemma Ordered_step s s' :
  load_step cfg payload s s' → sequence (st s) + 1 < 2 ^ 64 → Ordered s → Ordered s'.
Proof using fixed.
  intros Hs Hlt HO. pose proof HO as [Hr Hseq _ Hg _].
  destruct Hs; simpl in *; try (edestruct (Ordered_lookup i) as (w' & q' & ? & ?); [exact HO|eassumption|]);
    simpl in *; simplify_eq.
  - rewrite <- (list_insert_id qs i q') by done.
    eapply Ordered_line; [done..|]. intros a. simpl. by rewrite <- app_assoc.
  - eapply Ordered_worker; [done..|]. intros a. apply (Line_drop a).
  - match goal with E : record_next _ _ = _ |- _ =>
      apply record_next_carried in E as (? & ? & E1 & E2) end.
    eapply Ordered_worker; [done..|]. by rewrite E1, E2.
  - eapply Ordered_worker; [done..|]. intros a Ha. exact Ha.
  - rewrite <- (list_insert_id ws i w') by done.
    eapply Ordered_line; [done..|]. intros a Ha. exact Ha.
  - eapply Ordered_worker; [done..|]. intros a Ha. exact Ha.
  - match goal with E : nextEvent _ _ _ _ _ _ = _ |- _ => pose proof E as [= Ed Es]; subst s' end.
    eapply Ordered_gen; [exact HO|done|simpl; rewrite wrapU_id; lia| |].
    + intros d'. simpl. intros [= <-]. split; [rewrite <- Ed; simpl; by rewrite <- Hr|].
      simpl. rewrite wrapU_id; lia.
    + unfold limit. simpl. rewrite wrapU_id; lia.
  - eapply Ordered_gen; [exact HO|done..]. 
  - by eapply Ordered_enqueue.
  - eapply Ordered_gen; [exact HO|done|done|done|]. unfold limit. simpl. lia.
  - by eapply Ordered_gen.
  - congruence.
  - eapply Ordered_worker; [done..|]. done.
Qed.
Lemma Ordered_initial : Ordered (initial cfg n run).
Proof using fixed.
  unfold initial. rewrite fixed. constructor; simpl; try done; [split_and!|].
  - apply length_replicate.
  - apply length_replicate.
  - by rewrite length_imap, length_replicate.
  - intros i w q c [-> _]%lookup_replicate [-> _]%lookup_replicate.
    rewrite list_lookup_imap. intros (u & _ & ->)%fmap_Some.
    repeat case_match; constructor; constructor.
Qed.

Lemma Ordered_reachable s :
  rtc (unwrapped_step cfg payload) (initial cfg n run) s → Ordered s.
Proof using fixed.
  intros Hs.
  assert (∀ x y, rtc (unwrapped_step cfg payload) x y → Ordered x → Ordered y) as H.
  { induction 1 as [|x y z [??] _ IH]; [done|]. intros. by apply IH, (Ordered_step x). }
  eauto using Ordered_initial.
Qed.
(** What went over one connection. *)
Lemma Ordered_wire s i w :
  rtc (unwrapped_step cfg payload) (initial cfg n run) s → wires s !! i = Some w →
  StronglySorted before w ∧ Forall (λ d, connectionIndex d n = i) w.
Proof using fixed.
  intros Hs Hw. pose proof (Ordered_reachable s Hs) as HO.
  destruct (O_lengths _ HO) as (H1 & H2 & H3). apply lookup_lt_Some in Hw as Hi.
  destruct (lookup_lt_is_Some_2 (queues s) i) as [q Hq]; [lia|].
  destruct (lookup_lt_is_Some_2 (workers s) i) as [c Hc]; [lia|].
  destruct (O_line _ HO i w q c Hw Hq Hc) as [Hso Ho].
  apply StronglySorted_app in Hso as (_ & ? & _). apply Forall_app in Ho as [Ho _].
  split; [done|]. eapply Forall_impl; [exact Ho|]. by intros d [? _].
Qed.
End Order.

(** ** Properties *)

(** Nothing of [recordSuccess] or [recordFailure] is under way. *)
Definition quiet (c : pc) : bool :=
  match c with Ready | Attempt _ | Writing _ | Exit => true | _ => false end.

(** The counters of a generator that is not recording. *)
Lemma load_digest (cfg : loadConfig) (payload : string) (n : nat) (run : Z) (s : Sys) :
  rtc (load_step cfg payload) (initial cfg n run) s →
  forallb quiet (workers s) = true →
  mkRecon (written (st s)) (hashXOR (st s)) (hashSum (st s)) =
    recon_of (od_EventID <$> concat (wires s)).
Proof.
  intros Hs Hq. destruct (Digest_reachable cfg payload n run s Hs) as [Hw Hx Hsum [Hr1 Hr2]].
  assert (∀ f : pc → Z, (∀ c, quiet c = true → f c = 0) → Forall (λ c, f c = 0) (workers s)) as Hz.
  { intros f Hf. apply Forall_forall. intros c Hc. apply Hf.
    rewrite forallb_forall in Hq. by apply Hq, list_elem_of_In. }
  rewrite recon_of_totals. unfold sent in *.
  rewrite (total_zero due_written), Z.add_0_r, wrapU_id in Hw by (done || (apply Hz; by intros [])).
  rewrite (total_xor_zero due_xor), Z.lxor_0_r in Hx by (apply Hz; by intros []).
  rewrite (total_zero due_sum), Z.add_0_r, wrapU_id in Hsum by (done || (apply Hz; by intros [])).
  by rewrite Hw, Hx, Hsum.
Qed.

(** ... that has stopped. *)
Lemma load_stopped (cfg : loadConfig) (payload : string) (n : nat) (run : Z) (s : Sys) :
  rtc (load_step cfg payload) (initial cfg n run) s →
  Forall (λ c, c = Exit) (workers s) → gen s = GClosed →
  forallb quiet (workers s) = true ∧
  attempted (st s) = wrapU 64 (written (st s) + failed (st s) + queued s).
Proof.
  intros Hs Hk Hg. destruct (Accounted_reachable cfg payload n run s Hs) as [Ha Hr].
  rewrite wrapU_id in Ha by done. split.
  - apply forallb_forall. intros c Hc%list_elem_of_In. rewrite Forall_forall in Hk. by rewrite (Hk c Hc).
  - rewrite Ha, Hg, total_zero; [f_equal; simpl; lia|].
    eapply Forall_impl; [exact Hk|]. by intros c ->.
Qed.

(** C32. The reconciliation digest of the load generator is exact in both modes:
    whatever the interleaving of the goroutines - including lost compare-and-swap
    races on the xor - whenever no [recordSuccess] is half done, the three
    counters are the count, xor and sum of the ids that went over the wires. *)
Theorem load_digest_exact (cfg : loadConfig) (payload : string) (n : nat) (run : Z) (s : Sys) :
  rtc (load_step cfg payload) (initial cfg n run) s →
  forallb quiet (workers s) = true →
  mkRecon (written (st s)) (hashXOR (st s)) (hashSum (st s)) =
    recon_of (od_EventID <$> concat (wires s)).
Proof. apply load_digest. Qed.

(** C34. No attempted event disappears from the books while the generator runs, in
    either mode; and when every goroutine has returned, the attempted events are
    the written ones, the failed ones and those stranded in the queues. *)
Theorem load_accounting (cfg : loadConfig) (payload : string) (n : nat) (run : Z) (s : Sys) :
  rtc (load_step cfg payload) (initial cfg n run) s →
  attempted (st s) = wrapU 64 (written (st s) + failed (st s) + queued s +
                               total held (workers s) + gen_held (gen s)) ∧
  (Forall (λ c, c = Exit) (workers s) → gen s = GClosed →
   attempted (st s) = wrapU 64 (written (st s) + failed (st s) + queued s)).
Proof.
  intros Hs. destruct (Accounted_reachable cfg payload n run s Hs) as [Ha Hr].
  rewrite wrapU_id in Ha by done. split; [done|]. intros Hk Hg.
  by apply (load_stopped cfg payload n run s Hs).
Qed.

(** C36. Event ids are unique: in both modes, until the 64-bit sequence number
    wraps, no two events that went over the wires have the same id, however the
    goroutines interleave. *)
Theorem load_ids_unique (cfg : loadConfig) (payload : string) (n : nat) (run : Z) (s : Sys) :
  rtc (unwrapped_step cfg payload) (initial cfg n run) s →
  NoDup (od_EventID <$> concat (wires s)).
Proof. intros Hs. apply (Unique_sent cfg run), (Unique_reachable cfg payload run n s Hs). Qed.

(** C37. A vehicle's points stay in order: in fixed mode all events of one vehicle
    go over one connection, the one of its number, and each connection carries its
    events in the order they were generated, whatever fails and however the
    writers interleave. *)
Theorem load_order_per_vehicle (cfg : loadConfig) (payload : string) (n : nat) (run : Z)
    (s : Sys) (i : nat) (w : list OBUData) :
  Mode cfg = "fixed" →
  rtc (unwrapped_step cfg payload) (initial cfg n run) s →
  wires s !! i = Some w →
  StronglySorted (before cfg run) w ∧ Forall (λ d, connectionIndex d n = i) w.
Proof. intros Hm. by apply Ordered_wire. Qed.

(** ** A concrete run *)

Definition test_config : loadConfig :=
  mkLoadConfig "ws://127.0.0.1:30000/ws" 3 (f_of_Z 4) 1 0 0 "fixed" 1 "" "".

Ltac next := eapply rtc_l; [split; [|by vm_compute]|].

Definition test_event : OBUData := mkOBUData "1-99-1" 7 1 fzero fzero "".

(** One event is generated, queued, taken by the writer, written and recorded,
    while a second one waits in the queue. *)
Lemma test_execution :
  ∃ s, rtc (unwrapped_step test_config "") (initial test_config 1 99) s ∧
       forallb quiet (workers s) = true ∧
       (od_EventID <$> concat (wires s)) = ["1-99-1"] ∧ attempted (st s) = 2 ∧ queued s = 1 ∧
       wires s = [[test_event]].
Proof.
  assert (initial test_config 1 99 = mkSys (new_stats 99) [[]] [[]] [Ready] [0%nat] GTick) as ->
    by by vm_compute.
  eexists. split.
  { next. { eapply (tick _ _ 7 fzero fzero); [done|reflexivity]. }
    next. { eapply attempt. }
    next. { eapply (enqueue _ _ _ 0 []); [by vm_compute|done|simpl; unfold queue_capacity; lia]. }
    next. { eapply (receive _ _ 0); [done..]. }
    next. { eapply (tick _ _ 8 fzero fzero); [done|reflexivity]. }
    next. { eapply (write_ok _ _ 0 _ []); done. }
    next. { eapply (record _ _ 0); [done|reflexivity]. }
    next. { eapply attempt. }
    next. { eapply (record _ _ 0); [done|reflexivity]. }
    next. { eapply (record _ _ 0); [done|reflexivity]. }
    next. { eapply (enqueue _ _ _ 0 []); [by vm_compute|done|simpl; unfold queue_capacity; lia]. }
    next. { eapply (record _ _ 0); [done|]. by vm_compute. }
    apply rtc_refl. }
  by vm_compute.
Qed.

Lemma unwrapped_run cfg payload s s' :
  rtc (unwrapped_step cfg payload) s s' → rtc (load_step cfg payload) s s'.
Proof. apply rtc_subrel. by intros x y [? _]. Qed.

Lemma load_digest_exact_witness :
  ∃ s, rtc (load_step test_config "") (initial test_config 1 99) s ∧
       forallb quiet (workers s) = true ∧
       mkRecon (written (st s)) (hashXOR (st s)) (hashSum (st s)) = recon_of ["1-99-1"].
Proof.
  destruct test_execution as (s & Hs%unwrapped_run & Hq & Hw & _).
  exists s. split_and!; [done|done|]. rewrite <- Hw. by apply (load_digest_exact test_config "" 1 99).
Defined.

Lemma load_accounting_witness :
  ∃ s, rtc (load_step test_config "") (initial test_config 1 99) s ∧ attempted (st s) = 2 ∧
       2 = wrapU 64 (written (st s) + failed (st s) + queued s +
                     total held (workers s) + gen_held (gen s)).
Proof.
  destruct test_execution as (s & Hs%unwrapped_run & _ & _ & Ha & _).
  exists s. split_and!; [done|done|]. rewrite <- Ha.
  apply (load_accounting test_config "" 1 99 s Hs).
Defined.

Lemma load_ids_unique_witness :
  ∃ s, rtc (unwrapped_step test_config "") (initial test_config 1 99) s ∧
       NoDup (od_EventID <$> concat (wires s)).
Proof.
  destruct test_execution as (s & Hs & _).
  exists s. split; [done|]. by apply (load_ids_unique test_config "" 1 99).
Defined.

Lemma load_order_per_vehicle_witness :
  ∃ s, Mode test_config = "fixed" ∧
       rtc (unwrapped_step test_config "") (initial test_config 1 99) s ∧
       ∀ w, wires s !! 0%nat = Some w → StronglySorted (before test_config 99) w.
Proof.
  destruct test_execution as (s & Hs & _).
  exists s. split_and!; [done|done|]. intros w Hw.
  apply (load_order_per_vehicle test_config "" 1 99 s 0 w eq_refl Hs Hw).
Defined.
