(* ===== verification/ObuStop.v ===== *)
(** * ObuStop: the load generator stops (src/obu/main.go)

    When the context is done (the duration has passed, or a signal came), the
    loops of [runFixedRate] and [runMaximumThroughput] produce no more events.
    From then on every schedule of the goroutines is finite, whatever the network
    does and however the compare-and-swap loops of [recordSuccess] collide, nothing
    is ever blocked, and in the end every goroutine has returned: [workers.Wait]
    returns, and the counters that [main] then prints are complete. *)

From S2P Require Import Prelude Float64 GoLib Types Obu ObuConcurrency.

Local Open Scope Z_scope.

#[export] Instance exit_dec (c : pc) : Decision (c = Exit).
Proof. destruct c; (by left) || (by right). Defined.

Section Stop.
Context (cfg : loadConfig) (payload : string).

(** A step that produces no event. *)
Definition ending_step (s s' : Sys) : Prop :=
  load_step cfg payload s s' ∧ sequence (st s') = sequence (st s).

(** Every goroutine has returned; [runFixedRate] has closed its channels. *)
Definition stopped (s : Sys) : Prop :=
  Forall (λ c, c = Exit) (workers s) ∧ gen s = GClosed.

(** ** Steps left *)

(** The steps left to a sending goroutine, when [hashXOR] is [x] and [m] bounds
    twice the number of goroutines: a compare-and-swap that is going to fail costs
    two steps more than one that is not, and an event that is swapped in may make
    all the others fail. *)
Definition steps_left (m x : Z) (c : pc) : Z :=
  match c with
  | Ready => 1
  | Attempt _ => m + 7
  | Writing _ => m + 6
  | AddWritten _ => m + 5
  | AddSum _ => m + 4
  | LoadXOR _ => m + 2
  | Cas _ old => if x =? old then m + 1 else m + 3
  | Fail => 1
  | Exit => 0
  end.

Definition gen_steps_left (m : Z) (g : gpc) : Z :=
  match g with GAttempt _ => m + 9 | GEnqueue _ => m + 8 | GTick => 1 | GClosed => 0 end.

Definition potential (s : Sys) : Z :=
  let m := 2 * Z.of_nat (length (workers s)) + 1 in
  total (steps_left m (hashXOR (st s))) (workers s) + (m + 6) * queued s + gen_steps_left m (gen s).

Lemma steps_left_swap m x y ks :
  total (steps_left m y) ks ≤ total (steps_left m x) ks + 2 * Z.of_nat (length ks).
Proof.
  induction ks as [|c ks IH]; [simpl; lia|]. cbn [length total foldr]. fold (total (steps_left m y) ks).
  fold (total (steps_left m x) ks). assert (steps_left m y c ≤ steps_left m x c + 2); [|lia].
  destruct c as [|d|d|d|d|d|d old| |]; simpl; try lia. destruct (y =? old), (x =? old); lia.
Qed.

Lemma steps_left_nonneg m x ks : 0 ≤ m → 0 ≤ total (steps_left m x) ks.
Proof.
  intros Hm. apply total_nonneg. intros c. destruct c as [|d|d|d|d|d|d old| |]; simpl; try lia.
  destruct (x =? old); lia.
Qed.

Lemma potential_nonneg s : 0 ≤ potential s.
Proof.
  unfold potential.
  pose proof (steps_left_nonneg (2 * Z.of_nat (length (workers s)) + 1) (hashXOR (st s)) (workers s)).
  assert (0 ≤ queued s) by (apply total_nonneg; lia).
  assert (0 ≤ gen_steps_left (2 * Z.of_nat (length (workers s)) + 1) (gen s))
    by (destruct (gen s); simpl; lia).
  nia.
Qed.

Lemma record_potential i c s s' c' ws qs ks ix g :
  ks !! i = Some c → record_next s c = Some (s', c') →
  potential (mkSys s' ws qs (<[i := c']> ks) ix g) < potential (mkSys s ws qs ks ix g).
Proof.
  intros Hi Hn. unfold potential, queued. cbn [st workers queues gen].
  rewrite length_insert, (total_insert _ _ _ _ _ Hi).
  set (m := 2 * Z.of_nat (length ks) + 1).
  destruct c as [|d|d|d|d|d|d old| |]; simpl in Hn; simplify_eq/=; try lia.
  - rewrite Z.eqb_refl. lia.
  - destruct (Z.eqb_spec (hashXOR s) old) as [<-|]; simplify_eq/=.
    + match goal with |- context [total (steps_left m ?y) ks] =>
        pose proof (steps_left_swap m (hashXOR s) y ks) end.
      match goal with |- context [if ?b then _ else _] => destruct b end; lia.
    + rewrite (proj2 (Z.eqb_neq _ _)) by done. lia.
Qed.

Lemma sequence_moves s : sequence (add_sequence s) ≠ sequence s.
Proof.
  simpl. unfold wrapU. intros E. pose proof (Z.mod_pos_bound (sequence s + 1) (2 ^ 64) eq_refl) as Hb.
  rewrite E in Hb. destruct (decide (sequence s + 1 < 2 ^ 64)) as [Hlt|Hge].
  - rewrite Z.mod_small in E by lia. lia.
  - replace (sequence s + 1) with (2 ^ 64) in E by lia. rewrite Z.mod_same in E by done. lia.
Qed.

(** Every step that produces no event uses up one of the steps left. *)
Lemma ending_step_potential s s' : ending_step s s' → potential s' < potential s.
Proof.
  intros [Hs Hseq].
  destruct Hs; try (by eapply record_potential);
    try match goal with
    | H : nextEvent _ _ _ _ _ _ = _ |- _ => apply event_stats in H as ->; by apply sequence_moves in Hseq
    | H : eventForOBU _ _ _ _ _ _ _ = _ |- _ => apply event_stats in H as ->; by apply sequence_moves in Hseq
    end.
  all: unfold potential, queued; cbn [st workers queues gen]; rewrite ?length_insert; totals;
    rewrite ?length_app; simpl; try lia.
Qed.

(** ** Nothing blocks *)

Lemma queues_length s s' : load_step cfg payload s s' → length (queues s') = length (queues s).
Proof. by destruct 1; simpl; rewrite ?length_insert. Qed.

Lemma queues_reachable n run s :
  rtc (load_step cfg payload) (initial cfg n run) s → length (queues s) = n.
Proof.
  intros Hs. assert (length (queues (initial cfg n run)) = n) as <- by (simpl; by rewrite length_replicate).
  induction Hs as [|x y z Hxy _ IH]; [done|]. by rewrite IH, (queues_length x y).
Qed.

Lemma connection_exists {A} d (qs : list A) :
  (0 < length qs)%nat → is_Some (qs !! connectionIndex d (length qs)).
Proof.
  intros Hl. apply lookup_lt_is_Some_2. destruct (decide (1 ≤ od_OBUID d)) as [|Hd].
  { by apply connectionIndex_lt. }
  unfold connectionIndex. pose proof (Z.rem_nonpos (od_OBUID d - 1) (Z.of_nat (length qs))). lia.
Qed.

Lemma ending_progress s :
  (0 < length (queues s))%nat → stopped s ∨ ∃ s', ending_step s s'.
Proof.
  intros Hl. destruct s as [s ws qs ks ix g]. simpl in Hl.
  destruct g as [|d|d|]; [right..|].
  - eexists. split; [apply close_jobs|done].
  - eexists. split; [apply attempt|done].
  - destruct (connection_exists d qs Hl) as [q Hq].
    destruct (decide (length q < queue_capacity)%nat).
    + eexists. split; [by eapply enqueue|done].
    + eexists. split; [by eapply queue_full; [done|done|lia]|done].
  - destruct (decide (Forall (λ c, c = Exit) ks)) as [|Hn]; [by left|right].
    apply not_Forall_Exists in Hn; [|apply _].
    apply Exists_exists in Hn as (c & [i Hi]%list_elem_of_lookup & Hc).
    assert (∀ s' c', record_next s c = Some (s', c') → sequence s' = sequence s →
      ∃ s'', ending_step (mkSys s ws qs ks ix GClosed) s'') as Hrec.
    { intros s' c' Hr Hq. eexists. split; [by eapply record|done]. }
    destruct c as [|d|d|d|d|d|d old| |]; try done; try by eapply Hrec.
    + eexists. split; [by eapply context_done|done].
    + eexists. split; [by eapply attempt_max|done].
    + eexists. split; [by eapply write_error|done].
    + simpl in Hrec. destruct (hashXOR s =? old); by eapply Hrec.
    + by destruct Hc.
Qed.

(** In maximum mode there are no queues. *)
Definition no_queues (s : Sys) : Prop := gen s = GClosed ∧ Forall (λ q, q = []) (queues s).

Lemma no_queues_step s s' :
  Mode cfg = "max" → load_step cfg payload s s' → no_queues s → no_queues s'.
Proof. intros Hm. destruct 1; intros [Hg Hq]; simpl in *; try done; by rewrite Hm in *. Qed.

Lemma no_queues_reachable n run s :
  Mode cfg = "max" → rtc (load_step cfg payload) (initial cfg n run) s → no_queues s.
Proof.
  intros Hm Hs. assert (no_queues (initial cfg n run)) as H0.
  { unfold no_queues, initial. simpl. rewrite Hm. split; [done|]. by apply Forall_replicate. }
  induction Hs as [|x y z Hxy _ IH]; [done|]. by apply IH, (no_queues_step x).
Qed.

Lemma ending_reachable s s' : rtc ending_step s s' → rtc (load_step cfg payload) s s'.
Proof. apply rtc_subrel. by intros x y [? _]. Qed.

(** C35. The load generator stops.  Once its loops have seen that the context is
    done, in either mode and from any moment of any run: every schedule of the
    goroutines has at most [potential s] steps, none of them is ever blocked, so
    that all of them return; and then the digest is that of the events on the
    wires and every attempted event is counted as written or as failed, or was
    left in a queue (never, in maximum mode, which has no queues). *)
Theorem load_generator_stops (n : nat) (run : Z) (s : Sys) :
  (0 < n)%nat → rtc (load_step cfg payload) (initial cfg n run) s →
  (∀ k s', nsteps ending_step k s s' → Z.of_nat k ≤ potential s) ∧
  (∃ s', rtc ending_step s s' ∧ stopped s') ∧
  ∀ s', rtc ending_step s s' →
    (stopped s' ∨ ∃ s'', ending_step s' s'') ∧
    (stopped s' →
       mkRecon (written (st s')) (hashXOR (st s')) (hashSum (st s')) =
         recon_of (od_EventID <$> concat (wires s')) ∧
       attempted (st s') = wrapU 64 (written (st s') + failed (st s') + queued s') ∧
       (Mode cfg = "max" → queued s' = 0)).
Proof.
  intros Hn Hs.
  assert (∀ x y, ending_step x y → (Z.to_nat (potential y) < Z.to_nat (potential x))%nat) as Hμ.
  { intros x y Hxy%ending_step_potential. pose proof (potential_nonneg y). lia. }
  split; [|split].
  - intros k s' Hk%(nsteps_measure _ _ Hμ). pose proof (potential_nonneg s). lia.
  - apply (measure_ends _ _ Hμ (λ x, length (queues x) = n)); [| |by eapply queues_reachable].
    + intros x Hx. apply ending_progress. lia.
    + intros x y [Hxy _] Hx. by rewrite (queues_length x y).
  - intros s' Hs'%ending_reachable. assert (rtc (load_step cfg payload) (initial cfg n run) s') as Hr by by etrans.
    split; [apply ending_progress; by rewrite (queues_reachable n run s')|].
    intros [Hk Hg]. destruct (load_stopped cfg payload n run s' Hr Hk Hg) as [Hq Ha].
    split; [by apply (load_digest cfg payload n run s' Hr)|split; [done|]].
    intros Hm. destruct (no_queues_reachable n run s' Hm Hr) as [_ He].
    unfold queued. rewrite total_zero; [done|]. eapply Forall_impl; [exact He|]. by intros q ->.
Qed.
End Stop.

(** ** A concrete end *)

(** The generator is interrupted with one event recorded and one in its queue: both
    goroutines return, and the queued event is left. *)
Lemma load_generator_stops_witness :
  ∃ s s', rtc (load_step test_config "") (initial test_config 1 99) s ∧
    rtc (ending_step test_config "") s s' ∧ stopped s' ∧
    attempted (st s') = wrapU 64 (written (st s') + failed (st s') + queued s').
Proof.
  destruct test_execution as (s & Hs%unwrapped_run & _).
  destruct (load_generator_stops test_config "" 1 99 s ltac:(lia) Hs) as (_ & (s' & Hs' & Hst) & Hend).
  exists s, s'. split; [done|]. split; [done|]. split; [done|].
  apply (proj2 (Hend s' Hs') Hst).
Defined.
