(* ===== verification/ObuMetrics.v ===== *)
(** * ObuMetrics: the Prometheus calls of the load generator (src/obu/main.go)

    The goroutines of ObuConcurrency.v with the calls that they make on the
    collectors.  After an atomic operation on the shared counters a goroutine owes
    the matching call, and it takes its next step only after it has made it; the
    other goroutines may run in between.  [runFixedRate] sets the offered rate
    when it begins a phase, [runMaximumThroughput] when it begins. *)

From S2P Require Import Prelude Float64 GoLib Types Obu ObuConcurrency ObuStop.

Local Open Scope Z_scope.

Definition m_obuEventsAttempted : string := "tollify_obu_events_attempted_total".
Definition m_obuEventsWritten : string := "tollify_obu_events_written_total".
Definition m_obuWriteFailures : string := "tollify_obu_write_failures_total".
Definition m_obuOfferedRate : string := "tollify_obu_offered_event_rate".

(** What a writer or worker owes after the step from [c] to [c']: after
    [attempted.Add], at the end of [recordSuccess] and of [recordFailure]. *)
Definition worker_owes (c c' : pc) : list MetricOp :=
  match c, c' with
  | Attempt _, Writing _ => [Inc m_obuEventsAttempted []]
  | Cas _ _, Ready => [Inc m_obuEventsWritten []]
  | Fail, Exit => [Inc m_obuWriteFailures []]
  | _, _ => []
  end.

(** The same for the ticker loop; a full queue is a failure. *)
Definition gen_owes (s s' : Sys) : list MetricOp :=
  match gen s, gen s' with
  | GAttempt _, GEnqueue _ => [Inc m_obuEventsAttempted []]
  | GEnqueue _, GTick => if bool_decide (queues s = queues s') then [Inc m_obuWriteFailures []] else []
  | _, _ => []
  end.

Record Metered := mkMetered {
  sys : Sys;
  owed : list (list MetricOp);     (* by each worker *)
  gen_owed : list MetricOp;        (* by the ticker loop *)
  calls : list MetricOp;           (* made so far, in order *)
  later : list loadPhase           (* phases that have not begun *)
}.

Definition offer (rate : float64) : MetricOp := SetGauge m_obuOfferedRate [] rate.

Section Metered.
Context (cfg : loadConfig) (payload : string).

Inductive metered_step : Metered → Metered → Prop :=
| metered s s' wd gd ops phs :
    load_step cfg payload s s' →
    (∀ i, workers s !! i ≠ workers s' !! i → wd !! i = Some []) →
    (gen s ≠ gen s' → gd = []) →
    metered_step (mkMetered s wd gd ops phs)
      (mkMetered s' (zip_with (++) wd (zip_with worker_owes (workers s) (workers s')))
         (gd ++ gen_owes s s') ops phs)
| worker_call i op rest s wd gd ops phs :
    wd !! i = Some (op :: rest) →
    metered_step (mkMetered s wd gd ops phs) (mkMetered s (<[i := rest]> wd) gd (ops ++ [op]) phs)
| gen_call op rest s wd ops phs :
    metered_step (mkMetered s wd (op :: rest) ops phs) (mkMetered s wd rest (ops ++ [op]) phs)
| next_phase ph s wd ops phs :
    gen s = GTick →
    metered_step (mkMetered s wd [] ops (ph :: phs)) (mkMetered s wd [] (ops ++ [offer (ph_rate ph)]) phs).

(** [n] connections; the first phase begins before the first tick. *)
Definition metered_start (phases : list loadPhase) (n : nat) (run : Z) : Metered :=
  let s := initial cfg n run in
  let wd := replicate n [] in
  if bool_decide (Mode cfg = "max") then mkMetered s wd [] [offer (f_of_Z (-1))] []
  else match run_phases cfg phases with
       | [] => mkMetered s wd [] [] []
       | ph :: phs => mkMetered s wd [] [offer (ph_rate ph)] phs
       end.

(** The rates that a run offers one after the other: -1 stands for no limit. *)
Definition offers (phases : list loadPhase) : list float64 :=
  if bool_decide (Mode cfg = "max") then [f_of_Z (-1)] else ph_rate <$> run_phases cfg phases.

(** Every goroutine has returned and no call is outstanding. *)
Definition finished (m : Metered) : Prop :=
  stopped (sys m) ∧ Forall (λ o, o = []) (owed m) ∧ gen_owed m = [].
End Metered.

(** ** Counting *)

Definition n_incs (name : string) (ops : list MetricOp) : Z := Z.of_nat (incs name ops).

(** The calls made and owed. *)
Definition n_all (name : string) (m : Metered) : Z :=
  n_incs name (calls m) + total (n_incs name) (owed m) + n_incs name (gen_owed m).

(** In [recordSuccess], after [written.Add]. *)
Definition recording (c : pc) : Z := match c with AddSum _ | LoadXOR _ | Cas _ _ => 1 | _ => 0 end.

Definition load_call (op : MetricOp) : bool :=
  match op with
  | Inc name [] => bool_decide (name ∈ [m_obuEventsAttempted; m_obuEventsWritten; m_obuWriteFailures])
  | SetGauge name [] _ => bool_decide (name = m_obuOfferedRate)
  | _ => false
  end.

Definition offered (op : MetricOp) : option float64 :=
  match op with SetGauge _ _ rate => Some rate | _ => None end.

Lemma n_incs_app name l l' : n_incs name (l ++ l') = n_incs name l + n_incs name l'.
Proof. unfold n_incs, incs. rewrite filter_app, length_app. lia. Qed.

Lemma total_zip_app name wd od :
  length wd = length od →
  total (n_incs name) (zip_with (++) wd od) = total (n_incs name) wd + total (n_incs name) od.
Proof.
  revert od. induction wd as [|w wd IH]; intros [|o od]; try done. intros [= Hl]. simpl.
  rewrite n_incs_app, IH by done. lia.
Qed.

Lemma worker_owes_same c : worker_owes c c = [].
Proof. by destruct c. Qed.

Lemma owes_same ks : zip_with worker_owes ks ks = replicate (length ks) [].
Proof. induction ks as [|c ks IH]; [done|]. simpl. by rewrite worker_owes_same, IH. Qed.

Lemma owes_insert ks i c c' :
  ks !! i = Some c → zip_with worker_owes ks (<[i := c']> ks) = <[i := worker_owes c c']> (replicate (length ks) []).
Proof.
  revert i. induction ks as [|k ks IH]; intros [|i]; [done..| |]; simpl; intros Hi; simplify_eq.
  - by rewrite owes_same.
  - by rewrite worker_owes_same, IH.
Qed.

Lemma total_owes name ks i c c' :
  ks !! i = Some c →
  total (n_incs name) (zip_with worker_owes ks (<[i := c']> ks)) = n_incs name (worker_owes c c').
Proof.
  intros Hi. rewrite (owes_insert _ _ _ _ Hi).
  rewrite (total_insert _ _ _ [] (worker_owes c c')) by by apply lookup_replicate_2, (lookup_lt_Some _ _ _ Hi).
  rewrite total_zero by by apply Forall_replicate. unfold n_incs, incs. simpl. lia.
Qed.

Lemma total_owes_same name ks : total (n_incs name) (zip_with worker_owes ks ks) = 0.
Proof. rewrite owes_same. apply total_zero. by apply Forall_replicate. Qed.

Ltac count_calls :=
  repeat match goal with
  | |- context [n_incs ?name ?ops] =>
      let v := eval vm_compute in (n_incs name ops) in
      match v with Z0 => idtac | Zpos _ => idtac end; change (n_incs name ops) with v
  end.

Lemma queue_grows (qs : list (list OBUData)) i q d : qs !! i = Some q → qs ≠ <[i := q ++ [d]]> qs.
Proof.
  intros Hi Hq. assert (<[i := q ++ [d]]> qs !! i = Some q) as Hi' by by rewrite <- Hq.
  rewrite list_lookup_insert_eq in Hi' by by eapply lookup_lt_Some.
  injection Hi' as Hi'. apply (f_equal length) in Hi'. rewrite length_app in Hi'. simpl in Hi'. lia.
Qed.

(** ** Calls and counters *)

Section Counts.
Context (cfg : loadConfig) (payload : string).

(** What a step makes owed is what it adds to the counters. *)
Lemma step_counts s s' :
  load_step cfg payload s s' →
  let n name := total (n_incs name) (zip_with worker_owes (workers s) (workers s')) + n_incs name (gen_owes s s') in
  length (workers s') = length (workers s) ∧
  (in_u64 (attempted (st s)) →
   attempted (st s') = wrapU 64 (attempted (st s) + n m_obuEventsAttempted)) ∧
  (in_u64 (written (st s)) →
   written (st s') = wrapU 64 (written (st s) + n m_obuEventsWritten +
                               total recording (workers s') - total recording (workers s))) ∧
  (in_u64 (failed (st s)) → failed (st s') = wrapU 64 (failed (st s) + n m_obuWriteFailures)).
Proof.
  intros Hs.
  destruct Hs; cbv zeta; unfold gen_owes; cbn [workers st gen queues];
    try match goal with H : nextEvent _ _ _ _ _ _ = _ |- _ => apply event_stats in H as -> end;
    try match goal with H : eventForOBU _ _ _ _ _ _ _ = _ |- _ => apply event_stats in H as -> end.
  all: rewrite ?length_insert; split; [done|].
  all: try match goal with H : record_next _ ?c = Some _ |- _ =>
    destruct c; cbn in H; try case_match; simplify_eq end.
  all: try (rewrite bool_decide_eq_false_2 by (by eapply queue_grows)).
  all: rewrite ?total_owes_same, ?(bool_decide_eq_true_2 (_ = _)) by done.
  all: repeat match goal with H : ?ks !! ?i = Some ?c |- context [zip_with worker_owes ?ks (<[?i := ?c']> ?ks)] =>
    rewrite !(total_owes _ ks i c c' H) end; totals; cbn [worker_owes recording].
  all: try (is_var g; destruct g); count_calls; unfold add_attempted, add_written, add_hashSum, set_hashXOR,
    add_sequence, recordFailure; cbn [attempted written failed].
  all: split_and!; intros Hr; (rewrite wrapU_id; [lia|unfold in_u64 in Hr; lia]) || (f_equal; lia).
Qed.

Record Counts (m : Metered) : Prop := {
  Ct_len : length (owed m) = length (workers (sys m));
  Ct_attempted : attempted (st (sys m)) = wrapU 64 (n_all m_obuEventsAttempted m);
  Ct_written : written (st (sys m)) =
    wrapU 64 (n_all m_obuEventsWritten m + total recording (workers (sys m)));
  Ct_failed : failed (st (sys m)) = wrapU 64 (n_all m_obuWriteFailures m)
}.

(** A call that is made is no longer owed. *)
Lemma n_all_worker_call name s wd gd ops phs i op rest :
  wd !! i = Some (op :: rest) →
  n_all name (mkMetered s (<[i := rest]> wd) gd (ops ++ [op]) phs) = n_all name (mkMetered s wd gd ops phs).
Proof.
  intros Hi. unfold n_all. cbn [calls owed gen_owed]. rewrite (total_insert _ _ _ _ _ Hi), n_incs_app.
  change (op :: rest) with ([op] ++ rest). rewrite n_incs_app. lia.
Qed.

Lemma n_all_gen_call name s wd ops phs op rest :
  n_all name (mkMetered s wd rest (ops ++ [op]) phs) = n_all name (mkMetered s wd (op :: rest) ops phs).
Proof.
  unfold n_all. cbn [calls owed gen_owed]. change (op :: rest) with ([op] ++ rest). rewrite !n_incs_app. lia.
Qed.

Lemma n_all_offer name s wd gd ops phs phs' rate :
  n_all name (mkMetered s wd gd (ops ++ [offer rate]) phs) = n_all name (mkMetered s wd gd ops phs').
Proof.
  unfold n_all. cbn [calls owed gen_owed]. rewrite n_incs_app. change (n_incs name [offer rate]) with 0. lia.
Qed.

Lemma n_all_step name s s' wd gd ops phs :
  length wd = length (workers s) → length (workers s') = length (workers s) →
  n_all name (mkMetered s' (zip_with (++) wd (zip_with worker_owes (workers s) (workers s')))
                (gd ++ gen_owes s s') ops phs) =
  n_all name (mkMetered s wd gd ops phs) +
    (total (n_incs name) (zip_with worker_owes (workers s) (workers s')) + n_incs name (gen_owes s s')).
Proof.
  intros Hl Hl'. unfold n_all. cbn [calls owed gen_owed].
  rewrite total_zip_app, n_incs_app by (rewrite length_zip_with_l_eq; [done|lia]). lia.
Qed.

Lemma wrapU_64 z : in_u64 (wrapU 64 z).
Proof. by apply wrapU_range. Qed.

Lemma Counts_step m m' : metered_step cfg payload m m' → Counts m → Counts m'.
Proof.
  intros Hs [Hl Ha Hw Hf]. destruct Hs as [s s' wd gd ops phs Hs _ _|i op rest s wd gd ops phs Hi|
    op rest s wd ops phs|ph s wd ops phs _]; cbn [sys owed] in *.
  - destruct (step_counts s s' Hs) as (Hl' & Ha' & Hw' & Hf').
    constructor; cbn [sys owed]; rewrite ?n_all_step by done.
    + rewrite length_zip_with, length_zip_with. lia.
    + rewrite Ha', Ha, wrapU_add_l by (rewrite Ha; apply wrapU_64). done.
    + rewrite Hw', Hw by (rewrite Hw; apply wrapU_64).
      rewrite <- Z.add_sub_assoc, <- Z.add_assoc, wrapU_add_l. f_equal. lia.
    + rewrite Hf', Hf, wrapU_add_l by (rewrite Hf; apply wrapU_64). done.
  - by constructor; cbn [sys owed]; rewrite ?length_insert, ?(n_all_worker_call _ _ _ _ _ _ _ _ _ Hi).
  - by constructor; cbn [sys owed]; rewrite ?n_all_gen_call.
  - by constructor; cbn [sys owed]; rewrite ?(n_all_offer _ _ _ _ _ phs (ph :: phs)).
Qed.

(** *** Which calls are made *)

Lemma owes_load_call c c' : forallb load_call (worker_owes c c') = true.
Proof. by destruct c, c'. Qed.
Lemma gen_owes_load_call s s' : forallb load_call (gen_owes s s') = true.
Proof. unfold gen_owes. repeat case_match; by vm_compute. Qed.

Definition Calls (m : Metered) : Prop :=
  forallb load_call (calls m) = true ∧ forallb load_call (gen_owed m) = true ∧
  Forall (λ o, forallb load_call o = true) (owed m).

Lemma Calls_step m m' : metered_step cfg payload m m' → Calls m → Calls m'.
Proof.
  unfold Calls. intros Hs (Hc & Hg & Hw).
  destruct Hs as [s s' wd gd ops phs Hs _ _|i op rest s wd gd ops phs Hi|op rest s wd ops phs|ph s wd ops phs _];
    cbn [calls gen_owed owed] in *; rewrite ?forallb_app, ?Hc, ?Hg.
  - split; [done|]. split; [by rewrite gen_owes_load_call|].
    apply Forall_lookup_2. intros i o (o1 & o2 & -> & H1 & (c & c' & -> & _)%lookup_zip_with_Some)%lookup_zip_with_Some.
    rewrite Forall_lookup in Hw. by rewrite forallb_app, (Hw i o1 H1), owes_load_call.
  - rewrite Forall_lookup in Hw. pose proof (Hw i _ Hi) as [Hop Hrest]%andb_true_iff.
    split; [by cbn; rewrite Hop|]. split; [done|]. apply Forall_insert; [by apply Forall_lookup|done].
  - apply andb_true_iff in Hg as [Hop Hrest]. by cbn; rewrite Hop.
  - done.
Qed.

(** The rates set are those of the phases begun. *)
Definition Offers (rates : list float64) (m : Metered) : Prop :=
  omap offered (calls m) ++ (ph_rate <$> later m) = rates ∧
  omap offered (gen_owed m) = [] ∧ Forall (λ o, omap offered o = []) (owed m).

Lemma owes_offered c c' : omap offered (worker_owes c c') = [].
Proof. by destruct c, c'. Qed.
Lemma gen_owes_offered s s' : omap offered (gen_owes s s') = [].
Proof. unfold gen_owes. by repeat case_match. Qed.

Lemma Offers_step rates m m' : metered_step cfg payload m m' → Offers rates m → Offers rates m'.
Proof.
  unfold Offers. intros Hs (Hc & Hg & Hw).
  destruct Hs as [s s' wd gd ops phs Hs _ _|i op rest s wd gd ops phs Hi|op rest s wd ops phs|ph s wd ops phs _];
    cbn [calls gen_owed owed later] in *.
  - split; [done|]. split; [by rewrite omap_app, Hg, gen_owes_offered|].
    apply Forall_lookup_2. intros i o (o1 & o2 & -> & H1 & (c & c' & -> & _)%lookup_zip_with_Some)%lookup_zip_with_Some.
    rewrite Forall_lookup in Hw. by rewrite omap_app, (Hw i o1 H1), owes_offered.
  - rewrite Forall_lookup in Hw. pose proof (Hw i _ Hi) as Ho. cbn in Ho.
    destruct (offered op) eqn:Eo; [done|]. rewrite omap_app. cbn. rewrite Eo, app_nil_r.
    split; [done|]. split; [done|]. apply Forall_insert; [by apply Forall_lookup|done].
  - cbn in Hg. destruct (offered op) eqn:Eo; [done|]. rewrite omap_app. cbn. by rewrite Eo, app_nil_r.
  - rewrite omap_app. cbn. by rewrite <- app_assoc.
Qed.
End Counts.

Section Runs.
Context (cfg : loadConfig) (payload : string).

Lemma metered_sys m m' : metered_step cfg payload m m' → rtc (load_step cfg payload) (sys m) (sys m').
Proof. destruct 1; cbn; [by apply rtc_once|done..]. Qed.

Lemma start_sys phases n run : sys (metered_start cfg phases n run) = initial cfg n run.
Proof. unfold metered_start. by repeat case_match. Qed.

Lemma metered_reachable phases n run m :
  rtc (metered_step cfg payload) (metered_start cfg phases n run) m →
  rtc (load_step cfg payload) (initial cfg n run) (sys m).
Proof.
  rewrite <- (start_sys phases). generalize (metered_start cfg phases n run) as m0. intros m0.
  induction 1 as [|m0 m1 m2 Hs _ IH]; [done|]. etrans; [by apply metered_sys|done].
Qed.

(** *** The start *)

Lemma start_owed phases n run :
  owed (metered_start cfg phases n run) = replicate n [] ∧ gen_owed (metered_start cfg phases n run) = [] ∧
  calls (metered_start cfg phases n run) = offer <$> take 1 (offers cfg phases) ∧
  ph_rate <$> later (metered_start cfg phases n run) = drop 1 (offers cfg phases).
Proof. unfold metered_start, offers. case_bool_decide; [done|]. by destruct (run_phases cfg phases). Qed.

Lemma total_no_calls name n : total (n_incs name) (replicate n []) = 0.
Proof. apply total_zero. by apply Forall_replicate. Qed.

Lemma n_incs_offers name rates : n_incs name (offer <$> rates) = 0.
Proof. induction rates; done. Qed.

Lemma Counts_start phases n run : Counts (metered_start cfg phases n run).
Proof.
  destruct (start_owed phases n run) as (Ho & Hg & Hc & _).
  assert (∀ name, n_all name (metered_start cfg phases n run) = 0) as Hn.
  { intros name. unfold n_all. rewrite Ho, Hg, Hc, n_incs_offers, total_no_calls. done. }
  constructor; rewrite ?Hn, ?start_sys; [|done| |done].
  - rewrite Ho. cbn. by rewrite length_imap, !length_replicate.
  - unfold initial. cbn [st workers]. rewrite total_zero; [done|]. apply Forall_lookup_2.
    intros i c. rewrite list_lookup_imap. destruct (replicate n () !! i); [|done]. cbn.
    intros [= <-]. by case_bool_decide.
Qed.

Lemma Calls_start phases n run : Calls (metered_start cfg phases n run).
Proof.
  destruct (start_owed phases n run) as (Ho & Hg & Hc & _). unfold Calls. rewrite Ho, Hg, Hc.
  split; [|by split; [|apply Forall_replicate]].
  generalize (take 1 (offers cfg phases)) as rates. by induction rates.
Qed.

Lemma Offers_start phases n run : Offers (offers cfg phases) (metered_start cfg phases n run).
Proof.
  destruct (start_owed phases n run) as (Ho & Hg & Hc & Hl). unfold Offers. rewrite Ho, Hg, Hc, Hl.
  split; [|by split; [|apply Forall_replicate]]. rewrite <- (take_drop 1 (offers cfg phases)) at 3.
  f_equal. generalize (take 1 (offers cfg phases)) as rates. induction rates; [done|]. cbn. by f_equal.
Qed.

Lemma metered_invariant phases n run m :
  rtc (metered_step cfg payload) (metered_start cfg phases n run) m →
  Counts m ∧ Calls m ∧ Offers (offers cfg phases) m.
Proof.
  assert (∀ m0, rtc (metered_step cfg payload) m0 m → Counts m0 → Calls m0 →
    Offers (offers cfg phases) m0 → Counts m ∧ Calls m ∧ Offers (offers cfg phases) m) as H.
  { induction 1 as [|m0 m1 m2 Hs _ IH]; [done|]. intros H1 H2 H3.
    apply IH; eauto using Counts_step, Calls_step, Offers_step. }
  intros Hs. apply (H _ Hs); [apply Counts_start|apply Calls_start|apply Offers_start].
Qed.

(** *** Every run can end *)

Definition calls_owed (m : Metered) : nat := length (concat (owed m)) + length (gen_owed m).

(** A call that [m] makes. *)
Inductive makes_call : relation Metered :=
| by_worker i op rest s wd gd ops phs :
    wd !! i = Some (op :: rest) →
    makes_call (mkMetered s wd gd ops phs) (mkMetered s (<[i := rest]> wd) gd (ops ++ [op]) phs)
| by_gen op rest s wd ops phs :
    makes_call (mkMetered s wd (op :: rest) ops phs) (mkMetered s wd rest (ops ++ [op]) phs).

Lemma makes_call_step m m' : makes_call m m' → metered_step cfg payload m m'.
Proof. destruct 1; by constructor. Qed.

Lemma makes_call_owed m m' : makes_call m m' → (calls_owed m' < calls_owed m)%nat.
Proof.
  unfold calls_owed. destruct 1 as [i op rest s wd gd ops phs Hi|]; cbn; [|lia].
  rewrite <- (take_drop_middle _ _ _ Hi) at 2. rewrite insert_take_drop by by eapply lookup_lt_Some.
  rewrite !concat_app, !length_app. cbn. rewrite !length_app. lia.
Qed.

Definition silent (m : Metered) : Prop := Forall (λ o, o = []) (owed m) ∧ gen_owed m = [].

Lemma makes_call_progress m : silent m ∨ ∃ m', makes_call m m'.
Proof.
  destruct m as [s wd [|op rest] ops phs]; [|right; eexists; apply by_gen].
  destruct (decide (Forall (λ o, o = []) wd)) as [|Hn]; [by left|right].
  apply not_Forall_Exists in Hn; [|apply _].
  apply Exists_exists in Hn as ([|op rest] & [i Hi]%list_elem_of_lookup & Ho); [by destruct Ho|].
  eexists. by eapply by_worker.
Qed.

Lemma calls_made m :
  ∃ m', rtc (metered_step cfg payload) m m' ∧ sys m' = sys m ∧ silent m'.
Proof.
  destruct (measure_ends makes_call calls_owed makes_call_owed (λ _, True) silent
    (λ x _, makes_call_progress x) (λ _ _ _ _, I) m I) as (m' & Hm & Hs).
  exists m'. split; [|split; [|done]].
  - apply (rtc_subrel makes_call); [apply makes_call_step|done].
  - clear Hs. induction Hm as [|m m1 m2 Hm _ ->]; [done|]. by destruct Hm.
Qed.

Lemma silent_step s s' wd ops phs :
  load_step cfg payload s s' → length wd = length (workers s) → Forall (λ o, o = []) wd →
  metered_step cfg payload (mkMetered s wd [] ops phs)
    (mkMetered s' (zip_with (++) wd (zip_with worker_owes (workers s) (workers s')))
       ([] ++ gen_owes s s') ops phs).
Proof.
  intros Hs Hl Hw. apply metered; [done| |done]. intros i Hi.
  destruct (wd !! i) as [o|] eqn:Eo; [by rewrite (Forall_lookup_1 _ _ _ _ Hw Eo)|].
  destruct (step_counts cfg payload s s' Hs) as [Hl' _]. apply lookup_ge_None in Eo.
  by destruct Hi; rewrite !lookup_ge_None_2 by lia.
Qed.

Lemma metered_ends m :
  (0 < length (queues (sys m)))%nat → Counts m →
  ∃ m', rtc (metered_step cfg payload) m m' ∧ finished m'.
Proof.
  remember (Z.to_nat (potential (sys m))) as k eqn:Ek. revert m Ek.
  induction (lt_wf k) as [k _ IH]. intros m -> Hq Hc.
  destruct (calls_made m) as (m1 & Hm & Hsys & Ho & Hg).
  destruct (ending_progress cfg payload (sys m) Hq) as [Hst|[s' Hs']].
  { exists m1. split; [done|]. by rewrite <- Hsys in Hst. }
  assert (Counts m1) as Hc1.
  { clear -Hm Hc. induction Hm; eauto using Counts_step. }
  destruct m1 as [s wd gd ops phs]. cbn in Ho, Hg, Hsys. subst s gd.
  pose proof (ending_step_potential _ _ _ _ Hs') as Hp. pose proof (potential_nonneg s') as Hp'.
  pose proof (silent_step _ s' wd ops phs (proj1 Hs') (Ct_len _ Hc1) Ho) as Hstep.
  edestruct (IH (Z.to_nat (potential s')) ltac:(lia)) as (m' & Hm' & Hf); [| |exact (Counts_step _ _ _ _ Hstep Hc1)|].
  - done.
  - cbn. by rewrite (queues_length cfg payload (sys m) s') by apply Hs'.
  - exists m'. split; [|done]. etrans; [exact Hm|]. by eapply rtc_l.
Qed.
End Runs.

(** *** A run without events *)

Section Idle.
Context (cfg : loadConfig) (payload : string).

Lemma no_owed n : zip_with (++) (replicate n []) (replicate n []) = replicate n ([] : list MetricOp).
Proof. induction n; [done|]. simpl. by f_equal. Qed.

Lemma idle_worker n i s ws qs ks ix g ops phs :
  length ks = n → ks !! i = Some Ready →
  metered_step cfg payload (mkMetered (mkSys s ws qs ks ix g) (replicate n []) [] ops phs)
    (mkMetered (mkSys s ws qs (<[i := Exit]> ks) ix g) (replicate n []) [] ops phs).
Proof.
  intros Hl Hi. pose proof (silent_step cfg payload _ _ (replicate n []) ops phs
    (context_done cfg payload i s ws qs ks ix g Hi)) as Hs.
  cbn [workers] in Hs. rewrite (owes_insert _ _ _ _ Hi) in Hs. cbn [worker_owes] in Hs.
  rewrite (list_insert_id (replicate (length ks) [])), Hl, no_owed in Hs by (apply lookup_replicate_2; by eapply lookup_lt_Some).
  specialize (Hs (length_replicate _ _) ltac:(by apply Forall_replicate)). by destruct g.
Qed.

(** All workers return, one after the other. *)
Lemma idle_workers n k s ws qs ix g ops phs :
  (k ≤ n)%nat →
  rtc (metered_step cfg payload) (mkMetered (mkSys s ws qs (replicate n Ready) ix g) (replicate n []) [] ops phs)
    (mkMetered (mkSys s ws qs (replicate k Exit ++ replicate (n - k) Ready) ix g) (replicate n []) [] ops phs).
Proof.
  induction k as [|k IH]; intros Hk; [by rewrite Nat.sub_0_r|].
  eapply rtc_r; [apply IH; lia|]. replace (n - k)%nat with (S (n - S k)) by lia.
  rewrite (replicate_S_end k Exit), <- (assoc_L (++)). cbn [replicate app].
  set (ks := replicate k Exit ++ Ready :: replicate (n - S k) Ready).
  assert (<[k := Exit]> ks = replicate k Exit ++ Exit :: replicate (n - S k) Ready) as <-.
  { unfold ks. by rewrite <- (length_replicate k Exit) at 1; rewrite insert_app_r_alt, Nat.sub_diag. }
  apply idle_worker; unfold ks.
  - rewrite length_app. cbn. rewrite !length_replicate. lia.
  - by apply list_lookup_middle; rewrite length_replicate.
Qed.

(** The context may be done before the first tick. *)
Lemma idle_run phases n run :
  Mode cfg = "fixed" →
  ∃ m, rtc (metered_step cfg payload) (metered_start cfg phases n run) m ∧ finished m ∧
       st (sys m) = new_stats run ∧ calls m = offer <$> take 1 (offers cfg phases).
Proof.
  intros Hf. destruct (start_owed cfg phases n run) as (Ho & Hg & Hc & _).
  pose proof (start_sys cfg phases n run) as Hs.
  assert (initial cfg n run = mkSys (new_stats run) (replicate n []) (replicate n []) (replicate n Ready)
    (replicate n 0%nat) GTick) as Hi.
  { unfold initial. rewrite Hf. cbn. f_equal. clear. induction n as [|n IH]; [done|]. cbn. f_equal.
    rewrite <- IH. by apply imap_ext. }
  rewrite Hi in Hs. destruct (metered_start cfg phases n run) as [s wd gd ops phs]. cbn in Ho, Hg, Hc, Hs. subst.
  eexists. split; [|split].
  - etrans; [by apply (idle_workers n n)|]. apply rtc_once. rewrite Nat.sub_diag, app_nil_r.
    apply silent_step; [apply close_jobs|by cbn; rewrite !length_replicate|by apply Forall_replicate].
  - cbn. rewrite owes_same, length_replicate, no_owed. split; [|split; [by apply Forall_replicate|done]].
    split; [by apply Forall_replicate|done].
  - done.
Qed.
End Idle.

(** ** Properties *)

(** C33. The metrics of the load generator agree with what it prints.  In every
    interleaving of its goroutines, in both modes: the calls that they make are
    increments of the three event counters and settings of the offered rate, the
    rates set are those of the phases begun, in order (-1, once, in maximum mode);
    and what was counted, together with the calls that a goroutine has still to
    make, is what the atomic counters hold (an event is in [written] before it is
    in its Prometheus counter).  The run can always end, and when every goroutine
    has returned the three Prometheus counters are the attempted, written and
    failed events of the summary, modulo 2^64. *)
Theorem load_counters_exact (cfg : loadConfig) (payload : string) (phases : list loadPhase)
    (n : nat) (run : Z) (m : Metered) :
  rtc (metered_step cfg payload) (metered_start cfg phases n run) m →
  rtc (load_step cfg payload) (initial cfg n run) (sys m) ∧
  forallb load_call (calls m) = true ∧
  omap offered (calls m) ++ (ph_rate <$> later m) =
    (if bool_decide (Mode cfg = "max") then [f_of_Z (-1)] else ph_rate <$> run_phases cfg phases) ∧
  attempted (st (sys m)) = wrapU 64 (n_all m_obuEventsAttempted m) ∧
  written (st (sys m)) = wrapU 64 (n_all m_obuEventsWritten m + total recording (workers (sys m))) ∧
  failed (st (sys m)) = wrapU 64 (n_all m_obuWriteFailures m) ∧
  ((0 < n)%nat → ∃ m', rtc (metered_step cfg payload) m m' ∧ finished m') ∧
  (finished m →
     attempted (st (sys m)) = wrapU 64 (n_incs m_obuEventsAttempted (calls m)) ∧
     written (st (sys m)) = wrapU 64 (n_incs m_obuEventsWritten (calls m)) ∧
     failed (st (sys m)) = wrapU 64 (n_incs m_obuWriteFailures (calls m))).
Proof.
  intros Hs. pose proof (metered_reachable _ _ _ _ _ _ Hs) as Hr.
  destruct (metered_invariant _ _ _ _ _ _ Hs) as (Hc & [Hcalls _] & [Hof _]).
  split; [done|]. split; [done|]. split; [done|]. pose proof Hc as [_ Ha Hw Hf].
  split; [done|]. split; [done|]. split; [done|]. split.
  - intros Hn. apply metered_ends; [|done]. by rewrite (queues_reachable cfg payload n run).
  - intros ((Hx & _) & Ho & Hg). rewrite Ha, Hw, Hf.
    assert (∀ name, n_all name m = n_incs name (calls m)) as Hn.
    { intros name. unfold n_all. rewrite Hg, (total_zero _ (owed m)).
      - change (n_incs name []) with 0. lia.
      - eapply Forall_impl; [exact Ho|]. by intros o ->. }
    rewrite !Hn, (total_zero recording); [by rewrite Z.add_0_r|].
    eapply Forall_impl; [exact Hx|]. by intros c ->.
Qed.

(** ** Concrete runs *)

(** One event is attempted, queued, written and counted; then the run ends. *)
Definition counted_calls : list MetricOp :=
  [offer (f_of_Z 4); Inc m_obuEventsAttempted []; Inc m_obuEventsWritten []].

Ltac settle_owed :=
  match goal with |- rtc _ (mkMetered ?s ?wd ?gd ?ops ?phs) _ =>
    let wd' := eval vm_compute in wd in let gd' := eval vm_compute in gd in
    let s' := eval cbn in s in
    change (mkMetered s wd gd ops phs) with (mkMetered s' wd' gd' ops phs) end.

Ltac metered_next rule :=
  eapply rtc_l; [eapply metered; [rule|by intros [|[|i]] Hi; cbn in Hi|by intros Hg; cbn in Hg]|]; settle_owed.
Ltac metered_call rule := eapply rtc_l; [rule|]; settle_owed.

Lemma counted_execution :
  ∃ m, rtc (metered_step test_config "") (metered_start test_config [] 1 99) m ∧
       finished m ∧ calls m = counted_calls.
Proof.
  assert (metered_start test_config [] 1 99 =
    mkMetered (mkSys (new_stats 99) [[]] [[]] [Ready] [0%nat] GTick) [[]] [] [offer (f_of_Z 4)] []) as ->
    by by vm_compute.
  eexists. split.
  { metered_next ltac:(eapply (tick _ _ 7 fzero fzero); [done|reflexivity]).
    metered_next ltac:(eapply attempt).
    metered_call ltac:(eapply gen_call).
    metered_next ltac:(eapply (enqueue _ _ _ 0 []); [by vm_compute|done|simpl; unfold queue_capacity; lia]).
    metered_next ltac:(eapply (receive _ _ 0); [done..]).
    metered_next ltac:(eapply (write_ok _ _ 0 _ []); done).
    metered_next ltac:(eapply (record _ _ 0); [done|reflexivity]).
    metered_next ltac:(eapply (record _ _ 0); [done|reflexivity]).
    metered_next ltac:(eapply (record _ _ 0); [done|reflexivity]).
    metered_next ltac:(eapply (record _ _ 0); [done|by vm_compute]).
    metered_call ltac:(by eapply (worker_call _ _ 0)).
    metered_next ltac:(eapply close_jobs).
    metered_next ltac:(eapply (drained _ _ 0); done).
    apply rtc_refl. }
  repeat split; by repeat constructor.
Qed.

Lemma load_counters_exact_witness :
  ∃ m, rtc (metered_step test_config "") (metered_start test_config [] 1 99) m ∧ finished m ∧
    attempted (st (sys m)) = 1 ∧ written (st (sys m)) = 1 ∧ failed (st (sys m)) = 0 ∧
    omap offered (calls m) ++ (ph_rate <$> later m) = [f_of_Z 4].
Proof.
  destruct counted_execution as (m & Hm & Hf & Hc). exists m. split; [done|]. split; [done|].
  destruct (load_counters_exact test_config "" [] 1 99 m Hm) as (_ & _ & Ho & _ & _ & _ & _ & Hend).
  destruct (Hend Hf) as (Ha & Hw & Hx). rewrite Hc in Ha, Hw, Hx.
  split; [by rewrite Ha|]. split; [by rewrite Hw|]. split; [by rewrite Hx|]. exact Ho.
Defined.
