(* ===== verification/Receiver.v ===== *)
(** * Receiver: the WebSocket receiver and its Kafka producer (src/data_receiver)

    The receive loop of one connection, the connection handler with its set of
    open connections, the producer and the message it builds, and the origin
    check.  Sockets and Kafka are the environments [WSEnv] and [ProducerEnv].
    Forwarding.v proves what the receiver promises the consumer. *)

From S2P Require Import Prelude Float64 GoLib Types Http.
From Stdlib Require Import Ascii.

Local Open Scope Z_scope.

(** ** The producer *)

Record DataProducer (W : Type) := mkProducer { ProduceData : OBUData → M W (option error) }.
Arguments mkProducer {W}. Arguments ProduceData {W}.

Record KafkaMessage := mkKafkaMessage {
  km_Topic : string;
  km_Partition : Z;
  km_Key : string;
  km_Value : string
}.

Definition PartitionAny : Z := -1.

Definition newKafkaMessage (topic : string) (data : OBUData) (value : string) : KafkaMessage :=
  {| km_Topic := topic; km_Partition := PartitionAny;
     km_Key := Itoa (od_OBUID data); km_Value := value |}.

(** What the [select] of [ProduceData] receives. *)
Inductive Delivery :=
| CtxDone (e : error)                    (* ctx.Done(), with ctx.Err() *)
| Delivered (err : option error)         (* a *kafka.Message, with TopicPartition.Error *)
| OtherEvent (type : string).            (* any other event *)

Class ProducerEnv (E : Type) := {
  Produce : KafkaMessage → E → option error * E;
  AwaitDelivery : E → Delivery * E
}.

Definition m_kafkaAcknowledgementDuration : string :=
  "tollify_receiver_kafka_acknowledgement_duration_seconds".

Section Producer.
Context {E : Type} `{ProducerEnv E} `{JsonCodec}.

Definition KafkaProducer (topic : string) : DataProducer (Proc E) := {|
  ProduceData data :=
    match json_Marshal (JOBUData data) with
    | inr e => mret (Some e)
    | inl b =>
        start ← Now;
        err ← lift (Produce (newKafkaMessage topic data b));
        match err with
        | Some e => mret (Some e)
        | None =>
            event ← lift AwaitDelivery;
            match event with
            | CtxDone e => mret (Some e)
            | Delivered err =>
                took ← Since start;
                _ ← emit (Observe m_kafkaAcknowledgementDuration [] (Seconds took));
                mret err
            | OtherEvent t =>
                took ← Since start;
                _ ← emit (Observe m_kafkaAcknowledgementDuration [] (Seconds took));
                mret (Some (EText ("unexpected Kafka delivery event " +:+ t)))
            end
        end
    end
|}.
End Producer.

(** The log line is not modelled. *)
Definition NewLogMiddleware {W} (next : DataProducer W) : DataProducer W :=
  {| ProduceData data := ProduceData next data |}.

(** ** The connections *)

Class WSEnv (E : Type) := {
  Upgrade : Request → E → (Conn + error) * E;
  SetReadLimit : Conn → Z → E → () * E;
  SetReadDeadline : Conn → Instant → E → option error * E;
  WS_ReadMessage : Conn → E → (string + error) * E;      (* pongs are handled inside *)
  WriteClose : Conn → string → Instant → E → option error * E;
  Conn_Close : Conn → E → option error * E
}.

Definition m_activeWebSockets : string := "tollify_receiver_active_websocket_connections".
Definition m_receiverEvents : string := "tollify_receiver_events_received_total".
Definition m_receiverInvalidEvents : string := "tollify_receiver_invalid_events_total".
Definition m_kafkaEnqueueFailures : string := "tollify_receiver_kafka_enqueue_failures_total".

Definition readTimeout : Z := 30 * Second.

(** [WS_READ_LIMIT_BYTES], when it is a positive number. *)
Definition readLimit (value : string) : Z :=
  if bool_decide (value ≠ "") then
    match Atoi value with
    | Some parsed => if 0 <? parsed then parsed else Z.shiftl 1 20
    | None => Z.shiftl 1 20
    end
  else Z.shiftl 1 20.

Section Receiver.
Context {E : Type} `{WSEnv E} `{JsonCodec}.
(** The heap: [connections] and everything outside the process. *)
Abbreviation Receiver := (Proc (gset Conn * E)).
Context (prod : DataProducer Receiver) (limit : Z).

Definition on_world {A} (f : E → A * E) : M Receiver A := zoom snd (λ e s, (s.1, e)) (lift f).
Definition on_connections (f : gset Conn → gset Conn) : M Receiver () :=
  zoom fst (λ c s, (c, s.2)) (lift (λ c, ((), f c))).

(** The guard shared by the receiver and the consumer. *)
Definition invalid_data (data : OBUData) : bool :=
  bool_decide (od_EventID data = "") || (od_ProducedAtUnixNano data <=? 0)
  || (od_OBUID data <=? 0).

(** One message of [wsReceiveLoop]; [false] when the loop returns. *)
Definition wsReceive (conn : Conn) : M Receiver bool :=
  r ← on_world (WS_ReadMessage conn);
  match r with
  | inr _ => mret false
  | inl payload =>
      t ← Now;
      _ ← on_world (SetReadDeadline conn (Add t readTimeout));
      _ ← emit (Inc m_receiverEvents []);
      match json_Unmarshal_OBUData payload with
      | inr _ => _ ← emit (Inc m_receiverInvalidEvents []); mret true
      | inl data =>
          if invalid_data data then _ ← emit (Inc m_receiverInvalidEvents []); mret true
          else
            err ← ProduceData prod data;
            match err with
            | Some _ => _ ← emit (Inc m_kafkaEnqueueFailures []); mret true
            | None => mret true
            end
      end
  end.

(** At most [n] messages of the loop. *)
Fixpoint wsReceiveMessages (n : nat) (conn : Conn) : M Receiver () :=
  match n with
  | O => mret ()
  | S n => more ← wsReceive conn; if (more : bool) then wsReceiveMessages n conn else mret ()
  end.

Definition wsReceiveLoop (n : nat) (conn : Conn) : M Receiver () :=
  _ ← on_world (SetReadLimit conn limit);
  t ← Now;
  _ ← on_world (SetReadDeadline conn (Add t readTimeout));
  wsReceiveMessages n conn.

Definition handleWS (n : nat) (r : Request) : M Receiver () :=
  up ← on_world (Upgrade r);
  match up with
  | inr _ => mret ()
  | inl conn =>
      _ ← emit (Inc m_activeWebSockets []);
      _ ← on_connections (λ c, {[conn]} ∪ c);
      _ ← wsReceiveLoop n conn;
      _ ← on_connections (λ c, c ∖ {[conn]});
      _ ← on_world (Conn_Close conn);
      emit (Dec m_activeWebSockets [])
  end.

Fixpoint closeAll (conns : list Conn) : M Receiver () :=
  match conns with
  | [] => mret ()
  | conn :: conns =>
      t ← Now;
      _ ← on_world (WriteClose conn "server shutting down" (Add t Second));
      _ ← on_world (Conn_Close conn);
      closeAll conns
  end.

Definition closeConnections : M Receiver () := λ p, closeAll (elements (heap p).1) p.
End Receiver.

(** The producer stack of [NewDataReceiver], inside the receiver's process. *)
Definition NewDataReceiver {E} `{ProducerEnv E} `{JsonCodec} (topic : string)
    : DataProducer (Proc (gset Conn * E)) :=
  {| ProduceData data :=
       zoom snd (λ e s, (s.1, e)) (ProduceData (NewLogMiddleware (KafkaProducer topic)) data) |}.

(** ** The origin check *)

Definition parseOrigins (value : string) : gset string :=
  foldl (λ origins origin,
           let origin := TrimSpace origin in
           if bool_decide (origin ≠ "") then {[origin]} ∪ origins else origins)
        ∅ (Split "," value).

(** [url.Parse] (only the host is used) and [strings.EqualFold]. *)
Class UrlLib := {
  url_Parse_Host : string → option string;
  EqualFold : string → string → bool
}.

(** [origin] is the request's [Origin] header, empty when absent, [host] its [Host]. *)
Definition originAllowed `{UrlLib} (origin host : string) (allowed : gset string) : bool :=
  if bool_decide (origin = "") then true
  else if bool_decide ("*" ∈ allowed) then true
  else if bool_decide (origin ∈ allowed) then true
  else match url_Parse_Host origin with
       | Some parsed => EqualFold parsed host
       | None => false
       end.

Example origins_1 : parseOrigins "http://a, http://b ,," = {["http://a"; "http://b"]}.
Proof. apply (bool_decide_eq_true_1 _). by vm_compute. Qed.
