(* ===== verification/Forwarding.v ===== *)
(** * Forwarding: what the receiver promises the consumer

    The receiver of Receiver.v runs in an environment that also keeps the
    sequence of its reads and of its exchanges with Kafka ([RxEvent]).  In every
    environment the messages it hands to Kafka are exactly the accepted payloads,
    in order, each once; the consumer decodes them to the events the receiver
    accepted; and the counters account for every payload.  The origin check is
    stated in terms of the configured list. *)

From S2P Require Import Prelude Float64 GoLib Types Http Decimal Json GoJson Server Calculator Client Consumer Pipeline Receiver.
From Stdlib Require Import Ascii.

Local Open Scope Z_scope.

(** ** The traced environment *)

Inductive RxEvent :=
| RxRead (payload : string)
| RxReadError (e : error)
| RxProduce (m : KafkaMessage) (err : option error)
| RxDelivery (d : Delivery).

Section Traced.
Context {E : Type} `{!WSEnv E} `{!ProducerEnv E}.

Definition untraced {A} (f : E → A * E) (w : E * list RxEvent) : A * (E * list RxEvent) :=
  ((f w.1).1, ((f w.1).2, w.2)).
Definition traced {A} (ev : A → RxEvent) (f : E → A * E) (w : E * list RxEvent)
    : A * (E * list RxEvent) :=
  ((f w.1).1, ((f w.1).2, w.2 ++ [ev (f w.1).1])).

#[export] Instance traced_ws : WSEnv (E * list RxEvent) := {|
  Upgrade r := untraced (Upgrade r);
  SetReadLimit c z := untraced (SetReadLimit c z);
  SetReadDeadline c t := untraced (SetReadDeadline c t);
  WS_ReadMessage c :=
    traced (λ r, match r with inl s => RxRead s | inr e => RxReadError e end) (WS_ReadMessage c);
  WriteClose c s t := untraced (WriteClose c s t);
  Conn_Close c := untraced (Conn_Close c)
|}.

#[export] Instance traced_producer : ProducerEnv (E * list RxEvent) := {|
  Produce m := traced (RxProduce m) (Produce m);
  AwaitDelivery := traced RxDelivery AwaitDelivery
|}.
End Traced.

(** ** What a trace says *)

Definition read_of (ev : RxEvent) : option string :=
  match ev with RxRead s => Some s | _ => None end.
Definition produced_of (ev : RxEvent) : option KafkaMessage :=
  match ev with RxProduce m _ => Some m | _ => None end.
(** An exchange with Kafka that did not end in an acknowledgement. *)
Definition failed (ev : RxEvent) : bool :=
  match ev with
  | RxProduce _ (Some _) => true
  | RxDelivery (Delivered None) => false
  | RxDelivery _ => true
  | _ => false
  end.

Abbreviation reads := (omap read_of).
Abbreviation produced := (omap produced_of).
Definition failures (tr : list RxEvent) : nat := length (filter (λ ev, failed ev = true) tr).

#[local] Set Default Proof Using "Type*".

Section Forwarding.
Context `{JsonLaws}.

(** The event of a payload, when the receiver accepts it. *)
Definition accepted (payload : string) : option OBUData :=
  match json_Unmarshal_OBUData payload with
  | inl data => if invalid_data data then None else Some data
  | inr _ => None
  end.

Definition rejected (payloads : list string) : nat :=
  length (filter (λ s, accepted s = None) payloads).

(** The Kafka message as the consumer polls it. *)
Definition polled (part off : Z) (m : KafkaMessage) : Message :=
  mkMessage (Some (km_Topic m)) part off (km_Value m).

(** [m] carries [e]: any consumer decodes it to [e], and the key is the vehicle's. *)
Definition carries (m : KafkaMessage) (e : OBUData) : Prop :=
  km_Key m = Itoa (od_OBUID e) ∧ ∀ part off, usable (polled part off m) = Some e.

Lemma accepted_marshal payload e :
  accepted payload = Some e →
  ∃ b, json_Marshal (JOBUData e) = inl b ∧ json_Unmarshal_OBUData b = inl e ∧ invalid_event e = false.
Proof.
  unfold accepted. destruct (json_Unmarshal_OBUData payload) as [d|] eqn:Hd; [|done].
  destruct (invalid_data d) eqn:Hi; [done|]. intros [= ->].
  pose proof (json_Unmarshal_decodable _ _ Hd) as Hok.
  destruct (json_Marshal_finite (JOBUData e)) as [b Hb].
  { unfold decodable in Hok. b2p. done. }
  exists b. split_and!; [done|by apply json_OBUData_roundtrip|done].
Qed.

Lemma new_message_carries topic e b :
  json_Unmarshal_OBUData b = inl e → invalid_event e = false →
  carries (newKafkaMessage topic e b) e.
Proof.
  intros Hb Hi. split; [done|]. intros part off. unfold usable, polled. simpl. by rewrite Hb, Hi.
Qed.
End Forwarding.

(** Calls that leave the gauge of open sockets alone. *)
Definition quiet (op : MetricOp) : bool :=
  negb (bool_decide (op = Inc m_activeWebSockets []))
  && negb (bool_decide (op = Dec m_activeWebSockets [])).

Lemma gauge_quiet {S} (p p' : Proc S) ops :
  metrics p' = metrics p ++ ops → forallb quiet ops = true →
  gauge m_activeWebSockets [] p' = gauge m_activeWebSockets [] p.
Proof.
  unfold gauge. intros ->. rewrite foldl_app. generalize (foldl (λ z op,
    if bool_decide (op = Inc m_activeWebSockets []) then z + 1
    else if bool_decide (op = Dec m_activeWebSockets []) then z - 1 else z) 0 (metrics p)).
  induction ops as [|op ops IH]; intros z Hq; simpl in *; [done|].
  apply andb_true_iff in Hq as [Hop Hq].
  assert (op ≠ Inc m_activeWebSockets [] ∧ op ≠ Dec m_activeWebSockets []) as [Hi Hd].
  { unfold quiet in *. by b2p. }
  rewrite (bool_decide_eq_false_2 _ Hi), (bool_decide_eq_false_2 _ Hd). by apply IH.
Qed.

(** ** Accounting *)

Section Accounts.
Context {E : Type} `{!WSEnv E} `{!ProducerEnv E} `{JsonLaws}.
Context (topic : string) (limit : Z).
Abbreviation P := (Proc (gset Conn * (E * list RxEvent))).

(** From [p] to [p'] the trace grew by [tr]: the connections are the same, what
    was handed to Kafka carries the accepted payloads in order, and the
    counters account for every read and every failed exchange. *)
Record accounts (tr : list RxEvent) (p p' : P) : Prop := {
  acc_trace : (heap p').2.2 = (heap p).2.2 ++ tr;
  acc_conns : (heap p').1 = (heap p).1;
  acc_carried : Forall2 carries (produced tr) (omap accepted (reads tr));
  acc_topic : Forall (λ m, km_Topic m = topic) (produced tr);
  acc_events : counter m_receiverEvents [] p' =
    (counter m_receiverEvents [] p + length (reads tr))%nat;
  acc_invalid : counter m_receiverInvalidEvents [] p' =
    (counter m_receiverInvalidEvents [] p + rejected (reads tr))%nat;
  acc_failures : counter m_kafkaEnqueueFailures [] p' =
    (counter m_kafkaEnqueueFailures [] p + failures tr)%nat;
  acc_active : gauge m_activeWebSockets [] p' = gauge m_activeWebSockets [] p
}.

Lemma accounts_refl p : accounts [] p p.
Proof.
  constructor; try done; rewrite ?app_nil_r, ?Nat.add_0_r; constructor.
Qed.

Lemma accounts_trans tr tr' p p' p'' :
  accounts tr p p' → accounts tr' p' p'' → accounts (tr ++ tr') p p''.
Proof.
  intros [H1 H2 H3 H4 H5 H6 H7 H8] [K1 K2 K3 K4 K5 K6 K7 K8].
  constructor; rewrite ?omap_app.
  - by rewrite K1, H1, app_assoc.
  - by rewrite K2.
  - by apply Forall2_app.
  - by apply Forall_app.
  - rewrite K5, H5, length_app. lia.
  - unfold rejected in *. rewrite K6, H6, filter_app, length_app. lia.
  - unfold failures in *. rewrite K7, H7, filter_app, length_app. lia.
  - by rewrite K8.
Qed.

(** [accounts] from the calls made on the metrics. *)
Lemma accounts_intro tr ops p p' :
  (heap p').2.2 = (heap p).2.2 ++ tr → (heap p').1 = (heap p).1 →
  metrics p' = metrics p ++ ops →
  Forall2 carries (produced tr) (omap accepted (reads tr)) →
  Forall (λ m, km_Topic m = topic) (produced tr) →
  incs m_receiverEvents ops = length (reads tr) →
  incs m_receiverInvalidEvents ops = rejected (reads tr) →
  incs m_kafkaEnqueueFailures ops = failures tr →
  forallb quiet ops = true →
  accounts tr p p'.
Proof.
  intros Ht Hc Hm Hca Hto H1 H2 H3 Ha. constructor; try done.
  - by rewrite (counter_incs _ p p' ops), H1.
  - by rewrite (counter_incs _ p p' ops), H2.
  - by rewrite (counter_incs _ p p' ops), H3.
  - by apply (gauge_quiet _ _ ops).
Qed.

(** How one message ends: read and dealt with, or the read failed. *)
Definition one_message (tr : list RxEvent) (more : bool) : Prop :=
  if more then length (reads tr) = 1%nat else ∃ err, tr = [RxReadError err].

Ltac account tr ops :=
  exists tr; split;
  [apply (accounts_intro tr ops)|simpl; rewrite ?M_bind_eq; simpl; by eauto];
  [simpl; by rewrite <-?app_assoc|done|simpl; by rewrite ?app_nil_r, <-?app_assoc|simpl..
  |done].

Lemma rejected_1 payload :
  rejected [payload] = match accepted payload with Some _ => 0%nat | None => 1%nat end.
Proof. unfold rejected. rewrite filter_cons. by destruct (accepted payload). Qed.

Lemma accepted_inv payload d :
  accepted payload = Some d → json_Unmarshal_OBUData payload = inl d ∧ invalid_data d = false.
Proof.
  unfold accepted. destruct (json_Unmarshal_OBUData payload) as [d'|]; [|done].
  destruct (invalid_data d') eqn:Hi; [done|]. by intros [= ->].
Qed.

Definition acknowledged (clk : nat → Instant) (t : nat) : MetricOp :=
  Observe m_kafkaAcknowledgementDuration []
    (Seconds (Sub (mono (clk (t + 1 + 1)%nat) - mono (clk (t + 1)%nat)))).

Ltac exchange Ha :=
  rewrite ?rejected_1, ?Ha; simpl; first [done | by constructor | constructor; [done|by constructor]].

(** An accepted payload: the exchange with Kafka. *)
Lemma produce_accounts conn payload d b e1 c e l ms clk t :
  accepted payload = Some d → json_Marshal (JOBUData d) = inl b →
  carries (newKafkaMessage topic d b) d →
  WS_ReadMessage conn e = (inl payload, e1) →
  let p := mkProc (c, (e, l)) ms clk t in
  let r := wsReceive (NewDataReceiver topic) conn p in
  ∃ tr, accounts tr p r.2 ∧ one_message tr r.1.
Proof.
  intros Ha Hb Hc Hr p r. subst r. destruct (accepted_inv _ _ Ha) as [Hu Hi].
  unfold wsReceive. rewrite M_bind_eq. simpl. rewrite Hr. simpl. rewrite Hu, Hi, Hb.
  unfold on_world, zoom, lift, untraced, traced, Since. repeat (rewrite M_bind_eq; simpl).
  destruct (Produce _ _) as [[perr|] e2] eqn:Hp.
  - account [RxRead payload; RxProduce (newKafkaMessage topic d b) (Some perr)]
      [Inc m_receiverEvents []; Inc m_kafkaEnqueueFailures []]; exchange Ha.
  - repeat (rewrite M_bind_eq; simpl).
    destruct (AwaitDelivery e2) as [[cerr|[derr|]|ty] e3] eqn:Hd;
      do 6 (rewrite ?M_bind_eq; simpl; rewrite ?Hd; simpl).
    + account [RxRead payload; RxProduce (newKafkaMessage topic d b) None; RxDelivery (CtxDone cerr)]
        [Inc m_receiverEvents []; Inc m_kafkaEnqueueFailures []]; exchange Ha.
    + account [RxRead payload; RxProduce (newKafkaMessage topic d b) None;
               RxDelivery (Delivered (Some derr))]
        [Inc m_receiverEvents []; acknowledged clk t; Inc m_kafkaEnqueueFailures []]; exchange Ha.
    + account [RxRead payload; RxProduce (newKafkaMessage topic d b) None;
               RxDelivery (Delivered None)]
        [Inc m_receiverEvents []; acknowledged clk t]; exchange Ha.
    + account [RxRead payload; RxProduce (newKafkaMessage topic d b) None; RxDelivery (OtherEvent ty)]
        [Inc m_receiverEvents []; acknowledged clk t; Inc m_kafkaEnqueueFailures []]; exchange Ha.
Qed.

(** One message of the loop: what it reads and what it hands to Kafka. *)
Lemma wsReceive_accounts conn p :
  let r := wsReceive (NewDataReceiver topic) conn p in
  ∃ tr, accounts tr p r.2 ∧ one_message tr r.1.
Proof.
  intros r. subst r. destruct p as [[c [e l]] ms clk t].
  destruct (WS_ReadMessage conn e) as [[payload|err] e1] eqn:Hr.
  - destruct (accepted payload) as [d|] eqn:Ha.
    + destruct (accepted_marshal _ _ Ha) as (b & Hb & Hu & Hi).
      eapply produce_accounts; eauto using new_message_carries.
    + unfold wsReceive. rewrite M_bind_eq. simpl. rewrite Hr. simpl.
      unfold accepted in Ha. destruct (json_Unmarshal_OBUData payload) as [d|] eqn:Hu.
      1: destruct (invalid_data d) eqn:Hi; [|done].
      all: account [RxRead payload] [Inc m_receiverEvents []; Inc m_receiverInvalidEvents []];
        rewrite ?rejected_1; unfold accepted; rewrite ?Hu, ?Hi; first [done | by constructor].
  - unfold wsReceive. rewrite M_bind_eq. simpl. rewrite Hr.
    account [RxReadError err] (@nil MetricOp); first [done | by constructor].
Qed.

(** The loop, for any number of messages: it ends with a failed read. *)
Lemma wsReceiveMessages_accounts n conn p :
  ∃ tr, accounts tr p (wsReceiveMessages (NewDataReceiver topic) n conn p).2 ∧
    (length (reads tr) = n ∨ ∃ tr' err, tr = tr' ++ [RxReadError err] ∧ (length (reads tr') < n)%nat).
Proof.
  revert p. induction n as [|n IH]; intros p; [exists []; auto using accounts_refl|].
  simpl. rewrite M_bind_eq. destruct (wsReceive_accounts conn p) as (tr & Htr & Hone).
  destruct (wsReceive _ conn p) as [[] p1]; simpl in *.
  - destruct (IH p1) as (tr' & Htr' & Hend). exists (tr ++ tr').
    split; [by eapply accounts_trans|]. rewrite omap_app, length_app, Hone.
    destruct Hend as [->|(tr2 & err & -> & Hlen)]; [by left|right].
    exists (tr ++ tr2), err. by rewrite <-app_assoc, omap_app, length_app, Hone; split; [|lia].
  - destruct Hone as [err ->]. exists [RxReadError err]. split; [done|]. right.
    exists [], err. split; [done|simpl; lia].
Qed.

Lemma wsReceiveLoop_accounts n conn p :
  ∃ tr, accounts tr p (wsReceiveLoop (NewDataReceiver topic) limit n conn p).2 ∧
    (length (reads tr) = n ∨ ∃ tr' err, tr = tr' ++ [RxReadError err] ∧ (length (reads tr') < n)%nat).
Proof.
  destruct p as [[c [e l]] ms clk t].
  unfold wsReceiveLoop. rewrite M_bind_eq. simpl. rewrite M_bind_eq. simpl. rewrite M_bind_eq. simpl.
  set (p1 := mkProc (c, (_, l)) ms clk (t + 1)%nat).
  destruct (wsReceiveMessages_accounts n conn p1) as (tr & [] & Hend).
  exists tr. split; [|done]. by constructor.
Qed.
End Accounts.

(** ** The partition the consumer reads *)

(** The messages of one partition, with their offsets. *)
Definition partition_log (part : Z) (ms : list KafkaMessage) : list Message :=
  imap (λ i m, polled part (Z.of_nat i) m) ms.

Section Log.
Context `{JsonLaws}.

Lemma partition_log_usable part ms es :
  Forall2 carries ms es → omap usable (partition_log part ms) = es.
Proof.
  unfold partition_log. intros Hms.
  assert (∀ k, omap usable (imap (λ i m, polled part (Z.of_nat (k + i)) m) ms) = es) as Hk;
    [|by apply (Hk 0%nat)].
  induction Hms as [|m e ms es [_ Hm] _ IH]; intros k; simpl; [done|].
  rewrite Hm. f_equal. rewrite <- (IH (S k)). f_equal. apply imap_ext. intros i x _. simpl.
  f_equal. lia.
Qed.

Lemma partition_log_bills part ms es :
  Forall2 carries ms es → ideal_bills (partition_log part ms) = bills es NewCalcService.
Proof. intros Hms. unfold ideal_bills. by rewrite (partition_log_usable part ms es). Qed.
End Log.

(** ** The connection handler *)

Section Handler.
Context {E : Type} `{!WSEnv E} `{!ProducerEnv E} `{JsonLaws}.

(** The trace of a connection whose upgrade succeeds. *)
Lemma handleWS_carries (topic : string) (limit : Z) (n : nat) (r : Request)
    (p : Proc (gset Conn * (E * list RxEvent))) (conn : Conn) :
  (Upgrade r (heap p).2.1).1 = inl conn →
  ∃ tr, (heap (exec (handleWS (NewDataReceiver topic) limit n r) p)).2.2 = (heap p).2.2 ++ tr ∧
    Forall2 carries (produced tr) (omap accepted (reads tr)).
Proof.
  destruct p as [[c [e l]] ms clk t]. unfold exec, handleWS. rewrite M_bind_eq. simpl.
  destruct (Upgrade r e) as [[conn'|err] e1]; simpl; [|done]. intros [= ->].
  repeat (rewrite M_bind_eq; simpl). set (p1 := mkProc _ _ _ _ : Proc (gset Conn * (E * list RxEvent))).
  destruct (wsReceiveLoop_accounts topic limit n conn p1) as (tr & [Htr _ Hca _ _ _ _ _] & _).
  destruct (wsReceiveLoop _ limit n conn p1) as [[] p2]. by exists tr.
Qed.

(** C10. The receiver forwards exactly what it accepts.  A connection whose upgrade
    fails leaves no trace.  Otherwise, whatever the socket delivers and Kafka
    answers: the payloads accepted (decodable, with an event id, a positive
    production time and a positive vehicle number) are handed to Kafka in order
    and once each, under the configured topic and the vehicle's key, as messages
    that the consumer decodes to the very same events, so the fault-free pass
    over them bills exactly the accepted payloads; every payload is counted,
    every rejected one as invalid and every exchange that Kafka did not
    acknowledge as a failure; the handler ends at the first failed read, and
    then the connection is no longer open and the gauge is back. *)
Theorem receiver_forwards (topic : string) (limit : Z) (n : nat) (r : Request)
    (p : Proc (gset Conn * (E * list RxEvent))) :
  let p' := exec (handleWS (NewDataReceiver topic) limit n r) p in
  match (Upgrade r (heap p).2.1).1 with
  | inr _ => metrics p' = metrics p ∧ (heap p').1 = (heap p).1 ∧ (heap p').2.2 = (heap p).2.2
  | inl conn =>
      ∃ tr, (heap p').2.2 = (heap p).2.2 ++ tr ∧
        Forall2 carries (produced tr) (omap accepted (reads tr)) ∧
        Forall (λ m, km_Topic m = topic) (produced tr) ∧
        (∀ part, ideal_bills (partition_log part (produced tr)) =
                 bills (omap accepted (reads tr)) NewCalcService) ∧
        counter m_receiverEvents [] p' =
          (counter m_receiverEvents [] p + length (reads tr))%nat ∧
        counter m_receiverInvalidEvents [] p' =
          (counter m_receiverInvalidEvents [] p + rejected (reads tr))%nat ∧
        counter m_kafkaEnqueueFailures [] p' =
          (counter m_kafkaEnqueueFailures [] p + failures tr)%nat ∧
        (length (reads tr) = n ∨
         ∃ tr' err, tr = tr' ++ [RxReadError err] ∧ (length (reads tr') < n)%nat) ∧
        (heap p').1 = (heap p).1 ∖ {[conn]} ∧
        gauge m_activeWebSockets [] p' = gauge m_activeWebSockets [] p
  end.
Proof.
  destruct p as [[c [e l]] ms clk t]. unfold exec, handleWS. rewrite M_bind_eq. simpl.
  destruct (Upgrade r e) as [[conn|err] e1]; simpl; [|done].
  repeat (rewrite M_bind_eq; simpl).
  set (p1 := mkProc _ _ _ _ : Proc (gset Conn * (E * list RxEvent))).
  destruct (wsReceiveLoop_accounts topic limit n conn p1) as (tr & Hacc & Hend).
  destruct (wsReceiveLoop _ limit n conn p1) as [[] p2]. simpl in *.
  destruct Hacc as [Htr Hc Hca Hto He Hi Hf Hg]. exists tr.
  set (p3 := mkProc _ _ _ _ : Proc (gset Conn * (E * list RxEvent))).
  assert (∀ name, incs name [Inc m_activeWebSockets []] = 0%nat → incs name [Dec m_activeWebSockets []] = 0%nat →
    counter name [] p3 = counter name [] p2 ∧
    counter name [] p1 = counter name [] (mkProc (c, (e, l)) ms clk t)) as Hcount.
  { intros name H1 H2. rewrite (counter_incs name p2 p3 [Dec m_activeWebSockets []]) by done.
    rewrite (counter_incs name (mkProc (c, (e, l)) ms clk t) p1 [Inc m_activeWebSockets []]) by done.
    rewrite H1, H2. lia. }
  destruct (Hcount m_receiverEvents) as [-> <-]; [done..|].
  destruct (Hcount m_receiverInvalidEvents) as [-> <-]; [done..|].
  destruct (Hcount m_kafkaEnqueueFailures) as [-> <-]; [done..|].
  split_and!; try done.
  - intros part. by apply partition_log_bills.
  - rewrite Hc. simpl. set_solver.
  - assert (gauge m_activeWebSockets [] p3 = gauge m_activeWebSockets [] p2 - 1) as ->.
    { apply (gauge_emit m_activeWebSockets [] (Dec m_activeWebSockets []) p2). }
    rewrite Hg.
    pose proof (gauge_emit m_activeWebSockets [] (Inc m_activeWebSockets [])
      (mkProc (c, (e, l)) ms clk t)) as Hup. simpl in Hup.
    change (gauge m_activeWebSockets [] p1 = gauge m_activeWebSockets [] (mkProc (c, (e, l)) ms clk t) + 1) in Hup.
    lia.
Qed.
End Handler.

(** ** The origin check *)

Lemma parseOrigins_spec value o :
  o ∈ parseOrigins value ↔ o ≠ "" ∧ ∃ piece, piece ∈ Split "," value ∧ TrimSpace piece = o.
Proof.
  unfold parseOrigins.
  assert (∀ l (s : gset string), o ∈ foldl (λ origins origin,
    let origin := TrimSpace origin in
    if bool_decide (origin ≠ "") then {[origin]} ∪ origins else origins) s l ↔
    o ∈ s ∨ o ≠ "" ∧ ∃ piece, piece ∈ l ∧ TrimSpace piece = o) as Hfold.
  { induction l as [|x l IH]; intros s; simpl; [set_solver|]. rewrite IH. clear IH.
    case_bool_decide as Hx; set_solver. }
  rewrite Hfold. set_solver.
Qed.

(** Which browsers may open a socket: with the configured list [value], a
    request is allowed exactly when it has no Origin header, or the list has
    [*] or that very origin (between commas, white space trimmed), or the
    origin parses as a URL whose host is the request's host up to case. *)
Theorem origin_allowed_correct `{UrlLib} (value origin host : string) :
  originAllowed origin host (parseOrigins value) = true ↔
    origin = "" ∨
    (∃ piece, piece ∈ Split "," value ∧ (TrimSpace piece = "*" ∨ TrimSpace piece = origin)) ∨
    (∃ parsed, url_Parse_Host origin = Some parsed ∧ EqualFold parsed host = true).
Proof.
  unfold originAllowed. case_bool_decide as He; [naive_solver|].
  case_bool_decide as Hs; [apply parseOrigins_spec in Hs; naive_solver|].
  case_bool_decide as Ho; [apply parseOrigins_spec in Ho; naive_solver|].
  rewrite parseOrigins_spec in Hs, Ho. destruct (url_Parse_Host origin) as [parsed|]; naive_solver.
Qed.

(** ** A concrete receiver *)

(** A socket with the given input, and a broker that answers in the given way. *)
Record Scripted := mkScripted {
  sc_input : list string;
  sc_answers : list (option error * Delivery)
}.

#[local] Instance scripted_ws : WSEnv Scripted := {|
  Upgrade r s := (inl 0%nat, s);
  SetReadLimit c z s := ((), s);
  SetReadDeadline c t s := (None, s);
  WS_ReadMessage c s :=
    match sc_input s with
    | x :: l => (inl x, mkScripted l (sc_answers s))
    | [] => (inr (EText "websocket: close 1000 (normal)"), s)
    end;
  WriteClose c x t s := (None, s);
  Conn_Close c s := (None, s)
|}.

#[local] Instance scripted_producer : ProducerEnv Scripted := {|
  Produce m s := (from_option fst None (head (sc_answers s)), s);
  AwaitDelivery s :=
    (from_option snd (Delivered None) (head (sc_answers s)), mkScripted (sc_input s) (tail (sc_answers s)))
|}.

Definition rx_event (id : string) (obu : Z) : OBUData :=
  mkOBUData id 1 obu (f_of_Z 1) (f_of_Z 2) "".
Definition rx_payload (e : OBUData) : string := encoded (JOBUData e).

(** A good event, text that is not one, an event of vehicle 0, and an event that
    Kafka does not acknowledge. *)
Definition rx_test : Proc (gset Conn * (Scripted * list RxEvent)) :=
  mkProc (∅, (mkScripted [rx_payload (rx_event "a" 7); "?"; rx_payload (rx_event "b" 0);
                          rx_payload (rx_event "c" 8)]
                [(None, Delivered None); (None, CtxDone (ESentinel DeadlineExceeded))], []))
    [] (λ n, mkInstant (Z.of_nat n) (Z.of_nat n)) 0.

Lemma receiver_forwards_witness :
  let p' := exec (handleWS (H0:=test_codec) (NewDataReceiver (H0:=test_codec) "obudata") 1048576 9
                    (mkRequest "GET" "/ws" "" "")) rx_test in
  (∃ tr, (heap p').2.2 = (heap rx_test).2.2 ++ tr ∧
     Forall2 (carries (H:=test_codec)) (produced tr) (omap (accepted (H:=test_codec)) (reads tr))) ∧
  km_Key <$> produced (heap p').2.2 = ["7"; "8"] ∧
  counter m_receiverEvents [] p' = 4%nat ∧ counter m_receiverInvalidEvents [] p' = 2%nat ∧
  counter m_kafkaEnqueueFailures [] p' = 1%nat ∧ (heap p').1 = ∅.
Proof.
  intros p'. split.
  - pose proof (receiver_forwards (H:=test_codec) (H0:=test_laws) "obudata" 1048576 9
      (mkRequest "GET" "/ws" "" "") rx_test) as Hrx.
    fold p' in Hrx. destruct Hrx as (tr & Htr & Hca & _). exists tr. split; [exact Htr|exact Hca].
  - by vm_compute.
Defined.
