(* ===== verification/Benchmark.v ===== *)
(** * Benchmark: the benchmark program (src/benchmark/main.go)

    The configuration check, the events of a pipeline load and their way to the
    ten sockets, histograms and percentiles.  Sockets are the environment
    [BenchEnv].  The transport benchmark is in BenchTransport.v; scraping, waiting
    and the report are in BenchPipeline.v. *)

From stdpp Require Import sorting.
From S2P Require Import Prelude Float64 GoLib Types Receiver.
From Stdlib Require Import Ascii.

Local Open Scope Z_scope.

(** ** Configuration *)

Record config := mkConfig {
  cfg_requests : Z;
  cfg_concurrency : Z;
  cfg_duration : Z;
  cfg_loads : list Z;
  cfg_report : string
}.

Section Config.
Context `{TextLib}.

Fixpoint parse_loads (texts : list string) : list Z + error :=
  match texts with
  | [] => inl []
  | text :: texts =>
      match Atoi (TrimSpace text) with
      | Some load =>
          if load <=? 0 then inr (EText ("invalid pipeline load " +:+ Quote text))
          else match parse_loads texts with
               | inl loads => inl (load :: loads)
               | inr e => inr e
               end
      | None => inr (EText ("invalid pipeline load " +:+ Quote text))
      end
  end.

(** [parseConfig] after [flag.Parse]: the arguments are the values of the flags. *)
Definition parseConfig (requests concurrency duration : Z) (loads report : string)
    : config + error :=
  if (requests <? 100) || (concurrency <? 1) || (duration <=? 0)
  then inr (EText "requests must be at least 100; concurrency and duration must be positive")
  else match parse_loads (Split "," loads) with
       | inl loads => inl (mkConfig requests concurrency duration loads report)
       | inr e => inr e
       end.
End Config.

(** ** Percentiles and histograms *)

Definition quantile_95 : float64 := f_of_ratio 95 100.
Definition quantile_99 : float64 := f_of_ratio 99 100.

(** [int(math.Ceil(quantile * float64(n)))] *)
Definition quantile_rank (cvt : float64 → Z) (quantile : float64) (n : nat) : Z :=
  int64_of_float cvt (math_Ceil (fmul quantile (f_of_Z (Z.of_nat n)))).

(** [None]: the index is out of range and the program panics. *)
Definition percentile (cvt : float64 → Z) (values : list Z) (quantile : float64) : option Z :=
  let values := merge_sort Z.le values in
  let i := quantile_rank cvt quantile (length values) - 1 in
  if i <? 0 then None else values !! Z.to_nat i.

(** The bounds are the ones Prometheus prints: no NaN and no negative zero, so
    that two keys are equal as Go keys exactly when they are the same float. *)
Abbreviation histogram := (gmap float64 Z) (only parsing).

(** Iterating over a map: a bucket that shrank makes the result an error whatever
    the order of the iteration. *)
Definition subtractHistogram (after before : histogram) : histogram + error :=
  map_fold (λ bound count r,
              match r with
              | inr e => inr e
              | inl delta =>
                  if count <? default 0 (before !! bound)
                  then inr (EText "pipeline histogram reset during benchmark")
                  else inl (<[bound := wrapU 64 (count - default 0 (before !! bound))]> delta)
              end) (inl ∅) after.

(** The loop over the sorted bounds. *)
Fixpoint quantile_loop (values : histogram) (rank : float64) (bounds : list float64)
    (previousBound previousCount : float64) : float64 :=
  match bounds with
  | [] => fzero
  | bound :: bounds =>
      let count := f_of_Z (default 0 (values !! bound)) in
      if fleb rank count then
        if bool_decide (bound = S754_infinity false) then previousBound
        else fadd previousBound
               (fdiv (fmul (fsub bound previousBound) (fsub rank previousCount))
                     (fsub count previousCount))
      else quantile_loop values rank bounds bound count
  end.

Definition histogramQuantile (values : histogram) (quantile : float64) : float64 :=
  let bounds := merge_sort (λ x y, Is_true (fleb x y)) (map_to_list values).*1 in
  let rank := fmul quantile (f_of_Z (default 0 (values !! S754_infinity false))) in
  quantile_loop values rank bounds fzero fzero.

(** ** The pipeline load *)

Class BenchEnv (E : Type) := {
  Dial : E → (Conn + error) * E;
  SetWriteDeadline : Conn → Instant → E → option error * E;
  WriteJSON : Conn → OBUData → E → option error * E;
  WS_Close : Conn → E → option error * E
}.

Definition connections : nat := 10.

Definition load_id (label : string) (runID i : Z) : string :=
  label +:+ "-" +:+ Itoa runID +:+ "-" +:+ Itoa i.

Definition load_event (label : string) (runID now : Z) (i : nat) : OBUData := {|
  od_EventID := load_id label runID (Z.of_nat i);
  od_ProducedAtUnixNano := now;
  od_OBUID := Z.of_nat i mod 100 + 1;
  od_Lat := f_of_Z (Z.of_nat i mod 90);
  od_Lon := f_of_Z (Z.of_nat i * 7 mod 180);
  od_Payload := ""
|}.

Section Load.
Context {E : Type} `{BenchEnv E}.

Fixpoint dial_all (n : nat) (websockets : list Conn) : M (Proc E) (list Conn * option error) :=
  match n with
  | O => mret (websockets, None)
  | S n =>
      r ← lift Dial;
      match r with
      | inr e => mret (websockets, Some e)
      | inl conn => dial_all n (websockets ++ [conn])
      end
  end.

Fixpoint close_all (websockets : list Conn) : M (Proc E) () :=
  match websockets with
  | [] => mret ()
  | conn :: websockets => _ ← lift (WS_Close conn); close_all websockets
  end.

(** The loop from event [i] on, [n] events left: the number of the event that
    could not be written.  [time.Until] reads the clock; sleeping has no effect. *)
Fixpoint send_events (label : string) (runID : Z) (websockets : list Conn) (n i : nat)
    : M (Proc E) (option (nat * error)) :=
  match n with
  | O => mret None
  | S n =>
      _ ← Now;
      now ← Now;
      let event := load_event label runID (wall now) i in
      match websockets !! (i mod connections)%nat with
      | None => mret (Some (i, EText "index out of range"))
      | Some conn =>
          t ← Now;
          _ ← lift (SetWriteDeadline conn (Add t (5 * Second)));
          err ← lift (WriteJSON conn event);
          match err with
          | Some e => mret (Some (i, e))
          | None => send_events label runID websockets n (S i)
          end
      end
  end.

(** [int(math.Round(float64(rate) * duration.Seconds()))] *)
Definition load_total (cvt : float64 → Z) (rate duration : Z) : Z :=
  int64_of_float cvt (math_Round (fmul (f_of_Z rate) (Seconds duration))).

Definition sendPipelineLoad (cvt : float64 → Z) (rate duration : Z) (label : string)
    : M (Proc E) (Z * option error) :=
  '(websockets, err) ← dial_all connections [];
  match err with
  | Some e => _ ← close_all websockets; mret (0, Some e)
  | None =>
      let total := load_total cvt rate duration in
      run ← Now;
      start ← Now;
      stopped ← send_events label (wall run) websockets (Z.to_nat total) 0;
      r ← match stopped with
          | Some (i, e) => mret (Z.of_nat i, Some e)
          | None =>
              elapsed ← Since start;
              mret (wrapU 64 total,
                    if wrapS 64 (duration + Second) <? elapsed
                    then Some (EText ("sender needed " +:+ Duration_String (Round elapsed Millisecond)
                           +:+ " for a " +:+ Duration_String duration +:+ " window")) else None)
          end;
      _ ← close_all websockets;
      mret r
  end.
End Load.

(** ** Sorting and ranks *)

(** How many values are at most [v], and less than [v]. *)
Definition at_most (v : Z) (l : list Z) : nat := length (filter (λ x, x ≤ v) l).
Definition below (v : Z) (l : list Z) : nat := length (filter (λ x, x < v) l).

Lemma sorted_rank l i v :
  StronglySorted Z.le l → l !! i = Some v → (below v l ≤ i)%nat ∧ (i < at_most v l)%nat.
Proof.
  intros Hl. revert i. induction Hl as [|x l Hl IH Hx]; intros [|i] Hi; try done; simpl in Hi.
  - injection Hi as ->. unfold below, at_most. rewrite !filter_cons.
    rewrite decide_False, decide_True by lia. simpl. split; [|lia].
    replace (filter (λ x, x < v) l) with (@nil Z); [simpl; lia|].
    clear IH Hl. induction Hx as [|y l Hy _ IH]; [done|]. by rewrite filter_cons_False by lia.
  - destruct (IH i Hi) as [H1 H2]. rewrite Forall_forall in Hx.
    pose proof (Hx v (list_elem_of_lookup_2 _ _ _ Hi)). unfold below, at_most in *.
    rewrite !filter_cons. rewrite (decide_True (P := x ≤ v)) by done. simpl. case_decide; simpl; lia.
Qed.

Lemma at_most_Permutation v l l' : l ≡ₚ l' → at_most v l = at_most v l'.
Proof. unfold at_most. by intros ->. Qed.
Lemma below_Permutation v l l' : l ≡ₚ l' → below v l = below v l'.
Proof. unfold below. by intros ->. Qed.

(** Sorting, then indexing, gives the value of that rank of the unsorted list. *)
Lemma percentile_rank cvt values q k :
  quantile_rank cvt q (length values) = Z.of_nat k → (1 ≤ k ≤ length values)%nat →
  ∃ v, percentile cvt values q = Some v ∧ v ∈ values ∧
    (below v values < k)%nat ∧ (k ≤ at_most v values)%nat.
Proof.
  intros Hq Hk. unfold percentile. cbv zeta.
  pose proof (merge_sort_Permutation Z.le values) as Hp.
  rewrite (Permutation_length Hp), Hq.
  destruct (Z.ltb_spec (Z.of_nat k - 1) 0); [lia|].
  replace (Z.to_nat (Z.of_nat k - 1)) with (k - 1)%nat by lia.
  destruct (lookup_lt_is_Some_2 (merge_sort Z.le values) (k - 1)) as [v Hv].
  { rewrite (Permutation_length Hp). lia. }
  exists v. split; [done|].
  destruct (sorted_rank _ _ _ (StronglySorted_merge_sort Z.le values) Hv) as [H1 H2].
  rewrite (below_Permutation _ _ _ Hp) in H1. rewrite (at_most_Permutation _ _ _ Hp) in H2.
  split; [|lia]. rewrite <- Hp. by eapply list_elem_of_lookup_2.
Qed.

(** The rank in floating point is the exact one, up to [n] values. *)
Definition exact_rank (num : Z) (n : nat) : Z := - ((- (num * Z.of_nat n)) / 100).
Definition ranks_exact (cvt : float64 → Z) (quantile : float64) (num : Z) (n : nat) : bool :=
  forallb (λ i, quantile_rank cvt quantile i =? exact_rank num i) (seq 1 n).

Lemma ranks_95 cvt : ranks_exact cvt quantile_95 95 5000 = true.
Proof. by vm_compute. Qed.
Lemma ranks_99 cvt : ranks_exact cvt quantile_99 99 5000 = true.
Proof. by vm_compute. Qed.

Lemma ranks_exact_at cvt q num n i :
  ranks_exact cvt q num n = true → (1 ≤ i ≤ n)%nat → quantile_rank cvt q i = exact_rank num i.
Proof.
  unfold ranks_exact. rewrite forallb_forall. intros H Hi. apply Z.eqb_eq, H.
  apply in_seq. lia.
Qed.

Lemma exact_rank_bounds num n :
  1 ≤ num ≤ 100 → (1 ≤ n)%nat →
  1 ≤ exact_rank num n ≤ Z.of_nat n ∧
  num * Z.of_nat n ≤ 100 * exact_rank num n < num * Z.of_nat n + 100.
Proof.
  intros Hnum Hn. unfold exact_rank.
  pose proof (Z.div_mod (- (num * Z.of_nat n)) 100 ltac:(lia)).
  pose proof (Z.mod_pos_bound (- (num * Z.of_nat n)) 100 ltac:(lia)).
  split; [|lia]. nia.
Qed.

(** ** Sent events *)

#[local] Arguments Nat.modulo : simpl never.

(** [v] is the [num]-th percentile of [values], in the sense of nearest rank. *)
Definition nearest_rank (num v : Z) (values : list Z) : Prop :=
  v ∈ values ∧
  100 * Z.of_nat (below v values) < num * Z.of_nat (length values) ∧
  num * Z.of_nat (length values) ≤ 100 * Z.of_nat (at_most v values).

Lemma percentile_nearest (cvt : float64 → Z) (values : list Z) (q : float64) (num : Z) :
  (q, num) ∈ [(quantile_95, 95); (quantile_99, 99)] → (1 ≤ length values ≤ 5000)%nat →
  ∃ v, percentile cvt values q = Some v ∧ nearest_rank num v values.
Proof.
  intros Hq Hn.
  assert (quantile_rank cvt q (length values) = exact_rank num (length values) ∧ 1 ≤ num ≤ 100)
    as [Hr Hnum].
  { apply list_elem_of_In in Hq as [[= <- <-]|[[= <- <-]|[]]]; (split; [|lia]).
    - by apply (ranks_exact_at cvt quantile_95 95 5000); [apply ranks_95|].
    - by apply (ranks_exact_at cvt quantile_99 99 5000); [apply ranks_99|]. }
  destruct (exact_rank_bounds num (length values) Hnum) as [Hb1 Hb2]; [lia|].
  destruct (percentile_rank cvt values q (Z.to_nat (exact_rank num (length values))))
    as (v & Hv & Hin & Hlt & Hle); [rewrite Hr; lia|lia|].
  exists v. split; [done|]. split_and!; [done|lia|lia].
Qed.

(** What is written on the sockets: the socket, the event and whether the write
    succeeded. *)
Definition Sent : Type := Conn * OBUData * bool.

Section Traced.
Context {E : Type} `{!BenchEnv E}.

#[export] Instance traced_bench : BenchEnv (E * list Sent) := {|
  Dial w := ((Dial w.1).1, ((Dial w.1).2, w.2));
  SetWriteDeadline c t w := ((SetWriteDeadline c t w.1).1, ((SetWriteDeadline c t w.1).2, w.2));
  WriteJSON c d w :=
    ((WriteJSON c d w.1).1,
     ((WriteJSON c d w.1).2, w.2 ++ [(c, d, is_nil (WriteJSON c d w.1).1)]));
  WS_Close c w := ((WS_Close c w.1).1, ((WS_Close c w.1).2, w.2))
|}.

(** The [j]-th write of [sent] is of event [i + j], on the socket of its number. *)
Definition load_writes (clk : nat → Instant) (label : string) (runID : Z)
    (websockets : list Conn) (i : nat) (sent : list Sent) : Prop :=
  ∀ j c d ok, sent !! j = Some (c, d, ok) →
    (∃ t, d = load_event label runID (wall (clk t)) (i + j)) ∧
    websockets !! ((i + j) mod connections)%nat = Some c ∧
    (ok = false → S j = length sent).

Lemma load_writes_cons clk label run ws i c d sent t :
  d = load_event label run (wall (clk t)) i → ws !! (i mod connections)%nat = Some c →
  load_writes clk label run ws (S i) sent → load_writes clk label run ws i ((c, d, true) :: sent).
Proof.
  intros Hd Hc Hs [|j] c' d' ok; simpl.
  - intros [= <- <- <-]. rewrite Nat.add_0_r. split_and!; [by exists t|exact Hc|done].
  - intros Hj. destruct (Hs j c' d' ok Hj) as (H1 & H2 & H3).
    replace (i + S j)%nat with (S i + j)%nat by lia. split_and!; [done|done|].
    intros Hok. by rewrite <- (H3 Hok).
Qed.

Lemma load_writes_one clk label run ws i c d ok t :
  d = load_event label run (wall (clk t)) i → ws !! (i mod connections)%nat = Some c →
  load_writes clk label run ws i [(c, d, ok)].
Proof.
  intros Hd Hc [|j] c' d' ok'; [|done]. intros [= <- <- <-]. rewrite Nat.add_0_r.
  split_and!; [by exists t|exact Hc|done].
Qed.

Lemma send_events_spec label run ws n i (p : Proc (E * list Sent)) :
  length ws = connections →
  let r := send_events label run ws n i p in
  ∃ sent, (heap r.2).2 = (heap p).2 ++ sent ∧ load_writes (clock p) label run ws i sent ∧
    match r.1 with
    | None => length sent = n ∧ Forall (λ w, w.2 = true) sent
    | Some (k, _) => ∃ sent' w, sent = sent' ++ [w] ∧ w.2 = false ∧
                       Forall (λ w, w.2 = true) sent' ∧ k = (i + length sent')%nat ∧
                       (length sent ≤ n)%nat
    end.
Proof.
  intros Hws. revert i p. induction n as [|n IH]; intros i [[e l] ms clk t]; cbv zeta.
  { exists []. rewrite app_nil_r. split_and!; [done|by intros ?|by split]. }
  cbn [send_events]. do 2 (rewrite M_bind_eq; simpl).
  destruct (lookup_lt_is_Some_2 ws (i mod connections)%nat) as [c Hc].
  { rewrite Hws. apply Nat.mod_upper_bound. done. }
  rewrite Hc. do 3 (rewrite M_bind_eq; simpl).
  set (d := load_event label run _ i).
  set (e1 := (SetWriteDeadline c _ e).2).
  destruct (WriteJSON c d e1) as [[err|] e2] eqn:Hw; simpl.
  - exists [(c, d, false)]. split_and!; [done|by eapply load_writes_one|].
    exists [], (c, d, false). simpl. split_and!; [done|done|constructor|lia|lia].
  - destruct (IH (S i) (mkProc (e2, l ++ [(c, d, true)]) ms clk (t + 1 + 1 + 1)%nat))
      as (sent & Ht & Hs & Hr). simpl in Ht.
    exists ((c, d, true) :: sent). split_and!.
    + cbn [lift set_heap heap metrics clock tick]. etrans; [exact Ht|by rewrite <- app_assoc].
    + by eapply load_writes_cons.
    + cbn [lift set_heap heap metrics clock tick].
      destruct (send_events label run ws n (S i) _) as [[[k err]|] p']; simpl in *.
      * destruct Hr as (sent' & w & -> & Hf & Ha & -> & Hlen).
        exists ((c, d, true) :: sent'), w. simpl in *. split_and!; [done|done|by constructor|lia|lia].
      * destruct Hr as [<- Ha]. split; [done|by constructor].
Qed.
End Traced.

(** Subtracting two scrapes: it succeeds exactly when no bucket shrank, and
    then every bucket of the later scrape holds the growth, without wrapping. *)
Lemma subtract_histogram_correct (after before : gmap float64 Z) :
  (∀ bound count, after !! bound = Some count → in_u64 count) →
  (∀ bound count, before !! bound = Some count → in_u64 count) →
  match subtractHistogram after before with
  | inl delta => ∀ bound,
      delta !! bound = (λ count, count - default 0 (before !! bound)) <$> after !! bound ∧
      (∀ count, after !! bound = Some count → default 0 (before !! bound) ≤ count)
  | inr _ => ∃ bound count, after !! bound = Some count ∧ count < default 0 (before !! bound)
  end.
Proof.
  intros Ha Hb. unfold subtractHistogram. revert Ha.
  apply (map_fold_weak_ind (λ r after, (∀ bound count, after !! bound = Some count → in_u64 count) →
    match r : gmap float64 Z + error with
    | inl delta => ∀ bound,
        delta !! bound = (λ count, count - default 0 (before !! bound)) <$> after !! bound ∧
        (∀ count, after !! bound = Some count → default 0 (before !! bound) ≤ count)
    | inr _ => ∃ bound count, after !! bound = Some count ∧ count < default 0 (before !! bound)
    end)); [by intros _ bound; rewrite !lookup_empty|].
  intros b c m r Hm IH Ha.
  assert (∀ b' c', m !! b' = Some c' → <[b := c]> m !! b' = Some c') as Hmono.
  { intros b' c' H. by rewrite lookup_insert_ne by congruence. }
  specialize (IH (λ b' c' H, Ha b' c' (Hmono b' c' H))).
  pose proof (Ha b c (lookup_insert_eq _ _ _)) as Hc. unfold in_u64 in *.
  destruct r as [delta|e]; [|naive_solver].
  assert (0 ≤ default 0 (before !! b)) as H0.
  { destruct (before !! b) eqn:E; simpl; [|lia]. apply Hb in E. lia. }
  destruct (Z.ltb_spec c (default 0 (before !! b))).
  - exists b, c. by rewrite lookup_insert_eq.
  - intros b'. destruct (decide (b' = b)) as [->|Hne].
    + rewrite !lookup_insert_eq. simpl. rewrite wrapU_id by lia. naive_solver.
    + by rewrite !lookup_insert_ne.
Qed.

Lemma load_id_inj label run a b : load_id label run a = load_id label run b → a = b.
Proof.
  intros H. unfold load_id in H. repeat apply string_app_inj in H. by apply Itoa_inj.
Qed.

(** A vehicle's number determines the socket: the 100 vehicles are dealt to the
    10 sockets. *)
Lemma load_socket i j :
  Z.of_nat i mod 100 = Z.of_nat j mod 100 → (i mod connections)%nat = (j mod connections)%nat.
Proof.
  intros H. apply Nat2Z.inj. rewrite !Nat2Z.inj_mod. change (Z.of_nat connections) with 10.
  pose proof (Z.div_mod (Z.of_nat i) 100 ltac:(lia)) as Hi.
  pose proof (Z.div_mod (Z.of_nat j) 100 ltac:(lia)) as Hj.
  rewrite Hi, Hj, H.
  replace (100 * (Z.of_nat i / 100) + Z.of_nat j mod 100)
    with (Z.of_nat j mod 100 + (10 * (Z.of_nat i / 100)) * 10) by lia.
  replace (100 * (Z.of_nat j / 100) + Z.of_nat j mod 100)
    with (Z.of_nat j mod 100 + (10 * (Z.of_nat j / 100)) * 10) by lia.
  by rewrite !Z.mod_add by lia.
Qed.

Lemma dial_all_trace {E} `{!BenchEnv E} n ws (p : Proc (E * list Sent)) :
  let r := dial_all n ws p in
  (heap r.2).2 = (heap p).2 ∧ clock r.2 = clock p ∧
  match r.1 with (ws', None) => length ws' = (length ws + n)%nat | (_, Some _) => True end.
Proof.
  revert ws p. induction n as [|n IH]; intros ws [[e l] ms clk t]; cbv zeta; [simpl; auto|].
  cbn [dial_all]. rewrite M_bind_eq. simpl.
  destruct (Dial e) as [[c|err] e1]; simpl; [|done].
  destruct (IH (ws ++ [c]) (mkProc (e1, l) ms clk t)) as (H1 & H2 & H3).
  change (set_heap (e1, l) _) with (mkProc (e1, l) ms clk t).
  split; [exact H1|]. split; [exact H2|].
  destruct (dial_all n _ _) as [[ws' [err|]] p']; simpl in *; [done|].
  rewrite H3, length_app. simpl. lia.
Qed.

Lemma close_all_trace {E} `{!BenchEnv E} ws (p : Proc (E * list Sent)) :
  (heap (close_all ws p).2).2 = (heap p).2.
Proof.
  revert p. induction ws as [|c ws IH]; intros [[e l] ms clk t]; [done|].
  cbn [close_all]. rewrite M_bind_eq. by rewrite IH.
Qed.

Definition written_ok (sent : list Sent) : nat := length (filter (λ w, w.2 = true) sent).

Lemma written_ok_all sent : Forall (λ w : Sent, w.2 = true) sent → written_ok sent = length sent.
Proof.
  unfold written_ok. induction 1 as [|w sent Hw _ IH]; [done|].
  rewrite filter_cons_True by done. simpl. f_equal. exact IH.
Qed.

Lemma written_ok_failed sent (w : Sent) :
  w.2 = false → written_ok (sent ++ [w]) = written_ok sent.
Proof.
  intros Hw. unfold written_ok. rewrite filter_app, length_app, filter_cons_False by congruence.
  simpl. apply Nat.add_0_r.
Qed.

(** What the writes of a load have in common with its description. *)
Lemma load_writes_facts clk label run ws sent :
  load_writes clk label run ws 0 sent →
  (∀ j c d ok, sent !! j = Some (c, d, ok) →
     od_EventID d = load_id label run (Z.of_nat j) ∧ od_OBUID d = Z.of_nat j mod 100 + 1) ∧
  NoDup ((λ w : Sent, od_EventID w.1.2) <$> sent) ∧
  (∀ c d ok c' d' ok', (c, d, ok) ∈ sent → (c', d', ok') ∈ sent → od_OBUID d = od_OBUID d' → c = c') ∧
  ((∀ n, 0 < wall (clk n)) → ∀ c d ok, (c, d, ok) ∈ sent → invalid_data d = false).
Proof.
  intros Hs. assert (∀ j c d ok, sent !! j = Some (c, d, ok) → ∃ t,
    d = load_event label run (wall (clk t)) j ∧ ws !! (j mod connections)%nat = Some c) as Hj.
  { intros j c d ok Hj. destruct (Hs j c d ok Hj) as ((t & ->) & Hc & _). eauto. }
  clear Hs. split_and!.
  - intros j c d ok H. by destruct (Hj j c d ok H) as (t & -> & _).
  - apply NoDup_alt. intros i j x. rewrite !list_lookup_fmap.
    intros ([[c d] ok] & Hi & ->)%fmap_Some ([[c' d'] ok'] & Hi' & E)%fmap_Some.
    destruct (Hj _ _ _ _ Hi) as (t & -> & _), (Hj _ _ _ _ Hi') as (t' & -> & _).
    simpl in E. apply load_id_inj in E. lia.
  - intros c d ok c' d' ok' [i Hi]%list_elem_of_lookup [i' Hi']%list_elem_of_lookup E.
    destruct (Hj _ _ _ _ Hi) as (t & -> & Hc), (Hj _ _ _ _ Hi') as (t' & -> & Hc').
    cbn [od_OBUID load_event] in E. rewrite (load_socket i i') in Hc by lia. congruence.
  - intros Hclk c d ok [i Hi]%list_elem_of_lookup. destruct (Hj _ _ _ _ Hi) as (t & -> & _).
    unfold invalid_data. cbn [od_EventID od_ProducedAtUnixNano od_OBUID load_event].
    rewrite bool_decide_eq_false_2 by (unfold load_id; by destruct label).
    specialize (Hclk t). pose proof (Z.mod_pos_bound (Z.of_nat i) 100 ltac:(lia)).
    destruct (Z.leb_spec (wall (clk t)) 0), (Z.leb_spec (Z.of_nat i mod 100 + 1) 0); (done || lia).
Qed.

(** The clock of the process goes on. *)
Lemma dial_all_clock {E} `{!BenchEnv E} n ws (p : Proc E) : clock (dial_all n ws p).2 = clock p.
Proof.
  revert ws p. induction n as [|n IH]; intros ws p; [done|]. cbn [dial_all]. rewrite M_bind_eq.
  unfold lift at 1 2. destruct (Dial (heap p)) as [[c|err] h]; cbn [fst snd]; [by rewrite IH|done].
Qed.

Lemma close_all_clock {E} `{!BenchEnv E} ws (p : Proc E) : clock (close_all ws p).2 = clock p.
Proof.
  revert p. induction ws as [|c ws IH]; intros p; [done|]. cbn [close_all]. rewrite M_bind_eq, IH.
  unfold lift. by destruct (WS_Close c (heap p)).
Qed.

Lemma send_events_clock {E} `{!BenchEnv E} label run ws n i (p : Proc E) :
  clock (send_events label run ws n i p).2 = clock p.
Proof.
  revert i p. induction n as [|n IH]; intros i p; [done|]. cbn [send_events]. rewrite !M_bind_eq.
  destruct (ws !! _) as [c|]; [|done]. rewrite !M_bind_eq. cbn [Now fst snd].
  set (d := load_event _ _ _ _). unfold lift.
  destruct (SetWriteDeadline c _ _) as [r h]. cbn [fst snd heap set_heap].
  destruct (WriteJSON c d h) as [[e|] h']; [done|]. cbn [fst snd]. by rewrite IH.
Qed.

Lemma sendPipelineLoad_clock {E} `{!BenchEnv E} cvt rate duration label (p : Proc E) :
  clock (sendPipelineLoad cvt rate duration label p).2 = clock p.
Proof.
  unfold sendPipelineLoad. rewrite M_bind_eq. pose proof (dial_all_clock connections [] p) as Hd.
  destruct (dial_all connections [] p) as [[ws [err|]] p1]; cbn [fst snd] in *; rewrite !M_bind_eq.
  - cbn [fst snd mret M_ret]. by rewrite close_all_clock.
  - set (n := Z.to_nat _). set (run := wall _). set (p2 := (Now _).2).
    pose proof (send_events_clock label run ws n 0 p2) as Hs.
    destruct (send_events label run ws n 0 p2) as [[[i e]|] p3]; cbn [fst snd] in *;
      rewrite ?M_bind_eq; cbn [fst snd mret M_ret]; rewrite close_all_clock; simpl; by rewrite Hs.
Qed.

Lemma pipeline_load_facts {E : Type} `{!BenchEnv E} (cvt : float64 → Z) (rate duration : Z)
    (label : string) (p : Proc (E * list Sent)) :
  let r := sendPipelineLoad cvt rate duration label p in
  let total := load_total cvt rate duration in
  ∃ sent runID, (heap r.2).2 = (heap p).2 ++ sent ∧
    ((∀ j c d ok, sent !! j = Some (c, d, ok) →
       od_EventID d = load_id label runID (Z.of_nat j) ∧ od_OBUID d = Z.of_nat j mod 100 + 1) ∧
     NoDup ((λ w : Sent, od_EventID w.1.2) <$> sent) ∧
     (∀ c d ok c' d' ok', (c, d, ok) ∈ sent → (c', d', ok') ∈ sent →
       od_OBUID d = od_OBUID d' → c = c') ∧
     ((∀ n, 0 < wall (clock p n)) → ∀ c d ok, (c, d, ok) ∈ sent → invalid_data d = false)) ∧
    match r.1 with
    | (n, None) => n = wrapU 64 total ∧ length sent = Z.to_nat total ∧ written_ok sent = length sent
    | (n, Some _) =>
        n = Z.of_nat (written_ok sent) ∧ (length sent ≤ Z.to_nat total)%nat ∨
        n = wrapU 64 total ∧ length sent = Z.to_nat total ∧ written_ok sent = length sent
    end.
Proof.
  unfold sendPipelineLoad. rewrite M_bind_eq.
  destruct (dial_all_trace connections [] p) as (Ht & Hk & Hd).
  destruct (dial_all connections [] p) as [[ws [err|]] p1]; cbn [fst snd] in *.
  - rewrite M_bind_eq. cbn [fst snd mret M_ret]. rewrite close_all_trace, Ht.
    exists [], 0. rewrite app_nil_r. split; [done|]. split; [by apply (load_writes_facts (clock p) label 0 [])|].
    left. split; [done|simpl; lia].
  - do 3 rewrite M_bind_eq. cbn [fst snd Now].
    set (p2 := mkProc _ _ _ _).
    set (run := wall (clock p1 (tick p1))). set (total := load_total cvt rate duration).
    destruct (send_events_spec label run ws (Z.to_nat total) 0 p2 Hd) as (sent & Htr & Hs & Hr).
    change (clock p2) with (clock p1) in Hs. change (heap p2) with (heap p1) in Htr. clearbody p2.
    rewrite Hk in Hs. rewrite Ht in Htr. exists sent, run.
    destruct (send_events label run ws (Z.to_nat total) 0 p2) as [[[k e]|] p3]; cbn [fst snd] in *;
      rewrite !M_bind_eq; cbn [fst snd mret M_ret]; rewrite !close_all_trace;
      (split; [exact Htr|]); (split; [by apply (load_writes_facts _ label run ws)|]).
    + destruct Hr as (sent' & w & -> & Hw & Ha & -> & Hlen). left. split; [|lia].
      rewrite written_ok_failed, (written_ok_all sent' Ha) by done. lia.
    + destruct Hr as [Hlen Ha%written_ok_all]. case_match; [right|]; done.
Qed.

(** ** Properties *)

(** C40. The percentiles of a report are nearest-rank percentiles: for up to 5000
    samples (the default number of requests), in spite of the floating-point
    rank, the result is a sample, fewer than 95 (99) percent of the samples are
    below it and at least 95 (99) percent are not above it; the index is never
    out of range. *)
Theorem percentile_nearest_rank (cvt : float64 → Z) (values : list Z) (q : float64) (num : Z) :
  (q, num) ∈ [(quantile_95, 95); (quantile_99, 99)] → (1 ≤ length values ≤ 5000)%nat →
  ∃ v, percentile cvt values q = Some v ∧ v ∈ values ∧
    100 * Z.of_nat (below v values) < num * Z.of_nat (length values) ∧
    num * Z.of_nat (length values) ≤ 100 * Z.of_nat (at_most v values).
Proof. exact (percentile_nearest cvt values q num). Qed.

(** C39. A pipeline load, whatever the sockets do: the writes are of events 0, 1,
    2, ... in order, the [j]-th carrying the id [label-run-j] and vehicle
    [j mod 100 + 1]; ids are distinct, and a receiver accepts every event when
    the clock is after 1970; all events of a vehicle go over one socket, so they
    keep their order; without an error all of the [round(rate * seconds)] events
    were written, and otherwise - unless only the deadline was missed - the
    number returned is the number of successful writes. *)
Theorem pipeline_load_correct {E : Type} `{!BenchEnv E} (cvt : float64 → Z) (rate duration : Z)
    (label : string) (p : Proc (E * list Sent)) :
  let r := sendPipelineLoad cvt rate duration label p in
  let total := load_total cvt rate duration in
  ∃ sent runID, (heap r.2).2 = (heap p).2 ++ sent ∧
    ((∀ j c d ok, sent !! j = Some (c, d, ok) →
       od_EventID d = load_id label runID (Z.of_nat j) ∧ od_OBUID d = Z.of_nat j mod 100 + 1) ∧
     NoDup ((λ w : Sent, od_EventID w.1.2) <$> sent) ∧
     (∀ c d ok c' d' ok', (c, d, ok) ∈ sent → (c', d', ok') ∈ sent →
       od_OBUID d = od_OBUID d' → c = c') ∧
     ((∀ n, 0 < wall (clock p n)) → ∀ c d ok, (c, d, ok) ∈ sent → invalid_data d = false)) ∧
    match r.1 with
    | (n, None) => n = wrapU 64 total ∧ length sent = Z.to_nat total ∧ written_ok sent = length sent
    | (n, Some _) =>
        n = Z.of_nat (written_ok sent) ∧ (length sent ≤ Z.to_nat total)%nat ∨
        n = wrapU 64 total ∧ length sent = Z.to_nat total ∧ written_ok sent = length sent
    end.
Proof. exact (pipeline_load_facts cvt rate duration label p). Qed.

(** ** Concrete inputs *)

Lemma percentile_nearest_rank_witness :
  let values := [7; 3; 9; 1; 5; 5; 2; 8; 6; 4] in
  (1 ≤ length values ≤ 5000)%nat ∧ percentile (λ _, 0) values quantile_95 = Some 9 ∧
  ∃ v, percentile (λ _, 0) values quantile_95 = Some v ∧
    95 * Z.of_nat (length values) ≤ 100 * Z.of_nat (at_most v values).
Proof.
  intros values. assert (1 ≤ length values ≤ 5000)%nat as Hlen.
  { change (length values) with 10%nat. lia. }
  split; [done|]. split; [by vm_compute|].
  destruct (percentile_nearest_rank (λ _, 0) values quantile_95 95) as (v & Hv & _ & _ & Hle);
    [by left|done|]. exists v. split; [exact Hv|exact Hle].
Defined.

Definition scrape (small all : Z) : gmap float64 Z :=
  <[fzero := small]> {[S754_infinity false := all]}.

Lemma scrape_u64 small all bound count :
  in_u64 small → in_u64 all → scrape small all !! bound = Some count → in_u64 count.
Proof. unfold scrape. rewrite lookup_insert_Some, lookup_singleton_Some. naive_solver. Qed.

Lemma subtract_histogram_correct_witness :
  (∀ bound count, scrape 5 9 !! bound = Some count → in_u64 count) ∧
  subtractHistogram (scrape 5 9) (scrape 2 4) = inl (scrape 3 5) ∧
  scrape 3 5 !! fzero = (λ count, count - default 0 (scrape 2 4 !! fzero)) <$> scrape 5 9 !! fzero.
Proof.
  assert (∀ a b bound count, in_u64 a ∧ in_u64 b → scrape a b !! bound = Some count → in_u64 count)
    as Hr by (intros a b bound count [? ?]; by apply scrape_u64).
  assert (∀ bound count, scrape 5 9 !! bound = Some count → in_u64 count) as Ha
    by (intros bound count; apply Hr; unfold in_u64; lia).
  assert (∀ bound count, scrape 2 4 !! bound = Some count → in_u64 count) as Hb
    by (intros bound count; apply Hr; unfold in_u64; lia).
  assert (subtractHistogram (scrape 5 9) (scrape 2 4) = inl (scrape 3 5)) as E by by vm_compute.
  split; [exact Ha|]. split; [exact E|].
  pose proof (subtract_histogram_correct (scrape 5 9) (scrape 2 4) Ha Hb) as H. rewrite E in H.
  exact (proj1 (H fzero)).
Defined.
