(* ===== verification/BenchTransport.v ===== *)
(** * BenchTransport: the transport benchmark (src/benchmark/main.go)

    What one request sends over HTTP and over gRPC, the warm-up, and the worker
    goroutines of [benchmarkTransport] as an interleaving step relation
    ([bench_step]): the loop that feeds the unbuffered channel of jobs, workers
    that send, store a latency and report errors on a channel of limited
    capacity.  Every schedule ends, nothing ever blocks for good, every request
    is sent exactly once, and its latency is in its own slot. *)

From stdpp Require Import sorting.
From S2P Require Import Prelude Float64 GoLib Types Store Service Http Decimal Json GoJson Server Client Benchmark.
From Stdlib Require Import Ascii.

Local Open Scope Z_scope.

(** ** Requests *)

Definition httpEndpoint : string := "http://127.0.0.1:4000".

Definition bench_distance (id : string) (now : Z) : Distance :=
  {| d_EventID := id; d_ProducedAtUnixNano := now; d_OBUID := 1; d_Value := f_of_Z 1 |}.

Definition bench_request (id : string) (now : Z) : AggregateRequest :=
  {| req_EventID := id; req_ProducedAtUnixNano := now; req_ObuID := 1; req_Value := f_of_Z 1 |}.

Section Send.
Context {X : Type}.

(** The [send] of [benchmarkHTTP]: the error of [json.Marshal] is ignored, an
    encoding that failed is an empty body. *)
Definition http_send `{HttpTransport X} `{JsonCodec} (id : string) : M (Proc X) (option error) :=
  now ← Now;
  let body := match json_Marshal (JDistance (bench_distance id (wall now))) with
              | inl b => b | inr _ => "" end in
  match url_ok (httpEndpoint +:+ "/agg") with
  | Some e => mret (Some e)
  | None =>
      resp ← lift (Do (mkClientRequest MethodPost (httpEndpoint +:+ "/agg")
                         {["Content-Type" := "application/json"]} body));
      mret match resp with
           | inr e => Some e
           | inl resp => if bool_decide (StatusCode resp ≠ StatusAccepted)
                         then Some (EText ("HTTP status " +:+ Itoa (StatusCode resp))) else None
           end
  end.

(** The [send] of [benchmarkGRPC]. *)
Definition grpc_send `{GrpcTransport X} (id : string) : M (Proc X) (option error) :=
  now ← Now;
  lift (Invoke (bench_request id (wall now))).

Definition bench_id (phase name run : string) (i : Z) : string :=
  phase +:+ "-" +:+ name +:+ "-" +:+ run +:+ "-" +:+ Itoa i.

(** The warm-up: [n] requests from number [i] on, until one fails. *)
Fixpoint warm_up (send : string → M (Proc X) (option error)) (name run : string) (n : nat) (i : Z)
    : M (Proc X) (option error) :=
  match n with
  | O => mret None
  | S n =>
      err ← send (bench_id "warm" name run i);
      match err with
      | Some e => mret (Some e)
      | None => warm_up send name run n (i + 1)
      end
  end.
End Send.

(** ** The workers *)

(** Where a worker is: receiving a job, in [send] for job [i], reporting an error
    of it, or returned. *)
Inductive wpc := Receiving | Sending (i : nat) | Reporting (e : error) | Returned.

#[export] Instance returned_dec c : Decision (c = Returned).
Proof. destruct c; (by left) || (by right). Defined.

Record Bench := mkBench {
  next : nat;                      (* the next job of the feeding loop *)
  bworkers : list wpc;
  latencies : list Z;
  errs : list error;               (* in the channel, oldest first *)
  sends : list (nat * Z * option error)  (* job, latency and outcome, in the order of completion *)
}.

Section Steps.
Context (requests : nat).

Inductive bench_step : Bench → Bench → Prop :=
| feed w k ws ls es ss :
    ws !! w = Some Receiving → (k < requests)%nat →
    bench_step (mkBench k ws ls es ss) (mkBench (S k) (<[w := Sending k]> ws) ls es ss)
| finish w i k d ws ls es ss :
    ws !! w = Some (Sending i) →
    bench_step (mkBench k ws ls es ss)
      (mkBench k (<[w := Receiving]> ws) (<[i := d]> ls) es (ss ++ [(i, d, None)]))
| finish_error w i k d e ws ls es ss :
    ws !! w = Some (Sending i) →
    bench_step (mkBench k ws ls es ss)
      (mkBench k (<[w := Reporting e]> ws) (<[i := d]> ls) es (ss ++ [(i, d, Some e)]))
(* the channel has room for [requests] errors *)
| report w e k ws ls es ss :
    ws !! w = Some (Reporting e) → (length es < requests)%nat →
    bench_step (mkBench k ws ls es ss) (mkBench k (<[w := Receiving]> ws) ls (es ++ [e]) ss)
(* the channel of jobs is closed after the last one *)
| closed_jobs w k ws ls es ss :
    ws !! w = Some Receiving → k = requests →
    bench_step (mkBench k ws ls es ss) (mkBench k (<[w := Returned]> ws) ls es ss).

Definition bench_start (concurrency : nat) : Bench :=
  mkBench 0 (replicate concurrency Receiving) (replicate requests 0) [] [].

(** [workers.Wait] returns. *)
Definition finished (b : Bench) : Prop := Forall (λ c, c = Returned) (bworkers b).
End Steps.

Record result := mkResult { res_name : string; res_p95 : Z; res_p99 : Z }.

(** What is computed once the workers have returned; [None] is a panic. *)
Definition bench_result (cvt : float64 → Z) (name : string) (b : Bench) : option (result + error) :=
  match errs b with
  | e :: _ => Some (inr (EWrap (name +:+ " benchmark: ") e ""))
  | [] => p95 ← percentile cvt (latencies b) quantile_95;
          p99 ← percentile cvt (latencies b) quantile_99;
          Some (inl (mkResult name p95 p99))
  end.

Section Transport.
Context {X : Type}.

(** The [run] of the workers is a parameter: the final state that one of their
    schedules reaches, with the request identifiers of the run. *)
Definition benchmarkTransport (cvt : float64 → Z) (name : string) (cfg : config)
    (send : string → M (Proc X) (option error))
    (run : nat → nat → (Z → string) → M (Proc X) Bench) : M (Proc X) (option (result + error)) :=
  now ← Now;
  let runID := Itoa (wall now) in
  err ← warm_up send name runID 100 0;
  match err with
  | Some e => mret (Some (inr e))
  | None =>
      b ← run (Z.to_nat (cfg_requests cfg)) (Z.to_nat (cfg_concurrency cfg)) (bench_id "bench" name runID);
      mret (bench_result cvt name b)
  end.

Definition benchmarkHTTP `{HttpTransport X} `{JsonCodec} (cvt : float64 → Z) (cfg : config)
    (run : nat → nat → (Z → string) → M (Proc X) Bench) : M (Proc X) (option (result + error)) :=
  benchmarkTransport cvt "HTTP" cfg http_send run.

(** [dialled] is the error of [grpc.NewClient]. *)
Definition benchmarkGRPC `{GrpcTransport X} (cvt : float64 → Z) (dialled : option error) (cfg : config)
    (run : nat → nat → (Z → string) → M (Proc X) Bench) : M (Proc X) (option (result + error)) :=
  match dialled with
  | Some e => mret (Some (inr e))
  | None => benchmarkTransport cvt "gRPC" cfg grpc_send run
  end.
End Transport.

(** ** The invariant *)

Definition current (c : wpc) : list nat := match c with Sending i => [i] | _ => [] end.
Definition reporting (c : wpc) : list error := match c with Reporting e => [e] | _ => [] end.
(** Steps a worker can still make before it needs another job. *)
Definition steps_left (c : wpc) : list () :=
  replicate (match c with Returned => 0 | Receiving => 1 | Reporting _ => 2 | Sending _ => 3 end) ().

Definition job (s : nat * Z * option error) : nat := s.1.1.
Definition latency (s : nat * Z * option error) : Z := s.1.2.

(** Jobs under way or done, and errors under way or reported. *)
Definition jobs_of (b : Bench) : list nat := (job <$> b.(sends)) ++ (bworkers b ≫= current).
Definition errors_of (b : Bench) : list error := errs b ++ (bworkers b ≫= reporting).
Definition variant (requests : nat) (b : Bench) : nat :=
  (3 * (requests - next b) + length (bworkers b ≫= steps_left))%nat.

Record Balanced (requests concurrency : nat) (b : Bench) : Prop := {
  B_jobs : jobs_of b ≡ₚ seq 0 (next b);
  B_errors : errors_of b ≡ₚ omap snd (sends b);
  B_next : (next b ≤ requests)%nat;
  B_slots : length (latencies b) = requests;
  B_stored : Forall (λ s, latencies b !! job s = Some (latency s)) (sends b);
  B_workers : length (bworkers b) = concurrency;
  B_returned : Exists (λ c, c = Returned) (bworkers b) → next b = requests
}.

(** One element of a list of goroutines is replaced. *)
Lemma bind_insert {A B} (f : A → list B) (l : list A) i x y :
  l !! i = Some x → f x ++ (<[i := y]> l ≫= f) ≡ₚ f y ++ (l ≫= f).
Proof.
  revert i. induction l as [|a l IH]; intros [|i]; try done; simpl.
  - intros [= ->]. by rewrite Permutation_app_swap_app.
  - intros Hi. rewrite (Permutation_app_swap_app (f x)), (IH i Hi).
    by rewrite (Permutation_app_swap_app (f y)).
Qed.

Lemma Exists_insert_other {A} (P : A → Prop) (l : list A) i y :
  ¬ P y → Exists P (<[i := y]> l) → Exists P l.
Proof.
  rewrite !Exists_exists. intros Hy (x & Hx & HP). exists x. split; [|done].
  apply list_elem_of_lookup in Hx as [j Hj]. apply list_elem_of_lookup. exists j.
  destruct (decide (i = j)) as [->|Hne]; [|by rewrite list_lookup_insert_ne in Hj].
  apply list_lookup_insert_Some in Hj. naive_solver.
Qed.

Section Invariant.
Context (requests concurrency : nat).

Lemma start_balanced : Balanced requests concurrency (bench_start requests concurrency).
Proof.
  unfold bench_start. constructor; unfold jobs_of, errors_of; simpl; auto with lia.
  - induction concurrency; simpl; auto.
  - induction concurrency; simpl; auto.
  - apply length_replicate.
  - apply length_replicate.
  - rewrite Exists_exists. intros (x & [-> _]%elem_of_replicate & [=]).
Qed.

(** The jobs are distinct: one job, one worker. *)
Lemma jobs_NoDup b : Balanced requests concurrency b → NoDup (jobs_of b).
Proof. intros Hb. rewrite (B_jobs _ _ _ Hb). apply NoDup_seq. Qed.

Lemma current_elem (ws : list wpc) w i : ws !! w = Some (Sending i) → i ∈ ws ≫= current.
Proof.
  intros Hw. apply list_elem_of_bind. exists (Sending i).
  split; [simpl; set_solver|by eapply list_elem_of_lookup_2].
Qed.

(** The job a worker is at is a valid index, and nobody stored its latency yet. *)
Lemma current_fresh b w i :
  Balanced requests concurrency b → bworkers b !! w = Some (Sending i) →
  (i < requests)%nat ∧ i ∉ job <$> sends b.
Proof.
  intros Hb Hi%current_elem. pose proof (B_next _ _ _ Hb). split.
  - assert (i ∈ jobs_of b) as Hj by (apply elem_of_app; by right).
    rewrite (B_jobs _ _ _ Hb) in Hj. apply elem_of_seq in Hj. lia.
  - intros Hs. pose proof (jobs_NoDup b Hb) as (_ & Hd & _)%NoDup_app. exact (Hd i Hs Hi).
Qed.

(** Storing a latency in its slot keeps those of the other jobs. *)
Lemma stored_insert (ls : list Z) ss i d o :
  Forall (λ s, ls !! job s = Some (latency s)) ss → i ∉ job <$> ss → (i < length ls)%nat →
  Forall (λ s, <[i := d]> ls !! job s = Some (latency s)) (ss ++ [(i, d, o)]).
Proof.
  intros Hs Hi Hl. apply Forall_app. split.
  - rewrite !Forall_forall in *. intros s Hin. rewrite list_lookup_insert_ne; [by apply Hs|].
    intros ->. apply Hi. apply list_elem_of_fmap. by exists s.
  - apply Forall_singleton. by apply list_lookup_insert_eq.
Qed.

(** A request that ended: its job and its outcome move from the worker to the list. *)
Lemma sent_balanced k w i d o c ws ls es ss :
  ws !! w = Some (Sending i) → c ≠ Returned → current c = [] → reporting c = option_list o →
  Balanced requests concurrency (mkBench k ws ls es ss) →
  Balanced requests concurrency (mkBench k (<[w := c]> ws) (<[i := d]> ls) es (ss ++ [(i, d, o)])).
Proof.
  intros Hw Hc Hcur Hrep Hb. destruct (current_fresh _ _ _ Hb Hw) as [Hi Hfresh].
  pose proof (bind_insert current ws w _ c Hw) as P1. rewrite Hcur in P1. simpl in P1.
  pose proof (bind_insert reporting ws w _ c Hw) as P2. rewrite Hrep in P2. simpl in P2.
  destruct Hb as [Hj He Hn Hl Hst Hlen Hr]. unfold jobs_of, errors_of in *. simpl in *.
  constructor; unfold jobs_of, errors_of; simpl; auto.
  - rewrite fmap_app. simpl. by rewrite <- app_assoc, P1.
  - rewrite P2, omap_app, <- He, app_assoc, (Permutation_app_comm es), <- app_assoc,
      Permutation_app_comm. f_equiv. by destruct o.
  - by rewrite length_insert.
  - apply stored_insert; auto. by rewrite Hl.
  - by rewrite length_insert.
  - intros Hx%Exists_insert_other; auto.
Qed.

(** The obligations when worker [w], at [Hw], moves to [c]. *)
Ltac move_worker Hb Hw c :=
  pose proof (bind_insert current _ _ _ c Hw) as P1;
  pose proof (bind_insert reporting _ _ _ c Hw) as P2; simpl in P1, P2;
  destruct Hb as [Hj Hes Hn Hl Hst Hlen Hr]; unfold jobs_of, errors_of in *; simpl in *;
  constructor; unfold jobs_of, errors_of; simpl;
  rewrite ?length_insert, ?P1, ?P2; auto;
  try (intros Hx%Exists_insert_other; [try specialize (Hr Hx); try done|done]).

Lemma step_balanced b b' :
  bench_step requests b b' → Balanced requests concurrency b → Balanced requests concurrency b'.
Proof.
  intros Hstep. destruct Hstep as
    [w k ws ls es ss Hw Hk|w i k d ws ls es ss Hw|w i k d e ws ls es ss Hw
    |w e k ws ls es ss Hw He|w k ws ls es ss Hw ->]; intros Hb.
  2, 3: by eapply sent_balanced.
  - move_worker Hb Hw (Sending k); try lia.
    by rewrite <- Permutation_middle, Hj, Permutation_cons_append, <- seq_S.
  - move_worker Hb Hw Receiving. by rewrite <- app_assoc, P2.
  - move_worker Hb Hw Returned.
Qed.

Lemma reachable_balanced b :
  rtc (bench_step requests) (bench_start requests concurrency) b → Balanced requests concurrency b.
Proof.
  apply (rtc_ind_r (Balanced requests concurrency)); [apply start_balanced|].
  intros x y _ Hs Hx. by eapply step_balanced.
Qed.

(** Every step uses up one of the steps left. *)
Lemma step_variant b b' : bench_step requests b b' → (variant requests b' < variant requests b)%nat.
Proof.
  assert (∀ ws w x y, ws !! w = Some x →
    (length (steps_left x) + length (<[w := y]> ws ≫= steps_left) =
     length (steps_left y) + length (ws ≫= steps_left))%nat) as Hmove.
  { intros ws w x y Hw. pose proof (Permutation_length (bind_insert steps_left ws w x y Hw)) as P.
    by rewrite !length_app in P. }
  unfold variant. intros [w k ws ls es ss Hw Hk|w i k d ws ls es ss Hw|w i k d e ws ls es ss Hw
    |w e k ws ls es ss Hw He|w k ws ls es ss Hw ->];
    [specialize (Hmove _ _ _ (Sending k) Hw)|specialize (Hmove _ _ _ Receiving Hw)
    |specialize (Hmove _ _ _ (Reporting e) Hw)|specialize (Hmove _ _ _ Receiving Hw)
    |specialize (Hmove _ _ _ Returned Hw)]; simpl in *; lia.
Qed.

Lemma start_variant : variant requests (bench_start requests concurrency) = (3 * requests + concurrency)%nat.
Proof.
  unfold variant, bench_start. simpl. rewrite Nat.sub_0_r. f_equal.
  induction concurrency as [|c IH]; simpl; auto.
Qed.

(** A worker that has an error to report finds room in the channel. *)
Lemma report_room b w e :
  Balanced requests concurrency b → bworkers b !! w = Some (Reporting e) →
  (length (errs b) < requests)%nat.
Proof.
  intros Hb Hw. pose proof (Permutation_length (B_errors _ _ _ Hb)) as HE.
  pose proof (Permutation_length (B_jobs _ _ _ Hb)) as HJ. pose proof (B_next _ _ _ Hb).
  unfold errors_of in HE. unfold jobs_of in HJ. rewrite length_app in HE, HJ.
  rewrite length_seq, length_fmap in HJ.
  assert (length (omap snd (sends b)) ≤ length (sends b))%nat.
  { clear. induction (sends b) as [|[a [e'|]] l IH]; [done|..]; [change (omap snd ((a, Some e') :: l)) with (e' :: omap snd l)|change (omap snd ((a, None) :: l)) with (omap snd l)]; cbn [length]; lia. }
  assert (0 < length (bworkers b ≫= reporting))%nat; [|lia].
  assert (e ∈ bworkers b ≫= reporting) as Hin.
  { apply list_elem_of_bind. exists (Reporting e).
    split; [simpl; set_solver|by eapply list_elem_of_lookup_2]. }
  destruct (_ ≫= _); [by apply not_elem_of_nil in Hin|simpl; lia].
Qed.

(** No state blocks before all workers have returned. *)
Lemma bench_progress b :
  Balanced requests concurrency b → finished b ∨ ∃ b', bench_step requests b b'.
Proof.
  intros Hb. destruct (decide (Forall (λ c, c = Returned) (bworkers b))) as [|Hn]; [by left|right].
  apply not_Forall_Exists in Hn; [|apply _].
  apply Exists_exists in Hn as (c & [w Hw]%list_elem_of_lookup & Hc).
  pose proof (report_room b w) as Hroom. pose proof (B_next _ _ _ Hb).
  destruct b as [k ws ls es ss]. simpl in *. destruct c as [|i|e|].
  - destruct (decide (k = requests)) as [->|]; eexists; [by eapply closed_jobs|by eapply feed; [|lia]].
  - eexists. by apply (finish _ w i k 0).
  - eexists. eapply report; [done|]. by eapply Hroom.
  - by destruct Hc.
Qed.
End Invariant.

(** ** When all workers have returned *)

Lemma map_lookup_seq (l : list Z) : (λ i, default 0 (l !! i)) <$> seq 0 (length l) = l.
Proof.
  apply list_eq. intros i. rewrite list_lookup_fmap.
  destruct (decide (i < length l)%nat) as [Hi|Hi].
  - rewrite lookup_seq_lt by done. simpl.
    destruct (lookup_lt_is_Some_2 l i Hi) as [x ->]. done.
  - rewrite lookup_seq_ge by lia. simpl. symmetry. apply lookup_ge_None. lia.
Qed.

Lemma bench_id_inj phase name run a b : bench_id phase name run a = bench_id phase name run b → a = b.
Proof. unfold bench_id. intros H. repeat apply string_app_inj in H. by apply Itoa_inj. Qed.

(** Nothing is under way: every request was sent once, and its latency is stored. *)
Lemma finished_sends requests concurrency b :
  (1 ≤ concurrency)%nat → Balanced requests concurrency b → finished b →
  job <$> sends b ≡ₚ seq 0 requests ∧ latencies b ≡ₚ latency <$> sends b ∧ errs b ≡ₚ omap snd (sends b).
Proof.
  intros Hc Hb Hf.
  assert (∀ {A} (f : wpc → list A), f Returned = [] → bworkers b ≫= f = []) as Hnil.
  { intros A f Hr. unfold finished in Hf. induction Hf as [|c cs -> _ IH]; [done|].
    cbn [mbind list_bind]. rewrite Hr. exact IH. }
  assert (next b = requests) as Hn.
  { apply (B_returned _ _ _ Hb). unfold finished in Hf. pose proof (B_workers _ _ _ Hb).
    destruct (bworkers b); simpl in *; [lia|]. apply Forall_cons in Hf as [-> _]. by left. }
  pose proof (B_jobs _ _ _ Hb) as Hj. pose proof (B_errors _ _ _ Hb) as He.
  unfold jobs_of in Hj. unfold errors_of in He.
  rewrite Hnil, app_nil_r in Hj, He by done. rewrite Hn in Hj.
  split; [done|]. split; [|done].
  rewrite <- (map_lookup_seq (latencies b)), (B_slots _ _ _ Hb), <- Hj.
  rewrite <- list_fmap_compose. apply eq_subrelation, list_fmap_ext; [apply _|]. intros i s Hs. simpl.
  pose proof (proj1 (Forall_lookup _ _) (B_stored _ _ _ Hb) i s Hs) as Hl. simpl in Hl. by rewrite Hl.
Qed.

(** A latency percentile is that of the latencies of the requests. *)
Lemma nearest_rank_Permutation num v l l' : l ≡ₚ l' → nearest_rank num v l → nearest_rank num v l'.
Proof.
  intros Hp. unfold nearest_rank.
  by rewrite (below_Permutation v _ _ Hp), (at_most_Permutation v _ _ Hp), (Permutation_length Hp), Hp.
Qed.

Lemma bench_result_ok cvt name b :
  errs b = [] → (1 ≤ length (latencies b) ≤ 5000)%nat →
  ∃ p95 p99, bench_result cvt name b = Some (inl (mkResult name p95 p99)) ∧
    nearest_rank 95 p95 (latencies b) ∧ nearest_rank 99 p99 (latencies b).
Proof.
  intros He Hl. unfold bench_result. rewrite He.
  destruct (percentile_nearest cvt (latencies b) quantile_95 95) as (p95 & H95 & Hn95); [set_solver|done|].
  destruct (percentile_nearest cvt (latencies b) quantile_99 99) as (p99 & H99 & Hn99); [set_solver|done|].
  exists p95, p99. by rewrite H95, H99.
Qed.

(** ** Properties *)

(** C25. The workers of a transport benchmark always finish.  However they are
    scheduled, however long requests take and whichever fail, at most
    3 * requests + concurrency steps are made and until all have returned one can
    be made (no worker waits for ever for room in the channel of errors).  Then
    every request was sent exactly once, under an identifier of its own, and the
    latencies are those of the requests.  The result is an error exactly when a
    request failed, and otherwise (up to 5000 requests) the nearest-rank
    percentiles of the latencies. *)
Theorem benchmark_workers_finish (requests concurrency : nat) (cvt : float64 → Z) (name run : string) :
  (1 ≤ requests)%nat → (1 ≤ concurrency)%nat →
  (∀ n b, nsteps (bench_step requests) n (bench_start requests concurrency) b →
     (n ≤ 3 * requests + concurrency)%nat) ∧
  ∀ b, rtc (bench_step requests) (bench_start requests concurrency) b →
    (finished b ∨ ∃ b', bench_step requests b b') ∧
    (finished b →
     job <$> sends b ≡ₚ seq 0 requests ∧
     NoDup ((λ i, bench_id "bench" name run (Z.of_nat i)) <$> (job <$> sends b)) ∧
     latencies b ≡ₚ latency <$> sends b ∧
     ((∃ s e, s ∈ sends b ∧ s.2 = Some e ∧
         bench_result cvt name b = Some (inr (EWrap (name +:+ " benchmark: ") e ""))) ∨
      (Forall (λ s, s.2 = None) (sends b) ∧
       ((requests ≤ 5000)%nat → ∃ p95 p99,
          bench_result cvt name b = Some (inl (mkResult name p95 p99)) ∧
          nearest_rank 95 p95 (latency <$> sends b) ∧ nearest_rank 99 p99 (latency <$> sends b))))).
Proof.
  intros Hr Hc. split.
  { intros n b Hn%(nsteps_measure _ _ (step_variant requests)). rewrite start_variant in Hn. lia. }
  intros b Hb%reachable_balanced. split; [by eapply bench_progress|]. intros Hf.
  destruct (finished_sends _ _ _ Hc Hb Hf) as (Hj & Hl & He). split; [done|]. split; [|split; [done|]].
  { rewrite Hj.
    apply NoDup_fmap_2; [|apply NoDup_seq]. intros i j ?%bench_id_inj. lia. }
  destruct (errs b) as [|e es] eqn:Ees.
  - right. split.
    + apply Forall_forall. intros [s [e|]] Hs; [|done].
      assert (e ∈ omap snd (sends b)) as Hin by (apply list_elem_of_omap; by exists (s, Some e)).
      rewrite <- He in Hin. by apply not_elem_of_nil in Hin.
    + intros H5000. destruct (bench_result_ok cvt name b Ees) as (p95 & p99 & Hres & H95 & H99).
      { rewrite (B_slots _ _ _ Hb). lia. }
      exists p95, p99. split; [done|]. by split; eapply nearest_rank_Permutation.
  - left. assert (e ∈ omap snd (sends b)) as Hin by (rewrite <- He; by left).
    apply list_elem_of_omap in Hin as ([s o] & Hs & Ho). exists (s, o), e.
    split; [done|]. split; [done|]. unfold bench_result. by rewrite Ees.
Qed.

(** ** A concrete schedule *)

(** Two workers, two requests, the second one refused. *)
Definition bench_end : Bench :=
  mkBench 2 [Returned; Returned] [7; 9] [EText "HTTP status 503"]
    [(1%nat, 9, Some (EText "HTTP status 503")); (0%nat, 7, None)].

Lemma bench_end_reachable : rtc (bench_step 2) (bench_start 2 2) bench_end.
Proof.
  unfold bench_start, bench_end.
  eapply rtc_l; [by apply (feed 2 0%nat); [|lia]|]. simpl.
  eapply rtc_l; [by apply (feed 2 1%nat); [|lia]|]. simpl.
  eapply rtc_l; [by apply (finish_error 2 1%nat 1%nat 2 9 (EText "HTTP status 503"))|]. simpl.
  eapply rtc_l; [by apply (finish 2 0%nat 0%nat 2 7)|]. simpl.
  eapply rtc_l; [by apply (report 2 1%nat (EText "HTTP status 503")); [|simpl; lia]|]. simpl.
  eapply rtc_l; [by apply (closed_jobs 2 0%nat)|]. simpl.
  eapply rtc_l; [by apply (closed_jobs 2 1%nat)|]. apply rtc_refl.
Qed.

Lemma benchmark_workers_finish_witness :
  finished bench_end ∧ bench_result (λ _, 0) "HTTP" bench_end =
    Some (inr (EWrap "HTTP benchmark: " (EText "HTTP status 503") "")) ∧
  job <$> sends bench_end ≡ₚ seq 0 2.
Proof.
  assert (finished bench_end) as Hf by by repeat constructor.
  split; [done|]. split; [done|].
  exact (proj1 (proj2 (proj2 (benchmark_workers_finish 2 2 (λ _, 0) "HTTP" "1" ltac:(lia) ltac:(lia))
    bench_end bench_end_reachable) Hf)).
Defined.
