(* ===== verification/BenchPipeline.v ===== *)
(** * BenchPipeline: the pipeline benchmark (src/benchmark/main.go)

    Waiting for the aggregator, scraping its histogram from the text of its
    metrics page, the measured loads and the report.  HTTP and sockets act on one
    state [X] of their own ([HttpTransport], [BenchEnv]); loops that wait for
    something run on fuel, [None] being the end of it, and
    [waitForSamples_ends] gives fuel that is enough.  What the benchmark measures
    is in BenchMeasure.v. *)

From stdpp Require Import sorting.
From S2P Require Import Prelude Float64 GoLib Types Store Service Http Decimal Json GoJson Server Client Benchmark BenchTransport.
From Stdlib Require Import Ascii.

Local Open Scope Z_scope.

Abbreviation histogram := (gmap float64 Z) (only parsing).

(** ** Reading a metrics page *)

Definition newline : ascii := "010".

(** A line of [maxTokenSize] bytes or more stops a [bufio.Scanner]. *)
Definition MaxScanTokenSize : nat := Pos.to_nat 65536.

Definition ErrTooLong : error := EText "bufio.Scanner: token too long".

(** The carriage return at the end of a line is dropped. *)
Fixpoint dropCR (s : string) : string :=
  match s with
  | EmptyString => ""
  | String "013" EmptyString => ""
  | String c s => String c (dropCR s)
  end.

(** The lines a [bufio.Scanner] yields, and its error; after the last newline
    there is a line only if there is text. *)
Fixpoint scan_pieces (pieces : list string) : list string * option error :=
  match pieces with
  | [] => ([], None)
  | piece :: rest =>
      if bool_decide (MaxScanTokenSize ≤ String.length piece)%nat then ([], Some ErrTooLong)
      else match rest with
           | [] => (if bool_decide (piece = "") then [] else [dropCR piece], None)
           | _ => let '(lines, err) := scan_pieces rest in (dropCR piece :: lines, err)
           end
  end.

Definition scan_lines (body : string) : list string * option error :=
  scan_pieces (Split newline body).

Definition quote : ascii := "034".

Definition bucket_prefix : string :=
  "tollify_pipeline_event_duration_seconds_bucket{le=" +:+ String quote "".

Section Scrape.
Context `{TextLib}.

(** One line: a line that is not a bucket is skipped. *)
Definition scrape_line (line : string) (values : histogram) : histogram + error :=
  match CutPrefix bucket_prefix line with
  | None => inl values
  | Some rest =>
      match CutAt quote rest, Fields line with
      | Some (text, _), [_; field] =>
          match ParseFloat text, ParseUint field with
          | Some bound, Some count => inl (<[bound := count]> values)
          | _, _ => inr (EText "invalid pipeline histogram")
          end
      | _, _ => inl values
      end
  end.

Fixpoint scrape_lines (lines : list string) (values : histogram) : histogram + error :=
  match lines with
  | [] => inl values
  | line :: lines =>
      match scrape_line line values with
      | inl values => scrape_lines lines values
      | inr e => inr e
      end
  end.

(** What is read from the body of the page. *)
Definition scrape_body (body : string) : histogram + error :=
  let '(lines, err) := scan_lines body in
  match scrape_lines lines ∅ with
  | inr e => inr e
  | inl values =>
      if bool_decide (values = ∅) then inr (EText "pipeline latency histogram not found")
      else match err with Some e => inr e | None => inl values end
  end.

Definition metricsURL : string := httpEndpoint +:+ "/metrics".

Context {X : Type} `{HttpTransport X}.

(** [http.Client.Get] *)
Definition http_Get (url : string) : M (Proc X) (ClientResponse + error) :=
  match url_ok url with
  | Some e => mret (inr e)
  | None => lift (Do (mkClientRequest MethodGet url ∅ ""))
  end.

(** The status of the answer is not looked at. *)
Definition scrapeHistogram : M (Proc X) (histogram + error) :=
  resp ← http_Get metricsURL;
  mret match resp with
       | inr e => inr e
       | inl resp => scrape_body (resp_Body resp)
       end.

(** ** Waiting *)

Definition Before (t u : Instant) : bool := mono t <? mono u.

Definition count_of (values : histogram) : Z := default 0 (values !! S754_infinity false).

(** Sleeping has no effect but on the clock. *)
Fixpoint wait_until (fuel : nat) (deadline : Instant) (want timeout : Z)
    : M (Proc X) (option (histogram + error)) :=
  match fuel with
  | O => mret None
  | S fuel =>
      t ← Now;
      if Before t deadline then
        r ← scrapeHistogram;
        match r with
        | inr e => mret (Some (inr e))
        | inl values =>
            if want <=? count_of values then mret (Some (inl values))
            else wait_until fuel deadline want timeout
        end
      else mret (Some (inr (EText ("pipeline did not drain before " +:+ Duration_String timeout))))
  end.

Definition waitForSamples (fuel : nat) (want timeout : Z) : M (Proc X) (option (histogram + error)) :=
  now ← Now;
  wait_until fuel (Add now timeout) want timeout.

Fixpoint ready_until (fuel : nat) (deadline : Instant) : M (Proc X) (option (option error)) :=
  match fuel with
  | O => mret None
  | S fuel =>
      t ← Now;
      if Before t deadline then
        resp ← http_Get metricsURL;
        match resp with
        | inl resp => if bool_decide (StatusCode resp = StatusOK) then mret (Some None)
                      else ready_until fuel deadline
        | inr _ => ready_until fuel deadline
        end
      else mret (Some (Some (EText "aggregator did not become ready")))
  end.

Definition waitForMetrics (fuel : nat) (timeout : Z) : M (Proc X) (option (option error)) :=
  now ← Now;
  ready_until fuel (Add now timeout).
End Scrape.

(** ** The measured loads *)

Section Pipeline.
Context `{TextLib} {X : Type} `{HttpTransport X} `{BenchEnv X}.
Context (cvt : float64 → Z) (fuel : nat).

(** The latency a quantile of the histogram stands for. *)
Definition quantile_duration (delta : histogram) (q : float64) : Z :=
  int64_of_float cvt (fmul (histogramQuantile delta q) (f_of_Z Second)).

(** What is measured from the scrapes around a load of [count] events. *)
Definition measured (load count : Z) (after before : histogram) : result + error :=
  let mismatch := inr (EText ("pipeline sample count mismatch at " +:+ Itoa load +:+ " events/second")) in
  match subtractHistogram after before with
  | inr _ => mismatch
  | inl delta =>
      if bool_decide (count_of delta ≠ count) then mismatch
      else inl (mkResult (Itoa load) (quantile_duration delta quantile_95)
                                     (quantile_duration delta quantile_99))
  end.

(** One load. *)
Definition run_load (duration load : Z) : M (Proc X) (option (result + error)) :=
  before ← scrapeHistogram;
  match before with
  | inr e => mret (Some (inr e))
  | inl before =>
      sent ← sendPipelineLoad cvt load duration "load";
      match sent with
      | (_, Some e) => mret (Some (inr (EWrap (Itoa load +:+ " events/second: ") e "")))
      | (count, None) =>
          after ← waitForSamples fuel (wrapU 64 (count_of before + count))
                    (Z.max (30 * Second) (wrapS 64 (duration * 3)));
          mret match after with
               | None => None
               | Some (inr e) => Some (inr e)
               | Some (inl after) => Some (measured load count after before)
               end
      end
  end.

Fixpoint run_loads (duration : Z) (loads : list Z) (results : list result)
    : M (Proc X) (option (list result + error)) :=
  match loads with
  | [] => mret (Some (inl results))
  | load :: loads =>
      r ← run_load duration load;
      match r with
      | None => mret None
      | Some (inr e) => mret (Some (inr e))
      | Some (inl r) => run_loads duration loads (results ++ [r])
      end
  end.

(** The load of 100 events before the measured ones: [Some None] when all of its
    samples have been seen. *)
Definition warm_up_load : M (Proc X) (option (option error)) :=
  before ← scrapeHistogram;
  match before with
  | inr e => mret (Some (Some e))
  | inl before =>
      sent ← sendPipelineLoad cvt 50 (2 * Second) "warm";
      match sent with
      | (_, Some e) => mret (Some (Some e))
      | (_, None) =>
          warm ← waitForSamples fuel (wrapU 64 (count_of before + 100)) (30 * Second);
          mret match warm with
               | None => None
               | Some (inr e) => Some (Some e)
               | Some (inl _) => Some None
               end
      end
  end.

Definition benchmarkPipeline (cfg : config) : M (Proc X) (option (list result + error)) :=
  warm ← warm_up_load;
  match warm with
  | None => mret None
  | Some (Some e) => mret (Some (inr e))
  | Some None => run_loads (cfg_duration cfg) (cfg_loads cfg) []
  end.
End Pipeline.

(** ** The report *)

(** Three decimals, the last one rounded half to even, of the number [m * 2^e]. *)
Definition thousandths (m e : Z) : Z :=
  if 0 <=? e then 1000 * m * 2 ^ e
  else let d := 2 ^ (- e) in
       let q := 1000 * m / d in
       let r := 1000 * m mod d in
       if (2 * r <? d) || ((2 * r =? d) && Z.even q) then q else q + 1.

Definition pad3 (z : Z) : string :=
  (if z <? 10 then "00" else if z <? 100 then "0" else "") +:+ Itoa z.

Definition print_thousandths (neg : bool) (t : Z) : string :=
  (if neg then "-" else "") +:+ Itoa (t / 1000) +:+ "." +:+ pad3 (t mod 1000).

(** The verb [%.3f]. *)
Definition fmt_3f (x : float64) : string :=
  match x with
  | S754_zero neg => print_thousandths neg 0
  | S754_finite neg m e => print_thousandths neg (thousandths (Zpos m) e)
  | S754_infinity false => "+Inf"
  | S754_infinity true => "-Inf"
  | S754_nan => "NaN"
  end.

Definition milliseconds (d : Z) : float64 := fdiv (f_of_Z d) (f_of_Z Millisecond).

Definition eol : string := String newline "".

Definition report_row (value : result) : string :=
  "| " +:+ res_name value +:+ " | " +:+ fmt_3f (milliseconds (res_p95 value)) +:+ " | "
  +:+ fmt_3f (milliseconds (res_p99 value)) +:+ " |" +:+ eol.

Definition report_rows (values : list result) : string :=
  foldr (λ v s, report_row v +:+ s) "" values.

Definition formatReport (transports pipeline : list result) : string :=
  "| protocol | p95_ms | p99_ms |" +:+ eol +:+ "|---|---:|---:|" +:+ eol +:+ report_rows transports
  +:+ eol +:+ "| load_eps | p95_ms | p99_ms |" +:+ eol +:+ "|---:|---:|---:|" +:+ eol
  +:+ report_rows pipeline.

Example report_example :
  formatReport [mkResult "HTTP" 1234500 2000500] [mkResult "100" 62500 (3 * Second)] =
  "| protocol | p95_ms | p99_ms |" +:+ eol +:+ "|---|---:|---:|" +:+ eol
  +:+ "| HTTP | 1.234 | 2.001 |" +:+ eol +:+ eol
  +:+ "| load_eps | p95_ms | p99_ms |" +:+ eol +:+ "|---:|---:|---:|" +:+ eol
  +:+ "| 100 | 0.062 | 3000.000 |" +:+ eol.
Proof. by vm_compute. Qed.

(** ** main *)

Inductive bench_outcome :=
| Failed (e : error)             (* on standard error, and exit status 1 *)
| Reported (report : string)
| Panicked.

Section Main.
Context `{TextLib} `{JsonCodec} {X : Type} `{HttpTransport X} `{BenchEnv X} `{GrpcTransport X}.
Context (cvt : float64 → Z) (fuel : nat) (dialled : option error).
Context (WriteFile : string → string → X → option error * X).
Context (run : nat → nat → (Z → string) → M (Proc X) Bench).

(** The next step of [main] after one that may have failed. *)
Definition or_fail {A} (r : option (A + error)) (k : A → M (Proc X) (option bench_outcome))
    : M (Proc X) (option bench_outcome) :=
  match r with
  | None => mret (Some Panicked)
  | Some (inr e) => mret (Some (Failed e))
  | Some (inl a) => k a
  end.

Definition write_report (path report : string) : M (Proc X) (option bench_outcome) :=
  err ← lift (WriteFile path report);
  mret (Some match err with Some e => Failed e | None => Reported report end).

(** [None]: the fuel of one of the waiting loops has run out. *)
Definition main (cfg : config + error) : M (Proc X) (option bench_outcome) :=
  match cfg with
  | inr e => mret (Some (Failed e))
  | inl cfg =>
      ready ← waitForMetrics fuel (30 * Second);
      match ready with
      | None => mret None
      | Some (Some e) => mret (Some (Failed e))
      | Some None =>
          httpResult ← benchmarkHTTP cvt cfg run;
          or_fail httpResult (λ httpResult,
            grpcResult ← benchmarkGRPC cvt dialled cfg run;
            or_fail grpcResult (λ grpcResult,
              pipeline ← benchmarkPipeline cvt fuel cfg;
              match pipeline with
              | None => mret None
              | Some (inr e) => mret (Some (Failed e))
              | Some (inl pipeline) =>
                  write_report (cfg_report cfg) (formatReport [httpResult; grpcResult] pipeline)
              end))
      end
  end.
End Main.

(** ** The text of a page *)

Definition all_chars (P : ascii → bool) (s : string) : bool := forallb P (word s).

(** Visible ASCII. *)
Definition visible (c : ascii) : bool := bool_decide (33 ≤ N_of_ascii c ≤ 126)%N.
Definition label_char (c : ascii) : bool := visible c && negb (Ascii.eqb c quote).
Definition line_char (c : ascii) : bool := negb (Ascii.eqb c newline) && negb (Ascii.eqb c "013").

Lemma all_chars_app P s s' : all_chars P (s +:+ s') = all_chars P s && all_chars P s'.
Proof. unfold all_chars. rewrite word_app. apply forallb_app. Qed.

Lemma Split_line s rest :
  all_chars line_char s = true → Split newline (s +:+ eol +:+ rest) = s :: Split newline rest.
Proof.
  induction s as [|c s IH]; [done|]. unfold all_chars. simpl. intros [Hc Hs]%andb_true_iff.
  unfold line_char in Hc. apply andb_true_iff in Hc as [Hn%negb_true_iff _]. rewrite Hn.
  by rewrite IH.
Qed.

Lemma dropCR_line s : all_chars line_char s = true → dropCR s = s.
Proof.
  induction s as [|c s IH]; [done|]. unfold all_chars. simpl. intros [Hc Hs]%andb_true_iff.
  unfold line_char in Hc. apply andb_true_iff in Hc as [_ Hr%negb_true_iff%Ascii.eqb_neq].
  rewrite (IH Hs). by destruct c as [[] [] [] [] [] [] [] []], s.
Qed.

Lemma visible_no_space c : visible c = true →
  ascii_space c = false ∧ (∀ b, space2 c b = false) ∧ (∀ b d, space3 c b d = false).
Proof.
  unfold visible, ascii_space, space2, space3. intros Hc%bool_decide_eq_true.
  repeat split; intros; repeat (rewrite bool_decide_eq_false_2 by lia); done.
Qed.

Lemma fields_visible w rest cur :
  forallb visible w = true → fields_from (w ++ rest) cur = fields_from rest (reverse w ++ cur).
Proof.
  revert cur. induction w as [|c w IH]; intros cur; [done|].
  simpl forallb. intros [Hc Hw]%andb_true_iff.
  destruct (visible_no_space c Hc) as (H1 & H2 & H3).
  rewrite reverse_cons, <- app_assoc. simpl app at 3. rewrite <- (IH (c :: cur) Hw).
  cbn [app fields_from]. rewrite H1.
  destruct (w ++ rest) as [|b l2]; [done|]. rewrite H2.
  destruct l2 as [|d l3]; [done|]. by rewrite H3.
Qed.

(** ** Pages *)

(** The lines of a page: samples of the histogram, with the text of their bound and
    of their value, and other lines. *)
Inductive page_line :=
| Bucket (text field : string)
| Other (line : string).

Definition print_line (l : page_line) : string :=
  match l with
  | Bucket text field => bucket_prefix +:+ text +:+ String quote "} " +:+ field
  | Other line => line
  end.

Definition print_page (ls : list page_line) : string := foldr (λ l s, print_line l +:+ eol +:+ s) "" ls.

Definition line_ok (l : page_line) : Prop :=
  (String.length (print_line l) < MaxScanTokenSize)%nat ∧
  match l with
  | Bucket text field => all_chars label_char text = true ∧ all_chars visible field = true ∧ field ≠ ""
  | Other line => all_chars line_char line = true ∧ CutPrefix bucket_prefix line = None
  end.

Definition sample_of (l : page_line) : option (string * string) :=
  match l with Bucket text field => Some (text, field) | Other _ => None end.

Lemma forallb_weaken {A} (f g : A → bool) l :
  (∀ x, f x = true → g x = true) → forallb f l = true → forallb g l = true.
Proof. intros H. rewrite !forallb_forall. auto. Qed.

Lemma visible_line c : visible c = true → line_char c = true.
Proof.
  unfold visible, line_char. intros Hc%bool_decide_eq_true.
  apply andb_true_iff; split; apply negb_true_iff, Ascii.eqb_neq; intros ->;
    destruct Hc as [Hc _]; by apply Hc.
Qed.

Lemma label_visible c : label_char c = true → visible c = true.
Proof. unfold label_char. by intros [? _]%andb_true_iff. Qed.

Lemma print_line_chars l : line_ok l → all_chars line_char (print_line l) = true.
Proof.
  intros [_ Hl]. destruct l as [text field|line]; [|apply Hl]. destruct Hl as (Ht & Hf & _).
  unfold print_line. rewrite !all_chars_app.
  rewrite (forallb_weaken _ line_char _ (λ c Hc, visible_line c (label_visible c Hc)) Ht
           : all_chars line_char text = true).
  by rewrite (forallb_weaken _ line_char _ visible_line Hf : all_chars line_char field = true).
Qed.

Lemma label_CutAt text : all_chars label_char text = true → CutAt quote text = None.
Proof.
  induction text as [|a text IH]; [done|]. unfold all_chars in *. simpl.
  intros [[_ Ha%negb_true_iff]%andb_true_iff Ht]%andb_true_iff. by rewrite Ha, IH.
Qed.

Lemma Fields_bucket text field :
  all_chars label_char text = true → all_chars visible field = true → field ≠ "" →
  ∃ w, Fields (print_line (Bucket text field)) = [w; field].
Proof.
  intros Ht Hf Hne.
  set (w := word bucket_prefix ++ word text ++ word (String quote "}")).
  assert (forallb visible w = true) as Hw.
  { unfold w. rewrite !forallb_app. by rewrite (forallb_weaken _ visible _ label_visible Ht). }
  assert (word (print_line (Bucket text field)) = w ++ (" " : ascii)%char :: word field) as E.
  { unfold w, print_line. rewrite !word_app, <- !app_assoc. done. }
  unfold Fields. fold (word (print_line (Bucket text field))).
  rewrite E, fields_visible, app_nil_r by done.
  assert (w ≠ []) as Hwn by done. clearbody w. clear E.
  cbn [fields_from]. change (ascii_space " ") with true. cbv iota.
  rewrite <- (app_nil_r (word field)), fields_visible, app_nil_r by done. cbn [fields_from].
  assert (reverse (word field) ≠ []) as Hfn.
  { intros H. apply Hne. apply (f_equal reverse) in H. rewrite reverse_involutive in H.
    by destruct field. }
  assert (reverse w ≠ []) as Hwn'.
  { intros H. apply (f_equal reverse) in H. by rewrite reverse_involutive in H. }
  exists (of_bytes w). destruct (reverse w) eqn:Ew; [done|]. rewrite <- Ew.
  destruct (reverse (word field)) eqn:Ef; [done|]. rewrite <- Ef, !reverse_involutive.
  change ([of_bytes w; of_bytes (word field)] = [of_bytes w; field]).
  by rewrite of_bytes_word.
Qed.

Section Page.
Context `{TextLib}.

(** A sample whose two texts are numbers. *)
Definition read_sample (s : string * string) : option (float64 * Z) :=
  bound ← ParseFloat s.1; count ← ParseUint s.2; Some (bound, count).

Lemma scrape_print_line l values :
  line_ok l →
  scrape_line (print_line l) values =
    match sample_of l with
    | None => inl values
    | Some s => match read_sample s with
                | Some (bound, count) => inl (<[bound := count]> values)
                | None => inr (EText "invalid pipeline histogram")
                end
    end.
Proof.
  intros [_ Hl]. unfold scrape_line. destruct l as [text field|line]; [|cbn [print_line]; by destruct Hl as [_ ->]].
  destruct Hl as (Ht & Hf & Hne). destruct (Fields_bucket text field Ht Hf Hne) as [w ->].
  unfold print_line. rewrite CutPrefix_app. simpl sample_of.
  change (String quote "} " +:+ field) with (String quote ("} " +:+ field)).
  rewrite CutAt_app by by apply label_CutAt.
  unfold read_sample. simpl. destruct (ParseFloat text); [|done]. by destruct (ParseUint field).
Qed.

Definition store_samples (kvs : list (float64 * Z)) (values : histogram) : histogram :=
  foldl (λ m kv, <[kv.1 := kv.2]> m) values kvs.

Lemma scrape_print_lines ls values :
  Forall line_ok ls →
  scrape_lines (print_line <$> ls) values =
    match mapM read_sample (omap sample_of ls) with
    | Some kvs => inl (store_samples kvs values)
    | None => inr (EText "invalid pipeline histogram")
    end.
Proof.
  intros Hls. revert values. induction Hls as [|l ls Hl _ IH]; intros values; [done|].
  cbn [fmap list_fmap scrape_lines]. rewrite (scrape_print_line l values Hl).
  change (omap sample_of (l :: ls)) with
    (match sample_of l with Some s => s :: omap sample_of ls | None => omap sample_of ls end).
  destruct (sample_of l) as [s|]; [|apply IH]. cbn [mapM].
  destruct (read_sample s) as [[bound count]|]; [|done]. simpl. rewrite IH.
  by destruct (mapM read_sample _).
Qed.

Lemma Split_page ls : Forall line_ok ls → Split newline (print_page ls) = (print_line <$> ls) ++ [""].
Proof.
  induction 1 as [|l ls Hl _ IH]; [done|]. unfold print_page in *. simpl foldr.
  by rewrite Split_line, IH by by apply print_line_chars.
Qed.

Lemma scan_page ls : Forall line_ok ls → scan_lines (print_page ls) = (print_line <$> ls, None).
Proof.
  intros Hls. unfold scan_lines. rewrite (Split_page ls Hls).
  induction Hls as [|l ls Hl _ IH]; [by vm_compute|].
  cbn [fmap list_fmap app scan_pieces]. rewrite bool_decide_eq_false_2 by (destruct Hl; lia).
  rewrite IH, dropCR_line by by apply print_line_chars. by destruct ls.
Qed.

Lemma store_samples_union kvs values :
  NoDup kvs.*1 → store_samples kvs values = list_to_map kvs ∪ values.
Proof.
  revert values. induction kvs as [|[k v] kvs IH]; intros values; [simpl; by rewrite (left_id_L ∅ (∪))|].
  intros [Hk Hn]%NoDup_cons. cbn [store_samples foldl fst snd]. unfold store_samples in IH.
  rewrite (IH _ Hn). cbn [list_to_map foldr]. rewrite <- insert_union_l, insert_union_r; [done|].
  by apply not_elem_of_list_to_map.
Qed.

Lemma store_samples_nonempty kvs values :
  (kvs ≠ [] ∨ values ≠ ∅) → store_samples kvs values ≠ ∅.
Proof.
  revert values. induction kvs as [|[k v] kvs IH]; intros values Hne; [naive_solver|].
  apply IH. right. apply insert_non_empty.
Qed.

Lemma scrape_page ls :
  Forall line_ok ls →
  scrape_body (print_page ls) =
    match mapM read_sample (omap sample_of ls) with
    | None => inr (EText "invalid pipeline histogram")
    | Some [] => inr (EText "pipeline latency histogram not found")
    | Some kvs => inl (store_samples kvs ∅)
    end.
Proof.
  intros Hls. unfold scrape_body. rewrite (scan_page ls Hls), (scrape_print_lines ls ∅ Hls).
  destruct (mapM _ _) as [[|kv kvs]|]; [done| |done].
  rewrite bool_decide_eq_false_2; [done|]. apply store_samples_nonempty. by left.
Qed.

Lemma scrape_buckets ls (buckets : list (string * float64 * Z)) :
  Forall line_ok ls → omap sample_of ls = (λ b, (b.1.1, Itoa b.2)) <$> buckets →
  Forall (λ b, ParseFloat b.1.1 = Some b.1.2 ∧ in_u64 b.2) buckets → buckets ≠ [] →
  NoDup ((λ b, b.1.2) <$> buckets) →
  scrape_body (print_page ls) = inl (list_to_map ((λ b, (b.1.2, b.2)) <$> buckets)).
Proof.
  intros Hls Eb Hb Hne Hnd. rewrite (scrape_page ls Hls), Eb.
  assert (mapM read_sample ((λ b : string * float64 * Z, (b.1.1, Itoa b.2)) <$> buckets) =
    Some ((λ b, (b.1.2, b.2)) <$> buckets)) as ->.
  { clear -Hb. induction Hb as [|[[text bound] count] bs [Ht Hc] _ IH]; [done|]. simpl in Ht, Hc.
    assert (read_sample (text, Itoa count) = Some (bound, count)) as E.
    { unfold read_sample. simpl. by rewrite Ht, ParseUint_Itoa. }
    cbn [fmap list_fmap mapM fst snd]. rewrite E. cbn [mbind option_bind]. by rewrite IH. }
  destruct buckets as [|b bs]; [done|]. cbn [fmap list_fmap].
  change ((b.1.2, b.2) :: ((λ b, (b.1.2, b.2)) <$> bs)) with ((λ b : string * float64 * Z, (b.1.2, b.2)) <$> b :: bs).
  rewrite store_samples_union, (right_id_L ∅ (∪)); [done|].
  by rewrite <- list_fmap_compose.
Qed.
End Page.

(** ** Waiting loops *)

Section Waiting.
#[local] Set Default Proof Using "Type*".
Context `{TextLib} {X : Type} `{HttpTransport X}.
(** A part of the state that HTTP requests leave alone. *)
Context {T : Type} (frame : X → T) (Do_frame : ∀ r x, frame (Do r x).2 = frame x).

(** Nothing happened but clock readings and HTTP requests. *)
Definition waited (p q : Proc X) : Prop := clock q = clock p ∧ frame (heap q) = frame (heap p).

Lemma waited_trans p q r : waited p q → waited q r → waited p r.
Proof. unfold waited. intros [-> ->] [-> ->]. done. Qed.

Lemma http_Get_waited url (p : Proc X) :
  waited p (http_Get url p).2 ∧ tick (http_Get url p).2 = tick p.
Proof.
  unfold http_Get, waited. destruct (url_ok url) as [e|]; [done|].
  unfold lift. pose proof (Do_frame (mkClientRequest MethodGet url ∅ "") (heap p)) as Hf.
  destruct (Do _ _) as [resp x]. by split.
Qed.

Lemma scrapeHistogram_waited (p : Proc X) :
  waited p (scrapeHistogram p).2 ∧ tick (scrapeHistogram p).2 = tick p.
Proof. unfold scrapeHistogram. rewrite M_bind_eq. apply http_Get_waited. Qed.

(** [values] is what a scrape at the point [p] of the run read. *)
Definition scraped_at (p : Proc X) (r : histogram + error) : Prop :=
  ∃ q, waited p q ∧ (scrapeHistogram q).1 = r.

Lemma scraped_at_trans p q r : waited p q → scraped_at q r → scraped_at p r.
Proof. intros Hw (q' & Hq & Hr). exists q'. split; [by eapply waited_trans|done]. Qed.

Definition wait_result (p : Proc X) (want timeout : Z) (r : histogram + error) : Prop :=
  match r with
  | inl values => want ≤ count_of values ∧ scraped_at p (inl values)
  | inr e => scraped_at p (inr e) ∨
             e = EText ("pipeline did not drain before " +:+ Duration_String timeout)
  end.

Lemma wait_result_trans p q want timeout r :
  waited p q → wait_result q want timeout r → wait_result p want timeout r.
Proof. destruct r; simpl; intuition eauto using scraped_at_trans. Qed.

(** The [k]-th reading from here on is past the deadline: the loop ends, and more
    fuel changes nothing. *)
Lemma wait_until_ends k deadline want timeout (p : Proc X) :
  mono deadline ≤ mono (clock p (tick p + k)%nat) →
  ∃ r q, (∀ fuel, (k < fuel)%nat → wait_until fuel deadline want timeout p = (Some r, q)) ∧
    waited p q ∧ wait_result p want timeout r.
Proof.
  revert p. induction k as [|k IH]; intros p Hd.
  all: set (p1 := mkProc (heap p) (metrics p) (clock p) (tick p + 1)%nat).
  all: assert (waited p p1) as Hp1 by done.
  all: destruct (decide (mono deadline ≤ mono (clock p (tick p)))) as [Hb|Hb].
  2: by rewrite Nat.add_0_r in Hd.
  1, 2: eexists (inr _), p1; split; [|split; [done|by right]];
    intros [|fuel] Hf; [lia|]; cbn [wait_until]; rewrite M_bind_eq; cbn [fst snd Now]; unfold Before;
    by rewrite (proj2 (Z.ltb_ge _ _) Hb).
  assert (∀ fuel, wait_until (S fuel) deadline want timeout p =
    (r ← scrapeHistogram;
     match r with
     | inr e => mret (Some (inr e))
     | inl values => if want <=? count_of values then mret (Some (inl values))
                     else wait_until fuel deadline want timeout
     end) p1) as Hstep.
  { intros fuel. cbn [wait_until]. rewrite M_bind_eq. cbn [fst snd Now]. unfold Before.
    by rewrite (proj2 (Z.ltb_lt _ _)) by lia. }
  destruct (scrapeHistogram_waited p1) as [Hw Ht].
  assert (scraped_at p (scrapeHistogram p1).1) as Hs by by exists p1.
  destruct (scrapeHistogram p1) as [[values|e] p2] eqn:Es; cbn [fst snd] in *.
  2: { exists (inr e), p2. split; [|by split; [apply Hw|left]].
       intros [|fuel] Hf; [lia|]. by rewrite Hstep, M_bind_eq, Es. }
  destruct (Z.leb_spec want (count_of values)) as [Hc|Hc].
  { exists (inl values), p2. split; [|by split; [apply Hw|]].
    intros [|fuel] Hf; [lia|]. rewrite Hstep, M_bind_eq, Es. cbn [fst snd].
    by rewrite (proj2 (Z.leb_le _ _) Hc). }
  destruct (IH p2) as (r & q & Hr & Hq & Hres).
  { rewrite (proj1 Hw), Ht. cbn [clock tick p1].
    by replace (tick p + 1 + k)%nat with (tick p + S k)%nat by lia. }
  exists r, q. split; [|split; [by eapply waited_trans|]].
  - intros [|fuel] Hf; [lia|]. rewrite Hstep, M_bind_eq, Es. cbn [fst snd].
    rewrite (proj2 (Z.leb_gt _ _) Hc). apply Hr. lia.
  - eapply wait_result_trans; [|exact Hres]. by eapply waited_trans.
Qed.

Definition ready_result (p : Proc X) (r : option error) : Prop :=
  match r with
  | None => ∃ q resp, waited p q ∧ (http_Get metricsURL q).1 = inl resp ∧ StatusCode resp = StatusOK
  | Some e => e = EText "aggregator did not become ready"
  end.

Lemma ready_result_trans p q r : waited p q → ready_result q r → ready_result p r.
Proof.
  intros Hw. destruct r; simpl; [done|]. intros (q' & resp & Hq & Hr). exists q', resp.
  split; [by eapply waited_trans|done].
Qed.

Lemma ready_until_ends k deadline (p : Proc X) :
  mono deadline ≤ mono (clock p (tick p + k)%nat) →
  ∃ r q, (∀ fuel, (k < fuel)%nat → ready_until fuel deadline p = (Some r, q)) ∧
    waited p q ∧ ready_result p r.
Proof.
  revert p. induction k as [|k IH]; intros p Hd.
  all: set (p1 := mkProc (heap p) (metrics p) (clock p) (tick p + 1)%nat).
  all: assert (waited p p1) as Hp1 by done.
  all: destruct (decide (mono deadline ≤ mono (clock p (tick p)))) as [Hb|Hb].
  2: by rewrite Nat.add_0_r in Hd.
  1, 2: eexists (Some _), p1; split; [|done];
    intros [|fuel] Hf; [lia|]; cbn [ready_until]; rewrite M_bind_eq; cbn [fst snd Now]; unfold Before;
    by rewrite (proj2 (Z.ltb_ge _ _) Hb).
  destruct (http_Get_waited metricsURL p1) as [Hw Ht].
  destruct (http_Get metricsURL p1) as [resp p2] eqn:Es; cbn [fst snd] in *.
  assert (∀ fuel, ready_until (S fuel) deadline p =
     match resp with
     | inl resp => if bool_decide (StatusCode resp = StatusOK) then mret (Some None)
                   else ready_until fuel deadline
     | inr _ => ready_until fuel deadline
     end p2) as Hstep.
  { intros fuel. cbn [ready_until]. rewrite M_bind_eq. cbn [fst snd Now]. unfold Before.
    rewrite (proj2 (Z.ltb_lt _ _)) by lia. rewrite M_bind_eq. fold p1. by rewrite Es. }
  destruct (IH p2) as (r & q & Hr & Hq & Hres).
  { rewrite (proj1 Hw), Ht. cbn [clock tick p1].
    by replace (tick p + 1 + k)%nat with (tick p + S k)%nat by lia. }
  assert (∃ r q, (∀ fuel, (k < fuel)%nat → ready_until fuel deadline p2 = (Some r, q)) ∧
    waited p q ∧ ready_result p r) as (r' & q' & Hr' & Hq' & Hres').
  { exists r, q. split; [done|].
    split; [by eapply waited_trans|by eapply ready_result_trans; [|exact Hres]]. }
  destruct resp as [resp|e]; [case_bool_decide as Hok|].
  { exists None, p2. split; [|split; [done|by exists p1, resp; rewrite Es]].
    intros [|fuel] Hf; [lia|]. by rewrite Hstep. }
  all: exists r', q'; split; [|done]; intros [|fuel] Hf; [lia|]; rewrite Hstep; apply Hr'; lia.
Qed.

(** The clock passes every instant. *)
Definition clock_diverges (clk : nat → Instant) : Prop :=
  ∀ t, ∃ n, ∀ m, (n ≤ m)%nat → t ≤ mono (clk m).

Lemma waitForSamples_ends want timeout (p : Proc X) :
  clock_diverges (clock p) →
  ∃ r q, (∃ k, ∀ fuel, (k < fuel)%nat → waitForSamples fuel want timeout p = (Some r, q)) ∧
    waited p q ∧ wait_result p want timeout r.
Proof.
  intros Hclk. set (p1 := mkProc (heap p) (metrics p) (clock p) (tick p + 1)%nat).
  destruct (Hclk (mono (clock p (tick p)) + timeout)) as [k Hk].
  destruct (wait_until_ends k (Add (clock p (tick p)) timeout) want timeout p1) as (r & q & Hr & Hq & Hres).
  { apply Hk. lia. }
  exists r, q. split; [exists k; exact Hr|]. split; [exact Hq|]. by eapply wait_result_trans, Hres.
Qed.

Lemma waitForMetrics_ends timeout (p : Proc X) :
  clock_diverges (clock p) →
  ∃ r q, (∃ k, ∀ fuel, (k < fuel)%nat → waitForMetrics fuel timeout p = (Some r, q)) ∧
    waited p q ∧ ready_result p r.
Proof.
  intros Hclk. set (p1 := mkProc (heap p) (metrics p) (clock p) (tick p + 1)%nat).
  destruct (Hclk (mono (clock p (tick p)) + timeout)) as [k Hk].
  destruct (ready_until_ends k (Add (clock p (tick p)) timeout) p1) as (r & q & Hr & Hq & Hres).
  { apply Hk. lia. }
  exists r, q. split; [exists k; exact Hr|]. split; [exact Hq|]. by eapply ready_result_trans, Hres.
Qed.
End Waiting.

(** ** Properties *)

(** C27. Reading a metrics page back.  A page of histogram samples and other lines,
    scraped, gives a histogram with exactly the samples' bounds and counts (the
    last one, should a bound be repeated); one sample whose bound or count is not
    a number makes the page an error, and so does a page without samples. *)
Theorem metrics_page_read `{TextLib} (ls : list page_line) :
  Forall line_ok ls →
  scrape_body (print_page ls) =
    match mapM read_sample (omap sample_of ls) with
    | None => inr (EText "invalid pipeline histogram")
    | Some [] => inr (EText "pipeline latency histogram not found")
    | Some kvs => inl (store_samples kvs ∅)
    end ∧
  (∀ buckets : list (string * float64 * Z),
     omap sample_of ls = (λ b, (b.1.1, Itoa b.2)) <$> buckets →
     Forall (λ b, ParseFloat b.1.1 = Some b.1.2 ∧ in_u64 b.2) buckets → buckets ≠ [] →
     NoDup ((λ b, b.1.2) <$> buckets) →
     scrape_body (print_page ls) = inl (list_to_map ((λ b, (b.1.2, b.2)) <$> buckets))).
Proof. intros Hls. split; [by apply scrape_page|]. intros buckets. by apply scrape_buckets. Qed.

(** ** Concrete inputs *)

(** Bounds are plain decimal numbers and the word of infinity. *)
#[local] Instance page_text : TextLib := {|
  Quote s := s;
  ParseFloat s := if bool_decide (s = "+Inf") then Some (S754_infinity false) else f_of_Z <$> Atoi s;
  ParseDuration _ := None
|}.

Definition small_page (half all : Z) : list page_line :=
  [Other "# TYPE tollify_pipeline_event_duration_seconds histogram"; Bucket "1" (Itoa half);
   Bucket "+Inf" (Itoa all); Other "tollify_pipeline_event_duration_seconds_sum 3.5"].

Lemma metrics_page_read_witness :
  Forall line_ok (small_page 3 8) ∧
  scrape_body (print_page (small_page 3 8)) =
    inl (list_to_map [(f_of_Z 1, 3); (S754_infinity false, 8)]) ∧
  scrape_body (print_page [Bucket "one" "3"]) = inr (EText "invalid pipeline histogram").
Proof.
  assert (∀ s, (String.length s <? 100)%nat = true → (String.length s < MaxScanTokenSize)%nat) as Hlen.
  { intros s Hs%Nat.ltb_lt. unfold MaxScanTokenSize. lia. }
  assert (Forall line_ok (small_page 3 8)) as Hok.
  { repeat (apply Forall_cons; split); [..|apply Forall_nil; exact I];
      (split; [apply Hlen; by vm_compute|by vm_compute]). }
  split; [done|]. split.
  - apply (proj2 (metrics_page_read (small_page 3 8) Hok)
      [("1", f_of_Z 1, 3); ("+Inf", S754_infinity false, 8)]); [by vm_compute| |done|].
    + repeat (apply Forall_cons; split); [..|apply Forall_nil; exact I]; by vm_compute.
    + apply (bool_decide_unpack _). by vm_compute.
  - rewrite (proj1 (metrics_page_read [Bucket "one" "3"] ltac:(apply Forall_singleton;
      split; [apply Hlen; by vm_compute|by vm_compute]))). by vm_compute.
Defined.

