(* ===== verification/BenchMeasure.v ===== *)
(** * BenchMeasure: what the pipeline benchmark measures (src/benchmark/main.go)

    [benchmarkPipeline] ends, whatever the servers answer, and each of its results
    comes from the growth of the histogram around one load.  Against a pipeline
    that samples an event at most once, after it was written, the growth is the
    histogram of the load's own events: the warm-up has been waited for, and so
    has every load before the next one starts. *)

From S2P Require Import Prelude Float64 GoLib Types Store Service Http Decimal Json GoJson Server Client Benchmark BenchTransport BenchPipeline.
From Stdlib Require Import Ascii.

Local Open Scope Z_scope.

(** ** Samples *)

(** A sample of the pipeline histogram: the event and its latency. *)
Abbreviation Sample := (OBUData * float64)%type (only parsing).

Definition events (log : list Sent) : list OBUData := (λ w : Sent, w.1.2) <$> log.

Definition up_to (bound : float64) (l : list Sample) : Z :=
  Z.of_nat (length (filter (λ s : Sample, fleb s.2 bound = true) l)).

(** The cumulative histogram of the samples [l], on top of what it held before. *)
Definition buckets (bounds : list float64) (base : float64 → Z) (l : list Sample) : gmap float64 Z :=
  list_to_map ((λ b, (b, base b + up_to b l)) <$> bounds).

(** What the benchmark relies on: the services sample an event at most once and
    only after it was written, forget no sample, and show them all on the page.
    [samples] are those made of the benchmark's events, [base] is what the
    histogram held before. *)
Section Sampling.
Context `{TextLib} {E : Type} `{HttpTransport E} `{!BenchEnv E}.
Context (samples : E → list Sample) (bounds : list float64) (base : float64 → Z).

Definition counted (e : E) (written : list OBUData) : Prop :=
  (samples e).*1 ⊆+ written ∧ Forall (λ s : Sample, IsNaN s.2 = false) (samples e).

Definition sampling {A} (written written' : list OBUData) (f : E → A * E) : Prop :=
  ∀ e, counted e written → counted (f e).2 written' ∧ samples e `prefix_of` samples (f e).2.

Record samples_events : Prop := {
  law_bounds : NoDup bounds ∧ S754_infinity false ∈ bounds;
  law_Do r written : sampling written written (Do r);
  law_Dial written : sampling written written Dial;
  law_SetWriteDeadline c t written : sampling written written (SetWriteDeadline c t);
  law_WS_Close c written : sampling written written (WS_Close c);
  law_WriteJSON c d written : sampling written (written ++ [d]) (WriteJSON c d);
  law_page e resp values :
    let r := Do (mkClientRequest MethodGet metricsURL ∅ "") e in
    r.1 = inl resp → scrape_body (resp_Body resp) = inl values →
    values = buckets bounds base (samples r.2)
}.

(** Nothing is under way: every event written has been sampled. *)
Definition settled (p : Proc (E * list Sent)) : Prop :=
  counted (heap p).1 (events (heap p).2) ∧ length (samples (heap p).1) = length (heap p).2.
End Sampling.

(** ** Scrapes and loads *)

Lemma scrape_line_u64 `{TextLib} line values r :
  scrape_line line values = inl r → map_Forall (λ _, in_u64) values → map_Forall (λ _, in_u64) r.
Proof.
  unfold scrape_line. intros Hl Hv. repeat case_match; simplify_eq; try done.
  apply map_Forall_insert_2; [by eapply ParseUint_u64|done].
Qed.

Lemma scrape_body_u64 `{TextLib} body r : scrape_body body = inl r → map_Forall (λ _, in_u64) r.
Proof.
  unfold scrape_body. destruct (scan_lines body) as [lines err].
  assert (∀ lines values r, scrape_lines lines values = inl r → map_Forall (λ _, in_u64) values →
    map_Forall (λ _, in_u64) r) as Hl.
  { clear. induction lines as [|line lines IH]; simpl; intros values r; [by intros [= <-]|].
    destruct (scrape_line line values) eqn:E; [|done]. eauto using scrape_line_u64. }
  destruct (scrape_lines lines ∅) as [values|e] eqn:E; [|done].
  case_bool_decide; [done|]. destruct err; [done|]. intros [= <-].
  by eapply Hl, map_Forall_empty.
Qed.

Lemma scrapeHistogram_u64 `{TextLib} {X} `{HttpTransport X} (q : Proc X) r :
  (scrapeHistogram q).1 = inl r → map_Forall (λ _, in_u64) r.
Proof.
  unfold scrapeHistogram. rewrite M_bind_eq. cbn [fst mret M_ret].
  destruct (http_Get metricsURL q).1; [apply scrape_body_u64|done].
Qed.

Section Traced.
Context `{TextLib} {E : Type} `{HttpTransport E} `{!BenchEnv E}.
Context (cvt : float64 → Z).
Abbreviation W := (E * list Sent)%type.

#[export] Instance traced_http : HttpTransport W := {|
  Do r w := ((Do r w.1).1, ((Do r w.1).2, w.2));
  url_ok := url_ok
|}.

Lemma traced_Do r (w : W) : (Do r w).2.2 = w.2.
Proof. done. Qed.

Abbreviation idle := (@waited W (list Sent) snd).

(** [values] was scraped when exactly the events of [log] had been written. *)
Definition scraped (log : list Sent) (values : histogram) : Prop :=
  ∃ q : Proc W, (heap q).2 = log ∧ (scrapeHistogram q).1 = inl values.

Definition growth (after before : histogram) : histogram :=
  map_imap (λ bound count, Some (count - default 0 (before !! bound))) after.

(** [r] measures the load [sent], and nothing else, after the writes of [log]. *)
Definition measured_load (duration load : Z) (log sent : list Sent) (r : result) : Prop :=
  ∃ before after, scraped log before ∧ scraped (log ++ sent) after ∧
    length sent = Z.to_nat (load_total cvt load duration) ∧ written_ok sent = length sent ∧
    NoDup ((λ w : Sent, od_EventID w.1.2) <$> sent) ∧
    count_of after = count_of before + wrapU 64 (load_total cvt load duration) ∧
    (∀ bound count, after !! bound = Some count → default 0 (before !! bound) ≤ count) ∧
    r = mkResult (Itoa load) (quantile_duration cvt (growth after before) quantile_95)
                             (quantile_duration cvt (growth after before) quantile_99).

Lemma measured_facts load count after before r :
  map_Forall (λ _, in_u64) after → map_Forall (λ _, in_u64) before →
  wrapU 64 (count_of before + count) ≤ count_of after →
  measured cvt load count after before = inl r →
  count_of after = count_of before + count ∧
  (∀ bound count, after !! bound = Some count → default 0 (before !! bound) ≤ count) ∧
  r = mkResult (Itoa load) (quantile_duration cvt (growth after before) quantile_95)
                           (quantile_duration cvt (growth after before) quantile_99).
Proof.
  intros Ha Hb Hw. unfold measured.
  pose proof (subtract_histogram_correct after before (λ b c Hc, Ha b c Hc) (λ b c Hc, Hb b c Hc)) as Hs.
  destruct (subtractHistogram after before) as [delta|]; [|done].
  assert (delta = growth after before) as Hd.
  { apply map_eq. intros b. rewrite (proj1 (Hs b)). unfold growth. rewrite map_lookup_imap.
    by destruct (after !! b). }
  rewrite <- Hd. case_bool_decide as Hc; [done|]. intros [= <-].
  split; [|split; [intros b c; apply (Hs b)|done]].
  unfold count_of in *. rewrite (proj1 (Hs _)) in Hc.
  assert (0 ≤ default 0 (before !! S754_infinity false) < 2 ^ 64) as Hr.
  { destruct (before !! S754_infinity false) eqn:Eb; simpl; [by apply Hb in Eb|lia]. }
  destruct (after !! S754_infinity false); simpl in *; [lia|].
  rewrite <- Hc, Z.add_0_r, wrapU_id in Hw by lia. lia.
Qed.

Lemma scrape_idle (p : Proc W) : idle p (scrapeHistogram p).2.
Proof. by apply scrapeHistogram_waited. Qed.

(** *** The samples of a run *)

Lemma waitForSamples_log fuel want timeout (p : Proc W) :
  (heap (waitForSamples fuel want timeout p).2).2 = (heap p).2.
Proof.
  unfold waitForSamples. rewrite M_bind_eq. generalize (Add (Now p).1 timeout) as deadline. intros deadline.
  change (heap p) with (heap (Now p).2). generalize (Now p).2 as p0.
  induction fuel as [|fuel IH]; intros p0; [done|]. cbn [wait_until]. rewrite M_bind_eq.
  destruct (Before _ _); [|done]. rewrite M_bind_eq. pose proof (scrape_idle (Now p0).2) as [_ Hl].
  destruct (scrapeHistogram (Now p0).2) as [[v|e] p1]; cbn [fst snd] in *; [|exact Hl].
  destruct (want <=? count_of v); [|rewrite IH]; exact Hl.
Qed.

Lemma waitForSamples_u64 fuel want timeout (p : Proc W) values :
  (waitForSamples fuel want timeout p).1 = Some (inl values) → map_Forall (λ _, in_u64) values.
Proof.
  unfold waitForSamples. rewrite M_bind_eq. generalize (Add (Now p).1 timeout) as deadline. intros deadline.
  generalize (Now p).2 as p0. induction fuel as [|fuel IH]; intros p0; [done|].
  cbn [wait_until]. rewrite M_bind_eq. destruct (Before _ _); [|done]. rewrite M_bind_eq.
  pose proof (scrapeHistogram_u64 (Now p0).2) as Hs.
  destruct (scrapeHistogram (Now p0).2) as [[v|e] p1]; cbn [fst snd] in *; [|done].
  destruct (want <=? count_of v); [|apply IH]. cbn. intros [= <-]. by apply Hs.
Qed.

Section Own.
#[local] Set Default Proof Using "Type*".
Context (samples : E → list Sample) (bounds : list float64) (base : float64 → Z).
Context (laws : samples_events samples bounds base).

Definition here (p : Proc W) : list Sample := samples (heap p).1.
Definition sound (p : Proc W) : Prop := counted samples (heap p).1 (events (heap p).2).

(** [m] forgets no sample and makes none of its own. *)
Definition keeps {A} (m : M (Proc W) A) : Prop :=
  ∀ p, sound p → sound (m p).2 ∧ here p `prefix_of` here (m p).2.

Lemma keeps_ret {A} (a : A) : keeps (mret a).
Proof. by intros p Hp. Qed.
Lemma keeps_Now : keeps Now.
Proof. by intros p Hp. Qed.
Lemma keeps_Since t : keeps (Since t).
Proof. by intros p Hp. Qed.
Lemma keeps_bind {A B} (m : M (Proc W) A) (f : A → M (Proc W) B) :
  keeps m → (∀ a, keeps (f a)) → keeps (m ≫= f).
Proof.
  intros Hm Hf p Hp. rewrite M_bind_eq. destruct (Hm p Hp) as [H1 H2].
  destruct (Hf (m p).1 (m p).2 H1) as [H3 H4]. split; [done|by etrans].
Qed.
Lemma keeps_Do r : keeps (lift (Do r)).
Proof. intros p Hp. by apply (law_Do _ _ _ laws). Qed.
Lemma keeps_Dial : keeps (lift Dial).
Proof. intros p Hp. by apply (law_Dial _ _ _ laws). Qed.
Lemma keeps_SetWriteDeadline c t : keeps (lift (SetWriteDeadline c t)).
Proof. intros p Hp. by apply (law_SetWriteDeadline _ _ _ laws). Qed.
Lemma keeps_WS_Close c : keeps (lift (WS_Close c)).
Proof. intros p Hp. by apply (law_WS_Close _ _ _ laws). Qed.
Lemma keeps_WriteJSON c d : keeps (lift (WriteJSON c d)).
Proof.
  intros p Hp. unfold sound, events. cbn. rewrite fmap_app.
  by apply (law_WriteJSON _ _ _ laws c d).
Qed.
#[local] Hint Resolve keeps_ret keeps_Now keeps_Since keeps_Do keeps_Dial keeps_SetWriteDeadline
  keeps_WS_Close keeps_WriteJSON : toll.

Ltac keeps :=
  repeat first [ progress intros | solve [auto with toll] | apply keeps_bind | case_match ].

Lemma keeps_scrape : keeps scrapeHistogram.
Proof. unfold scrapeHistogram, http_Get. keeps. Qed.

Lemma keeps_wait fuel want timeout : keeps (waitForSamples fuel want timeout).
Proof.
  unfold waitForSamples. apply keeps_bind; [auto with toll|]. intros now. generalize (Add now timeout) as deadline.
  intros deadline. induction fuel; cbn [wait_until]; pose proof keeps_scrape; keeps.
Qed.

Lemma keeps_load rate duration label : keeps (sendPipelineLoad cvt rate duration label).
Proof.
  assert (∀ n ws, keeps (dial_all n ws)) as Hd by (induction n; intros; cbn [dial_all]; keeps).
  assert (∀ ws, keeps (close_all ws)) as Hc by (induction ws; cbn [close_all]; keeps).
  assert (∀ run ws n i, keeps (send_events label run ws n i)) as Hs
    by (intros run ws n; induction n; intros i; cbn [send_events]; keeps).
  unfold sendPipelineLoad. keeps.
Qed.

(** *** What a page shows *)

Lemma up_to_app b l l' : up_to b (l ++ l') = up_to b l + up_to b l'.
Proof. unfold up_to. rewrite filter_app, length_app. lia. Qed.

Lemma buckets_lookup (base' : float64 → Z) l b :
  buckets bounds base' l !! b = if bool_decide (b ∈ bounds) then Some (base' b + up_to b l) else None.
Proof.
  unfold buckets. case_bool_decide as Hb.
  - apply elem_of_list_to_map; [|by apply list_elem_of_fmap; exists b].
    rewrite <- list_fmap_compose. unfold compose. cbn. rewrite list_fmap_id. apply (law_bounds _ _ _ laws).
  - apply not_elem_of_list_to_map. rewrite <- list_fmap_compose. unfold compose. cbn. by rewrite list_fmap_id.
Qed.

Lemma up_to_inf l : Forall (λ s : Sample, IsNaN s.2 = false) l → up_to (S754_infinity false) l = Z.of_nat (length l).
Proof.
  unfold up_to. intros Hl. f_equal. f_equal. induction Hl as [|[d x] l Hx _ IH]; [done|].
  rewrite filter_cons_True; [by rewrite IH|]. cbn in *. by destruct x as [|[]| |].
Qed.

Lemma count_of_buckets l :
  Forall (λ s : Sample, IsNaN s.2 = false) l →
  count_of (buckets bounds base l) = base (S754_infinity false) + Z.of_nat (length l).
Proof.
  intros Hl. unfold count_of. rewrite buckets_lookup, bool_decide_eq_true_2 by apply (law_bounds _ _ _ laws).
  cbn. by rewrite up_to_inf.
Qed.

Lemma growth_buckets l new :
  growth (buckets bounds base (l ++ new)) (buckets bounds base l) = buckets bounds (λ _, 0) new.
Proof.
  apply map_eq. intros b. unfold growth. rewrite map_lookup_imap, !buckets_lookup.
  case_bool_decide; [|done]. cbn. rewrite up_to_app. f_equal. lia.
Qed.

Lemma scrape_shows (p : Proc W) values :
  (scrapeHistogram p).1 = inl values → values = buckets bounds base (here (scrapeHistogram p).2).
Proof.
  unfold scrapeHistogram. rewrite M_bind_eq. unfold http_Get. destruct (url_ok metricsURL); [done|].
  cbn [fst snd mret M_ret]. set (r := mkClientRequest MethodGet metricsURL ∅ "").
  change (lift (Do r) p).1 with (Do r (heap p).1).1.
  change (here (lift (Do r) p).2) with (samples (Do r (heap p).1).2).
  destruct (Do r (heap p).1).1 as [resp|] eqn:Er; [|done]. intros Hv.
  by apply (law_page _ _ _ laws (heap p).1 resp).
Qed.

Lemma wait_shows fuel want timeout (p : Proc W) values :
  (waitForSamples fuel want timeout p).1 = Some (inl values) →
  want ≤ count_of values ∧ values = buckets bounds base (here (waitForSamples fuel want timeout p).2).
Proof.
  unfold waitForSamples. rewrite M_bind_eq. generalize (Add (Now p).1 timeout) as deadline.
  intros deadline. generalize (Now p).2 as p0. induction fuel as [|fuel IH]; intros p0; [done|].
  cbn [wait_until]. rewrite M_bind_eq. destruct (Before _ _); [|done]. rewrite M_bind_eq.
  pose proof (scrape_shows (Now p0).2) as Hs.
  destruct (scrapeHistogram (Now p0).2) as [[v|e] p1]; cbn [fst snd] in *; [|done].
  destruct (Z.leb_spec want (count_of v)); [|apply IH]. cbn. intros [= <-]. auto.
Qed.

(** *** Settled runs *)

Lemma settled_again (p q : Proc W) :
  settled samples p → sound q → here p `prefix_of` here q → (heap q).2 = (heap p).2 →
  settled samples q ∧ here q = here p.
Proof.
  intros [_ Hlen] Hq [new Hn] Hl. pose proof (submseteq_length _ _ (proj1 Hq)) as Hle.
  rewrite Hl in Hle. unfold events in Hle. rewrite !length_fmap in Hle.
  change (samples (heap q).1) with (here q) in Hle. rewrite Hn, length_app in Hle.
  change (length (here p) = length (heap p).2) in Hlen.
  destruct new; [rewrite app_nil_r in Hn|simpl in Hle; lia].
  split; [split; [done|]|done]. change (length (here q) = length (heap q).2). by rewrite Hn, Hl.
Qed.

Lemma count_of_u64 values : map_Forall (λ _, in_u64) values → 0 ≤ count_of values < 2 ^ 64.
Proof.
  intros Hv. unfold count_of. destruct (values !! S754_infinity false) eqn:Ev; cbn; [|lia].
  by apply Hv in Ev.
Qed.

(** As many new samples as new events: the samples are of those events. *)
Lemma settled_new (p q : Proc W) sent new :
  settled samples p → sound q → here q = here p ++ new → (heap q).2 = (heap p).2 ++ sent →
  (length new ≤ length sent)%nat ∧
  (length new = length sent → settled samples q ∧ new.*1 ≡ₚ events sent).
Proof.
  intros [Hp Hlen] Hq Hn Hl. destruct Hp as [Hp _].
  assert ((here p).*1 ≡ₚ events (heap p).2) as Hperm.
  { apply submseteq_length_Permutation; [done|]. unfold events. rewrite !length_fmap. unfold here. lia. }
  pose proof (proj1 Hq) as Hsub. unfold here in Hn. rewrite Hn, Hl in Hsub. unfold events in Hsub.
  rewrite !fmap_app in Hsub. change (samples (heap p).1) with (here p) in Hsub. rewrite Hperm in Hsub.
  apply submseteq_app_inv_l in Hsub. pose proof (submseteq_length _ _ Hsub) as Hle.
  rewrite !length_fmap in Hle. split; [done|]. intros He. split.
  - split; [done|]. rewrite Hn, Hl, !length_app. unfold here in *. lia.
  - apply submseteq_length_Permutation; [done|]. unfold events. rewrite !length_fmap. lia.
Qed.

(** The result of a load is that of the samples of its own events. *)
Definition own_load (load : Z) (sent : list Sent) (r : result) : Prop :=
  ∃ own : list Sample, own.*1 ≡ₚ events sent ∧
    r = mkResult (Itoa load) (quantile_duration cvt (buckets bounds (λ _, 0) own) quantile_95)
                             (quantile_duration cvt (buckets bounds (λ _, 0) own) quantile_99).

Lemma load_total_wraps rate duration n :
  (∀ x, in_i64 (cvt x)) → Z.of_nat n = wrapU 64 (load_total cvt rate duration) →
  (n ≤ Z.to_nat (load_total cvt rate duration))%nat → n = Z.to_nat (load_total cvt rate duration).
Proof.
  intros Hcvt Hn Hle.
  assert (in_i64 (load_total cvt rate duration)) as Hr.
  { unfold load_total. generalize (math_Round (fmul (f_of_Z rate) (Seconds duration))) as x. intros x.
    destruct x; cbn; try apply Hcvt; [unfold in_i64; lia|]. case_bool_decide; [done|apply Hcvt]. }
  unfold in_i64 in Hr. destruct (Z.leb_spec 0 (load_total cvt rate duration)).
  - rewrite wrapU_id in Hn by lia. lia.
  - unfold wrapU in Hn. rewrite <- (Z_mod_plus_full _ 1), Z.mod_small in Hn by lia. lia.
Qed.

Lemma run_load_own fuel duration load (p q : Proc W) r :
  (∀ x, in_i64 (cvt x)) → settled samples p →
  run_load cvt fuel duration load p = (Some (inl r), q) →
  settled samples q ∧ ∀ sent, (heap q).2 = (heap p).2 ++ sent → own_load load sent r.
Proof.
  intros Hcvt Hp. unfold run_load. rewrite M_bind_eq.
  pose proof (keeps_scrape p (proj1 Hp)) as [S1 P1]. pose proof (scrape_shows p) as Hb.
  pose proof (scrape_idle p) as [_ L1]. pose proof (scrapeHistogram_u64 p) as U1.
  destruct (scrapeHistogram p) as [[before|e] p1]; cbn [fst snd] in *; [|done].
  destruct (settled_again p p1 Hp S1 P1 L1) as [Hp1 _]. rewrite M_bind_eq.
  pose proof (keeps_load load duration "load" p1 S1) as [S2 P2].
  destruct (pipeline_load_facts cvt load duration "load" p1) as (sent & run & L2 & _ & Hres).
  destruct (sendPipelineLoad cvt load duration "load" p1) as [[count [e|]] p2]; cbn [fst snd] in *; [done|].
  destruct Hres as (-> & Hlen & _). set (total := load_total cvt load duration) in *. rewrite M_bind_eq.
  set (want := wrapU 64 _). set (timeout := Z.max _ _).
  pose proof (keeps_wait fuel want timeout p2 S2) as [S3 P3].
  pose proof (wait_shows fuel want timeout p2) as Ha.
  pose proof (waitForSamples_log fuel want timeout p2) as L3.
  pose proof (waitForSamples_u64 fuel want timeout p2) as U3.
  destruct (waitForSamples fuel want timeout p2) as [[[after|e]|] p3]; cbn [fst snd mret M_ret] in *; [|done..].
  intros [= Hm <-]. specialize (Hb _ eq_refl). destruct (Ha _ eq_refl) as [Hw Ha'].
  destruct (measured_facts _ _ _ _ _ (U3 _ eq_refl) (U1 _ eq_refl) Hw Hm) as (Hc & _ & ->).
  assert (here p1 `prefix_of` here p3) as [new Hnew] by by etrans.
  destruct (settled_new p1 p3 sent new Hp1 S3 Hnew) as [Hle Hown]; [by rewrite L3, L2|].
  rewrite Ha', Hb, !count_of_buckets, Hnew, length_app in Hc by (apply S3 || apply S1).
  assert (length new = length sent) as He.
  { rewrite Hlen. apply load_total_wraps; [done|fold total; lia|fold total; lia]. }
  destruct (Hown He) as [Hq Hperm]. split; [done|]. intros sent' L.
  rewrite L3, L2, L1 in L. apply app_inv_head in L as <-. exists new. split; [done|].
  by rewrite Ha', Hb, Hnew, growth_buckets.
Qed.

Lemma warm_up_own fuel (p q : Proc W) :
  settled samples p → base (S754_infinity false) + Z.of_nat (length (heap p).2) + 100 < 2 ^ 64 →
  warm_up_load cvt fuel p = (Some None, q) → settled samples q.
Proof.
  intros Hp Hsmall. unfold warm_up_load. rewrite M_bind_eq.
  pose proof (keeps_scrape p (proj1 Hp)) as [S1 P1]. pose proof (scrape_shows p) as Hb.
  pose proof (scrape_idle p) as [_ L1]. pose proof (scrapeHistogram_u64 p) as U1.
  destruct (scrapeHistogram p) as [[before|e] p1]; cbn [fst snd] in *; [|done].
  destruct (settled_again p p1 Hp S1 P1 L1) as [Hp1 _]. rewrite M_bind_eq.
  pose proof (keeps_load 50 (2 * Second) "warm" p1 S1) as [S2 P2].
  destruct (pipeline_load_facts cvt 50 (2 * Second) "warm" p1) as (warm & run & L2 & _ & Hres).
  destruct (sendPipelineLoad cvt 50 (2 * Second) "warm" p1) as [[count [e|]] p2]; cbn [fst snd] in *; [done|].
  destruct Hres as (_ & Hlen & _). rewrite M_bind_eq.
  assert (length warm = 100%nat) as Hw by (rewrite Hlen; by vm_compute).
  set (want := wrapU 64 _).
  pose proof (keeps_wait fuel want (30 * Second) p2 S2) as [S3 P3].
  pose proof (wait_shows fuel want (30 * Second) p2) as Ha.
  pose proof (waitForSamples_log fuel want (30 * Second) p2) as L3.
  destruct (waitForSamples fuel want (30 * Second) p2) as [[[after|e]|] p3]; cbn [fst snd mret M_ret] in *; [|done..].
  intros [= <-]. specialize (Hb _ eq_refl). destruct (Ha _ eq_refl) as [Hwant Ha'].
  assert (here p1 `prefix_of` here p3) as [new Hnew] by by etrans.
  destruct (settled_new p1 p3 warm new Hp1 S3 Hnew) as [Hle Hown]; [by rewrite L3, L2|].
  apply Hown. pose proof (proj2 Hp1) as Hl1. change (length (here p1) = length (heap p1).2) in Hl1.
  pose proof (count_of_u64 before (U1 _ eq_refl)) as Hu.
  assert (count_of before = base (S754_infinity false) + Z.of_nat (length (here p1))) as Hcb
    by (rewrite Hb; apply count_of_buckets, S1).
  assert (length (here p1) = length (heap p).2) as Hl by (rewrite Hl1; by f_equal).
  unfold want in Hwant. rewrite wrapU_id in Hwant by lia.
  rewrite Ha', count_of_buckets, Hcb, Hnew, length_app in Hwant by apply S3.
  lia.
Qed.
End Own.

(** A load ends, with enough fuel, and what it measured is its own events. *)
Lemma run_load_ends duration load (p : Proc W) :
  clock_diverges (clock p) →
  ∃ r q sent, (∃ k, ∀ fuel, (k < fuel)%nat → run_load cvt fuel duration load p = (Some r, q)) ∧
    clock q = clock p ∧ (heap q).2 = (heap p).2 ++ sent ∧
    match r with inl r => measured_load duration load (heap p).2 sent r | inr _ => True end.
Proof.
  intros Hclk. unfold run_load.
  destruct (scrape_idle p) as [Hc1 Hh1].
  destruct (scrapeHistogram p) as [[before|e] p1] eqn:E1; cbn [fst snd] in *.
  2: { exists (inr e), p1, []. rewrite app_nil_r. split; [|done].
       exists 0%nat. intros fuel _. by rewrite M_bind_eq, E1. }
  destruct (pipeline_load_facts cvt load duration "load" p1) as (sent & run & Hsent & (_ & Hids & _) & Hres).
  pose proof (sendPipelineLoad_clock cvt load duration "load" p1) as Hc2.
  destruct (sendPipelineLoad cvt load duration "load" p1) as [[count [e|]] p2] eqn:E2; cbn [fst snd] in *.
  { exists (inr (EWrap (Itoa load +:+ " events/second: ") e "")), p2, sent.
    split; [|by rewrite Hc2, Hsent, Hh1].
    exists 0%nat. intros fuel _. rewrite M_bind_eq, E1. cbn [fst snd]. by rewrite M_bind_eq, E2. }
  destruct Hres as (-> & Hlen & Hok).
  destruct (waitForSamples_ends snd traced_Do (wrapU 64 (count_of before + wrapU 64 (load_total cvt load duration)))
    (Z.max (30 * Second) (wrapS 64 (duration * 3))) p2) as (r & q & (k & Hr) & [Hc3 Hh3] & Hw).
  { by rewrite Hc2, Hc1. }
  exists (match r with inl after => measured cvt load (wrapU 64 (load_total cvt load duration)) after before
                   | inr e => inr e end), q, sent.
  split; [|split; [by rewrite Hc3, Hc2|split; [by rewrite Hh3, Hsent, Hh1|]]].
  { exists k. intros fuel Hf. rewrite M_bind_eq, E1. cbn [fst snd]. rewrite M_bind_eq, E2. cbn [fst snd].
    rewrite M_bind_eq, (Hr fuel Hf). by destruct r. }
  destruct r as [after|]; [|done]. destruct (measured _ _ _ _ _) as [r|] eqn:Em; [|done].
  destruct Hw as [Hw (q' & [_ Hq'] & Hs)].
  assert ((scrapeHistogram p).1 = inl before) as Hb by by rewrite E1.
  destruct (measured_facts _ _ _ _ _ (scrapeHistogram_u64 _ _ Hs) (scrapeHistogram_u64 _ _ Hb) Hw Em)
    as (H1 & H2 & H3).
  exists before, after. split; [by exists p|]. split; [|done].
  exists q'. split; [|done]. by rewrite Hq', Hsent, Hh1.
Qed.

(** [P log load sent r] holds of every load, its events and its result, [log] being
    what was written before it. *)
Inductive each_load (P : list Sent → Z → list Sent → result → Prop) :
    list Sent → list Z → list result → list Sent → Prop :=
| no_loads log : each_load P log [] [] []
| more_loads log load loads r results sent rest :
    P log load sent r → each_load P (log ++ sent) loads results rest →
    each_load P log (load :: loads) (r :: results) (sent ++ rest).

Lemma each_load_impl (P Q : list Sent → Z → list Sent → result → Prop) log loads results sent :
  each_load P log loads results sent → (∀ log load sent r, P log load sent r → Q log load sent r) →
  each_load Q log loads results sent.
Proof. induction 1; intros Himpl; constructor; auto. Qed.

(** The warm-up is over: before it the histogram was [before], and of the [warm]
    events a scrape has seen at least as many more samples. *)
Definition warmed_up (log warm : list Sent) : Prop :=
  length warm = 100%nat ∧
  ∃ before after, scraped log before ∧ scraped (log ++ warm) after ∧
    wrapU 64 (count_of before + 100) ≤ count_of after.

Section Loads.
#[local] Set Default Proof Using "Type*".
Context (samples : E → list Sample) (bounds : list float64) (base : float64 → Z).
Context (G : Prop) (laws : G → samples_events samples bounds base) (Hcvt : G → ∀ x, in_i64 (cvt x)).

Definition load_facts (duration : Z) (log : list Sent) (load : Z) (sent : list Sent) (r : result) : Prop :=
  measured_load duration load log sent r ∧ (G → own_load bounds load sent r).

Lemma run_loads_ends duration loads results (p : Proc W) :
  clock_diverges (clock p) → (G → settled samples p) →
  ∃ r q, (∃ k, ∀ fuel, (k < fuel)%nat → run_loads cvt fuel duration loads results p = (Some r, q)) ∧
    match r with
    | inl results' => ∃ more sent, results' = results ++ more ∧
        (heap q).2 = (heap p).2 ++ sent ∧ each_load (load_facts duration) (heap p).2 loads more sent
    | inr _ => True
    end.
Proof.
  revert results p. induction loads as [|load loads IH]; intros results p Hclk Hp.
  { exists (inl results), p. split; [by exists 0%nat|]. exists [], []. rewrite !app_nil_r.
    split; [done|]. split; [done|constructor]. }
  destruct (run_load_ends duration load p Hclk) as (r & q & sent & (k & Hr) & Hc & Hh & Hm).
  destruct r as [r|e].
  2: { exists (inr e), q. split; [|done]. exists k. intros fuel Hf. cbn [run_loads].
       by rewrite M_bind_eq, (Hr fuel Hf). }
  assert (G → settled samples q ∧ own_load bounds load sent r) as Hown.
  { intros g. destruct (run_load_own samples bounds base (laws g) (S k) duration load p q r (Hcvt g) (Hp g)
      (Hr (S k) ltac:(lia))) as [Hq Ho]. auto. }
  destruct (IH (results ++ [r]) q) as (r' & q' & (k' & Hr') & Hres); [by rewrite Hc|by intros g; apply Hown|].
  exists r', q'. split.
  - exists (k + k')%nat. intros fuel Hf. cbn [run_loads]. rewrite M_bind_eq, (Hr fuel) by lia.
    apply Hr'. lia.
  - destruct r' as [results'|]; [|done]. destruct Hres as (more & sent' & -> & Hh' & Hms).
    exists (r :: more), (sent ++ sent'). rewrite <- app_assoc, Hh', Hh, <- app_assoc.
    split; [done|]. split; [done|]. rewrite Hh in Hms. constructor; [|done].
    split; [done|]. intros g. by apply Hown.
Qed.

(** The warm-up as the code has it, from the first scrape on. *)
Lemma warm_up_ends (p : Proc W) :
  clock_diverges (clock p) →
  ∃ r q, (∃ k, ∀ fuel, (k < fuel)%nat → warm_up_load cvt fuel p = (Some r, q)) ∧ clock q = clock p ∧
    match r with
    | None => ∃ warm, (heap q).2 = (heap p).2 ++ warm ∧ warmed_up (heap p).2 warm
    | Some _ => True
    end.
Proof.
  intros Hclk. unfold warm_up_load.
  destruct (scrape_idle p) as [Hc1 Hh1].
  destruct (scrapeHistogram p) as [[before|e] p1] eqn:E1; cbn [fst snd] in *.
  2: { exists (Some e), p1. split; [|done]. exists 0%nat. intros fuel _. by rewrite M_bind_eq, E1. }
  destruct (pipeline_load_facts cvt 50 (2 * Second) "warm" p1) as (warm & run & Hsent & _ & Hres).
  pose proof (sendPipelineLoad_clock cvt 50 (2 * Second) "warm" p1) as Hc2.
  destruct (sendPipelineLoad cvt 50 (2 * Second) "warm" p1) as [[count [e|]] p2] eqn:E2; cbn [fst snd] in *.
  { exists (Some e), p2. split; [|by rewrite Hc2]. exists 0%nat. intros fuel _.
    rewrite M_bind_eq, E1. cbn [fst snd]. by rewrite M_bind_eq, E2. }
  destruct Hres as (_ & Hlen & _).
  assert (length warm = 100%nat) as Hw by (rewrite Hlen; by vm_compute).
  destruct (waitForSamples_ends snd traced_Do (wrapU 64 (count_of before + 100)) (30 * Second) p2)
    as (r & q & (k & Hr) & [Hc3 Hh3] & Hwait); [by rewrite Hc2, Hc1|].
  exists (match r with inl _ => None | inr e => Some e end), q.
  split; [|split; [by rewrite Hc3, Hc2|]].
  { exists k. intros fuel Hf. rewrite M_bind_eq, E1. cbn [fst snd]. rewrite M_bind_eq, E2. cbn [fst snd].
    rewrite M_bind_eq, (Hr fuel Hf). by destruct r. }
  destruct r as [after|e]; [|done]. destruct Hwait as [Hwant (q' & [_ Hq'] & Hs)].
  exists warm. split; [by rewrite Hh3, Hsent, Hh1|]. split; [done|]. exists before, after.
  split; [by exists p; rewrite E1|]. split; [|done]. exists q'. by rewrite Hq', Hsent, Hh1.
Qed.

Lemma benchmarkPipeline_ends cfg (p : Proc W) :
  clock_diverges (clock p) →
  (G → settled samples p ∧ base (S754_infinity false) + Z.of_nat (length (heap p).2) + 100 < 2 ^ 64) →
  ∃ r q, (∃ k, ∀ fuel, (k < fuel)%nat → benchmarkPipeline cvt fuel cfg p = (Some r, q)) ∧
    match r with
    | inl results => ∃ warm sent, (heap q).2 = (heap p).2 ++ warm ++ sent ∧ warmed_up (heap p).2 warm ∧
        each_load (load_facts (cfg_duration cfg)) ((heap p).2 ++ warm) (cfg_loads cfg) results sent
    | inr _ => True
    end.
Proof.
  intros Hclk Hp. unfold benchmarkPipeline.
  destruct (warm_up_ends p Hclk) as (r & q & (k & Hr) & Hc & Hres).
  destruct r as [e|].
  { exists (inr e), q. split; [|done]. exists k. intros fuel Hf. by rewrite M_bind_eq, (Hr fuel Hf). }
  destruct Hres as (warm & Hh & Hwarm).
  destruct (run_loads_ends (cfg_duration cfg) (cfg_loads cfg) [] q) as (r & q' & (k' & Hr') & Hres).
  { by rewrite Hc. }
  { intros g. destruct (Hp g) as [Hs Hsmall].
    by apply (warm_up_own samples bounds base (laws g) (S k) p q Hs Hsmall), Hr; lia. }
  exists r, q'. split.
  - exists (k + k')%nat. intros fuel Hf. rewrite M_bind_eq, (Hr fuel) by lia. apply Hr'. lia.
  - destruct r as [results|]; [|done]. destruct Hres as (more & sent & -> & Hh' & Hm).
    rewrite Hh in Hm, Hh'. exists warm, sent. by rewrite Hh', <- app_assoc.
Qed.
End Loads.
End Traced.

(** ** Properties *)

(** C26. The pipeline benchmark ends, and what it reports is its own load.  On a
    clock that goes on for ever, whatever the servers answer, it returns with
    enough fuel (and more fuel changes nothing).  When it returns results, the 100
    warm-up events were written first, and then the histogram was seen to have
    grown by at least 100 since the start; after that there is one result for
    each configured load, in order: all events of the load were written, under
    distinct ids; between a scrape made before any of them and a scrape made
    after all of them the histogram grew by exactly their number, and no bucket
    shrank; and the two latencies are quantiles of that growth.  When the services
    sample every event at most once and after it was written, show all their
    samples on the page, and had sampled everything at the start, the growth is
    the histogram of the samples of exactly the events of that load: none of the
    warm-up or of another load is among them. *)
Theorem pipeline_benchmark_measures `{TextLib} {E} `{HttpTransport E} `{!BenchEnv E}
    (cvt : float64 → Z) (cfg : config) (p : Proc (E * list Sent))
    (samples : E → list (OBUData * float64)) (bounds : list float64) (base : float64 → Z) :
  clock_diverges (clock p) →
  let one_sample_each := samples_events samples bounds base ∧ (∀ x, in_i64 (cvt x)) ∧
    settled samples p ∧ base (S754_infinity false) + Z.of_nat (length (heap p).2) + 100 < 2 ^ 64 in
  ∃ r q, (∃ k, ∀ fuel, (k < fuel)%nat → benchmarkPipeline cvt fuel cfg p = (Some r, q)) ∧
    match r with
    | inl results => ∃ warm sent, (heap q).2 = (heap p).2 ++ warm ++ sent ∧ warmed_up (heap p).2 warm ∧
        each_load (λ log load sent r, measured_load cvt (cfg_duration cfg) load log sent r ∧
                     (one_sample_each → own_load cvt bounds load sent r))
          ((heap p).2 ++ warm) (cfg_loads cfg) results sent
    | inr _ => True
    end.
Proof.
  intros Hclk G. apply (benchmarkPipeline_ends cvt samples bounds base G); [by intros [? _]|
    by intros (_ & ? & _)|done|by intros (_ & _ & ? & ?)].
Qed.

(** ** Concrete inputs *)

#[local] Existing Instance page_text.

(** Services that sample every event when it is written, at two seconds.  Seven
    samples were there before; after 200 more the page is not served any longer. *)
Definition test_bounds : list float64 := [f_of_Z 1; S754_infinity false].
Definition test_base (b : float64) : Z := if bool_decide (b = S754_infinity false) then 7 else 0.

#[local] Instance sampling_http : HttpTransport (list Sample) := {|
  Do r e :=
    (if Z.of_nat (length e) <? 200
     then inl (mkClientResponse 200 (print_page
            (small_page (up_to (f_of_Z 1) e) (7 + up_to (S754_infinity false) e))))
     else inr (EText "too many samples"), e);
  url_ok _ := None
|}.

#[local] Instance sampling_sockets : BenchEnv (list Sample) := {|
  Dial e := (inl 0%nat, e);
  SetWriteDeadline _ _ e := (None, e);
  WriteJSON _ d e := (None, e ++ [(d, f_of_Z 2)]);
  WS_Close _ e := (None, e)
|}.

Lemma up_to_range b (l : list Sample) : 0 ≤ up_to b l ≤ Z.of_nat (length l).
Proof. unfold up_to. pose proof (length_filter (λ s : Sample, fleb s.2 b = true) l). lia. Qed.

Definition bucket_ok (l : page_line) : bool :=
  match l with
  | Bucket text field => all_chars label_char text && all_chars visible field && negb (bool_decide (field = ""))
      && (String.length (print_line l) <? 100)%nat
  | Other _ => false
  end.

Lemma bucket_ok_spec l : bucket_ok l = true → line_ok l.
Proof.
  destruct l as [text field|]; [|done]. unfold bucket_ok.
  intros [[[Ht Hf]%andb_true_iff Hne%negb_true_iff%bool_decide_eq_false]%andb_true_iff Hl%Nat.ltb_lt]%andb_true_iff.
  split; [unfold MaxScanTokenSize; lia|done].
Qed.

(** The small numbers, one by one. *)
Lemma small_buckets : forallb (λ n, bucket_ok (Bucket "1" (Itoa (Z.of_nat n))) &&
                                    bucket_ok (Bucket "+Inf" (Itoa (Z.of_nat n)))) (seq 0 207) = true.
Proof. by vm_compute. Qed.

Lemma small_page_ok half all : 0 ≤ half < 207 → 0 ≤ all < 207 → Forall line_ok (small_page half all).
Proof.
  assert (∀ z, 0 ≤ z < 207 → line_ok (Bucket "1" (Itoa z)) ∧ line_ok (Bucket "+Inf" (Itoa z))) as Hb.
  { intros z Hz. pose proof (proj1 (forallb_forall _ _) small_buckets (Z.to_nat z)) as Hn.
    rewrite in_seq, Z2Nat.id in Hn by lia.
    destruct (proj1 (andb_true_iff _ _) (Hn ltac:(lia))) as [H1 H2]. by split; apply bucket_ok_spec. }
  intros Hh Ha. unfold small_page. repeat (apply Forall_cons; split); [|by apply Hb..| |done].
  all: split; [unfold MaxScanTokenSize; apply Nat.ltb_lt; by vm_compute|by vm_compute].
Qed.

Lemma sampling_laws : samples_events id test_bounds test_base.
Proof.
  assert (∀ (e : list Sample) written, sampling id written written (λ e, ((), e))) as Hsame by done.
  split; try (intros; by intros e He).
  - split; [apply (bool_decide_eq_true_1 _); by vm_compute|right; by left].
  - intros c d written e [Hs Hn]. split; [split|by eexists].
    + change ((e ++ [(d, f_of_Z 2)]).*1 ⊆+ written ++ [d]). rewrite fmap_app. by apply submseteq_app.
    + apply Forall_app_2; [done|by apply Forall_singleton].
  - intros e resp values r. unfold r, Do, sampling_http. cbn [fst snd].
    destruct (Z.ltb_spec (Z.of_nat (length e)) 200) as [Hlt|]; [|done].
    intros Hr%(f_equal (λ r, match r with inl r => resp_Body r | inr _ => "" end)). cbn [resp_Body] in Hr.
    rewrite <- Hr. unfold id.
    pose proof (up_to_range (f_of_Z 1) e). pose proof (up_to_range (S754_infinity false) e).
    rewrite (scrape_buckets _ [("1", f_of_Z 1, up_to (f_of_Z 1) e);
        ("+Inf", S754_infinity false, 7 + up_to (S754_infinity false) e)]);
      [by intros [= <-]|apply small_page_ok; lia|done| |done|].
    + repeat (apply Forall_cons; split); [..|done]; (split; [by vm_compute|unfold in_u64; cbn [fst snd]; lia]).
    + apply (bool_decide_eq_true_1 _). by vm_compute.
Qed.

Definition counting_clock (n : nat) : Instant := mkInstant (Z.of_nat n) (Z.of_nat n).
Definition counting_start : Proc (list Sample * list Sent) := mkProc ([], []) [] counting_clock 0.
Definition counting_config : config := mkConfig 100 1 Second [2; 3] "report".

Lemma pipeline_benchmark_measures_witness :
  clock_diverges counting_clock ∧ samples_events id test_bounds test_base ∧
  settled id counting_start ∧
  ∃ results q k, (∀ fuel, (k < fuel)%nat →
      benchmarkPipeline (λ _, 0) fuel counting_config counting_start = (Some (inl results), q)) ∧
    (res_name <$> results) = ["2"; "3"] ∧
    ∃ warm sent, (heap q).2 = warm ++ sent ∧ warmed_up [] warm ∧
      each_load (λ _ load sent r, own_load (λ _, 0) test_bounds load sent r) warm [2; 3] results sent.
Proof.
  assert (clock_diverges counting_clock) as Hclk.
  { intros t. exists (Z.to_nat t). intros m Hm. simpl. lia. }
  assert (settled id counting_start) as Hset by done.
  split; [done|]. split; [apply sampling_laws|]. split; [done|].
  destruct (pipeline_benchmark_measures (λ _, 0) counting_config counting_start id test_bounds test_base Hclk)
    as (r & q & (k & Hr) & Hres).
  assert (∀ n, (res_name <$> match (benchmarkPipeline (λ _, 0) (S n) counting_config counting_start).1 with
                | Some (inl results) => results | _ => [] end) = ["2"; "3"]) as Hnames
    by (intros n; by vm_compute).
  specialize (Hnames k). rewrite (Hr (S k)) in Hnames by lia. cbn [fst] in Hnames.
  destruct r as [results|e]; [|done]. exists results, q, k. split; [done|]. split; [done|].
  destruct Hres as (warm & sent & Hh & Hw & He). exists warm, sent. split; [done|]. split; [done|].
  apply (each_load_impl _ _ _ _ _ _ He). intros log load s r [_ Ho]. apply Ho.
  split; [apply sampling_laws|]. split; [intros _; unfold in_i64; lia|]. split; [done|by vm_compute].
Defined.
