(* ===== verification/Metrics.v ===== *)
(** * Metrics: the Prometheus collectors of every program

    The [var] blocks that register the collectors with [promauto], one list per
    source file, and one registry per program.  client_golang panics when two
    collectors of a process have one name, when the buckets of a histogram do not
    increase, and when [WithLabelValues] gets another number of values than the
    vector has labels.  Here: no program panics in this way, at start or in any
    execution of what is modelled of it, the goroutines of the load generator
    included ([metered_step] of ObuMetrics.v); and the benchmark scrapes a metric that
    the aggregator has, in the form that it has it. *)

From S2P Require Import Prelude Float64 GoLib Types Store Service Http Decimal Json GoJson Server Calculator Client Gateway Consumer Pipeline Obu LoadMain ObuConcurrency ObuMetrics Receiver Benchmark BenchPipeline.

Local Open Scope Z_scope.

(** ** Collectors *)

Inductive MetricKind :=
| CounterKind
| GaugeKind
| HistogramKind (Buckets : list float64).

Record MetricDesc := mkDesc {
  desc_name : string;
  desc_kind : MetricKind;
  desc_labels : list string
}.

(** [Namespace: "tollify"]: the full name joins it to the name. *)
Definition tollify (Name : string) : string := "tollify_" +:+ Name.

Definition NewCounter (Name : string) : MetricDesc := mkDesc (tollify Name) CounterKind [].
Definition NewCounterVec (Name : string) (labels : list string) : MetricDesc :=
  mkDesc (tollify Name) CounterKind labels.
Definition NewGauge (Name : string) : MetricDesc := mkDesc (tollify Name) GaugeKind [].
Definition NewGaugeVec (Name : string) (labels : list string) : MetricDesc :=
  mkDesc (tollify Name) GaugeKind labels.
Definition NewHistogram (Name : string) (Buckets : list float64) : MetricDesc :=
  mkDesc (tollify Name) (HistogramKind Buckets) [].
Definition NewHistogramVec (Name : string) (Buckets : list float64) (labels : list string)
    : MetricDesc := mkDesc (tollify Name) (HistogramKind Buckets) labels.

(** Bucket bounds, written in units of 10 microseconds. *)
Definition bounds (units : list Z) : list float64 := (λ n, f_of_ratio n 100000) <$> units.

(** ** The registries *)

(** aggregator/grpc.go *)
Definition grpc_server_metrics : list MetricDesc :=
  [NewHistogramVec "grpc_server_request_duration_seconds"
     (bounds [25; 50; 100; 250; 500; 1000; 2500; 5000; 10000; 25000; 50000; 100000]) ["method"];
   NewCounterVec "grpc_requests_total" ["role"; "method"; "code"]].

(** aggregator/http.go *)
Definition http_server_metrics : list MetricDesc :=
  [NewHistogramVec "http_server_request_duration_seconds"
     (bounds [25; 50; 100; 250; 500; 1000; 2500; 5000; 10000; 25000; 50000; 100000])
     ["method"; "route"];
   NewCounterVec "http_requests_total" ["role"; "method"; "operation"; "code"];
   NewCounterVec "aggregator_events_received_total" ["protocol"];
   NewGaugeVec "aggregator_open_connections" ["protocol"]].

(** [prometheus.ExponentialBuckets]: [count] bounds from [start], each [factor]
    times the one before. *)
Class BucketsLib := { ExponentialBuckets : float64 → float64 → nat → list float64 }.
Class BucketsLaws `{BucketsLib} := {
  ExponentialBuckets_length start factor count :
    length (ExponentialBuckets start factor count) = count;
  ExponentialBuckets_start start factor count :
    (0 < count)%nat → ExponentialBuckets start factor count !! 0%nat = Some start;
  ExponentialBuckets_next start factor count i x y :
    ExponentialBuckets start factor count !! i = Some x →
    ExponentialBuckets start factor count !! S i = Some y → y = fmul x factor
}.

(** The same bounds as a loop. *)
Fixpoint exp_buckets (start factor : float64) (count : nat) : list float64 :=
  match count with
  | O => []
  | S n => start :: exp_buckets (fmul start factor) factor n
  end.
#[local] Instance exp_lib : BucketsLib := {| ExponentialBuckets := exp_buckets |}.

(** aggregator/middleware.go *)
Definition aggregator_metrics `{BucketsLib} : list MetricDesc :=
  [NewHistogram "aggregation_operation_duration_seconds"
     (bounds [10; 25; 50; 100; 250; 500; 1000; 2500; 5000; 10000]);
   NewHistogram "pipeline_event_duration_seconds"
     (ExponentialBuckets (f_of_ratio 25 100000) (f_of_ratio 13 10) 44);
   NewCounter "aggregator_events_applied_total";
   NewCounter "aggregator_duplicate_events_total";
   NewCounter "aggregator_store_errors_total"].

(** aggregator/client/grpcClient.go *)
Definition grpc_client_collectors : list MetricDesc :=
  [NewHistogramVec "grpc_client_request_duration_seconds"
     (bounds [25; 50; 100; 250; 500; 1000; 2500; 5000; 10000; 25000; 50000; 100000; 200000])
     ["method"];
   NewCounterVec "grpc_requests_total" ["role"; "method"; "code"]].

(** aggregator/client/httpClient.go *)
Definition http_client_collectors : list MetricDesc :=
  [NewHistogramVec "http_client_request_duration_seconds"
     (bounds [25; 50; 100; 250; 500; 1000; 2500; 5000; 10000; 25000; 50000; 100000; 200000])
     ["method"; "operation"];
   NewCounterVec "http_requests_total" ["role"; "method"; "operation"; "code"]].

(** dist-calc/consumer.go *)
Definition calculator_metrics : list MetricDesc :=
  [NewCounter "calculator_events_consumed_total";
   NewCounterVec "calculator_consumer_errors_total" ["stage"];
   NewCounter "calculator_deserialization_errors_total";
   NewHistogram "distance_calculation_duration_seconds"
     ((λ n, f_of_ratio n 1000000) <$> [10; 25; 50; 100; 250; 500; 1000; 2500; 5000; 10000]);
   NewHistogram "downstream_aggregation_duration_seconds"
     (bounds [25; 50; 100; 250; 500; 1000; 2500; 5000; 10000; 25000; 50000; 100000; 200000]);
   NewCounter "downstream_timeouts_total";
   NewGaugeVec "kafka_consumer_lag" ["topic"; "partition"]].

(** data_receiver/main.go *)
Definition receiver_metrics : list MetricDesc :=
  [NewGauge "receiver_active_websocket_connections";
   NewCounter "receiver_events_received_total";
   NewCounter "receiver_invalid_events_total";
   NewCounter "receiver_kafka_enqueue_failures_total"].

(** data_receiver/producer.go *)
Definition producer_metrics : list MetricDesc :=
  [NewHistogram "receiver_kafka_acknowledgement_duration_seconds"
     (bounds [50; 100; 250; 500; 1000; 2500; 5000; 10000; 25000; 50000; 100000; 200000; 500000])].

(** obu/main.go *)
Definition obu_metrics : list MetricDesc :=
  [NewCounter "obu_events_attempted_total";
   NewCounter "obu_events_written_total";
   NewCounter "obu_write_failures_total";
   NewGauge "obu_active_connections";
   NewGauge "obu_offered_event_rate"].

(** What each program links: the gateway and the calculator also the client
    package, the aggregator not. *)
Definition aggregator_registry `{BucketsLib} : list MetricDesc :=
  grpc_server_metrics ++ http_server_metrics ++ aggregator_metrics.
Definition client_registry : list MetricDesc := grpc_client_collectors ++ http_client_collectors.
Definition calculator_registry : list MetricDesc := client_registry ++ calculator_metrics.
Definition gateway_registry : list MetricDesc := client_registry.
Definition receiver_registry : list MetricDesc := receiver_metrics ++ producer_metrics.
Definition obu_registry : list MetricDesc := obu_metrics.

(** ** What client_golang accepts *)

Fixpoint increasing (l : list float64) : bool :=
  match l with
  | x :: (y :: _) as l' => fltb x y && increasing l'
  | _ => true
  end.

Definition buckets_increase (d : MetricDesc) : bool :=
  match desc_kind d with HistogramKind bs => increasing bs | _ => true end.

(** Registering the collectors panics otherwise. *)
Definition registers (reg : list MetricDesc) : Prop :=
  NoDup (desc_name <$> reg) ∧ Forall (λ d, buckets_increase d = true) reg.

Definition op_matches (op : MetricOp) (d : MetricDesc) : bool :=
  match op, desc_kind d with
  | Inc name labels, CounterKind | Inc name labels, GaugeKind
  | Dec name labels, GaugeKind | SetGauge name labels _, GaugeKind
  | Observe name labels _, HistogramKind _ =>
      bool_decide (name = desc_name d) && (length labels =? length (desc_labels d))%nat
  | _, _ => false
  end.

(** The operation is one of a registered collector, with a value for each label. *)
Definition op_ok (reg : list MetricDesc) (op : MetricOp) : bool := existsb (op_matches op) reg.

(** Whatever [m] records conforms to the registry. *)
Definition conforms {S A} (reg : list MetricDesc) (m : M (Proc S) A) : Prop :=
  ∀ p, ∃ ops, metrics (m p).2 = metrics p ++ ops ∧ Forall (λ op, op_ok reg op = true) ops.

(** ** Conforming programs *)

Create HintDb conform discriminated.

Section Conforms.
Context {S : Type} (reg : list MetricDesc).

Lemma conforms_none {A} (m : M (Proc S) A) :
  (∀ p, metrics (m p).2 = metrics p) → conforms reg m.
Proof. intros Hm p. exists []. by rewrite Hm, app_nil_r. Qed.
Lemma conforms_ret {A} (a : A) : conforms reg (mret (M:=M (Proc S)) a).
Proof. by apply conforms_none. Qed.
Lemma conforms_lift {A} (f : S → A * S) : conforms reg (lift f).
Proof. apply conforms_none. intros p. unfold lift. by destruct (f (heap p)). Qed.
Lemma conforms_Now : conforms (S:=S) reg Now.
Proof. by apply conforms_none. Qed.
Lemma conforms_Since t : conforms (S:=S) reg (Since t).
Proof. by apply conforms_none. Qed.
Lemma conforms_SinceUnixNano ns : conforms (S:=S) reg (SinceUnixNano ns).
Proof. by apply conforms_none. Qed.
Lemma conforms_emit op : op_ok reg op = true → conforms (S:=S) reg (emit op).
Proof. intros Hop p. exists [op]. by split; [|apply Forall_singleton]. Qed.
Lemma conforms_bind {A B} (m : M (Proc S) A) (f : A → M (Proc S) B) :
  conforms reg m → (∀ a, conforms reg (f a)) → conforms reg (m ≫= f).
Proof.
  intros Hm Hf p. rewrite M_bind_eq. destruct (Hm p) as (ops & Ho & Hops).
  destruct (Hf (m p).1 (m p).2) as (ops' & Ho' & Hops').
  exists (ops ++ ops'). rewrite Ho', Ho, (assoc_L (++)). by split; [|apply Forall_app_2].
Qed.
Lemma conforms_zoom {T A} (get : S → T) set (m : M (Proc T) A) :
  conforms reg m → conforms reg (zoom get set m).
Proof.
  intros Hm p. destruct (Hm (part get p)) as (ops & Ho & Hops). exists ops.
  unfold zoom. by destruct (m (part get p)).
Qed.
(** A program that links a package has its collectors too. *)
Lemma conforms_linked {A} reg' (m : M (Proc S) A) : conforms reg m → conforms (reg ++ reg') m.
Proof.
  intros Hm p. destruct (Hm p) as (ops & Ho & Hops). exists ops. split; [done|].
  apply (Forall_impl _ _ _ Hops). intros op. unfold op_ok. rewrite existsb_app. by intros ->.
Qed.
End Conforms.

#[export] Hint Resolve conforms_ret conforms_lift conforms_Now conforms_Since
  conforms_SinceUnixNano conforms_zoom : conform.
#[export] Hint Extern 2 (conforms _ (emit _)) => apply conforms_emit; reflexivity : conform.

(** Follows a program through its binds and branches. *)
Ltac conform :=
  repeat first
    [ progress intros
    | solve [auto with conform nocore]
    | apply conforms_zoom
    | apply conforms_bind
    | case_match ].

(** ** The programs *)

Section Aggregator.
Context {S : Type} `{Storer S} `{BucketsLib}.

Lemma service_AggregateDistance_conforms d :
  conforms (S:=S) aggregator_registry (AggregateDistance service d).
Proof. unfold service; cbn. unfold metrics_deferred, observe_pipeline. conform. Qed.
Lemma service_CalculateInvoice_conforms id :
  conforms (S:=S) aggregator_registry (CalculateInvoice service id).
Proof. unfold service; cbn. conform. Qed.
Lemma service_AggReconciliation_conforms :
  conforms (S:=S) aggregator_registry (AggReconciliation service).
Proof. unfold service; cbn. conform. Qed.
#[local] Hint Resolve service_AggregateDistance_conforms service_CalculateInvoice_conforms
  service_AggReconciliation_conforms : conform.

Lemma newHTTPHandler_conforms `{JsonCodec} (mh nf : Handler S) r w :
  (∀ r w, conforms aggregator_registry (mh r w)) →
  (∀ r w, conforms aggregator_registry (nf r w)) →
  conforms aggregator_registry (newHTTPHandler service mh nf r w).
Proof.
  intros Hm Hn.
  unfold newHTTPHandler, instrumentHTTP, handleAggregate, Server.handleGetInvoice,
    handleReconciliation, method_not_allowed, respond. conform.
Qed.

Lemma newGRPCServer_conforms `{GrpcStatus} req :
  conforms (S:=S) aggregator_registry (newGRPCServer service req).
Proof. unfold newGRPCServer, grpcMetricsInterceptor, grpc_Aggregate. conform. Qed.
End Aggregator.

Lemma grpc_client_conforms {X} `{GrpcTransport X} `{GrpcStatus} req :
  conforms client_registry (Client_Aggregate GrpcClient req).
Proof. cbn. unfold grpc_client_Aggregate. conform. Qed.
Lemma http_client_Aggregate_conforms {X} `{HttpTransport X} `{JsonCodec} ep req :
  conforms client_registry (Client_Aggregate (HttpClient ep) req).
Proof. cbn. unfold http_Aggregate, http_Aggregate_call, http_client_metrics. conform. Qed.
Lemma http_client_GetInvoice_conforms {X} `{HttpTransport X} `{JsonCodec} ep id :
  conforms client_registry (Client_GetInvoice (HttpClient ep) id).
Proof. cbn. unfold http_GetInvoice, http_GetInvoice_call, http_client_metrics. conform. Qed.
#[export] Hint Resolve grpc_client_conforms http_client_Aggregate_conforms
  http_client_GetInvoice_conforms : conform.

Lemma receiver_conforms {E} `{ProducerEnv E} `{WSEnv E} `{JsonCodec} topic limit n r :
  conforms receiver_registry (handleWS (NewDataReceiver topic) limit n r).
Proof.
  assert (∀ conn, conforms receiver_registry (wsReceive (NewDataReceiver topic) conn)) as Hr.
  { intros conn. unfold wsReceive, NewDataReceiver, on_world. cbn. conform. }
  assert (∀ n conn, conforms receiver_registry
            (wsReceiveMessages (NewDataReceiver topic) n conn)) as Hn.
  { clear n. intros n. induction n; cbn; conform. }
  unfold handleWS, wsReceiveLoop, on_world, on_connections. conform.
Qed.

Lemma receiver_close_conforms {E} `{WSEnv E} :
  conforms (S:=gset Conn * E) receiver_registry Receiver.closeConnections.
Proof.
  assert (∀ conns, conforms (S:=gset Conn * E) receiver_registry (closeAll conns)) as Hc.
  { induction conns; cbn; unfold on_world; conform. }
  intros p. apply Hc.
Qed.

Lemma obu_close_conforms {E} `{LoadEnv E} conns :
  conforms (S:=E) obu_registry (LoadMain.closeConnections conns).
Proof. induction conns as [|[]]; cbn; conform. Qed.
#[export] Hint Resolve obu_close_conforms : conform.

Lemma obu_dial_conforms {E} `{LoadEnv E} ep n i conns :
  conforms (S:=E) obu_registry (dial_from ep n i conns).
Proof. revert i conns. induction n; cbn; conform. Qed.
#[export] Hint Resolve obu_dial_conforms : conform.

(** The goroutines' own calls. *)
Lemma load_call_ok op : load_call op = true → op_ok obu_registry op = true.
Proof.
  destruct op as [name [|]|?|name [|] rate|?]; try done; cbn [load_call]; intros Hn.
  - apply bool_decide_eq_true in Hn. by set_unfold in Hn; destruct_or!; subst.
  - by apply bool_decide_eq_true in Hn as ->.
Qed.

Lemma metered_conforms cfg payload phases n run m :
  rtc (metered_step cfg payload) (metered_start cfg phases n run) m →
  Forall (λ op, op_ok obu_registry op = true) (calls m).
Proof.
  intros (_ & (Hc & _) & _)%metered_invariant. apply Forall_forall. intros op Hop%list_elem_of_In.
  by eapply load_call_ok, forallb_forall.
Qed.

(** [load] is [runFixedRate] or [runMaximumThroughput]: it returns when its
    goroutines have, with the counters that some interleaving of them leaves,
    and has made that interleaving's calls. *)
Definition runs_goroutines {E} (cfg : loadConfig) (payload : string)
    (load : option Z → list loadPhase → list (option Conn) → loadStats → M (Proc E) loadStats) : Prop :=
  ∀ timeout phases conns run p, ∃ m,
    rtc (metered_step cfg payload) (metered_start cfg phases (length conns) run) m ∧ finished m ∧
    (load timeout phases conns (new_stats run) p).1 = st (sys m) ∧
    metrics (load timeout phases conns (new_stats run) p).2 = metrics p ++ calls m.

Lemma load_conforms {E} cfg payload load timeout phases conns run :
  runs_goroutines (E:=E) cfg payload load →
  conforms obu_registry (load timeout phases conns (new_stats run)).
Proof.
  intros Hl p. destruct (Hl timeout phases conns run p) as (m & Hm & _ & _ & Hc).
  exists (calls m). split; [done|]. by eapply metered_conforms.
Qed.

Lemma obu_main_conforms {E} `{TextLib} `{LoadEnv E} payload load cfg :
  runs_goroutines cfg payload load → conforms (S:=E) obu_registry (LoadMain.main load cfg).
Proof.
  intros Hl. pose proof (λ timeout phases conns run,
    load_conforms cfg payload load timeout phases conns run Hl) as Hload. clear Hl.
  unfold LoadMain.main, run_load, startMetricsServer, dialConnections. conform.
Qed.

Lemma calculator_conforms {E} `{ConsumerEnv E} `{JsonCodec} (client : Client (Proc E)) n :
  (∀ req, conforms client_registry (Client_Aggregate client req)) →
  conforms calculator_registry (Start calc_service client n).
Proof.
  intros Hc.
  assert (∀ req, conforms calculator_registry (Client_Aggregate client req)) as Hc'.
  { intros req. apply conforms_linked, Hc. }
  assert (conforms calculator_registry (Start_round calc_service client)) as Hr.
  { unfold Start_round, updateLag, processMessage, processEvent, env, on_env, on_calc. cbn. conform. }
  induction n; cbn; conform.
Qed.

(** ** The buckets *)

Lemma ExponentialBuckets_eq `{BucketsLaws} start factor count :
  ExponentialBuckets start factor count = exp_buckets start factor count.
Proof.
  assert (∀ n i, (i < n)%nat → ∃ x, ExponentialBuckets start factor n !! i = Some x) as Hin.
  { intros n i Hi. apply lookup_lt_is_Some_2. by rewrite ExponentialBuckets_length. }
  assert (∀ i, (i < count)%nat → ExponentialBuckets start factor count !! i =
                                   Some (Nat.iter i (λ x, fmul x factor) start)) as He.
  { induction i as [|i IH]; intros Hi; [by apply ExponentialBuckets_start|].
    destruct (Hin count (S i) Hi) as [x Hx]. rewrite Hx. f_equal.
    by apply (ExponentialBuckets_next start factor count i), Hx; apply IH; lia. }
  assert (∀ n i s, (i < n)%nat → exp_buckets s factor n !! i =
                                   Some (Nat.iter i (λ x, fmul x factor) s)) as Hl.
  { induction n as [|n IH]; intros [|i] s Hi; [lia..|done|].
    cbn [exp_buckets lookup list_lookup]. rewrite IH by lia. by rewrite Nat.iter_succ_r. }
  assert (∀ n s, length (exp_buckets s factor n) = n) as Hlen.
  { induction n; intros s; cbn; [done|]. by rewrite IHn. }
  apply list_eq. intros i. destruct (decide (i < count)%nat) as [Hi|Hi].
  - by rewrite He, Hl.
  - rewrite !lookup_ge_None_2; [done|rewrite Hlen; lia|rewrite ExponentialBuckets_length; lia].
Qed.

(** [registers] as a computation. *)
Lemma registers_check reg :
  bool_decide (NoDup (desc_name <$> reg)) && forallb buckets_increase reg = true → registers reg.
Proof.
  intros [Hn Hb]%andb_true_iff. split; [by apply bool_decide_eq_true in Hn|].
  apply Forall_forall. intros d Hd.
  by apply (proj1 (forallb_forall _ reg) Hb), list_elem_of_In.
Qed.

(** ** The properties *)

(** The collectors of every program can be registered: in one program no two
    have one name and the bucket bounds of every histogram increase, the 44
    exponential ones of the pipeline histogram included.  The benchmark's prefix
    names one collector of the aggregator, and it is a histogram with no labels,
    so [le] is the first and only label of its samples.  The client package and
    the aggregator could not be linked into one program: they name the request
    counters alike. *)
Lemma registries_accepted `{BucketsLaws} :
  registers aggregator_registry ∧ registers calculator_registry ∧ registers gateway_registry ∧
  registers receiver_registry ∧ registers obu_registry ∧
  (∃ d bs, filter (λ d, desc_name d +:+ "_bucket{le=" +:+ String quote "" = bucket_prefix)
             aggregator_registry = [d] ∧
     desc_labels d = [] ∧ desc_kind d = HistogramKind bs ∧ length bs = 44%nat) ∧
  ¬ registers (aggregator_registry ++ client_registry).
Proof.
  unfold aggregator_registry, aggregator_metrics. rewrite ExponentialBuckets_eq.
  split_and?; try (apply registers_check; by vm_compute).
  - eexists _, _. by vm_compute.
  - intros [Hn _]. revert Hn. by refine (bool_decide_eq_false_1 _ _); vm_compute.
Qed.

(** C29. Every metric operation is well typed: it is on a collector that the
    program registers, of the kind that has the operation, with one value for each
    of its labels, so [WithLabelValues] never panics.  In every execution of the
    aggregator's HTTP handlers, gRPC method and connection hooks, of the
    calculator's loop over either client, of the gateway's handler, of the
    receiver's connections, of every interleaving of the load generator's
    goroutines at every moment of the run, and of its [main] around them. *)
Theorem metrics_conform `{BucketsLib} `{JsonCodec} `{GrpcStatus} `{TextLib} :
  (∀ S `{Storer S} (mh nf : Handler S) r w,
     (∀ r w, conforms aggregator_registry (mh r w)) →
     (∀ r w, conforms aggregator_registry (nf r w)) →
     conforms aggregator_registry (newHTTPHandler service mh nf r w)) ∧
  (∀ S `{Storer S} req, conforms (S:=S) aggregator_registry (newGRPCServer service req)) ∧
  (∀ S state, conforms (S:=S) aggregator_registry (http_ConnState state)) ∧
  (∀ S stat, conforms (S:=S) aggregator_registry (HandleConn stat)) ∧
  (∀ E `{ConsumerEnv E} `{GrpcTransport E} n,
     conforms (S:=_ * E) calculator_registry (Start calc_service GrpcClient n)) ∧
  (∀ E `{ConsumerEnv E} `{HttpTransport E} ep n,
     conforms (S:=_ * E) calculator_registry (Start calc_service (HttpClient ep) n)) ∧
  (∀ X `{HttpTransport X} ep (nf : Handler X) r w,
     (∀ r w, conforms gateway_registry (nf r w)) →
     conforms gateway_registry (gateway (HttpClient ep) nf r w)) ∧
  (∀ E `{ProducerEnv E} `{WSEnv E} topic limit n r,
     conforms (S:=_ * E) receiver_registry (handleWS (NewDataReceiver topic) limit n r)) ∧
  (∀ E `{WSEnv E}, conforms (S:=_ * E) receiver_registry Receiver.closeConnections) ∧
  (∀ cfg payload phases n run m,
     rtc (metered_step cfg payload) (metered_start cfg phases n run) m →
     Forall (λ op, op_ok obu_registry op = true) (calls m)) ∧
  (∀ E `{LoadEnv E} payload load cfg,
     runs_goroutines cfg payload load →
     conforms (S:=E) obu_registry (LoadMain.main load cfg)).
Proof.
  split_and!; intros.
  - by apply newHTTPHandler_conforms.
  - apply newGRPCServer_conforms.
  - unfold http_ConnState. conform.
  - unfold HandleConn. conform.
  - apply calculator_conforms. auto with conform.
  - apply calculator_conforms. auto with conform.
  - unfold gateway, makeApiFunc, Gateway.handleGetInvoice. conform.
  - apply receiver_conforms.
  - apply receiver_close_conforms.
  - by eapply metered_conforms.
  - by eapply obu_main_conforms.
Qed.

(** The loop has the laws. *)
Lemma exp_laws : BucketsLaws (H:=exp_lib).
Proof.
  split.
  - intros start factor count. revert start. induction count as [|n IH]; intros; cbn; [done|].
    by rewrite IH.
  - intros start factor [|n] Hn; [lia|done].
  - intros start factor count i x y. revert start i.
    induction count as [|n IH]; intros start i; [done|].
    destruct i as [|i]; [|apply IH]. destruct n; [done|]. cbn. congruence.
Qed.

(** The last bound of the pipeline histogram is between 19 and 20 seconds. *)
Lemma aggregator_registers :
  registers (aggregator_registry (H:=exp_lib)) ∧
  (λ x, fltb (f_of_Z 19) x && fltb x (f_of_Z 20)) <$>
    last (exp_buckets (f_of_ratio 25 100000) (f_of_ratio 13 10) 44) = Some true.
Proof.
  split; [exact (proj1 (registries_accepted (H:=exp_lib) (H0:=exp_laws)))|by vm_compute].
Qed.

(** A load generator that is interrupted before its first tick. *)
Definition idle_load {E} (cfg : loadConfig) :
    option Z → list loadPhase → list (option Conn) → loadStats → M (Proc E) loadStats :=
  λ _ phases _ stats, _ ← emit (offer (default fzero (head (offers cfg phases)))); mret stats.

Lemma idle_load_runs {E} cfg payload :
  Mode cfg = "fixed" → runs_goroutines (E:=E) cfg payload (idle_load cfg).
Proof.
  intros Hf timeout phases conns run p.
  destruct (idle_run cfg payload phases (length conns) run Hf) as (m & Hm & He & Hs & Hc).
  exists m. rewrite Hs, Hc. split; [done|]. split; [done|]. split; [done|]. unfold idle_load, offers.
  rewrite bool_decide_eq_false_2 by by rewrite Hf. by destruct phases.
Qed.

(** A request to the aggregator records two operations, a load generator with one
    connection three; the calls of a run with one event conform. *)
Lemma metrics_conform_witness :
  let r := mkRequest "GET" "/invoice" "obu=9" "" in
  let p : Proc MemoryStore := new_process test_clock in
  let h := newHTTPHandler (H:=test_codec) service toy_handler toy_handler in
  let main := LoadMain.main (H:=no_text) (H0:=flaky_env) (idle_load (LoadMain.main_config 1)) (LoadMain.main_config 1) in
  (conforms (aggregator_registry (H:=exp_lib)) (h r new_rw) ∧
   length (metrics (h r new_rw p).2) = 2%nat ∧
   forallb (op_ok (aggregator_registry (H:=exp_lib))) (metrics (h r new_rw p).2) = true) ∧
  Forall (λ op, op_ok obu_registry op = true) counted_calls ∧
  (conforms obu_registry main ∧
   metrics (main (mkProc 0%nat [] test_clock 0)).2 =
     [Inc m_obuActiveConnections []; offer (f_of_Z 4); Dec m_obuActiveConnections []]).
Proof.
  intros r p h main.
  pose proof (metrics_conform (H:=exp_lib) (H0:=test_codec) (H1:=toy_status) (H2:=no_text)) as Hm.
  split_and!; [|by vm_compute|by vm_compute| | |by vm_compute].
  - apply (proj1 Hm MemoryStore _ toy_handler toy_handler); intros; apply conforms_ret.
  - destruct counted_execution as (m & Hs & _ & <-). by eapply Hm.
  - destruct Hm as (_ & _ & _ & _ & _ & _ & _ & _ & _ & _ & Hm).
    by apply (Hm _ _ ""), idle_load_runs.
Defined.
