(* ===== verification/Startup.v ===== *)
(** * Startup: how the programs are configured

    [parseFlags] and its defaults (src/obu/main.go), the flags of the benchmark,
    of the aggregator and of the gateway, the settings the calculator takes from
    the environment (src/dist-calc/main.go) and those of the receiver
    (src/data_receiver/main.go). *)

From S2P Require Import Prelude Float64 GoLib GoFlag Obu Benchmark.
From Stdlib Require Import Ascii.

Local Open Scope Z_scope.

(** [strings.ToLower] on text that is not ASCII. *)
Class CaseLib := { unicode_ToLower : string → string }.

Definition is_ascii (s : string) : bool :=
  forallb (λ c, bool_decide (N_of_ascii c < 128)%N) (String.list_ascii_of_string s).

Definition ToLower `{CaseLib} (s : string) : string :=
  if is_ascii s then String.string_of_list_ascii (lower <$> String.list_ascii_of_string s)
  else unicode_ToLower s.

(** ** The load generator *)

Section Obu.
Context `{TextLib} `{CaseLib}.

Definition set_Endpoint v c := mkLoadConfig v (OBUs c) (Rate c) (Connections c) (Duration c)
  (PayloadBytes c) (Mode c) (Seed c) (Ramp c) (MetricsAddr c).
Definition set_OBUs v c := mkLoadConfig (Endpoint c) v (Rate c) (Connections c) (Duration c)
  (PayloadBytes c) (Mode c) (Seed c) (Ramp c) (MetricsAddr c).
Definition set_Rate v c := mkLoadConfig (Endpoint c) (OBUs c) v (Connections c) (Duration c)
  (PayloadBytes c) (Mode c) (Seed c) (Ramp c) (MetricsAddr c).
Definition set_Connections v c := mkLoadConfig (Endpoint c) (OBUs c) (Rate c) v (Duration c)
  (PayloadBytes c) (Mode c) (Seed c) (Ramp c) (MetricsAddr c).
Definition set_Duration v c := mkLoadConfig (Endpoint c) (OBUs c) (Rate c) (Connections c) v
  (PayloadBytes c) (Mode c) (Seed c) (Ramp c) (MetricsAddr c).
Definition set_PayloadBytes v c := mkLoadConfig (Endpoint c) (OBUs c) (Rate c) (Connections c)
  (Duration c) v (Mode c) (Seed c) (Ramp c) (MetricsAddr c).
Definition set_Mode v c := mkLoadConfig (Endpoint c) (OBUs c) (Rate c) (Connections c) (Duration c)
  (PayloadBytes c) v (Seed c) (Ramp c) (MetricsAddr c).
Definition set_Seed v c := mkLoadConfig (Endpoint c) (OBUs c) (Rate c) (Connections c) (Duration c)
  (PayloadBytes c) (Mode c) v (Ramp c) (MetricsAddr c).
Definition set_Ramp v c := mkLoadConfig (Endpoint c) (OBUs c) (Rate c) (Connections c) (Duration c)
  (PayloadBytes c) (Mode c) (Seed c) v (MetricsAddr c).
Definition set_MetricsAddr v c := mkLoadConfig (Endpoint c) (OBUs c) (Rate c) (Connections c)
  (Duration c) (PayloadBytes c) (Mode c) (Seed c) (Ramp c) v.

Definition obu_flags : list (flag loadConfig) := [
  StringVar "endpoint" set_Endpoint;
  IntVar "obus" set_OBUs;
  Float64Var "rate" set_Rate;
  IntVar "connections" set_Connections;
  DurationVar "duration" set_Duration;
  IntVar "payload-bytes" set_PayloadBytes;
  StringVar "mode" set_Mode;
  IntVar "seed" set_Seed;
  StringVar "ramp" set_Ramp;
  StringVar "metrics-addr" set_MetricsAddr
].

(** The values of the flags before the command line is read. *)
Definition obu_defaults (getenv : string → string) : loadConfig := {|
  Endpoint := envOr getenv "RECEIVER_WS_ADDR" "ws://127.0.0.1:30000/ws";
  OBUs := envInt getenv "OBU_COUNT" 20;
  Rate := envFloat getenv "OBU_EVENT_RATE" (f_of_Z 4);
  Connections := envInt getenv "OBU_CONNECTIONS" 1;
  Duration := envDuration getenv "OBU_TEST_DURATION" 0;
  PayloadBytes := envInt getenv "OBU_PAYLOAD_BYTES" 0;
  Mode := envOr getenv "OBU_LOAD_MODE" "fixed";
  Seed := envInt64 getenv "OBU_RANDOM_SEED" 1;
  Ramp := envOr getenv "OBU_RAMP_SCHEDULE" "";
  MetricsAddr := envOr getenv "OBU_METRICS_ADDR" ":9100"
|}.

Definition parseFlags (getenv : string → string) (args : list string) : loadConfig + flag_exit :=
  match parse_args obu_flags args (obu_defaults getenv) with
  | inl cfg => inl (set_Mode (ToLower (Mode cfg)) cfg)
  | inr e => inr e
  end.

(** A command line that gives every flag, in the order of the record. *)
Definition obu_command (rate duration : string) (inline : bool) (cfg : loadConfig)
    : list (bool * flag loadConfig * string) :=
  zip (pair inline <$> obu_flags)
    [Endpoint cfg; Itoa (OBUs cfg); rate; Itoa (Connections cfg); duration;
     Itoa (PayloadBytes cfg); Mode cfg; Itoa (Seed cfg); Ramp cfg; MetricsAddr cfg].

Definition obu_ints_ok (cfg : loadConfig) : Prop :=
  in_i64 (OBUs cfg) ∧ in_i64 (Connections cfg) ∧ in_i64 (PayloadBytes cfg) ∧ in_i64 (Seed cfg).

(** What a variable gives a setting: the value that its text reads as, or else
    [fallback].  A variable that is not set is empty. *)
Definition gives {A} (read : string → option A) (text : string) (fallback v : A) : Prop :=
  read text = Some v ∨ read text = None ∧ v = fallback.

Definition nonempty (text : string) : option string :=
  if bool_decide (text = "") then None else Some text.

(** The settings of the load generator before the command line is read. *)
Record environment_gives (getenv : string → string) (cfg : loadConfig) : Prop := {
  gives_Endpoint : gives nonempty (getenv "RECEIVER_WS_ADDR") "ws://127.0.0.1:30000/ws" (Endpoint cfg);
  gives_OBUs : gives Atoi (getenv "OBU_COUNT") 20 (OBUs cfg);
  gives_Rate : gives ParseFloat (getenv "OBU_EVENT_RATE") (f_of_Z 4) (Rate cfg);
  gives_Connections : gives Atoi (getenv "OBU_CONNECTIONS") 1 (Connections cfg);
  gives_Duration : gives ParseDuration (getenv "OBU_TEST_DURATION") 0 (Duration cfg);
  gives_PayloadBytes : gives Atoi (getenv "OBU_PAYLOAD_BYTES") 0 (PayloadBytes cfg);
  gives_Mode : gives nonempty (getenv "OBU_LOAD_MODE") "fixed" (Mode cfg);
  gives_Seed : gives Atoi (getenv "OBU_RANDOM_SEED") 1 (Seed cfg);
  gives_Ramp : gives nonempty (getenv "OBU_RAMP_SCHEDULE") "" (Ramp cfg);
  gives_MetricsAddr : gives nonempty (getenv "OBU_METRICS_ADDR") ":9100" (MetricsAddr cfg)
}.

(** The environment that spells a configuration, [rate] and [duration] being the
    texts of its rate and duration. *)
Definition obu_environment (rate duration : string) (cfg : loadConfig) (key : string) : string :=
  default "" (list_to_map (M:=gmap string string)
    [("RECEIVER_WS_ADDR", Endpoint cfg); ("OBU_COUNT", Itoa (OBUs cfg)); ("OBU_EVENT_RATE", rate);
     ("OBU_CONNECTIONS", Itoa (Connections cfg)); ("OBU_TEST_DURATION", duration);
     ("OBU_PAYLOAD_BYTES", Itoa (PayloadBytes cfg)); ("OBU_LOAD_MODE", Mode cfg);
     ("OBU_RANDOM_SEED", Itoa (Seed cfg)); ("OBU_RAMP_SCHEDULE", Ramp cfg);
     ("OBU_METRICS_ADDR", MetricsAddr cfg)] !! key).

Lemma gives_fun {A} (read : string → option A) text fallback v v' :
  gives read text fallback v → gives read text fallback v' → v = v'.
Proof. intros [Hv|[Hv ->]] [Hv'|[Hv' ->]]; by simplify_eq. Qed.

Lemma gives_envOr getenv key fallback : gives nonempty (getenv key) fallback (envOr getenv key fallback).
Proof. unfold gives, nonempty, envOr. repeat case_bool_decide; naive_solver. Qed.
Lemma gives_envInt getenv key fallback : gives Atoi (getenv key) fallback (envInt getenv key fallback).
Proof. unfold gives, envInt. destruct (Atoi _); naive_solver. Qed.
Lemma gives_envInt64 getenv key fallback : gives Atoi (getenv key) fallback (envInt64 getenv key fallback).
Proof. unfold gives, envInt64. destruct (Atoi _); naive_solver. Qed.
Lemma gives_envFloat getenv key fallback :
  gives ParseFloat (getenv key) fallback (envFloat getenv key fallback).
Proof. unfold gives, envFloat. destruct (ParseFloat _); naive_solver. Qed.
Lemma gives_envDuration getenv key fallback :
  gives ParseDuration (getenv key) fallback (envDuration getenv key fallback).
Proof. unfold gives, envDuration. destruct (ParseDuration _); naive_solver. Qed.

Lemma obu_defaults_gives getenv : environment_gives getenv (obu_defaults getenv).
Proof.
  constructor; (apply gives_envOr || apply gives_envInt || apply gives_envInt64
    || apply gives_envFloat || apply gives_envDuration).
Qed.

(** The environment and the defaults determine every setting. *)
Lemma environment_gives_defaults getenv cfg : environment_gives getenv cfg → obu_defaults getenv = cfg.
Proof.
  intros []. destruct (obu_defaults_gives getenv). destruct cfg, (obu_defaults getenv).
  cbn in *. f_equal; by eapply gives_fun.
Qed.

Lemma obu_environment_gives rate duration cfg :
  obu_ints_ok cfg → ParseFloat rate = Some (Rate cfg) → ParseDuration duration = Some (Duration cfg) →
  Endpoint cfg ≠ "" → Mode cfg ≠ "" → MetricsAddr cfg ≠ "" →
  environment_gives (obu_environment rate duration cfg) cfg.
Proof.
  intros (H1 & H2 & H3 & H4) Hr Hd He Hm Ha.
  assert (∀ text fallback, text ≠ "" ∨ text = fallback → gives nonempty text fallback text) as Ht.
  { intros text fallback Hor. unfold gives, nonempty. case_bool_decide; [|by left]. right.
    destruct Hor; by subst. }
  constructor; unfold obu_environment; cbn; simplify_map_eq; cbn;
    first [apply Ht; tauto | left; by rewrite ?Atoi_Itoa | apply Ht].
  destruct (decide (Ramp cfg = "")); auto.
Qed.

Lemma obu_flags_ok inline f value : f ∈ obu_flags → assignment_ok obu_flags (inline, f, value).
Proof.
  intros Hf. unfold obu_flags in Hf. rewrite !elem_of_cons in Hf.
  destruct_or?; subst; try by apply not_elem_of_nil in Hf. all: split; [done|split; done].
Qed.

Lemma parse_spelled getenv l rest :
  Forall (λ a, a.1.2 ∈ obu_flags) l →
  match rest with [] => True | s :: _ => read_arg s = Positional end →
  parseFlags getenv (concat (spelled <$> l) ++ rest) =
    match set_all l (obu_defaults getenv) with
    | inl cfg => inl (set_Mode (ToLower (Mode cfg)) cfg)
    | inr e => inr e
    end.
Proof.
  intros Hl Hrest. unfold parseFlags. rewrite parse_args_reads.
  - destruct (set_all l _) as [c|e]; [|done]. destruct rest as [|s rest]; [done|].
    cbn [parse_args]. by rewrite Hrest.
  - eapply Forall_impl; [exact Hl|]. intros [[inline f] value]. apply obu_flags_ok.
Qed.

Lemma parse_obu_command getenv rate duration inline cfg :
  obu_ints_ok cfg → ParseFloat rate = Some (Rate cfg) → ParseDuration duration = Some (Duration cfg) →
  parseFlags getenv (concat (spelled <$> obu_command rate duration inline cfg)) =
    inl (set_Mode (ToLower (Mode cfg)) cfg).
Proof.
  intros (H1 & H2 & H3 & H4) Hr Hd.
  rewrite <- (app_nil_r (concat _)), parse_spelled; [|by repeat (apply Forall_cons; split; [set_solver|])|done].
  unfold obu_command. cbn [obu_flags fmap list_fmap zip zip_with].
  repeat (cbn [set_all]; unfold set_flag; cbn [flag_set StringVar IntVar Float64Var DurationVar];
    rewrite ?ParseInt0_Itoa, ?Hr, ?Hd by done; cbn [fmap option_fmap option_map]).
  by destruct cfg.
Qed.
End Obu.

(** ** The benchmark, the aggregator, the gateway *)

Record bench_flags := mkBenchFlags {
  bf_requests : Z; bf_concurrency : Z; bf_duration : Z; bf_loads : string; bf_report : string
}.

Section Others.
Context `{TextLib}.

Definition benchmark_flags : list (flag bench_flags) := [
  IntVar "requests" (λ v c, mkBenchFlags v (bf_concurrency c) (bf_duration c) (bf_loads c) (bf_report c));
  IntVar "concurrency" (λ v c, mkBenchFlags (bf_requests c) v (bf_duration c) (bf_loads c) (bf_report c));
  DurationVar "duration" (λ v c, mkBenchFlags (bf_requests c) (bf_concurrency c) v (bf_loads c) (bf_report c));
  StringVar "loads" (λ v c, mkBenchFlags (bf_requests c) (bf_concurrency c) (bf_duration c) v (bf_report c));
  StringVar "report" (λ v c, mkBenchFlags (bf_requests c) (bf_concurrency c) (bf_duration c) (bf_loads c) v)
].

Definition benchmark_defaults : bench_flags :=
  mkBenchFlags 5000 20 (5 * Second) "100,500,1000" "benchmark_report.md".

(** [parseConfig] of the benchmark: the flags and then the checks. *)
Definition parse_command (args : list string) : (config + error) + flag_exit :=
  match parse_args benchmark_flags args benchmark_defaults with
  | inl f => inl (parseConfig (bf_requests f) (bf_concurrency f) (bf_duration f) (bf_loads f) (bf_report f))
  | inr e => inr e
  end.

(** The addresses the aggregator listens on, for HTTP and for gRPC. *)
Definition aggregator_flags : list (flag (string * string)) := [
  StringVar "http-addr" (λ v c, (v, c.2));
  StringVar "grpc-addr" (λ v c, (c.1, v))
].

Definition aggregator_config (getenv : string → string) (args : list string) : (string * string) + flag_exit :=
  parse_args aggregator_flags args
    (envOr getenv "AGGREGATOR_HTTP_LISTEN_ADDR" ":4000", envOr getenv "AGGREGATOR_GRPC_LISTEN_ADDR" ":3001").

(** The address the gateway listens on, and that of the aggregator. *)
Definition gateway_config (getenv : string → string) (args : list string) : (string * string) + flag_exit :=
  match parse_args [StringVar "ListenAddr" (λ v _, v)] args ":6000" with
  | inl addr => inl (addr, envOr getenv "AGGREGATOR_HTTP_ADDR" "http://localhost:4000")
  | inr e => inr e
  end.
End Others.

(** ** Properties *)

(** C28. The configuration of the load generator: flags override the environment,
    which overrides the defaults.  Each of the ten settings has a value that its
    variable determines: what the text of the variable reads as, or the documented
    default when it is not set or does not parse.  A command line that spells
    flags in either form, perhaps followed by arguments that are not flags, stores
    their values from left to right over those, or ends the program at the first
    value that does not parse.  A command line that gives all ten flags of a
    configuration is read back as that configuration whatever the environment
    says, and so is an environment that spells one (with an endpoint, a mode and a
    metrics address) when there are no arguments, the mode in lower case.  An
    unknown flag ends the program. *)
Theorem parse_flags_correct `{TextLib} `{CaseLib} (getenv : string → string) :
  (∃ env, environment_gives getenv env) ∧
  (∀ env l rest, environment_gives getenv env → Forall (λ a, a.1.2 ∈ obu_flags) l →
     match rest with [] => True | s :: _ => read_arg s = Positional end →
     parseFlags getenv (concat (spelled <$> l) ++ rest) =
       match set_all l env with
       | inl cfg => inl (set_Mode (ToLower (Mode cfg)) cfg)
       | inr e => inr e
       end) ∧
  (∀ cfg inline rate duration, obu_ints_ok cfg →
     ParseFloat rate = Some (Rate cfg) → ParseDuration duration = Some (Duration cfg) →
     parseFlags getenv (concat (spelled <$> obu_command rate duration inline cfg)) =
       inl (set_Mode (ToLower (Mode cfg)) cfg) ∧
     (Endpoint cfg ≠ "" → Mode cfg ≠ "" → MetricsAddr cfg ≠ "" →
      parseFlags (obu_environment rate duration cfg) [] = inl (set_Mode (ToLower (Mode cfg)) cfg))) ∧
  (∀ name value rest, flag_name_ok name = true → CutAt "=" name = None →
     lookup_flag obu_flags name = None → name ≠ "h" → name ≠ "help" →
     parseFlags getenv (("-" +:+ name +:+ "=" +:+ value) :: rest) =
       inr (BadFlag ("flag provided but not defined: -" +:+ name))).
Proof.
  split; [by exists (obu_defaults getenv); apply obu_defaults_gives|]. split; [|split].
  - intros env l rest <-%environment_gives_defaults. apply parse_spelled.
  - intros cfg inline rate duration Hi Hr Hd. split; [by apply parse_obu_command|].
    intros He Hm Ha.
    pose proof (obu_environment_gives rate duration cfg Hi Hr Hd He Hm Ha) as Henv.
    unfold parseFlags. by rewrite (environment_gives_defaults _ _ Henv).
  - intros name value rest Hok Heq Hl H1 H2. unfold parseFlags. cbn [parse_args].
    rewrite (proj2 (read_arg_name name Hok Heq) value), Hl, bool_decide_eq_false_2; naive_solver.
Qed.

(** ** A concrete command line *)

#[local] Instance plain_text : TextLib := {|
  Quote s := s;
  ParseFloat s := f_of_Z <$> Atoi s;
  ParseDuration s := if bool_decide (s = "30s") then Some (30 * Second) else None
|}.
#[local] Instance ascii_case : CaseLib := {| unicode_ToLower s := s |}.

Definition loud_environment (key : string) : string :=
  if bool_decide (key = "OBU_COUNT") then "7" else if bool_decide (key = "OBU_LOAD_MODE") then "max" else "".

Definition full_config : loadConfig :=
  mkLoadConfig "ws://r/ws" 16 (f_of_Z 5) 2 (30 * Second) 0 "Fixed" (-3) "" ":9".

(** Seven vehicles from the environment, the mode from the command line, the rest
    by default. *)
Definition loud_config : loadConfig :=
  mkLoadConfig "ws://127.0.0.1:30000/ws" 7 (f_of_Z 4) 1 0 0 "max" 1 "" ":9100".

Lemma loud_gives : environment_gives loud_environment loud_config.
Proof.
  constructor; first [left; by vm_compute | right; split; by vm_compute].
Qed.

Lemma parse_flags_correct_witness :
  parseFlags loud_environment (concat (spelled <$> [(false, StringVar "mode" set_Mode, "FIXED")]) ++ ["rest"]) =
    inl (set_Mode "fixed" loud_config) ∧
  parseFlags loud_environment (concat (spelled <$> obu_command "5" "30s" false full_config)) =
    inl (set_Mode "fixed" full_config) ∧
  parseFlags (obu_environment "5" "30s" full_config) [] = inl (set_Mode "fixed" full_config) ∧
  parseFlags loud_environment ["-obu=3"] = inr (BadFlag "flag provided but not defined: -obu").
Proof.
  destruct (parse_flags_correct loud_environment) as (_ & Hspelled & Hfull & Hbad).
  destruct (Hfull full_config false "5" "30s") as [Hcommand Henv]; [repeat split; by vm_compute|by vm_compute..|].
  split; [|split; [exact Hcommand|split]].
  - exact (Hspelled loud_config [(false, StringVar "mode" set_Mode, "FIXED")] ["rest"] loud_gives
      ltac:(apply Forall_singleton; repeat (first [by left | right])) eq_refl).
  - by apply Henv.
  - by apply (Hbad "obu" "3" []).
Defined.
