(* ===== verification/Lifecycle.v ===== *)
(** * Lifecycle: start-up and shutdown of the services

    [main] of the calculator (src/dist-calc/main.go), of the receiver
    (src/data_receiver/main.go), of the aggregator (src/aggregator/main.go) and of
    the gateway, the constructors of their Kafka and gRPC clients, and [Close].
    The calls to libraries and to the operating system that open, serve and close
    are [call]s of the environment [Libs]; what the service does between start-up
    and shutdown is a parameter here and is modelled in the other files. *)

From S2P Require Import Prelude Float64 GoLib GoFlag Types Http Receiver Benchmark Startup.
From Stdlib Require Import Ascii.

Local Open Scope Z_scope.

(** ** Library calls *)

(** The values of a [kafka.ConfigMap]. *)
Inductive config_value := CString (s : string) | CBool (b : bool).

Inductive call :=
| GrpcNewClient (ep : string)                  (* with insecure credentials *)
| GrpcConnClose
| CloseIdleConnections
| KafkaNewConsumer (cfg : list (string * config_value))
| SubscribeTopics (topics : list string)
| ConsumerClose
| KafkaNewProducer (cfg : list (string * config_value))
| ProducerClose
| NetListen (addr : string)
| ListenerClose
| ListenAndServe (addr : string)               (* in a goroutine of its own *)
| GrpcServe                                    (* likewise *)
| ServerShutdown (timeout : Z)
| GracefulStop
| GrpcStop.

(** A call and its error; [Flush] waits and tells how many messages are left. *)
Class Libs (E : Type) := {
  invoke : call → E → option error * E;
  Flush : Z → E → Z * E
}.

Inductive event := Called (c : call) (err : option error) | Flushed (remaining : Z).

#[export] Instance traced_libs {E} `{Libs E} : Libs (E * list event) := {|
  invoke c w := ((invoke c w.1).1, ((invoke c w.1).2, w.2 ++ [Called c (invoke c w.1).1]));
  Flush t w := ((Flush t w.1).1, ((Flush t w.1).2, w.2 ++ [Flushed (Flush t w.1).1]))
|}.

(** ** What is left open *)

Inductive resource := GrpcConn | KafkaClient | MetricsServer.

#[export] Instance resource_eq_dec : EqDecision resource.
Proof. solve_decision. Defined.

Definition opens (ev : event) : option resource :=
  match ev with
  | Called (GrpcNewClient _) None => Some GrpcConn
  | Called (KafkaNewConsumer _) None => Some KafkaClient
  | Called (ListenAndServe _) _ => Some MetricsServer
  | _ => None
  end.

Definition closes (ev : event) : option resource :=
  match ev with
  | Called GrpcConnClose _ => Some GrpcConn
  | Called ConsumerClose _ => Some KafkaClient
  | Called (ServerShutdown _) _ => Some MetricsServer
  | _ => None
  end.

(** How often [r] was opened and not closed. *)
Definition left_open (r : resource) (tr : list event) : Z :=
  total (λ ev, (if bool_decide (opens ev = Some r) then 1 else 0) -
               (if bool_decide (closes ev = Some r) then 1 else 0)) tr.

(** How a [main] ends. *)
Inductive exit :=
| Fatal (e : error)              (* log.Fatal: deferred calls do not run *)
| Exit (logged : list error).    (* main returns, having logged these *)

Definition logged (prefix : string) (err : option error) : list error :=
  match err with Some e => [EWrap prefix e ""] | None => [] end.

(** ** The clients *)

Section Clients.
Context {E : Type} `{Libs E}.

(** [NewGrpcClientWithTimeout]; the client's methods are in Client.v. *)
Definition NewGrpcClientWithTimeout (ep : string) (timeout : Z) : M (Proc E) ((string * Z) + error) :=
  err ← lift (invoke (GrpcNewClient ep));
  mret match err with Some e => inr e | None => inl (ep, timeout) end.

Definition NewGrpcClient (ep : string) : M (Proc E) ((string * Z) + error) :=
  NewGrpcClientWithTimeout ep (2 * Second).

Definition GrpcClient_Close : M (Proc E) (option error) := lift (invoke GrpcConnClose).

Definition HttpClient_Close : M (Proc E) (option error) :=
  _ ← lift (invoke CloseIdleConnections); mret None.
End Clients.

(** ** The calculator *)

Record KafkaConsumerConfig := mkConsumerConfig {
  Brokers : string;
  GroupID : string;
  Topic : string;
  DownstreamTimeout : Z;
  PollInterval : Z
}.

(** What is kept of a [KafkaConsumer] beside its three interfaces. *)
Record KafkaConsumer := mkConsumer {
  kc_downstreamTimeout : Z;
  kc_pollInterval : Z;
  closeOnce : bool                (* [Close] has run *)
}.

Definition consumer_config (cfg : KafkaConsumerConfig) : list (string * config_value) :=
  [("bootstrap.servers", CString (Brokers cfg)); ("group.id", CString (GroupID cfg));
   ("auto.offset.reset", CString "earliest"); ("enable.auto.commit", CBool false)].

(** Which client the calculator uses, and its endpoint. *)
Inductive ClientChoice := UseHttp (ep : string) | UseGrpc (ep : string).

Section Calculator.
Context {E : Type} `{Libs E}.

Definition NewKafkaConsumerWithConfig (cfg : KafkaConsumerConfig) : M (Proc E) (KafkaConsumer + error) :=
  err ← lift (invoke (KafkaNewConsumer (consumer_config cfg)));
  match err with
  | Some e => mret (inr e)
  | None =>
      err ← lift (invoke (SubscribeTopics [Topic cfg]));
      match err with
      | Some e => _ ← lift (invoke ConsumerClose); mret (inr e)
      | None => mret (inl (mkConsumer (DownstreamTimeout cfg) (PollInterval cfg) false))
      end
  end.

Definition NewKafkaConsumer (topic : string) : M (Proc E) (KafkaConsumer + error) :=
  NewKafkaConsumerWithConfig
    (mkConsumerConfig "localhost:9092" "tollify-distance-calculator" topic (2 * Second) (250 * Millisecond)).

(** [Close] goes to the Kafka client the first time only. *)
Definition KafkaConsumer_Close (c : KafkaConsumer) : M (Proc E) (KafkaConsumer * option error) :=
  if closeOnce c then mret (c, None)
  else
    err ← lift (invoke ConsumerClose);
    mret (mkConsumer (kc_downstreamTimeout c) (kc_pollInterval c) true, err).

Context `{TextLib} `{CaseLib}.

(** The message leaves out the error of [time.ParseDuration]. *)
Definition downstream_timeout (getenv : string → string) : Z + error :=
  let invalid := inr (EText "invalid AGGREGATOR_REQUEST_TIMEOUT") in
  match ParseDuration (envOr getenv "AGGREGATOR_REQUEST_TIMEOUT" "2s") with
  | None => invalid
  | Some d => if d <=? 0 then invalid else inl d
  end.

Definition client_choice (getenv : string → string) : ClientChoice + error :=
  let protocol := ToLower (envOr getenv "AGGREGATOR_PROTOCOL" "grpc") in
  if bool_decide (protocol = "http")
  then inl (UseHttp (envOr getenv "AGGREGATOR_HTTP_ADDR" "http://localhost:4000"))
  else if bool_decide (protocol = "grpc")
  then inl (UseGrpc (envOr getenv "AGGREGATOR_GRPC_ADDR" "localhost:3001"))
  else inr (EText ("AGGREGATOR_PROTOCOL must be http or grpc, got " +:+ Quote protocol)).

Definition calculator_consumer (getenv : string → string) (timeout : Z) : KafkaConsumerConfig := {|
  Brokers := envOr getenv "KAFKA_BROKERS" "localhost:9092";
  GroupID := envOr getenv "KAFKA_GROUP_ID" "tollify-distance-calculator";
  Topic := envOr getenv "KAFKA_TOPIC" "obudata";
  DownstreamTimeout := timeout;
  PollInterval := 250 * Millisecond
|}.

(** The HTTP client cannot fail. *)
Definition new_client (choice : ClientChoice) (timeout : Z) : M (Proc E) (option error) :=
  match choice with
  | UseHttp _ => mret None
  | UseGrpc ep =>
      r ← NewGrpcClientWithTimeout ep timeout;
      mret match r with inl _ => None | inr e => Some e end
  end.

Definition close_client (choice : ClientChoice) : M (Proc E) (option error) :=
  match choice with UseHttp _ => HttpClient_Close | UseGrpc _ => GrpcClient_Close end.

(** [start] is [consumer.Start] of Consumer.v, for the client that was chosen. *)
Context (start : ClientChoice → KafkaConsumer → M (Proc E) (option error)).

(** From the consumer on; the deferred calls run in the opposite order. *)
Definition run_calculator (getenv : string → string) (choice : ClientChoice) (consumer : KafkaConsumer)
    : M (Proc E) exit :=
  _ ← lift (invoke (ListenAndServe (envOr getenv "CALCULATOR_METRICS_ADDR" ":9102")));
  err ← start choice consumer;
  _ ← lift (invoke (ServerShutdown (5 * Second)));
  _ ← KafkaConsumer_Close consumer;
  _ ← close_client choice;
  mret (Exit (logged "consumer stopped: " err)).

Definition calculator_main (getenv : string → string) : M (Proc E) exit :=
  match downstream_timeout getenv with
  | inr e => mret (Fatal e)
  | inl timeout =>
      match client_choice getenv with
      | inr e => mret (Fatal e)
      | inl choice =>
          err ← new_client choice timeout;
          match err with
          | Some e => mret (Fatal e)
          | None =>
              r ← NewKafkaConsumerWithConfig (calculator_consumer getenv timeout);
              match r with
              | inr e => mret (Fatal e)
              | inl consumer => run_calculator getenv choice consumer
              end
          end
      end
  end.
End Calculator.

(** ** The receiver *)

Record ReceiverConfig := mkReceiverConfig {
  rc_topic : string;
  rc_readLimit : Z;
  rc_origins : gset string;
  rc_readTimeout : Z;
  rc_produceTimeout : Z
}.

Section ReceiverMain.
Context {E : Type} `{Libs E} `{WSEnv E}.
Abbreviation R := (Proc (gset Conn * E)).

(** The producer is its topic; [ProduceData] is in Receiver.v. *)
Definition NewKafkaProducer (getenv : string → string) : M R (string + error) :=
  err ← on_world (invoke (KafkaNewProducer
          [("bootstrap.servers", CString (envOr getenv "KAFKA_BROKERS" "localhost:9092"));
           ("acks", CString "all")]));
  mret match err with
       | Some e => inr e
       | None => inl (envOr getenv "KAFKA_TOPIC" "obudata")
       end.

Definition KafkaProducer_Close : M R (option error) :=
  remaining ← on_world (Flush 5000);
  _ ← on_world (invoke ProducerClose);
  mret (if 0 <? remaining
        then Some (EText (Itoa remaining +:+ " Kafka messages were not delivered before shutdown"))
        else None).

Definition NewDataReceiverWithProducer (getenv : string → string) (topic : string) : ReceiverConfig := {|
  rc_topic := topic;
  rc_readLimit := readLimit (getenv "WS_READ_LIMIT_BYTES");
  rc_origins := parseOrigins (getenv "WS_ALLOWED_ORIGINS");
  rc_readTimeout := readTimeout;
  rc_produceTimeout := 5 * Second
|}.

Definition new_receiver (getenv : string → string) : M R (ReceiverConfig + error) :=
  r ← NewKafkaProducer getenv;
  mret match r with
       | inr e => inr e
       | inl topic => inl (NewDataReceiverWithProducer getenv topic)
       end.

(** [Shutdown] starts [closeConnections] in a goroutine of its own that [main]
    does not wait for: [closers] is how many of the sockets it has come to when
    [main] returns. *)
Definition close_some (closers : nat) : M R () :=
  λ p, closeAll (take closers (elements (heap p).1)) p.

(** [serve] is what happens until the signal. *)
Definition receiver_main (getenv : string → string) (serve : ReceiverConfig → M R ()) (closers : nat)
    : M R exit :=
  recv ← new_receiver getenv;
  match recv with
  | inr e => mret (Fatal e)
  | inl recv =>
      _ ← on_world (invoke (ListenAndServe (envOr getenv "RECEIVER_HTTP_ADDR" ":30000")));
      _ ← serve recv;
      err ← on_world (invoke (ServerShutdown (10 * Second)));
      _ ← close_some closers;
      cerr ← KafkaProducer_Close;
      mret (Exit (logged "receiver shutdown: " err ++ logged "producer shutdown: " cerr))
  end.
End ReceiverMain.

(** ** The aggregator and the gateway *)

Section Servers.
Context {E : Type} `{Libs E} `{TextLib}.

(** A listener of its own that is closed when the server returns. *)
Definition makeGRPCTransport (listenAddr : string) : M (Proc E) (option error) :=
  err ← lift (invoke (NetListen listenAddr));
  match err with
  | Some e => mret (Some e)
  | None =>
      err ← lift (invoke GrpcServe);
      _ ← lift (invoke ListenerClose);
      mret err
  end.

(** [wait]: the signal ([None]), or what a transport returned; [stopped]: whether
    [GracefulStop] has returned before the deadline of the shutdown. *)
Definition aggregator_main (getenv : string → string) (args : list string)
    (wait : M (Proc E) (option (option error))) (stopped : M (Proc E) bool) : M (Proc E) (exit + flag_exit) :=
  match aggregator_config getenv args with
  | inr e => mret (inr e)
  | inl (httpAddr, grpcAddr) =>
      err ← lift (invoke (NetListen grpcAddr));
      match err with
      | Some e => mret (inl (Fatal e))
      | None =>
          _ ← lift (invoke GrpcServe);
          _ ← lift (invoke (ListenAndServe httpAddr));
          why ← wait;
          let transport := match why with
                           | Some (Some e) => if error_is e ErrServerClosed then []
                                              else logged "aggregator transport stopped: " (Some e)
                           | _ => []
                           end in
          err ← lift (invoke (ServerShutdown (10 * Second)));
          _ ← lift (invoke GracefulStop);
          graceful ← stopped;
          _ ← (if graceful : bool then mret None else lift (invoke GrpcStop));
          mret (inl (Exit (transport ++ logged "HTTP shutdown: " err)))
      end
  end.

(** [log.Fatal] ends the gateway when its server does, so the deferred [Close] of
    its client never runs. *)
Definition gateway_main (getenv : string → string) (args : list string) : M (Proc E) (exit + flag_exit) :=
  match gateway_config getenv args with
  | inr e => mret (inr e)
  | inl (listenAddr, _) =>
      err ← lift (invoke (ListenAndServe listenAddr));
      mret (inl (Fatal (default (EText "<nil>") err)))
  end.
End Servers.

(** ** What is called *)

Section Traced.
Context {E : Type} `{Libs E}.
Abbreviation W := (Proc (E * list event)).

(** From [p] to [p'] the calls [tr] were made. *)
Definition calls (tr : list event) (p p' : W) : Prop := (heap p').2 = (heap p).2 ++ tr.

Lemma calls_nil p : calls [] p p.
Proof. unfold calls. by rewrite app_nil_r. Qed.

Lemma calls_trans tr tr' p p' p'' : calls tr p p' → calls tr' p' p'' → calls (tr ++ tr') p p''.
Proof. unfold calls. intros H1 H2. by rewrite H2, H1, app_assoc. Qed.

Lemma calls_invoke c (p : W) : calls [Called c (lift (invoke c) p).1] p (lift (invoke c) p).2.
Proof. done. Qed.

(** The calls that make and close a client. *)
Definition client_calls (choice : ClientChoice) : list event :=
  match choice with UseHttp _ => [] | UseGrpc ep => [Called (GrpcNewClient ep) None] end.
Definition client_close (choice : ClientChoice) : call :=
  match choice with UseHttp _ => CloseIdleConnections | UseGrpc _ => GrpcConnClose end.

(** The client that was dialled and not closed. *)
Definition client_left (choice : ClientChoice) (r : resource) : Z :=
  match choice with
  | UseGrpc _ => if bool_decide (r = GrpcConn) then 1 else 0
  | UseHttp _ => 0
  end.

Lemma left_open_app r tr tr' : left_open r (tr ++ tr') = left_open r tr + left_open r tr'.
Proof. apply total_app. Qed.

Lemma left_open_refused choice r cfg e :
  left_open r (client_calls choice ++ [Called (KafkaNewConsumer cfg) (Some e)]) = client_left choice r.
Proof. destruct choice, r; by vm_compute. Qed.

Lemma left_open_unsubscribed choice r cfg topics e c :
  left_open r (client_calls choice ++ [Called (KafkaNewConsumer cfg) None;
    Called (SubscribeTopics topics) (Some e); Called ConsumerClose c]) = client_left choice r.
Proof. destruct choice, r; by vm_compute. Qed.

(** Whatever [run] does, what was opened around it is closed. *)
Lemma left_open_ran choice r cfg topics addr t l run s k cl :
  left_open r (client_calls choice ++ [Called (KafkaNewConsumer cfg) None;
      Called (SubscribeTopics topics) None] ++ Called (ListenAndServe addr) l :: run ++
    [Called (ServerShutdown t) s; Called ConsumerClose k; Called (client_close choice) cl]) =
  left_open r run.
Proof.
  change (Called (ListenAndServe addr) l :: run ++ ?rest) with ([Called (ListenAndServe addr) l] ++ run ++ rest).
  rewrite !left_open_app.
  assert (left_open r (client_calls choice) + left_open r [Called (KafkaNewConsumer cfg) None;
      Called (SubscribeTopics topics) None] + left_open r [Called (ListenAndServe addr) l] +
    left_open r [Called (ServerShutdown t) s; Called ConsumerClose k; Called (client_close choice) cl] = 0)
    by (destruct choice, r; by vm_compute).
  lia.
Qed.

Lemma new_client_calls choice timeout (p : W) :
  let '(err, p') := new_client choice timeout p in
  match err with
  | None => calls (client_calls choice) p p'
  | Some e => ∃ ep, choice = UseGrpc ep ∧ calls [Called (GrpcNewClient ep) (Some e)] p p'
  end.
Proof.
  unfold new_client. destruct choice as [ep|ep]; [by apply calls_nil|].
  unfold NewGrpcClientWithTimeout. rewrite !M_bind_eq.
  pose proof (calls_invoke (GrpcNewClient ep) p) as Hc.
  destruct (lift (invoke (GrpcNewClient ep)) p) as [[e|] p']; [by exists ep|done].
Qed.

Lemma close_client_calls choice (p : W) :
  ∃ r, calls [Called (client_close choice) r] p (close_client choice p).2.
Proof. destruct choice as [ep|ep]; by eexists. Qed.

Lemma new_consumer_calls cfg (p : W) :
  let '(r, p') := NewKafkaConsumerWithConfig cfg p in
  match r with
  | inl c => c = mkConsumer (DownstreamTimeout cfg) (PollInterval cfg) false ∧
             calls [Called (KafkaNewConsumer (consumer_config cfg)) None;
                    Called (SubscribeTopics [Topic cfg]) None] p p'
  | inr e => calls [Called (KafkaNewConsumer (consumer_config cfg)) (Some e)] p p' ∨
             ∃ r, calls [Called (KafkaNewConsumer (consumer_config cfg)) None;
                         Called (SubscribeTopics [Topic cfg]) (Some e); Called ConsumerClose r] p p'
  end.
Proof.
  unfold NewKafkaConsumerWithConfig. rewrite M_bind_eq.
  pose proof (calls_invoke (KafkaNewConsumer (consumer_config cfg)) p) as H1.
  destruct (lift (invoke (KafkaNewConsumer _)) p) as [[e|] p1]; [by left|]. cbn [fst snd] in *.
  rewrite M_bind_eq. pose proof (calls_invoke (SubscribeTopics [Topic cfg]) p1) as H2.
  destruct (lift (invoke (SubscribeTopics _)) p1) as [[e|] p2]; cbn [fst snd] in *;
    pose proof (calls_trans _ _ _ _ _ H1 H2) as H12; [|by split].
  rewrite M_bind_eq. right. pose proof (calls_invoke ConsumerClose p2) as H3.
  eexists. exact (calls_trans _ _ _ _ _ H12 H3).
Qed.

(** What the consumer does between start-up and shutdown. *)
Definition start_appends (start : ClientChoice → KafkaConsumer → M W (option error)) : Prop :=
  ∀ choice c p, ∃ tr, calls tr p (start choice c p).2.

Lemma run_calculator_calls start getenv choice c (p : W) :
  start_appends start → closeOnce c = false →
  ∃ q run l s k cl,
    (run_calculator start getenv choice c p).1 = Exit (logged "consumer stopped: " (start choice c q).1) ∧
    calls run q (start choice c q).2 ∧
    calls (Called (ListenAndServe (envOr getenv "CALCULATOR_METRICS_ADDR" ":9102")) l :: run ++
           [Called (ServerShutdown (5 * Second)) s; Called ConsumerClose k; Called (client_close choice) cl])
      p (run_calculator start getenv choice c p).2.
Proof.
  intros Hs Hc. unfold run_calculator. rewrite M_bind_eq.
  pose proof (calls_invoke (ListenAndServe (envOr getenv "CALCULATOR_METRICS_ADDR" ":9102")) p) as H1.
  set (q := (lift _ p).2) in *. destruct (Hs choice c q) as [run H2].
  rewrite M_bind_eq. set (q2 := (start choice c q).2) in *. rewrite M_bind_eq.
  pose proof (calls_invoke (ServerShutdown (5 * Second)) q2) as H3. set (q3 := (lift _ q2).2) in *.
  unfold KafkaConsumer_Close. rewrite Hc. rewrite !M_bind_eq.
  pose proof (calls_invoke ConsumerClose q3) as H4. set (q4 := (lift _ q3).2) in *.
  destruct (close_client_calls choice q4) as [cl H5].
  eexists q, run, _, _, _, cl. split; [done|]. split; [exact H2|].
  exact (calls_trans _ _ _ _ _ H1 (calls_trans _ _ _ _ _ H2 (calls_trans _ _ _ _ _ H3
    (calls_trans _ _ _ _ _ H4 H5)))).
Qed.
End Traced.

(** ** Properties *)

(** C23. Start-up and shutdown of the calculator.  A bad timeout or protocol ends it
    before anything is opened; a failing gRPC dial or Kafka client ends it there;
    when subscribing fails the Kafka client is closed first.  Otherwise it was
    configured from the environment with automatic commits off, the consumer ran
    once with that configuration, and afterwards the metrics server is shut
    down, the Kafka client is closed and then the aggregator's client, each
    exactly once, whether the consumer stopped with an error (which is logged)
    or not.  So a calculator that ran leaves nothing open that its loop did not
    leave open, and one that fails to start leaves nothing open but the gRPC
    client: when the Kafka consumer cannot be made, [log.Fatal] ends the process
    before the deferred [Close] of the client that it has dialled.  Closing the
    consumer a second time does nothing. *)
Theorem calculator_lifecycle {E} `{Libs E} `{TextLib} `{CaseLib} (getenv : string → string)
    (start : ClientChoice → KafkaConsumer → M (Proc (E * list event)) (option error))
    (p : Proc (E * list event)) :
  start_appends start →
  (let '(out, p') := calculator_main start getenv p in
   ∃ tr, calls tr p p' ∧
     match downstream_timeout getenv, client_choice getenv with
     | inr e, _ | inl _, inr e => out = Fatal e ∧ tr = []
     | inl timeout, inl choice =>
         let cfg := calculator_consumer getenv timeout in
         let new err := Called (KafkaNewConsumer (consumer_config cfg)) err in
         let subscribe err := Called (SubscribeTopics [Topic cfg]) err in
         0 < timeout ∧
         ((∃ ep e, choice = UseGrpc ep ∧ out = Fatal e ∧ tr = [Called (GrpcNewClient ep) (Some e)] ∧
             ∀ r, left_open r tr = 0) ∨
          (∃ e, out = Fatal e ∧ tr = client_calls choice ++ [new (Some e)] ∧
             ∀ r, left_open r tr = client_left choice r) ∨
          (∃ e r, out = Fatal e ∧
             tr = client_calls choice ++ [new None; subscribe (Some e); Called ConsumerClose r] ∧
             ∀ r, left_open r tr = client_left choice r) ∨
          (∃ q run l s k cl,
             let consumer := mkConsumer timeout (250 * Millisecond) false in
             out = Exit (logged "consumer stopped: " (start choice consumer q).1) ∧
             calls run q (start choice consumer q).2 ∧
             tr = client_calls choice ++ [new None; subscribe None] ++
                  Called (ListenAndServe (envOr getenv "CALCULATOR_METRICS_ADDR" ":9102")) l :: run ++
                  [Called (ServerShutdown (5 * Second)) s; Called ConsumerClose k;
                   Called (client_close choice) cl] ∧
             ∀ r, left_open r tr = left_open r run))
     end) ∧
  (∀ c (q : Proc (E * list event)), let '((c', _), q') := KafkaConsumer_Close c q in
     KafkaConsumer_Close c' q' = ((c', None), q')).
Proof.
  intros Hs. split.
  2: { intros [t i []] q; unfold KafkaConsumer_Close; [done|]. cbn [closeOnce]. rewrite M_bind_eq. done. }
  unfold calculator_main.
  destruct (downstream_timeout getenv) as [timeout|e] eqn:Et; [|exists []; split; [apply calls_nil|done]].
  assert (0 < timeout) as Ht.
  { unfold downstream_timeout in Et. destruct (ParseDuration _); [|done].
    destruct (Z.leb_spec z 0); simplify_eq. lia. }
  destruct (client_choice getenv) as [choice|e]; [|exists []; split; [apply calls_nil|done]].
  rewrite M_bind_eq. pose proof (new_client_calls choice timeout p) as D1.
  destruct (new_client choice timeout p) as [[e|] p1]; cbn [fst snd] in *.
  { destruct D1 as (ep & -> & D1). eexists. split; [exact D1|]. split; [done|]. left. exists ep, e.
    split_and!; [done..|]. by intros []. }
  rewrite M_bind_eq. pose proof (new_consumer_calls (calculator_consumer getenv timeout) p1) as D2.
  destruct (NewKafkaConsumerWithConfig _ p1) as [[c|e] p2]; cbn [fst snd] in *.
  2: { destruct D2 as [D2|[r D2]]; pose proof (calls_trans _ _ _ _ _ D1 D2) as D12;
       (eexists; split; [exact D12|]); (split; [done|]); right; [left; exists e|right; left; exists e, r];
       (split; [done|]); (split; [done|]); intros; apply left_open_refused || apply left_open_unsubscribed. }
  destruct D2 as [-> D2]. pose proof (calls_trans _ _ _ _ _ D1 D2) as D12.
  set (c := mkConsumer _ _ _).
  destruct (run_calculator_calls start getenv choice c p2 Hs eq_refl)
    as (q & run & l & s & k & cl & Ho & Hrun & D3).
  destruct (run_calculator _ _ _ _ p2) as [out p']. cbn [fst snd] in *.
  eexists. split; [exact (calls_trans _ _ _ _ _ D12 D3)|]. split; [done|]. do 3 right.
  exists q, run, l, s, k, cl. split; [exact Ho|]. split; [exact Hrun|]. rewrite <- app_assoc.
  split; [done|]. intros. apply left_open_ran.
Qed.

(** ** The receiver's calls *)

Section ReceiverTraced.
Context {E : Type} `{Libs E} `{WSEnv E}.
Abbreviation R := (Proc (gset Conn * (E * list event))).

#[export] Instance traced_ws : WSEnv (E * list event) := {|
  Upgrade r w := ((Upgrade r w.1).1, ((Upgrade r w.1).2, w.2));
  SetReadLimit c n w := ((SetReadLimit c n w.1).1, ((SetReadLimit c n w.1).2, w.2));
  SetReadDeadline c t w := ((SetReadDeadline c t w.1).1, ((SetReadDeadline c t w.1).2, w.2));
  WS_ReadMessage c w := ((WS_ReadMessage c w.1).1, ((WS_ReadMessage c w.1).2, w.2));
  WriteClose c s t w := ((WriteClose c s t w.1).1, ((WriteClose c s t w.1).2, w.2));
  Conn_Close c w := ((Conn_Close c w.1).1, ((Conn_Close c w.1).2, w.2))
|}.

Definition receiver_calls (tr : list event) (p p' : R) : Prop := (heap p').2.2 = (heap p).2.2 ++ tr.

Lemma closeAll_calls conns (p : R) : receiver_calls [] p (closeAll conns p).2.
Proof.
  unfold receiver_calls. rewrite app_nil_r. revert p. induction conns as [|c conns IH]; intros p; [done|].
  cbn [closeAll]. rewrite !M_bind_eq. by rewrite IH.
Qed.

Definition producer_config (getenv : string → string) : list (string * config_value) :=
  [("bootstrap.servers", CString (envOr getenv "KAFKA_BROKERS" "localhost:9092")); ("acks", CString "all")].

(** On a signal the server is shut down, and then the producer flushed and closed,
    once, whatever is left in it; what is left is reported. *)
Lemma receiver_lifecycle getenv serve closers (p : R) :
  (∀ recv q, ∃ tr, receiver_calls tr q (serve recv q).2) →
  let out := (receiver_main getenv serve closers p).1 in
  let p' := (receiver_main getenv serve closers p).2 in
  (∃ e, out = Fatal e ∧
     receiver_calls [Called (KafkaNewProducer (producer_config getenv)) (Some e)] p p') ∨
  (∃ l run s remaining c,
     receiver_calls
       ([Called (KafkaNewProducer (producer_config getenv)) None;
         Called (ListenAndServe (envOr getenv "RECEIVER_HTTP_ADDR" ":30000")) l] ++ run ++
        [Called (ServerShutdown (10 * Second)) s; Flushed remaining; Called ProducerClose c]) p p' ∧
     out = Exit (logged "receiver shutdown: " s ++ logged "producer shutdown: "
       (if 0 <? remaining
        then Some (EText (Itoa remaining +:+ " Kafka messages were not delivered before shutdown")) else None))).
Proof.
  intros Hserve. cbv zeta. unfold receiver_main. rewrite M_bind_eq.
  assert (∃ r q, new_receiver getenv p = (r, q) ∧
    receiver_calls [Called (KafkaNewProducer (producer_config getenv))
      match r with inr e => Some e | inl _ => None end] p q) as (r & p1 & -> & D1).
  { unfold new_receiver, NewKafkaProducer. rewrite !M_bind_eq. cbn [fst snd mret M_ret].
    change (on_world (invoke (KafkaNewProducer _)) p).1
      with (invoke (KafkaNewProducer (producer_config getenv)) (heap p).2.1).1.
    eexists _, _. split; [done|]. unfold receiver_calls.
    change (heap (on_world (invoke (KafkaNewProducer _)) p).2).2.2 with ((heap p).2.2 ++
      [Called (KafkaNewProducer (producer_config getenv))
         (invoke (KafkaNewProducer (producer_config getenv)) (heap p).2.1).1]).
    by destruct (invoke (KafkaNewProducer (producer_config getenv)) (heap p).2.1) as [[e|] w]. }
    cbn [fst snd]. destruct r as [recv|e]; [right|by left; exists e].
  rewrite M_bind_eq. set (p2 := (on_world _ p1).2). rewrite M_bind_eq.
  destruct (Hserve recv p2) as [run D3]. set (p3 := (serve recv p2).2) in *.
  rewrite M_bind_eq. set (s := (on_world (invoke (ServerShutdown _)) p3).1).
  set (p4 := (on_world _ p3).2). rewrite M_bind_eq.
  pose proof (closeAll_calls (take closers (elements (heap p4).1)) p4) as D5.
  change (closeAll _ p4) with (close_some closers p4) in D5. set (p5 := (close_some closers p4).2) in *.
  unfold KafkaProducer_Close. rewrite !M_bind_eq.
  eexists _, run, s, _, _. split; [|done].
  unfold receiver_calls in *. unfold on_world, zoom, lift. cbn [heap fst snd part set_heap invoke Flush traced_libs].
  rewrite app_nil_r in D5. rewrite D5.
  assert ((heap p4).2.2 = (heap p3).2.2 ++ [Called (ServerShutdown (10 * Second)) s]) as -> by done.
  assert ((heap p2).2.2 = (heap p1).2.2 ++
    [Called (ListenAndServe (envOr getenv "RECEIVER_HTTP_ADDR" ":30000"))
       (on_world (invoke (ListenAndServe (envOr getenv "RECEIVER_HTTP_ADDR" ":30000"))) p1).1]) as E2 by done.
  rewrite D3, E2, D1, <- !app_assoc. done.
Qed.
End ReceiverTraced.

(** ** A concrete run *)

(** Nobody may subscribe. *)
#[local] Instance refusing_libs : Libs () := {|
  invoke c w := (match c with SubscribeTopics _ => Some (EText "not authorized") | _ => None end, w);
  Flush _ w := (0, w)
|}.

#[local] Instance two_seconds : TextLib := {|
  Quote s := s; ParseFloat _ := None;
  ParseDuration s := if bool_decide (s = "2s") then Some (2 * Second) else None
|}.
#[local] Instance ascii_case : CaseLib := {| unicode_ToLower s := s |}.

Definition no_environment (key : string) : string := "".
Definition never_started : ClientChoice → KafkaConsumer → M (Proc (() * list event)) (option error) :=
  λ _ _, mret None.

Definition refused : list event :=
  [Called (GrpcNewClient "localhost:3001") None;
   Called (KafkaNewConsumer (consumer_config (calculator_consumer no_environment (2 * Second)))) None;
   Called (SubscribeTopics ["obudata"]) (Some (EText "not authorized")); Called ConsumerClose None].

Lemma calculator_lifecycle_witness :
  start_appends never_started ∧
  (let '(out, p') := calculator_main never_started no_environment (mkProc ((), []) [] (λ _, mkInstant 0 0) 0) in
   out = Fatal (EText "not authorized") ∧ (heap p').2 = refused) ∧
  left_open KafkaClient refused = 0 ∧ left_open GrpcConn refused = 1 ∧
  KafkaConsumer_Close (mkConsumer 1 1 true) (mkProc ((), refused) [] (λ _, mkInstant 0 0) 0) =
    ((mkConsumer 1 1 true, None), mkProc ((), refused) [] (λ _, mkInstant 0 0) 0).
Proof.
  assert (start_appends never_started) as Hs by (intros ? ? p; exists []; apply calls_nil).
  split; [done|].
  destruct (calculator_lifecycle no_environment never_started
    (mkProc ((), []) [] (λ _, mkInstant 0 0) 0) Hs) as [_ Hclose].
  split; [by vm_compute|]. split; [by vm_compute|]. split; [by vm_compute|].
  exact (Hclose (mkConsumer 1 1 true) (mkProc ((), refused) [] (λ _, mkInstant 0 0) 0)).
Defined.
