(* ===== verification/Manual.v ===== *)
(** * Manual: the manual gRPC program (src/aggregator/temp/main.go)

    One event sent to a running aggregator by hand.  Its event ID is a constant,
    so however often the program is run it bills OBU 1 at most once. *)

From S2P Require Import Prelude Float64 GoLib Types Store Service Http Server Client Lifecycle.

Local Open Scope Z_scope.

Definition manual_request (now : Instant) : AggregateRequest := {|
  req_ObuID := 1;
  req_Value := f_of_ratio 123 10;
  req_ProducedAtUnixNano := wall now;
  req_EventID := "manual-test"
|}.

Section Manual.
Context {X : Type} `{Libs X} `{GrpcTransport X} `{GrpcStatus}.

Definition manual_main : M (Proc X) exit :=
  r ← NewGrpcClient ":3001";
  match r with
  | inr e => mret (Fatal e)
  | inl _ =>
      now ← Now;
      err ← Client_Aggregate GrpcClient (manual_request now);
      match err with Some e => mret (Fatal e) | None => mret (Exit []) end
  end.

(** [n] runs, one after another, against the same aggregator. *)
Fixpoint manual_runs (n : nat) : M (Proc X) (list exit) :=
  match n with
  | O => mret []
  | S n => r ← manual_main; rs ← manual_runs n; mret (r :: rs)
  end.
End Manual.

Section Runs.
Context {X : Type} `{Libs X} `{!GrpcTransport X} `{GrpcStatus}.
Context {ok : Distance → Prop} {remote : X → Ledger → Prop} {kept : X → X → Prop}.
Context `{!GrpcTransportSpec X ok remote kept}.
Hypothesis manual_ok : ∀ now, ok (grpc_distance (manual_request now)).
(** Making a client sends nothing. *)
Hypothesis invoke_remote : ∀ c x L, remote x L → remote (invoke c x).2 L.

(** [L'] is [L] with the manual event in it, once. *)
Definition with_manual (L L' : Ledger) : Prop :=
  ∃ now, L' = l_insert (grpc_distance (manual_request now)) L.

Lemma manual_dup now L : l_dup (grpc_distance (manual_request now)) L = bool_decide ("manual-test" ∈ l_ids L).
Proof. done. Qed.

Lemma with_manual_elem L L' : with_manual L L' → "manual-test" ∈ l_ids L'.
Proof.
  intros [t ->]. rewrite l_ids_insert, manual_dup by done.
  case_bool_decide; [done|]. apply elem_of_app; right; by left.
Qed.

Lemma with_manual_again now L L' :
  with_manual L L' → l_insert (grpc_distance (manual_request now)) L' = L'.
Proof.
  intros Hw. unfold l_insert. rewrite manual_dup.
  by rewrite (bool_decide_eq_true_2 (_ ∈ _)) by (by apply (with_manual_elem L)).
Qed.

(** What runs may have done to [L]. *)
Definition manual_inv (L L' : Ledger) : Prop := L' = L ∨ with_manual L L'.

Lemma manual_inv_trans L L' L'' : manual_inv L L' → manual_inv L' L'' → manual_inv L L''.
Proof.
  intros [->|Hw] [->|Hw']; [by left|by right|by right|].
  right. destruct Hw' as [t ->]. by rewrite (with_manual_again t L L').
Qed.

Lemma manual_inv_mono L L' :
  manual_inv L L' → "manual-test" ∈ l_ids L → "manual-test" ∈ l_ids L'.
Proof. intros [->|Hw] Hin; [done|]. by apply (with_manual_elem L). Qed.

Lemma manual_main_step (p : Proc X) L :
  remote (heap p) L →
  let '(r, p') := manual_main p in
  ∃ L', remote (heap p') L' ∧ manual_inv L L' ∧ (r = Exit [] → with_manual L L').
Proof using Type*.
  intros Hp. unfold manual_main, NewGrpcClient, NewGrpcClientWithTimeout. rewrite !M_bind_eq.
  destruct (lift_heap (invoke (GrpcNewClient ":3001")) p) as [E1 E2].
  rewrite E1. set (q := (lift _ p).2) in *.
  assert (remote (heap q) L) as Hq by (rewrite E2; by apply invoke_remote).
  destruct (invoke _ (heap p)).1 as [e|]; cbn [fst snd mret M_ret].
  { exists L. split_and!; [done|by left|done]. }
  rewrite !M_bind_eq. set (now := (Now q).1).
  pose proof (client_Aggregate_spec (manual_request now) (Now q).2 L (manual_ok now) Hq) as (_ & Hs & Hf).
  unfold run, exec in *. destruct (Client_Aggregate _ _ _) as [[e|] p']; cbn in *.
  - destruct (Hf ltac:(done)) as [Hr|Hr]; (eexists; split_and!; [exact Hr| |done]); [by left|].
    unfold agg_ledger. case_match; [by left|right; by eexists].
  - destruct (Hs eq_refl) as [Hv Hr]. eexists. split; [exact Hr|].
    unfold agg_ledger. rewrite Hv. split; [right|intros _]; by eexists.
Qed.

(** The manual program bills OBU 1 at most once.  After any number of runs
    against an aggregator that starts with the ledger [L], its ledger is [L], or
    [L] with the event of one run, which is [L] again when [L] already has an event
    of that ID; and it has the event as soon as one run ends well. *)
Theorem manual_applies_once (n : nat) (p : Proc X) L :
  remote (heap p) L →
  let '(rs, p') := manual_runs n p in
  length rs = n ∧
  ∃ L', remote (heap p') L' ∧ (L' = L ∨ with_manual L L') ∧
        (Exit [] ∈ rs → "manual-test" ∈ l_ids L').
Proof using Type*.
  revert p L. induction n as [|n IH]; intros p L Hp.
  { cbn. split; [done|]. exists L. split_and!; [done|by left|by intros ?%elem_of_nil]. }
  cbn [manual_runs]. rewrite M_bind_eq. pose proof (manual_main_step p L Hp) as Hm.
  destruct (manual_main p) as [r p1]. destruct Hm as (L1 & H1 & Hi1 & Hr).
  cbn [fst snd]. rewrite M_bind_eq. specialize (IH p1 L1 H1).
  destruct (manual_runs n p1) as [rs p2]. destruct IH as (Hlen & L2 & H2 & Hi2 & Hin).
  cbn. split; [by rewrite Hlen|]. exists L2. split_and!; [done|by apply (manual_inv_trans L L1)|].
  intros [He|Hrs]%elem_of_cons; [|by apply Hin].
  apply (manual_inv_mono L1); [done|]. apply (with_manual_elem L). by apply Hr.
Qed.
End Runs.

(** Three runs against the aggregator, the network without faults. *)
#[local] Instance m_status : GrpcStatus := toy_status.
#[local] Instance m_libs : Libs (Proc MemoryStore) := {|
  invoke c x := (None, x);
  Flush t x := (0, x)
|}.
#[local] Instance m_grpc : GrpcTransport (Proc MemoryStore) := direct_grpc.
#[local] Instance m_spec :
  GrpcTransportSpec (Proc MemoryStore) (λ _, True) (λ x L, refines (heap x) L) (λ _ _, True) :=
  direct_grpc_spec.

Lemma manual_applies_once_witness :
  let p := mkProc (new_process test_clock) [] test_clock 0 in
  let '(rs, p') := manual_runs 3 p in
  refines (S:=MemoryStore) (heap (heap p)) [] ∧
  rs = [Exit []; Exit []; Exit []] ∧
  ∃ L', refines (heap (heap p')) L' ∧ l_ids L' = ["manual-test"].
Proof.
  intros p.
  pose proof (manual_applies_once (λ _, I) (λ _ _ _ H, H) 3 p [] refines_new) as Hw.
  assert ((manual_runs 3 p).1 = [Exit []; Exit []; Exit []]) as Hrs by by vm_compute.
  destruct (manual_runs 3 p) as [rs p']. cbn [fst] in Hrs. subst rs.
  destruct Hw as (_ & L' & Hr & Hl & Hin). split; [apply refines_new|]. split; [done|].
  exists L'. split; [done|]. destruct Hl as [->|[now ->]]; [|done].
  specialize (Hin (list_elem_of_here _ _)). by apply elem_of_nil in Hin.
Defined.
