(* ===== verification/EndToEnd.v ===== *)
(** * EndToEnd: from the load generator to the aggregator

    The whole path of an event: written by the load generator
    (ObuConcurrency.v), read and forwarded by the receiver (Forwarding.v), kept by
    Kafka in the partition that the key of its message chooses, consumed, measured and billed by the calculator (Pipeline.v, Broker.v),
    and applied by the aggregator (Service.v).  The digest that the generator
    prints is the one that the aggregator reports, and a vehicle pays for the path
    it drove: the key is the vehicle number, so its events share a partition. *)

From stdpp Require Import sorting.
From S2P Require Import Prelude Float64 GoLib Types Store Service Http Decimal Json GoJson Server Calculator Client Consumer Pipeline Broker Restart Obu LoadMain ObuConcurrency Receiver Forwarding.
From Stdlib Require Import Ascii.

Local Open Scope Z_scope.

(** ** The ids that the aggregator ends with *)

Section Ids.
Context `{JsonCodec}.

Lemma bills_ids es s : d_EventID <$> bills es s = od_EventID <$> es.
Proof.
  revert s. induction es as [|e es IH]; intros s; [done|]. simpl.
  destruct (CalcService.CalculateDist e s) as [[v err] s']. rewrite fmap_cons. simpl. by f_equal.
Qed.

Lemma agg_ledgers_ids_from ds L id :
  id ∈ l_ids (agg_ledgers ds L) → id ∈ l_ids L ∨ id ∈ (d_EventID <$> ds).
Proof.
  revert L. induction ds as [|d ds IH]; intros L; [by left|].
  change (agg_ledgers (d :: ds) L) with (agg_ledgers ds (agg_ledger d L)).
  intros [Hid|Hid]%IH; [|right; rewrite fmap_cons; by right].
  rewrite agg_ledger_ids in Hid. case_match; [by left|]. set_solver.
Qed.

Lemma ideal_ids ms id :
  all_valid ms → id ∈ l_ids (ideal_ledger ms) ↔ id ∈ (od_EventID <$> omap usable ms).
Proof.
  intros Hv. unfold ideal_ledger. rewrite <- (bills_ids (omap usable ms) NewCalcService). split.
  - intros [Hid|Hid]%agg_ledgers_ids_from; [by apply elem_of_nil in Hid|done].
  - intros (d & -> & Hd)%list_elem_of_fmap.
    pose proof (agg_ledgers_offered (ideal_bills ms) []) as Ho. unfold all_valid in Hv.
    rewrite Forall_forall in Ho, Hv. destruct (Ho d Hd) as [Hi|?]; [|done].
    rewrite (Hv d Hd) in Hi. done.
Qed.
End Ids.

(** ** One connection *)

Section Connection.
Context {E : Type} `{!WSEnv E} `{!ProducerEnv E} `{JsonLaws}.
#[local] Set Default Proof Using "Type*".

(** The frame of [websocket.Conn.WriteJSON]: the encoder ends with a newline. *)
Definition event_text (e : OBUData) : string :=
  match json_Marshal (JOBUData e) with inl s => s +:+ String "010" "" | inr _ => "" end.

(** A handler of the receiver that read what was written on the wire [w] handed
    the messages [msgs] to Kafka. *)
Definition received (topic : string) (limit : Z) (w : list OBUData) (msgs : list KafkaMessage) : Prop :=
  ∃ n r conn (p : Proc (gset Conn * (E * list RxEvent))) tr,
    (Upgrade r (heap p).2.1).1 = inl conn ∧
    (heap (exec (handleWS (NewDataReceiver topic) limit n r) p)).2.2 = (heap p).2.2 ++ tr ∧
    reads tr = event_text <$> w ∧ msgs = produced tr.

(** An event that the receiver accepts. *)
Definition acceptable (e : OBUData) : Prop := decodable e = true ∧ invalid_data e = false.

Lemma accepted_text e : acceptable e → accepted (event_text e) = Some e.
Proof.
  intros [Hd Hi]. unfold accepted, event_text.
  destruct (json_Marshal_finite (JOBUData e)) as [s Hs].
  { unfold decodable in Hd. by apply andb_true_iff in Hd as [_ ?]. }
  by rewrite Hs, (json_OBUData_newline e s), Hi.
Qed.

Lemma received_carries topic limit w msgs :
  Forall acceptable w → received topic limit w msgs → Forall2 carries msgs w.
Proof.
  intros Hw (n & r & conn & p & tr & Hup & Htr & Hreads & ->).
  destruct (handleWS_carries topic limit n r p conn Hup) as (tr' & Htr' & Hca).
  rewrite Htr in Htr'. apply app_inv_head in Htr' as <-.
  assert (omap accepted (reads tr) = w) as Hr; [|by rewrite Hr in Hca].
  rewrite Hreads. clear Hreads Hca Htr. induction Hw as [|e w He _ IH]; [done|].
  rewrite fmap_cons. cbn [omap list_omap]. rewrite accepted_text by done. by f_equal.
Qed.

Lemma received_all topic limit wires msgss :
  Forall acceptable (concat wires) → Forall2 (received topic limit) wires msgss →
  Forall2 (Forall2 carries) msgss wires.
Proof.
  intros Hw. induction 1 as [|w msgs wires msgss Hr _ IH]; [constructor|].
  simpl in Hw. apply Forall_app in Hw as [Hw Hws]. constructor; [|by apply IH].
  by eapply received_carries.
Qed.
End Connection.

(** ** Interleavings *)

Lemma StronglySorted_filter {A} (R : A → A → Prop) (P : A → Prop) `{∀ x, Decision (P x)} l :
  StronglySorted R l → StronglySorted R (filter P l).
Proof.
  induction 1 as [|x l _ IH Hx]; [constructor|]. rewrite filter_cons. case_decide; [|done].
  constructor; [done|]. rewrite !Forall_forall in *. intros y [_ Hy]%list_elem_of_filter. by apply Hx.
Qed.

(** [out] takes the elements of the lists [ls] one at a time, each list in order. *)
Inductive interleaves {A} : list (list A) → list A → Prop :=
| inter_done ls : Forall (λ l, l = []) ls → interleaves ls []
| inter_take i x l ls out :
    ls !! i = Some (x :: l) → interleaves (<[i := l]> ls) out → interleaves ls (x :: out).

Section Interleaving.
Context {A B : Type}.

Lemma concat_insert_cons (ls : list (list A)) i x l :
  ls !! i = Some (x :: l) → concat ls ≡ₚ x :: concat (<[i := l]> ls).
Proof.
  revert i. induction ls as [|l0 ls IH]; intros [|i]; try done; simpl.
  - by intros [= ->].
  - intros Hi. rewrite (IH i Hi). by rewrite <- Permutation_middle.
Qed.

Lemma interleaves_Permutation (ls : list (list A)) out : interleaves ls out → out ≡ₚ concat ls.
Proof.
  induction 1 as [ls Hls|i x l ls out Hi _ IH].
  - induction Hls as [|l ls -> _ IH]; [done|]. done.
  - by rewrite (concat_insert_cons ls i x l Hi), IH.
Qed.

Lemma interleaves_omap (f : A → option B) (ls : list (list A)) (out : list A) :
  interleaves ls out → interleaves (omap (M:=list) f <$> ls) (omap f out).
Proof.
  induction 1 as [ls Hls|i x l ls out Hi _ IH].
  - constructor. apply Forall_fmap. eapply Forall_impl; [exact Hls|]. by intros l ->.
  - rewrite list_fmap_insert in IH.
    assert ((omap (M:=list) f <$> ls) !! i = Some (omap f (x :: l))) as Hi' by by rewrite list_lookup_fmap, Hi.
    cbn [omap list_omap] in *. destruct (f x) as [y|].
    + by eapply inter_take.
    + by rewrite list_insert_id in IH.
Qed.

Lemma interleaves_one (l : list A) : interleaves [l] l.
Proof.
  induction l as [|x l IH]; [by repeat constructor|]. by apply (inter_take 0 x l).
Qed.

(** What only one of the lists has keeps its order. *)
Lemma interleaves_filter (P : A → Prop) `{∀ x, Decision (P x)} (ls : list (list A)) out i w :
  interleaves ls out → ls !! i = Some w →
  (∀ j l, ls !! j = Some l → j ≠ i → Forall (λ x, ¬ P x) l) →
  filter P out = filter P w.
Proof.
  intros Hi. revert w. induction Hi as [ls Hls|j x l ls out Hj _ IH]; intros w Hw Hown.
  - rewrite Forall_forall in Hls. by rewrite (Hls w) by (by eapply list_elem_of_lookup_2).
  - destruct (decide (j = i)) as [->|Hne].
    + rewrite Hj in Hw. injection Hw as <-. rewrite !filter_cons.
      assert (filter P out = filter P l) as ->; [|done].
      apply IH; [by rewrite list_lookup_insert_eq by (by eapply lookup_lt_Some)|].
      intros k l' Hk Hki. apply (Hown k l'); [|done]. by rewrite list_lookup_insert_ne in Hk.
    + rewrite filter_cons_False.
      2:{ specialize (Hown j _ Hj Hne). by inversion Hown. }
      apply IH; [by rewrite list_lookup_insert_ne|]. intros k l' Hk Hki.
      destruct (decide (j = k)) as [<-|Hjk].
      * rewrite list_lookup_insert_eq in Hk by (by eapply lookup_lt_Some). injection Hk as <-.
        specialize (Hown j _ Hj Hne). by inversion Hown.
      * rewrite list_lookup_insert_ne in Hk by done. by eapply Hown.
Qed.
End Interleaving.

(** ** The topic *)

Section Topic.
Context `{JsonCodec}.
(** Kafka's choice of a partition by the key of a message. *)
Context (part : string → nat).

(** Kafka keeps every message in the partition that its key chooses, in any order
    and possibly more than once, and nothing else. *)
Record stored (msgs : list KafkaMessage) (logs : list (list Message)) : Prop := {
  stored_from k m : m ∈ partition logs k →
    ∃ km, km ∈ msgs ∧ km_Value km = Value m ∧ part (km_Key km) = k;
  stored_all km : km ∈ msgs →
    ∃ m, m ∈ partition logs (part (km_Key km)) ∧ Value m = km_Value km
}.

(** The values of a handler's messages for partition [k]. *)
Definition sent_to (k : nat) (msgs : list KafkaMessage) : list string :=
  km_Value <$> filter (λ m, part (km_Key m) = k) msgs.

(** ... once and in the order of each handler. *)
Definition stored_in_order (msgss : list (list KafkaMessage)) (logs : list (list Message)) : Prop :=
  ∀ k, interleaves (sent_to k <$> msgss) (Value <$> partition logs k).

Lemma carries_usable km m e : carries km e → Value m = km_Value km → usable m = Some e.
Proof. intros [_ Hu] Hv. specialize (Hu 0 0). unfold usable, polled in *. by rewrite Hv. Qed.

Lemma events_stored msgs es logs k e :
  Forall2 carries msgs es → stored msgs logs →
  e ∈ events (partition logs) k ↔ e ∈ es ∧ part (Itoa (od_OBUID e)) = k.
Proof.
  intros Hca [Hf Ha]. unfold events. rewrite list_elem_of_omap. split.
  - intros (m & Hm & Hu). destruct (Hf k m Hm) as (km & Hkm & Hv & <-).
    apply list_elem_of_lookup in Hkm as [i Hi].
    destruct (Forall2_lookup_l _ _ _ _ _ Hca Hi) as (e' & He' & Hc).
    rewrite (carries_usable km m e' Hc) in Hu by done. injection Hu as ->.
    destruct Hc as [-> _]. split; [by eapply list_elem_of_lookup_2|done].
  - intros [[i Hi]%list_elem_of_lookup Hk].
    destruct (Forall2_lookup_r _ _ _ _ _ Hca Hi) as (km & Hkm & Hc).
    destruct (Ha km) as (m & Hm & Hv); [by eapply list_elem_of_lookup_2|].
    exists m. split; [|by apply (carries_usable km)]. destruct Hc as [Ek _]. by rewrite Ek, Hk in Hm.
Qed.

(** A vehicle stays in one partition, because its number is the key. *)
Lemma stored_keyed msgs es logs :
  NoDup (od_EventID <$> es) → Forall2 carries msgs es → stored msgs logs →
  keyed (partition logs).
Proof.
  intros Hnd Hca Hst k j Hne. unfold ids, obus. split; intros x.
  - rewrite !list_elem_of_fmap. intros (e & -> & He) (e' & Eid & He').
    rewrite (events_stored msgs es) in He, He' by done. destruct He as [He <-], He' as [He' <-].
    apply Hne. f_equal. f_equal. f_equal.
    by apply (NoDup_fmap_inj od_EventID es).
  - rewrite !list_elem_of_fmap. intros (e & -> & He) (e' & Eo & He').
    rewrite (events_stored msgs es) in He, He' by done. destruct He as [He <-], He' as [He' <-].
    apply Hne. by rewrite Eo.
Qed.

Lemma stored_in_order_stored msgss logs : stored_in_order msgss logs → stored (concat msgss) logs.
Proof.
  intros Ho. assert (∀ k v, v ∈ Value <$> partition logs k ↔
    ∃ km, km ∈ concat msgss ∧ part (km_Key km) = k ∧ v = km_Value km) as Hv.
  { intros k v. rewrite (interleaves_Permutation _ _ (Ho k)), elem_of_concat. split.
    - intros (l & (msgs & -> & Hm)%list_elem_of_fmap & Hx).
      apply list_elem_of_fmap in Hx as (km & -> & [Hk Hkm]%list_elem_of_filter).
      exists km. split; [|done]. apply elem_of_concat. by exists msgs.
    - intros (km & (msgs & Hm & Hkm)%elem_of_concat & Hk & ->). exists (sent_to k msgs). split.
      + apply list_elem_of_fmap. by exists msgs.
      + apply list_elem_of_fmap_2, list_elem_of_filter. by split. }
  constructor.
  - intros k m Hm. destruct (Hv k (Value m)) as [Hv1 _].
    destruct Hv1 as (km & ? & ? & ->); [by apply list_elem_of_fmap_2|]. by exists km.
  - intros km Hkm. destruct (Hv (part (km_Key km)) (km_Value km)) as [_ Hv2].
    assert (km_Value km ∈ Value <$> partition logs (part (km_Key km))) as Hin by (apply Hv2; eauto).
    apply list_elem_of_fmap in Hin as (m & E & Hm). by exists m.
Qed.

(** The events of a partition interleave those of the connections. *)
Lemma stored_in_order_events msgss wires logs k :
  Forall2 (Forall2 carries) msgss wires → stored_in_order msgss logs →
  interleaves (filter (λ e, part (Itoa (od_OBUID e)) = k) <$> wires) (events (partition logs) k).
Proof.
  intros Hca Ho.
  set (decode := λ v, usable (mkMessage None 0 0 v)).
  pose proof (interleaves_omap decode _ _ (Ho k)) as Hi.
  assert (omap decode (Value <$> partition logs k) = events (partition logs) k) as E1.
  { clear Hi Ho. unfold events. induction (partition logs k) as [|m l IH]; [done|].
    rewrite fmap_cons. cbn [omap list_omap]. rewrite IH. done. }
  rewrite E1 in Hi. clear E1.
  assert (omap (M:=list) decode <$> (sent_to k <$> msgss)
    = (filter (λ e, part (Itoa (od_OBUID e)) = k) <$> wires)) as E2; [|by rewrite E2 in Hi].
  clear Hi Ho. induction Hca as [|msgs w msgss wires Hw _ IH]; [done|].
  rewrite !fmap_cons, IH. f_equal. clear IH.
  induction Hw as [|km e msgs w [Ek Hu] _ IH]; [done|]. unfold sent_to in *. rewrite !filter_cons, Ek.
  case_decide; [|done]. rewrite fmap_cons. cbn [omap list_omap].
  assert (decode (km_Value km) = Some e) as -> by apply (Hu 0 0). by f_equal.
Qed.
End Topic.

(** ** What a ledger of complete passes says *)

Section Complete.
Context `{JsonCodec} (topic : nat → list Message) (L : Ledger).
Context (Hpasses : passes topic (λ k, length (topic k)) L) (Hvalid : ∀ k, all_valid (topic k)).

Lemma complete_own k : own topic k L = ideal_ledger (topic k).
Proof using Hpasses. rewrite (passes_own _ _ _ Hpasses). by rewrite firstn_all. Qed.

Lemma complete_ids id : id ∈ l_ids L ↔ ∃ k, id ∈ ids topic k.
Proof using Hpasses Hvalid.
  split.
  - intros [_ (d & -> & Hd)%list_elem_of_fmap]%list_elem_of_filter. by eapply passes_all.
  - intros [k Hk]. rewrite <- (own_ids topic k), complete_own by done.
    by apply ideal_ids.
Qed.

Lemma bills_elem es s d : d ∈ bills es s → ∃ e v, e ∈ es ∧ d = bill e v.
Proof using Type.
  revert s. induction es as [|e es IH]; intros s; simpl; [by intros ?%not_elem_of_nil|].
  destruct (CalcService.CalculateDist e s) as [[v err] s'].
  intros [->|Hd]%elem_of_cons; [exists e, v; split; [left|done]|].
  destruct (IH s' Hd) as (e' & v' & ? & ?). exists e', v'. split; [by right|done].
Qed.

(** The charges of a vehicle are those in its partition. *)
Lemma complete_values k obu :
  (∀ j e, e ∈ events topic j → in_i32 (od_OBUID e) ∧ (od_OBUID e = obu → j = k)) →
  l_values L obu = l_values (ideal_ledger (topic k)) obu.
Proof using Hpasses.
  intros Hobu. rewrite <- complete_own. unfold l_values, own. f_equal.
  symmetry. apply filter_implied. intros d Hin Hd.
  destruct (passes_all _ _ _ Hpasses d Hin) as [j Hj].
  assert (d ∈ own topic j L) as Ho by by apply list_elem_of_filter.
  rewrite complete_own in Ho. apply agg_ledgers_elem in Ho as [Ho|Ho]; [by apply not_elem_of_nil in Ho|].
  destruct (bills_elem _ _ _ Ho) as (e & v & He & ->). destruct (Hobu j e He) as [Hi Hjk].
  simpl in Hd. rewrite wrapS_id in Hd by (lia || apply Hi). by rewrite <- (Hjk Hd).
Qed.
End Complete.

(** ** One vehicle *)

(** The connection that the events of vehicle [v] take in fixed mode. *)
Definition vehicle_connection (v : Z) (n : nat) : nat := Z.to_nat (Z.rem (v - 1) (Z.of_nat n)).

Lemma vehicle_one_wire cfg payload n run_id s v i l :
  Mode cfg = "fixed" → rtc (unwrapped_step cfg payload) (initial cfg n run_id) s →
  wires s !! i = Some l →
  StronglySorted (before cfg run_id) l ∧
  (i ≠ vehicle_connection v n → Forall (λ e, ¬ od_OBUID e = v) l).
Proof.
  intros Hm Hs Hi. destruct (Ordered_wire cfg payload run_id n Hm s i l Hs Hi) as [Hso Ho].
  split; [done|]. intros Hne. eapply Forall_impl; [exact Ho|]. intros e He <-. by apply Hne.
Qed.

(** ** Properties *)

(** C1. The reconciliation check is sound.  Take any run of the load generator, in
    either mode, at a moment when no event is being recorded; let the receiver's
    handlers read what was written on its connections, let Kafka keep the messages
    they handed to it in the partitions that their keys choose, in any order and
    possibly more than once, and let the calculator work through all the
    partitions against any finite schedule of faults.  When no event is a poison
    pill, the aggregator then reports exactly the count, xor and sum that the
    generator prints in its summary. *)
Theorem reconciliation_matches {S} `{StorerSpec S} `{GrpcStatus} {E} `{!WSEnv E} `{!ProducerEnv E}
    `{JsonLaws} (cfg : loadConfig) (payload topic : string) (limit run_id elapsed : Z) (n : nat)
    (s : Sys) (msgss : list (list KafkaMessage)) (part : string → nat) (logs : list (list Message))
    (faults : list Fault) (agg : Proc S) (turn : nat) (ms : list MetricOp) (clk : nat → Instant)
    (t : nat) :
  rtc (unwrapped_step cfg payload) (initial cfg n run_id) s →
  forallb ObuConcurrency.quiet (workers s) = true →
  Forall acceptable (concat (wires s)) →
  Forall2 (received topic limit) (wires s) msgss →
  stored part (concat msgss) logs →
  topic_ok logs → (∀ k, all_valid (partition logs k)) → Forall safe faults → refines (heap agg) [] →
  let p := mkProc (NewCalcService, mkSim (λ _, 0%nat) (λ _, 0%nat) turn faults agg) ms clk t in
  let p' := exec (Start (H:=sim_env logs) calc_service (GrpcClient (H:=sim_grpc))
                    (length faults + length (concat logs))) p in
  let report := run (AggReconciliation service) (sim_agg (heap p').2) in
  let printed := summary_of cfg (st s) elapsed in
  Count report = s_EventsWritten printed ∧ XOR report = s_EventIDHashXOR printed ∧
  Sum report = s_EventIDHashSum printed.
Proof.
  intros Hs Hq Hw Hrx Hst Hok Hv Hf Ha p p' report printed.
  pose proof (load_digest cfg payload n run_id s (unwrapped_run _ _ _ _ Hs) Hq) as Hd.
  assert (NoDup (od_EventID <$> concat (wires s))) as Hnd
    by apply (Unique_sent cfg run_id), (Unique_reachable cfg payload run_id n s Hs).
  pose proof (Forall2_concat_all _ _ _ (received_all _ _ _ _ Hw Hrx)) as Hca.
  pose proof (stored_keyed part _ _ logs Hnd Hca Hst) as Hk.
  pose proof (consumer_drains logs faults agg turn ms clk t Hok Hk Hv Hf Ha) as Hc. cbv zeta in Hc.
  fold p in Hc. unfold p' in *. unfold exec in report.
  destruct (Start _ _ _ p) as [r q]. destruct Hc as (_ & _ & L & HL & Hpass). cbn [snd] in report.
  assert (report = l_digest L) as Er by by apply service_reconciliation.
  assert (l_digest L = recon_of (od_EventID <$> concat (wires s))) as Ed; [|by rewrite Er, Ed, <- Hd].
  apply recon_of_Permutation, NoDup_Permutation; [by eapply passes_NoDup|done|].
  intros id. rewrite (complete_ids _ _ Hpass Hv), list_elem_of_fmap. split.
  - intros [k (e & -> & He)%list_elem_of_fmap].
    apply (events_stored part _ _ _ _ _ Hca Hst) in He as [He _]. by exists e.
  - intros (e & -> & He). exists (part (Itoa (od_OBUID e))). apply Pipeline.event_id.
    by apply (events_stored part _ _ _ _ _ Hca Hst).
Qed.

(** C2. A vehicle pays for the path it drove.  In fixed mode, when Kafka keeps what
    the handlers forwarded once, in the partition of its key and there in each
    handler's order, and the calculator has worked through all the partitions
    against any finite schedule of faults, the invoice of a vehicle is the sum of
    the distances between its own consecutive points, in the order in which the
    load generator produced them, times the price; a vehicle without points has
    no invoice. *)
Theorem invoice_of_generated_path {S} `{StorerSpec S} `{GrpcStatus} {E} `{!WSEnv E}
    `{!ProducerEnv E} `{JsonLaws} (cfg : loadConfig) (payload topic : string) (limit run_id : Z)
    (n : nat) (s : Sys) (msgss : list (list KafkaMessage)) (part : string → nat)
    (logs : list (list Message)) (faults : list Fault) (agg : Proc S) (turn : nat)
    (ms : list MetricOp) (clk : nat → Instant) (t : nat) (v : Z) (w : list OBUData) :
  Mode cfg = "fixed" →
  rtc (unwrapped_step cfg payload) (initial cfg n run_id) s →
  Forall acceptable (concat (wires s)) → Forall (λ e, in_i32 (od_OBUID e)) (concat (wires s)) →
  Forall2 (received topic limit) (wires s) msgss →
  stored_in_order part msgss logs →
  topic_ok logs → (∀ k, all_valid (partition logs k)) → Forall safe faults → refines (heap agg) [] →
  wires s !! vehicle_connection v n = Some w →
  let p := mkProc (NewCalcService, mkSim (λ _, 0%nat) (λ _, 0%nat) turn faults agg) ms clk t in
  let p' := exec (Start (H:=sim_env logs) calc_service (GrpcClient (H:=sim_grpc))
                    (length faults + length (concat logs))) p in
  let own := filter (λ e, od_OBUID e = v) w in
  StronglySorted (before cfg run_id) own ∧
  run (CalculateInvoice service v) (sim_agg (heap p').2) =
    match own with
    | [] => (None, Some (not_found v))
    | _ => (Some (invoice_of v (foldl fadd fzero (h_dists [] own))), None)
    end.
Proof.
  intros Hm Hs Hw Hi Hrx Hord Hok Hv Hf Ha Hwv p p' own.
  assert (NoDup (od_EventID <$> concat (wires s))) as Hnd
    by apply (Unique_sent cfg run_id), (Unique_reachable cfg payload run_id n s Hs).
  pose proof (received_all _ _ _ _ Hw Hrx) as Hca. pose proof (Forall2_concat_all _ _ _ Hca) as Hcat.
  pose proof (stored_in_order_stored part _ _ Hord) as Hst.
  pose proof (stored_keyed part _ _ logs Hnd Hcat Hst) as Hk.
  set (k := part (Itoa v)).
  pose proof (stored_in_order_events part _ _ logs k Hca Hord) as Hu.
  assert (filter (λ e, od_OBUID e = v) (events (partition logs) k) = own) as Eown.
  { assert ((filter (λ e, part (Itoa (od_OBUID e)) = k) <$> wires s) !! vehicle_connection v n =
      Some (filter (λ e, part (Itoa (od_OBUID e)) = k) w)) as Hwv' by by rewrite list_lookup_fmap, Hwv.
    rewrite (interleaves_filter _ _ _ _ _ Hu Hwv').
    - apply filter_implied. intros e _ ->. done.
    - intros j l Hj Hne. rewrite list_lookup_fmap in Hj. apply fmap_Some in Hj as (l0 & Hl0 & ->).
      apply Forall_filter.
      by apply (vehicle_one_wire cfg payload n run_id s v j l0 Hm Hs Hl0). }
  split.
  { destruct (vehicle_one_wire cfg payload n run_id s v _ w Hm Hs Hwv) as [Hso _].
    by apply StronglySorted_filter. }
  assert (∀ j e, e ∈ events (partition logs) j → in_i32 (od_OBUID e) ∧ (od_OBUID e = v → j = k)) as Hobu.
  { intros j e [He <-]%(events_stored part _ _ _ _ _ Hcat Hst). rewrite Forall_forall in Hi.
    split; [by apply Hi|]. by intros ->. }
  destruct (ideal_trajectory (partition logs k) v) as [Hl Ht]; [| |apply Hv|].
  { fold (events (partition logs) k). rewrite (interleaves_Permutation _ _ Hu).
    rewrite <- filter_concat. by apply NoDup_fmap_filter. }
  { apply Forall_forall. intros e He. by destruct (Hobu k e He). }
  fold (events (partition logs) k) in Hl, Ht. rewrite Eown in Hl, Ht.
  pose proof (consumer_drains logs faults agg turn ms clk t Hok Hk Hv Hf Ha) as Hc. cbv zeta in Hc.
  fold p in Hc. unfold p', exec. destruct (Start _ _ _ p) as [r q].
  destruct Hc as (_ & _ & L & HL & Hpass). cbn [snd].
  rewrite (proj1 (service_invoice v _ _ HL)). unfold l_total in *.
  rewrite (complete_values _ L Hpass k v Hobu), Hl in *. destruct own as [|e own]; [done|].
  by rewrite Ht.
Qed.

(** ** A concrete path *)

(** The generator's one event is read by a receiver, forwarded to the second of two
    partitions, and billed while the first call to the aggregator fails. *)
Section Concrete.
#[local] Existing Instance scripted_ws.
#[local] Existing Instance scripted_producer.
#[local] Instance c_codec : JsonCodec := test_codec.
#[local] Instance c_laws : JsonLaws := test_laws.
#[local] Instance c_status : GrpcStatus := toy_status.

Definition path_receiver : Proc (gset Conn * (Scripted * list RxEvent)) :=
  mkProc (∅, (mkScripted [event_text test_event] [(None, Delivered None)], [])) [] test_clock 0.

Definition path_trace : list RxEvent :=
  (heap (exec (handleWS (NewDataReceiver "obudata") 1048576 9
                 (mkRequest "GET" "/ws" "" "")) path_receiver)).2.2.

(** A partitioner: by the length of the key. *)
Definition path_part (key : string) : nat := (String.length key mod 2)%nat.

Definition path_logs : list (list Message) := mk_topic [[]; km_Value <$> produced path_trace].

Lemma path_received :
  Forall2 (received (E:=Scripted) "obudata" 1048576) [[test_event]] [produced path_trace].
Proof.
  constructor; [|constructor].
  exists 9%nat, (mkRequest "GET" "/ws" "" ""), 0%nat, path_receiver, path_trace.
  split_and!; [done| |by vm_compute|done]. unfold path_trace. by rewrite app_nil_l.
Qed.

Lemma path_acceptable : Forall acceptable (concat [[test_event]]).
Proof. repeat constructor. Qed.

Lemma path_valid : ∀ k, all_valid (partition path_logs k).
Proof.
  apply (partition_all all_valid); [constructor|].
  unfold all_valid. apply (bool_decide_eq_true_1 _). by vm_compute.
Qed.

Lemma path_in_order : stored_in_order path_part [produced path_trace] path_logs.
Proof.
  assert (∀ k, (sent_to path_part k <$> [produced path_trace])
    = [Value <$> partition path_logs k]) as E; [|intros k; rewrite E; apply interleaves_one].
  intros [|[|k]]; [by vm_compute..|].
  assert (Forall (λ m, path_part (km_Key m) = 1%nat) (produced path_trace)) as Hp
    by (apply (bool_decide_eq_true_1 _); by vm_compute).
  assert (filter (λ m, path_part (km_Key m) = S (S k)) (produced path_trace) = []) as E.
  { apply filter_none. eapply Forall_impl; [exact Hp|]. intros m ->. done. }
  rewrite list_fmap_singleton. unfold sent_to. rewrite E. unfold partition, path_logs.
  rewrite lookup_ge_None_2; [done|]. unfold mk_topic. rewrite length_imap. simpl. lia.
Qed.

Definition path_faults : list Fault := [Fine; Fine; CallDropped].

Definition path_run : Proc (CalcService * Sim MemoryStore) :=
  mkProc (NewCalcService, start_sim path_faults) [] test_clock 0.

Definition path_end : Proc (CalcService * Sim MemoryStore) :=
  exec (Start (H:=sim_env path_logs) calc_service (GrpcClient (H:=sim_grpc))
          (length path_faults + length (concat path_logs))) path_run.

Lemma path_safe : Forall safe path_faults.
Proof. by repeat constructor. Qed.

Lemma reconciliation_matches_witness :
  ∃ s, rtc (unwrapped_step test_config "") (initial test_config 1 99) s ∧
       Forall2 (received (E:=Scripted) "obudata" 1048576) (wires s) [produced path_trace] ∧
       Count (run (AggReconciliation service) (sim_agg (heap path_end).2)) =
         s_EventsWritten (summary_of test_config (st s) 1).
Proof.
  destruct test_execution as (s & Hs & Hq & _ & _ & _ & Hw).
  pose proof path_received as Hrx. pose proof path_acceptable as Ha. rewrite <- Hw in Hrx, Ha.
  pose proof (stored_in_order_stored _ _ _ path_in_order) as Hst.
  pose proof (reconciliation_matches test_config ""
    "obudata" 1048576 99 1 1 s [produced path_trace] path_part path_logs path_faults (new_process test_clock)
    0 [] test_clock 0 Hs Hq Ha Hrx Hst (mk_topic_ok _) path_valid path_safe refines_new) as [Hc _].
  exists s. split; [exact Hs|]. split; [exact Hrx|exact Hc].
Defined.

Lemma invoice_of_generated_path_witness :
  ∃ s, Mode test_config = "fixed" ∧
       rtc (unwrapped_step test_config "") (initial test_config 1 99) s ∧ wires s = [[test_event]] ∧
       run (CalculateInvoice service 1) (sim_agg (heap path_end).2) = (Some (mkInvoice 1 fzero fzero), None).
Proof.
  destruct test_execution as (s & Hs & Hq & _ & _ & _ & Hw).
  pose proof path_received as Hrx. pose proof path_acceptable as Ha.
  assert (Forall (λ e, in_i32 (od_OBUID e)) (concat [[test_event]])) as Hi by (repeat constructor; by vm_compute).
  assert (wires s !! vehicle_connection 1 1 = Some [test_event]) as Hv by by rewrite Hw.
  rewrite <- Hw in Hrx, Ha, Hi.
  pose proof (invoice_of_generated_path test_config ""
    "obudata" 1048576 99 1 s [produced path_trace] path_part path_logs path_faults (new_process test_clock)
    0 [] test_clock 0 1 [test_event] eq_refl Hs Ha Hi Hrx path_in_order (mk_topic_ok _) path_valid
    path_safe refines_new Hv) as [_ Hc].
  exists s. split; [reflexivity|]. split; [exact Hs|]. split; [exact Hw|]. unfold path_end. etrans; [exact Hc|]. by vm_compute.
Defined.
End Concrete.
